(* ===== verification/_CoqProject ===== *)
-Q . S2P
Prelude.v
WatcherCoverage.v
RecoveryTypes.v
RecoveryReducer.v
RecoveryInvariants.v
RecoveryTraces.v
RecoverySteps.v
RecoveryTheorems.v
RecoverySnapshot.v
RecoveryCoordinator.v
CoordinatorTheorems.v
RecoveryWorker.v
Paths.v
Glob.v
Policy.v
PolicyLoad.v
ManifestTypes.v
FsGuard.v
SymlinkGate.v
MergeMatrix.v
MergePlans.v
MergeDisk.v
MergeTheorems.v
Asides.v
PolicyTheorems.v
PolicyReach.v
Disk.v
Materialize.v
Endpoint.v
Store.v
Ordered.v
Tree.v
TreeTransport.v
TreeDiff.v
TreePatch.v
Apply.v
Pull.v
Push.v
DiskLemmas.v
ApplyFrames.v
ApplyTheorems.v
Reported.v
ReplayTheorems.v
OrderTheorems.v
StoreTheorems.v
PushTheorems.v
PushContent.v
PushSettled.v
Forest.v
FetchTheorems.v
Decompose.v
SubtreeHashes.v
PublishLemmas.v
TreeTheorems.v
PruneTheorems.v
DiffTheorems.v
PatchTree.v
PatchNodes.v
PatchApply.v
PatchTheorems.v
TreeWitnesses.v
PatchWitnesses.v
PushWitnesses.v
StatWalk.v
StatWalkTheorems.v
StatWalkWitnesses.v
Engine.v
EngineCycle.v
EngineLemmas.v
EngineTheorems.v
EngineDue.v
EngineProgress.v
EngineHost.v
EngineWitnesses.v
WatcherPaths.v
WatchedTheorems.v
PolicyWitnesses.v
Ingress.v
IngressTheorems.v
IngressWitnesses.v
