(* ===== verification/Prelude.v ===== *)
(** * Bowline: verification of the client's sync and recovery core

    Bowline keeps one developer workspace in step across machines.  Its client is a
    daemon with two parts whose mistakes cost a user their work, and this library
    models and verifies those two:

    - the _watcher recovery_ subsystem of [crates/bowline-daemon/src]: when the
      operating system's file watcher loses events, the daemon must not claim
      coverage again until a scan has provably run after the loss;
    - the _manifest engine_ of [crates/bowline-local/src/sync/manifest_engine]: pull
      merges the remote manifest, the ancestor and the disk, and applies the result
      through a journalled transaction a crash may interrupt anywhere; push scans what
      changed, uploads it and swaps the hosted ref.

    ** Watcher recovery

    [WatcherCoverage] models the identity domain of [watcher_coverage.rs]: epochs,
    sealed boundaries, authority generations and the observation channel, shared by
    the platform watchers.  [RecoveryTypes] holds the data of
    [watcher_recovery/types.rs] and its bounded integers, [RecoveryReducer] the state
    machine of [reducer.rs] with one definition per operation, [RecoverySnapshot] the
    document of [snapshot.rs].  The reducer is the state of an error monad: a method
    that returns early keeps what it had written.  [RecoveryCoordinator] puts the
    machine behind its mutex, with the revision signal and the subscriptions, as a step
    relation in which the daemon's threads interleave; [RecoveryWorker] is one attempt,
    [recover_once], against dependencies that answer anything while other threads act
    between its calls, and the debounce that paces attempts.

    [RecoveryInvariants] proves that every operation preserves the reducer's own oracle;
    [RecoveryTraces] and [RecoverySteps] are the facts about runs and single steps that
    [RecoveryTheorems] uses.  Shown: closing an incident rests on a scan that started
    after the last loss; tokens of finished attempts are refused for ever; recovery
    closes when it is left alone; blocks, revisions and identifiers behave;
    exhaustion is unreachable.  [CoordinatorTheorems] shows that concurrent use refines
    the reducer run by one thread: the calls with their results in lock order, the
    snapshots handed out and the worker subscriptions of any interleaving are those of
    [sequential_run], whose meaning of a call ([fence_refusal], [intended]) is written
    without the coordinator's code.  It also shows that a native loss revokes a sealed
    boundary and that an attested frontier proves that nothing happened in between.
    [RecoveryWorker] shows that an attempt that reports a closure really made one; in its
    environment a scan that answers has run its walk-start hook, as the registry's
    dispatch has it, while one that fails may not have.

    ** The manifest engine

    - [Paths] — [workspace_graph.rs], [state_paths.rs], [git_paths.rs], path parts of
      [manifest.rs]: normalization, lexical link resolution, publishable paths, the role
      of a path inside [.git].
    - [ManifestTypes] — entries, ancestor rows, intent payloads, unsyncable reasons.
    - [FsGuard], [SymlinkGate] — [fs_guard.rs]: observing without following, parent
      chains, the bounded read and the gate that decides whether a link may be created.
      [SymlinkGate] compares the gate with the kernel's resolution: it is sound for the
      links of its hypothesis, and examples outside it are links that escape.
    - [MergeMatrix] — [pull_apply.rs], [delta.rs]: what each side did to a path, the
      eleven-row matrix, the classification of a head.  [MergePlans] (a plan is the sum of
      its paths), [MergeDisk] (what a classified path says of the disk) and
      [MergeTheorems] prove that nothing unverified is overwritten, no local change is
      forgotten, narrowing is exact and no path fails the cycle.
    - [Asides] — [naming.rs]: names of conflict asides; the parser accepts exactly the
      generated names.
    - [Disk] — the file system of one volume as a map from paths to objects, with the
      answers of the calls the engine makes.  [w_escaped] records a write that went
      through a link.  [Materialize] — [materialize.rs] and the staged install of
      [fs_guard/anchored.rs] over it.
    - [Endpoint] — [endpoint.rs]: when a stat may be trusted instead of a read.
    - [Store] — [store.rs] and its queries; a row holds columns, so every integer
      conversion is explicit.  [StoreTheorems]: commits are atomic and rows read back
      field for field; a verified ref can not be rolled back or forked.
    - [Apply] — [apply.rs], [prefetch.rs], [git_contract.rs], [intents.rs]: the
      transaction and the replay of its journal.  [Pull] — the entry points of
      [pull_apply.rs]: freshness, the head's plan, the pull.
      [DiskLemmas] and [ApplyFrames] carry invariants through the computations.
      [ApplyTheorems]: applying a plan to a disk that changed in any way since it was
      decided destroys no local work.  [Reported]: what an operation reports is on the
      disk, and installed bytes are the ones the manifest names.  [ReplayTheorems]: crash
      recovery destroys no local work.  [OrderTheorems]: a transaction takes every
      operation of its plan once, in an order that needs nothing not yet done, putting off
      exactly what an active Git lock holds back, in windows of bounded size.

    ** The tree transport

    A manifest travels as a Merkle tree of sealed directory nodes.

    - [Ordered] — iteration in key order.  [Tree] — [manifest/tree.rs],
      [manifest/directory_tree.rs] and the node parts of [manifest.rs]: a node and its
      decoder, sealing and opening, the decomposition of a flat manifest into directories
      and the content hash of every subtree.
    - [TreeTransport] — [tree_transport.rs], [publish.rs], [fetch.rs]: the ledger of nodes
      known to be stored, the bottom-up publisher that skips what the ledger knows, and
      the walk that fetches a root, filling recognised subtrees from the local manifest.
    - [TreeDiff] — [diff.rs]: the comparison of two roots.  [TreePatch] — [patch.rs]: a
      delta applied to an editable copy of a root, sealed bottom-up.

    [Forest] is the specification: the directory tree a manifest denotes, with the key of
    the node that carries each directory.  [FetchTheorems] says what a walk accepts and
    returns, [Decompose] and [SubtreeHashes] relate a manifest, its directories and their
    hashes, [PublishLemmas] says what the publisher leaves stored.  [TreeTheorems]:
    fetching what was published gives it back, whatever the ledger skipped.
    [PruneTheorems]: pruning does not change what a pull sees.  [DiffTheorems]: the delta
    of two roots is their difference.  [PatchTree], [PatchNodes] and [PatchApply] relate
    an editable copy to the directories it denotes and say what one change, and a whole
    delta, does to them; [PatchTheorems]: patching a root whose nodes are listed under the
    write epoch is publishing the changed manifest.  [TreeWitnesses] and [PatchWitnesses] run the transport on small
    instances of its libraries, which shows the hypotheses can be met, and exhibit a
    name collision that the comparison does not report.

    ** Pushing

    [Push] models [push.rs] and [push/candidate.rs]: the scan of the dirty paths, the
    uploads and their ledger, the removal breaker, the publication and the swap of the
    ref.  The disk is a function of the engine's looks at it, so the user may change any
    path between two of them.  [PushTheorems]: the ancestor changes only on a proven
    advance, a path is removed only if it was seen gone, and one push removes no more
    than the breaker allows.  [PushContent]: every row that claims an upload names stored
    content of its identity, however a push ends.  [PushSettled]: a push that ends without
    losing the ref answers for every dirty path it did not skip, and only paths that are
    neither skipped nor unsyncable and whose row says what was seen, a file's content read or
    vouched for by its stat, leave the pending table.  [PushWitnesses] runs a push against a host that
    queues its uploads.

    ** Walking and driving

    [StatWalk] models [stat_walk.rs]: the pass that finds, without opening a file, the paths
    that differ from their rows.  [StatWalkTheorems]: it reports exactly those, it ends, and a
    pull that observes what it reported plans what a pull that observes everything would,
    except at changed rows that the policy no longer syncs or that are private state, where
    the narrowing check of a debug build refuses; [StatWalkWitnesses] runs it.

    [Engine] models the engine's state and the transitions that do no I/O ([mod.rs],
    [state.rs], [dirty_set.rs], [events.rs]): events, deadlines, backoff, degradation,
    snapshot, signature and receipt.  [EngineCycle] models what happens when a deadline
    elapses ([mod.rs], [cycle_outcome.rs], [scan_cycle.rs], [publish_cycle.rs],
    [ref_observation.rs], [workspace_root.rs]): the root sentinel, the scans, the pull, the
    bounded push with its retry, the refresh of durable facts, the barriers, startup and the
    scan that runs on its own thread.  A pull and a push are ports of the cycle, the class
    [EnginePorts], so that what is shown of the driver holds whatever they do; the laws a
    theorem needs of them are classes ([RefusalLaw], [PushSettles], [ClockLaw]).
    [EngineLemmas] carries facts through a cycle.  [EngineTheorems]: a burst of edits is due
    within the latency cap; the removals offered for confirmation are those refused.
    [EngineDue]: nothing is touched under a root that is not proven; a receipt describes the
    store.  [EngineProgress]: a dirty path is forgotten only through a push that settled it,
    and work that is left has a deadline.  [EngineHost] puts the push of [Push] in the port,
    discharges [RefusalLaw] and [PushSettles] for it and so shows of the two together that an
    edit stays noted until the ancestor answers for it.  [EngineWitnesses] runs the engine,
    with its push and with others, and exhibits two runs of the daemon's loop that its
    documentation excludes: a scan owed during an authoritative scan is left without a wakeup,
    and a receipt may precede the scan it waits for.

    ** Policy, watcher events and ingress

    What the engine hears of comes from two sides, a scan and the watcher, and both ask the
    policy of the user.

    - [Glob] — [glob.rs]: the pattern matcher, proved equal to the recursive meaning of a
      pattern.
    - [Policy] — [policy/builtin_classification.rs], [project_view.rs], [traversal.rs] and the
      rules of [policy/mod.rs], with the worktree links of [git_worktree_link.rs]: the class of
      a path.  [PolicyLoad] — the parser of [.bowlineignore] and the loaders of
      [policy/mod.rs] over a tree of directories.  [PolicyTheorems]: a load for dirty roots or
      for one path agrees with the load of the workspace.  [PolicyReach]: no rule weakens a
      safety class, and a walk enters the directories above what syncs.
    - [WatcherPaths] — [daemon/watcher.rs], [watcher/destination.rs], [sync/policy_cache.rs]:
      from a watcher signal to an engine event, with the cache of policies, and the policy the
      walk asks.  [WatchedTheorems]: the cache is transparent, and the watcher records exactly
      what a scan would sync, under hypotheses each of which [PolicyWitnesses] shows to be
      needed by a workspace on which the two disagree.
    - [Ingress] — [manifest_driver/watcher_ingress.rs]: the accumulator between callbacks and
      the engine, as atomic steps of any number of threads.  [IngressTheorems]: no observation
      and no wake is lost in any interleaving, and the accumulator stays bounded;
      [IngressWitnesses] runs a contended schedule.

    ** Conventions

    A Rust method is a function of the error-state monad [M] below.  Machine integers
    are [Z] with the behaviour at the end of the range written out in each operation.
    Strings and bytes are [string].  Maps and sets of the code are [gmap] and [gset];
    where the code iterates in order, the order is [merge_sort] of the keys.  Code of
    libraries is a class or a record of functions ([ContentHash], [SeedHash],
    [Envelope], [Sealing], [Blake3], [NodeCodec], [RemoteObjects], [Env]).  Assumed of
    them: a SHA-256 digest is printed in lower-case hexadecimal ([hex_digest]), a BLAKE3
    digest has 64 characters ([digests]) and does not collide on the directories at hand
    ([collision_free]), postcard decodes what it encoded ([NodeCodecLaws]), the envelope
    is authenticated encryption ([EnvelopeLaws]), a stored object does not change
    ([RemoteObjectsLaws]), and uploads that were accepted are stored once the transport
    says they settled ([RemoteBlobsLaws]).  Failures come from
    fault streams in the state ([w_faults], [ms_faults]): a theorem that
    quantifies over the state quantifies over every pattern of failures.

    Fuel: the normalization loops of [Paths] take the length of the string, which each
    turn shortens; the classification of a [.git] tail takes its length plus one, and
    proceeds to a proper suffix; the symlink gate counts down the code's own forty hops;
    a loop over a [u32] range is [for_range], which needs no fuel; a walk of directory
    nodes counts down the levels the code's own depth guard leaves ([publish_room],
    [walk_room]), and ends where the guard refuses; the stat walk counts down one level more
    than the deepest path a peer accepts ([walk_levels]), and [walk_terminates] shows that
    more would change nothing; the push of a cycle counts down the code's own two attempts;
    [trim] takes the length of the text, which each turn shortens; a drain that runs alone
    ([drain_alone]) has nine steps or fewer and is given twelve, and its theorem says that it
    returns.
    Every other recursion is structural.  None of the functions can run out of fuel unnoticed:
    [normalize_canonical] shows what the loops compute.

    ** Not modelled

    The platform adapters of the watcher (operating-system I/O), the native callback's queue
    and the bridge's loop; the threads and channels of the manifest driver, whose calls on the
    engine are the steps of [engine_step] and on the ingress those of [ingress_step]; the
    endpoint's probes; the
    copy between volumes of the staged install and the recovery-owner records of
    [anchored.rs]; the hosted client, the RPC service, status projection and command
    line; envelope encryption, SQLite and serde, which are libraries.  Counters and log
    lines have no effect on behaviour.  Within one operation of a pull the disk is not
    changed by others; between deciding and applying, across a crash, and between any two
    looks of a push, it may be changed arbitrarily. *)

From stdpp Require Export base tactics numbers list strings gmap.
From Stdlib Require Export ZArith Lia.

(** ** Results and the error-state monad *)

(** Rust's [Result<T, E>]. *)
Inductive Result (A E : Type) : Type :=
| Ok (a : A)
| Err (e : E).
Arguments Ok {A E} a.
Arguments Err {A E} e.

(** A Rust method [fn f(&mut self, ..) -> Result<A, E>]: the receiver is
    threaded explicitly, and — as in Rust, unlike a transactional monad — the
    mutations performed before an early [return Err(..)] stay visible. *)
Definition M (S E A : Type) : Type := S → Result A E * S.

Definition m_ret {S E A} (a : A) : M S E A := λ s, (Ok a, s).

(** The [?] operator: stop on [Err], keeping the state reached so far. *)
Definition m_bind {S E A B} (f : A → M S E B) (m : M S E A) : M S E B :=
  λ s, match m s with
       | (Ok a, s') => f a s'
       | (Err e, s') => (Err e, s')
       end.

#[export] Instance M_ret S E : MRet (M S E) := λ A, m_ret.
#[export] Instance M_bind S E : MBind (M S E) := λ A B, m_bind.

Definition throw {S E A} (e : E) : M S E A := λ s, (Err e, s).
Definition get {S E} : M S E S := λ s, (Ok s, s).
Definition put {S E} (s' : S) : M S E unit := λ _, (Ok tt, s').
Definition modify {S E} (f : S → S) : M S E unit := λ s, (Ok tt, f s).

(** [option.ok_or(e)?] *)
Definition ok_or {S E A} (e : E) (o : option A) : M S E A :=
  match o with Some a => m_ret a | None => throw e end.

(** [if b { return Err(e) }] *)
Definition bail_if {S E} (b : bool) (e : E) : M S E unit :=
  if b then throw e else m_ret tt.

(** A pure [Result] used with [?]. *)
Definition of_result {S E A} (r : Result A E) : M S E A := λ s, (r, s).

Definition result_of {S E A} (m : M S E A) (s : S) : Result A E := fst (m s).
Definition state_of {S E A} (m : M S E A) (s : S) : S := snd (m s).

Definition is_ok {A E} (r : Result A E) : bool :=
  match r with Ok _ => true | Err _ => false end.

(** [Result::map] *)
Definition result_map {A B E} (f : A → B) (r : Result A E) : Result B E :=
  match r with Ok a => Ok (f a) | Err e => Err e end.

(** ** Functional record update

    [r <| f := v |>] rebuilds the record [r] with field [f] replaced.  The
    setter of a field is found by abstracting its projection in the record's
    eta-expansion, which each record declares once with an [Eta] instance. *)
Class Eta (R : Type) := eta : R → R.

Class Setter {R T : Type} (proj : R → T) := field_update : (T → T) → R → R.

Ltac derive_setter :=
  lazymatch goal with
  | |- @Setter ?R ?T ?proj =>
      let e := constr:(_ : Eta R) in
      let e := eval hnf in e in
      let abstracted := eval pattern proj in e in
      lazymatch abstracted with
      | ?build _ =>
          let upd := constr:(λ (g : T → T), build (λ r, g (proj r))) in
          let upd := eval cbv beta in upd in
          exact upd
      end
  end.

#[export] Hint Extern 0 (Setter _) => derive_setter : typeclass_instances.

Declare Scope record_scope.
Delimit Scope record_scope with record.
Open Scope record_scope.

Notation "r <| f := v |>" := (field_update (proj := f) (λ _, v) r)
  (at level 1, f at level 9, left associativity,
   format "r  <|  f  :=  v  |>") : record_scope.

(** ** Machine integers

    A [u64]/[u32] is a [Z]; each operation writes out what the Rust operation
    does at the end of its range. *)
Open Scope Z_scope.

Definition u64_max : Z := 2 ^ 64 - 1.
Definition u32_max : Z := 2 ^ 32 - 1.

Definition is_u64 (z : Z) : Prop := 0 ≤ z ≤ u64_max.
Definition is_u32 (z : Z) : Prop := 0 ≤ z ≤ u32_max.

(** [u64::checked_add] *)
Definition u64_checked_add (a b : Z) : option Z :=
  if a + b <=? u64_max then Some (a + b) else None.

(** [u64::checked_sub] *)
Definition u64_checked_sub (a b : Z) : option Z :=
  if b <=? a then Some (a - b) else None.

(** [u64::saturating_add] *)
Definition u64_saturating_add (a b : Z) : Z := Z.min (a + b) u64_max.

(** [u64::saturating_sub] *)
Definition u64_saturating_sub (a b : Z) : Z := Z.max (a - b) 0.

(** [u64::saturating_mul] *)
Definition u64_saturating_mul (a b : Z) : Z := Z.min (a * b) u64_max.

(** [u32::checked_add] *)
Definition u32_checked_add (a b : Z) : option Z :=
  if a + b <=? u32_max then Some (a + b) else None.

(** [u32::saturating_sub] *)
Definition u32_saturating_sub (a b : Z) : Z := Z.max (a - b) 0.

(** [u32::saturating_add] *)
Definition u32_saturating_add (a b : Z) : Z := Z.min (a + b) u32_max.

(** [Option::filter] followed by nothing: keep the value if the test holds. *)
Definition option_filter {A} (p : A → bool) (o : option A) : option A :=
  match o with Some a => if p a then Some a else None | None => None end.

(** [Option::is_some_and] *)
Definition is_some_and {A} (p : A → bool) (o : option A) : bool :=
  match o with Some a => p a | None => false end.

(** [Option::is_none_or] *)
Definition is_none_or {A} (p : A → bool) (o : option A) : bool :=
  match o with Some a => p a | None => true end.

Definition is_some {A} (o : option A) : bool :=
  match o with Some _ => true | None => false end.

Definition is_none {A} (o : option A) : bool :=
  match o with Some _ => false | None => true end.

(** [std::time::Duration], as its number of nanoseconds. *)
Abbreviation Duration := Z (only parsing).
Definition duration_max : Duration := u64_max * 1000000000 + 999999999.
Definition duration_from_millis (ms : Z) : Duration := ms * 1000000.
Definition duration_from_secs (s : Z) : Duration := s * 1000000000.
(** [Duration::as_millis] (a [u128]): truncating. *)
Definition duration_as_millis (d : Duration) : Z := d / 1000000.
(** [Duration::saturating_mul(u32)] *)
Definition duration_saturating_mul (d : Duration) (k : Z) : Duration :=
  Z.min (d * k) duration_max.
(** [u64::try_from(u128)] *)
Definition u64_try_from (z : Z) : option Z :=
  if z <=? u64_max then Some z else None.

(** ** Weakest preconditions of the error-state monad *)

Section WP.
Context {S E : Type}.

(** [wp m Q s]: running [m] from [s] ends in a result and a state satisfying [Q]. *)
Definition wp {A} (m : M S E A) (Q : Result A E → S → Prop) (s : S) : Prop :=
  match m s with (r, s') => Q r s' end.

Lemma wp_state {A} (m : M S E A) (P : S → Prop) s :
  wp m (λ _, P) s → P (state_of m s).
Proof. unfold wp, state_of. by destruct (m s). Qed.

Lemma wp_result {A} (m : M S E A) (P : Result A E → Prop) s :
  wp m (λ r _, P r) s → P (result_of m s).
Proof. unfold wp, result_of. by destruct (m s). Qed.

Lemma wp_eq {A} (m : M S E A) Q s r s' : wp m Q s → m s = (r, s') → Q r s'.
Proof. unfold wp. by intros ? Heq; rewrite Heq in *. Qed.

Lemma wp_conseq {A} (m : M S E A) (Q R : Result A E → S → Prop) s :
  wp m Q s → (∀ r s', Q r s' → R r s') → wp m R s.
Proof. unfold wp. destruct (m s). eauto. Qed.

Lemma wp_and {A} (m : M S E A) (Q R : Result A E → S → Prop) s :
  wp m Q s → wp m R s → wp m (λ r s', Q r s' ∧ R r s') s.
Proof. unfold wp. by destruct (m s). Qed.

Lemma wp_bind {A B} (m : M S E A) (f : A → M S E B) Q s :
  wp m (λ r s', match r with Ok a => wp (f a) Q s' | Err e => Q (Err e) s' end) s →
  wp (m ≫= f) Q s.
Proof. unfold wp, mbind, M_bind, m_bind. by destruct (m s) as [[]]. Qed.

Lemma wp_ret {A} (a : A) Q s : Q (Ok a) s → wp (mret a) Q s.
Proof. done. Qed.

Lemma wp_throw {A} (e : E) (Q : Result A E → S → Prop) s : Q (Err e) s → wp (throw e) Q s.
Proof. done. Qed.

Lemma wp_get Q s : Q (Ok s) s → wp get Q s.
Proof. done. Qed.

Lemma wp_modify f Q s : Q (Ok tt) (f s) → wp (modify f) Q s.
Proof. done. Qed.

Lemma wp_ok_or {A} (e : E) (o : option A) Q s :
  (∀ a, o = Some a → Q (Ok a) s) → (o = None → Q (Err e) s) → wp (ok_or e o) Q s.
Proof. unfold wp, ok_or, m_ret, throw. destruct o; eauto. Qed.

Lemma wp_bail_if (b : bool) (e : E) Q s :
  (b = false → Q (Ok tt) s) → (b = true → Q (Err e) s) → wp (bail_if b e) Q s.
Proof. unfold wp, bail_if, m_ret, throw. destruct b; eauto. Qed.

End WP.

(** One step of symbolic execution.  [wp_unfold] names the head definitions of
    the development that are executed by unfolding; it is extended per file. *)
Ltac wp_step :=
  lazymatch goal with
  | |- wp (_ ≫= _) _ _ => apply wp_bind
  | |- wp (mret _) _ _ => apply wp_ret
  | |- wp (throw _) _ _ => apply wp_throw
  | |- wp get _ _ => apply wp_get
  | |- wp (modify _) _ _ => apply wp_modify
  | |- wp (ok_or _ ?o) _ _ => apply wp_ok_or; [intros ?|idtac]; intros ?
  | |- wp (bail_if _ _) _ _ => apply wp_bail_if; intros ?
  | |- wp (if ?b then _ else _) _ _ => destruct b eqn:?
  | |- wp (match ?x with _ => _ end) _ _ => destruct x eqn:?
  end; cbn beta iota.

(** ** Shared tactics *)

Ltac unfold_M :=
  unfold state_of, result_of, mbind, mret, M_bind, M_ret, m_bind, m_ret,
    throw, get, put, modify, ok_or, bail_if, of_result in *.

(** Split every [match]/[if] of the goal, keeping the equations. *)
Ltac split_cases :=
  repeat (case_match; simplify_eq/=; try done).

(** Turn boolean tests in the context into propositions. *)
Ltac bool_to_prop :=
  repeat match goal with
  | H : (_ && _) = true |- _ => apply andb_true_iff in H; destruct H
  | H : (_ || _) = false |- _ => apply orb_false_iff in H; destruct H
  | H : negb _ = true |- _ => apply negb_true_iff in H
  | H : negb _ = false |- _ => apply negb_false_iff in H
  | H : (_ <=? _) = true |- _ => apply Z.leb_le in H
  | H : (_ <=? _) = false |- _ => apply Z.leb_gt in H
  | H : (_ <? _) = true |- _ => apply Z.ltb_lt in H
  | H : (_ <? _) = false |- _ => apply Z.ltb_ge in H
  | H : (_ =? _) = true |- _ => apply Z.eqb_eq in H
  | H : (_ =? _) = false |- _ => apply Z.eqb_neq in H
  | H : bool_decide _ = true |- _ => apply bool_decide_eq_true_1 in H
  | H : bool_decide _ = false |- _ => apply bool_decide_eq_false_1 in H
  end.

(** Compute every closed decision that evaluates to a boolean constant. *)
Ltac eval_decides :=
  repeat match goal with
  | H : context [bool_decide ?P] |- _ =>
      let v := eval vm_compute in (bool_decide P) in
      lazymatch v with true => idtac | false => idtac end;
      change (bool_decide P) with v in H; cbn beta iota in H
  | |- context [bool_decide ?P] =>
      let v := eval vm_compute in (bool_decide P) in
      lazymatch v with true => idtac | false => idtac end;
      change (bool_decide P) with v; cbn beta iota
  end.

(** ** Generic lemmas *)

Create HintDb bowline discriminated.

Lemma u64_checked_add_Some a b c :
  u64_checked_add a b = Some c ↔ c = a + b ∧ a + b ≤ u64_max.
Proof.
  unfold u64_checked_add. destruct (Z.leb_spec (a + b) u64_max); naive_solver lia.
Qed.

Lemma u64_checked_sub_Some a b c :
  u64_checked_sub a b = Some c ↔ c = a - b ∧ b ≤ a.
Proof.
  unfold u64_checked_sub. destruct (Z.leb_spec b a); naive_solver lia.
Qed.

Lemma option_filter_Some {A} (p : A → bool) o a :
  option_filter p o = Some a ↔ o = Some a ∧ p a = true.
Proof.
  unfold option_filter. destruct o as [x|]; [destruct (p x) eqn:Hp|];
    split; [intros [= ->]; done|intros [[= ->] _]; done|done|intros [[= ->] ?]; congruence
           |done|intros [? _]; done].
Qed.

Lemma option_filter_None {A} (p : A → bool) o :
  option_filter p o = None ↔ ∀ a, o = Some a → p a = false.
Proof.
  unfold option_filter. destruct o as [x|]; [destruct (p x) eqn:Hp|]; split; try done.
  - intros H. specialize (H x eq_refl). congruence.
  - by intros _ a [= <-].
Qed.

(** ** Bounded loops with an early exit

    [for i in lo..hi { if let Some(a) = test(i) { return a } }]: the first index
    that exits, [None] when the range is exhausted.  The recursion halves the
    range, so that a range of [u32::MAX] indices needs neither fuel nor unary
    numbers. *)
Fixpoint search_pos {A} (test : Z → option A) (n : positive) (lo : Z) : option A :=
  match n with
  | xH => test lo
  | xO n =>
      match search_pos test n lo with
      | Some a => Some a
      | None => search_pos test n (lo + Z.pos n)
      end
  | xI n =>
      match test lo with
      | Some a => Some a
      | None =>
          match search_pos test n (lo + 1) with
          | Some a => Some a
          | None => search_pos test n (lo + 1 + Z.pos n)
          end
      end
  end.

Definition for_range {A} (lo hi : Z) (test : Z → option A) : option A :=
  match hi - lo with Zpos n => search_pos test n lo | _ => None end.

Lemma search_pos_None {A} (test : Z → option A) n lo :
  search_pos test n lo = None → ∀ i, lo ≤ i < lo + Z.pos n → test i = None.
Proof.
  revert lo. induction n as [n IH|n IH|]; intros lo; cbn [search_pos].
  - destruct (test lo) eqn:E0; [done|]. destruct (search_pos test n (lo + 1)) eqn:E1; [done|].
    intros E2 i Hi. destruct (decide (i = lo)) as [->|]; [done|].
    destruct (decide (i < lo + 1 + Z.pos n));
      [apply (IH (lo + 1))|apply (IH (lo + 1 + Z.pos n))]; done || lia.
  - destruct (search_pos test n lo) eqn:E1; [done|]. intros E2 i Hi.
    destruct (decide (i < lo + Z.pos n)); [apply (IH lo)|apply (IH (lo + Z.pos n))]; done || lia.
  - intros Ht i Hi. by replace i with lo by lia.
Qed.

Lemma search_pos_Some {A} (test : Z → option A) n lo a :
  search_pos test n lo = Some a →
  ∃ i, lo ≤ i < lo + Z.pos n ∧ test i = Some a ∧ ∀ j, lo ≤ j < i → test j = None.
Proof.
  revert lo. induction n as [n IH|n IH|]; intros lo; cbn [search_pos].
  - destruct (test lo) eqn:E0; [|destruct (search_pos test n (lo + 1)) eqn:E1].
    + intros [= <-]. exists lo. split_and!; [lia|lia|done|lia].
    + intros [= <-]. apply IH in E1 as (i & Hi & Ht & Hj).
      exists i. split_and!; [lia|lia|done|].
      intros j ?. destruct (decide (j = lo)) as [->|]; [done|apply Hj; lia].
    + intros (i & Hi & Ht & Hj)%IH. exists i. split_and!; [lia|lia|done|].
      intros j ?. destruct (decide (j = lo)) as [->|]; [done|].
      destruct (decide (j < lo + 1 + Z.pos n)); [|apply Hj; lia].
      by apply (search_pos_None test n (lo + 1)); [|lia].
  - destruct (search_pos test n lo) eqn:E1.
    + intros [= <-]. apply IH in E1 as (i & Hi & Ht & Hj).
      exists i. split_and!; [lia|lia|done|apply Hj].
    + intros (i & Hi & Ht & Hj)%IH. exists i. split_and!; [lia|lia|done|].
      intros j ?. destruct (decide (j < lo + Z.pos n)); [|apply Hj; lia].
      by apply (search_pos_None test n lo); [|lia].
  - intros Ht. exists lo. split_and!; [lia|lia|done|lia].
Qed.

Lemma for_range_Some {A} (test : Z → option A) lo hi a :
  for_range lo hi test = Some a →
  ∃ i, lo ≤ i < hi ∧ test i = Some a ∧ ∀ j, lo ≤ j < i → test j = None.
Proof.
  unfold for_range. destruct (hi - lo) eqn:E; [done| |done].
  intros (i & Hi & ?)%search_pos_Some. exists i. split; [lia|done].
Qed.

Lemma for_range_None {A} (test : Z → option A) lo hi :
  for_range lo hi test = None → ∀ i, lo ≤ i < hi → test i = None.
Proof.
  unfold for_range. destruct (hi - lo) eqn:E; try lia.
  intros H i Hi. eapply search_pos_None; [done|lia].
Qed.
