(* ===== verification/WatcherCoverage.v ===== *)
(** * Native watcher coverage: identities, boundaries and close authority

    Models the platform-independent part of
    [crates/bowline-daemon/src/watcher_coverage/mod.rs]: the allocator of
    stream epochs and boundary ids, the coverage boundaries the two platform
    adapters produce, the shared validity generation a close guard samples, and
    the bounded lane that publishes native losses.

    The validity generation is an [Arc<AtomicU64>] shared by every clone of
    [WatcherCoverageIds] and by every guard it issued.  It is modelled as a cell
    of a store: an authority is a reference ([AuthorityRef]), and reading a
    guard takes the current contents of the store. *)

From S2P Require Import Prelude.

(** [NonZeroU64] newtypes. *)
Abbreviation WatcherStreamEpoch := Z (only parsing).
Abbreviation WatcherBoundaryId := Z (only parsing).
Abbreviation FseventsCursor := Z (only parsing).
Abbreviation DarwinFlushGeneration := Z (only parsing).
Abbreviation WatcherCallbackGeneration := Z (only parsing).
Abbreviation WatcherLossGeneration := Z (only parsing).

(** Native observations that invalidate coverage. *)
Inductive WatcherCoverageLoss : Type :=
| UserDropped
| KernelDropped
| EventIdsWrapped
| RootChanged
| StreamStopped
| NonMonotonicCursor
| QueueOverflow
| BackendFailure.

#[export] Instance WatcherCoverageLoss_eq_dec : EqDecision WatcherCoverageLoss.
Proof. solve_decision. Defined.

Inductive WatcherCoverageError : Type :=
| CoverageUnavailable
| TimedOut
| Cancelled
| Loss (loss : WatcherCoverageLoss)
| StaleBoundary
| IdentifierExhaustedNative
| Shutdown.

Record NativeCoverageObservation := mkObservation {
  obs_stream_epoch : WatcherStreamEpoch;
  obs_loss : WatcherCoverageLoss;
}.

(** ** Coverage boundaries *)

Inductive DarwinCoverageStart : Type :=
| CursorReplay (covered_last_safe replay_from : FseventsCursor)
    (recovery_cause : option WatcherCoverageLoss)
| FreshStream (fresh_from : FseventsCursor) (discontinuity : WatcherCoverageLoss).

#[export] Instance DarwinCoverageStart_eq_dec : EqDecision DarwinCoverageStart.
Proof. solve_decision. Defined.

Record DarwinCoverageBoundary := mkDarwinBoundary {
  db_boundary_id : WatcherBoundaryId;
  db_covered_epoch : WatcherStreamEpoch;
  db_live_epoch : WatcherStreamEpoch;
  db_start : DarwinCoverageStart;
  db_history_through : FseventsCursor;
  db_must_scan_subdirs : bool;
  db_sealed_through : FseventsCursor;
  db_flush_generation : DarwinFlushGeneration;
  db_loss_generation : WatcherLossGeneration;
  db_callback_generation : WatcherCallbackGeneration;
}.

#[export] Instance DarwinCoverageBoundary_eq_dec : EqDecision DarwinCoverageBoundary.
Proof. solve_decision. Defined.

(** [LinuxWatcherReady] and [LinuxCallbackDrain] carry only the control id of
    the event-loop command that produced the marker. *)
Record LinuxCoverageBoundary := mkLinuxBoundary {
  lb_boundary_id : WatcherBoundaryId;
  lb_stream_epoch : WatcherStreamEpoch;
  lb_watcher_ready : WatcherBoundaryId;
  lb_callback_drain : WatcherBoundaryId;
}.

#[export] Instance LinuxCoverageBoundary_eq_dec : EqDecision LinuxCoverageBoundary.
Proof. solve_decision. Defined.

Inductive WatcherCoverageBoundary : Type :=
| DarwinBoundary (boundary : DarwinCoverageBoundary)
| LinuxBoundary (boundary : LinuxCoverageBoundary).

#[export] Instance WatcherCoverageBoundary_eq_dec : EqDecision WatcherCoverageBoundary.
Proof. solve_decision. Defined.

Definition boundary_id (b : WatcherCoverageBoundary) : WatcherBoundaryId :=
  match b with
  | DarwinBoundary d => db_boundary_id d
  | LinuxBoundary l => lb_boundary_id l
  end.

Definition live_stream_epoch (b : WatcherCoverageBoundary) : WatcherStreamEpoch :=
  match b with
  | DarwinBoundary d => db_live_epoch d
  | LinuxBoundary l => lb_stream_epoch l
  end.

(** ** The close authority *)

(** Identity of one shared [Arc<AtomicU64>] generation cell. *)
Abbreviation AuthorityRef := nat (only parsing).
(** The contents of the generation cells at one instant. *)
Definition Generations : Type := AuthorityRef → Z.

Record WatcherCoverageCloseToken := mkCloseToken {
  ct_boundary_id : WatcherBoundaryId;
  ct_generation : Z;
}.

#[export] Instance WatcherCoverageCloseToken_eq_dec : EqDecision WatcherCoverageCloseToken.
Proof. solve_decision. Defined.

Record WatcherCoverageCloseGuard := mkCloseGuard {
  cg_authority : AuthorityRef;
  cg_token : WatcherCoverageCloseToken;
}.

(** [WatcherCoverageCloseGuard::is_current] *)
Definition is_current (gens : Generations) (guard : WatcherCoverageCloseGuard) : bool :=
  gens (cg_authority guard) =? ct_generation (cg_token guard).

Record WatcherCoverageHandoff := mkHandoff {
  ho_boundary : WatcherCoverageBoundary;
  ho_close_guard : WatcherCoverageCloseGuard;
}.

Definition handoff_boundary_id (h : WatcherCoverageHandoff) : WatcherBoundaryId :=
  boundary_id (ho_boundary h).
Definition handoff_live_stream_epoch (h : WatcherCoverageHandoff) : WatcherStreamEpoch :=
  live_stream_epoch (ho_boundary h).

(** ** The identity domain of one workspace

    All clones of one [WatcherCoverageIds] share these cells; the outward lane
    is a [bounded(1)] channel whose receiver the domain itself retains, so it is
    never disconnected. *)
Record WatcherCoverageIds := mkIds {
  ids_authority : AuthorityRef;
  ids_next_epoch : Z;
  ids_next_boundary : Z;
  ids_generation : Z;
  ids_lane : option NativeCoverageObservation;
}.

#[export] Instance WatcherCoverageIds_eta : Eta WatcherCoverageIds :=
  λ r, mkIds (ids_authority r) (ids_next_epoch r) (ids_next_boundary r)
             (ids_generation r) (ids_lane r).

Definition ids_new (authority : AuthorityRef) : WatcherCoverageIds :=
  mkIds authority 1 1 1 None.

(** The store cell of this domain. *)
Definition ids_generations (ids : WatcherCoverageIds) (others : Generations) : Generations :=
  λ a, if bool_decide (a = ids_authority ids) then ids_generation ids else others a.

(** [WatcherCoverageIds::next]: [fetch_update] with [checked_add(1)], then
    [NonZeroU64::new] of the previous value. *)
Definition ids_next (counter : Z) : Result Z WatcherCoverageError * Z :=
  match u64_checked_add counter 1 with
  | Some counter' =>
      (if counter =? 0 then Err IdentifierExhaustedNative else Ok counter, counter')
  | None => (Err IdentifierExhaustedNative, counter)
  end.

Definition next_epoch (ids : WatcherCoverageIds)
    : Result WatcherStreamEpoch WatcherCoverageError * WatcherCoverageIds :=
  let '(r, c) := ids_next (ids_next_epoch ids) in
  (r, ids <| ids_next_epoch := c |>).

Definition next_boundary (ids : WatcherCoverageIds)
    : Result WatcherBoundaryId WatcherCoverageError * WatcherCoverageIds :=
  let '(r, c) := ids_next (ids_next_boundary ids) in
  (r, ids <| ids_next_boundary := c |>).

(** [WatcherCoverageAuthority::invalidate]: a saturating [fetch_update]. *)
Definition invalidate_current_boundary (ids : WatcherCoverageIds) : WatcherCoverageIds :=
  match u64_checked_add (ids_generation ids) 1 with
  | Some g => ids <| ids_generation := g |>
  | None => ids
  end.

(** [NativeCoverageObservationPublisher::publish]: [try_send] on the bounded(1)
    lane; a full lane coalesces. *)
Definition publish (ids : WatcherCoverageIds) (o : NativeCoverageObservation)
    : WatcherCoverageIds :=
  match ids_lane ids with
  | None => ids <| ids_lane := Some o |>
  | Some _ => ids
  end.

(** [WatcherCoverageIds::observe_loss]: invalidate first, publish second. *)
Definition observe_native_loss (ids : WatcherCoverageIds)
    (stream_epoch : WatcherStreamEpoch) (loss : WatcherCoverageLoss) : WatcherCoverageIds :=
  publish (invalidate_current_boundary ids) (mkObservation stream_epoch loss).

(** [NativeCoverageObservationReceiver::try_recv] *)
Definition observation_try_recv (ids : WatcherCoverageIds)
    : option NativeCoverageObservation * WatcherCoverageIds :=
  (ids_lane ids, ids <| ids_lane := None |>).

Definition current_authority_generation (ids : WatcherCoverageIds) : Z := ids_generation ids.

(** [WatcherCoverageAuthority::close_guard_at] *)
Definition close_guard_at (ids : WatcherCoverageIds) (bid : WatcherBoundaryId)
    (generation : Z) : Result WatcherCoverageCloseGuard WatcherCoverageError :=
  if generation =? u64_max then Err IdentifierExhaustedNative
  else if generation =? 0 then Err IdentifierExhaustedNative
  else Ok (mkCloseGuard (ids_authority ids) (mkCloseToken bid generation)).

(** ** Runs of one identity domain *)

Inductive ids_event : Type :=
| EvNextEpoch
| EvNextBoundary
| EvObserveLoss (stream_epoch : WatcherStreamEpoch) (loss : WatcherCoverageLoss)
| EvInvalidate
| EvRecv.

Definition ids_step (ids : WatcherCoverageIds) (e : ids_event) : WatcherCoverageIds :=
  match e with
  | EvNextEpoch => snd (next_epoch ids)
  | EvNextBoundary => snd (next_boundary ids)
  | EvObserveLoss ep l => observe_native_loss ids ep l
  | EvInvalidate => invalidate_current_boundary ids
  | EvRecv => snd (observation_try_recv ids)
  end.

Definition ids_run (ids : WatcherCoverageIds) (es : list ids_event) : WatcherCoverageIds :=
  fold_left ids_step es ids.

(** ** Lemmas *)

(** The generation of a domain lies in the [NonZeroU64] range. *)
Definition ids_wf (ids : WatcherCoverageIds) : Prop :=
  1 ≤ ids_generation ids ≤ u64_max ∧ 1 ≤ ids_next_epoch ids ≤ u64_max ∧
  1 ≤ ids_next_boundary ids ≤ u64_max.

Lemma ids_next_wf c : 1 ≤ c ≤ u64_max →
  c ≤ snd (ids_next c) ≤ u64_max ∧
  ∀ v, fst (ids_next c) = Ok v → v = c ∧ snd (ids_next c) = c + 1.
Proof.
  intros Hc. unfold ids_next, u64_checked_add.
  destruct (Z.leb_spec (c + 1) u64_max); cbn; [|split; [lia|done]].
  split; [lia|]. destruct (Z.eqb_spec c 0); [lia|]. by intros v [= <-].
Qed.

Lemma ids_step_wf ids e : ids_wf ids → ids_wf (ids_step ids e).
Proof.
  intros (Hg & He & Hb).
  pose proof (ids_next_wf _ He) as [Hne _]. pose proof (ids_next_wf _ Hb) as [Hnb _].
  destruct e; cbn;
    unfold next_epoch, next_boundary, observe_native_loss, publish,
      invalidate_current_boundary, u64_checked_add, ids_wf in *.
  - destruct (ids_next (ids_next_epoch ids)); cbn in *; lia.
  - destruct (ids_next (ids_next_boundary ids)); cbn in *; lia.
  - destruct (Z.leb_spec (ids_generation ids + 1) u64_max); cbn;
      destruct (ids_lane ids); cbn; lia.
  - destruct (Z.leb_spec (ids_generation ids + 1) u64_max); cbn; lia.
  - cbn. lia.
Qed.

(** No step lowers the generation, the authority of a domain never changes. *)
Lemma ids_step_mono ids e :
  ids_generation ids ≤ ids_generation (ids_step ids e) ∧
  ids_authority (ids_step ids e) = ids_authority ids.
Proof.
  destruct e; cbn;
    unfold next_epoch, next_boundary, observe_native_loss, publish,
      invalidate_current_boundary, u64_checked_add.
  - destruct (ids_next (ids_next_epoch ids)); cbn; split; [lia|done].
  - destruct (ids_next (ids_next_boundary ids)); cbn; split; [lia|done].
  - destruct (Z.leb_spec (ids_generation ids + 1) u64_max); cbn;
      destruct (ids_lane ids); cbn; split; (lia || done).
  - destruct (Z.leb_spec (ids_generation ids + 1) u64_max); cbn; split; (lia || done).
  - cbn. split; [lia|done].
Qed.

Lemma ids_run_mono ids es :
  ids_generation ids ≤ ids_generation (ids_run ids es) ∧
  ids_authority (ids_run ids es) = ids_authority ids.
Proof.
  revert ids. induction es as [|e es IH]; intros ids; cbn; [split; [lia|done]|].
  destruct (IH (ids_step ids e)) as [H1 H2]. destruct (ids_step_mono ids e) as [H3 H4].
  unfold ids_run in *. split; [lia|congruence].
Qed.

Lemma ids_run_wf ids es : ids_wf ids → ids_wf (ids_run ids es).
Proof.
  revert ids. induction es as [|e es IH]; intros ids Hwf; cbn; [done|].
  by apply IH, ids_step_wf.
Qed.

(** A native loss moves the generation past every value a guard may carry. *)
Lemma observe_native_loss_generation ids ep l g :
  ids_wf ids → g ≤ ids_generation ids → g ≠ u64_max →
  g < ids_generation (observe_native_loss ids ep l).
Proof.
  intros (Hg & _) Hle Hne.
  unfold observe_native_loss, publish, invalidate_current_boundary, u64_checked_add.
  destruct (Z.leb_spec (ids_generation ids + 1) u64_max); cbn;
    destruct (ids_lane ids); cbn; lia.
Qed.

(** A native loss revokes every guard issued before it, for good. *)
Lemma loss_revokes_guard ids bid g guard before ep l after others :
  ids_wf ids →
  g ≤ current_authority_generation (ids_run ids before) →
  close_guard_at ids bid g = Ok guard →
  let ids' := ids_run (observe_native_loss (ids_run ids before) ep l) after in
  is_current (ids_generations ids' others) guard = false.
Proof.
  intros Hwf Hle Hguard ids'. unfold close_guard_at in Hguard.
  destruct (Z.eqb_spec g u64_max); [done|]. destruct (Z.eqb_spec g 0); [done|].
  injection Hguard as <-.
  pose proof (observe_native_loss_generation (ids_run ids before) ep l g
                (ids_run_wf _ before Hwf) Hle n) as Hlt.
  destruct (ids_run_mono ids before) as [_ Hauth1].
  destruct (ids_step_mono (ids_run ids before) (EvObserveLoss ep l)) as [_ Hauth2].
  change (ids_step (ids_run ids before) (EvObserveLoss ep l))
    with (observe_native_loss (ids_run ids before) ep l) in Hauth2.
  destruct (ids_run_mono (observe_native_loss (ids_run ids before) ep l) after)
    as [Hgen Hauth3].
  fold ids' in Hgen, Hauth3. unfold is_current, ids_generations.
  rewrite bool_decide_eq_true_2 by (cbn; congruence).
  apply Z.eqb_neq. cbn. lia.
Qed.
