(* ===== verification/RecoveryTypes.v ===== *)
(** * Watcher recovery: the shared vocabulary

    Models [crates/bowline-daemon/src/watcher_recovery/types.rs] with its
    submodules [types/refs.rs], [types/receipts.rs], [types/native.rs], and the
    result, policy and error types of [watcher_recovery/protocol.rs].

    [time::OffsetDateTime], a third-party type, is the parameter [TimeLib]: the
    recovery code copies timestamps and compares them for equality, nothing
    else. *)

From S2P Require Import Prelude.
From S2P Require Import WatcherCoverage.

Class TimeLib := {
  RecoveryTimestamp : Type;
  RecoveryTimestamp_eq_dec :: EqDecision RecoveryTimestamp;
}.

(** A concrete instance for executable examples: nanoseconds. *)
Definition Z_TimeLib : TimeLib := {| RecoveryTimestamp := Z |}.

Definition MAX_SCHEMA_INTEGER : Z := 9007199254740991.
Definition MAX_RECOVERY_COUNT : Z := 1000000.
Definition MAX_DURATION_MS : Z := 31536000000.

(** ** Errors *)

Inductive RecoveryIdentifierKind : Type := KIncident | KAttempt | KWorker.

Inductive RecoveryTypeError : Type :=
| ZeroIdentifier (kind : string)
| SchemaIntegerOutOfRange (field : string) (value : Z)
| RecoveryCountOutOfRange (value : Z)
| InvalidTimestamp
| InvalidManifestKey
| HeadVersionMustBePositive
| InvalidBackoffPolicy.

Inductive RecoveryPhase : Type :=
| Rearming
| AwaitingCoverage
| Scanning
| AwaitingSeal
| Closing
| BackingOff
| Blocked.

#[export] Instance RecoveryPhase_eq_dec : EqDecision RecoveryPhase.
Proof. solve_decision. Defined.

Inductive RecoveryLifecycle : Type := Nominal | Recovering | LifecycleBlockedState.

#[export] Instance RecoveryLifecycle_eq_dec : EqDecision RecoveryLifecycle.
Proof. solve_decision. Defined.

Inductive RecoveryTransitionError : Type :=
| IdentifierExhausted (kind : RecoveryIdentifierKind)
| ActivityWatermarkExhausted
| RecoveryRevisionExhausted
| RecoveryCountExhausted (field : string)
| NoOpenIncident
| LifecycleBlocked
| AttemptAlreadyInFlight
| NoAttemptInFlight
| AttemptMismatch
| WorkerUnavailable
| WorkerMismatch
| NativeBoundaryMismatch
| NativeBoundaryNotMonotonic
| NativeStreamEpochRegressed
| ScanRevisionMismatch
| RetainedFailureMismatch
| OutOfOrder (operation : string) (phase : RecoveryPhase)
| RetryableFailureRequired
| TerminalFailureRequired
| RetryNotDue
| AuthorityNotRestorable
| MonotonicTimeReversed
| RetryDeadlineOverflow
| ClosureDurationOutOfRange
| RecoveryNotNominal
| RecoveryFrontierChanged.

(** ** Identifiers, watermarks, counts and instants *)

(** The newtypes over [u64] generated by [prefixed_id!]. *)
Abbreviation IncidentId := Z (only parsing).
Abbreviation AttemptId := Z (only parsing).
Abbreviation RecoveryWorkerId := Z (only parsing).
Abbreviation RecoveryProjectorId := Z (only parsing).
Abbreviation RecoveryProcessBootId := Z (only parsing).
Abbreviation RecoveryProcessSessionId := Z (only parsing).

(** [prefixed_id!]'s [new]. *)
Definition prefixed_id_new (kind : string) (value : Z) : Result Z RecoveryTypeError :=
  if value =? 0 then Err (ZeroIdentifier kind) else Ok value.

Abbreviation ActivityWatermark := Z (only parsing).
Abbreviation LossWatermark := Z (only parsing).
Abbreviation RecoveryRevision := Z (only parsing).
Abbreviation RecoveryScanRevision := Z (only parsing).
Abbreviation RecoveryCount := Z (only parsing).

(** [ActivityWatermark::new], [LossWatermark::new], [RecoveryRevision::new] and
    [RecoveryScanRevision::new] differ only in the field name they report. *)
Definition schema_integer_new (field : string) (value : Z) : Result Z RecoveryTypeError :=
  if MAX_SCHEMA_INTEGER <? value then Err (SchemaIntegerOutOfRange field value) else Ok value.

(** [checked_next] of the watermarks and of the revision: the maximum itself is
    reserved for [terminal]. *)
Definition watermark_checked_next (w : Z) : option Z :=
  option_filter (λ value, value <? MAX_SCHEMA_INTEGER) (u64_checked_add w 1).

Definition terminal : Z := MAX_SCHEMA_INTEGER.

Definition RecoveryCount_new (value : Z) : Result RecoveryCount RecoveryTypeError :=
  if MAX_RECOVERY_COUNT <? value then Err (RecoveryCountOutOfRange value) else Ok value.

Definition count_checked_next (c : RecoveryCount) : option RecoveryCount :=
  option_filter (λ value, value <=? MAX_RECOVERY_COUNT) (u64_checked_add c 1).

(** Milliseconds on the daemon's monotonic clock. *)
Abbreviation RecoveryInstant := Z (only parsing).

Definition instant_checked_add (i : RecoveryInstant) (d : Duration) : option RecoveryInstant :=
  match u64_try_from (duration_as_millis d) with
  | Some millis => u64_checked_add i millis
  | None => None
  end.

Definition elapsed_since (now earlier : RecoveryInstant) : option Duration :=
  match u64_checked_sub now earlier with
  | Some ms => Some (duration_from_millis ms)
  | None => None
  end.

(** ** Backoff *)

Record BackoffPolicy := mkBackoffPolicy {
  bp_initial : Duration;
  bp_maximum : Duration;
}.

Definition BackoffPolicy_new (initial maximum : Duration)
    : Result BackoffPolicy RecoveryTypeError :=
  if (initial =? 0) || (maximum <? initial) then Err InvalidBackoffPolicy
  else Ok (mkBackoffPolicy initial maximum).

Definition BackoffPolicy_standard : BackoffPolicy :=
  mkBackoffPolicy (duration_from_millis 250) (duration_from_secs 5).

Definition delay_for (p : BackoffPolicy) (consecutive_failures : Z) : Duration :=
  let exponent := Z.min (u32_saturating_sub consecutive_failures 1) 31 in
  Z.min (duration_saturating_mul (bp_initial p) (Z.shiftl 1 exponent)) (bp_maximum p).

(** ** Causes and failures *)

Inductive RecoveryCause : Type :=
| StartupReconciliation
| NativeCallbackLaneSaturated
| NativeEventBatchSaturated
| IngressDetailCollapsed
| NativeRescanRequired
| RecoverableAdapterLoss
| WatcherDisconnected
| RootReplaced.

#[export] Instance RecoveryCause_eq_dec : EqDecision RecoveryCause.
Proof. solve_decision. Defined.

Inductive RecoveryFailureCode : Type :=
| DependencyUnavailable
| DependencyBusy
| AuthenticationRequiredCode
| AuthorizationLostCode
| IntegrityMismatch
| ObserverStartUnavailable
| ObserverInitialValueTimeout
| ObserverStreamUnavailable
| ObserverUnknownSigner
| ObserverIntegrity
| ObserverFatalContract
| RecoveryWorkerIdExhausted
| RecoveryActivityWatermarkExhausted
| RecoveryCauseCountExhausted
| RecoveryAttemptIdExhausted
| RecoveryAttemptCountExhausted
| RecoveryClosureDurationOutOfRange
| RecoveryRetryCountExhausted
| RecoveryRetryDeadlineOverflow
| RecoveryIncidentIdExhausted
| RecoveryRevisionExhaustedCode
| RecoveryScanCountExhausted.

#[export] Instance RecoveryFailureCode_eq_dec : EqDecision RecoveryFailureCode.
Proof. solve_decision. Defined.

Local Open Scope string_scope.
Open Scope Z_scope.

(** [RecoveryFailureCode::as_str] *)
Definition failure_code_as_str (c : RecoveryFailureCode) : string :=
  match c with
  | DependencyUnavailable => "dependency_unavailable"
  | DependencyBusy => "dependency_busy"
  | AuthenticationRequiredCode => "authentication_required"
  | AuthorizationLostCode => "authorization_lost"
  | IntegrityMismatch => "integrity_mismatch"
  | ObserverStartUnavailable => "observer_start_unavailable"
  | ObserverInitialValueTimeout => "observer_initial_value_timeout"
  | ObserverStreamUnavailable => "observer_stream_unavailable"
  | ObserverUnknownSigner => "observer_unknown_signer"
  | ObserverIntegrity => "observer_integrity"
  | ObserverFatalContract => "observer_fatal_contract"
  | RecoveryWorkerIdExhausted => "recovery_worker_id_exhausted"
  | RecoveryActivityWatermarkExhausted => "recovery_activity_watermark_exhausted"
  | RecoveryCauseCountExhausted => "recovery_cause_count_exhausted"
  | RecoveryAttemptIdExhausted => "recovery_attempt_id_exhausted"
  | RecoveryAttemptCountExhausted => "recovery_attempt_count_exhausted"
  | RecoveryClosureDurationOutOfRange => "recovery_closure_duration_out_of_range"
  | RecoveryRetryCountExhausted => "recovery_retry_count_exhausted"
  | RecoveryRetryDeadlineOverflow => "recovery_retry_deadline_overflow"
  | RecoveryIncidentIdExhausted => "recovery_incident_id_exhausted"
  | RecoveryRevisionExhaustedCode => "recovery_revision_exhausted"
  | RecoveryScanCountExhausted => "recovery_scan_count_exhausted"
  end.

Inductive DependencyFailureClass : Type :=
| Retryable
| AuthenticationRequired
| AuthorizationLost
| Integrity
| FatalContract.

#[export] Instance DependencyFailureClass_eq_dec : EqDecision DependencyFailureClass.
Proof. solve_decision. Defined.

Definition is_retryable (c : DependencyFailureClass) : bool :=
  match c with Retryable => true | _ => false end.

Definition is_authority_restorable (c : DependencyFailureClass) : bool :=
  match c with AuthenticationRequired | AuthorizationLost => true | _ => false end.

(** ** Authoritative refs *)

(** [ManifestKey] is a string newtype of the sync engine. *)
Inductive AuthoritativeRefIdentity : Type :=
| Genesis
| Head (version : Z) (manifest_key : string).

Definition is_lower_hex (a : Ascii.ascii) : bool :=
  let n := Z.of_nat (Ascii.nat_of_ascii a) in
  ((48 <=? n) && (n <=? 57)) || ((97 <=? n) && (n <=? 102)).

(** [str::strip_prefix] *)
Fixpoint strip_prefix (pre s : string) : option string :=
  match pre, s with
  | EmptyString, _ => Some s
  | String a pre', String b s' =>
      if bool_decide (a = b) then strip_prefix pre' s' else None
  | String _ _, EmptyString => None
  end.

Fixpoint string_forallb (p : Ascii.ascii → bool) (s : string) : bool :=
  match s with
  | EmptyString => true
  | String a s' => p a && string_forallb p s'
  end.

Definition validate_manifest_key (key : string) : Result unit RecoveryTypeError :=
  match strip_prefix "m_" key with
  | None => Err InvalidManifestKey
  | Some digest =>
      if negb (Z.of_nat (String.length digest) =? 64) || negb (string_forallb is_lower_hex digest)
      then Err InvalidManifestKey
      else Ok tt
  end.

Definition validate_ref_version (version : Z) : Result unit RecoveryTypeError :=
  if version =? 0 then Err HeadVersionMustBePositive
  else if MAX_SCHEMA_INTEGER <? version
  then Err (SchemaIntegerOutOfRange "authoritativeRef.version" version)
  else Ok tt.

Definition AuthoritativeRefIdentity_head (version : Z) (manifest_key : string)
    : Result AuthoritativeRefIdentity RecoveryTypeError :=
  match validate_ref_version version with
  | Err e => Err e
  | Ok _ =>
      match validate_manifest_key manifest_key with
      | Err e => Err e
      | Ok _ => Ok (Head version manifest_key)
      end
  end.

Definition ref_version (r : AuthoritativeRefIdentity) : option Z :=
  match r with Genesis => None | Head v _ => Some v end.

Definition ref_manifest_key (r : AuthoritativeRefIdentity) : option string :=
  match r with Genesis => None | Head _ k => Some k end.



(** ** Values that carry timestamps *)

Section Timed.
Context `{TimeLib}.

Record RecoveryProcessIdentity := mkProcessIdentity {
  pi_boot_id : RecoveryProcessBootId;
  pi_session_id : RecoveryProcessSessionId;
  pi_started_at : RecoveryTimestamp;
}.

Record RecoverySourceIdentity := mkSourceIdentity {
  si_process_identity : RecoveryProcessIdentity;
  si_workspace_id : string;
}.

Record RecoveryMoment := mkMoment {
  observed_at : RecoveryTimestamp;
  monotonic : RecoveryInstant;
}.

Record DependencyFailure := mkFailure {
  df_class : DependencyFailureClass;
  df_code : RecoveryFailureCode;
  df_observed_at : RecoveryTimestamp;
}.

#[export] Instance DependencyFailure_eq_dec : EqDecision DependencyFailure.
Proof. solve_decision. Defined.

Definition fatal_contract (code : RecoveryFailureCode) (at_ : RecoveryTimestamp)
    : DependencyFailure := mkFailure FatalContract code at_.

End Timed.

(** ** Attempts and their evidence *)

Record AttemptToken := mkToken {
  tok_incident_id : IncidentId;
  tok_attempt_id : AttemptId;
  tok_worker_id : RecoveryWorkerId;
}.

#[export] Instance AttemptToken_eq_dec : EqDecision AttemptToken.
Proof. solve_decision. Defined.

(** [RecoveryWorkerOwnership] and [RecoveryProjectorOwnership] are one-field
    wrappers of the id they fence. *)
Abbreviation RecoveryWorkerOwnership := RecoveryWorkerId (only parsing).
Abbreviation RecoveryProjectorOwnership := RecoveryProjectorId (only parsing).

Record AttemptCoverageBoundary := mkAttemptBoundary {
  ab_activity_watermark : ActivityWatermark;
  ab_loss_watermark : LossWatermark;
  ab_handoff : WatcherCoverageHandoff;
}.

Definition ab_proof (b : AttemptCoverageBoundary) : WatcherCoverageBoundary :=
  ho_boundary (ab_handoff b).

Definition ab_is_current (gens : Generations) (b : AttemptCoverageBoundary) : bool :=
  is_current gens (ho_close_guard (ab_handoff b)).

(** The hand-written [PartialEq]: the loss watermark and the authority cell are
    not compared. *)
Definition boundary_eqb (a b : AttemptCoverageBoundary) : bool :=
  (ab_activity_watermark a =? ab_activity_watermark b) &&
  bool_decide (ab_proof a = ab_proof b) &&
  bool_decide (cg_token (ho_close_guard (ab_handoff a)) =
               cg_token (ho_close_guard (ab_handoff b))).

Record CloseOffer := mkCloseOffer {
  co_attempt : AttemptToken;
  co_native_boundary : AttemptCoverageBoundary;
  co_scan_revision : RecoveryScanRevision;
}.

Section Receipts.
Context `{TimeLib}.

Record RecoveryClosureReceipt := mkReceipt {
  rc_incident_id : IncidentId;
  rc_attempt_id : AttemptId;
  rc_attempt_count : RecoveryCount;
  rc_scan_count : RecoveryCount;
  rc_activity_watermark : ActivityWatermark;
  rc_authoritative_scan_revision : RecoveryScanRevision;
  rc_native_boundary : AttemptCoverageBoundary;
  rc_started_at : RecoveryTimestamp;
  rc_completed_at : RecoveryTimestamp;
  rc_duration_ms : Z;
  rc_closing_recovery_revision : RecoveryRevision;
}.

#[export] Instance RecoveryClosureReceipt_eta : Eta RecoveryClosureReceipt :=
  λ r, mkReceipt (rc_incident_id r) (rc_attempt_id r) (rc_attempt_count r) (rc_scan_count r)
         (rc_activity_watermark r) (rc_authoritative_scan_revision r) (rc_native_boundary r)
         (rc_started_at r) (rc_completed_at r) (rc_duration_ms r)
         (rc_closing_recovery_revision r).

(** [RecoveryClosureReceiptInput]: the receipt's fields with the duration not
    yet converted to milliseconds. *)
Record RecoveryClosureReceiptInput := mkReceiptInput {
  ri_incident_id : IncidentId;
  ri_attempt_id : AttemptId;
  ri_attempt_count : RecoveryCount;
  ri_scan_count : RecoveryCount;
  ri_activity_watermark : ActivityWatermark;
  ri_authoritative_scan_revision : RecoveryScanRevision;
  ri_native_boundary : AttemptCoverageBoundary;
  ri_started_at : RecoveryTimestamp;
  ri_completed_at : RecoveryTimestamp;
  ri_duration : Duration;
  ri_closing_recovery_revision : RecoveryRevision;
}.

Definition receipt_try_from_input (input : RecoveryClosureReceiptInput)
    : Result RecoveryClosureReceipt RecoveryTransitionError :=
  match u64_try_from (duration_as_millis (ri_duration input)) with
  | None => Err ClosureDurationOutOfRange
  | Some duration_ms =>
      if MAX_DURATION_MS <? duration_ms then Err ClosureDurationOutOfRange
      else Ok {|
        rc_incident_id := ri_incident_id input;
        rc_attempt_id := ri_attempt_id input;
        rc_attempt_count := ri_attempt_count input;
        rc_scan_count := ri_scan_count input;
        rc_activity_watermark := ri_activity_watermark input;
        rc_authoritative_scan_revision := ri_authoritative_scan_revision input;
        rc_native_boundary := ri_native_boundary input;
        rc_started_at := ri_started_at input;
        rc_completed_at := ri_completed_at input;
        rc_duration_ms := duration_ms;
        rc_closing_recovery_revision := ri_closing_recovery_revision input;
      |}
  end.

(** ** Dispositions *)

Inductive ActivityAdmission : Type :=
| AdmittedNominal
| ObservedDuringIncident (incident_id : IncidentId)
| CoverageInvalidated (incident_id : IncidentId)
| BlockedIncidentAdvanced (incident_id : IncidentId).

Inductive LossAdmission : Type :=
| Opened (incident_id : IncidentId)
| Coalesced (incident_id : IncidentId)
| BlockedIncidentUpdated (incident_id : IncidentId).

Inductive FailureDisposition : Type :=
| RetryScheduled (incident_id : IncidentId) (retry_at : RecoveryInstant) (delay : Duration)
| FailureBlocked (incident_id : IncidentId) (class : DependencyFailureClass).

Inductive CloseDisposition : Type :=
| Closed (receipt : RecoveryClosureReceipt)
| RetryRequired (incident_id : IncidentId).

Inductive AuthorityRestoration : Type :=
| Restored (incident_id : IncidentId).

Record RecoveryClosureIdentity := mkClosureIdentity {
  ci_incident_id : IncidentId;
  ci_attempt_id : AttemptId;
  ci_closing_recovery_revision : RecoveryRevision;
}.

#[export] Instance RecoveryClosureIdentity_eq_dec : EqDecision RecoveryClosureIdentity.
Proof. solve_decision. Defined.

Definition closure_identity_from_receipt (r : RecoveryClosureReceipt)
    : RecoveryClosureIdentity :=
  mkClosureIdentity (rc_incident_id r) (rc_attempt_id r) (rc_closing_recovery_revision r).

Record RecoveryFrontier := mkFrontier {
  rf_recovery_revision : RecoveryRevision;
  rf_activity_watermark : ActivityWatermark;
  rf_last_closure : option RecoveryClosureIdentity;
}.

#[export] Instance RecoveryFrontier_eq_dec : EqDecision RecoveryFrontier.
Proof. solve_decision. Defined.

Record RecoveryAttestation := mkAttestation {
  ra_source_identity : RecoverySourceIdentity;
  ra_frontier : RecoveryFrontier;
  ra_last_closure : option RecoveryClosureReceipt;
}.

End Receipts.

(** ** Lemmas *)

Lemma watermark_checked_next_Some w w' :
  watermark_checked_next w = Some w' ↔ w' = w + 1 ∧ w + 1 < MAX_SCHEMA_INTEGER.
Proof.
  unfold watermark_checked_next. rewrite option_filter_Some, u64_checked_add_Some, Z.ltb_lt.
  unfold MAX_SCHEMA_INTEGER, u64_max. lia.
Qed.

Lemma watermark_checked_next_None w :
  0 ≤ w → watermark_checked_next w = None ↔ MAX_SCHEMA_INTEGER ≤ w + 1.
Proof.
  intros Hw. unfold watermark_checked_next, u64_checked_add, option_filter.
  destruct (Z.leb_spec (w + 1) u64_max); [destruct (Z.ltb_spec (w + 1) MAX_SCHEMA_INTEGER)|];
    unfold MAX_SCHEMA_INTEGER, u64_max in *; split; (done || lia).
Qed.

Lemma count_checked_next_Some c c' :
  count_checked_next c = Some c' ↔ c' = c + 1 ∧ c + 1 ≤ MAX_RECOVERY_COUNT.
Proof.
  unfold count_checked_next. rewrite option_filter_Some, u64_checked_add_Some, Z.leb_le.
  unfold MAX_RECOVERY_COUNT, u64_max. lia.
Qed.

Lemma count_checked_next_ok c : c < MAX_RECOVERY_COUNT → count_checked_next c = Some (c + 1).
Proof. intros. apply count_checked_next_Some. lia. Qed.

Lemma count_checked_next_None c :
  0 ≤ c → count_checked_next c = None → MAX_RECOVERY_COUNT < c + 1.
Proof.
  intros Hc Hn. destruct (Z.le_gt_cases (c + 1) MAX_RECOVERY_COUNT) as [Hle|]; [|lia].
  assert (count_checked_next c = Some (c + 1)) by (by apply count_checked_next_Some). congruence.
Qed.

Lemma boundary_eqb_refl b : boundary_eqb b b = true.
Proof.
  unfold boundary_eqb. rewrite Z.eqb_refl, !bool_decide_eq_true_2 by done. done.
Qed.

Lemma receipt_error `{TimeLib} input e :
  receipt_try_from_input input = Err e → e = ClosureDurationOutOfRange.
Proof. unfold receipt_try_from_input. repeat case_match; congruence. Qed.
