(* ===== verification/RecoveryReducer.v ===== *)
(** * Watcher recovery: the deterministic reducer

    Models [crates/bowline-daemon/src/watcher_recovery/reducer.rs] and its
    submodules [reducer/ids.rs], [reducer/admissions.rs],
    [reducer/attempts.rs] and [reducer/projection.rs].  Each method of
    [RecoveryStateMachine] is one definition in the error-state monad [RM]:
    a [?] is a bind, an early return is [throw], and whatever a method wrote
    before an early return stays written. *)

From S2P Require Import Prelude.
From S2P Require Import WatcherCoverage.
From S2P Require Import RecoveryTypes.
Local Open Scope string_scope.
Open Scope Z_scope.

(** ** Identifier sequences ([reducer/ids.rs]) *)

Inductive IdAllocation : Type :=
| Available (value : Z)
| Terminal (value : Z).

(** [IdSequence] is its [next] field. *)
Abbreviation IdSequence := Z (only parsing).
Definition IdSequence_initial : IdSequence := 1.

(** [IdSequence::allocate] *)
Definition allocate (next : IdSequence) : IdAllocation * IdSequence :=
  if next =? u64_max then (Terminal next, next) else (Available next, next + 1).

(** ** Cause counters *)

Definition cause_index (cause : RecoveryCause) : nat :=
  match cause with
  | StartupReconciliation => 0
  | NativeCallbackLaneSaturated => 1
  | NativeEventBatchSaturated => 2
  | IngressDetailCollapsed => 3
  | NativeRescanRequired => 4
  | RecoverableAdapterLoss => 5
  | WatcherDisconnected => 6
  | RootReplaced => 7
  end.

(** [CauseCounters([RecoveryCount; 8])] *)
Abbreviation CauseCounters := (list RecoveryCount) (only parsing).

Definition counters_with_primary (cause : RecoveryCause) : CauseCounters :=
  <[cause_index cause := 1]> (replicate 8 0).

Definition counters_get (counts : CauseCounters) (cause : RecoveryCause) : RecoveryCount :=
  default 0 (counts !! cause_index cause).

Definition counters_increment (counts : CauseCounters) (cause : RecoveryCause)
    : option CauseCounters :=
  match counts !! cause_index cause with
  | Some c =>
      match count_checked_next c with
      | Some c' => Some (<[cause_index cause := c']> counts)
      | None => None
      end
  | None => None
  end.

(** ** State *)

Section Machine.
Context `{TimeLib}.

Record AttemptState := mkAttempt {
  at_token : AttemptToken;
  at_started_at : RecoveryTimestamp;
  at_native_boundary : option AttemptCoverageBoundary;
  at_scan_started : bool;
  at_scan_revision : option RecoveryScanRevision;
}.

#[export] Instance AttemptState_eta : Eta AttemptState :=
  λ r, mkAttempt (at_token r) (at_started_at r) (at_native_boundary r)
                 (at_scan_started r) (at_scan_revision r).

Definition AttemptState_new (token : AttemptToken) (started_at : RecoveryTimestamp)
    : AttemptState := mkAttempt token started_at None false None.

Record IncidentState := mkIncident {
  inc_id : IncidentId;
  inc_primary_cause : RecoveryCause;
  inc_cause_counts : CauseCounters;
  inc_phase : RecoveryPhase;
  inc_started_at : RecoveryTimestamp;
  inc_started_tick : RecoveryInstant;
  inc_attempt_count : RecoveryCount;
  inc_scan_count : RecoveryCount;
  inc_rescan_required : bool;
  inc_current_attempt : option AttemptState;
  inc_native_coverage : option AttemptCoverageBoundary;
  inc_retry_failures : Z;
  inc_retry_at : option RecoveryInstant;
  inc_failure : option DependencyFailure;
}.

#[export] Instance IncidentState_eta : Eta IncidentState :=
  λ r, mkIncident (inc_id r) (inc_primary_cause r) (inc_cause_counts r) (inc_phase r)
         (inc_started_at r) (inc_started_tick r) (inc_attempt_count r) (inc_scan_count r)
         (inc_rescan_required r) (inc_current_attempt r) (inc_native_coverage r)
         (inc_retry_failures r) (inc_retry_at r) (inc_failure r).

Definition IncidentState_new (id : IncidentId) (cause : RecoveryCause)
    (moment : RecoveryMoment) : IncidentState :=
  {| inc_id := id;
     inc_primary_cause := cause;
     inc_cause_counts := counters_with_primary cause;
     inc_phase := Rearming;
     inc_started_at := observed_at moment;
     inc_started_tick := monotonic moment;
     inc_attempt_count := 0;
     inc_scan_count := 0;
     inc_rescan_required := true;
     inc_current_attempt := None;
     inc_native_coverage := None;
     inc_retry_failures := 0;
     inc_retry_at := None;
     inc_failure := None |}.

Definition is_blocked (i : IncidentState) : bool := bool_decide (inc_phase i = Blocked).

(** [IncidentState::record_cause], as the updated incident. *)
Definition record_cause (i : IncidentState) (cause : RecoveryCause) : option IncidentState :=
  match counters_increment (inc_cause_counts i) cause with
  | Some counts => Some (i <| inc_cause_counts := counts |>)
  | None => None
  end.

Definition clear_attempt_evidence (i : IncidentState) : IncidentState :=
  i <| inc_current_attempt := None |> <| inc_native_coverage := None |>.

Definition block (i : IncidentState) (failure : DependencyFailure) : IncidentState :=
  (clear_attempt_evidence (i <| inc_phase := Blocked |>))
    <| inc_retry_at := None |>
    <| inc_rescan_required := true |>
    <| inc_failure := Some failure |>.

Definition rearm_after_worker_change (i : IncidentState) : IncidentState :=
  if is_blocked i then i else
  (clear_attempt_evidence i)
    <| inc_phase := Rearming |>
    <| inc_rescan_required := true |>
    <| inc_retry_at := None |>
    <| inc_failure := None |>.

Definition retry_attempt (i : IncidentState) : IncidentState :=
  (clear_attempt_evidence i) <| inc_phase := Rearming |> <| inc_rescan_required := true |>.

Record RecoveryStateMachine := mkMachine {
  sm_source_identity : RecoverySourceIdentity;
  sm_incident : option IncidentState;
  sm_activity_watermark : ActivityWatermark;
  sm_loss_watermark : LossWatermark;
  sm_next_incident_id : IdSequence;
  sm_next_attempt_id : IdSequence;
  sm_next_worker_id : IdSequence;
  sm_active_worker : option RecoveryWorkerId;
  sm_revision : RecoveryRevision;
  sm_last_transition_at : RecoveryTimestamp;
  sm_last_completed : option RecoveryClosureReceipt;
  sm_backoff_policy : BackoffPolicy;
  sm_last_native_boundary_id : option WatcherBoundaryId;
  sm_last_native_epoch : option WatcherStreamEpoch;
}.

#[export] Instance RecoveryStateMachine_eta : Eta RecoveryStateMachine :=
  λ r, mkMachine (sm_source_identity r) (sm_incident r) (sm_activity_watermark r)
         (sm_loss_watermark r) (sm_next_incident_id r) (sm_next_attempt_id r)
         (sm_next_worker_id r) (sm_active_worker r) (sm_revision r)
         (sm_last_transition_at r) (sm_last_completed r) (sm_backoff_policy r)
         (sm_last_native_boundary_id r) (sm_last_native_epoch r).

Definition RM : Type → Type := M RecoveryStateMachine RecoveryTransitionError.

(** [RecoveryStateMachine::startup_reconciliation], the production constructor. *)
Definition startup_reconciliation (source_identity : RecoverySourceIdentity)
    (moment : RecoveryMoment) (backoff_policy : BackoffPolicy) : RecoveryStateMachine :=
  {| sm_source_identity := source_identity;
     sm_incident := Some (IncidentState_new 1 StartupReconciliation moment);
     sm_activity_watermark := 1;
     sm_loss_watermark := 1;
     sm_next_incident_id := 2;
     sm_next_attempt_id := IdSequence_initial;
     sm_next_worker_id := IdSequence_initial;
     sm_active_worker := None;
     sm_revision := 1;
     sm_last_transition_at := observed_at moment;
     sm_last_completed := None;
     sm_backoff_policy := backoff_policy;
     sm_last_native_boundary_id := None;
     sm_last_native_epoch := None |}.

(** ** Helpers of the transitions *)

Definition set_incident (i : IncidentState) : RM unit :=
  modify (λ s, s <| sm_incident := Some i |>).

(** [RecoveryStateMachine::commit] *)
Definition commit (at_ : RecoveryTimestamp) (revision : RecoveryRevision) : RM unit :=
  modify (λ s, s <| sm_last_transition_at := at_ |> <| sm_revision := revision |>).

(** [RecoveryStateMachine::terminal_block] *)
Definition terminal_block (code : RecoveryFailureCode) (moment : RecoveryMoment) : RM unit :=
  let failure := fatal_contract code (observed_at moment) in
  modify (λ s,
    match sm_incident s with
    | Some incident => s <| sm_incident := Some (block incident failure) |>
    | None =>
        s <| sm_next_incident_id := u64_max |>
          <| sm_incident :=
               Some (block (IncidentState_new u64_max RecoverableAdapterLoss moment) failure) |>
    end).

(** [RecoveryStateMachine::block_for_exhaustion] *)
Definition block_for_exhaustion (code : RecoveryFailureCode) (at_ : RecoveryTimestamp)
    (revision : RecoveryRevision) : RM unit :=
  modify (λ s,
    match sm_incident s with
    | Some incident => s <| sm_incident := Some (block incident (fatal_contract code at_)) |>
    | None => s
    end) ;;
  commit at_ revision.

(** [RecoveryStateMachine::next_revision_or_block] *)
Definition next_revision_or_block (moment : RecoveryMoment) : RM RecoveryRevision :=
  s ← get;
  match watermark_checked_next (sm_revision s) with
  | Some revision => mret revision
  | None =>
      terminal_block RecoveryRevisionExhaustedCode moment ;;
      commit (observed_at moment) terminal ;;
      throw RecoveryRevisionExhausted
  end.

(** [active_incident] and [active_incident_mut]: the mutable borrow is the value
    read here, written back with [set_incident]. *)
Definition active_incident : RM IncidentState :=
  s ← get;
  incident ← ok_or NoOpenIncident (sm_incident s);
  bail_if (is_blocked incident) LifecycleBlocked ;;
  mret incident.

Definition matching_attempt (i : IncidentState) (token : AttemptToken) : RM AttemptState :=
  attempt ← ok_or NoAttemptInFlight (inc_current_attempt i);
  bail_if (bool_decide (at_token attempt ≠ token)) AttemptMismatch ;;
  mret attempt.

(** The [IncidentId::new(..).map_err(..)] family. *)
Definition id_new_or (kind : RecoveryIdentifierKind) (name : string) (value : Z) : RM Z :=
  match prefixed_id_new name value with
  | Ok v => mret v
  | Err _ => throw (IdentifierExhausted kind)
  end.

(** [RecoveryStateMachine::open_incident] *)
Definition open_incident (cause : RecoveryCause) (moment : RecoveryMoment)
    (next_revision : RecoveryRevision) : RM LossAdmission :=
  s ← get;
  match allocate (sm_next_incident_id s) with
  | (Available value, next) =>
      modify (λ s, s <| sm_next_incident_id := next |>) ;;
      incident_id ← id_new_or KIncident "IncidentId" value;
      set_incident (IncidentState_new incident_id cause moment) ;;
      commit (observed_at moment) next_revision ;;
      mret (Opened incident_id)
  | (Terminal value, next) =>
      modify (λ s, s <| sm_next_incident_id := next |>) ;;
      incident_id ← id_new_or KIncident "IncidentId" value;
      set_incident (block (IncidentState_new incident_id cause moment)
                      (fatal_contract RecoveryIncidentIdExhausted (observed_at moment))) ;;
      commit (observed_at moment) next_revision ;;
      throw (IdentifierExhausted KIncident)
  end.

(** ** Worker ownership *)

Definition require_worker (ownership : RecoveryWorkerOwnership) : RM unit :=
  s ← get;
  match sm_active_worker s with
  | Some worker_id =>
      if worker_id =? ownership then mret tt else throw WorkerMismatch
  | None => throw WorkerUnavailable
  end.

Definition replace_worker (moment : RecoveryMoment) : RM RecoveryWorkerOwnership :=
  next_revision ← next_revision_or_block moment;
  s ← get;
  let '(allocation, next) := allocate (sm_next_worker_id s) in
  modify (λ s, s <| sm_next_worker_id := next |>) ;;
  match allocation with
  | Available value =>
      worker_id ← id_new_or KWorker "RecoveryWorkerId" value;
      modify (λ s, s <| sm_active_worker := Some worker_id |>) ;;
      modify (λ s,
        match sm_incident s with
        | Some incident => s <| sm_incident := Some (rearm_after_worker_change incident) |>
        | None => s
        end) ;;
      commit (observed_at moment) next_revision ;;
      mret worker_id
  | Terminal _ =>
      modify (λ s, s <| sm_active_worker := None |>) ;;
      terminal_block RecoveryWorkerIdExhausted moment ;;
      commit (observed_at moment) next_revision ;;
      throw (IdentifierExhausted KWorker)
  end.

Definition admission_incident_id (a : LossAdmission) : IncidentId :=
  match a with Opened i | Coalesced i | BlockedIncidentUpdated i => i end.

Definition worker_exited (ownership : RecoveryWorkerOwnership) (moment : RecoveryMoment)
    : RM IncidentId :=
  require_worker ownership ;;
  next_revision ← next_revision_or_block moment;
  modify (λ s, s <| sm_active_worker := None |>) ;;
  s ← get;
  match sm_incident s with
  | None =>
      admission ← open_incident WatcherDisconnected moment next_revision;
      mret (admission_incident_id admission)
  | Some incident =>
      set_incident (rearm_after_worker_change incident) ;;
      commit (observed_at moment) next_revision ;;
      mret (inc_id incident)
  end.

(** ** Attempts *)

Definition start_attempt (moment : RecoveryMoment) : RM AttemptToken :=
  next_revision ← next_revision_or_block moment;
  s ← get;
  worker_id ← ok_or WorkerUnavailable (sm_active_worker s);
  incident ← ok_or NoOpenIncident (sm_incident s);
  bail_if (is_blocked incident) LifecycleBlocked ;;
  bail_if (is_some (inc_current_attempt incident)) AttemptAlreadyInFlight ;;
  bail_if (bool_decide (inc_phase incident ≠ Rearming))
    (OutOfOrder "start attempt" (inc_phase incident)) ;;
  let '(allocation, next) := allocate (sm_next_attempt_id s) in
  modify (λ s, s <| sm_next_attempt_id := next |>) ;;
  attempt_id ←
    match allocation with
    | Available value => id_new_or KAttempt "AttemptId" value
    | Terminal _ =>
        block_for_exhaustion RecoveryAttemptIdExhausted (observed_at moment) next_revision ;;
        throw (IdentifierExhausted KAttempt)
    end;
  match count_checked_next (inc_attempt_count incident) with
  | None =>
      set_incident (block incident
        (fatal_contract RecoveryAttemptCountExhausted (observed_at moment))) ;;
      commit (observed_at moment) next_revision ;;
      throw (RecoveryCountExhausted "attempt")
  | Some attempt_count =>
      let token := mkToken (inc_id incident) attempt_id worker_id in
      set_incident (incident
        <| inc_attempt_count := attempt_count |>
        <| inc_phase := AwaitingCoverage |>
        <| inc_rescan_required := false |>
        <| inc_current_attempt := Some (AttemptState_new token (observed_at moment)) |>
        <| inc_native_coverage := None |>
        <| inc_retry_at := None |>
        <| inc_failure := None |>) ;;
      commit (observed_at moment) next_revision ;;
      mret token
  end.

(** [begin_authoritative_scan], called by [record_scan_started]. *)
Definition begin_authoritative_scan (token : AttemptToken) (moment : RecoveryMoment)
    (next_revision : RecoveryRevision) : RM unit :=
  incident ← active_incident;
  bail_if (bool_decide (inc_phase incident ≠ AwaitingCoverage))
    (OutOfOrder "start authoritative scan" (inc_phase incident)) ;;
  attempt ← matching_attempt incident token;
  bail_if (at_scan_started attempt || is_some (at_scan_revision attempt))
    (OutOfOrder "start authoritative scan" (inc_phase incident)) ;;
  match count_checked_next (inc_scan_count incident) with
  | None =>
      set_incident (block incident
        (fatal_contract RecoveryScanCountExhausted (observed_at moment))) ;;
      commit (observed_at moment) next_revision ;;
      throw (RecoveryCountExhausted "scan")
  | Some scan_count =>
      set_incident (incident
        <| inc_scan_count := scan_count |>
        <| inc_current_attempt := Some (attempt <| at_scan_started := true |>) |>
        <| inc_rescan_required := false |>
        <| inc_phase := Scanning |>) ;;
      commit (observed_at moment) next_revision ;;
      mret tt
  end.

(** [complete_authoritative_scan], called by [record_scan_completed]. *)
Definition complete_authoritative_scan (token : AttemptToken)
    (scan_revision : RecoveryScanRevision) (moment : RecoveryMoment)
    (next_revision : RecoveryRevision) : RM unit :=
  incident ← active_incident;
  bail_if (bool_decide (inc_phase incident ≠ Scanning))
    (OutOfOrder "complete authoritative scan" (inc_phase incident)) ;;
  attempt ← matching_attempt incident token;
  bail_if (negb (at_scan_started attempt) || is_some (at_scan_revision attempt))
    (OutOfOrder "complete authoritative scan" (inc_phase incident)) ;;
  set_incident (incident
    <| inc_current_attempt := Some (attempt <| at_scan_revision := Some scan_revision |>) |>
    <| inc_phase := AwaitingSeal |>) ;;
  commit (observed_at moment) next_revision.

Definition record_scan_started (token : AttemptToken) (moment : RecoveryMoment) : RM unit :=
  next_revision ← next_revision_or_block moment;
  begin_authoritative_scan token moment next_revision.

Definition record_scan_completed (token : AttemptToken)
    (scan_revision : RecoveryScanRevision) (moment : RecoveryMoment) : RM unit :=
  next_revision ← next_revision_or_block moment;
  complete_authoritative_scan token scan_revision moment next_revision.

Definition record_native_boundary (token : AttemptToken)
    (handoff : WatcherCoverageHandoff) (moment : RecoveryMoment) : RM unit :=
  next_revision ← next_revision_or_block moment;
  incident ← active_incident;
  bail_if (bool_decide (inc_phase incident ≠ AwaitingSeal))
    (OutOfOrder "record native boundary" (inc_phase incident)) ;;
  matching_attempt incident token ;;
  s ← get;
  bail_if (is_some_and (λ last, handoff_boundary_id handoff <=? last)
             (sm_last_native_boundary_id s)) NativeBoundaryNotMonotonic ;;
  bail_if (is_some_and (λ last, handoff_live_stream_epoch handoff <? last)
             (sm_last_native_epoch s)) NativeStreamEpochRegressed ;;
  modify (λ s, s <| sm_last_native_boundary_id := Some (handoff_boundary_id handoff) |>
                 <| sm_last_native_epoch := Some (handoff_live_stream_epoch handoff) |>) ;;
  let admitted_boundary :=
    mkAttemptBoundary (sm_activity_watermark s) (sm_loss_watermark s) handoff in
  incident ← active_incident;
  attempt ← matching_attempt incident token;
  set_incident (incident
    <| inc_current_attempt :=
         Some (attempt <| at_native_boundary := Some admitted_boundary |>) |>
    <| inc_native_coverage := Some admitted_boundary |>
    <| inc_phase := Closing |>) ;;
  commit (observed_at moment) next_revision.

(** ** Closing *)

Definition offer_close (offer : CloseOffer) (moment : RecoveryMoment) : RM CloseDisposition :=
  next_revision ← next_revision_or_block moment;
  incident ← active_incident;
  attempt ← matching_attempt incident (co_attempt offer);
  bail_if (bool_decide (inc_phase incident ≠ Closing))
    (OutOfOrder "offer close" (inc_phase incident)) ;;
  boundary ← ok_or NativeBoundaryMismatch (at_native_boundary attempt);
  bail_if (negb (boundary_eqb boundary (co_native_boundary offer))) NativeBoundaryMismatch ;;
  scan_revision ← ok_or ScanRevisionMismatch (at_scan_revision attempt);
  bail_if (negb (scan_revision =? co_scan_revision offer)) ScanRevisionMismatch ;;
  s ← get;
  if inc_rescan_required incident
     || negb (sm_loss_watermark s =? ab_loss_watermark boundary) then
    set_incident (retry_attempt incident) ;;
    commit (observed_at moment) next_revision ;;
    mret (RetryRequired (inc_id incident))
  else
    duration ← ok_or MonotonicTimeReversed
                 (elapsed_since (monotonic moment) (inc_started_tick incident));
    let receipt_input :=
      {| ri_incident_id := inc_id incident;
         ri_attempt_id := tok_attempt_id (co_attempt offer);
         ri_attempt_count := inc_attempt_count incident;
         ri_scan_count := inc_scan_count incident;
         ri_activity_watermark := ab_activity_watermark boundary;
         ri_authoritative_scan_revision := scan_revision;
         ri_native_boundary := boundary;
         ri_started_at := inc_started_at incident;
         ri_completed_at := observed_at moment;
         ri_duration := duration;
         ri_closing_recovery_revision := next_revision |} in
    match receipt_try_from_input receipt_input with
    | Err error =>
        set_incident (block incident
          (fatal_contract RecoveryClosureDurationOutOfRange (observed_at moment))) ;;
        commit (observed_at moment) next_revision ;;
        throw error
    | Ok receipt =>
        modify (λ s, s <| sm_incident := None |> <| sm_last_completed := Some receipt |>) ;;
        commit (observed_at moment) next_revision ;;
        mret (Closed receipt)
    end.

Definition reject_native_close (token : AttemptToken) (moment : RecoveryMoment)
    : RM CloseDisposition :=
  next_revision ← next_revision_or_block moment;
  incident ← active_incident;
  bail_if (bool_decide (inc_phase incident ≠ Closing))
    (OutOfOrder "reject stale native boundary" (inc_phase incident)) ;;
  matching_attempt incident token ;;
  set_incident (retry_attempt incident) ;;
  commit (observed_at moment) next_revision ;;
  mret (RetryRequired (inc_id incident)).

(** ** Failures, retries and authority *)

Definition record_dependency_failure (token : AttemptToken) (failure : DependencyFailure)
    (moment : RecoveryMoment) : RM FailureDisposition :=
  next_revision ← next_revision_or_block moment;
  incident ← active_incident;
  matching_attempt incident token ;;
  if is_retryable (df_class failure) then
    match u32_checked_add (inc_retry_failures incident) 1 with
    | None =>
        set_incident (block incident
          (fatal_contract RecoveryRetryCountExhausted (observed_at moment))) ;;
        commit (observed_at moment) next_revision ;;
        throw (RecoveryCountExhausted "retry")
    | Some consecutive =>
        s ← get;
        let delay := delay_for (sm_backoff_policy s) consecutive in
        match instant_checked_add (monotonic moment) delay with
        | None =>
            set_incident (block incident
              (fatal_contract RecoveryRetryDeadlineOverflow (observed_at moment))) ;;
            commit (observed_at moment) next_revision ;;
            throw RetryDeadlineOverflow
        | Some retry_at =>
            set_incident ((clear_attempt_evidence (incident
                <| inc_retry_failures := consecutive |>
                <| inc_retry_at := Some retry_at |>))
              <| inc_phase := BackingOff |>
              <| inc_rescan_required := true |>
              <| inc_failure := Some failure |>) ;;
            commit (observed_at moment) next_revision ;;
            mret (RetryScheduled (inc_id incident) retry_at delay)
        end
    end
  else
    set_incident (block incident failure) ;;
    commit (observed_at moment) next_revision ;;
    mret (FailureBlocked (inc_id incident) (df_class failure)).

Definition retry_if_due (moment : RecoveryMoment) : RM IncidentId :=
  next_revision ← next_revision_or_block moment;
  incident ← active_incident;
  bail_if (bool_decide (inc_phase incident ≠ BackingOff))
    (OutOfOrder "retry recovery" (inc_phase incident)) ;;
  retry_at ← ok_or RetryNotDue (inc_retry_at incident);
  bail_if (monotonic moment <? retry_at) RetryNotDue ;;
  set_incident (clear_attempt_evidence (incident
    <| inc_retry_at := None |>
    <| inc_phase := Rearming |>
    <| inc_failure := None |>)) ;;
  commit (observed_at moment) next_revision ;;
  mret (inc_id incident).

Definition restore_authority (moment : RecoveryMoment) : RM AuthorityRestoration :=
  next_revision ← next_revision_or_block moment;
  s ← get;
  incident ← ok_or NoOpenIncident (sm_incident s);
  failure ← ok_or AuthorityNotRestorable (inc_failure incident);
  bail_if (negb (is_authority_restorable (df_class failure))) AuthorityNotRestorable ;;
  set_incident (clear_attempt_evidence (incident
    <| inc_failure := None |>
    <| inc_phase := Rearming |>
    <| inc_rescan_required := true |>
    <| inc_retry_failures := 0 |>
    <| inc_retry_at := None |>)) ;;
  commit (observed_at moment) next_revision ;;
  mret (Restored (inc_id incident)).

Definition restore_matching_authority (expected_failure : DependencyFailure)
    (moment : RecoveryMoment) : RM AuthorityRestoration :=
  s ← get;
  retained ← ok_or AuthorityNotRestorable
    (match sm_incident s with Some incident => inc_failure incident | None => None end);
  bail_if (bool_decide (retained ≠ expected_failure)) RetainedFailureMismatch ;;
  restore_authority moment.

(** ** Admissions ([reducer/admissions.rs]) *)

(** The exhausted-watermark exit shared by the three admissions; [mark] is the
    assignment of the terminal watermark. *)
Definition exhaust_watermark {A} (mark : RecoveryStateMachine → RecoveryStateMachine)
    (moment : RecoveryMoment) : RM A :=
  next_revision ← next_revision_or_block moment;
  modify mark ;;
  terminal_block RecoveryActivityWatermarkExhausted moment ;;
  commit (observed_at moment) next_revision ;;
  throw ActivityWatermarkExhausted.

Definition observe_activity (moment : RecoveryMoment) : RM ActivityAdmission :=
  s ← get;
  match watermark_checked_next (sm_activity_watermark s) with
  | None => exhaust_watermark (λ s, s <| sm_activity_watermark := terminal |>) moment
  | Some next_watermark =>
      modify (λ s, s <| sm_activity_watermark := next_watermark |>) ;;
      next_revision ← next_revision_or_block moment;
      s ← get;
      match sm_incident s with
      | None =>
          commit (observed_at moment) next_revision ;;
          mret AdmittedNominal
      | Some incident =>
          commit (observed_at moment) next_revision ;;
          mret (if is_blocked incident then BlockedIncidentAdvanced (inc_id incident)
                else ObservedDuringIncident (inc_id incident))
      end
  end.

Definition observe_suppressed (moment : RecoveryMoment) : RM ActivityAdmission :=
  s ← get;
  match watermark_checked_next (sm_activity_watermark s) with
  | None => exhaust_watermark (λ s, s <| sm_activity_watermark := terminal |>) moment
  | Some next_watermark =>
  match watermark_checked_next (sm_loss_watermark s) with
  | None => exhaust_watermark (λ s, s <| sm_loss_watermark := terminal |>) moment
  | Some next_loss =>
      modify (λ s, s <| sm_activity_watermark := next_watermark |>
                     <| sm_loss_watermark := next_loss |>) ;;
      next_revision ← next_revision_or_block moment;
      s ← get;
      match sm_incident s with
      | None =>
          admission ← open_incident NativeCallbackLaneSaturated moment next_revision;
          mret (match admission with
                | Opened i | Coalesced i => CoverageInvalidated i
                | BlockedIncidentUpdated i => BlockedIncidentAdvanced i
                end)
      | Some incident =>
          set_incident (incident <| inc_rescan_required := true |>) ;;
          commit (observed_at moment) next_revision ;;
          mret (if is_blocked incident then BlockedIncidentAdvanced (inc_id incident)
                else CoverageInvalidated (inc_id incident))
      end
  end end.

Definition observe_loss (cause : RecoveryCause) (moment : RecoveryMoment) : RM LossAdmission :=
  s ← get;
  match watermark_checked_next (sm_activity_watermark s) with
  | None => exhaust_watermark (λ s, s <| sm_activity_watermark := terminal |>) moment
  | Some next_watermark =>
  match watermark_checked_next (sm_loss_watermark s) with
  | None => exhaust_watermark (λ s, s <| sm_loss_watermark := terminal |>) moment
  | Some next_loss =>
      modify (λ s, s <| sm_activity_watermark := next_watermark |>
                     <| sm_loss_watermark := next_loss |>) ;;
      next_revision ← next_revision_or_block moment;
      s ← get;
      match sm_incident s with
      | None => open_incident cause moment next_revision
      | Some incident =>
          match record_cause incident cause with
          | None =>
              set_incident (block incident
                (fatal_contract RecoveryCauseCountExhausted (observed_at moment))) ;;
              commit (observed_at moment) next_revision ;;
              throw (RecoveryCountExhausted "cause")
          | Some incident' =>
              set_incident (incident' <| inc_rescan_required := true |>) ;;
              commit (observed_at moment) next_revision ;;
              mret (if is_blocked incident then BlockedIncidentUpdated (inc_id incident)
                    else Coalesced (inc_id incident))
          end
      end
  end end.

(** ** Projections ([reducer/projection.rs]) *)

Definition lifecycle (s : RecoveryStateMachine) : RecoveryLifecycle :=
  match sm_incident s with
  | None => Nominal
  | Some incident => if is_blocked incident then LifecycleBlockedState else Recovering
  end.

Definition current_attempt_token (s : RecoveryStateMachine) : option AttemptToken :=
  match sm_incident s with
  | Some incident => option_map at_token (inc_current_attempt incident)
  | None => None
  end.

Definition current_native_boundary (s : RecoveryStateMachine)
    : option AttemptCoverageBoundary :=
  match sm_incident s with
  | Some incident => inc_native_coverage incident
  | None => None
  end.

Definition current_worker_ownership (s : RecoveryStateMachine)
    : option RecoveryWorkerOwnership := sm_active_worker s.

Definition last_completed_receipt (s : RecoveryStateMachine) : option RecoveryClosureReceipt :=
  sm_last_completed s.

Definition nominal_frontier (s : RecoveryStateMachine) : option RecoveryFrontier :=
  match sm_incident s with
  | Some _ => None
  | None =>
      Some (mkFrontier (sm_revision s) (sm_activity_watermark s)
              (option_map closure_identity_from_receipt (sm_last_completed s)))
  end.

End Machine.
