(* ===== verification/RecoveryInvariants.v ===== *)
(** * Watcher recovery: the reducer's invariant

    The reducer's own test oracle, [reducer/invariants.rs], is modelled as the
    boolean function [invariant_holds]; it is implied by the inductive
    invariant [Inv], which every transition preserves. *)

From S2P Require Import Prelude.
From S2P Require Import WatcherCoverage.
From S2P Require Import RecoveryTypes.
From S2P Require Import RecoveryReducer.
Local Open Scope string_scope.
Open Scope Z_scope.

Section Invariant.
Context `{TimeLib}.

(** ** The oracle of [reducer/invariants.rs] *)

Definition option_boundary_eqb (a b : option AttemptCoverageBoundary) : bool :=
  match a, b with
  | Some x, Some y => boundary_eqb x y
  | None, None => true
  | _, _ => false
  end.

Definition attempt_identity_holds (i : IncidentState) (model : RecoveryStateMachine) : bool :=
  is_none_or (λ attempt,
    (tok_incident_id (at_token attempt) =? inc_id i)
    && bool_decide (Some (tok_worker_id (at_token attempt)) = sm_active_worker model)
    && option_boundary_eqb (at_native_boundary attempt) (inc_native_coverage i)
    && is_none_or (λ b, ab_activity_watermark b <=? sm_activity_watermark model)
         (at_native_boundary attempt)
    && (is_none (at_scan_revision attempt) || at_scan_started attempt))
    (inc_current_attempt i).

Definition no_attempt_evidence (i : IncidentState) : bool :=
  is_none (inc_current_attempt i) && is_none (inc_native_coverage i).

Definition no_failure_wait (i : IncidentState) : bool :=
  is_none (inc_failure i) && is_none (inc_retry_at i).

Definition phase_invariant (i : IncidentState) : bool :=
  match inc_phase i with
  | Rearming => no_attempt_evidence i && no_failure_wait i
  | AwaitingCoverage =>
      no_failure_wait i && is_none (inc_native_coverage i)
      && is_some_and (λ a, is_none (at_native_boundary a) && negb (at_scan_started a)
                           && is_none (at_scan_revision a)) (inc_current_attempt i)
  | Scanning =>
      no_failure_wait i
      && is_some_and (λ a, is_none (at_native_boundary a) && at_scan_started a
                           && is_none (at_scan_revision a)) (inc_current_attempt i)
  | AwaitingSeal =>
      no_failure_wait i
      && is_some_and (λ a, is_none (at_native_boundary a) && at_scan_started a
                           && is_some (at_scan_revision a)) (inc_current_attempt i)
  | Closing =>
      no_failure_wait i
      && is_some_and (λ a, is_some (at_native_boundary a) && at_scan_started a
                           && is_some (at_scan_revision a)) (inc_current_attempt i)
  | BackingOff =>
      no_attempt_evidence i && is_some (inc_retry_at i)
      && is_some_and (λ f, is_retryable (df_class f)) (inc_failure i)
      && inc_rescan_required i
  | Blocked =>
      no_attempt_evidence i && is_none (inc_retry_at i)
      && is_some_and (λ f, negb (is_retryable (df_class f))) (inc_failure i)
      && inc_rescan_required i
  end.

Definition invariant_holds (s : RecoveryStateMachine) : bool :=
  match sm_incident s with
  | None => bool_decide (lifecycle s = Nominal)
  | Some i =>
      let expected_lifecycle := if is_blocked i then LifecycleBlockedState else Recovering in
      bool_decide (lifecycle s = expected_lifecycle)
      && (0 <? counters_get (inc_cause_counts i) (inc_primary_cause i))
      && attempt_identity_holds i s
      && phase_invariant i
  end.

(** ** Operations as data *)

Inductive recovery_op : Type :=
| OpReplaceWorker (m : RecoveryMoment)
| OpWorkerExited (w : RecoveryWorkerOwnership) (m : RecoveryMoment)
| OpStartAttempt (m : RecoveryMoment)
| OpScanStarted (t : AttemptToken) (m : RecoveryMoment)
| OpScanCompleted (t : AttemptToken) (r : RecoveryScanRevision) (m : RecoveryMoment)
| OpNativeBoundary (t : AttemptToken) (h : WatcherCoverageHandoff) (m : RecoveryMoment)
| OpOfferClose (o : CloseOffer) (m : RecoveryMoment)
| OpRejectNativeClose (t : AttemptToken) (m : RecoveryMoment)
| OpDependencyFailure (t : AttemptToken) (f : DependencyFailure) (m : RecoveryMoment)
| OpRetryIfDue (m : RecoveryMoment)
| OpRestoreAuthority (m : RecoveryMoment)
| OpRestoreMatchingAuthority (f : DependencyFailure) (m : RecoveryMoment)
| OpActivity (m : RecoveryMoment)
| OpSuppressed (m : RecoveryMoment)
| OpLoss (c : RecoveryCause) (m : RecoveryMoment).

Inductive outcome : Type :=
| OutUnit
| OutWorker (w : RecoveryWorkerOwnership)
| OutIncident (i : IncidentId)
| OutToken (t : AttemptToken)
| OutClose (d : CloseDisposition)
| OutFailure (d : FailureDisposition)
| OutRestored (r : AuthorityRestoration)
| OutActivity (a : ActivityAdmission)
| OutLoss (a : LossAdmission).

(** Dispatch an operation on the reducer. *)
Definition exec (o : recovery_op) : RM outcome :=
  match o with
  | OpReplaceWorker m => r ← replace_worker m; mret (OutWorker r)
  | OpWorkerExited w m => r ← worker_exited w m; mret (OutIncident r)
  | OpStartAttempt m => r ← start_attempt m; mret (OutToken r)
  | OpScanStarted t m => record_scan_started t m ;; mret OutUnit
  | OpScanCompleted t r m => record_scan_completed t r m ;; mret OutUnit
  | OpNativeBoundary t h m => record_native_boundary t h m ;; mret OutUnit
  | OpOfferClose o m => r ← offer_close o m; mret (OutClose r)
  | OpRejectNativeClose t m => r ← reject_native_close t m; mret (OutClose r)
  | OpDependencyFailure t f m => r ← record_dependency_failure t f m; mret (OutFailure r)
  | OpRetryIfDue m => r ← retry_if_due m; mret (OutIncident r)
  | OpRestoreAuthority m => r ← restore_authority m; mret (OutRestored r)
  | OpRestoreMatchingAuthority f m => r ← restore_matching_authority f m; mret (OutRestored r)
  | OpActivity m => r ← observe_activity m; mret (OutActivity r)
  | OpSuppressed m => r ← observe_suppressed m; mret (OutActivity r)
  | OpLoss c m => r ← observe_loss c m; mret (OutLoss r)
  end.

(** The state reached by a sequence of operations, failed ones included. *)
Definition run (s : RecoveryStateMachine) (ops : list recovery_op) : RecoveryStateMachine :=
  fold_left (λ s o, state_of (exec o) s) ops s.

(** ** The inductive invariant *)

(** What each phase says about the evidence, the wait and the failure. *)
Definition phase_ok (i : IncidentState) : Prop :=
  match inc_phase i with
  | Rearming =>
      inc_current_attempt i = None ∧ inc_native_coverage i = None ∧
      inc_failure i = None ∧ inc_retry_at i = None
  | AwaitingCoverage | Scanning | AwaitingSeal | Closing =>
      inc_failure i = None ∧ inc_retry_at i = None ∧
      ∃ a, inc_current_attempt i = Some a ∧
           at_scan_started a = bool_decide (inc_phase i ≠ AwaitingCoverage) ∧
           (is_some (at_scan_revision a) =
              bool_decide (inc_phase i = AwaitingSeal ∨ inc_phase i = Closing)) ∧
           is_some (at_native_boundary a) = bool_decide (inc_phase i = Closing)
  | BackingOff =>
      inc_current_attempt i = None ∧ inc_native_coverage i = None ∧
      inc_rescan_required i = true ∧ is_some (inc_retry_at i) = true ∧
      ∃ f, inc_failure i = Some f ∧ is_retryable (df_class f) = true
  | Blocked =>
      inc_current_attempt i = None ∧ inc_native_coverage i = None ∧
      inc_rescan_required i = true ∧ inc_retry_at i = None ∧
      ∃ f, inc_failure i = Some f ∧ is_retryable (df_class f) = false
  end.

(** The attempt in flight belongs to this incident and this worker, its token
    was allocated by this machine, and its boundary is the incident's. *)
Definition attempt_ok (s : RecoveryStateMachine) (i : IncidentState) : Prop :=
  ∀ a, inc_current_attempt i = Some a →
    tok_incident_id (at_token a) = inc_id i ∧
    Some (tok_worker_id (at_token a)) = sm_active_worker s ∧
    tok_attempt_id (at_token a) < sm_next_attempt_id s ∧
    at_native_boundary a = inc_native_coverage i ∧
    (∀ b, at_native_boundary a = Some b →
       ab_activity_watermark b ≤ sm_activity_watermark s ∧
       ab_loss_watermark b ≤ sm_loss_watermark s).

Definition counters_ok (counts : CauseCounters) (primary : RecoveryCause) : Prop :=
  length counts = 8%nat ∧ Forall (λ c, 0 ≤ c ≤ MAX_RECOVERY_COUNT) counts ∧
  0 < counters_get counts primary.

Definition incident_ok (s : RecoveryStateMachine) (i : IncidentState) : Prop :=
  counters_ok (inc_cause_counts i) (inc_primary_cause i) ∧
  0 ≤ inc_attempt_count i ≤ MAX_RECOVERY_COUNT ∧
  0 ≤ inc_scan_count i ∧
  inc_scan_count i + (if bool_decide (inc_phase i = AwaitingCoverage) then 1 else 0)
    ≤ inc_attempt_count i ∧
  0 ≤ inc_retry_failures i ≤ u32_max ∧
  attempt_ok s i ∧ phase_ok i.

(** Every allocation and every watermark step is paid for by a revision, so the
    revision — which stops at [MAX_SCHEMA_INTEGER] — bounds them all. *)
Definition counters_bounded (s : RecoveryStateMachine) : Prop :=
  0 ≤ sm_loss_watermark s ≤ sm_activity_watermark s ∧
  1 ≤ sm_next_attempt_id s ≤ sm_revision s + 1 ∧
  1 ≤ sm_next_worker_id s ≤ sm_revision s + 1 ∧
  0 ≤ sm_revision s ≤ MAX_SCHEMA_INTEGER ∧
  (sm_revision s < MAX_SCHEMA_INTEGER →
     sm_activity_watermark s ≤ sm_revision s ∧ 1 ≤ sm_next_incident_id s ≤ sm_revision s + 1) ∧
  sm_activity_watermark s < MAX_SCHEMA_INTEGER.

(** Once the revision is exhausted an incident is blocked for good. *)
Definition exhausted_blocked (s : RecoveryStateMachine) : Prop :=
  sm_revision s = MAX_SCHEMA_INTEGER →
  ∃ i f, sm_incident s = Some i ∧ is_blocked i = true ∧
    inc_failure i = Some f ∧ df_class f = FatalContract.

Definition Inv (s : RecoveryStateMachine) : Prop :=
  counters_bounded s ∧ exhausted_blocked s ∧
  ∀ i, sm_incident s = Some i → incident_ok s i.

(** ** States used in the proofs *)

(** The state [next_revision_or_block] leaves when the revision is exhausted. *)
Definition exhausted (m : RecoveryMoment) (s : RecoveryStateMachine) : RecoveryStateMachine :=
  state_of (terminal_block RecoveryRevisionExhaustedCode m ;; commit (observed_at m) terminal) s.

(** [s'] keeps what [incident_ok] reads of [s]. *)
Definition extends (s s' : RecoveryStateMachine) : Prop :=
  sm_active_worker s' = sm_active_worker s ∧
  sm_next_attempt_id s ≤ sm_next_attempt_id s' ∧
  sm_activity_watermark s ≤ sm_activity_watermark s' ∧
  sm_loss_watermark s ≤ sm_loss_watermark s'.

(** The exhaustion exit re-establishes the invariant even from a state whose
    watermarks ran ahead of the revision. *)
Definition pre_exhausted (s : RecoveryStateMachine) : Prop :=
  0 ≤ sm_loss_watermark s ≤ sm_activity_watermark s ∧
  1 ≤ sm_next_attempt_id s ≤ MAX_SCHEMA_INTEGER + 1 ∧
  1 ≤ sm_next_worker_id s ≤ MAX_SCHEMA_INTEGER + 1 ∧
  sm_activity_watermark s < MAX_SCHEMA_INTEGER ∧
  ∀ i, sm_incident s = Some i → incident_ok s i.

End Invariant.

Section Lemmas.
Context `{TimeLib}.
Implicit Types (s : RecoveryStateMachine) (i : IncidentState) (m : RecoveryMoment).

Lemma wp_next_revision m (Q : Result RecoveryRevision RecoveryTransitionError → RecoveryStateMachine → Prop) s :
  0 ≤ sm_revision s →
  (sm_revision s + 1 < MAX_SCHEMA_INTEGER → Q (Ok (sm_revision s + 1)) s) →
  (MAX_SCHEMA_INTEGER ≤ sm_revision s + 1 → Q (Err RecoveryRevisionExhausted) (exhausted m s)) →
  wp (next_revision_or_block m) Q s.
Proof.
  intros Hpos Hok Herr. unfold next_revision_or_block.
  do 2 wp_step. destruct (watermark_checked_next (sm_revision s)) eqn:Hnext.
  - apply watermark_checked_next_Some in Hnext as [-> ?]. by apply Hok.
  - apply watermark_checked_next_None in Hnext; [|done]. exact (Herr Hnext).
Qed.

Lemma wp_active_incident Q s :
  (∀ i, sm_incident s = Some i → inc_phase i ≠ Blocked → Q (Ok i) s) →
  (∀ e, e = NoOpenIncident ∨ e = LifecycleBlocked → Q (Err e) s) →
  wp active_incident Q s.
Proof.
  intros Hok Herr. unfold active_incident.
  repeat wp_step; auto. apply Hok; [done|].
  by apply bool_decide_eq_false_1 in H1.
Qed.

Lemma wp_matching_attempt i t Q s :
  (∀ a, inc_current_attempt i = Some a → at_token a = t → Q (Ok a) s) →
  (∀ e, e = NoAttemptInFlight ∨ e = AttemptMismatch → Q (Err e) s) →
  wp (matching_attempt i t) Q s.
Proof.
  intros Hok Herr. unfold matching_attempt.
  repeat wp_step; auto. apply Hok; [done|].
  apply bool_decide_eq_false_1 in H1. by apply dec_stable.
Qed.

(** ** The invariant of incidents *)

Lemma incident_ok_extends s s' i : extends s s' → incident_ok s i → incident_ok s' i.
Proof.
  intros (Hw & Hn & Ha & Hl) (? & ? & ? & ? & ? & Hatt & ?). repeat (split; [done|]).
  split; [|done]. intros a Hc. destruct (Hatt a Hc) as (? & ? & ? & ? & Hb).
  repeat split; [done|congruence|lia|done|..]; destruct (Hb b); try done; lia.
Qed.

(** An incident without an attempt does not read the machine at all. *)
Lemma incident_ok_idle s s' i :
  inc_current_attempt i = None → incident_ok s i → incident_ok s' i.
Proof.
  intros Hnone (? & ? & ? & ? & ? & _ & ?). repeat (split; [done|]).
  split; [|done]. intros a. by rewrite Hnone.
Qed.

(** Build [incident_ok] for an incident without an attempt. *)
Lemma incident_ok_detached s s' i i' :
  incident_ok s i →
  inc_cause_counts i' = inc_cause_counts i → inc_primary_cause i' = inc_primary_cause i →
  inc_attempt_count i' = inc_attempt_count i → inc_scan_count i' = inc_scan_count i →
  0 ≤ inc_retry_failures i' ≤ u32_max →
  inc_current_attempt i' = None → inc_phase i' ≠ AwaitingCoverage → phase_ok i' →
  incident_ok s' i'.
Proof.
  intros (Hc & Ha & Hs & Hsa & Hr & _ & _) E1 E2 E3 E4 Hr' Hnone Hph Hok.
  unfold incident_ok. rewrite E1, E2, E3, E4. rewrite (bool_decide_eq_false_2 _ Hph).
  assert (inc_scan_count i ≤ inc_attempt_count i) by (case_bool_decide; lia).
  split_and!; try (done || lia). intros a. by rewrite Hnone.
Qed.

Lemma counters_with_primary_ok cause : counters_ok (counters_with_primary cause) cause.
Proof.
  unfold counters_ok. split_and!; destruct cause; try done;
    cbn; repeat constructor; unfold MAX_RECOVERY_COUNT; lia.
Qed.

Lemma counters_increment_ok counts cause counts' primary :
  counters_ok counts primary → counters_increment counts cause = Some counts' →
  counters_ok counts' primary.
Proof.
  intros (Hlen & Hall & Hpos) Hinc. unfold counters_increment in Hinc.
  destruct (counts !! cause_index cause) as [c|] eqn:Hc; [|done].
  destruct (count_checked_next c) as [c'|] eqn:Hn; [|done]. injection Hinc as <-.
  apply count_checked_next_Some in Hn as [-> Hle].
  pose proof (Forall_lookup_1 _ _ _ _ Hall Hc) as Hrange. cbn in Hrange.
  unfold counters_ok. rewrite length_insert. split_and!; [done|apply Forall_insert; [done|lia]|].
  unfold counters_get in *. destruct (decide (cause_index cause = cause_index primary)) as [Heq|Hne].
  - rewrite Heq in *. rewrite Hc in Hpos. cbn in Hpos.
    rewrite list_lookup_insert_eq by (by eapply lookup_lt_Some). cbn. lia.
  - by rewrite list_lookup_insert_ne.
Qed.

Lemma incident_ok_new s id cause m : incident_ok s (IncidentState_new id cause m).
Proof.
  unfold incident_ok, attempt_ok, phase_ok, MAX_RECOVERY_COUNT, u32_max. cbn.
  split; [apply counters_with_primary_ok|]. repeat split; done.
Qed.

Lemma incident_ok_block s s' i f :
  is_retryable (df_class f) = false → incident_ok s i → incident_ok s' (block i f).
Proof.
  intros Hf Hok. pose proof Hok as (_ & _ & _ & _ & Hr & _).
  eapply incident_ok_detached; try done; cbn; try done.
  repeat split; try done. by exists f.
Qed.

Lemma incident_ok_rearm s s' i :
  incident_ok s i → incident_ok s' (rearm_after_worker_change i).
Proof.
  intros Hok. unfold rearm_after_worker_change, is_blocked.
  pose proof Hok as (_ & _ & _ & _ & Hr & _ & Hph). case_bool_decide as Hb.
  - eapply incident_ok_idle; [|done]. unfold phase_ok in Hph. rewrite Hb in Hph. by destruct Hph.
  - eapply incident_ok_detached; try done; cbn; done.
Qed.

Lemma incident_ok_retry s s' i :
  inc_phase i = Closing → incident_ok s i → incident_ok s' (retry_attempt i).
Proof.
  intros Hp Hok. pose proof Hok as (_ & _ & _ & _ & Hr & _ & Hph).
  unfold phase_ok in Hph. rewrite Hp in Hph. destruct Hph as (? & ? & _).
  eapply incident_ok_detached; try done; cbn; done.
Qed.

Lemma incident_ok_rescan s i :
  incident_ok s i → incident_ok s (i <| inc_rescan_required := true |>).
Proof.
  intros (? & ? & ? & ? & ? & ? & Hph). repeat (split; [done|]).
  unfold phase_ok in *. cbn. destruct (inc_phase i); intuition.
Qed.

Lemma incident_ok_counts s i counts :
  counters_ok counts (inc_primary_cause i) →
  incident_ok s i → incident_ok s (i <| inc_cause_counts := counts |>).
Proof. intros Hc (_ & Hrest). by split. Qed.

(** ** The invariant of machines *)

Lemma Inv_revision s : Inv s → 0 ≤ sm_revision s.
Proof. unfold Inv, counters_bounded. lia. Qed.

(** A transition that advances the revision by one keeps the bounds as long as
    it takes at most one step on each sequence. *)
Lemma Inv_advance s s' :
  Inv s → sm_revision s + 1 < MAX_SCHEMA_INTEGER →
  sm_revision s' = sm_revision s + 1 →
  sm_activity_watermark s ≤ sm_activity_watermark s' ≤ sm_activity_watermark s + 1 →
  0 ≤ sm_loss_watermark s' ≤ sm_activity_watermark s' →
  sm_next_attempt_id s ≤ sm_next_attempt_id s' ≤ sm_next_attempt_id s + 1 →
  sm_next_worker_id s ≤ sm_next_worker_id s' ≤ sm_next_worker_id s + 1 →
  sm_next_incident_id s ≤ sm_next_incident_id s' ≤ sm_next_incident_id s + 1 →
  (∀ i, sm_incident s' = Some i → incident_ok s' i) →
  Inv s'.
Proof.
  intros (Hb & _ & _) Hrev Hrev' ????? Hok. unfold counters_bounded in Hb.
  split; [|split]; [|unfold exhausted_blocked; lia|done]. unfold counters_bounded. lia.
Qed.

Lemma Inv_pre_exhausted s : Inv s → pre_exhausted s.
Proof. intros (Hb & _ & Hok). unfold counters_bounded in Hb. unfold pre_exhausted. split_and!; (done || lia). Qed.

Lemma Inv_exhausted m s : pre_exhausted s → Inv (exhausted m s).
Proof.
  intros Hb. unfold exhausted, terminal_block, commit. unfold_M.
  unfold pre_exhausted, terminal in *. destruct Hb as (? & ? & ? & ? & Hok).
  destruct (sm_incident s) as [i|] eqn:Hi; cbn; split_and!; unfold counters_bounded; cbn;
    unfold MAX_SCHEMA_INTEGER in *; try lia.
  - intros _. cbn. eexists _, _. split_and!; done.
  - intros ? [= <-]. eapply incident_ok_block; [done|]. by apply Hok.
  - intros _. cbn. eexists _, _. split_and!; done.
  - intros ? [= <-]. eapply incident_ok_block, (incident_ok_new s); done.
Qed.

Lemma wp_id_new_or kind name v
    (Q : Result Z RecoveryTransitionError → RecoveryStateMachine → Prop) s :
  1 ≤ v → Q (Ok v) s → wp (id_new_or kind name v) Q s.
Proof.
  intros Hv HQ. unfold id_new_or, prefixed_id_new.
  by rewrite (proj2 (Z.eqb_neq v 0)) by lia.
Qed.

Lemma allocate_available n : n < u64_max → allocate n = (Available n, n + 1).
Proof. intros. unfold allocate. by rewrite (proj2 (Z.eqb_neq n u64_max)) by lia. Qed.
End Lemmas.

(** ** Symbolic execution of the reducer *)

(** The sequences of a state satisfying the invariant are within range. *)
Ltac seq_bound :=
  match goal with
  | HInv : Inv _ |- _ =>
      destruct HInv as (Hbounds & _);
      unfold counters_bounded, MAX_SCHEMA_INTEGER, u64_max in *; cbn in *; lia
  end.

Ltac rm_step :=
  lazymatch goal with
  | |- wp (next_revision_or_block _) _ _ => apply wp_next_revision; [|intros ?..]
  | |- wp active_incident _ _ => apply wp_active_incident; [intros ???|intros ? [-> | ->]]
  | |- wp (matching_attempt _ _) _ _ => apply wp_matching_attempt; [intros ???|intros ? [-> | ->]]
  | |- wp (set_incident _) _ _ => unfold set_incident
  | |- wp (commit _ _) _ _ => unfold commit
  | |- wp (id_new_or _ _ _) _ _ => apply wp_id_new_or; [seq_bound|]
  | |- wp (block_for_exhaustion _ _ _) _ _ => unfold block_for_exhaustion
  | |- wp (terminal_block _ _) _ _ => unfold terminal_block
  | |- wp (open_incident _ _ _) _ _ => unfold open_incident
  | |- wp (match allocate ?n with _ => _ end) _ _ =>
      rewrite (allocate_available n) by seq_bound
  | |- _ => wp_step
  end; cbn beta iota.

(** Run an operation to its leaves; close the ones that only read the state and
    the one where the revision is exhausted. *)
Ltac rm_run :=
  repeat rm_step; try done;
  try (by (apply Inv_revision || (apply Inv_exhausted, Inv_pre_exhausted)));
  bool_to_prop; simplify_eq/=; try (by apply Inv_revision).

(** Goals of the shape [Inv s'] for a successor that advanced the revision. *)
Ltac inv_advance :=
  match goal with
  | HInv : Inv ?s |- Inv _ =>
      apply (Inv_advance s _ HInv);
      [cbn; lia|cbn; lia|cbn; seq_bound..|cbn]
  end.

(** The incident of a state satisfying the invariant. *)
Ltac incident_of :=
  match goal with
  | HInv : Inv ?s, Hi : sm_incident ?s = Some ?i |- _ =>
      let Hok := fresh "Hok" in
      pose proof (proj2 (proj2 HInv) i Hi) as Hok
  end.

(** The obligations of [incident_ok_attempt]: [Hnative] decides the boundary. *)
Ltac attempt_solve :=
  unfold phase_ok, AttemptState_new; cbn; eval_decides;
  first
    [ done | lia | congruence
    | split_and!; try done; eexists; split; [reflexivity|]; cbn; eval_decides;
      split_and!; first [done|congruence] ].

Section Preservation.
Context `{TimeLib}.
Implicit Types (s : RecoveryStateMachine) (i : IncidentState) (m : RecoveryMoment).

(** An attempt moves to the phase [p] with evidence [a]: the scheduling fields
    stay clear and the evidence matches the phase. *)
Lemma incident_ok_attempt s s' i i' a :
  incident_ok s i →
  inc_cause_counts i' = inc_cause_counts i → inc_primary_cause i' = inc_primary_cause i →
  inc_retry_failures i' = inc_retry_failures i → inc_id i' = inc_id i →
  0 ≤ inc_attempt_count i' ≤ MAX_RECOVERY_COUNT → 0 ≤ inc_scan_count i' →
  inc_scan_count i' + (if bool_decide (inc_phase i' = AwaitingCoverage) then 1 else 0)
    ≤ inc_attempt_count i' →
  inc_current_attempt i' = Some a → at_native_boundary a = inc_native_coverage i' →
  tok_incident_id (at_token a) = inc_id i →
  Some (tok_worker_id (at_token a)) = sm_active_worker s' →
  tok_attempt_id (at_token a) < sm_next_attempt_id s' →
  (∀ b, at_native_boundary a = Some b →
     ab_activity_watermark b ≤ sm_activity_watermark s' ∧
     ab_loss_watermark b ≤ sm_loss_watermark s') →
  phase_ok i' →
  incident_ok s' i'.
Proof.
  intros (Hc & _ & _ & _ & Hr & _) E1 E2 E3 E4 Ha Hs Hsa Hcur Hb Ht1 Ht2 Ht3 Hw Hph.
  unfold incident_ok. rewrite E1, E2, E3. do 5 (split; [done|]). split; [|done].
  intros a' Ha'. rewrite Hcur in Ha'. injection Ha' as <-. split_and!; by (congruence || auto).
Qed.

Lemma incident_ok_scan_le s i : incident_ok s i → inc_scan_count i ≤ inc_attempt_count i.
Proof. intros (_ & _ & _ & Hsa & _). case_bool_decide; lia. Qed.

Lemma start_attempt_Inv m s : Inv s → wp (start_attempt m) (λ _, Inv) s.
Proof.
  intros HInv. unfold start_attempt. rm_run; incident_of; inv_advance; intros ? [= <-].
  - apply count_checked_next_Some in Heqo as [-> Hle].
    pose proof Hok as (_ & [Hge _] & Hs & _). pose proof (incident_ok_scan_le _ _ Hok).
    eapply incident_ok_attempt; [exact Hok|..]; try attempt_solve.
  - by eapply incident_ok_block.
Qed.

(** The incident in flight and its attempt, for the phases that carry one. *)
Lemma incident_ok_current s i a :
  incident_ok s i → inc_current_attempt i = Some a →
  (tok_incident_id (at_token a) = inc_id i ∧
   Some (tok_worker_id (at_token a)) = sm_active_worker s ∧
   tok_attempt_id (at_token a) < sm_next_attempt_id s ∧
   at_native_boundary a = inc_native_coverage i) ∧
  inc_failure i = None ∧ inc_retry_at i = None ∧
  at_scan_started a = bool_decide (inc_phase i ≠ AwaitingCoverage) ∧
  is_some (at_scan_revision a) =
    bool_decide (inc_phase i = AwaitingSeal ∨ inc_phase i = Closing) ∧
  is_some (at_native_boundary a) = bool_decide (inc_phase i = Closing).
Proof.
  intros (_ & _ & _ & _ & _ & Hatt & Hph) Ha.
  destruct (Hatt a Ha) as (? & ? & ? & ? & _). split; [done|].
  unfold phase_ok in Hph. rewrite Ha in Hph.
  destruct (inc_phase i); try (by destruct Hph); destruct Hph as (? & ? & ? & [= <-] & ?); done.
Qed.

End Preservation.

(** Unpack the attempt in flight; its phase is the one the operation tested. *)
Ltac current_attempt_of :=
  match goal with
  | Hok : incident_ok ?s ?i, Ha : inc_current_attempt ?i = Some ?a |- _ =>
      destruct (incident_ok_current s i a Hok Ha)
        as ((Ht1 & Ht2 & Ht3 & Hb) & Hf & Hr & Hss & Hsr & Hnb);
      pose proof Hok as (_ & Hac & Hsc & Hsa & _);
      match goal with
      | Hp : ¬ inc_phase i ≠ _ |- _ => apply dec_stable in Hp; rewrite Hp in *
      end; cbn in Hsa, Hss, Hsr, Hnb; eval_decides
  end.

(** Equations of the watermark steps, as arithmetic. *)
Ltac watermark_steps :=
  repeat match goal with
  | Hn : watermark_checked_next _ = Some _ |- _ =>
      apply watermark_checked_next_Some in Hn as [-> ?]
  end.

Section Transitions.
Context `{TimeLib}.
Implicit Types (s : RecoveryStateMachine) (i : IncidentState) (m : RecoveryMoment).

Lemma record_scan_started_Inv t m s : Inv s → wp (record_scan_started t m) (λ _, Inv) s.
Proof.
  intros HInv. unfold record_scan_started, begin_authoritative_scan.
  rm_run; incident_of; inv_advance; intros ? [= <-]; [|by eapply incident_ok_block].
  current_attempt_of. apply count_checked_next_Some in Heqo as [-> Hle].
  destruct (at_native_boundary a) eqn:Hnative; [done|].
  eapply incident_ok_attempt; [exact Hok|..]; try attempt_solve.
Qed.

Lemma record_scan_completed_Inv t r m s : Inv s → wp (record_scan_completed t r m) (λ _, Inv) s.
Proof.
  intros HInv. unfold record_scan_completed, complete_authoritative_scan.
  rm_run; incident_of; inv_advance; intros ? [= <-]. current_attempt_of.
  destruct (at_native_boundary a) eqn:Hnative; [done|].
  eapply incident_ok_attempt; [exact Hok|..]; try attempt_solve.
Qed.

Lemma record_native_boundary_Inv t h m s :
  Inv s → wp (record_native_boundary t h m) (λ _, Inv) s.
Proof.
  intros HInv. unfold record_native_boundary. rm_run.
  incident_of; inv_advance; intros ? [= <-]; current_attempt_of.
  eapply incident_ok_attempt; [exact Hok|..]; try attempt_solve.
  intros b [= <-]. cbn. lia.
Qed.

Lemma offer_close_Inv o m s : Inv s → wp (offer_close o m) (λ _, Inv) s.
Proof.
  intros HInv. unfold offer_close. rm_run; incident_of; inv_advance; try done;
    intros ? [= <-].
  - eapply incident_ok_retry; [by apply dec_stable|done].
  - by eapply incident_ok_block.
Qed.

Lemma reject_native_close_Inv t m s : Inv s → wp (reject_native_close t m) (λ _, Inv) s.
Proof.
  intros HInv. unfold reject_native_close. rm_run; incident_of; inv_advance; intros ? [= <-].
  eapply incident_ok_retry; [by apply dec_stable|done].
Qed.

(** Leaves that replace the incident [i] of [s] by a blocked one. *)
Ltac block_leaf :=
  lazymatch goal with
  | |- Inv (_ <| sm_incident := Some (block _ _) |> <| sm_last_transition_at := _ |>
              <| sm_revision := _ |>) =>
      incident_of; inv_advance; intros ? [= <-]; eapply incident_ok_block; [|eassumption]
  end.

Lemma record_dependency_failure_Inv t f m s :
  Inv s → wp (record_dependency_failure t f m) (λ _, Inv) s.
Proof.
  intros HInv. unfold record_dependency_failure. rm_run; try (block_leaf; done).
  incident_of; inv_advance; intros ? [= <-].
  pose proof Hok as (_ & _ & _ & _ & Hr & _). unfold u32_checked_add in Heqo. case_match; simplify_eq.
  bool_to_prop. eapply incident_ok_detached; [exact Hok|..]; cbn; try done; [lia|].
  unfold phase_ok. cbn. split_and!; try done. by exists f.
Qed.

Lemma retry_if_due_Inv m s : Inv s → wp (retry_if_due m) (λ _, Inv) s.
Proof.
  intros HInv. unfold retry_if_due. rm_run. incident_of; inv_advance; intros ? [= <-].
  pose proof Hok as (_ & _ & _ & _ & Hr & _).
  eapply incident_ok_detached; [exact Hok|..]; cbn; done.
Qed.

Lemma restore_authority_Inv m s : Inv s → wp (restore_authority m) (λ _, Inv) s.
Proof.
  intros HInv. unfold restore_authority. rm_run. incident_of; inv_advance; intros ? [= <-].
  eapply incident_ok_detached; [exact Hok|..]; cbn; done.
Qed.

Lemma restore_matching_authority_Inv f m s :
  Inv s → wp (restore_matching_authority f m) (λ _, Inv) s.
Proof.
  intros HInv. unfold restore_matching_authority. repeat wp_step; try done.
  all: by apply restore_authority_Inv.
Qed.

Lemma replace_worker_Inv m s : Inv s → wp (replace_worker m) (λ _, Inv) s.
Proof.
  intros HInv. unfold replace_worker. rm_run.
  destruct (sm_incident s) as [i|] eqn:Hi; [incident_of|]; inv_advance; [|by rewrite Hi].
  intros ? [= <-]. by eapply incident_ok_rearm.
Qed.

(** Leaves that open a new incident. *)
Ltac open_leaf :=
  inv_advance; intros ? [= <-]; apply incident_ok_new.

Lemma worker_exited_Inv w m s : Inv s → wp (worker_exited w m) (λ _, Inv) s.
Proof.
  intros HInv. unfold worker_exited, require_worker. rm_run; [|open_leaf].
  incident_of; inv_advance; intros ? [= <-]. by eapply incident_ok_rearm.
Qed.

(** A state whose watermarks stepped past [s], before the revision is drawn. *)
Lemma pre_exhausted_step s w l :
  Inv s → sm_activity_watermark s ≤ w < MAX_SCHEMA_INTEGER →
  sm_loss_watermark s ≤ l ≤ w →
  pre_exhausted (s <| sm_activity_watermark := w |> <| sm_loss_watermark := l |>).
Proof.
  intros (Hb & _ & Hok) Hw Hl. unfold counters_bounded in Hb. unfold pre_exhausted. cbn.
  split_and!; try lia. intros i Hi. eapply incident_ok_extends, (Hok i Hi).
  unfold extends. cbn. split_and!; (done || lia).
Qed.

(** The watermark runs out only when the revision has: the exit that stores
    [ActivityWatermarkExhausted] is never taken. *)
Lemma exhaust_watermark_Inv {A} mark m s :
  Inv s → sm_activity_watermark s = MAX_SCHEMA_INTEGER - 1 →
  wp (exhaust_watermark (A := A) mark m)
     (λ r s', Inv s' ∧ r = Err RecoveryRevisionExhausted) s.
Proof.
  intros HInv Hact. unfold exhaust_watermark. rm_step. rm_step; [by apply Inv_revision|..].
  - exfalso. destruct HInv as (Hb & _). unfold counters_bounded in Hb. lia.
  - split; [|done]. by apply Inv_exhausted, Inv_pre_exhausted.
Qed.

Lemma watermark_exhausted_at s w :
  Inv s → sm_loss_watermark s ≤ w ≤ sm_activity_watermark s →
  watermark_checked_next w = None → sm_activity_watermark s = MAX_SCHEMA_INTEGER - 1.
Proof.
  intros (Hb & _) Hw Hnone. unfold counters_bounded in Hb.
  apply watermark_checked_next_None in Hnone; lia.
Qed.

(** A watermark cannot run out while the revision still advances. *)
Lemma watermark_available s w :
  Inv s → sm_revision s + 1 < MAX_SCHEMA_INTEGER →
  sm_loss_watermark s ≤ w ≤ sm_activity_watermark s → watermark_checked_next w ≠ None.
Proof.
  intros HInv Hrev Hw Hnone. pose proof (watermark_exhausted_at _ _ HInv Hw Hnone).
  destruct HInv as (Hb & _). unfold counters_bounded in Hb. lia.
Qed.

Ltac exhausted_leaf :=
  eapply wp_conseq; [apply exhaust_watermark_Inv; [done|]|by intros ?? []];
  eapply watermark_exhausted_at; [done| |eassumption]; seq_bound.

(** An incident carried over a watermark step. *)
Ltac extends_leaf :=
  eapply incident_ok_extends; [|eassumption]; unfold extends; cbn; split_and!; (done || lia).

Lemma observe_activity_Inv m s : Inv s → wp (observe_activity m) (λ _, Inv) s.
Proof.
  intros HInv. unfold observe_activity. do 2 rm_step.
  destruct (watermark_checked_next _) eqn:Hn; [|exhausted_leaf]. watermark_steps.
  rm_run.
  - incident_of. inv_advance. rewrite Heqo. intros ? [= <-]. extends_leaf.
  - inv_advance. by rewrite Heqo.
  - apply Inv_exhausted, (pre_exhausted_step s (sm_activity_watermark s + 1) (sm_loss_watermark s) HInv);
      seq_bound.
Qed.

Lemma observe_suppressed_Inv m s : Inv s → wp (observe_suppressed m) (λ _, Inv) s.
Proof.
  intros HInv. unfold observe_suppressed. do 2 rm_step.
  destruct (watermark_checked_next _) eqn:Hn; [|exhausted_leaf].
  destruct (watermark_checked_next (sm_loss_watermark s)) eqn:Hl; [|exhausted_leaf].
  watermark_steps. rm_run; [|open_leaf|].
  - incident_of. inv_advance. intros ? [= <-]. apply incident_ok_rescan. extends_leaf.
  - apply Inv_exhausted, pre_exhausted_step; [done|seq_bound..].
Qed.

Lemma observe_loss_Inv cause m s : Inv s → wp (observe_loss cause m) (λ _, Inv) s.
Proof.
  intros HInv. unfold observe_loss. do 2 rm_step.
  destruct (watermark_checked_next _) eqn:Hn; [|exhausted_leaf].
  destruct (watermark_checked_next (sm_loss_watermark s)) eqn:Hl; [|exhausted_leaf].
  watermark_steps. rm_run; [| |open_leaf|].
  - incident_of. inv_advance. intros ? [= <-]. apply incident_ok_rescan.
    unfold record_cause in *. destruct (counters_increment _ _) eqn:Hinc; simplify_eq/=.
    apply incident_ok_counts; [|extends_leaf]. eapply counters_increment_ok, Hinc. apply Hok.
  - incident_of. inv_advance. intros ? [= <-]. by eapply incident_ok_block.
  - apply Inv_exhausted, pre_exhausted_step; [done|seq_bound..].
Qed.

Lemma startup_Inv src m p : Inv (startup_reconciliation src m p).
Proof.
  unfold Inv, counters_bounded, exhausted_blocked, MAX_SCHEMA_INTEGER. cbn.
  unfold IdSequence_initial. split; [lia|]. split; [lia|]. intros ? [= <-]. apply incident_ok_new.
Qed.

#[local] Hint Resolve replace_worker_Inv worker_exited_Inv start_attempt_Inv
  record_scan_started_Inv record_scan_completed_Inv record_native_boundary_Inv
  offer_close_Inv reject_native_close_Inv record_dependency_failure_Inv
  retry_if_due_Inv restore_authority_Inv restore_matching_authority_Inv
  observe_activity_Inv observe_suppressed_Inv observe_loss_Inv : bowline.

Lemma exec_Inv o s : Inv s → wp (exec o) (λ _, Inv) s.
Proof.
  intros HInv. destruct o; cbn [exec]; apply wp_bind;
    (eapply wp_conseq; [eauto with bowline|by intros [?|?] ?]).
Qed.

Lemma run_Inv ops s : Inv s → Inv (run s ops).
Proof.
  revert s. induction ops as [|o ops IH]; intros s HInv; [done|].
  apply IH, wp_state, exec_Inv, HInv.
Qed.

(** ** The invariant implies the oracle *)

Lemma option_boundary_eqb_refl o : option_boundary_eqb o o = true.
Proof. destruct o; [apply boundary_eqb_refl|done]. Qed.

Lemma is_some_false {A} (o : option A) : is_some o = false → o = None.
Proof. by destruct o. Qed.

Lemma phase_ok_oracle s i : incident_ok s i → phase_invariant i = true.
Proof.
  intros Hok. pose proof Hok as (_ & _ & _ & _ & _ & Hatt & Hph). revert Hph.
  unfold phase_ok, phase_invariant, no_attempt_evidence, no_failure_wait.
  destruct (inc_phase i) eqn:Hp; eval_decides.
  1: by intros (-> & -> & -> & ->).
  1-4: intros (-> & -> & a & Ha & Hs & Hr & Hb);
    destruct (Hatt a Ha) as (_ & _ & _ & Hn & _); rewrite Ha, <-?Hn; cbn;
    destruct (at_native_boundary a), (at_scan_revision a); cbn in *; by rewrite ?Hs.
  1-2: intros (-> & -> & -> & Hr & f & -> & Hf); cbn; rewrite ?Hr, ?Hf; done.
Qed.

Lemma attempt_ok_oracle s i : attempt_ok s i → incident_ok s i → attempt_identity_holds i s = true.
Proof.
  intros Hatt Hok. unfold attempt_identity_holds.
  destruct (inc_current_attempt i) as [a|] eqn:Ha; [|done]. cbn.
  destruct (Hatt a Ha) as (-> & Hw & _ & <- & Hb).
  destruct (incident_ok_current s i a Hok Ha) as (_ & _ & _ & Hss & Hsr & _).
  rewrite Z.eqb_refl, bool_decide_eq_true_2, option_boundary_eqb_refl by done. cbn.
  apply andb_true_iff. split.
  - destruct (at_native_boundary a) as [b|]; [|done]. apply Z.leb_le. by apply Hb.
  - destruct (at_scan_revision a); [|done]. rewrite Hss.
    symmetry in Hsr. apply bool_decide_eq_true_1 in Hsr. cbn.
    apply bool_decide_eq_true_2. destruct Hsr; congruence.
Qed.

Lemma Inv_oracle s : Inv s → invariant_holds s = true.
Proof.
  intros (_ & _ & Hok). unfold invariant_holds, lifecycle.
  destruct (sm_incident s) as [i|]; [|done]. specialize (Hok i eq_refl).
  pose proof Hok as ((_ & _ & Hpos) & _ & _ & _ & _ & Hatt & _).
  rewrite bool_decide_eq_true_2 by done.
  rewrite (attempt_ok_oracle _ _ Hatt Hok), (phase_ok_oracle _ _ Hok), !andb_true_r.
  by apply Z.ltb_lt.
Qed.

End Transitions.

(** Close a branch that took a watermark for exhausted. *)
Ltac watermark_absurd :=
  match goal with
  | HInv : Inv ?s, Hrev : sm_revision ?s + 1 < _, Hn : watermark_checked_next ?w = None |- _ =>
      exfalso; apply (watermark_available s w HInv Hrev); [seq_bound|exact Hn]
  end.
