(* ===== verification/RecoveryTraces.v ===== *)
(** * Watcher recovery: what a run of the reducer guarantees

    Theorems about arbitrary sequences of reducer operations starting from
    [startup_reconciliation]: what evidence a closure rests on, which stale
    callers are fenced, which limits are unreachable, which blocks are final,
    and that recovery closes when its dependencies answer. *)

From S2P Require Import Prelude.
From S2P Require Import WatcherCoverage.
From S2P Require Import RecoveryTypes.
From S2P Require Import RecoveryReducer.
From S2P Require Import RecoveryInvariants.
Open Scope Z_scope.

Section Defs.
Context `{TimeLib}.

(** ** Traces *)

Definition event : Type := recovery_op * Result outcome RecoveryTransitionError.

(** The operations of a run with the results they returned. *)
Fixpoint trace (s : RecoveryStateMachine) (ops : list recovery_op) : list event :=
  match ops with
  | [] => []
  | o :: ops => (o, result_of (exec o) s) :: trace (state_of (exec o) s) ops
  end.

(** The operations that report lost coverage. *)
Definition is_loss (o : recovery_op) : bool :=
  match o with OpLoss _ _ | OpSuppressed _ => true | _ => false end.

Definition no_loss (tr : list event) : Prop := Forall (λ e, is_loss (fst e) = false) tr.

(** [tr] ends with: the scan of [t] started, then no loss. *)
Definition scan_open (t : AttemptToken) (tr : list event) : Prop :=
  ∃ pre m post, tr = pre ++ (OpScanStarted t m, Ok OutUnit) :: post ∧ no_loss post.

(** … then the scan completed at [r], then no loss. *)
Definition scan_done (t : AttemptToken) (r : RecoveryScanRevision) (tr : list event) : Prop :=
  ∃ pre m post, tr = pre ++ (OpScanCompleted t r m, Ok OutUnit) :: post ∧ no_loss post ∧
    scan_open t pre.

(** … then the native boundary [h] was taken, then no loss. *)
Definition sealed (t : AttemptToken) (r : RecoveryScanRevision) (h : WatcherCoverageHandoff)
    (tr : list event) : Prop :=
  ∃ pre m post, tr = pre ++ (OpNativeBoundary t h m, Ok OutUnit) :: post ∧ no_loss post ∧
    scan_done t r pre.

(** What the trace says about an attempt whose evidence still counts. *)
Definition attempt_evidence (tr : list event) (i : IncidentState) (a : AttemptState) : Prop :=
  match inc_phase i with
  | Scanning => scan_open (at_token a) tr
  | AwaitingSeal => ∀ r, at_scan_revision a = Some r → scan_done (at_token a) r tr
  | Closing => ∀ r b, at_scan_revision a = Some r → at_native_boundary a = Some b →
                 sealed (at_token a) r (ab_handoff b) tr
  | _ => True
  end.

Definition evidence (tr : list event) (s : RecoveryStateMachine) : Prop :=
  ∀ i a, sm_incident s = Some i → inc_current_attempt i = Some a →
    inc_rescan_required i = false → attempt_evidence tr i a.

(** The attempt ids handed out along a trace, in order. *)
Definition issued_attempt (e : event) : option AttemptId :=
  match e with (_, Ok (OutToken t)) => Some (tok_attempt_id t) | _ => None end.

(** The attempt ids handed out along a trace, in order. *)
Definition issued_attempts (tr : list event) : list AttemptId := omap issued_attempt tr.

(** A block that no authority restoration lifts. *)
Definition fatally_blocked (id : IncidentId) (s : RecoveryStateMachine) : Prop :=
  ∃ i f, sm_incident s = Some i ∧ inc_id i = id ∧ inc_phase i = Blocked ∧
    inc_failure i = Some f ∧ df_class f = FatalContract.

(** The errors a run from startup never reports: every allocation and every
    watermark step is paid for by a revision, and every scan by an attempt. *)
Definition unreachable_error (e : RecoveryTransitionError) : bool :=
  match e with
  | IdentifierExhausted _ | ActivityWatermarkExhausted => true
  | RecoveryCountExhausted field => bool_decide (field = "scan"%string)
  | _ => false
  end.

(** What every step does to the revision, the attempt ids and the fixed fields. *)
Definition step_facts (s : RecoveryStateMachine) (o : recovery_op) (r : Result outcome RecoveryTransitionError) (s' : RecoveryStateMachine)
    : Prop :=
  sm_revision s ≤ sm_revision s' ∧
  sm_next_attempt_id s ≤ sm_next_attempt_id s' ∧
  sm_backoff_policy s' = sm_backoff_policy s ∧
  sm_source_identity s' = sm_source_identity s ∧
  match r with
  | Ok (OutToken t) =>
      sm_revision s' = sm_revision s + 1 ∧ tok_attempt_id t = sm_next_attempt_id s ∧
      sm_next_attempt_id s' = sm_next_attempt_id s + 1
  | Ok _ => sm_revision s' = sm_revision s + 1
  | Err e => unreachable_error e = false
  end.

End Defs.

(** ** Run lemmas *)

Section Lemmas.
Context `{TimeLib}.
Implicit Types (s : RecoveryStateMachine) (i : IncidentState) (m : RecoveryMoment).

Lemma run_app s ops1 ops2 : run s (ops1 ++ ops2) = run (run s ops1) ops2.
Proof. apply fold_left_app. Qed.

Lemma trace_app s ops1 ops2 : trace s (ops1 ++ ops2) = trace s ops1 ++ trace (run s ops1) ops2.
Proof. revert s. induction ops1 as [|o ops1 IH]; intros s; [done|]. cbn. by rewrite IH. Qed.

(** Induction over a run from the right, with the invariant at hand. *)
Lemma run_ind (P : list event → RecoveryStateMachine → Prop) s0 ops :
  Inv s0 → P [] s0 →
  (∀ tr s o, Inv s → P tr s →
     wp (exec o) (λ r s', P (tr ++ [(o, r)]) s') s) →
  P (trace s0 ops) (run s0 ops).
Proof.
  intros H0 Hinit Hstep. induction ops as [|o ops IH] using rev_ind; [done|].
  rewrite run_app, trace_app. cbn.
  specialize (Hstep _ _ o (run_Inv ops s0 H0) IH).
  unfold wp in Hstep. unfold state_of, result_of. by destruct (exec o (run s0 ops)).
Qed.

Lemma no_loss_snoc tr (e : event) : no_loss tr → is_loss (fst e) = false → no_loss (tr ++ [e]).
Proof. intros. unfold no_loss. apply Forall_app. by split; [|constructor]. Qed.

Lemma scan_open_snoc t tr (e : event) :
  is_loss (fst e) = false → scan_open t tr → scan_open t (tr ++ [e]).
Proof.
  intros He (pre & m & post & -> & Hpost). exists pre, m, (post ++ [e]).
  split; [by rewrite <-app_assoc|by apply no_loss_snoc].
Qed.

Lemma scan_done_snoc t r tr (e : event) :
  is_loss (fst e) = false → scan_done t r tr → scan_done t r (tr ++ [e]).
Proof.
  intros He (pre & m & post & -> & Hpost & ?). exists pre, m, (post ++ [e]).
  split_and!; [by rewrite <-app_assoc|by apply no_loss_snoc|done].
Qed.

Lemma sealed_snoc t r h tr (e : event) :
  is_loss (fst e) = false → sealed t r h tr → sealed t r h (tr ++ [e]).
Proof.
  intros He (pre & m & post & -> & Hpost & ?). exists pre, m, (post ++ [e]).
  split_and!; [by rewrite <-app_assoc|by apply no_loss_snoc|done].
Qed.

Lemma attempt_evidence_snoc tr i a (e : event) :
  is_loss (fst e) = false → attempt_evidence tr i a → attempt_evidence (tr ++ [e]) i a.
Proof.
  unfold attempt_evidence. intros He. destruct (inc_phase i); try done.
  - by apply scan_open_snoc.
  - intros Hd r Hr. by apply scan_done_snoc, Hd.
  - intros Hd r b Hr Hb. apply sealed_snoc; [done|]. by apply Hd.
Qed.

(** A state whose incident (if any) is unchanged, or carries no live attempt. *)
Lemma evidence_keep tr s s' (e : event) :
  is_loss (fst e) = false → sm_incident s' = sm_incident s →
  evidence tr s → evidence (tr ++ [e]) s'.
Proof.
  intros He Hs Hev i a Hi Ha Hr. rewrite Hs in Hi. by apply attempt_evidence_snoc, Hev.
Qed.

Lemma evidence_detached tr s :
  (∀ i, sm_incident s = Some i → inc_current_attempt i = None ∨ inc_rescan_required i = true) →
  evidence tr s.
Proof. intros Hd i a Hi Ha Hr. destruct (Hd i Hi); congruence. Qed.
End Lemmas.

(** ** Evidence along a run *)

Section Evidence.
Context `{TimeLib}.
Implicit Types (s : RecoveryStateMachine) (i : IncidentState) (m : RecoveryMoment).

Lemma evidence_exhausted tr m s : evidence tr (exhausted m s).
Proof.
  apply evidence_detached. unfold exhausted, terminal_block, commit. unfold_M.
  destruct (sm_incident s); cbn; intros ? [= <-]; by left.
Qed.

Lemma evidence_rearmed tr s s' i :
  incident_ok s i → sm_incident s' = Some (rearm_after_worker_change i) → evidence tr s'.
Proof.
  intros Hok Hi'. apply evidence_detached. intros ? Hi. rewrite Hi' in Hi. injection Hi as <-.
  pose proof (incident_ok_rearm s s i Hok) as (_ & _ & _ & _ & _ & _ & Hph).
  unfold phase_ok in Hph. left. revert Hph. unfold rearm_after_worker_change, is_blocked.
  case_bool_decide as Hb; cbn; [rewrite Hb|]; by intros (? & _).
Qed.

Lemma incident_ok_blocked_idle s i :
  incident_ok s i → is_blocked i = true → inc_current_attempt i = None.
Proof.
  intros (_ & _ & _ & _ & _ & _ & Hph) Hb. unfold is_blocked in Hb.
  apply bool_decide_eq_true_1 in Hb. unfold phase_ok in Hph. rewrite Hb in Hph. by destruct Hph.
Qed.

(** Leaves where the incident is unchanged, gone, or holds no attempt. *)
Ltac evidence_leaf :=
  first
    [ apply evidence_exhausted
    | eapply evidence_keep; [done| |eassumption]; done
    | apply evidence_detached; cbn; intros ? [= <-]; (by left) || (by right)
    | apply evidence_detached; cbn; done
    | incident_of; by eapply evidence_rearmed ].

(** The three transitions that add evidence. *)

Lemma scan_started_evidence t m tr s :
  Inv s → evidence tr s →
  wp (record_scan_started t m)
     (λ r s', evidence (tr ++ [(OpScanStarted t m, result_map (λ _, OutUnit) r)]) s') s.
Proof.
  intros HInv Hev. unfold record_scan_started, begin_authoritative_scan.
  rm_run; try evidence_leaf. intros ?? [= <-] [= <-] _. cbn.
  exists tr, m, []. by split; [|constructor].
Qed.

Lemma scan_completed_evidence t r m tr s :
  Inv s → evidence tr s →
  wp (record_scan_completed t r m)
     (λ x s', evidence (tr ++ [(OpScanCompleted t r m, result_map (λ _, OutUnit) x)]) s') s.
Proof.
  intros HInv Hev. unfold record_scan_completed, complete_authoritative_scan.
  rm_run; try evidence_leaf. intros ?? [= <-] [= <-] Hres. cbn in *. intros ? [= <-].
  exists tr, m, []. split_and!; [done|constructor|].
  specialize (Hev _ _ H1 H4 Hres). unfold attempt_evidence in Hev.
  apply dec_stable in H3. by rewrite H3 in Hev.
Qed.

Lemma native_boundary_evidence t h m tr s :
  Inv s → evidence tr s →
  wp (record_native_boundary t h m)
     (λ x s', evidence (tr ++ [(OpNativeBoundary t h m, result_map (λ _, OutUnit) x)]) s') s.
Proof.
  intros HInv Hev. unfold record_native_boundary.
  rm_run; try evidence_leaf. intros ?? [= <-] [= <-] Hres. cbn in *. intros r ? Hr [= <-].
  cbn. exists tr, m, []. split_and!; [done|constructor|].
  specialize (Hev _ _ H1 H4 Hres). unfold attempt_evidence in Hev.
  apply dec_stable in H3. rewrite H3 in Hev. by apply Hev.
Qed.

Lemma exec_evidence o tr s :
  Inv s → evidence tr s → wp (exec o) (λ r s', evidence (tr ++ [(o, r)]) s') s.
Proof.
  intros HInv Hev. destruct o; cbn [exec];
    unfold replace_worker, worker_exited, require_worker, start_attempt,
     offer_close, reject_native_close, record_dependency_failure, retry_if_due,
     restore_matching_authority, restore_authority, observe_activity,
     observe_suppressed, observe_loss, exhaust_watermark.
  all: rm_run; try (evidence_leaf || watermark_absurd).
  - destruct (sm_incident s) eqn:Hi; [|evidence_leaf]. incident_of. by eapply evidence_rearmed.
  - intros ?? [= <-] [= <-] _. done.
  - eapply wp_conseq; [by apply scan_started_evidence|]. by intros [[]|?] ?.
  - eapply wp_conseq; [by apply scan_completed_evidence|]. by intros [[]|?] ?.
  - eapply wp_conseq; [by apply native_boundary_evidence|]. by intros [[]|?] ?.
Qed.

Lemma run_evidence src m p ops :
  let s0 := startup_reconciliation src m p in evidence (trace s0 ops) (run s0 ops).
Proof.
  intros s0. apply (run_ind evidence); [apply startup_Inv| |].
  - intros ?? [= <-]. done.
  - intros. by apply exec_evidence.
Qed.

(** ** Step facts: revisions, ids and errors *)

Lemma step_facts_exhausted m s s' o e :
  0 ≤ sm_revision s ≤ MAX_SCHEMA_INTEGER → unreachable_error e = false →
  sm_next_attempt_id s ≤ sm_next_attempt_id s' →
  sm_backoff_policy s' = sm_backoff_policy s → sm_source_identity s' = sm_source_identity s →
  step_facts s o (Err e) (exhausted m s').
Proof.
  intros. unfold step_facts, exhausted, terminal_block, commit. unfold_M.
  destruct (sm_incident s'); cbn; unfold terminal; split_and!; (done || lia).
Qed.

Lemma exec_step_facts o s : Inv s → wp (exec o) (λ r s', step_facts s o r s') s.
Proof.
  intros HInv. destruct o; cbn [exec];
    unfold replace_worker, worker_exited, require_worker, start_attempt,
     record_scan_started, begin_authoritative_scan, record_scan_completed,
     complete_authoritative_scan, record_native_boundary,
     offer_close, reject_native_close, record_dependency_failure, retry_if_due,
     restore_matching_authority, restore_authority, observe_activity,
     observe_suppressed, observe_loss, exhaust_watermark.
  all: rm_run; try watermark_absurd.
  all: try (apply step_facts_exhausted; [seq_bound|try done..]; cbn; lia).
  all: try (unfold step_facts; cbn; split_and!; (done || lia)).
  - destruct (sm_incident s); unfold step_facts; cbn; split_and!; (done || lia).
  - exfalso. incident_of. current_attempt_of.
    apply count_checked_next_None in Heqo; lia.
  - match goal with He : receipt_try_from_input _ = Err _ |- _ =>
      apply receipt_error in He as -> end.
    unfold step_facts; cbn; split_and!; (done || lia).
Qed.

Lemma run_revision_le ops s : Inv s → sm_revision s ≤ sm_revision (run s ops).
Proof.
  revert s. induction ops as [|o ops IH]; intros s HInv; cbn; [done|].
  pose proof (wp_state _ _ _ (exec_Inv o s HInv)) as HInv'. etrans; [|by apply IH].
  eapply (wp_state (exec o) (λ s', sm_revision s ≤ sm_revision s')).
  eapply wp_conseq; [by apply exec_step_facts|]. by intros r s' [].
Qed.
End Evidence.
