(* ===== verification/RecoverySteps.v ===== *)
(** * Watcher recovery: single steps

    What one reducer operation does to the attempt in flight, to a fatal block
    and to a closing incident: the lemmas behind the theorems of
    [RecoveryTheorems]. *)

From S2P Require Import Prelude.
From S2P Require Import WatcherCoverage.
From S2P Require Import RecoveryTypes.
From S2P Require Import RecoveryReducer.
From S2P Require Import RecoveryInvariants.
From S2P Require Import RecoveryTraces.

Section Defs.
Context `{TimeLib}.

(** The attempt token an operation presents. *)
Definition op_token (o : recovery_op) : option AttemptToken :=
  match o with
  | OpScanStarted t _ | OpScanCompleted t _ _ | OpNativeBoundary t _ _
  | OpRejectNativeClose t _ | OpDependencyFailure t _ _ => Some t
  | OpOfferClose offer _ => Some (co_attempt offer)
  | _ => None
  end.

(** What a step does to the attempt in flight: keep it, drop it, or start one
    with a fresh id. *)
Definition token_step (s s' : RecoveryStateMachine) : Prop :=
  current_attempt_token s' = None ∨ current_attempt_token s' = current_attempt_token s ∨
  ∃ t, current_attempt_token s' = Some t ∧ sm_next_attempt_id s ≤ tok_attempt_id t.

(** The attempt that [offer_close] closes, and the receipt it writes. *)
Definition closes (s : RecoveryStateMachine) (offer : CloseOffer) (m : RecoveryMoment)
    (rc : RecoveryClosureReceipt) (s' : RecoveryStateMachine) : Prop :=
  ∃ i a b,
    sm_incident s = Some i ∧ inc_current_attempt i = Some a ∧ inc_phase i = Closing ∧
    inc_rescan_required i = false ∧ at_token a = co_attempt offer ∧
    at_native_boundary a = Some b ∧ at_scan_revision a = Some (co_scan_revision offer) ∧
    boundary_eqb b (co_native_boundary offer) = true ∧
    sm_loss_watermark s = ab_loss_watermark b ∧
    inc_started_tick i ≤ monotonic m ∧
    rc = {| rc_incident_id := inc_id i;
            rc_attempt_id := tok_attempt_id (co_attempt offer);
            rc_attempt_count := inc_attempt_count i;
            rc_scan_count := inc_scan_count i;
            rc_activity_watermark := ab_activity_watermark b;
            rc_authoritative_scan_revision := co_scan_revision offer;
            rc_native_boundary := b;
            rc_started_at := inc_started_at i;
            rc_completed_at := observed_at m;
            rc_duration_ms := monotonic m - inc_started_tick i;
            rc_closing_recovery_revision := sm_revision s + 1 |} ∧
    rc_duration_ms rc ≤ MAX_DURATION_MS ∧
    s' = s <| sm_incident := None |> <| sm_last_completed := Some rc |>
           <| sm_last_transition_at := observed_at m |> <| sm_revision := sm_revision s + 1 |>.

(** The receipt [receipt_try_from_input] builds once the duration is accepted. *)
Definition receipt_of (input : RecoveryClosureReceiptInput) (ms : Z) : RecoveryClosureReceipt :=
  mkReceipt (ri_incident_id input) (ri_attempt_id input) (ri_attempt_count input)
    (ri_scan_count input) (ri_activity_watermark input) (ri_authoritative_scan_revision input)
    (ri_native_boundary input) (ri_started_at input) (ri_completed_at input) ms
    (ri_closing_recovery_revision input).

(** A nominal state has a closure behind it. *)
Definition closure_known (s : RecoveryStateMachine) : Prop :=
  sm_incident s = None → is_some (sm_last_completed s) = true.

(** A boundary that follows the last one recorded. *)
Definition boundary_follows (h : WatcherCoverageHandoff) (s : RecoveryStateMachine) : Prop :=
  (∀ last, sm_last_native_boundary_id s = Some last → last < handoff_boundary_id h) ∧
  (∀ last, sm_last_native_epoch s = Some last → last ≤ handoff_live_stream_epoch h).

(** What a scheduled retry records. *)
Definition retry_recorded (s : RecoveryStateMachine) (m : RecoveryMoment) (id : IncidentId)
    (retry_at : RecoveryInstant) (delay : Duration) (s' : RecoveryStateMachine) : Prop :=
  ∃ i i', sm_incident s = Some i ∧ inc_id i = id ∧
    delay = delay_for (sm_backoff_policy s) (inc_retry_failures i + 1) ∧
    retry_at = monotonic m + duration_as_millis delay ∧
    sm_incident s' = Some i' ∧ inc_id i' = id ∧ inc_phase i' = BackingOff ∧
    inc_retry_at i' = Some retry_at ∧ inc_rescan_required i' = true.

End Defs.

(** Expose the bodies of all transitions. *)
Ltac unfold_ops :=
  cbn [exec]; unfold replace_worker, worker_exited, require_worker, start_attempt,
     record_scan_started, begin_authoritative_scan, record_scan_completed,
     complete_authoritative_scan, record_native_boundary,
     offer_close, reject_native_close, record_dependency_failure, retry_if_due,
     restore_matching_authority, restore_authority, observe_activity,
     observe_suppressed, observe_loss, exhaust_watermark.
(** ** Tokens and closures, one step at a time *)

Section Steps.
Context `{TimeLib}.
Implicit Types (s : RecoveryStateMachine) (i : IncidentState) (m : RecoveryMoment).

(** An operation whose token is not the attempt in flight fails. *)
Lemma stale_token_step o t s :
  Inv s → op_token o = Some t → current_attempt_token s ≠ Some t →
  wp (exec o) (λ r _, is_ok r = false) s.
Proof.
  intros HInv Ht Hstale. unfold current_attempt_token in Hstale.
  destruct o; cbn in Ht; try done; injection Ht as <-; unfold_ops; rm_run; exfalso;
    match goal with
    | Hi : sm_incident s = Some _, Ha : inc_current_attempt _ = Some _ |- _ =>
        apply Hstale; rewrite Hi; cbn; rewrite Ha; cbn; congruence
    end.
Qed.

Lemma current_token_exhausted m s : current_attempt_token (exhausted m s) = None.
Proof.
  unfold exhausted, terminal_block, commit, current_attempt_token. unfold_M.
  by destruct (sm_incident s).
Qed.

Lemma rearm_token i s s' :
  incident_ok s i → sm_incident s' = Some (rearm_after_worker_change i) →
  current_attempt_token s' = None.
Proof.
  intros Hok Hi. unfold current_attempt_token. rewrite Hi.
  unfold rearm_after_worker_change. destruct (is_blocked i) eqn:Hb; [|done].
  by rewrite (incident_ok_blocked_idle _ _ Hok Hb).
Qed.

Ltac token_leaf :=
  first
    [ left; apply current_token_exhausted
    | right; left; reflexivity
    | left; reflexivity
    | right; left; unfold current_attempt_token; cbn;
      repeat match goal with H : sm_incident _ = _ |- _ => rewrite H; clear H end;
      cbn; repeat match goal with H : inc_current_attempt _ = _ |- _ => rewrite H; clear H end;
      reflexivity
    | left; incident_of; by eapply rearm_token
    | right; right; eexists; split; [reflexivity|cbn; lia] ].

Lemma exec_token_step o s : Inv s → wp (exec o) (λ _ s', token_step s s') s.
Proof.
  intros HInv. destruct o; unfold_ops; rm_run; unfold token_step; try (token_leaf || watermark_absurd).
  - destruct (sm_incident s) as [i|] eqn:Hi; [incident_of; left; by eapply rearm_token|].
    right; left. unfold current_attempt_token. cbn. by rewrite Hi.
  - right; left. unfold current_attempt_token, record_cause in *. cbn.
    destruct (sm_incident s), (counters_increment _ _); by simplify_eq/=.
Qed.

Lemma dead_token_run ops t s :
  Inv s → tok_attempt_id t < sm_next_attempt_id s → current_attempt_token s ≠ Some t →
  current_attempt_token (run s ops) ≠ Some t.
Proof.
  revert s. induction ops as [|o ops IH]; intros s HInv Hid Hne; [done|]. cbn.
  pose proof (wp_and _ _ _ _ (exec_Inv o s HInv)
    (wp_and _ _ _ _ (exec_step_facts o s HInv) (exec_token_step o s HInv))) as Hstep.
  unfold state_of. unfold wp in Hstep. destruct (exec o s) as [r s'].
  destruct Hstep as (HInv' & (_ & Hle & _) & Htok). cbn. apply IH; [done|lia|].
  destruct Htok as [->|[->|(t' & -> & Hge)]]; [done|done|]. intros [= ->]. lia.
Qed.

(** ** Fatal blocks *)

Lemma fatally_blocked_exhausted id m s :
  fatally_blocked id s → fatally_blocked id (exhausted m s).
Proof.
  intros (i & f & Hi & <- & _). unfold exhausted, terminal_block, commit. unfold_M.
  unfold fatally_blocked. rewrite Hi. cbn. eexists _, _. split_and!; done.
Qed.

(** A step from a fatal block: the incident stays, as it is or blocked again. *)
Ltac fatal_leaf :=
  first
    [ eapply fatally_blocked_exhausted; eexists _, _; split_and!; cbn; (eassumption || reflexivity)
    | eexists _, _; split_and!; cbn; (eassumption || reflexivity)
    | exfalso; unfold is_blocked in *; simplify_eq;
      match goal with
      | Hp : inc_phase _ = Blocked, Hb : bool_decide (inc_phase _ = Blocked) = false |- _ =>
          rewrite Hp in Hb; done
      | Hc : df_class _ = FatalContract, Hb : is_authority_restorable (df_class _) = true |- _ =>
          rewrite Hc in Hb; done
      | _ => congruence
      end ].

Lemma rearm_blocked i : inc_phase i = Blocked → rearm_after_worker_change i = i.
Proof.
  intros Hp. unfold rearm_after_worker_change, is_blocked. by rewrite bool_decide_eq_true_2.
Qed.

Lemma exec_fatally_blocked o id s :
  Inv s → fatally_blocked id s → wp (exec o) (λ _, fatally_blocked id) s.
Proof.
  intros HInv (i & f & Hi & <- & Hp & Hf & Hc).
  destruct o; unfold_ops; rm_run; try (fatal_leaf || watermark_absurd).
  - rewrite Hi, rearm_blocked by done. eexists i, f. by split_and!.
  - rewrite rearm_blocked by done. eexists i, f. by split_and!.
  - unfold record_cause in *. destruct (counters_increment _ _); simplify_eq/=.
    eexists _, f. by split_and!.
Qed.

(** ** Closing *)

Lemma receipt_ok input rc :
  receipt_try_from_input input = Ok rc ↔
  rc = receipt_of input (duration_as_millis (ri_duration input)) ∧
  rc_duration_ms rc ≤ MAX_DURATION_MS.
Proof.
  unfold receipt_try_from_input, u64_try_from.
  destruct (Z.leb_spec (duration_as_millis (ri_duration input)) u64_max);
    [destruct (Z.ltb_spec MAX_DURATION_MS (duration_as_millis (ri_duration input)))|];
    split; try done; try (by intros [= <-]); intros [-> Hle]; cbn in Hle; try done;
    unfold MAX_DURATION_MS, u64_max in *; lia.
Qed.

Lemma millis_of_millis ms : duration_as_millis (duration_from_millis ms) = ms.
Proof. unfold duration_as_millis, duration_from_millis. by rewrite Z.div_mul. Qed.

Lemma receipt_of_ok input :
  duration_as_millis (ri_duration input) ≤ MAX_DURATION_MS →
  receipt_try_from_input input = Ok (receipt_of input (duration_as_millis (ri_duration input))).
Proof. intros. by apply receipt_ok. Qed.

Lemma millis_of_elapsed now earlier d :
  elapsed_since now earlier = Some d → earlier ≤ now ∧ duration_as_millis d = now - earlier.
Proof.
  unfold elapsed_since. destruct (u64_checked_sub now earlier) as [ms|] eqn:Hs; [|done].
  apply u64_checked_sub_Some in Hs as [-> Hle]. intros [= <-]. split; [done|].
  unfold duration_as_millis, duration_from_millis. by rewrite Z.div_mul.
Qed.

Lemma offer_close_closes offer m s rc s' :
  Inv s → offer_close offer m s = (Ok (Closed rc), s') → closes s offer m rc s'.
Proof.
  intros HInv Heq.
  cut (wp (offer_close offer m) (λ r s', ∀ rc, r = Ok (Closed rc) → closes s offer m rc s') s).
  { intros Hwp. by apply (wp_eq _ _ _ _ _ Hwp Heq). }
  clear Heq rc s'. unfold offer_close. rm_run.
  intros rc [= <-].
  apply millis_of_elapsed in H10 as [Hle Hms].
  apply receipt_ok in Heqr as [-> Hmax]. unfold receipt_of in *. cbn in *. rewrite Hms in *.
  exists i, a, a0. apply dec_stable in H5. split_and!; done.
Qed.

Lemma elapsed_since_le now earlier :
  earlier ≤ now → elapsed_since now earlier = Some (duration_from_millis (now - earlier)).
Proof.
  intros Hle. unfold elapsed_since. by rewrite (proj2 (u64_checked_sub_Some _ _ _) (conj eq_refl Hle)).
Qed.

Lemma next_revision_ok m s :
  sm_revision s + 1 < MAX_SCHEMA_INTEGER →
  next_revision_or_block m s = (Ok (sm_revision s + 1), s).
Proof.
  intros Hrev. unfold next_revision_or_block. unfold_M.
  by rewrite (proj2 (watermark_checked_next_Some _ _) (conj eq_refl Hrev)).
Qed.

Lemma active_incident_ok i s :
  sm_incident s = Some i → inc_phase i ≠ Blocked → active_incident s = (Ok i, s).
Proof.
  intros Hi Hp. unfold active_incident, is_blocked. unfold_M. rewrite Hi. cbn.
  by rewrite bool_decide_eq_false_2.
Qed.

Lemma matching_attempt_ok i a s :
  inc_current_attempt i = Some a → matching_attempt i (at_token a) s = (Ok a, s).
Proof.
  intros Ha. unfold matching_attempt. unfold_M. rewrite Ha. cbn.
  rewrite bool_decide_eq_false_2; [done|]. intros Hne. by apply Hne.
Qed.

Lemma closes_offer_close offer m s rc s' :
  sm_revision s + 1 < MAX_SCHEMA_INTEGER → closes s offer m rc s' →
  offer_close offer m s = (Ok (Closed rc), s').
Proof.
  intros Hrev (i & a & b & Hi & Ha & Hp & Hres & Ht & Hb & Hs & Heqb & Hl & Hle & -> & Hmax & ->).
  unfold offer_close, mbind, M_bind, m_bind. rewrite next_revision_ok by done.
  rewrite (active_incident_ok i) by (done || by rewrite Hp).
  rewrite <-Ht, matching_attempt_ok by done. unfold_M.
  rewrite Hp. eval_decides. rewrite Hb. cbn. rewrite Heqb. cbn. rewrite Hs. cbn.
  rewrite Z.eqb_refl. cbn. rewrite Hres, Hl, Z.eqb_refl. cbn. rewrite elapsed_since_le by done. cbn.
  rewrite receipt_of_ok by (cbn; by rewrite millis_of_millis). cbn.
  unfold receipt_of. cbn. by rewrite millis_of_millis.
Qed.

(** An admitted callback touches neither the incident nor the loss watermark. *)
Lemma observe_activity_frame m s adm s' :
  Inv s → observe_activity m s = (Ok adm, s') →
  sm_incident s' = sm_incident s ∧ sm_loss_watermark s' = sm_loss_watermark s ∧
  sm_revision s' = sm_revision s + 1.
Proof.
  intros HInv Heq.
  cut (wp (observe_activity m) (λ r s', is_ok r = true → sm_incident s' = sm_incident s ∧
    sm_loss_watermark s' = sm_loss_watermark s ∧ sm_revision s' = sm_revision s + 1) s).
  { intros Hwp. by apply (wp_eq _ _ _ _ _ Hwp Heq). }
  unfold_ops. rm_run; intros; by split_and!.
Qed.

(** An admitted loss leaves the incident open, with a rescan required. *)
Lemma loss_marks_incident o s i out s' :
  Inv s → sm_incident s = Some i → is_loss o = true → exec o s = (Ok out, s') →
  ∃ counts, sm_incident s' = Some (i <| inc_cause_counts := counts |>
                                     <| inc_rescan_required := true |>).
Proof.
  intros HInv Hi Ho Heq.
  cut (wp (exec o) (λ r s', is_ok r = true → ∃ counts, sm_incident s' =
    Some (i <| inc_cause_counts := counts |> <| inc_rescan_required := true |>)) s).
  { intros Hwp. by apply (wp_eq _ _ _ _ _ Hwp Heq). }
  destruct o; try done; unfold_ops; rm_run; intros _.
  - by exists (inc_cause_counts i).
  - unfold record_cause in *. destruct (counters_increment _ _) as [counts|]; simplify_eq/=.
    by exists counts.
Qed.

(** An offer that matches the attempt but comes after a loss. *)
Lemma offer_close_retries offer m s i a b :
  sm_revision s + 1 < MAX_SCHEMA_INTEGER → sm_incident s = Some i →
  inc_current_attempt i = Some a → inc_phase i = Closing → inc_rescan_required i = true →
  at_token a = co_attempt offer → at_native_boundary a = Some b →
  at_scan_revision a = Some (co_scan_revision offer) →
  boundary_eqb b (co_native_boundary offer) = true →
  offer_close offer m s =
    (Ok (RetryRequired (inc_id i)),
     s <| sm_incident := Some (retry_attempt i) |>
       <| sm_last_transition_at := observed_at m |> <| sm_revision := sm_revision s + 1 |>).
Proof.
  intros Hrev Hi Ha Hp Hres Ht Hb Hs Heqb.
  unfold offer_close, mbind, M_bind, m_bind. rewrite next_revision_ok by done.
  rewrite (active_incident_ok i) by (done || by rewrite Hp).
  rewrite <-Ht, matching_attempt_ok by done. unfold_M.
  rewrite Hp. eval_decides. rewrite Hb. cbn. rewrite Heqb. cbn. rewrite Hs. cbn.
  rewrite Z.eqb_refl. cbn. by rewrite Hres.
Qed.

(** ** Nominal states have a closure behind them *)

Lemma exhausted_open m s : sm_incident (exhausted m s) ≠ None.
Proof.
  unfold exhausted, terminal_block, commit. unfold_M. by destruct (sm_incident s).
Qed.

(** Leaves with an incident open, with the closure just stored, or unchanged. *)
Ltac closure_leaf :=
  unfold closure_known in *; cbn; first
    [ exact (λ Hn, False_ind _ (exhausted_open _ _ Hn))
    | intros Hn; discriminate Hn
    | intros _; reflexivity
    | assumption ].

Lemma exec_closure_kept o s :
  Inv s → closure_known s → wp (exec o) (λ _, closure_known) s.
Proof.
  intros HInv Hs. destruct o; unfold_ops; rm_run; try (closure_leaf || watermark_absurd).
  unfold closure_known in *. destruct (sm_incident s) eqn:Hi; cbn; [done|]. by rewrite Hi.
Qed.

End Steps.

(** ** The path of one attempt, forwards *)

Section Forward.
Context `{TimeLib}.
Implicit Types (s : RecoveryStateMachine) (i : IncidentState) (m : RecoveryMoment).

Lemma start_attempt_ok m s i w :
  Inv s → sm_revision s + 1 < MAX_SCHEMA_INTEGER → sm_active_worker s = Some w →
  sm_incident s = Some i → inc_phase i = Rearming → inc_attempt_count i < MAX_RECOVERY_COUNT →
  let t := mkToken (inc_id i) (sm_next_attempt_id s) w in
  start_attempt m s =
    (Ok t,
     s <| sm_next_attempt_id := sm_next_attempt_id s + 1 |>
       <| sm_incident := Some (i
            <| inc_attempt_count := inc_attempt_count i + 1 |>
            <| inc_phase := AwaitingCoverage |>
            <| inc_rescan_required := false |>
            <| inc_current_attempt := Some (AttemptState_new t (observed_at m)) |>
            <| inc_native_coverage := None |>
            <| inc_retry_at := None |>
            <| inc_failure := None |>) |>
       <| sm_last_transition_at := observed_at m |> <| sm_revision := sm_revision s + 1 |>).
Proof.
  intros HInv Hrev Hw Hi Hp Hcount t.
  destruct (proj2 (proj2 HInv) i Hi) as (_ & _ & _ & _ & _ & _ & Hph).
  unfold phase_ok in Hph. rewrite Hp in Hph. destruct Hph as (Hcur & _).
  unfold start_attempt, mbind, M_bind, m_bind. rewrite next_revision_ok by done. unfold_M.
  rewrite Hw. cbn. rewrite Hi. cbn. unfold is_blocked. rewrite Hp. eval_decides. rewrite Hcur. cbn.
  eval_decides. rewrite allocate_available by seq_bound. cbn. unfold id_new_or, prefixed_id_new.
  destruct HInv as (Hb & _). unfold counters_bounded in Hb.
  rewrite (proj2 (Z.eqb_neq (sm_next_attempt_id s) 0)) by lia. cbn.
  by rewrite count_checked_next_ok.
Qed.

Lemma scan_started_ok t m s i a :
  sm_revision s + 1 < MAX_SCHEMA_INTEGER → sm_incident s = Some i →
  inc_phase i = AwaitingCoverage → inc_current_attempt i = Some a → at_token a = t →
  at_scan_started a = false → at_scan_revision a = None →
  inc_scan_count i < MAX_RECOVERY_COUNT →
  record_scan_started t m s =
    (Ok tt,
     s <| sm_incident := Some (i
            <| inc_scan_count := inc_scan_count i + 1 |>
            <| inc_current_attempt := Some (a <| at_scan_started := true |>) |>
            <| inc_rescan_required := false |>
            <| inc_phase := Scanning |>) |>
       <| sm_last_transition_at := observed_at m |> <| sm_revision := sm_revision s + 1 |>).
Proof.
  intros Hrev Hi Hp Ha <- Hss Hsr Hcount.
  unfold record_scan_started, begin_authoritative_scan, mbind, M_bind, m_bind.
  rewrite next_revision_ok by done. rewrite (active_incident_ok i) by (done || by rewrite Hp).
  rewrite Hp. eval_decides. unfold bail_if, m_ret. rewrite matching_attempt_ok by done.
  rewrite Hss, Hsr. cbn.
  by rewrite count_checked_next_ok.
Qed.

Lemma scan_completed_ok t r m s i a :
  sm_revision s + 1 < MAX_SCHEMA_INTEGER → sm_incident s = Some i →
  inc_phase i = Scanning → inc_current_attempt i = Some a → at_token a = t →
  at_scan_started a = true → at_scan_revision a = None →
  record_scan_completed t r m s =
    (Ok tt,
     s <| sm_incident := Some (i
            <| inc_current_attempt := Some (a <| at_scan_revision := Some r |>) |>
            <| inc_phase := AwaitingSeal |>) |>
       <| sm_last_transition_at := observed_at m |> <| sm_revision := sm_revision s + 1 |>).
Proof.
  intros Hrev Hi Hp Ha <- Hss Hsr.
  unfold record_scan_completed, complete_authoritative_scan, mbind, M_bind, m_bind.
  rewrite next_revision_ok by done. rewrite (active_incident_ok i) by (done || by rewrite Hp).
  rewrite Hp. eval_decides. unfold bail_if, m_ret. rewrite matching_attempt_ok by done.
  by rewrite Hss, Hsr.
Qed.

Lemma native_boundary_ok t h m s i a :
  sm_revision s + 1 < MAX_SCHEMA_INTEGER → sm_incident s = Some i →
  inc_phase i = AwaitingSeal → inc_current_attempt i = Some a → at_token a = t →
  boundary_follows h s →
  let b := mkAttemptBoundary (sm_activity_watermark s) (sm_loss_watermark s) h in
  record_native_boundary t h m s =
    (Ok tt,
     s <| sm_last_native_boundary_id := Some (handoff_boundary_id h) |>
       <| sm_last_native_epoch := Some (handoff_live_stream_epoch h) |>
       <| sm_incident := Some (i
            <| inc_current_attempt := Some (a <| at_native_boundary := Some b |>) |>
            <| inc_native_coverage := Some b |>
            <| inc_phase := Closing |>) |>
       <| sm_last_transition_at := observed_at m |> <| sm_revision := sm_revision s + 1 |>).
Proof.
  intros Hrev Hi Hp Ha <- (Hid & Hep) b.
  unfold record_native_boundary, mbind, M_bind, m_bind.
  rewrite next_revision_ok by done. rewrite (active_incident_ok i) by (done || by rewrite Hp).
  rewrite Hp. eval_decides. unfold bail_if, m_ret. rewrite matching_attempt_ok by done. cbn.
  assert (is_some_and (λ last, handoff_boundary_id h <=? last) (sm_last_native_boundary_id s)
          = false) as ->.
  { destruct (sm_last_native_boundary_id s) as [l|]; [|done]. cbn.
    apply Z.leb_gt. by apply Hid. }
  assert (is_some_and (λ last, handoff_live_stream_epoch h <? last) (sm_last_native_epoch s)
          = false) as ->.
  { destruct (sm_last_native_epoch s) as [l|]; [|done]. cbn. apply Z.ltb_ge. by apply Hep. }
  cbn. rewrite (active_incident_ok i) by (done || by rewrite Hp).
  rewrite matching_attempt_ok by done. done.
Qed.

(** An operation dispatched by [exec] leaves the state of its method. *)
Lemma state_of_map {A} (c : RM A) (f : A → outcome) s a s' :
  c s = (Ok a, s') → state_of (r ← c; mret (f r)) s = s'.
Proof. intros Hc. unfold_M. by rewrite Hc. Qed.

Lemma run_backoff_policy ops s : Inv s → sm_backoff_policy (run s ops) = sm_backoff_policy s.
Proof.
  revert s. induction ops as [|o ops IH]; intros s HInv; [done|].
  pose proof (wp_state _ _ _ (exec_Inv o s HInv)) as HInv'.
  change (run s (o :: ops)) with (run (state_of (exec o) s) ops). rewrite IH by done.
  apply (wp_state (exec o) (λ s', sm_backoff_policy s' = sm_backoff_policy s)).
  eapply wp_conseq; [by apply exec_step_facts|]. by intros r s' (_ & _ & ? & _).
Qed.

Lemma dependency_failure_scheduled t f m s id retry_at delay s' :
  Inv s → record_dependency_failure t f m s = (Ok (RetryScheduled id retry_at delay), s') →
  retry_recorded s m id retry_at delay s'.
Proof.
  intros HInv Heq.
  cut (wp (record_dependency_failure t f m) (λ r s', ∀ id retry_at delay,
    r = Ok (RetryScheduled id retry_at delay) → retry_recorded s m id retry_at delay s') s).
  { intros Hwp. by apply (wp_eq _ _ _ _ _ Hwp Heq). }
  clear Heq id retry_at delay s'. unfold record_dependency_failure. rm_run.
  intros id retry_at delay [= <- <- <-]. unfold u32_checked_add in *. case_match; simplify_eq.
  unfold instant_checked_add in *.
  destruct (u64_try_from _) as [ms|] eqn:Hms; [|done]. unfold u64_try_from in Hms. case_match; simplify_eq.
  match goal with Hadd : u64_checked_add _ _ = Some _ |- _ =>
    apply u64_checked_add_Some in Hadd as [-> _] end.
  eexists _, _. by split_and!.
Qed.

End Forward.
