(* ===== verification/RecoveryTheorems.v ===== *)
(** * Watcher recovery: theorems

    The guarantees of the recovery reducer over whole runs. *)

From S2P Require Import Prelude.
From S2P Require Import WatcherCoverage.
From S2P Require Import RecoveryTypes.
From S2P Require Import RecoveryReducer.
From S2P Require Import RecoveryInvariants.
From S2P Require Import RecoveryTraces.
From S2P Require Import RecoverySteps.

Section Theorems.
Context `{TimeLib}.
Implicit Types (s : RecoveryStateMachine) (i : IncidentState) (m : RecoveryMoment).

(** C28: Every state the daemon can reach from startup reconciliation satisfies
    the reducer's own invariant oracle. *)
Theorem reachable_invariant_holds src m p ops :
  invariant_holds (run (startup_reconciliation src m p) ops) = true.
Proof. apply Inv_oracle, run_Inv, startup_Inv. Qed.

(** C12: A closed incident rests on evidence: if [offer_close] closes after any
    run from startup, the run contains, in this order, a successful scan start,
    scan completion and native boundary of the closing attempt, with no loss
    and no suppressed callback reported after the scan started; the receipt
    carries that scan's revision and that boundary, the duration is within the
    schema limit, and the machine is nominal at the revision of the receipt. *)
Theorem closure_evidence src m0 p ops offer m rc s' :
  let s0 := startup_reconciliation src m0 p in
  offer_close offer m (run s0 ops) = (Ok (Closed rc), s') →
  sealed (co_attempt offer) (rc_authoritative_scan_revision rc)
    (ab_handoff (rc_native_boundary rc)) (trace s0 ops) ∧
  rc_duration_ms rc ≤ MAX_DURATION_MS ∧ rc_closing_recovery_revision rc = sm_revision s' ∧
  last_completed_receipt s' = Some rc ∧ lifecycle s' = Nominal.
Proof.
  intros s0 Hclose. pose proof (run_Inv ops s0 (startup_Inv src m0 p)) as HInv.
  destruct (offer_close_closes _ _ _ _ _ HInv Hclose)
    as (i & a & b & Hi & Ha & Hp & Hres & Ht & Hb & Hs & _ & _ & _ & -> & Hmax & ->).
  split_and!; try done. cbn. rewrite <-Ht.
  pose proof (run_evidence src m0 p ops i a Hi Ha Hres) as Hev.
  unfold attempt_evidence in Hev. rewrite Hp in Hev. by apply Hev.
Qed.

(** A stale attempt is dead for good.  Once an attempt token has been issued
    and is no longer the one in flight, no later sequence of operations makes an
    operation presenting it succeed. *)
Theorem stale_token_refused src m p ops1 ops2 t o :
  let s := run (startup_reconciliation src m p) ops1 in
  tok_attempt_id t < sm_next_attempt_id s → current_attempt_token s ≠ Some t →
  op_token o = Some t →
  is_ok (result_of (exec o) (run s ops2)) = false.
Proof.
  intros s Hid Hne Ht. pose proof (run_Inv ops1 _ (startup_Inv src m p)) as HInv.
  apply (wp_result _ (λ r, is_ok r = false)), (stale_token_step o t); [by apply run_Inv|done|].
  by apply dead_token_run.
Qed.

(** No attempt id is ever handed out twice in the life of a machine. *)
Theorem attempt_ids_unique src m p ops :
  NoDup (issued_attempts (trace (startup_reconciliation src m p) ops)).
Proof.
  set (s0 := startup_reconciliation src m p).
  apply (run_ind (λ tr s, NoDup (issued_attempts tr) ∧
    Forall (λ id, id < sm_next_attempt_id s) (issued_attempts tr)) s0 ops);
    [apply startup_Inv|split; constructor|].
  intros tr s o HInv [Hnd Hlt]. eapply wp_conseq; [by apply exec_step_facts|].
  intros r s' (_ & Hle & _ & _ & Hr). unfold issued_attempts. rewrite omap_app. cbn.
  fold (issued_attempts tr).
  assert (Forall (λ id, id < sm_next_attempt_id s') (issued_attempts tr)) as Hlt'
    by (eapply Forall_impl; [exact Hlt|cbn; lia]).
  destruct r as [[]|]; cbn; rewrite ?app_nil_r; try done.
  destruct Hr as (_ & Hid & Hnext). split.
  - apply NoDup_app. split_and!; [done| |apply NoDup_singleton].
    intros x Hx Hx'. apply list_elem_of_singleton in Hx' as ->.
    rewrite Forall_forall in Hlt. specialize (Hlt _ Hx). lia.
  - apply Forall_app. split; [done|]. constructor; [lia|constructor].
Qed.

(** Every operation that succeeds advances the revision by exactly one, and
    a failing one never lowers it: the revision orders the observable states. *)
Lemma revision_orders_steps src m p ops o :
  let s := run (startup_reconciliation src m p) ops in
  let s' := state_of (exec o) s in
  sm_revision s ≤ sm_revision s' ∧
  (is_ok (result_of (exec o) s) = true → sm_revision s' = sm_revision s + 1).
Proof.
  intros s s'. pose proof (run_Inv ops _ (startup_Inv src m p)) as HInv.
  pose proof (exec_step_facts o s HInv) as Hstep. unfold wp in Hstep.
  unfold s', state_of, result_of. destruct (exec o s) as [r s''].
  destruct Hstep as (Hle & _ & _ & _ & Hr). split; [done|]. cbn.
  destruct r as [[]|]; try done; by destruct Hr.
Qed.

(** Identifier exhaustion, watermark exhaustion and scan-count exhaustion
    are unreachable: the 2^53 revision bound is hit first, and a scan is only
    started by an attempt that was itself counted. *)
Theorem exhaustion_unreachable src m p ops o e :
  (o, Err e) ∈ trace (startup_reconciliation src m p) ops → unreachable_error e = false.
Proof.
  revert o e. set (s0 := startup_reconciliation src m p).
  apply (run_ind (λ tr s, ∀ o e, (o, Err e) ∈ tr → unreachable_error e = false) s0 ops);
    [apply startup_Inv|by intros ?? ?%elem_of_nil|].
  intros tr s o HInv Htr. eapply wp_conseq; [by apply exec_step_facts|].
  intros r s' (_ & _ & _ & _ & Hr) o' e Hin.
  apply elem_of_app in Hin as [Hin|Hin]; [by eapply Htr|].
  apply list_elem_of_singleton in Hin as [= -> <-]. done.
Qed.

(** A fatal-contract block is final: no sequence of operations, authority
    restoration and worker replacement included, unblocks the incident. *)
Theorem fatal_block_permanent src m p ops1 ops2 id :
  let s := run (startup_reconciliation src m p) ops1 in
  fatally_blocked id s → fatally_blocked id (run s ops2).
Proof.
  intros s. pose proof (run_Inv ops1 _ (startup_Inv src m p)) as HInv. fold s in HInv.
  clearbody s. revert s HInv. induction ops2 as [|o ops IH]; intros s HInv Hb; [done|].
  apply IH; apply wp_state; [by apply exec_Inv|by apply exec_fatally_blocked].
Qed.

(** Nominal means recovered: from startup the machine reports [Nominal],
    and offers a frontier, only after it has closed an incident, and the
    frontier then names that closure. *)
Theorem nominal_requires_closure src m p ops f :
  let s := run (startup_reconciliation src m p) ops in
  nominal_frontier s = Some f →
  lifecycle s = Nominal ∧ rf_recovery_revision f = sm_revision s ∧
  ∃ rc, last_completed_receipt s = Some rc ∧
        rf_last_closure f = Some (closure_identity_from_receipt rc).
Proof.
  intros s. cut (closure_known s).
  - intros Hc. unfold closure_known, nominal_frontier, lifecycle, last_completed_receipt in *.
    destruct (sm_incident s); [done|]. specialize (Hc eq_refl). intros [= <-].
    destruct (sm_last_completed s) as [rc|]; [|done]. split_and!; [done..|]. by exists rc.
  - unfold s. clear s f. set (s0 := startup_reconciliation src m p).
    apply (run_ind (λ _, closure_known) s0 ops);
      [apply startup_Inv|done|].
    intros _ s o HInv Hs. by apply exec_closure_kept.
Qed.

(** Ordinary activity does not block a closure.  If an offer closes the
    incident, then it still closes it after an admitted callback, with the same
    receipt but for the revision. *)
Theorem activity_keeps_close src m0 p ops offer m rc s1 m' adm s2 :
  let s := run (startup_reconciliation src m0 p) ops in
  offer_close offer m s = (Ok (Closed rc), s1) →
  observe_activity m' s = (Ok adm, s2) → sm_revision s2 + 1 < MAX_SCHEMA_INTEGER →
  ∃ s3, offer_close offer m s2 =
    (Ok (Closed (rc <| rc_closing_recovery_revision := sm_revision s2 + 1 |>)), s3).
Proof.
  intros s Hclose Hact Hrev. pose proof (run_Inv ops _ (startup_Inv src m0 p)) as HInv.
  destruct (offer_close_closes _ _ _ _ _ HInv Hclose)
    as (i & a & b & Hi & Ha & Hp & Hres & Ht & Hb & Hs & Heq & Hl & Hle & -> & Hmax & ->).
  destruct (observe_activity_frame _ _ _ _ HInv Hact) as (Hinc & Hloss & _).
  eexists. apply closes_offer_close; [done|]. exists i, a, b.
  rewrite Hinc, Hloss. split_and!; done.
Qed.

(** Lost coverage always invalidates a closure.  After an admitted loss or
    suppressed callback, the offer that would have closed the incident is
    answered with a retry: the incident stays open, its attempt is gone and a
    rescan is required. *)
Theorem loss_refuses_close src m0 p ops offer m rc s1 o out s2 :
  let s := run (startup_reconciliation src m0 p) ops in
  offer_close offer m s = (Ok (Closed rc), s1) →
  is_loss o = true → exec o s = (Ok out, s2) → sm_revision s2 + 1 < MAX_SCHEMA_INTEGER →
  ∃ s3, offer_close offer m s2 = (Ok (RetryRequired (rc_incident_id rc)), s3) ∧
    lifecycle s3 = Recovering ∧ current_attempt_token s3 = None ∧
    ∃ i, sm_incident s3 = Some i ∧ inc_rescan_required i = true ∧ inc_phase i = Rearming.
Proof.
  intros s Hclose Ho Hloss Hrev. pose proof (run_Inv ops _ (startup_Inv src m0 p)) as HInv.
  destruct (offer_close_closes _ _ _ _ _ HInv Hclose)
    as (i & a & b & Hi & Ha & Hp & _ & Ht & Hb & Hs & Heq & _ & _ & -> & _ & ->).
  destruct (loss_marks_incident o s i out s2 HInv Hi Ho Hloss) as (counts & Hinc).
  eexists. split; [eapply (offer_close_retries _ _ _ _ a b Hrev Hinc); cbn; done|].
  unfold lifecycle, current_attempt_token, is_blocked. cbn. split_and!; [done..|].
  eexists. by split_and!.
Qed.

(** Recovery completes when its dependencies answer.  From any reachable
    state that is re-arming under a live worker, one uninterrupted attempt —
    start, scan, complete, seal with a boundary newer than the last one, offer —
    closes the incident and leaves the machine nominal, as long as the bounded
    counters have room and the clock is within the receipt's limit. *)
Theorem recovery_closes src m0 p ops m h r i w :
  let s := run (startup_reconciliation src m0 p) ops in
  sm_incident s = Some i → inc_phase i = Rearming → sm_active_worker s = Some w →
  inc_attempt_count i < MAX_RECOVERY_COUNT → sm_revision s + 5 < MAX_SCHEMA_INTEGER →
  boundary_follows h s →
  inc_started_tick i ≤ monotonic m ≤ inc_started_tick i + MAX_DURATION_MS →
  let t := mkToken (inc_id i) (sm_next_attempt_id s) w in
  let b := mkAttemptBoundary (sm_activity_watermark s) (sm_loss_watermark s) h in
  let s' := run s [OpStartAttempt m; OpScanStarted t m; OpScanCompleted t r m;
                   OpNativeBoundary t h m; OpOfferClose (mkCloseOffer t b r) m] in
  lifecycle s' = Nominal ∧
  ∃ rc, last_completed_receipt s' = Some rc ∧ rc_attempt_id rc = tok_attempt_id t ∧
        rc_authoritative_scan_revision rc = r ∧ rc_native_boundary rc = b.
Proof.
  intros s Hi Hp Hw Hcount Hrev Hfollows Htime t b s'.
  pose proof (run_Inv ops _ (startup_Inv src m0 p)) as HInv. fold s in HInv. clearbody s.
  pose proof (incident_ok_scan_le _ _ (proj2 (proj2 HInv) i Hi)) as Hscan.
  unfold s', run. cbn [fold_left exec].
  erewrite (state_of_map (start_attempt m) OutToken); [|apply (start_attempt_ok m s i w); (done || lia)].
  erewrite (state_of_map (record_scan_started t m) (λ _, OutUnit));
    [|eapply scan_started_ok; cbn; try (done || lia); cbn; lia].
  erewrite (state_of_map (record_scan_completed t r m) (λ _, OutUnit));
    [|eapply (scan_completed_ok _ r); cbn; (done || lia)].
  erewrite (state_of_map (record_native_boundary t h m) (λ _, OutUnit));
    [|eapply (native_boundary_ok _ h); cbn; (done || lia)].
  erewrite (state_of_map (offer_close _ m) OutClose); [|eapply closes_offer_close; cbn; [lia|]].
  2: { eexists _, _, _. cbn. split_and!; try reflexivity; cbn; try lia.
       apply boundary_eqb_refl. }
  cbn. split; [done|]. eexists. by split_and!.
Qed.

(** Retryable failures back off and recover.  A retryable failure of the
    attempt in flight schedules a retry after exactly the policy's delay for
    this many consecutive failures; before that instant [retry_if_due] refuses
    and changes nothing, from that instant on it re-arms the incident. *)
Theorem backoff_then_retry src m0 p ops t f m id retry_at delay s1 m' :
  let s := run (startup_reconciliation src m0 p) ops in
  record_dependency_failure t f m s = (Ok (RetryScheduled id retry_at delay), s1) →
  sm_revision s1 + 1 < MAX_SCHEMA_INTEGER →
  (∃ i, sm_incident s = Some i ∧ inc_id i = id ∧ delay = delay_for p (inc_retry_failures i + 1) ∧
        retry_at = monotonic m + duration_as_millis delay) ∧
  (monotonic m' < retry_at → retry_if_due m' s1 = (Err RetryNotDue, s1)) ∧
  (retry_at ≤ monotonic m' → ∃ s2 i, retry_if_due m' s1 = (Ok id, s2) ∧
     sm_incident s2 = Some i ∧ inc_phase i = Rearming ∧ inc_rescan_required i = true ∧
     inc_failure i = None).
Proof.
  intros s Hfail Hrev. pose proof (run_Inv ops _ (startup_Inv src m0 p)) as HInv. fold s in HInv.
  assert (sm_backoff_policy s = p) as Hpol by apply run_backoff_policy, startup_Inv.
  clearbody s. destruct (dependency_failure_scheduled _ _ _ _ _ _ _ _ HInv Hfail)
    as (i & i' & Hi & Hid & Hdelay & Hat & Hi' & Hid' & Hp & Hr & Hres).
  rewrite Hpol in Hdelay. split; [by exists i|].
  split; intros Ht; unfold retry_if_due, mbind, M_bind, m_bind; rewrite next_revision_ok by done;
    rewrite (active_incident_ok i') by (done || by rewrite Hp); rewrite Hp; eval_decides;
    unfold bail_if, m_ret; rewrite Hr; cbn.
  - by rewrite (proj2 (Z.ltb_lt _ _)).
  - rewrite (proj2 (Z.ltb_ge _ _)) by done. eexists _, _. rewrite Hid'.
    split; [reflexivity|]. cbn. by split_and!.
Qed.

(** The restoration of authority lifts exactly the blocks an authority loss
    caused: a block by authentication or authorization re-arms with a rescan
    required and a fresh retry budget, every other state is refused unchanged. *)
Theorem authority_restoration_exact src m0 p ops m :
  let s := run (startup_reconciliation src m0 p) ops in
  sm_revision s + 1 < MAX_SCHEMA_INTEGER →
  match (i ← sm_incident s; f ← inc_failure i; Some (i, f)) with
  | Some (i, f) =>
      if is_authority_restorable (df_class f) then
        ∃ s' i', restore_authority m s = (Ok (Restored (inc_id i)), s') ∧
          sm_incident s' = Some i' ∧ inc_phase i' = Rearming ∧ inc_failure i' = None ∧
          inc_rescan_required i' = true ∧ inc_retry_failures i' = 0
      else restore_authority m s = (Err AuthorityNotRestorable, s)
  | None => ∃ e, restore_authority m s = (Err e, s)
  end.
Proof.
  intros s Hrev. unfold restore_authority, mbind, M_bind, m_bind.
  rewrite next_revision_ok by done. unfold_M.
  destruct (sm_incident s) as [i|]; cbn; [|by eexists].
  destruct (inc_failure i) as [f|]; cbn; [|by eexists].
  destruct (is_authority_restorable (df_class f)); cbn; [|done].
  eexists _, _. by split_and!.
Qed.

End Theorems.

(** The retry delay of a valid policy starts at its initial delay, never
    exceeds its maximum and never shrinks as failures accumulate. *)
Lemma delay_for_bounds initial maximum p n :
  0 < initial → maximum ≤ duration_max → BackoffPolicy_new initial maximum = Ok p → 0 < n →
  delay_for p 1 = initial ∧ initial ≤ delay_for p n ≤ maximum ∧
  delay_for p n ≤ delay_for p (n + 1).
Proof.
  intros Hi Hmax Hp Hn. unfold BackoffPolicy_new in Hp.
  destruct (_ || _) eqn:Hc; [done|]. injection Hp as <-. bool_to_prop.
  unfold delay_for, duration_saturating_mul, u32_saturating_sub. cbn [bp_initial bp_maximum].
  rewrite !Z.shiftl_1_l. change (2 ^ Z.min (Z.max (1 - 1) 0) 31) with 1.
  set (e1 := Z.min (Z.max (n - 1) 0) 31). set (e2 := Z.min (Z.max (n + 1 - 1) 0) 31).
  assert (2 ^ 0 ≤ 2 ^ e1) as H1 by (apply Z.pow_le_mono_r; lia).
  assert (2 ^ e1 ≤ 2 ^ e2) as H2 by (apply Z.pow_le_mono_r; lia).
  change (2 ^ 0) with 1 in H1.
  assert (initial * 1 ≤ initial * 2 ^ e1) by (apply Z.mul_le_mono_nonneg_l; lia).
  assert (initial * 2 ^ e1 ≤ initial * 2 ^ e2) by (apply Z.mul_le_mono_nonneg_l; lia).
  lia.
Qed.

(** ** Witnesses: one concrete recovery *)

Section Witnesses.
#[local] Existing Instance Z_TimeLib.

Definition w_src : RecoverySourceIdentity :=
  mkSourceIdentity (mkProcessIdentity 1 1 0) "workspace"%string.
Definition w_moment (k : Z) : RecoveryMoment := mkMoment k k.
Definition w_start : RecoveryStateMachine :=
  startup_reconciliation w_src (w_moment 0) BackoffPolicy_standard.
Definition w_busy : DependencyFailure := mkFailure Retryable DependencyBusy 3.
Definition w_fatal : DependencyFailure := mkFailure FatalContract ObserverFatalContract 3.
Definition w_token : AttemptToken := mkToken 1 1 1.
Definition w_handoff : WatcherCoverageHandoff :=
  mkHandoff (LinuxBoundary (mkLinuxBoundary 1 1 1 1)) (mkCloseGuard 0 (mkCloseToken 1 1)).
Definition w_boundary : AttemptCoverageBoundary := mkAttemptBoundary 1 1 w_handoff.
Definition w_offer : CloseOffer := mkCloseOffer w_token w_boundary 7.

Definition w_receipt : RecoveryClosureReceipt := mkReceipt 1 1 1 1 1 7 w_boundary 0 6 6 7.

(** A worker arms, scans and seals; the incident is ready to close. *)
Definition w_ops : list recovery_op :=
  [OpReplaceWorker (w_moment 1); OpStartAttempt (w_moment 2);
   OpScanStarted w_token (w_moment 3); OpScanCompleted w_token 7 (w_moment 4);
   OpNativeBoundary w_token w_handoff (w_moment 5)].

Definition w_ready : RecoveryStateMachine := run w_start w_ops.

Lemma closure_evidence_witness : sealed w_token 7 w_handoff (trace w_start w_ops).
Proof.
  apply (closure_evidence w_src (w_moment 0) BackoffPolicy_standard w_ops w_offer (w_moment 6)
           w_receipt (state_of (offer_close w_offer (w_moment 6)) w_ready)).
  vm_compute. reflexivity.
Defined.

Lemma stale_token_refused_witness :
  is_ok (result_of (exec (OpOfferClose w_offer (w_moment 9)))
    (run (run w_start (w_ops ++ [OpReplaceWorker (w_moment 6)]))
         [OpStartAttempt (w_moment 7)])) = false.
Proof.
  apply (stale_token_refused w_src (w_moment 0) BackoffPolicy_standard _ _ w_token);
    vm_compute; done.
Defined.

Lemma exhaustion_unreachable_witness : unreachable_error WorkerUnavailable = false.
Proof.
  apply (exhaustion_unreachable w_src (w_moment 0) BackoffPolicy_standard
           [OpStartAttempt (w_moment 1)] (OpStartAttempt (w_moment 1))).
  apply list_elem_of_singleton. vm_compute. reflexivity.
Defined.

Lemma fatal_block_permanent_witness :
  fatally_blocked 1 (run (run w_start
     [OpReplaceWorker (w_moment 1); OpStartAttempt (w_moment 2);
      OpDependencyFailure w_token w_fatal (w_moment 3)])
    [OpRestoreAuthority (w_moment 4); OpReplaceWorker (w_moment 5)]).
Proof.
  apply (fatal_block_permanent w_src (w_moment 0) BackoffPolicy_standard).
  eexists _, _. vm_compute. by split_and!.
Defined.

Lemma nominal_requires_closure_witness :
  lifecycle (run w_start (w_ops ++ [OpOfferClose w_offer (w_moment 6)])) = Nominal.
Proof.
  apply (nominal_requires_closure w_src (w_moment 0) BackoffPolicy_standard
    (w_ops ++ [OpOfferClose w_offer (w_moment 6)])
    (mkFrontier 7 1 (Some (mkClosureIdentity 1 1 7)))).
  vm_compute. reflexivity.
Defined.

Lemma activity_keeps_close_witness : ∃ s3,
  offer_close w_offer (w_moment 6) (state_of (observe_activity (w_moment 6)) w_ready) =
  (Ok (Closed (w_receipt <| rc_closing_recovery_revision := 8 |>)), s3).
Proof.
  apply (activity_keeps_close w_src (w_moment 0) BackoffPolicy_standard w_ops w_offer
    (w_moment 6) w_receipt (state_of (offer_close w_offer (w_moment 6)) w_ready) (w_moment 6)
    (ObservedDuringIncident 1) (state_of (observe_activity (w_moment 6)) w_ready));
    vm_compute; reflexivity.
Defined.

Lemma loss_refuses_close_witness : ∃ s3,
  offer_close w_offer (w_moment 6)
    (state_of (exec (OpLoss RootReplaced (w_moment 6))) w_ready) = (Ok (RetryRequired 1), s3) ∧
  lifecycle s3 = Recovering.
Proof.
  destruct (loss_refuses_close w_src (w_moment 0) BackoffPolicy_standard w_ops w_offer
    (w_moment 6) w_receipt (state_of (offer_close w_offer (w_moment 6)) w_ready)
    (OpLoss RootReplaced (w_moment 6)) (OutLoss (Coalesced 1))
    (state_of (exec (OpLoss RootReplaced (w_moment 6))) w_ready)) as (s3 & Hs3 & Hl & _);
    [vm_compute; reflexivity..|].
  exists s3. exact (conj Hs3 Hl).
Defined.

Definition w_armed : RecoveryStateMachine := run w_start [OpReplaceWorker (w_moment 1)].

Lemma recovery_closes_witness :
  lifecycle (run w_armed
    [OpStartAttempt (w_moment 2); OpScanStarted w_token (w_moment 2);
     OpScanCompleted w_token 7 (w_moment 2); OpNativeBoundary w_token w_handoff (w_moment 2);
     OpOfferClose w_offer (w_moment 2)]) = Nominal.
Proof.
  apply (recovery_closes w_src (w_moment 0) BackoffPolicy_standard
    [OpReplaceWorker (w_moment 1)] (w_moment 2) w_handoff 7
    (IncidentState_new 1 StartupReconciliation (w_moment 0)) 1);
    try (vm_compute; reflexivity); split; vm_compute; done.
Defined.

Lemma backoff_then_retry_witness :
  let s1 := state_of (record_dependency_failure w_token w_busy
              (w_moment 3)) (run w_start [OpReplaceWorker (w_moment 1); OpStartAttempt (w_moment 2)]) in
  retry_if_due (w_moment 252) s1 = (Err RetryNotDue, s1).
Proof.
  apply (backoff_then_retry w_src (w_moment 0) BackoffPolicy_standard
    [OpReplaceWorker (w_moment 1); OpStartAttempt (w_moment 2)] w_token
    w_busy (w_moment 3) 1 253 (duration_from_millis 250) _
    (w_moment 252)); vm_compute; reflexivity.
Defined.

Lemma authority_restoration_exact_witness :
  ∃ e, restore_authority (w_moment 1) w_start = (Err e, w_start).
Proof.
  apply (authority_restoration_exact w_src (w_moment 0) BackoffPolicy_standard [] (w_moment 1)).
  vm_compute. reflexivity.
Defined.

Lemma delay_for_bounds_witness : delay_for BackoffPolicy_standard 3 ≤ duration_from_secs 5.
Proof.
  apply (delay_for_bounds (duration_from_millis 250) (duration_from_secs 5)
    BackoffPolicy_standard 3); vm_compute; done.
Defined.
End Witnesses.
