(* ===== verification/RecoverySnapshot.v ===== *)
(** * Watcher recovery: immutable snapshots

    Models [crates/bowline-daemon/src/watcher_recovery/snapshot.rs], the
    projection [RecoveryStateMachine::snapshot] of [reducer/projection.rs] and
    [AttemptState::snapshot] of [reducer.rs]. *)

From S2P Require Import Prelude.
From S2P Require Import WatcherCoverage.
From S2P Require Import RecoveryTypes.
From S2P Require Import RecoveryReducer.
From S2P Require Import RecoveryInvariants.
From S2P Require Import RecoveryTraces.
From S2P Require Import RecoverySteps.
Local Open Scope string_scope.
Open Scope Z_scope.

Definition DOCUMENT_KIND : string := "watcher-recovery-snapshot".
Definition SCHEMA_VERSION : Z := 3.

(** [NativeCoverageLossSnapshot] has the constructors of [WatcherCoverageLoss]
    one to one; they are prefixed here. *)
Inductive NativeCoverageLossSnapshot : Type :=
| SnapUserDropped
| SnapKernelDropped
| SnapEventIdsWrapped
| SnapRootChanged
| SnapStreamStopped
| SnapNonMonotonicCursor
| SnapQueueOverflow
| SnapBackendFailure.

Definition loss_snapshot (loss : WatcherCoverageLoss) : NativeCoverageLossSnapshot :=
  match loss with
  | UserDropped => SnapUserDropped
  | KernelDropped => SnapKernelDropped
  | EventIdsWrapped => SnapEventIdsWrapped
  | RootChanged => SnapRootChanged
  | StreamStopped => SnapStreamStopped
  | NonMonotonicCursor => SnapNonMonotonicCursor
  | QueueOverflow => SnapQueueOverflow
  | BackendFailure => SnapBackendFailure
  end.

Inductive DarwinCoverageStartSnapshot : Type :=
| SnapCursorReplay (covered_last_safe replay_from : Z)
    (recovery_cause : option NativeCoverageLossSnapshot)
| SnapFreshStream (fresh_from : Z) (discontinuity : NativeCoverageLossSnapshot).

Definition start_snapshot (start : DarwinCoverageStart) : DarwinCoverageStartSnapshot :=
  match start with
  | CursorReplay covered replay cause =>
      SnapCursorReplay covered replay (option_map loss_snapshot cause)
  | FreshStream fresh discontinuity => SnapFreshStream fresh (loss_snapshot discontinuity)
  end.

Inductive NativeCoverageSnapshot : Type :=
| SnapDarwin (boundary_id : Z) (activity_watermark : ActivityWatermark)
    (covered_epoch live_epoch : Z) (start : DarwinCoverageStartSnapshot)
    (history_through : Z) (history_done must_scan_subdirs : bool) (sealed_through : Z)
    (flush_generation loss_generation callback_generation : Z)
| SnapLinux (boundary_id : Z) (activity_watermark : ActivityWatermark) (stream_epoch : Z)
    (watcher_ready_control_id callback_drain_control_id : Z).

(** [NativeCoverageSnapshot::from_boundary] *)
Definition coverage_snapshot (b : AttemptCoverageBoundary) : NativeCoverageSnapshot :=
  let activity_watermark := ab_activity_watermark b in
  match ab_proof b with
  | DarwinBoundary p =>
      SnapDarwin (db_boundary_id p) activity_watermark (db_covered_epoch p) (db_live_epoch p)
        (start_snapshot (db_start p)) (db_history_through p) true (db_must_scan_subdirs p)
        (db_sealed_through p) (db_flush_generation p) (db_loss_generation p)
        (db_callback_generation p)
  | LinuxBoundary p =>
      SnapLinux (lb_boundary_id p) activity_watermark (lb_stream_epoch p)
        (lb_watcher_ready p) (lb_callback_drain p)
  end.

Section Snapshot.
Context `{TimeLib}.

Record CurrentAttemptSnapshot := mkAttemptSnapshot {
  as_attempt_id : AttemptId;
  as_activity_watermark : option ActivityWatermark;
  as_started_at : RecoveryTimestamp;
  as_authoritative_scan_revision : option RecoveryScanRevision;
}.

(** [AttemptState::snapshot] *)
Definition attempt_snapshot (a : AttemptState) : CurrentAttemptSnapshot :=
  mkAttemptSnapshot (tok_attempt_id (at_token a))
    (option_map ab_activity_watermark (at_native_boundary a))
    (at_started_at a) (at_scan_revision a).

(** [RecoveryFailureSnapshot] *)
Record RecoveryFailureSnapshot := mkFailureSnapshot {
  fs_class : DependencyFailureClass;
  fs_code : RecoveryFailureCode;
  fs_observed_at : RecoveryTimestamp;
}.

Definition failure_snapshot (f : DependencyFailure) : RecoveryFailureSnapshot :=
  mkFailureSnapshot (df_class f) (df_code f) (df_observed_at f).

Record RecoveryClosureSnapshot := mkClosureSnapshot {
  cs_incident_id : IncidentId;
  cs_closing_attempt_id : AttemptId;
  cs_attempt_count : RecoveryCount;
  cs_scan_count : RecoveryCount;
  cs_activity_watermark : ActivityWatermark;
  cs_duration_ms : Z;
  cs_closing_recovery_revision : RecoveryRevision;
  cs_native_coverage : NativeCoverageSnapshot;
  cs_authoritative_scan_revision : RecoveryScanRevision;
}.

(** [RecoveryClosureSnapshot::from_receipt] *)
Definition closure_snapshot (r : RecoveryClosureReceipt) : RecoveryClosureSnapshot :=
  {| cs_incident_id := rc_incident_id r;
     cs_closing_attempt_id := rc_attempt_id r;
     cs_attempt_count := rc_attempt_count r;
     cs_scan_count := rc_scan_count r;
     cs_activity_watermark := rc_activity_watermark r;
     cs_duration_ms := rc_duration_ms r;
     cs_closing_recovery_revision := rc_closing_recovery_revision r;
     cs_native_coverage := coverage_snapshot (rc_native_boundary r);
     cs_authoritative_scan_revision := rc_authoritative_scan_revision r |}.

(** [WatcherRecoverySnapshot]: [RecoverySnapshotInput] with the document kind
    and the schema version in front. *)
Record WatcherRecoverySnapshot := mkSnapshot {
  ws_document_kind : string;
  ws_schema_version : Z;
  ws_process_identity : RecoveryProcessIdentity;
  ws_workspace_id : string;
  ws_snapshot_revision : RecoveryRevision;
  ws_activity_watermark : ActivityWatermark;
  ws_lifecycle : RecoveryLifecycle;
  ws_worker_id : option RecoveryWorkerId;
  ws_incident_id : option IncidentId;
  ws_primary_cause : option RecoveryCause;
  ws_phase : option RecoveryPhase;
  ws_started_at : option RecoveryTimestamp;
  ws_last_transition_at : RecoveryTimestamp;
  ws_attempt_count : RecoveryCount;
  ws_scan_count : RecoveryCount;
  ws_rescan_required : bool;
  ws_current_attempt : option CurrentAttemptSnapshot;
  ws_native_coverage : option NativeCoverageSnapshot;
  ws_failure : option RecoveryFailureSnapshot;
  ws_last_closure : option RecoveryClosureSnapshot;
}.

(** [RecoveryStateMachine::snapshot] *)
Definition snapshot (s : RecoveryStateMachine) : WatcherRecoverySnapshot :=
  match sm_incident s with
  | None =>
      {| ws_document_kind := DOCUMENT_KIND;
         ws_schema_version := SCHEMA_VERSION;
         ws_process_identity := si_process_identity (sm_source_identity s);
         ws_workspace_id := si_workspace_id (sm_source_identity s);
         ws_snapshot_revision := sm_revision s;
         ws_activity_watermark := sm_activity_watermark s;
         ws_lifecycle := Nominal;
         ws_worker_id := sm_active_worker s;
         ws_incident_id := None;
         ws_primary_cause := None;
         ws_phase := None;
         ws_started_at := None;
         ws_last_transition_at := sm_last_transition_at s;
         ws_attempt_count := 0;
         ws_scan_count := 0;
         ws_rescan_required := false;
         ws_current_attempt := None;
         ws_native_coverage :=
           option_map (λ r, coverage_snapshot (rc_native_boundary r)) (sm_last_completed s);
         ws_failure := None;
         ws_last_closure := option_map closure_snapshot (sm_last_completed s) |}
  | Some i =>
      {| ws_document_kind := DOCUMENT_KIND;
         ws_schema_version := SCHEMA_VERSION;
         ws_process_identity := si_process_identity (sm_source_identity s);
         ws_workspace_id := si_workspace_id (sm_source_identity s);
         ws_snapshot_revision := sm_revision s;
         ws_activity_watermark := sm_activity_watermark s;
         ws_lifecycle := if is_blocked i then LifecycleBlockedState else Recovering;
         ws_worker_id := sm_active_worker s;
         ws_incident_id := Some (inc_id i);
         ws_primary_cause := Some (inc_primary_cause i);
         ws_phase := Some (inc_phase i);
         ws_started_at := Some (inc_started_at i);
         ws_last_transition_at := sm_last_transition_at s;
         ws_attempt_count := inc_attempt_count i;
         ws_scan_count := inc_scan_count i;
         ws_rescan_required := inc_rescan_required i;
         ws_current_attempt := option_map attempt_snapshot (inc_current_attempt i);
         ws_native_coverage := option_map coverage_snapshot (inc_native_coverage i);
         ws_failure := option_map failure_snapshot (inc_failure i);
         ws_last_closure := option_map closure_snapshot (sm_last_completed s) |}
  end.

(** ** Lemmas *)

Lemma snapshot_revision s : ws_snapshot_revision (snapshot s) = sm_revision s.
Proof. unfold snapshot. by destruct (sm_incident s). Qed.

Lemma snapshot_lifecycle s : ws_lifecycle (snapshot s) = lifecycle s.
Proof. unfold snapshot, lifecycle. by destruct (sm_incident s). Qed.

(** The fields a snapshot reads. *)
Lemma snapshot_frame s s' :
  sm_source_identity s' = sm_source_identity s → sm_incident s' = sm_incident s →
  sm_revision s' = sm_revision s → sm_activity_watermark s' = sm_activity_watermark s →
  sm_active_worker s' = sm_active_worker s →
  sm_last_transition_at s' = sm_last_transition_at s →
  sm_last_completed s' = sm_last_completed s → snapshot s' = snapshot s.
Proof. intros E1 E2 E3 E4 E5 E6 E7. unfold snapshot. by rewrite E1, E2, E3, E4, E5, E6, E7. Qed.

(** A step that does not move the revision leaves the snapshot as it is, unless
    the revision is exhausted. *)
Definition snapshot_step (s s' : RecoveryStateMachine) : Prop :=
  sm_revision s' = sm_revision s → sm_revision s < MAX_SCHEMA_INTEGER → snapshot s' = snapshot s.

Lemma snapshot_step_exhausted m s s' : snapshot_step s (exhausted m s').
Proof.
  unfold snapshot_step, exhausted, terminal_block, commit. unfold_M.
  destruct (sm_incident s'); cbn; unfold terminal; lia.
Qed.

Lemma snapshot_step_advance s s' : sm_revision s' = sm_revision s + 1 → snapshot_step s s'.
Proof. unfold snapshot_step. lia. Qed.

Lemma exec_snapshot_step o s : Inv s → wp (exec o) (λ _ s', snapshot_step s s') s.
Proof.
  intros HInv. destruct o; unfold_ops; rm_run;
    try first [ apply snapshot_step_exhausted | apply snapshot_step_advance; reflexivity
              | intros _ _; by apply snapshot_frame ].
Qed.

End Snapshot.
