(* ===== verification/RecoveryCoordinator.v ===== *)
(** * Watcher recovery: the coordinator

    Models [crates/bowline-daemon/src/watcher_recovery/coordinator.rs]: the
    mutex-guarded reducer with its cached snapshot, the shared revision signal
    with its generation-fenced wake targets, and subscriptions.

    The state mutex is never poisoned here (no transition panics), so
    [StateUnavailable] does not occur.  A method holds the lock for its reducer
    transition and publishes the new revision after releasing it; the two
    halves are separate definitions ([.._locked] and [publish]) so that other
    threads can be interleaved between them. *)

From S2P Require Import Prelude.
From S2P Require Import WatcherCoverage.
From S2P Require Import RecoveryTypes.
From S2P Require Import RecoveryReducer.
From S2P Require Import RecoveryInvariants.
From S2P Require Import RecoveryTraces.
From S2P Require Import RecoverySteps.
From S2P Require Import RecoverySnapshot.
Open Scope Z_scope.

Inductive RecoverySubscriptionRole : Type := RoleWorker | RoleProjector.

Inductive WatcherRecoveryCoordinatorError : Type :=
| StateUnavailable
| ProjectorIdentifierExhausted
| RoleAlreadySubscribed (role : RecoverySubscriptionRole)
| SubscriptionRevoked (role : RecoverySubscriptionRole)
| Transition (error : RecoveryTransitionError).

Inductive RecoverySubscriptionError : Type :=
| WouldBlock
| RecvTimedOut
| WakeDisconnected
| Revoked.

Inductive SubscriptionFence : Type :=
| FenceWorker (ownership : RecoveryWorkerOwnership)
| FenceProjector (ownership : RecoveryProjectorOwnership).

(** ** The revision signal *)

(** One [Arc<WakeTarget>]; [wt_pending] is the content of its [bounded(1)]
    channel, whose two ends the target itself keeps alive. *)
Record WakeTarget := mkTarget {
  wt_generation : Z;
  wt_claimed : bool;
  wt_pending : bool;
}.

#[export] Instance WakeTarget_eta : Eta WakeTarget :=
  λ r, mkTarget (wt_generation r) (wt_claimed r) (wt_pending r).

(** [sg_targets] is the store of wake targets: a subscription keeps the target it
    claimed after the slot has moved on to another one. *)
Record RevisionSignal := mkSignal {
  sg_revision : RecoveryRevision;
  sg_worker : option nat;
  sg_projector : option nat;
  sg_next_projector_id : Z;
  sg_targets : list WakeTarget;
}.

#[export] Instance RevisionSignal_eta : Eta RevisionSignal :=
  λ r, mkSignal (sg_revision r) (sg_worker r) (sg_projector r) (sg_next_projector_id r)
         (sg_targets r).

(** [RevisionSignal::wake]: [try_send], a full channel coalesces. *)
Definition wake (target : option nat) (g : RevisionSignal) : RevisionSignal :=
  match target with
  | None => g
  | Some ref => g <| sg_targets := alter (λ t, t <| wt_pending := true |>) ref (sg_targets g) |>
  end.

(** [RevisionSignal::target]: allocate a fresh target. *)
Definition alloc_target (generation : Z) (g : RevisionSignal) : nat * RevisionSignal :=
  (length (sg_targets g),
   g <| sg_targets := sg_targets g ++ [mkTarget generation false false] |>).

Definition install_worker (ownership : RecoveryWorkerOwnership) (g : RevisionSignal)
    : RevisionSignal :=
  let previous := sg_worker g in
  let '(ref, g) := alloc_target ownership g in
  wake previous (g <| sg_worker := Some ref |>).

Definition slot_generation (slot : option nat) (g : RevisionSignal) : option Z :=
  ref ← slot; t ← sg_targets g !! ref; Some (wt_generation t).

Definition revoke_worker (ownership : RecoveryWorkerOwnership) (g : RevisionSignal)
    : RevisionSignal :=
  let current := sg_worker g in
  if bool_decide (slot_generation current g = Some ownership)
  then wake current (g <| sg_worker := None |>)
  else g.

Definition RevisionSignal_new (revision : RecoveryRevision)
    (worker : option RecoveryWorkerOwnership) : RevisionSignal :=
  let signal := mkSignal revision None None 1 [] in
  match worker with
  | Some w => install_worker w signal
  | None => signal
  end.

(** [RevisionSignal::publish] *)
Definition publish_revision (revision : RecoveryRevision) (g : RevisionSignal) : RevisionSignal :=
  let prior := sg_revision g in
  let g := g <| sg_revision := Z.max prior revision |> in
  if revision <=? prior then g
  else let g := wake (sg_worker g) g in wake (sg_projector g) g.

Definition signal_replace_projector (g : RevisionSignal)
    : Result RecoveryProjectorOwnership WatcherRecoveryCoordinatorError * RevisionSignal :=
  match u64_checked_add (sg_next_projector_id g) 1 with
  | None => (Err ProjectorIdentifierExhausted, g)
  | Some next =>
      let generation := sg_next_projector_id g in
      let g := g <| sg_next_projector_id := next |> in
      match prefixed_id_new "RecoveryProjectorId"%string generation with
      | Err _ => (Err ProjectorIdentifierExhausted, g)
      | Ok projector_id =>
          let previous := sg_projector g in
          let '(ref, g) := alloc_target generation g in
          (Ok projector_id, wake previous (g <| sg_projector := Some ref |>))
      end
  end.

(** [RevisionSignal::claim]: the receiver returned is the target's own. *)
Definition claim (slot : option nat) (expected_generation : Z) (role : RecoverySubscriptionRole)
    (g : RevisionSignal) : Result nat WatcherRecoveryCoordinatorError * RevisionSignal :=
  match slot with
  | None => (Err (SubscriptionRevoked role), g)
  | Some ref =>
      match sg_targets g !! ref with
      | None => (Err (SubscriptionRevoked role), g)
      | Some t =>
          if negb (wt_generation t =? expected_generation)
          then (Err (SubscriptionRevoked role), g)
          else if wt_claimed t then (Err (RoleAlreadySubscribed role), g)
          else (Ok ref, g <| sg_targets :=
                  <[ref := t <| wt_claimed := true |> <| wt_pending := false |>]> (sg_targets g) |>)
      end
  end.

Definition fence_slot (fence : SubscriptionFence) (g : RevisionSignal) : option nat * Z :=
  match fence with
  | FenceWorker w => (sg_worker g, w)
  | FenceProjector p => (sg_projector g, p)
  end.

(** [RevisionSignal::is_current] *)
Definition fence_is_current (fence : SubscriptionFence) (g : RevisionSignal) : bool :=
  let '(slot, generation) := fence_slot fence g in
  bool_decide (slot_generation slot g = Some generation).

(** [RevisionSignal::release] *)
Definition release (fence : SubscriptionFence) (g : RevisionSignal) : RevisionSignal :=
  let '(slot, generation) := fence_slot fence g in
  match slot with
  | Some ref =>
      if bool_decide (slot_generation slot g = Some generation)
      then g <| sg_targets := alter (λ t, t <| wt_claimed := false |>) ref (sg_targets g) |>
      else g
  | None => g
  end.

(** ** Subscriptions *)

Section Coordinator.
Context `{TimeLib}.

Record RecoverySubscription := mkSubscription {
  sub_initial : WatcherRecoverySnapshot;
  sub_fence : SubscriptionFence;
  sub_wake : nat;
  sub_last_seen : RecoveryRevision;
}.

#[export] Instance RecoverySubscription_eta : Eta RecoverySubscription :=
  λ r, mkSubscription (sub_initial r) (sub_fence r) (sub_wake r) (sub_last_seen r).

Definition require_current (g : RevisionSignal) (s : RecoverySubscription)
    : Result unit RecoverySubscriptionError :=
  if fence_is_current (sub_fence s) g then Ok tt else Err Revoked.

Definition admit_revision (g : RevisionSignal) (published : RecoveryRevision)
    (s : RecoverySubscription)
    : Result RecoveryRevision RecoverySubscriptionError * RecoverySubscription :=
  match require_current g s with
  | Err e => (Err e, s)
  | Ok _ =>
      if published <=? sub_last_seen s then (Err WouldBlock, s)
      else (Ok published, s <| sub_last_seen := published |>)
  end.

Definition try_recv (g : RevisionSignal) (s : RecoverySubscription)
    : Result RecoveryRevision RecoverySubscriptionError * RecoverySubscription :=
  admit_revision g (sg_revision g) s.

Definition admit_after_timeout (g : RevisionSignal) (s : RecoverySubscription)
    : Result RecoveryRevision RecoverySubscriptionError * RecoverySubscription :=
  match admit_revision g (sg_revision g) s with
  | (Err WouldBlock, s') => (Err RecvTimedOut, s')
  | result => result
  end.

(** ** Coordinator state *)

Record Coordinator := mkCoordinator {
  wc_model : RecoveryStateMachine;
  wc_snapshot : WatcherRecoverySnapshot;
  wc_signal : RevisionSignal;
}.

#[export] Instance Coordinator_eta : Eta Coordinator :=
  λ r, mkCoordinator (wc_model r) (wc_snapshot r) (wc_signal r).

(** [WatcherRecoveryCoordinator::from_model] *)
Definition from_model (model : RecoveryStateMachine) : Coordinator :=
  let snap := snapshot model in
  mkCoordinator model snap
    (RevisionSignal_new (ws_snapshot_revision snap) (current_worker_ownership model)).

Definition coordinator_startup (source_identity : RecoverySourceIdentity)
    (moment : RecoveryMoment) (backoff_policy : BackoffPolicy) : Coordinator :=
  from_model (startup_reconciliation source_identity moment backoff_policy).

(** [CoordinatorState::materialize_snapshot], which is also
    [WatcherRecoveryCoordinator::snapshot]. *)
Definition materialize_snapshot (c : Coordinator) : WatcherRecoverySnapshot * Coordinator :=
  let c := if negb (ws_snapshot_revision (wc_snapshot c) =? sm_revision (wc_model c))
           then c <| wc_snapshot := snapshot (wc_model c) |> else c in
  (wc_snapshot c, c).

(** A locked section: the result and the revision to publish after unlocking. *)
Definition locked (A : Type) : Type :=
  Coordinator →
  (Result A WatcherRecoveryCoordinatorError * option RecoveryRevision) * Coordinator.

Definition map_transition {A} (r : Result A RecoveryTransitionError)
    : Result A WatcherRecoveryCoordinatorError :=
  match r with Ok a => Ok a | Err e => Err (Transition e) end.

Definition published_revision (prior : RecoveryRevision) (model : RecoveryStateMachine)
    : option RecoveryRevision :=
  if negb (sm_revision model =? prior) then Some (sm_revision model) else None.

(** [WatcherRecoveryCoordinator::mutate] up to the release of the lock. *)
Definition mutate_locked {A} (transition : RM A) : locked A := λ c,
  let prior_revision := sm_revision (wc_model c) in
  let '(result, model) := transition (wc_model c) in
  ((map_transition result, published_revision prior_revision model),
   c <| wc_model := model |>).

Definition publish_option (revision : option RecoveryRevision) (c : Coordinator) : Coordinator :=
  match revision with
  | Some revision => c <| wc_signal := publish_revision revision (wc_signal c) |>
  | None => c
  end.

(** A whole method call: lock, reduce, unlock, publish. *)
Definition complete {A} (l : locked A) (c : Coordinator)
    : Result A WatcherRecoveryCoordinatorError * Coordinator :=
  let '((result, revision), c) := l c in (result, publish_option revision c).

(** ** Operations *)

Definition native_loss_cause (loss : WatcherCoverageLoss) : RecoveryCause :=
  match loss with
  | UserDropped | KernelDropped | EventIdsWrapped | NonMonotonicCursor | QueueOverflow =>
      NativeRescanRequired
  | RootChanged => RootReplaced
  | StreamStopped => WatcherDisconnected
  | BackendFailure => RecoverableAdapterLoss
  end.

Definition observe_native_coverage (observation : NativeCoverageObservation)
    (moment : RecoveryMoment) : locked LossAdmission :=
  mutate_locked (observe_loss (native_loss_cause (obs_loss observation)) moment).

Definition coordinator_replace_worker (moment : RecoveryMoment)
    : locked RecoveryWorkerOwnership := λ c,
  let prior_revision := sm_revision (wc_model c) in
  let prior_worker := current_worker_ownership (wc_model c) in
  let '(result, model) := replace_worker moment (wc_model c) in
  let signal :=
    match result with
    | Ok ownership => install_worker ownership (wc_signal c)
    | Err _ =>
        match current_worker_ownership model, prior_worker with
        | None, Some prior => revoke_worker prior (wc_signal c)
        | _, _ => wc_signal c
        end
    end in
  ((map_transition result, published_revision prior_revision model),
   c <| wc_model := model |> <| wc_signal := signal |>).

Definition coordinator_worker_exited (ownership : RecoveryWorkerOwnership)
    (moment : RecoveryMoment) : locked IncidentId := λ c,
  let prior_revision := sm_revision (wc_model c) in
  let '(result, model) := worker_exited ownership moment (wc_model c) in
  let signal := if is_ok result then revoke_worker ownership (wc_signal c) else wc_signal c in
  ((map_transition result, published_revision prior_revision model),
   c <| wc_model := model |> <| wc_signal := signal |>).

Definition coordinator_start_attempt (ownership : RecoveryWorkerOwnership)
    (moment : RecoveryMoment) : locked AttemptToken :=
  mutate_locked (require_worker ownership ;; start_attempt moment).

Definition coordinator_record_native_boundary (ownership : RecoveryWorkerOwnership)
    (token : AttemptToken) (handoff : WatcherCoverageHandoff) (moment : RecoveryMoment)
    : locked unit :=
  mutate_locked (require_worker ownership ;; record_native_boundary token handoff moment).

Definition coordinator_record_scan_started (ownership : RecoveryWorkerOwnership)
    (token : AttemptToken) (moment : RecoveryMoment) : locked unit :=
  mutate_locked (require_worker ownership ;; record_scan_started token moment).

Definition coordinator_record_scan_completed (ownership : RecoveryWorkerOwnership)
    (token : AttemptToken) (scan_revision : RecoveryScanRevision) (moment : RecoveryMoment)
    : locked unit :=
  mutate_locked (require_worker ownership ;; record_scan_completed token scan_revision moment).

(** The transition inside [WatcherRecoveryCoordinator::offer_close]; [gens] are
    the native generations at the instant the guard is read. *)
Definition guarded_close (gens : Generations) (token : AttemptToken)
    (scan_revision : RecoveryScanRevision) (moment : RecoveryMoment) : RM CloseDisposition :=
  model ← get;
  bail_if (negb (bool_decide (current_attempt_token model = Some token))) AttemptMismatch ;;
  native_boundary ← ok_or NativeBoundaryMismatch (current_native_boundary model);
  let offer := mkCloseOffer token native_boundary scan_revision in
  if negb (ab_is_current gens (co_native_boundary offer))
  then reject_native_close (co_attempt offer) moment
  else offer_close offer moment.

Definition coordinator_offer_close (gens : Generations) (ownership : RecoveryWorkerOwnership)
    (token : AttemptToken) (scan_revision : RecoveryScanRevision) (moment : RecoveryMoment)
    : locked CloseDisposition :=
  mutate_locked (require_worker ownership ;; guarded_close gens token scan_revision moment).

Definition coordinator_record_dependency_failure (ownership : RecoveryWorkerOwnership)
    (token : AttemptToken) (failure : DependencyFailure) (moment : RecoveryMoment)
    : locked FailureDisposition :=
  mutate_locked (require_worker ownership ;; record_dependency_failure token failure moment).

Definition coordinator_restore_matching_authority (ownership : RecoveryWorkerOwnership)
    (expected_failure : DependencyFailure) (moment : RecoveryMoment)
    : locked AuthorityRestoration :=
  mutate_locked (require_worker ownership ;; restore_matching_authority expected_failure moment).

Definition coordinator_retry_if_due (ownership : RecoveryWorkerOwnership)
    (moment : RecoveryMoment) : locked IncidentId :=
  mutate_locked (require_worker ownership ;; retry_if_due moment).

Definition capture_nominal_frontier (c : Coordinator)
    : Result RecoveryFrontier WatcherRecoveryCoordinatorError :=
  match nominal_frontier (wc_model c) with
  | Some f => Ok f
  | None => Err (Transition RecoveryNotNominal)
  end.

Definition linearize_nominal (expected : RecoveryFrontier) (c : Coordinator)
    : Result RecoveryAttestation WatcherRecoveryCoordinatorError :=
  match nominal_frontier (wc_model c) with
  | None => Err (Transition RecoveryNotNominal)
  | Some current =>
      if bool_decide (current ≠ expected) then Err (Transition RecoveryFrontierChanged)
      else Ok (mkAttestation (sm_source_identity (wc_model c)) current
                 (last_completed_receipt (wc_model c)))
  end.

Definition subscribe_worker (ownership : RecoveryWorkerOwnership) (c : Coordinator)
    : Result RecoverySubscription WatcherRecoveryCoordinatorError * Coordinator :=
  match result_of (require_worker ownership) (wc_model c) with
  | Err _ => (Err (SubscriptionRevoked RoleWorker), c)
  | Ok _ =>
      let '(initial, c) := materialize_snapshot c in
      match claim (sg_worker (wc_signal c)) ownership RoleWorker (wc_signal c) with
      | (Err e, g) => (Err e, c <| wc_signal := g |>)
      | (Ok ref, g) =>
          (Ok (mkSubscription initial (FenceWorker ownership) ref 0), c <| wc_signal := g |>)
      end
  end.

Definition subscribe_projector (ownership : RecoveryProjectorOwnership) (c : Coordinator)
    : Result RecoverySubscription WatcherRecoveryCoordinatorError * Coordinator :=
  let '(initial, c) := materialize_snapshot c in
  match claim (sg_projector (wc_signal c)) ownership RoleProjector (wc_signal c) with
  | (Err e, g) => (Err e, c <| wc_signal := g |>)
  | (Ok ref, g) =>
      (Ok (mkSubscription initial (FenceProjector ownership) ref 0), c <| wc_signal := g |>)
  end.

Definition replace_projector (c : Coordinator)
    : Result RecoveryProjectorOwnership WatcherRecoveryCoordinatorError * Coordinator :=
  let '(r, g) := signal_replace_projector (wc_signal c) in (r, c <| wc_signal := g |>).

End Coordinator.
