(* ===== verification/CoordinatorTheorems.v ===== *)
(** * Watcher recovery: coordinator theorems

    Whatever the interleaving of calls, what the callers observe is a sequential
    run of the reducer; the cached snapshot, the published revision and the worker
    slot agree with the reducer; a closure needs a native guard that is still current; an attested
    frontier proves that nothing happened in between. *)

From S2P Require Import Prelude.
From S2P Require Import WatcherCoverage.
From S2P Require Import RecoveryTypes.
From S2P Require Import RecoveryReducer.
From S2P Require Import RecoveryInvariants.
From S2P Require Import RecoveryTraces.
From S2P Require Import RecoverySteps.
From S2P Require Import RecoverySnapshot.
From S2P Require Import RecoveryCoordinator.

Section System.
Context `{TimeLib}.

(** ** Interleaved calls *)

(** The locked sections of the coordinator's methods. *)
Inductive coord_op : Type :=
| CActivity (m : RecoveryMoment)
| CSuppressed (m : RecoveryMoment)
| CLoss (cause : RecoveryCause) (m : RecoveryMoment)
| CNativeCoverage (observation : NativeCoverageObservation) (m : RecoveryMoment)
| CReplaceWorker (m : RecoveryMoment)
| CWorkerExited (w : RecoveryWorkerOwnership) (m : RecoveryMoment)
| CStartAttempt (w : RecoveryWorkerOwnership) (m : RecoveryMoment)
| CScanStarted (w : RecoveryWorkerOwnership) (t : AttemptToken) (m : RecoveryMoment)
| CScanCompleted (w : RecoveryWorkerOwnership) (t : AttemptToken) (r : RecoveryScanRevision)
    (m : RecoveryMoment)
| CNativeBoundary (w : RecoveryWorkerOwnership) (t : AttemptToken) (h : WatcherCoverageHandoff)
    (m : RecoveryMoment)
| COfferClose (gens : Generations) (w : RecoveryWorkerOwnership) (t : AttemptToken)
    (r : RecoveryScanRevision) (m : RecoveryMoment)
| CDependencyFailure (w : RecoveryWorkerOwnership) (t : AttemptToken) (f : DependencyFailure)
    (m : RecoveryMoment)
| CRestoreAuthority (w : RecoveryWorkerOwnership) (f : DependencyFailure) (m : RecoveryMoment)
| CRetryIfDue (w : RecoveryWorkerOwnership) (m : RecoveryMoment).

Definition locked_map {A B} (f : A → B) (l : locked A) : locked B := λ c,
  let '((r, rev), c') := l c in ((result_map f r, rev), c').

Definition call (o : coord_op) : locked outcome :=
  match o with
  | CActivity m => locked_map OutActivity (mutate_locked (observe_activity m))
  | CSuppressed m => locked_map OutActivity (mutate_locked (observe_suppressed m))
  | CLoss cause m => locked_map OutLoss (mutate_locked (observe_loss cause m))
  | CNativeCoverage obs m => locked_map OutLoss (observe_native_coverage obs m)
  | CReplaceWorker m => locked_map OutWorker (coordinator_replace_worker m)
  | CWorkerExited w m => locked_map OutIncident (coordinator_worker_exited w m)
  | CStartAttempt w m => locked_map OutToken (coordinator_start_attempt w m)
  | CScanStarted w t m => locked_map (λ _, OutUnit) (coordinator_record_scan_started w t m)
  | CScanCompleted w t r m =>
      locked_map (λ _, OutUnit) (coordinator_record_scan_completed w t r m)
  | CNativeBoundary w t h m =>
      locked_map (λ _, OutUnit) (coordinator_record_native_boundary w t h m)
  | COfferClose gens w t r m => locked_map OutClose (coordinator_offer_close gens w t r m)
  | CDependencyFailure w t f m =>
      locked_map OutFailure (coordinator_record_dependency_failure w t f m)
  | CRestoreAuthority w f m =>
      locked_map OutRestored (coordinator_restore_matching_authority w f m)
  | CRetryIfDue w m => locked_map OutIncident (coordinator_retry_if_due w m)
  end.

(** The coordinator with the revisions whose publication is still due: threads
    that have released the lock and not yet published. *)
Record System := mkSystem {
  sys_coord : Coordinator;
  sys_due : list RecoveryRevision;
}.

(** One atomic step of some thread. *)
Inductive step : System → System → Prop :=
| StepCall o r rev c c' due :
    call o c = ((r, rev), c') →
    step (mkSystem c due) (mkSystem c' (from_option (λ v, v :: due) due rev))
| StepPublish c pre v post :
    step (mkSystem c (pre ++ v :: post))
         (mkSystem (publish_option (Some v) c) (pre ++ post))
| StepSnapshot c due : step (mkSystem c due) (mkSystem (snd (materialize_snapshot c)) due)
| StepSubscribeWorker w c due :
    step (mkSystem c due) (mkSystem (snd (subscribe_worker w c)) due)
| StepSubscribeProjector p c due :
    step (mkSystem c due) (mkSystem (snd (subscribe_projector p c)) due)
| StepReplaceProjector c due :
    step (mkSystem c due) (mkSystem (snd (replace_projector c)) due)
| StepRelease f c due :
    step (mkSystem c due) (mkSystem (c <| wc_signal := release f (wc_signal c) |>) due).

Inductive reachable (c0 : Coordinator) : System → Prop :=
| reach_init : reachable c0 (mkSystem c0 [])
| reach_step s s' : reachable c0 s → step s s' → reachable c0 s'.

(** ** The coordinator's invariant *)

(** The revision that is or will be published. *)
Definition announced (s : System) : Z :=
  foldr Z.max (sg_revision (wc_signal (sys_coord s))) (sys_due s).

Definition snapshot_fresh (c : Coordinator) : Prop :=
  ws_snapshot_revision (wc_snapshot c) ≤ sm_revision (wc_model c) ∧
  (ws_snapshot_revision (wc_snapshot c) = sm_revision (wc_model c) →
   sm_revision (wc_model c) < MAX_SCHEMA_INTEGER → wc_snapshot c = snapshot (wc_model c)).

(** The slots point into the store of targets. *)
Definition signal_wf (g : RevisionSignal) : Prop :=
  (∀ ref, sg_worker g = Some ref → (ref < length (sg_targets g))%nat) ∧
  (∀ ref, sg_projector g = Some ref → (ref < length (sg_targets g))%nat).

Definition worker_slot (g : RevisionSignal) : option Z := slot_generation (sg_worker g) g.

Definition sys_inv (s : System) : Prop :=
  let c := sys_coord s in
  Inv (wc_model c) ∧ snapshot_fresh c ∧ signal_wf (wc_signal c) ∧
  worker_slot (wc_signal c) = sm_active_worker (wc_model c) ∧
  announced s = sm_revision (wc_model c).

(** The worker a call presents. *)
Definition call_owner (o : coord_op) : option RecoveryWorkerOwnership :=
  match o with
  | CWorkerExited w _ | CStartAttempt w _ | CScanStarted w _ _ | CScanCompleted w _ _ _
  | CNativeBoundary w _ _ _ | COfferClose _ w _ _ _ | CDependencyFailure w _ _ _
  | CRestoreAuthority w _ _ | CRetryIfDue w _ => Some w
  | _ => None
  end.

(** ** What a sequential observer expects *)

(** Why the worker fence refuses a call: the worker it presents does not own the
    model. *)
Definition fence_refusal (o : coord_op) (s : RecoveryStateMachine)
    : option RecoveryTransitionError :=
  match call_owner o, sm_active_worker s with
  | None, _ => None
  | Some _, None => Some WorkerUnavailable
  | Some w, Some owner => if decide (owner = w) then None else Some WorkerMismatch
  end.

(** The cause under which a native loss has to be reported: the two losses that
    end the stream and the failed backend have their own, every other one only
    asks for a rescan. *)
Definition expected_cause (loss : WatcherCoverageLoss) : RecoveryCause :=
  match loss with
  | RootChanged => RootReplaced
  | StreamStopped => WatcherDisconnected
  | BackendFailure => RecoverableAdapterLoss
  | _ => NativeRescanRequired
  end.

(** The one reducer operation a call stands for.  A close is offered on the
    boundary sealed for the attempt in flight if that boundary's guard is still
    current, and is turned into a rejection if it is not. *)
Definition intended (o : coord_op) (s : RecoveryStateMachine)
    : Result recovery_op RecoveryTransitionError :=
  match o with
  | CActivity m => Ok (OpActivity m)
  | CSuppressed m => Ok (OpSuppressed m)
  | CLoss cause m => Ok (OpLoss cause m)
  | CNativeCoverage obs m => Ok (OpLoss (expected_cause (obs_loss obs)) m)
  | CReplaceWorker m => Ok (OpReplaceWorker m)
  | CWorkerExited w m => Ok (OpWorkerExited w m)
  | CStartAttempt _ m => Ok (OpStartAttempt m)
  | CScanStarted _ t m => Ok (OpScanStarted t m)
  | CScanCompleted _ t r m => Ok (OpScanCompleted t r m)
  | CNativeBoundary _ t h m => Ok (OpNativeBoundary t h m)
  | COfferClose gens _ t r m =>
      if decide (current_attempt_token s = Some t) then
        match current_native_boundary s with
        | None => Err NativeBoundaryMismatch
        | Some b =>
            Ok (if decide (gens (cg_authority (ho_close_guard (ab_handoff b))) =
                           ct_generation (cg_token (ho_close_guard (ab_handoff b))))
                then OpOfferClose (mkCloseOffer t b r) m
                else OpRejectNativeClose t m)
        end
      else Err AttemptMismatch
  | CDependencyFailure _ t f m => Ok (OpDependencyFailure t f m)
  | CRestoreAuthority _ f m => Ok (OpRestoreMatchingAuthority f m)
  | CRetryIfDue _ m => Ok (OpRetryIfDue m)
  end.

(** The answer to a call on the reducer alone, and the reducer afterwards: a
    call that is refused leaves it as it was. *)
Definition expected (o : coord_op) (s : RecoveryStateMachine)
    : Result outcome RecoveryTransitionError * RecoveryStateMachine :=
  match fence_refusal o s, intended o s with
  | Some e, _ | None, Err e => (Err e, s)
  | None, Ok op => exec op s
  end.

(** What the callers of the coordinator see. *)
Inductive label : Type :=
| Called (o : coord_op) (r : Result outcome WatcherRecoveryCoordinatorError)
| Viewed (v : WatcherRecoverySnapshot)
| Joined (w : RecoveryWorkerOwnership)
    (r : Result WatcherRecoverySnapshot WatcherRecoveryCoordinatorError).

(** A snapshot handed out is the one of the reducer; at the last revision the
    cache may lag behind a terminal block. *)
Definition shows (s : RecoveryStateMachine) (v : WatcherRecoverySnapshot) : Prop :=
  sm_revision s < MAX_SCHEMA_INTEGER → v = snapshot s.

(** One observation of the reducer run by a single thread. *)
Inductive sequential (s : RecoveryStateMachine) : label → RecoveryStateMachine → Prop :=
| SeqAccepted o v s' :
    expected o s = (Ok v, s') → sequential s (Called o (Ok v)) s'
| SeqRefused o e s' :
    expected o s = (Err e, s') → sequential s (Called o (Err (Transition e))) s'
| SeqViewed v : shows s v → sequential s (Viewed v) s
| SeqJoined w v :
    sm_active_worker s = Some w → shows s v → sequential s (Joined w (Ok v)) s
| SeqTaken w :
    sm_active_worker s = Some w →
    sequential s (Joined w (Err (RoleAlreadySubscribed RoleWorker))) s
| SeqRevoked w :
    sm_active_worker s ≠ Some w →
    sequential s (Joined w (Err (SubscriptionRevoked RoleWorker))) s.

Inductive sequential_run (s : RecoveryStateMachine) : list label → RecoveryStateMachine → Prop :=
| seq_start : sequential_run s [] s
| seq_snoc tr l s1 s2 :
    sequential_run s tr s1 → sequential s1 l s2 → sequential_run s (tr ++ [l]) s2.

(** What a step of the interleaved system lets its caller see: the result of a
    call in the order of the lock, and the snapshots handed out. *)
Inductive emits : System → list label → System → Prop :=
| EmitCall o r rev c c' due :
    call o c = ((r, rev), c') →
    emits (mkSystem c due) [Called o r] (mkSystem c' (from_option (λ v, v :: due) due rev))
| EmitPublish c pre v post :
    emits (mkSystem c (pre ++ v :: post)) [] (mkSystem (publish_option (Some v) c) (pre ++ post))
| EmitSnapshot v c c' due :
    materialize_snapshot c = (v, c') → emits (mkSystem c due) [Viewed v] (mkSystem c' due)
| EmitSubscribeWorker w r c c' due :
    subscribe_worker w c = (r, c') →
    emits (mkSystem c due) [Joined w (result_map sub_initial r)] (mkSystem c' due)
| EmitSubscribeProjector p c due :
    emits (mkSystem c due) [] (mkSystem (snd (subscribe_projector p c)) due)
| EmitReplaceProjector c due :
    emits (mkSystem c due) [] (mkSystem (snd (replace_projector c)) due)
| EmitRelease f c due :
    emits (mkSystem c due) [] (mkSystem (c <| wc_signal := release f (wc_signal c) |>) due).

Inductive observed (c0 : Coordinator) : list label → System → Prop :=
| observed_init : observed c0 [] (mkSystem c0 [])
| observed_step tr y l y' : observed c0 tr y → emits y l y' → observed c0 (tr ++ l) y'.

(** A sequence of whole calls, with the results they returned. *)
Fixpoint run_calls (os : list coord_op) (c : Coordinator)
    : list (Result outcome WatcherRecoveryCoordinatorError) * Coordinator :=
  match os with
  | [] => ([], c)
  | o :: os =>
      let '(r, c) := complete (call o) c in
      let '(rs, c) := run_calls os c in (r :: rs, c)
  end.

(** The reducer operation behind a call, if its fences let it through. *)
Definition call_effect (s : RecoveryStateMachine) (r : Result outcome RecoveryTransitionError)
    (s' : RecoveryStateMachine) : Prop :=
  (s' = s ∧ is_ok r = false) ∨ ∃ op, exec op s = (r, s').

(** What a call guarantees of the coordinator it leaves. *)
Definition call_post (c : Coordinator) (r : Result outcome WatcherRecoveryCoordinatorError)
    (rev : option RecoveryRevision) (c' : Coordinator) : Prop :=
  (∃ r0, r = map_transition r0 ∧ call_effect (wc_model c) r0 (wc_model c')) ∧
  rev = published_revision (sm_revision (wc_model c)) (wc_model c') ∧
  wc_snapshot c' = wc_snapshot c ∧ sg_revision (wc_signal c') = sg_revision (wc_signal c) ∧
  signal_wf (wc_signal c') ∧ worker_slot (wc_signal c') = sm_active_worker (wc_model c').

(** A transition that does not change ownership, under a result translation. *)
Definition keeps_owner (s : RecoveryStateMachine) (r : Result outcome RecoveryTransitionError)
    (s' : RecoveryStateMachine) : Prop :=
  call_effect s r s' ∧ sm_active_worker s' = sm_active_worker s.

(** The operations that change worker ownership. *)
Definition changes_worker (o : recovery_op) : bool :=
  match o with OpReplaceWorker _ | OpWorkerExited _ _ => true | _ => false end.

End System.

(** ** Signal lemmas *)

Section SignalLemmas.
Implicit Types (g : RevisionSignal).

(** Updating a target in place keeps every generation. *)
Lemma slot_generation_alter slot g f ref :
  (∀ t, wt_generation (f t) = wt_generation t) →
  slot_generation slot (g <| sg_targets := alter f ref (sg_targets g) |>) = slot_generation slot g.
Proof.
  intros Hf. destruct slot as [r|]; [|done]. cbn. destruct (decide (ref = r)) as [->|Hne].
  - rewrite list_lookup_alter_eq. destruct (sg_targets g !! r); cbn; [by rewrite Hf|done].
  - by rewrite list_lookup_alter_ne.
Qed.

Lemma slot_generation_wake slot target g :
  slot_generation slot (wake target g) = slot_generation slot g.
Proof. destruct target; [by apply slot_generation_alter|done]. Qed.

Lemma wake_frame target g :
  sg_revision (wake target g) = sg_revision g ∧ sg_worker (wake target g) = sg_worker g ∧
  sg_projector (wake target g) = sg_projector g ∧
  length (sg_targets (wake target g)) = length (sg_targets g).
Proof. destruct target; cbn; rewrite ?length_alter; done. Qed.

Lemma wake_wf target g : signal_wf g → signal_wf (wake target g).
Proof. destruct (wake_frame target g) as (_ & E1 & E2 & E3). unfold signal_wf. by rewrite E1, E2, E3. Qed.

Lemma worker_slot_wake target g : worker_slot (wake target g) = worker_slot g.
Proof.
  unfold worker_slot. destruct (wake_frame target g) as (_ & -> & _). apply slot_generation_wake.
Qed.

Lemma publish_facts v g :
  signal_wf g →
  sg_revision (publish_revision v g) = Z.max (sg_revision g) v ∧
  signal_wf (publish_revision v g) ∧ worker_slot (publish_revision v g) = worker_slot g.
Proof.
  intros Hwf. unfold publish_revision. cbn.
  set (g1 := g <| sg_revision := Z.max (sg_revision g) v |>).
  assert (signal_wf g1) as Hwf1 by exact Hwf. assert (worker_slot g1 = worker_slot g) as Hs by done.
  destruct (v <=? sg_revision g); [by split_and!|].
  rewrite !(proj1 (wake_frame _ _)). split_and!; [done|by apply wake_wf, wake_wf|by rewrite !worker_slot_wake].
Qed.

Lemma alloc_wf gen g : signal_wf g → signal_wf (snd (alloc_target gen g)).
Proof.
  intros [H1 H2]. split; cbn; intros r Hr; rewrite length_app; cbn;
    [specialize (H1 r Hr)|specialize (H2 r Hr)]; lia.
Qed.

Lemma slot_generation_alloc slot gen g :
  (∀ ref, slot = Some ref → (ref < length (sg_targets g))%nat) →
  slot_generation slot (snd (alloc_target gen g)) = slot_generation slot g.
Proof.
  destruct slot as [r|]; [|done]. intros Hr. cbn. by rewrite lookup_app_l by (by apply Hr).
Qed.

Lemma install_worker_facts w g :
  signal_wf g →
  sg_revision (install_worker w g) = sg_revision g ∧ signal_wf (install_worker w g) ∧
  worker_slot (install_worker w g) = Some w.
Proof.
  intros Hwf. unfold install_worker. cbn.
  match goal with |- context [wake ?p ?x] => set (g1 := x); set (prev := p) end.
  assert (signal_wf g1) as Hwf1.
  { split; cbn; intros r Hr; rewrite length_app; cbn.
    - injection Hr as <-. lia.
    - destruct Hwf as [_ H2]. specialize (H2 r Hr). lia. }
  destruct (wake_frame prev g1) as (-> & _).
  split_and!; [done|by apply wake_wf|]. rewrite worker_slot_wake.
  unfold worker_slot. cbn. by rewrite lookup_app_r, Nat.sub_diag by lia.
Qed.

Lemma revoke_worker_facts w g :
  signal_wf g → worker_slot g = Some w →
  sg_revision (revoke_worker w g) = sg_revision g ∧ signal_wf (revoke_worker w g) ∧
  worker_slot (revoke_worker w g) = None.
Proof.
  intros Hwf Hs. unfold revoke_worker. unfold worker_slot in Hs.
  rewrite bool_decide_eq_true_2 by done.
  match goal with |- context [wake ?p ?x] => set (g1 := x); set (prev := p) end.
  destruct (wake_frame prev g1) as (-> & _). split_and!; [done| |by rewrite worker_slot_wake].
  apply wake_wf. split; [done|apply Hwf].
Qed.

Lemma release_facts f g :
  sg_revision (release f g) = sg_revision g ∧ worker_slot (release f g) = worker_slot g ∧
  (signal_wf g → signal_wf (release f g)).
Proof.
  unfold release. destruct (fence_slot f g) as [[ref|] gen]; [|done].
  case_bool_decide; [|done]. split_and!; [done|by apply slot_generation_alter|].
  unfold signal_wf. cbn. by rewrite length_alter.
Qed.

Lemma claim_facts slot gen role g :
  let g' := snd (claim slot gen role g) in
  sg_revision g' = sg_revision g ∧ worker_slot g' = worker_slot g ∧ (signal_wf g → signal_wf g').
Proof.
  unfold claim. destruct slot as [ref|]; [|done].
  destruct (sg_targets g !! ref) as [t|] eqn:Ht; [|done].
  destruct (negb _); [done|]. destruct (wt_claimed t); [done|]. cbn.
  split_and!; [done| |unfold signal_wf; cbn; by rewrite length_insert].
  unfold worker_slot, slot_generation. cbn. destruct (sg_worker g) as [r|]; [|done]. cbn.
  destruct (decide (ref = r)) as [->|Hne].
  - rewrite list_lookup_insert_eq by (by eapply lookup_lt_Some). by rewrite Ht.
  - by rewrite list_lookup_insert_ne.
Qed.

Lemma replace_projector_facts g :
  signal_wf g →
  let g' := snd (signal_replace_projector g) in
  sg_revision g' = sg_revision g ∧ signal_wf g' ∧ worker_slot g' = worker_slot g.
Proof.
  intros Hwf. unfold signal_replace_projector.
  destruct (u64_checked_add _ _); [|done]. destruct (prefixed_id_new _ _) eqn:?; [|done]. cbn.
  match goal with |- context [wake ?p ?x] => set (g1 := x); set (prev := p) end.
  destruct (wake_frame prev g1) as (-> & _). rewrite worker_slot_wake. split_and!; [done| |].
  - apply wake_wf. split; cbn; intros r Hr; rewrite length_app; cbn; [|injection Hr as <-; lia].
    destruct Hwf as [H1 _]. specialize (H1 r Hr). lia.
  - unfold worker_slot. cbn. destruct (sg_worker g) as [r|] eqn:Hw; [|done]. cbn.
    destruct Hwf as [H1 _]. by rewrite lookup_app_l by (by apply H1).
Qed.

End SignalLemmas.

(** ** Calls refine reducer operations *)

Section Refinement.
Context `{TimeLib}.
Implicit Types (c : Coordinator) (s : RecoveryStateMachine) (m : RecoveryMoment).

Lemma require_worker_cases w s :
  (sm_active_worker s = Some w ∧ require_worker w s = (Ok tt, s)) ∨
  (sm_active_worker s ≠ Some w ∧ ∃ e, require_worker w s = (Err e, s)).
Proof.
  unfold require_worker. unfold_M. destruct (sm_active_worker s) as [w'|]; [|right; eauto].
  destruct (Z.eqb_spec w' w) as [->|Hne]; [by left|right; split; [congruence|eauto]].
Qed.

Lemma exhausted_worker m s : sm_active_worker (exhausted m s) = sm_active_worker s.
Proof. unfold exhausted, terminal_block, commit. unfold_M. by destruct (sm_incident s). Qed.

Lemma exec_keeps_worker o s :
  Inv s → changes_worker o = false →
  wp (exec o) (λ _ s', sm_active_worker s' = sm_active_worker s) s.
Proof.
  intros HInv Ho. destruct o; try done; unfold_ops; rm_run;
    first [ by rewrite exhausted_worker | watermark_absurd | by destruct (sm_incident s) ].
Qed.

(** Plain and fenced transitions. *)
Lemma plain_effect {A} (f : A → outcome) (x : RM A) op s r s' :
  Inv s → changes_worker op = false →
  exec op = (a ← x; mret (f a)) → x s = (r, s') → keeps_owner s (result_map f r) s'.
Proof.
  intros HInv Hw Hop Heq.
  assert (exec op s = (result_map f r, s')) as He.
  { rewrite Hop. unfold_M. rewrite Heq. by destruct r. }
  split; [right; by exists op|]. by apply (wp_eq _ _ _ _ _ (exec_keeps_worker op s HInv Hw) He).
Qed.

Lemma fenced_effect {A} (f : A → outcome) w (x : RM A) op s r s' :
  Inv s → changes_worker op = false → exec op = (a ← x; mret (f a)) →
  (require_worker w ;; x) s = (r, s') → keeps_owner s (result_map f r) s'.
Proof.
  intros HInv Hw Hop Heq. unfold mbind, M_bind, m_bind in Heq.
  destruct (require_worker_cases w s) as [[_ Hr]|[_ [e Hr]]]; rewrite Hr in Heq.
  - by eapply plain_effect.
  - injection Heq as <- <-. split; [by left|done].
Qed.

Lemma guarded_close_effect gens w t r m s x s' :
  Inv s → (require_worker w ;; guarded_close gens t r m) s = (x, s') →
  keeps_owner s (result_map OutClose x) s'.
Proof.
  intros HInv Heq. unfold mbind, M_bind, m_bind in Heq.
  destruct (require_worker_cases w s) as [[_ Hr]|[_ [e Hr]]]; rewrite Hr in Heq;
    [|injection Heq as <- <-; split; [by left|done]].
  unfold guarded_close in Heq. unfold_M.
  destruct (negb (bool_decide _)); [injection Heq as <- <-; split; [by left|done]|].
  destruct (current_native_boundary s) as [b|];
    [|injection Heq as <- <-; split; [by left|done]]. cbn in Heq.
  destruct (negb (ab_is_current gens b)).
  - by apply (plain_effect OutClose (reject_native_close t m) (OpRejectNativeClose t m)).
  - by apply (plain_effect OutClose (offer_close (mkCloseOffer t b r) m)
                (OpOfferClose (mkCloseOffer t b r) m)).
Qed.

Lemma replace_worker_owner m s :
  Inv s → wp (replace_worker m) (λ r s',
    match r with
    | Ok w => sm_active_worker s' = Some w
    | Err _ => sm_active_worker s' = sm_active_worker s
    end) s.
Proof.
  intros HInv. unfold_ops. rm_run; by destruct (sm_incident s).
Qed.

Lemma worker_exited_owner w m s :
  Inv s → wp (worker_exited w m) (λ r s',
    match r with
    | Ok _ => sm_active_worker s = Some w ∧ sm_active_worker s' = None
    | Err _ => sm_active_worker s' = sm_active_worker s
    end) s.
Proof.
  intros HInv. unfold_ops. rm_run; try done; by destruct (sm_incident s).
Qed.

Lemma map_transition_map {A B} (f : A → B) r :
  result_map f (map_transition r) = map_transition (result_map f r).
Proof. by destruct r. Qed.

Lemma mutate_post {A} (f : A → outcome) (x : RM A) c r rev c' :
  signal_wf (wc_signal c) → worker_slot (wc_signal c) = sm_active_worker (wc_model c) →
  (∀ r0 s', x (wc_model c) = (r0, s') → keeps_owner (wc_model c) (result_map f r0) s') →
  locked_map f (mutate_locked x) c = ((r, rev), c') → call_post c r rev c'.
Proof.
  intros Hwf Hslot Hx Heq. unfold locked_map, mutate_locked in Heq.
  destruct (x (wc_model c)) as [r0 s'] eqn:Hr. destruct (Hx _ _ eq_refl) as [Heff Hown].
  injection Heq as <- <- <-. unfold call_post. cbn.
  split; [|split_and!; (done || congruence)]. exists (result_map f r0).
  split; [apply map_transition_map|done].
Qed.

Lemma replace_post m c r rev c' :
  Inv (wc_model c) → signal_wf (wc_signal c) →
  worker_slot (wc_signal c) = sm_active_worker (wc_model c) →
  locked_map OutWorker (coordinator_replace_worker m) c = ((r, rev), c') → call_post c r rev c'.
Proof.
  intros HInv Hwf Hslot Heq. unfold locked_map, coordinator_replace_worker in Heq.
  pose proof (replace_worker_owner m _ HInv) as Hown. unfold wp in Hown.
  destruct (replace_worker m (wc_model c)) as [r0 s'] eqn:Hr. injection Heq as <- <- <-.
  unfold call_post. cbn. split_and!; try done.
  - exists (result_map OutWorker r0). split; [apply map_transition_map|].
    right. exists (OpReplaceWorker m). cbn. unfold_M. rewrite Hr. by destruct r0.
  - destruct r0 as [w|e]; [by apply install_worker_facts|].
    unfold current_worker_ownership. rewrite Hown.
    by destruct (sm_active_worker (wc_model c)).
  - destruct r0 as [w|e]; [by apply install_worker_facts|].
    unfold current_worker_ownership. rewrite Hown.
    by destruct (sm_active_worker (wc_model c)).
  - destruct r0 as [w|e]; [rewrite Hown; by apply install_worker_facts|].
    unfold current_worker_ownership. rewrite Hown.
    by destruct (sm_active_worker (wc_model c)).
Qed.

Lemma exited_post w m c r rev c' :
  Inv (wc_model c) → signal_wf (wc_signal c) →
  worker_slot (wc_signal c) = sm_active_worker (wc_model c) →
  locked_map OutIncident (coordinator_worker_exited w m) c = ((r, rev), c') → call_post c r rev c'.
Proof.
  intros HInv Hwf Hslot Heq. unfold locked_map, coordinator_worker_exited in Heq.
  pose proof (worker_exited_owner w m _ HInv) as Hown. unfold wp in Hown.
  destruct (worker_exited w m (wc_model c)) as [r0 s'] eqn:Hr. injection Heq as <- <- <-.
  unfold call_post. cbn. split; [|split_and!; try done].
  - exists (result_map OutIncident r0). split; [apply map_transition_map|].
    right. exists (OpWorkerExited w m). cbn. unfold_M. rewrite Hr. by destruct r0.
  - destruct r0; [|done]. destruct Hown as [Ho _].
    by apply revoke_worker_facts; [|rewrite Hslot].
  - destruct r0; [|done]. destruct Hown as [Ho _].
    by apply revoke_worker_facts; [|rewrite Hslot].
  - destruct r0; cbn; [|by rewrite Hown]. destruct Hown as [Ho ->].
    by apply revoke_worker_facts; [|rewrite Hslot].
Qed.

Lemma call_facts o c r rev c' :
  Inv (wc_model c) → signal_wf (wc_signal c) →
  worker_slot (wc_signal c) = sm_active_worker (wc_model c) →
  call o c = ((r, rev), c') → call_post c r rev c'.
Proof.
  intros HInv Hwf Hslot. destruct o; cbn [call];
    try (by apply replace_post || by apply exited_post);
    apply mutate_post; try done; intros rr s'.
  - by apply (plain_effect OutActivity _ (OpActivity m)).
  - by apply (plain_effect OutActivity _ (OpSuppressed m)).
  - by apply (plain_effect OutLoss _ (OpLoss cause m)).
  - by apply (plain_effect OutLoss _ (OpLoss (native_loss_cause (obs_loss observation)) m)).
  - by apply (fenced_effect OutToken w _ (OpStartAttempt m)).
  - by apply (fenced_effect (λ _, OutUnit) w _ (OpScanStarted t m)).
  - by apply (fenced_effect (λ _, OutUnit) w _ (OpScanCompleted t r0 m)).
  - by apply (fenced_effect (λ _, OutUnit) w _ (OpNativeBoundary t h m)).
  - by apply guarded_close_effect.
  - by apply (fenced_effect OutFailure w _ (OpDependencyFailure t f m)).
  - by apply (fenced_effect OutRestored w _ (OpRestoreMatchingAuthority f m)).
  - by apply (fenced_effect OutIncident w _ (OpRetryIfDue m)).
Qed.

End Refinement.

(** ** The invariant of interleaved executions *)

Section Invariant.
Context `{TimeLib}.
Implicit Types (c : Coordinator) (s : RecoveryStateMachine) (m : RecoveryMoment).

Lemma call_effect_facts s r s' :
  Inv s → call_effect s r s' →
  Inv s' ∧ sm_revision s ≤ sm_revision s' ∧ snapshot_step s s' ∧
  (is_ok r = true → sm_revision s' = sm_revision s + 1).
Proof.
  intros HInv [[-> Hr]|[op Hop]].
  { split_and!; [done|done|by unfold snapshot_step|by rewrite Hr]. }
  pose proof (wp_eq _ _ _ _ _ (exec_step_facts op s HInv) Hop) as (Hle & _ & _ & _ & Hok).
  split_and!; [|done| |].
  - by apply (wp_eq _ _ _ _ _ (exec_Inv op s HInv) Hop).
  - by apply (wp_eq _ _ _ _ _ (exec_snapshot_step op s HInv) Hop).
  - destruct r as [[]|]; try done; by destruct Hok.
Qed.

Lemma announced_le a due : a ≤ foldr Z.max a due.
Proof. induction due as [|v due IH]; cbn; lia. Qed.

Lemma announced_publish a v pre post :
  foldr Z.max (Z.max a v) (pre ++ post) = foldr Z.max a (pre ++ v :: post).
Proof.
  induction pre as [|w pre IH]; cbn; [|by rewrite IH].
  induction post as [|w post IH]; cbn; lia.
Qed.

Lemma snapshot_fresh_step c c' :
  snapshot_fresh c → wc_snapshot c' = wc_snapshot c →
  sm_revision (wc_model c) ≤ sm_revision (wc_model c') →
  snapshot_step (wc_model c) (wc_model c') → snapshot_fresh c'.
Proof.
  intros [Hle Hfresh] Hs Hmono Hstep. unfold snapshot_fresh. rewrite Hs. split; [lia|].
  intros Heq Hlt. assert (sm_revision (wc_model c') = sm_revision (wc_model c)) as Hrev by lia.
  rewrite (Hstep Hrev) by lia. apply Hfresh; lia.
Qed.

Lemma materialize_model c : wc_model (snd (materialize_snapshot c)) = wc_model c ∧
  wc_signal (snd (materialize_snapshot c)) = wc_signal c.
Proof. unfold materialize_snapshot. by destruct (negb _). Qed.

Lemma materialize_fresh c : snapshot_fresh c → snapshot_fresh (snd (materialize_snapshot c)).
Proof.
  intros Hf. unfold materialize_snapshot. destruct (negb _); [|done]. unfold snapshot_fresh. cbn.
  rewrite snapshot_revision. done.
Qed.

(** A step that touches only the signal, and not the worker slot or revision. *)
Lemma sys_inv_signal c g due c' :
  sys_inv (mkSystem c due) → wc_model c' = wc_model c → snapshot_fresh c' → wc_signal c' = g →
  sg_revision g = sg_revision (wc_signal c) → worker_slot g = worker_slot (wc_signal c) →
  signal_wf g → sys_inv (mkSystem c' due).
Proof.
  intros (HInv & _ & _ & Hslot & Hann) Hm Hf <- Hr Hs Hwf. unfold sys_inv, announced in *. cbn in *.
  rewrite Hm, Hr, Hs. by split_and!.
Qed.

Lemma claim_inv c slot gen role due :
  sys_inv (mkSystem c due) →
  sys_inv (mkSystem (c <| wc_signal := snd (claim slot gen role (wc_signal c)) |>) due).
Proof.
  intros Hinv. destruct (claim_facts slot gen role (wc_signal c)) as (H1 & H2 & H3).
  pose proof Hinv as (_ & Hf & Hwf & _). eapply sys_inv_signal; [exact Hinv|done..|by apply H3].
Qed.

Lemma sys_inv_materialize c due :
  sys_inv (mkSystem c due) → sys_inv (mkSystem (snd (materialize_snapshot c)) due).
Proof.
  intros Hinv. pose proof Hinv as (_ & Hf & Hwf & _). destruct (materialize_model c) as [Hm Hg].
  eapply sys_inv_signal; [exact Hinv|done|by apply materialize_fresh|exact Hg|done..].
Qed.

Lemma subscribe_worker_inv w c due :
  sys_inv (mkSystem c due) → sys_inv (mkSystem (snd (subscribe_worker w c)) due).
Proof.
  intros Hinv. unfold subscribe_worker. destruct (result_of _ _); [|done].
  apply sys_inv_materialize in Hinv. destruct (materialize_snapshot c) as [i c1]. cbn in Hinv.
  pose proof (claim_inv c1 (sg_worker (wc_signal c1)) w RoleWorker due Hinv) as Hc.
  by destruct (claim _ _ _ _) as [[] g].
Qed.

Lemma subscribe_projector_inv p c due :
  sys_inv (mkSystem c due) → sys_inv (mkSystem (snd (subscribe_projector p c)) due).
Proof.
  intros Hinv. unfold subscribe_projector.
  apply sys_inv_materialize in Hinv. destruct (materialize_snapshot c) as [i c1]. cbn in Hinv.
  pose proof (claim_inv c1 (sg_projector (wc_signal c1)) p RoleProjector due Hinv) as Hc.
  by destruct (claim _ _ _ _) as [[] g].
Qed.

(** Subscribing touches neither the model nor the published revision. *)
Lemma subscribe_worker_frame w c :
  wc_model (snd (subscribe_worker w c)) = wc_model c ∧
  sg_revision (wc_signal (snd (subscribe_worker w c))) = sg_revision (wc_signal c).
Proof.
  unfold subscribe_worker. destruct (result_of _ _); [|done].
  destruct (materialize_model c) as [Hm Hg]. destruct (materialize_snapshot c) as [i c1].
  pose proof (claim_facts (sg_worker (wc_signal c1)) w RoleWorker (wc_signal c1)) as (Hc & _).
  destruct (claim _ _ _ _) as [[] g]; cbn in *; split; congruence.
Qed.

Lemma subscribe_projector_frame p c :
  wc_model (snd (subscribe_projector p c)) = wc_model c ∧
  sg_revision (wc_signal (snd (subscribe_projector p c))) = sg_revision (wc_signal c).
Proof.
  unfold subscribe_projector.
  destruct (materialize_model c) as [Hm Hg]. destruct (materialize_snapshot c) as [i c1].
  pose proof (claim_facts (sg_projector (wc_signal c1)) p RoleProjector (wc_signal c1)) as (Hc & _).
  destruct (claim _ _ _ _) as [[] g]; cbn in *; split; congruence.
Qed.

Lemma call_inv o c r rev c' due :
  sys_inv (mkSystem c due) → call o c = ((r, rev), c') →
  sys_inv (mkSystem c' (from_option (λ v, v :: due) due rev)).
Proof.
  intros (HInv & Hf & Hwf & Hslot & Hann) Hcall. cbn in *.
  destruct (call_facts o c r rev c' HInv Hwf Hslot Hcall)
    as ((r0 & _ & Heff) & -> & Hsnap & Hrev & Hwf' & Hslot').
  destruct (call_effect_facts _ _ _ HInv Heff) as (HInv' & Hmono & Hstep & _).
  split_and!; cbn; try done; [by eapply snapshot_fresh_step|].
  unfold announced in *. cbn in *. rewrite Hrev. unfold published_revision.
  destruct (Z.eqb_spec (sm_revision (wc_model c')) (sm_revision (wc_model c))); cbn; lia.
Qed.

Lemma step_inv (s s' : System) : sys_inv s → step s s' → sys_inv s'.
Proof.
  intros Hinv Hstep. destruct Hstep.
  - by eapply call_inv.
  - pose proof Hinv as (HInv & Hf & Hwf & Hslot & Hann).
    destruct (publish_facts v (wc_signal c) Hwf) as (Hr & Hwf' & Hs).
    split_and!; cbn; try done; [by rewrite Hs|].
    unfold announced in *. cbn in *. by rewrite Hr, announced_publish.
  - by apply sys_inv_materialize.
  - by apply subscribe_worker_inv.
  - by apply subscribe_projector_inv.
  - pose proof Hinv as (_ & Hf & Hwf & _).
    destruct (replace_projector_facts (wc_signal c) Hwf) as (H1 & H2 & H3).
    unfold replace_projector. destruct (signal_replace_projector (wc_signal c)) as [x g].
    by eapply sys_inv_signal.
  - pose proof Hinv as (_ & Hf & Hwf & _). destruct (release_facts f (wc_signal c)) as (H1 & H2 & H3).
    eapply sys_inv_signal; [exact Hinv|done..|by apply H3].
Qed.

Lemma startup_inv src m p : sys_inv (mkSystem (coordinator_startup src m p) []).
Proof.
  split_and!; cbn; try done; try apply startup_Inv.
Qed.

Lemma reachable_inv src m p (s : System) : reachable (coordinator_startup src m p) s → sys_inv s.
Proof. induction 1; [apply startup_inv|by eapply step_inv]. Qed.

End Invariant.

(** ** The interleaved system against the sequential one *)

Section Observations.
Context `{TimeLib}.
Implicit Types (c : Coordinator) (s : RecoveryStateMachine) (m : RecoveryMoment) (y : System).

Lemma emits_step y l y' : emits y l y' → step y y'.
Proof.
  destruct 1 as [o r rev c c' due Hcall| |v c c' due Hv|w r c c' due Hw| | |]; try by constructor.
  - by eapply StepCall.
  - change c' with (snd (v, c')). rewrite <-Hv. constructor.
  - change c' with (snd (r, c')). rewrite <-Hw. constructor.
Qed.

Lemma observed_reachable c0 tr y : observed c0 tr y → reachable c0 y.
Proof. induction 1; [constructor|eapply reach_step; [done|by eapply emits_step]]. Qed.

(** Every execution has an observation: none escapes the refinement. *)
Lemma reachable_observed c0 y : reachable c0 y → ∃ tr, observed c0 tr y.
Proof.
  induction 1 as [|y y' _ [tr IH] Hstep]; [eexists; constructor|].
  assert (∃ l, emits y l y') as [l Hl]; [|eexists; by eapply observed_step].
  destruct Hstep; eexists;
    first [ by eapply EmitCall | by constructor | apply EmitSnapshot, surjective_pairing
          | apply EmitSubscribeWorker, surjective_pairing ].
Qed.

Lemma sequential_call o s r s' :
  expected o s = (r, s') → sequential s (Called o (map_transition r)) s'.
Proof. destruct r; [apply SeqAccepted|apply SeqRefused]. Qed.

Lemma cause_expected loss : native_loss_cause loss = expected_cause loss.
Proof. by destruct loss. Qed.

(** The fence of the code and the fence of the observer agree. *)
Lemma require_worker_refusal o w s :
  call_owner o = Some w →
  require_worker w s = (match fence_refusal o s with Some e => Err e | None => Ok tt end, s).
Proof.
  intros Ho. unfold require_worker, fence_refusal. rewrite Ho. unfold_M.
  destruct (sm_active_worker s) as [w'|]; [|done].
  destruct (Z.eqb_spec w' w) as [->|Hne]; [by rewrite decide_True|by rewrite decide_False].
Qed.

Lemma expected_exec {A} (f : A → outcome) (x : RM A) o op s r s' :
  fence_refusal o s = None → intended o s = Ok op → exec op = (a ← x; mret (f a)) →
  x s = (r, s') → expected o s = (result_map f r, s').
Proof.
  intros Hf Hi Hop Hx. unfold expected. rewrite Hf, Hi, Hop. unfold_M. rewrite Hx. by destruct r.
Qed.

Lemma expected_fenced {A} (f : A → outcome) w (x : RM A) o op s r s' :
  call_owner o = Some w → intended o s = Ok op → exec op = (a ← x; mret (f a)) →
  (require_worker w ;; x) s = (r, s') → expected o s = (result_map f r, s').
Proof.
  intros Ho Hi Hop Hx. unfold mbind, M_bind, m_bind in Hx.
  rewrite (require_worker_refusal o w s Ho) in Hx.
  destruct (fence_refusal o s) as [e|] eqn:Hf; [|by eapply expected_exec].
  injection Hx as <- <-. unfold expected. by rewrite Hf.
Qed.

Lemma expected_close gens w t rv m s r s' :
  (require_worker w ;; guarded_close gens t rv m) s = (r, s') →
  expected (COfferClose gens w t rv m) s = (result_map OutClose r, s').
Proof.
  set (o := COfferClose gens w t rv m). intros Hx. unfold mbind, M_bind, m_bind in Hx.
  rewrite (require_worker_refusal o w s eq_refl) in Hx.
  destruct (fence_refusal o s) as [e|] eqn:Hf; [injection Hx as <- <-; unfold expected; by rewrite Hf|].
  unfold guarded_close, ab_is_current, is_current in Hx. unfold_M.
  destruct (decide (current_attempt_token s = Some t)) as [Ht|Ht];
    [rewrite bool_decide_eq_true_2 in Hx by done|rewrite bool_decide_eq_false_2 in Hx by done];
    cbn in Hx.
  2:{ injection Hx as <- <-. unfold expected. rewrite Hf. cbn. by rewrite decide_False. }
  destruct (current_native_boundary s) as [b|] eqn:Hb; cbn in Hx.
  2:{ injection Hx as <- <-. unfold expected. rewrite Hf. cbn. by rewrite decide_True, Hb. }
  destruct (Z.eqb_spec (gens (cg_authority (ho_close_guard (ab_handoff b))))
              (ct_generation (cg_token (ho_close_guard (ab_handoff b))))) as [Hc|Hc]; cbn in Hx.
  - eapply (expected_exec OutClose _ o (OpOfferClose (mkCloseOffer t b rv) m)); [done| |done|done].
    cbn. by rewrite decide_True, Hb, decide_True.
  - eapply (expected_exec OutClose _ o (OpRejectNativeClose t m)); [done| |done|done].
    cbn. by rewrite decide_True, Hb, decide_False.
Qed.

Lemma mutate_expected {A} (f : A → outcome) (x : RM A) o c r rev c' :
  (∀ r0 s', x (wc_model c) = (r0, s') → expected o (wc_model c) = (result_map f r0, s')) →
  locked_map f (mutate_locked x) c = ((r, rev), c') →
  sequential (wc_model c) (Called o r) (wc_model c').
Proof.
  intros Hx Heq. unfold locked_map, mutate_locked in Heq.
  destruct (x (wc_model c)) as [r0 s'] eqn:Hr. injection Heq as <- _ <-.
  rewrite map_transition_map. by apply sequential_call, Hx.
Qed.

(** Every call answers, and leaves its model, as the observer expects. *)
Lemma call_expected o c r rev c' :
  call o c = ((r, rev), c') → sequential (wc_model c) (Called o r) (wc_model c').
Proof.
  destruct o; cbn [call]; try (apply mutate_expected; intros r1 s').
  - by apply (expected_exec OutActivity _ _ (OpActivity m)).
  - by apply (expected_exec OutActivity _ _ (OpSuppressed m)).
  - by apply (expected_exec OutLoss _ _ (OpLoss cause m)).
  - rewrite cause_expected.
    by apply (expected_exec OutLoss _ _ (OpLoss (expected_cause (obs_loss observation)) m)).
  - unfold locked_map, coordinator_replace_worker.
    destruct (replace_worker m (wc_model c)) as [r1 s1] eqn:Hr. injection 1 as <- _ <-. cbn.
    rewrite map_transition_map. apply sequential_call.
    by apply (expected_exec OutWorker (replace_worker m) _ (OpReplaceWorker m)).
  - unfold locked_map, coordinator_worker_exited.
    destruct (worker_exited w m (wc_model c)) as [r1 s1] eqn:Hr. injection 1 as <- _ <-. cbn.
    rewrite map_transition_map. apply sequential_call. set (o := CWorkerExited w m).
    destruct (fence_refusal o (wc_model c)) as [e|] eqn:Hf;
      [|by apply (expected_exec OutIncident (worker_exited w m) _ (OpWorkerExited w m))].
    unfold worker_exited in Hr. unfold mbind at 1, M_bind, m_bind in Hr.
    rewrite (require_worker_refusal o w _ eq_refl), Hf in Hr. injection Hr as <- <-.
    unfold expected. by rewrite Hf.
  - by apply (expected_fenced OutToken w _ _ (OpStartAttempt m)).
  - by apply (expected_fenced (λ _, OutUnit) w _ _ (OpScanStarted t m)).
  - by apply (expected_fenced (λ _, OutUnit) w _ _ (OpScanCompleted t r0 m)).
  - by apply (expected_fenced (λ _, OutUnit) w _ _ (OpNativeBoundary t h m)).
  - by apply expected_close.
  - by apply (expected_fenced OutFailure w _ _ (OpDependencyFailure t f m)).
  - by apply (expected_fenced OutRestored w _ _ (OpRestoreMatchingAuthority f m)).
  - by apply (expected_fenced OutIncident w _ _ (OpRetryIfDue m)).
Qed.

Lemma materialize_shows c v c' :
  snapshot_fresh c → materialize_snapshot c = (v, c') → shows (wc_model c) v.
Proof.
  intros [_ Hf] Heq Hlt. unfold materialize_snapshot in Heq.
  destruct (Z.eqb_spec (ws_snapshot_revision (wc_snapshot c)) (sm_revision (wc_model c)));
    injection Heq as <- <-; [by apply Hf|done].
Qed.

(** The owner of the model finds the slot of the signal under its own name. *)
Lemma claim_owned c w :
  worker_slot (wc_signal c) = Some w →
  (∃ ref, fst (claim (sg_worker (wc_signal c)) w RoleWorker (wc_signal c)) = Ok ref) ∨
  fst (claim (sg_worker (wc_signal c)) w RoleWorker (wc_signal c)) =
    Err (RoleAlreadySubscribed RoleWorker).
Proof.
  unfold worker_slot, slot_generation, claim. destruct (sg_worker (wc_signal c)) as [ref|]; [|done].
  cbn. destruct (sg_targets (wc_signal c) !! ref) as [t|]; [|done]. cbn. intros [= ->].
  rewrite Z.eqb_refl. cbn. destruct (wt_claimed t); cbn; eauto.
Qed.

Lemma subscribe_expected w c r c' due :
  sys_inv (mkSystem c due) → subscribe_worker w c = (r, c') →
  sequential (wc_model c) (Joined w (result_map sub_initial r)) (wc_model c').
Proof.
  intros (_ & Hfresh & _ & Hslot & _) Heq. cbn in *.
  assert (wc_model c' = wc_model c) as ->.
  { change c' with (snd (r, c')). rewrite <-Heq. apply subscribe_worker_frame. }
  unfold subscribe_worker, result_of in Heq.
  destruct (require_worker_cases w (wc_model c)) as [[Hw Hr]|[Hw [e Hr]]]; rewrite Hr in Heq;
    cbn [fst] in Heq; [|injection Heq as <- <-; by apply SeqRevoked].
  destruct (materialize_snapshot c) as [v c1] eqn:Hv.
  assert (wc_signal c1 = wc_signal c) as Hg.
  { change c1 with (snd (v, c1)). rewrite <-Hv. apply materialize_model. }
  rewrite Hg in Heq. rewrite Hw in Hslot.
  destruct (claim_owned c w Hslot) as [[ref Hc]|Hc];
    destruct (claim _ _ _ _) as [r1 g]; cbn in Hc; subst r1; injection Heq as <- <-.
  - apply SeqJoined; [done|by eapply materialize_shows].
  - by apply SeqTaken.
Qed.

(** One step of the interleaved system is at most one observation of the
    sequential one. *)
Lemma emits_sequential y l y' :
  sys_inv y → emits y l y' →
  (l = [] ∧ wc_model (sys_coord y') = wc_model (sys_coord y)) ∨
  ∃ o, l = [o] ∧ sequential (wc_model (sys_coord y)) o (wc_model (sys_coord y')).
Proof.
  intros Hinv Hstep. destruct Hstep as [o r rev c c' due Hcall| |v c c' due Hv|w r c c' due Hw|p c due|c due|];
    cbn [sys_coord]; try (by left).
  - right. eexists. split; [done|]. by eapply call_expected.
  - right. eexists. split; [done|].
    assert (wc_model c' = wc_model c) as ->.
    { change c' with (snd (v, c')). rewrite <-Hv. apply materialize_model. }
    apply SeqViewed. eapply materialize_shows; [apply Hinv|done].
  - right. eexists. split; [done|]. by eapply subscribe_expected.
  - left. split; [done|]. apply subscribe_projector_frame.
  - left. split; [done|]. unfold replace_projector. by destruct (signal_replace_projector _).
Qed.

End Observations.

(** ** Theorems *)

Section Theorems.
Context `{TimeLib}.
Implicit Types (c : Coordinator) (m : RecoveryMoment) (y : System).

(** One whole call: it keeps the invariant, never lowers the revision, and either
    fails or advances it. *)
Lemma complete_facts o c due r c' :
  sys_inv (mkSystem c due) → complete (call o) c = (r, c') →
  sys_inv (mkSystem c' due) ∧ sm_revision (wc_model c) ≤ sm_revision (wc_model c') ∧
  snapshot_step (wc_model c) (wc_model c') ∧
  (is_ok r = true → sm_revision (wc_model c') = sm_revision (wc_model c) + 1).
Proof.
  intros Hinv Heq. unfold complete in Heq.
  destruct (call o c) as [[r0 rev] c1] eqn:Hcall. injection Heq as -> <-.
  pose proof Hinv as (HInv & _ & Hwf & Hslot & _). cbn in HInv.
  destruct (call_facts o c r rev c1 HInv Hwf Hslot Hcall) as ((r1 & -> & Heff) & _).
  destruct (call_effect_facts _ _ _ HInv Heff) as (_ & Hmono & Hstep & Hok).
  pose proof (call_inv o c _ rev c1 due Hinv Hcall) as Hinv1.
  assert (wc_model (publish_option rev c1) = wc_model c1) as -> by (by destruct rev).
  split_and!; [|done|done|by destruct r1].
  destruct rev as [v|]; [|done]. exact (step_inv _ _ Hinv1 (StepPublish c1 [] v due)).
Qed.

Lemma run_calls_facts os c due rs c' :
  sys_inv (mkSystem c due) → run_calls os c = (rs, c') →
  sm_revision (wc_model c) ≤ sm_revision (wc_model c') ∧
  (sm_revision (wc_model c') = sm_revision (wc_model c) →
   sm_revision (wc_model c) < MAX_SCHEMA_INTEGER →
   Forall (λ r, is_ok r = false) rs ∧ snapshot (wc_model c') = snapshot (wc_model c)).
Proof.
  revert c rs. induction os as [|o os IH]; intros c rs Hinv Heq; cbn in Heq.
  { injection Heq as <- <-. by split. }
  destruct (complete (call o) c) as [r c1] eqn:Ho.
  destruct (run_calls os c1) as [rs' c2] eqn:Hos. injection Heq as <- <-.
  destruct (complete_facts o c due r c1 Hinv Ho) as (Hinv1 & Hle & Hstep & Hok).
  destruct (IH c1 rs' Hinv1 Hos) as (Hle' & Hrest). split; [lia|]. intros Heq Hlt.
  destruct Hrest as [Hrs Hsnap]; [lia..|]. rewrite Hsnap, Hstep by lia. split; [|done].
  constructor; [|done]. destruct (is_ok r); [|done]. specialize (Hok eq_refl). lia.
Qed.

(** What a closing [offer_close] of the coordinator has checked. *)
Lemma offer_close_guarded c gens w t r m rc rev c' :
  Inv (wc_model c) →
  coordinator_offer_close gens w t r m c = ((Ok (Closed rc), rev), c') →
  ab_is_current gens (rc_native_boundary rc) = true ∧
  current_native_boundary (wc_model c) = Some (rc_native_boundary rc) ∧
  sm_active_worker (wc_model c) = Some w ∧ current_attempt_token (wc_model c) = Some t ∧
  rc_authoritative_scan_revision rc = r ∧
  sm_incident (wc_model c') = None ∧ last_completed_receipt (wc_model c') = Some rc.
Proof.
  intros HInv Hclose. set (s := wc_model c) in *.
  unfold coordinator_offer_close, mutate_locked, mbind, M_bind, m_bind in Hclose. fold s in Hclose.
  destruct (require_worker_cases w s) as [[Hw Hr]|[_ [e Hr]]]; rewrite Hr in Hclose; [|done].
  unfold guarded_close in Hclose. unfold_M. case_bool_decide as Ht; [|done]. cbn in Hclose.
  destruct (current_native_boundary s) as [b|] eqn:Hb; [|done]. cbn in Hclose.
  destruct (ab_is_current gens b) eqn:Hcur; cbn in Hclose.
  - destruct (offer_close _ m s) as [[d|] s'] eqn:Ho; [|done]. injection Hclose as -> <- <-.
    pose proof (offer_close_closes _ _ _ _ _ HInv Ho)
      as (i & a & b' & Hi & Ha & _ & _ & _ & Hnb & _ & _ & _ & _ & -> & _ & ->).
    destruct (incident_ok_current _ _ _ (proj2 (proj2 HInv) i Hi) Ha) as ((_ & _ & _ & Hcov) & _).
    unfold current_native_boundary in Hb. rewrite Hi in Hb. rewrite <-Hcov, Hnb in Hb.
    injection Hb as ->. cbn. split_and!; done.
  - destruct (reject_native_close t m s) as [[d|] s'] eqn:Ho; [|done].
    injection Hclose as -> _ _. exfalso.
    cut (wp (reject_native_close t m) (λ x _, ∀ rc, x ≠ Ok (Closed rc)) s).
    { intros Hwp. by apply (wp_eq _ _ _ _ _ Hwp Ho rc). }
    unfold_ops. rm_run.
Qed.

(** C14: Refinement: the threads of the daemon see the reducer as if one thread
    ran it.  Take any interleaving of locked sections, late publications,
    subscriptions and releases from startup, and the observations it makes: each
    call with the result it returned, in lock order, and each snapshot handed
    out.  Then the reducer alone makes the same observations in the same order
    and ends in the coordinator's model: a call that presents a worker other than
    the owner is refused, unavailable or mismatched, and changes nothing; every
    other call is its one reducer operation, a native loss under the cause its
    kind prescribes, a close on the boundary sealed for the attempt in flight
    while that boundary's guard is current and a rejection otherwise; snapshots
    are those of the reducer below the last revision; only the owner joins, and
    it is never told that it has been revoked. *)
Theorem coordinator_refines_reducer src m p tr y :
  observed (coordinator_startup src m p) tr y →
  sequential_run (startup_reconciliation src m p) tr (wc_model (sys_coord y)).
Proof.
  induction 1 as [|tr y l y' Hobs IH Hstep]; [constructor|].
  apply observed_reachable, reachable_inv in Hobs.
  destruct (emits_sequential y l y' Hobs Hstep) as [[-> ->]|(o & -> & Hseq)].
  - by rewrite app_nil_r.
  - by eapply seq_snoc.
Qed.

(** The coalesced snapshot cache is transparent: at every moment a reader gets
    the snapshot of the current model, as long as the revision is not exhausted. *)
Theorem snapshot_cache_transparent src m p y :
  reachable (coordinator_startup src m p) y →
  sm_revision (wc_model (sys_coord y)) < MAX_SCHEMA_INTEGER →
  fst (materialize_snapshot (sys_coord y)) = snapshot (wc_model (sys_coord y)).
Proof.
  intros Hreach Hrev. destruct (reachable_inv _ _ _ _ Hreach) as (_ & [_ Hf] & _).
  unfold materialize_snapshot. destruct (Z.eqb_spec
    (ws_snapshot_revision (wc_snapshot (sys_coord y))) (sm_revision (wc_model (sys_coord y))));
    cbn; [by apply Hf|done].
Qed.

(** The advisory revision never runs ahead of the model, never regresses, and
    equals the model's revision once no publication is outstanding, however the
    late publishers are ordered. *)
Theorem revision_published src m p y y' :
  reachable (coordinator_startup src m p) y → step y y' →
  sg_revision (wc_signal (sys_coord y)) ≤ sm_revision (wc_model (sys_coord y)) ∧
  sg_revision (wc_signal (sys_coord y)) ≤ sg_revision (wc_signal (sys_coord y')) ∧
  (sys_due y = [] → sg_revision (wc_signal (sys_coord y)) = sm_revision (wc_model (sys_coord y))).
Proof.
  intros Hreach Hstep.
  pose proof (reachable_inv _ _ _ _ Hreach) as (HInv & _ & Hwf & Hslot & Hann).
  split_and!.
  - rewrite <-Hann. apply announced_le.
  - destruct Hstep; cbn [sys_coord sys_due] in *; try (cbn; lia).
    + destruct (call_facts o c r rev c' HInv Hwf Hslot ltac:(done)) as (_ & _ & _ & -> & _). lia.
    + destruct (publish_facts v (wc_signal c) Hwf) as (Hp & _). cbn in *. lia.
    + destruct (materialize_model c) as [_ ->]. lia.
    + destruct (subscribe_worker_frame w c) as [_ ->]. lia.
    + destruct (subscribe_projector_frame p0 c) as [_ ->]. lia.
    + destruct (replace_projector_facts (wc_signal c) Hwf) as (Hr & _).
      unfold replace_projector. destruct (signal_replace_projector _). cbn in *. lia.
    + destruct (release_facts f (wc_signal c)) as (Hr & _). cbn in *. lia.
  - intros Hdue. unfold announced in Hann. by rewrite Hdue in Hann.
Qed.

(** The worker slot of the signal always names the worker that owns the
    model, so a worker subscription is revoked exactly when its worker has been
    replaced or has exited, and what it receives is a revision newer than the
    last it saw and no newer than the model's. *)
Theorem worker_subscription_fenced src m p y sub w :
  reachable (coordinator_startup src m p) y → sub_fence sub = FenceWorker w →
  let g := wc_signal (sys_coord y) in let s := wc_model (sys_coord y) in
  (fst (try_recv g sub) = Err Revoked ↔ sm_active_worker s ≠ Some w) ∧
  (∀ rev, fst (try_recv g sub) = Ok rev →
     sub_last_seen sub < rev ≤ sm_revision s ∧ sub_last_seen (snd (try_recv g sub)) = rev).
Proof.
  intros Hreach Hfence g s.
  pose proof (reachable_inv _ _ _ _ Hreach) as (HInv & _ & Hwf & Hslot & Hann).
  fold g in Hslot. fold s in Hslot.
  unfold try_recv, admit_revision, require_current, fence_is_current. rewrite Hfence. cbn.
  change (slot_generation (sg_worker g) g) with (worker_slot g). rewrite Hslot.
  pose proof (announced_le (sg_revision g) (sys_due y)) as Hle. unfold announced in Hann.
  fold g in Hann. fold s in Hann. rewrite Hann in Hle.
  case_bool_decide as Hcur; cbn; [|split; [by split|done]].
  destruct (Z.leb_spec (sg_revision g) (sub_last_seen sub)); cbn; (split; [by split|]); [done|].
  intros rev [= <-]. split; [lia|done].
Qed.

(** A stale worker cannot touch the coordinator: a call presenting any other
    worker than the one that owns the model fails, and changes neither the
    model, nor the snapshot, nor the signal, and publishes nothing. *)
Theorem stale_worker_refused o w c :
  call_owner o = Some w → sm_active_worker (wc_model c) ≠ Some w →
  ∃ e, call o c = ((Err (Transition e), None), c).
Proof.
  intros Ho Hne. destruct (require_worker_cases w (wc_model c)) as [[? _]|[_ [e Hr]]]; [done|].
  destruct o; cbn in Ho; try done; injection Ho as ->; cbn [call]; exists e;
    unfold locked_map, coordinator_worker_exited, coordinator_start_attempt,
      coordinator_record_scan_started, coordinator_record_scan_completed,
      coordinator_record_native_boundary, coordinator_offer_close,
      coordinator_record_dependency_failure, coordinator_restore_matching_authority,
      coordinator_retry_if_due, worker_exited, mutate_locked, published_revision, mbind,
      M_bind, m_bind; rewrite Hr; rewrite Z.eqb_refl; cbn; by destruct c.
Qed.

(** C33: A closure needs native evidence that is still current.  Let the sealed
    boundary carry a guard issued by the watcher's identity domain at generation
    [g].  Once that domain has observed a native loss, no [offer_close] of this
    boundary closes the incident, whatever the domain does afterwards. *)
Theorem native_loss_prevents_close src m0 p y w t r m b ids bid g before ep l after others rc rev c' :
  reachable (coordinator_startup src m0 p) y →
  current_native_boundary (wc_model (sys_coord y)) = Some b →
  ids_wf ids → g ≤ current_authority_generation (ids_run ids before) →
  close_guard_at ids bid g = Ok (ho_close_guard (ab_handoff b)) →
  let ids' := ids_run (observe_native_loss (ids_run ids before) ep l) after in
  coordinator_offer_close (ids_generations ids' others) w t r m (sys_coord y)
    ≠ ((Ok (Closed rc), rev), c').
Proof.
  intros Hreach Hb Hwf Hle Hguard ids' Hclose.
  pose proof (reachable_inv _ _ _ _ Hreach) as (HInv & _).
  destruct (offer_close_guarded _ _ _ _ _ _ _ _ _ HInv Hclose) as (Hcur & Hb' & _).
  rewrite Hb in Hb'. injection Hb' as ->. unfold ab_is_current, ids' in Hcur.
  by rewrite (loss_revokes_guard ids bid g _ before ep l after others Hwf Hle Hguard) in Hcur.
Qed.

(** C32: The exact barrier.  If a frontier was captured and later linearizes, then
    every coordinator call in between failed, the observable state is the one
    that was captured, and the attestation names that frontier. *)
Theorem linearize_exact src m p y os f rs c2 att :
  reachable (coordinator_startup src m p) y →
  capture_nominal_frontier (sys_coord y) = Ok f →
  run_calls os (sys_coord y) = (rs, c2) → linearize_nominal f c2 = Ok att →
  Forall (λ r, is_ok r = false) rs ∧
  snapshot (wc_model c2) = snapshot (wc_model (sys_coord y)) ∧ ra_frontier att = f.
Proof.
  intros Hreach Hcap Hrun Hlin. pose proof (reachable_inv _ _ _ _ Hreach) as Hinv.
  pose proof Hinv as ((Hb & Hex & _) & _). unfold capture_nominal_frontier in Hcap.
  unfold linearize_nominal in Hlin.
  destruct (nominal_frontier (wc_model (sys_coord y))) as [f1|] eqn:Hf1; [|done].
  destruct (nominal_frontier (wc_model c2)) as [f2|] eqn:Hf2; [|done]. injection Hcap as ->.
  case_bool_decide; [done|]. subst f2. injection Hlin as <-.
  assert (sm_revision (wc_model c2) = sm_revision (wc_model (sys_coord y))) as Hrev.
  { unfold nominal_frontier in *. repeat case_match; simplify_eq/=. congruence. }
  assert (sm_revision (wc_model (sys_coord y)) < MAX_SCHEMA_INTEGER) as Hlt.
  { unfold counters_bounded in Hb. unfold exhausted_blocked in Hex.
    destruct (decide (sm_revision (wc_model (sys_coord y)) = MAX_SCHEMA_INTEGER)) as [He|]; [|lia].
    destruct (Hex He) as (i & ? & Hi & _). unfold nominal_frontier in Hf1. by rewrite Hi in Hf1. }
  destruct y as [c due]. destruct (run_calls_facts os c due rs c2 Hinv Hrun) as [_ Hall].
  by destruct (Hall Hrev Hlt).
Qed.

(** Sequential calls reach a quiescent system. *)
Lemma reachable_calls c0 os c :
  reachable c0 (mkSystem c []) → reachable c0 (mkSystem (snd (run_calls os c)) []).
Proof.
  revert c. induction os as [|o os IH]; intros c Hr; [done|]. cbn.
  destruct (complete (call o) c) as [r c1] eqn:Ho. specialize (IH c1).
  destruct (run_calls os c1) as [rs c2]. apply IH. unfold complete in Ho.
  destruct (call o c) as [[r0 rev] c'] eqn:Hcall. injection Ho as -> <-.
  pose proof (reach_step _ _ _ Hr (StepCall o _ _ _ _ _ Hcall)) as Hr1.
  destruct rev as [v|]; [|done]. exact (reach_step _ _ _ Hr1 (StepPublish c' [] v [])).
Qed.

End Theorems.

(** ** Witnesses: a coordinator that has scanned, sealed and closed *)

Section Witnesses.
#[local] Existing Instance Z_TimeLib.

Definition wc_src : RecoverySourceIdentity :=
  mkSourceIdentity (mkProcessIdentity 1 1 0) "workspace"%string.
Definition wc_moment (k : Z) : RecoveryMoment := mkMoment k k.
Definition wc_start : Coordinator :=
  coordinator_startup wc_src (wc_moment 0) BackoffPolicy_standard.
Definition wc_token : AttemptToken := mkToken 1 1 1.
Definition wc_guard : WatcherCoverageCloseGuard := mkCloseGuard 0 (mkCloseToken 1 1).
Definition wc_handoff : WatcherCoverageHandoff :=
  mkHandoff (LinuxBoundary (mkLinuxBoundary 1 1 1 1)) wc_guard.
Definition wc_boundary : AttemptCoverageBoundary := mkAttemptBoundary 1 1 wc_handoff.
Definition wc_gens : Generations := λ _, 1.

Definition wc_calls : list coord_op :=
  [CReplaceWorker (wc_moment 1); CStartAttempt 1 (wc_moment 2);
   CScanStarted 1 wc_token (wc_moment 3); CScanCompleted 1 wc_token 7 (wc_moment 4);
   CNativeBoundary 1 wc_token wc_handoff (wc_moment 5)].

Definition wc_sealed : System := mkSystem (snd (run_calls wc_calls wc_start)) [].
Definition wc_closed : System :=
  mkSystem (snd (run_calls (wc_calls ++ [COfferClose wc_gens 1 wc_token 7 (wc_moment 6)]) wc_start)) [].

Lemma wc_sealed_reachable : reachable wc_start wc_sealed.
Proof. apply reachable_calls, reach_init. Qed.

Lemma wc_closed_reachable : reachable wc_start wc_closed.
Proof. apply reachable_calls, reach_init. Qed.

(** Worker 1 scans and seals; a stale worker 9 tries to close; then worker 1
    offers a close after a native loss has moved the generation, and is sent back
    to scan again. *)
Definition wc_script : list coord_op :=
  wc_calls ++ [COfferClose wc_gens 9 wc_token 7 (wc_moment 6);
               COfferClose (λ _, 2) 1 wc_token 7 (wc_moment 6)].

(** The observations of whole calls made one after the other. *)
Lemma observed_calls c0 os tr c :
  observed c0 tr (mkSystem c []) →
  observed c0 (tr ++ zip_with Called os (fst (run_calls os c)))
    (mkSystem (snd (run_calls os c)) []).
Proof.
  revert tr c. induction os as [|o os IH]; intros tr c Hr; cbn; [by rewrite app_nil_r|].
  destruct (complete (call o) c) as [r c1] eqn:Ho. specialize (IH (tr ++ [Called o r]) c1).
  destruct (run_calls os c1) as [rs c2]. cbn in *. rewrite <-app_assoc in IH. apply IH.
  unfold complete in Ho. destruct (call o c) as [[r0 rev] c'] eqn:Hcall. injection Ho as -> <-.
  pose proof (observed_step _ _ _ _ _ Hr (EmitCall o _ _ _ _ _ Hcall)) as Hr1.
  destruct rev as [v|]; [|done]. rewrite <-(app_nil_r (tr ++ _)).
  exact (observed_step _ _ _ _ _ Hr1 (EmitPublish c' [] v [])).
Qed.

Lemma observed_from_start c0 os :
  observed c0 (zip_with Called os (fst (run_calls os c0)))
    (mkSystem (snd (run_calls os c0)) []).
Proof. apply (observed_calls c0 os [] c0), observed_init. Qed.

Definition wc_trace : list label :=
  zip_with Called wc_script (fst (run_calls wc_script wc_start)).
Definition wc_end : System := mkSystem (snd (run_calls wc_script wc_start)) [].

Lemma wc_observed : observed wc_start wc_trace wc_end.
Proof. apply observed_from_start. Qed.

Lemma coordinator_refines_reducer_witness :
  fst (run_calls wc_script wc_start) =
    [Ok (OutWorker 1); Ok (OutToken wc_token); Ok OutUnit; Ok OutUnit; Ok OutUnit;
     Err (Transition WorkerMismatch); Ok (OutClose (RetryRequired 1))] ∧
  sequential_run (startup_reconciliation wc_src (wc_moment 0) BackoffPolicy_standard)
    wc_trace (wc_model (sys_coord wc_end)).
Proof.
  split; [vm_compute; reflexivity|].
  exact (coordinator_refines_reducer wc_src (wc_moment 0) BackoffPolicy_standard
           wc_trace wc_end wc_observed).
Defined.

Lemma snapshot_cache_transparent_witness :
  fst (materialize_snapshot (sys_coord wc_sealed)) = snapshot (wc_model (sys_coord wc_sealed)).
Proof.
  apply (snapshot_cache_transparent wc_src (wc_moment 0) BackoffPolicy_standard);
    [exact wc_sealed_reachable|vm_compute; reflexivity].
Defined.

Lemma revision_published_witness :
  sg_revision (wc_signal (sys_coord wc_sealed)) = sm_revision (wc_model (sys_coord wc_sealed)).
Proof.
  exact (proj2 (proj2 (revision_published wc_src (wc_moment 0) BackoffPolicy_standard wc_sealed
    (mkSystem (snd (replace_projector (snd (run_calls wc_calls wc_start)))) [])
    wc_sealed_reachable (StepReplaceProjector (snd (run_calls wc_calls wc_start)) []))) eq_refl).
Defined.

Definition wc_stale_sub : RecoverySubscription :=
  mkSubscription (wc_snapshot (sys_coord wc_sealed)) (FenceWorker 2) 0%nat 0.

Lemma worker_subscription_fenced_witness :
  fst (try_recv (wc_signal (sys_coord wc_sealed)) wc_stale_sub) = Err Revoked.
Proof.
  refine (proj2 (proj1 (worker_subscription_fenced wc_src (wc_moment 0) BackoffPolicy_standard
    wc_sealed wc_stale_sub 2 wc_sealed_reachable eq_refl)) _).
  vm_compute. done.
Defined.

Lemma stale_worker_refused_witness : ∃ e,
  call (CRetryIfDue 9 (wc_moment 7)) (sys_coord wc_sealed) =
    ((Err (Transition e), None), sys_coord wc_sealed).
Proof. apply (stale_worker_refused _ 9); [reflexivity|vm_compute; done]. Defined.

Definition wc_lost : Generations :=
  ids_generations (ids_run (observe_native_loss (ids_run (ids_new 0) []) 1 QueueOverflow) []) wc_gens.

Definition is_closed (r : Result CloseDisposition WatcherRecoveryCoordinatorError) : bool :=
  match r with Ok (Closed _) => true | _ => false end.

Lemma native_loss_prevents_close_witness :
  is_closed (fst (fst (coordinator_offer_close wc_lost 1 wc_token 7 (wc_moment 6)
                         (sys_coord wc_sealed)))) = false.
Proof.
  assert (ids_wf (ids_new 0)) as Hwf by (vm_compute; repeat split; done).
  pose proof (λ rc rev c', native_loss_prevents_close wc_src (wc_moment 0) BackoffPolicy_standard
    wc_sealed 1 wc_token 7 (wc_moment 6) wc_boundary (ids_new 0) 1 1 [] 1 QueueOverflow [] wc_gens
    rc rev c' wc_sealed_reachable ltac:(vm_compute; reflexivity) Hwf ltac:(vm_compute; done)
    eq_refl) as Hno. cbn zeta in Hno. fold wc_lost in Hno.
  destruct (coordinator_offer_close wc_lost 1 wc_token 7 (wc_moment 6) (sys_coord wc_sealed))
    as [[[[rc|]|] rev] c']; [|reflexivity..]. by destruct (Hno rc rev c').
Defined.

Lemma linearize_exact_witness :
  Forall (λ r, is_ok r = false)
    (fst (run_calls [CRetryIfDue 1 (wc_moment 7)] (sys_coord wc_closed))).
Proof.
  eapply (linearize_exact wc_src (wc_moment 0) BackoffPolicy_standard wc_closed
           [CRetryIfDue 1 (wc_moment 7)] (mkFrontier 7 1 (Some (mkClosureIdentity 1 1 7)))).
  - exact wc_closed_reachable.
  - vm_compute. reflexivity.
  - apply surjective_pairing.
  - vm_compute. reflexivity.
Defined.
End Witnesses.
