(* ===== verification/RecoveryWorker.v ===== *)
(** * Watcher recovery: one recovery attempt

    Models [crates/bowline-daemon/src/watcher_recovery/runtime.rs]
    ([WatcherRecoveryWorker]) and the attempt debounce of
    [daemon/socket_server/coordinator_runtime/watcher_bridge.rs].

    [recover_once] drives the native coverage adapter and the engine, which are
    other components: their replies, the clock and what the other threads call
    on the coordinator meanwhile are the fields of [Environment]. *)

From S2P Require Import Prelude.
From S2P Require Import WatcherCoverage.
From S2P Require Import RecoveryTypes.
From S2P Require Import RecoveryReducer.
From S2P Require Import RecoveryInvariants.
From S2P Require Import RecoveryTraces.
From S2P Require Import RecoverySteps.
From S2P Require Import RecoverySnapshot.
From S2P Require Import RecoveryCoordinator.
From S2P Require Import CoordinatorTheorems.

(** [CoverageScanFailure] and [CoverageScanError] of [manifest_driver/control_registry.rs] *)
Inductive CoverageScanFailure : Type := CycleActive | RootUnavailable | Fatal.

Inductive CoverageScanError : Type :=
| ResourceExhausted
| EngineStopped
| ScanTimedOut
| ScanCancelled
| Scan (failure : CoverageScanFailure).

Inductive RecoveryWorkDisposition : Type :=
| WorkNominal
| WorkClosed
| WorkRetryRequired
| WorkRetryDeferred
| WorkBlocked
| WorkCancelled.

Section Worker.
Context `{TimeLib}.

Definition coverage_failure (error : WatcherCoverageError) (moment : RecoveryMoment)
    : DependencyFailure :=
  let class := match error with
    | IdentifierExhaustedNative => FatalContract
    | Cancelled | CoverageUnavailable | TimedOut | Loss _ | StaleBoundary | Shutdown => Retryable
    end in
  mkFailure class DependencyUnavailable (observed_at moment).

Definition scan_failure (error : CoverageScanError) (moment : RecoveryMoment)
    : DependencyFailure :=
  let '(class, code) := match error with
    | ResourceExhausted | Scan CycleActive => (Retryable, DependencyBusy)
    | EngineStopped | ScanTimedOut | ScanCancelled | Scan RootUnavailable =>
        (Retryable, DependencyUnavailable)
    | Scan Fatal => (FatalContract, DependencyUnavailable)
    end in
  mkFailure class code (observed_at moment).

(** The points of [recover_once] where time passes. *)
Inductive stage : Type :=
| AtPrepare | AtStart | AtBegin | AtRequest | AtWalkStart | AtWait | AtCompleted | AtSeal
| AtBoundary | AtClose.

(** How a requested scan ends.  [take_recovery_action] runs the walk-start hook
    when it dispatches the walk, so an answer never comes before the start; the
    waiter may fail before the dispatch or after it. *)
Inductive ScanRun : Type :=
| ScanAnswered (revision : Z)
| ScanFailed (started : bool) (error : CoverageScanError).

Record Environment := mkEnvironment {
  env_moment : stage → RecoveryMoment;
  (** calls other threads make on the coordinator before each point *)
  env_others : stage → list coord_op;
  env_cancelled : bool;
  (** whether [Instant::now() + RECOVERY_ATTEMPT_BUDGET] is representable *)
  env_deadline : bool;
  env_begin_recovery : Result unit WatcherCoverageError;
  env_request_scan : Result unit CoverageScanError;
  env_scan : ScanRun;
  env_seal : Result WatcherCoverageHandoff WatcherCoverageError;
  env_before_close : Result unit WatcherRecoveryCoordinatorError;
  env_generations : Generations;
}.

(** Whether the engine ran the walk-start hook before the waiter returned. *)
Definition env_walk_started (env : Environment) : bool :=
  match env_scan env with ScanAnswered _ => true | ScanFailed started _ => started end.

(** What [CoverageScanWaiter::wait] returned. *)
Definition env_scan_wait (env : Environment) : Result Z CoverageScanError :=
  match env_scan env with ScanAnswered revision => Ok revision | ScanFailed _ error => Err error end.

Definition WM : Type → Type := M Coordinator WatcherRecoveryCoordinatorError.

(** A coordinator call made by the worker. *)
Definition invoke {A} (l : locked A) : WM A := complete l.

(** [coordinator.snapshot()] *)
Definition read_snapshot : WM WatcherRecoverySnapshot := λ c,
  let '(snap, c) := materialize_snapshot c in (Ok snap, c).

(** [coordinator.retry_if_due(..)], with [RetryNotDue] told apart. *)
Definition retry_or_defer (ownership : RecoveryWorkerOwnership) (moment : RecoveryMoment)
    : WM (option RecoveryWorkDisposition) := λ c,
  match complete (coordinator_retry_if_due ownership moment) c with
  | (Ok _, c) => (Ok None, c)
  | (Err (Transition RetryNotDue), c) => (Ok (Some WorkRetryDeferred), c)
  | (Err error, c) => (Err error, c)
  end.

(** Let the other threads run up to this point. *)
Definition others (env : Environment) (k : stage) : WM unit :=
  λ c, (Ok tt, snd (run_calls (env_others env k) c)).

Definition recovery_deadline (env : Environment) : WM unit :=
  bail_if (negb (env_deadline env)) (Transition RetryDeadlineOverflow).

(** [WatcherRecoveryWorker::record_failure] *)
Definition record_failure (ownership : RecoveryWorkerOwnership) (token : AttemptToken)
    (failure : DependencyFailure) (moment : RecoveryMoment) : WM RecoveryWorkDisposition :=
  disposition ← invoke (coordinator_record_dependency_failure ownership token failure moment);
  mret (match disposition with
        | RetryScheduled _ _ _ => WorkRetryDeferred
        | FailureBlocked _ _ => WorkBlocked
        end).

(** [WatcherRecoveryWorker::prepare_recovery] *)
Definition prepare_recovery (ownership : RecoveryWorkerOwnership) (env : Environment)
    : WM (option RecoveryWorkDisposition) :=
  snap ← read_snapshot;
  match ws_lifecycle snap with
  | Nominal => mret (Some WorkNominal)
  | LifecycleBlockedState => mret (Some WorkBlocked)
  | Recovering =>
      if bool_decide (ws_phase snap ≠ Some BackingOff) then mret None
      else retry_or_defer ownership (env_moment env AtPrepare)
  end.

(** [walk_start_hook]: the result of recording the start is discarded. *)
Definition walk_start_hook (ownership : RecoveryWorkerOwnership) (token : AttemptToken)
    (env : Environment) : WM unit :=
  λ c, if env_walk_started env
       then (Ok tt, snd (complete (coordinator_record_scan_started ownership token
                                     (env_moment env AtWalkStart)) c))
       else (Ok tt, c).

(** The part of [recover_once] from the scan's answer on. *)
Definition finish_attempt (ownership : RecoveryWorkerOwnership) (token : AttemptToken)
    (scan_revision : RecoveryScanRevision) (env : Environment) : WM RecoveryWorkDisposition :=
  others env AtCompleted ;;
  invoke (coordinator_record_scan_completed ownership token scan_revision
              (env_moment env AtCompleted)) ;;
  others env AtSeal ;;
  match env_seal env with
  | Err error =>
      record_failure ownership token (coverage_failure error (env_moment env AtSeal))
        (env_moment env AtSeal)
  | Ok handoff =>
      others env AtBoundary ;;
      invoke (coordinator_record_native_boundary ownership token handoff
                  (env_moment env AtBoundary)) ;;
      others env AtClose ;;
      of_result (env_before_close env) ;;
      disposition ← invoke (coordinator_offer_close (env_generations env) ownership token
                                scan_revision (env_moment env AtClose));
      mret (match disposition with
            | Closed _ => WorkClosed
            | RetryRequired _ => WorkRetryRequired
            end)
  end.

(** [WatcherRecoveryWorker::recover_once] *)
Definition recover_once (ownership : RecoveryWorkerOwnership) (env : Environment)
    : WM RecoveryWorkDisposition :=
  others env AtPrepare ;;
  prepared ← prepare_recovery ownership env;
  match prepared with
  | Some disposition => mret disposition
  | None =>
  if env_cancelled env then mret WorkCancelled else
  others env AtStart ;;
  token ← invoke (coordinator_start_attempt ownership (env_moment env AtStart));
  recovery_deadline env ;;
  others env AtBegin ;;
  match env_begin_recovery env with
  | Err error =>
      record_failure ownership token (coverage_failure error (env_moment env AtBegin))
        (env_moment env AtBegin)
  | Ok _ =>
  others env AtRequest ;;
  match env_request_scan env with
  | Err ScanCancelled => mret WorkCancelled
  | Err error =>
      record_failure ownership token (scan_failure error (env_moment env AtRequest))
        (env_moment env AtRequest)
  | Ok _ =>
  recovery_deadline env ;;
  others env AtWalkStart ;;
  walk_start_hook ownership token env ;;
  others env AtWait ;;
  match env_scan_wait env with
  | Err ScanCancelled => mret WorkCancelled
  | Err error =>
      record_failure ownership token (scan_failure error (env_moment env AtWait))
        (env_moment env AtWait)
  | Ok revision =>
  match schema_integer_new "authoritativeScanRevision"%string revision with
  | Err _ => throw (Transition ScanRevisionMismatch)
  | Ok scan_revision => finish_attempt ownership token scan_revision env
  end end end end end.

(** ** The attempt debounce of the watcher bridge *)

(** [Instant] and [Duration] in nanoseconds of one monotonic clock. *)
Record RecoveryAttemptDebounce := mkDebounce {
  rd_watermark : ActivityWatermark;
  rd_stable_since : Z;
  rd_deferring_since : Z;
}.

#[export] Instance RecoveryAttemptDebounce_eta : Eta RecoveryAttemptDebounce :=
  λ r, mkDebounce (rd_watermark r) (rd_stable_since r) (rd_deferring_since r).

Definition RECOVERY_ATTEMPT_DEBOUNCE : Duration := duration_from_millis 100.
Definition RECOVERY_ATTEMPT_DEBOUNCE_CEILING : Duration := duration_from_secs 5.

Definition debounce_new (watermark : ActivityWatermark) (now : Z) : RecoveryAttemptDebounce :=
  mkDebounce watermark now now.

(** [Instant::saturating_duration_since] *)
Definition saturating_duration_since (now earlier : Z) : Duration := Z.max (now - earlier) 0.

(** [RecoveryAttemptDebounce::authorize] *)
Definition authorize (watermark : ActivityWatermark) (now : Z) (d : RecoveryAttemptDebounce)
    : RecoveryAttemptDebounce :=
  d <| rd_watermark := watermark |> <| rd_stable_since := now |> <| rd_deferring_since := now |>.

(** [RecoveryAttemptDebounce::defers_attempt] *)
Definition defers_attempt (watermark : ActivityWatermark) (now : Z) (d : RecoveryAttemptDebounce)
    : bool * RecoveryAttemptDebounce :=
  if RECOVERY_ATTEMPT_DEBOUNCE_CEILING <=? saturating_duration_since now (rd_deferring_since d)
  then (false, authorize watermark now d)
  else if negb (watermark =? rd_watermark d)
  then (true, d <| rd_watermark := watermark |> <| rd_stable_since := now |>)
  else if saturating_duration_since now (rd_stable_since d) <? RECOVERY_ATTEMPT_DEBOUNCE
  then (true, d)
  else (false, authorize watermark now d).

(** The bridge polls the debounce with the watermark it reads at each time. *)
Fixpoint poll_debounce (polls : list (ActivityWatermark * Z)) (d : RecoveryAttemptDebounce)
    : list bool * RecoveryAttemptDebounce :=
  match polls with
  | [] => ([], d)
  | (w, now) :: polls =>
      let '(b, d) := defers_attempt w now d in
      let '(bs, d) := poll_debounce polls d in (b :: bs, d)
  end.

(** ** States of an attempt *)

(** A coordinator between calls. *)
Definition quiescent (c : Coordinator) : Prop := sys_inv (mkSystem c []).

(** While the attempt [t] is in flight, its sealed boundary is [b]. *)
Definition sealed_with (t : AttemptToken) (b : AttemptCoverageBoundary)
    (s : RecoveryStateMachine) : Prop :=
  tok_attempt_id t < sm_next_attempt_id s ∧
  (current_attempt_token s = Some t → current_native_boundary s = Some b).

(** What a closing attempt has seen of its environment. *)
Definition closed_by (env : Environment) (c' : Coordinator) : Prop :=
  ∃ handoff rev rc,
    env_seal env = Ok handoff ∧ env_scan_wait env = Ok rev ∧ env_before_close env = Ok tt ∧
    is_current (env_generations env) (ho_close_guard handoff) = true ∧
    last_completed_receipt (wc_model c') = Some rc ∧
    ab_handoff (rc_native_boundary rc) = handoff ∧ rc_authoritative_scan_revision rc = rev ∧
    lifecycle (wc_model c') = Nominal.

(** An environment whose dependencies answer and whose other threads are idle. *)
Definition quiet (env : Environment) (m : RecoveryMoment) (h : WatcherCoverageHandoff) (r : Z)
    : Prop :=
  (∀ k, env_others env k = []) ∧ (∀ k, env_moment env k = m) ∧ env_cancelled env = false ∧
  env_deadline env = true ∧ env_begin_recovery env = Ok tt ∧ env_request_scan env = Ok tt ∧
  env_scan_wait env = Ok r ∧ 0 ≤ r ≤ MAX_SCHEMA_INTEGER ∧ env_seal env = Ok h ∧
  env_before_close env = Ok tt ∧ is_current (env_generations env) (ho_close_guard h) = true.

End Worker.

(** ** Lemmas *)

Section Lemmas.
Context `{TimeLib}.
Implicit Types (c : Coordinator) (m : RecoveryMoment).

Lemma run_calls_quiescent os c : quiescent c → quiescent (snd (run_calls os c)).
Proof.
  revert c. induction os as [|o os IH]; intros c Hq; [done|]. cbn.
  destruct (complete (call o) c) as [r c1] eqn:Ho.
  destruct (complete_facts o c [] r c1 Hq Ho) as (Hq1 & _). specialize (IH c1 Hq1).
  by destruct (run_calls os c1).
Qed.

Lemma wp_others env k Q c :
  quiescent c → (∀ c', quiescent c' → Q (Ok tt) c') → wp (others env k) Q c.
Proof. intros Hq HQ. apply HQ. by apply run_calls_quiescent. Qed.

(** A call of the worker is one of the interleaved calls. *)
Lemma wp_invoke {A} (f : A → outcome) (l : locked A) o Q c :
  quiescent c → call o = locked_map f l →
  (∀ r c', quiescent c' → complete l c = (r, c') → Q r c') → wp (invoke l) Q c.
Proof.
  intros Hq Ho HQ. unfold wp, invoke. destruct (complete l c) as [r c'] eqn:Hl. apply HQ; [|done].
  apply (complete_facts o c [] (result_map f r) c' Hq). rewrite Ho. unfold complete, locked_map in *.
  destruct (l c) as [[r0 rev] c1]. by injection Hl as -> <-.
Qed.
End Lemmas.

Section Sealed.
Context `{TimeLib}.
Implicit Types (c : Coordinator) (s : RecoveryStateMachine) (m : RecoveryMoment).

Lemma exhausted_sealed m s t b :
  tok_attempt_id t < sm_next_attempt_id s → sealed_with t b (exhausted m s).
Proof.
  intros Ht. unfold sealed_with. rewrite current_token_exhausted. split; [|done].
  unfold exhausted, terminal_block, commit. unfold_M. by destruct (sm_incident s).
Qed.

Lemma sealed_with_evidence t b s i a i' a' s' :
  sealed_with t b s → sm_incident s = Some i → inc_current_attempt i = Some a →
  sm_incident s' = Some i' → inc_current_attempt i' = Some a' → at_token a' = at_token a →
  inc_native_coverage i' = inc_native_coverage i → sm_next_attempt_id s' = sm_next_attempt_id s →
  sealed_with t b s'.
Proof.
  intros [Ht Hb] Hi Ha Hi' Ha' Htok Hcov Hnext. unfold sealed_with, current_attempt_token,
    current_native_boundary in *. rewrite Hi in Hb. rewrite Hi', Hnext. cbn in *.
  rewrite Ha in Hb. rewrite Ha', Hcov. cbn in *. rewrite Htok. done.
Qed.

(** Leaves that drop the attempt or keep its evidence. *)
Ltac sealed_leaf :=
  first
    [ apply exhausted_sealed; assumption
    | split; [cbn; lia|]; cbn;
      first [ assumption
            | discriminate
            | unfold current_attempt_token, current_native_boundary in *; cbn in *;
              repeat match goal with H : sm_incident _ = Some _ |- _ => rewrite H in *; clear H end;
              assumption ] ].

Lemma exec_sealed_with o t b s :
  Inv s → sealed_with t b s → wp (exec o) (λ _, sealed_with t b) s.
Proof.
  intros HInv Hs. pose proof Hs as (Ht & Hbs).
  destruct o; unfold_ops; rm_run; try (sealed_leaf || watermark_absurd).
  - destruct (sm_incident s) as [i|] eqn:Hi.
    + incident_of. split; [done|]. by erewrite rearm_token.
    + split; [done|]. unfold current_attempt_token. cbn. by rewrite Hi.
  - incident_of. split; [done|]. by erewrite rearm_token.
  - split; [cbn; lia|]. cbn. intros [= <-]. cbn in Ht. lia.
  - by eapply (sealed_with_evidence t b s i a).
  - by eapply (sealed_with_evidence t b s i a).
  - split; [done|]. cbn. intros [= <-]. exfalso. incident_of. current_attempt_of.
    unfold current_attempt_token, current_native_boundary in Hbs. rewrite H1 in Hbs. cbn in Hbs.
    match goal with Ha : inc_current_attempt i = Some a |- _ => rewrite Ha in Hbs end.
    rewrite Hb, Hbs in Hnb by done. done.
  - split; [done|]. unfold record_cause, current_attempt_token, current_native_boundary in *. cbn.
    destruct (sm_incident s), (counters_increment _ _); by simplify_eq/=.
Qed.
Lemma call_effect_sealed t b s r s' :
  Inv s → call_effect s r s' → sealed_with t b s → sealed_with t b s'.
Proof.
  intros HInv [[-> _]|[op Hop]] Hs; [done|].
  by apply (wp_eq _ _ _ _ _ (exec_sealed_with op t b s HInv Hs) Hop).
Qed.

Lemma run_calls_sealed os t b c :
  quiescent c → sealed_with t b (wc_model c) → sealed_with t b (wc_model (snd (run_calls os c))).
Proof.
  revert c. induction os as [|o os IH]; intros c Hq Hs; [done|]. cbn.
  destruct (complete (call o) c) as [r c1] eqn:Ho.
  destruct (complete_facts o c [] r c1 Hq Ho) as (Hq1 & _).
  assert (sealed_with t b (wc_model c1)) as Hs1.
  { unfold complete in Ho. destruct (call o c) as [[r0 rev] c0] eqn:Hcall.
    pose proof Hq as (HInv & _ & Hwf & Hslot & _).
    destruct (call_facts o c r0 rev c0 HInv Hwf Hslot Hcall) as ((r1 & _ & Heff) & _).
    injection Ho as _ <-. assert (wc_model (publish_option rev c0) = wc_model c0) as ->
      by (by destruct rev). by eapply call_effect_sealed. }
  specialize (IH c1 Hq1 Hs1). by destruct (run_calls os c1).
Qed.

Lemma wp_others_sealed env k t b Q c :
  quiescent c → sealed_with t b (wc_model c) →
  (∀ c', quiescent c' → sealed_with t b (wc_model c') → Q (Ok tt) c') → wp (others env k) Q c.
Proof. intros Hq Hs HQ. apply HQ; [by apply run_calls_quiescent|by apply run_calls_sealed]. Qed.

Lemma complete_model {A} (x : RM A) c r c' :
  complete (mutate_locked x) c = (r, c') →
  ∃ r0, x (wc_model c) = (r0, wc_model c') ∧ r = map_transition r0.
Proof.
  unfold complete, mutate_locked. destruct (x (wc_model c)) as [r0 s']. intros Heq.
  injection Heq as <- <-. exists r0. by destruct (published_revision _ _).
Qed.

Lemma native_boundary_sealed w t h m s :
  Inv s → wp (require_worker w ;; record_native_boundary t h m)
    (λ r s', is_ok r = true → ∃ b, ab_handoff b = h ∧ sealed_with t b s') s.
Proof.
  intros HInv. unfold require_worker. unfold_ops. rm_run. intros _.
  eexists. split; [|split; [|cbn; reflexivity]]; [done|]. cbn.
  incident_of. current_attempt_of. done.
Qed.

End Sealed.

Section Attempt.
Context `{TimeLib}.
Implicit Types (c : Coordinator) (s : RecoveryStateMachine) (m : RecoveryMoment).

Lemma wp_record_failure w t f m c :
  wp (record_failure w t f m) (λ r _, r ≠ Ok WorkClosed) c.
Proof.
  unfold record_failure. apply wp_bind. unfold wp at 1, invoke.
  destruct (complete _ c) as [[d|] c']; [|done]. by destruct d.
Qed.

Lemma finish_attempt_closed w t r env c :
  quiescent c → env_scan_wait env = Ok r →
  wp (finish_attempt w t r env) (λ x c', x = Ok WorkClosed → closed_by env c') c.
Proof.
  intros Hq Hr. unfold finish_attempt.
  apply wp_bind, wp_others; [done|]. intros c1 Hq1.
  apply wp_bind, (wp_invoke (λ _, OutUnit) _ (CScanCompleted w t r (env_moment env AtCompleted)));
    [done|done|]. intros [[]|?] c2 Hq2 _; [|done].
  apply wp_bind, wp_others; [done|]. intros c3 Hq3.
  destruct (env_seal env) as [h|e] eqn:Hseal.
  2: { eapply wp_conseq; [apply wp_record_failure|]. done. }
  apply wp_bind, wp_others; [done|]. intros c4 Hq4.
  apply wp_bind, (wp_invoke (λ _, OutUnit) _ (CNativeBoundary w t h (env_moment env AtBoundary)));
    [done|done|]. intros [[]|?] c5 Hq5 Hnb; [|done].
  destruct (complete_model _ _ _ _ Hnb) as ([[]|] & Hx & ?); [|done].
  destruct (wp_eq _ _ _ _ _ (native_boundary_sealed w t h _ _ (proj1 Hq4)) Hx eq_refl)
    as (b & Hbh & Hsealed).
  apply wp_bind, (wp_others_sealed _ _ t b); [done|done|]. intros c6 Hq6 Hs6.
  apply wp_bind. unfold wp at 1, of_result. destruct (env_before_close env) as [[]|] eqn:Hbc; [|done].
  apply wp_bind. unfold wp at 1, invoke, complete.
  destruct (coordinator_offer_close _ _ _ _ _ c6) as [[[d|] rev] c7] eqn:Hclose; [|done].
  destruct d as [rc|]; [|done]. intros _.
  assert (Inv (wc_model c6)) as HI6 by apply Hq6.
  destruct (offer_close_guarded _ _ _ _ _ _ _ _ _ HI6 Hclose)
    as (Hcur & Hb & _ & Ht & Hsr & Hnone & Hlast).
  destruct Hs6 as [_ Hs6]. cbn in Hs6. rewrite (Hs6 Ht) in Hb.
  assert (b = rc_native_boundary rc) as -> by congruence.
  assert (wc_model (publish_option rev c7) = wc_model c7) as Hm by (by destruct rev).
  exists h, r, rc. unfold lifecycle. rewrite Hm, Hnone.
  unfold ab_is_current in Hcur. rewrite Hbh in Hcur. by split_and!.
Qed.

End Attempt.

Section WorkerTheorems.
Context `{TimeLib}.
Implicit Types (c : Coordinator) (s : RecoveryStateMachine) (m : RecoveryMoment).

Lemma wp_prepare w env Q c :
  quiescent c → (∀ r c', quiescent c' → r ≠ Ok (Some WorkClosed) → Q r c') → wp (prepare_recovery w env) Q c.
Proof.
  intros Hq HQ. unfold prepare_recovery. apply wp_bind. unfold wp at 1, read_snapshot.
  pose proof (sys_inv_materialize c [] Hq) as Hq1. destruct (materialize_snapshot c) as [snap c1].
  cbn in Hq1. repeat case_match; try (by apply HQ). unfold wp, retry_or_defer.
  destruct (complete _ c1) as [r c2] eqn:Hc.
  assert (quiescent c2) as Hq2.
  { assert (wp (invoke (coordinator_retry_if_due w (env_moment env AtPrepare)))
      (λ _, quiescent) c1) as Hwp.
    { by apply (wp_invoke OutIncident _ (CRetryIfDue w (env_moment env AtPrepare))). }
    by apply (wp_eq _ _ _ _ _ Hwp Hc). }
  destruct r as [|[| | | |[]]]; by apply HQ.
Qed.

Lemma wp_hook w t env Q c :
  quiescent c → (∀ c', quiescent c' → Q (Ok tt) c') → wp (walk_start_hook w t env) Q c.
Proof.
  intros Hq HQ. unfold wp, walk_start_hook. destruct (env_walk_started env); [|by apply HQ].
  apply HQ. apply (wp_state (invoke (coordinator_record_scan_started w t
    (env_moment env AtWalkStart))) quiescent).
  by apply (wp_invoke (λ _, OutUnit) _ (CScanStarted w t (env_moment env AtWalkStart))).
Qed.

(** C34: An attempt that reports [Closed] really recovered, whatever the other
    threads did meanwhile: the scan answered, the native seal was taken and its
    guard is current at the close, the drain before the close succeeded, and the
    coordinator is nominal with a receipt for exactly this scan and this seal. *)
Theorem recover_once_closed src m p y w env c' :
  reachable (coordinator_startup src m p) y → sys_due y = [] →
  recover_once w env (sys_coord y) = (Ok WorkClosed, c') → closed_by env c'.
Proof.
  intros Hreach Hdue Hrec. pose proof (reachable_inv _ _ _ _ Hreach) as Hinv.
  destruct y as [c due]. cbn in *. subst due.
  cut (wp (recover_once w env) (λ x c', x = Ok WorkClosed → closed_by env c') c).
  { intros Hwp. by apply (wp_eq _ _ _ _ _ Hwp Hrec). }
  clear Hrec c' Hreach. rename Hinv into Hq. unfold recover_once.
  apply wp_bind, wp_others; [done|]. intros c1 Hq1.
  apply wp_bind, wp_prepare; [done|]. intros [[d|]|e] c2 Hq2 Hd; [|..|done].
  { intros [= ->]. done. }
  cbn. destruct (env_cancelled env); [done|].
  apply wp_bind, wp_others; [done|]. intros c3 Hq3.
  apply wp_bind, (wp_invoke OutToken _ (CStartAttempt w (env_moment env AtStart))); [done|done|].
  intros [t|e] c4 Hq4 _; [|done].
  apply wp_bind, wp_bail_if; intros _; [|done].
  apply wp_bind, wp_others; [done|]. intros c5 Hq5.
  destruct (env_begin_recovery env); [|by eapply wp_conseq; [apply wp_record_failure|done]].
  apply wp_bind, wp_others; [done|]. intros c6 Hq6.
  destruct (env_request_scan env) as [|e];
    [|destruct e; try done; (eapply wp_conseq; [apply wp_record_failure|done])].
  apply wp_bind, wp_bail_if; intros _; [|done].
  apply wp_bind, wp_others; [done|]. intros c7 Hq7.
  apply wp_bind, wp_hook; [done|]. intros c8 Hq8.
  apply wp_bind, wp_others; [done|]. intros c9 Hq9.
  destruct (env_scan_wait env) as [r|e] eqn:Hwait;
    [|destruct e; try done; (eapply wp_conseq; [apply wp_record_failure|done])].
  unfold schema_integer_new. destruct (_ <? _); [done|]. by apply finish_attempt_closed.
Qed.

End WorkerTheorems.

Section Forward.
Context `{TimeLib}.
Implicit Types (c : Coordinator) (s : RecoveryStateMachine) (m : RecoveryMoment).

(** A scan that answered has run its hook. *)
Lemma scan_answer_started env r : env_scan_wait env = Ok r → env_walk_started env = true.
Proof. unfold env_scan_wait, env_walk_started. by destruct (env_scan env). Qed.

Lemma others_idle env k c : env_others env k = [] → others env k c = (Ok tt, c).
Proof. intros Ho. unfold others. by rewrite Ho. Qed.

(** A fenced call whose transition succeeds. *)
Lemma invoke_fenced {A} w (x : RM A) c a s' :
  sm_active_worker (wc_model c) = Some w → x (wc_model c) = (Ok a, s') →
  ∃ c', invoke (mutate_locked (require_worker w ;; x)) c = (Ok a, c') ∧ wc_model c' = s'.
Proof.
  intros Hw Hx. unfold invoke, complete, mutate_locked, mbind, M_bind, m_bind.
  destruct (require_worker_cases w (wc_model c)) as [[_ Hr]|[? _]]; [|done].
  rewrite Hr, Hx. eexists. split; [done|]. by destruct (published_revision _ _).
Qed.

Lemma bind_ok {A B} (x : WM A) (f : A → WM B) c a c' :
  x c = (Ok a, c') → (x ≫= f) c = f a c'.
Proof. intros Hx. unfold_M. by rewrite Hx. Qed.

Lemma prepare_rearming w env c i :
  quiescent c → sm_revision (wc_model c) < MAX_SCHEMA_INTEGER →
  sm_incident (wc_model c) = Some i → inc_phase i = Rearming →
  ∃ c', prepare_recovery w env c = (Ok None, c') ∧ wc_model c' = wc_model c.
Proof.
  intros (_ & [_ Hf] & _) Hrev Hi Hp. destruct (materialize_model c) as [Hm _].
  unfold prepare_recovery, read_snapshot. unfold_M.
  assert (fst (materialize_snapshot c) = snapshot (wc_model c)) as Hs.
  { unfold materialize_snapshot. destruct (Z.eqb_spec (ws_snapshot_revision (wc_snapshot c))
      (sm_revision (wc_model c))); cbn; [by apply Hf|done]. }
  destruct (materialize_snapshot c) as [snap c1]. cbn in *. subst snap.
  unfold snapshot. rewrite Hi. cbn. unfold is_blocked. rewrite Hp. eval_decides. by exists c1.
Qed.

(** One attempt from a re-arming state up to the scan's answer. *)
Lemma attempt_prefix w env m h r c i :
  quiescent c → quiet env m h r → sm_incident (wc_model c) = Some i → inc_phase i = Rearming →
  sm_active_worker (wc_model c) = Some w → inc_attempt_count i < MAX_RECOVERY_COUNT →
  sm_revision (wc_model c) + 5 < MAX_SCHEMA_INTEGER →
  let t := mkToken (inc_id i) (sm_next_attempt_id (wc_model c)) w in
  ∃ c1, wc_model c1 = state_of (start_attempt m) (wc_model c) ∧
    recover_once w env c =
      (walk_start_hook w t env ;; others env AtWait ;; finish_attempt w t r env) c1.
Proof.
  intros Hq (Ho & Hm & Hc & Hd & Hb & Hrq & Hwait & Hr & _) Hi Hp Hw Hcount Hrev t.
  unfold recover_once. rewrite (bind_ok _ _ c tt c) by (by apply others_idle).
  destruct (prepare_rearming w env c i Hq ltac:(lia) Hi Hp) as (c0 & Hprep & Hm0).
  rewrite (bind_ok _ _ c None c0) by done. rewrite Hc.
  rewrite (bind_ok _ _ c0 tt c0) by (by apply others_idle).
  assert (Inv (wc_model c)) as HInv by apply Hq.
  pose proof (start_attempt_ok m (wc_model c) i w HInv ltac:(lia) Hw Hi Hp Hcount) as Hstart.
  rewrite <-Hm0 in Hstart. rewrite <-Hm0 in Hw.
  destruct (invoke_fenced w _ c0 _ _ Hw Hstart) as (c1 & Hinv & Hm1).
  exists c1. split; [rewrite Hm1, <-Hm0; unfold state_of; by rewrite Hstart|].
  rewrite (Hm AtStart). rewrite (bind_ok _ _ c0 _ c1) by exact Hinv. rewrite Hm0.
  unfold recovery_deadline. rewrite Hd, Hb, Hrq, Hwait. cbn [negb].
  rewrite (bind_ok _ _ c1 tt c1) by done. rewrite (bind_ok _ _ c1 tt c1) by (by apply others_idle).
  rewrite (bind_ok _ _ c1 tt c1) by (by apply others_idle). rewrite (bind_ok _ _ c1 tt c1) by done.
  rewrite (bind_ok _ _ c1 tt c1) by (by apply others_idle).
  unfold schema_integer_new. rewrite (proj2 (Z.ltb_ge _ _)) by lia. done.
Qed.

Lemma guarded_close_ok gens t b r m s rc s' :
  sm_revision s + 1 < MAX_SCHEMA_INTEGER → current_attempt_token s = Some t →
  current_native_boundary s = Some b → ab_is_current gens b = true →
  closes s (mkCloseOffer t b r) m rc s' → guarded_close gens t r m s = (Ok (Closed rc), s').
Proof.
  intros Hrev Ht Hb Hcur Hcl. unfold guarded_close. unfold_M. cbn.
  rewrite bool_decide_eq_true_2 by done. cbn. rewrite Hb. cbn. rewrite Hcur. cbn.
  by apply closes_offer_close.
Qed.

(** Recovery makes progress: with dependencies that answer and no loss
    meanwhile, one [recover_once] from a re-arming state owned by this worker
    closes the incident. *)
Theorem recover_once_closes src m0 p y w env m h r i :
  reachable (coordinator_startup src m0 p) y → sys_due y = [] →
  let s := wc_model (sys_coord y) in
  quiet env m h r →
  sm_incident s = Some i → inc_phase i = Rearming → sm_active_worker s = Some w →
  inc_attempt_count i < MAX_RECOVERY_COUNT → sm_revision s + 5 < MAX_SCHEMA_INTEGER →
  boundary_follows h s →
  inc_started_tick i ≤ monotonic m ≤ inc_started_tick i + MAX_DURATION_MS →
  ∃ c', recover_once w env (sys_coord y) = (Ok WorkClosed, c') ∧
        lifecycle (wc_model c') = Nominal.
Proof.
  intros Hreach Hdue s Hquiet Hi Hp Hw Hcount Hrev Hfollows Htime.
  pose proof (reachable_inv _ _ _ _ Hreach) as Hq. destruct y as [c due]. cbn in *. subst due s.
  destruct (attempt_prefix w env m h r c i Hq Hquiet Hi Hp Hw Hcount Hrev) as (c1 & Hm1 & ->).
  destruct Hquiet as (Ho & Hm & _ & _ & _ & _ & Hwait & _ & Hseal & Hbc & Hcur).
  pose proof (scan_answer_started env r Hwait) as Hhook.
  assert (Inv (wc_model c)) as HInv by apply Hq.
  pose proof (incident_ok_scan_le _ _ (proj2 (proj2 HInv) i Hi)) as Hscan.
  unfold state_of in Hm1. rewrite (start_attempt_ok m _ i w) in Hm1 by (done || lia). cbn in Hm1.
  set (t := mkToken (inc_id i) (sm_next_attempt_id (wc_model c)) w).
  assert (sm_active_worker (wc_model c1) = Some w) as Hw1 by (by rewrite Hm1).
  eassert (record_scan_started t m (wc_model c1) = (Ok tt, _)) as E2.
  { rewrite Hm1. eapply scan_started_ok; cbn; try (done || lia); cbn; lia. }
  destruct (invoke_fenced w _ c1 _ _ Hw1 E2) as (c2 & I2 & Hm2).
  assert (sm_active_worker (wc_model c2) = Some w) as Hw2 by (by rewrite Hm2).
  eassert (record_scan_completed t r m (wc_model c2) = (Ok tt, _)) as E3.
  { rewrite Hm2. eapply scan_completed_ok; cbn; try (done || lia); cbn; lia. }
  destruct (invoke_fenced w _ c2 _ _ Hw2 E3) as (c3 & I3 & Hm3).
  assert (sm_active_worker (wc_model c3) = Some w) as Hw3 by (by rewrite Hm3).
  eassert (record_native_boundary t h m (wc_model c3) = (Ok tt, _)) as E4.
  { rewrite Hm3. eapply native_boundary_ok; cbn; try (done || lia); cbn; lia. }
  destruct (invoke_fenced w _ c3 _ _ Hw3 E4) as (c4 & I4 & Hm4).
  assert (sm_active_worker (wc_model c4) = Some w) as Hw4 by (by rewrite Hm4).
  eassert (guarded_close (env_generations env) t r m (wc_model c4) = (Ok (Closed _), _)) as E5.
  { rewrite Hm4. eapply guarded_close_ok; [cbn; lia|reflexivity..|exact Hcur|].
    eexists _, _, _. cbn. split_and!; try reflexivity; cbn; try lia. apply boundary_eqb_refl. }
  destruct (invoke_fenced w _ c4 _ _ Hw4 E5) as (c5 & I5 & Hm5).
  exists c5. split; [|by rewrite Hm5].
  rewrite (bind_ok _ _ c1 tt c2).
  2: { unfold walk_start_hook. rewrite Hhook, Hm. unfold invoke in I2.
       unfold coordinator_record_scan_started. by rewrite I2. }
  rewrite (bind_ok _ _ c2 tt c2) by (by apply others_idle). unfold finish_attempt.
  rewrite !Hm, Hseal, Hbc.
  rewrite (bind_ok _ _ c2 tt c2) by (by apply others_idle).
  rewrite (bind_ok _ _ c2 tt c3) by exact I3.
  rewrite (bind_ok _ _ c3 tt c3) by (by apply others_idle).
  rewrite (bind_ok _ _ c3 tt c3) by (by apply others_idle).
  rewrite (bind_ok _ _ c3 tt c4) by exact I4.
  rewrite (bind_ok _ _ c4 tt c4) by (by apply others_idle).
  rewrite (bind_ok _ _ c4 tt c4) by done.
  by rewrite (bind_ok _ _ c4 _ c5) by exact I5.
Qed.

End Forward.

(** ** The debounce *)

(** The debounce never starves recovery: however the watermark moves, the
    attempt is deferred for less than the ceiling; and as soon as the watermark
    has been stable for the debounce interval, the attempt is authorized. *)
Theorem debounce_bounded polls d bs d' :
  poll_debounce polls d = (bs, d') → Forall (λ b, b = true) bs →
  Forall (λ p, snd p - rd_deferring_since d < RECOVERY_ATTEMPT_DEBOUNCE_CEILING) polls ∧
  (∀ now, RECOVERY_ATTEMPT_DEBOUNCE ≤ now - rd_stable_since d' →
     fst (defers_attempt (rd_watermark d') now d') = false).
Proof.
  intros Hp Hb. split.
  - revert d bs Hp Hb. induction polls as [|[w now] polls IH]; intros d bs Hp Hb; [done|].
    cbn in Hp. destruct (defers_attempt w now d) as [b d1] eqn:Hd.
    destruct (poll_debounce polls d1) as [bs1 d2] eqn:Hps. injection Hp as <- <-.
    apply Forall_cons in Hb as [-> Hb]. unfold defers_attempt, saturating_duration_since in Hd.
    destruct (Z.leb_spec RECOVERY_ATTEMPT_DEBOUNCE_CEILING (Z.max (now - rd_deferring_since d) 0));
      [done|]. constructor; [cbn; lia|].
    assert (rd_deferring_since d1 = rd_deferring_since d) as <-; [|by eapply IH].
    destruct (negb _); [by simplify_eq/=|]. destruct (_ <? _); by simplify_eq/=.
  - intros now Hnow. unfold defers_attempt, saturating_duration_since.
    destruct (_ <=? _); [done|]. rewrite Z.eqb_refl. cbn.
    by rewrite (proj2 (Z.ltb_ge _ _)) by lia.
Qed.

(** ** Witnesses *)

Section Witnesses.
#[local] Existing Instance Z_TimeLib.

(** A worker has been fenced in; nothing else has happened. *)
Definition ww_armed : System :=
  mkSystem (snd (run_calls [CReplaceWorker (wc_moment 1)] wc_start)) [].

Lemma ww_armed_reachable : reachable wc_start ww_armed.
Proof. apply reachable_calls, reach_init. Qed.

Definition ww_env : Environment :=
  mkEnvironment (λ _, wc_moment 6) (λ _, []) false true (Ok tt) (Ok tt) (ScanAnswered 7)
    (Ok wc_handoff) (Ok tt) wc_gens.

Lemma ww_env_quiet : quiet ww_env (wc_moment 6) wc_handoff 7.
Proof. repeat split; vm_compute; done. Qed.

Definition ww_incident : IncidentState := IncidentState_new 1 StartupReconciliation (wc_moment 0).

Lemma recover_once_closed_witness :
  closed_by ww_env (state_of (recover_once 1 ww_env) (sys_coord ww_armed)).
Proof.
  apply (recover_once_closed wc_src (wc_moment 0) BackoffPolicy_standard ww_armed 1);
    [exact ww_armed_reachable|reflexivity|vm_compute; reflexivity].
Defined.

Lemma recover_once_closes_witness : ∃ c',
  recover_once 1 ww_env (sys_coord ww_armed) = (Ok WorkClosed, c') ∧
  lifecycle (wc_model c') = Nominal.
Proof.
  apply (recover_once_closes wc_src (wc_moment 0) BackoffPolicy_standard ww_armed 1 ww_env
           (wc_moment 6) wc_handoff 7 ww_incident ww_armed_reachable);
    [reflexivity|apply ww_env_quiet|vm_compute; reflexivity..| |].
  - split; vm_compute; done.
  - vm_compute. split; done.
Defined.

End Witnesses.

Lemma debounce_bounded_witness :
  Forall (λ p, snd p - 0 < RECOVERY_ATTEMPT_DEBOUNCE_CEILING)
    [(2, duration_from_millis 50); (3, duration_from_secs 4)].
Proof.
  exact (proj1 (debounce_bounded [(2, duration_from_millis 50); (3, duration_from_secs 4)]
    (debounce_new 1 0) [true; true] (mkDebounce 3 (duration_from_secs 4) 0)
    ltac:(vm_compute; reflexivity) ltac:(repeat constructor))).
Defined.
