(* ===== verification/Paths.v ===== *)
(** * Workspace paths

    Models the path vocabulary every other part of the sync engine shares:
    [bowline-core/src/workspace_graph.rs] (normalization and the lexical
    resolution of a symlink target), [bowline-core/src/git_paths.rs] (the role
    of a path inside a [.git] directory), [bowline-local/src/policy/state_paths.rs]
    (private engine state) and the path predicate of
    [bowline-local/src/sync/manifest_engine/manifest.rs].

    A Rust [str] is a [string] of bytes: every separator and pattern the code
    uses is ASCII, so splitting, trimming and comparing bytes is what the code
    does on UTF-8 text.  The loops of [normalize_workspace_path] run on fuel; the
    fuel is the length of the text, which every iteration shortens, and
    [normalize_canonical] below is what shows that it is enough. *)

From S2P Require Import Prelude.
From Stdlib Require Import Ascii.

(** ** The string operations the code uses *)

Abbreviation slash := "/"%char.
Abbreviation dot := "."%char.
Abbreviation backslash := (ascii_of_nat 92).

(** [str::len] *)
Definition str_len (s : string) : Z := Z.of_nat (String.length s).

(** [str::starts_with(char)] *)
Definition starts_with_char (c : ascii) (s : string) : bool :=
  match s with String d _ => (c =? d)%char | EmptyString => false end.

(** [str::strip_prefix] *)
Fixpoint strip_prefix (p s : string) : option string :=
  match p, s with
  | EmptyString, _ => Some s
  | String c p, String d s => if (c =? d)%char then strip_prefix p s else None
  | String _ _, EmptyString => None
  end.

(** [str::starts_with(&str)] *)
Definition starts_with (p s : string) : bool := is_some (strip_prefix p s).

(** [str::strip_suffix] *)
Fixpoint strip_suffix (p s : string) : option string :=
  if (s =? p)%string then Some EmptyString
  else match s with
       | EmptyString => None
       | String c s => String c <$> strip_suffix p s
       end.

(** [str::ends_with] *)
Definition ends_with (p s : string) : bool := is_some (strip_suffix p s).

(** [str::find(&str)], returning the text before and after the first match. *)
Fixpoint split_once (p s : string) : option (string * string) :=
  match strip_prefix p s with
  | Some rest => Some (EmptyString, rest)
  | None => match s with
            | EmptyString => None
            | String c s => (λ '(a, b), (String c a, b)) <$> split_once p s
            end
  end.

(** [str::contains(&str)] *)
Definition contains (p s : string) : bool := is_some (split_once p s).

(** [str::rsplit_once], for a one-byte or longer pattern: the last match. *)
Fixpoint rsplit_once (p s : string) : option (string * string) :=
  match s with
  | EmptyString => None
  | String c rest =>
      match rsplit_once p rest with
      | Some (a, b) => Some (String c a, b)
      | None => (λ b, (EmptyString, b)) <$> strip_prefix p s
      end
  end.

(** [str::split(char)]: at least one piece, empty pieces kept. *)
Fixpoint split (c : ascii) (s : string) : list string :=
  match s with
  | EmptyString => [EmptyString]
  | String d s =>
      if (d =? c)%char then EmptyString :: split c s
      else match split c s with
           | piece :: pieces => String d piece :: pieces
           | [] => [String d EmptyString]
           end
  end.

(** [[&str]::join("/")] *)
Definition join (pieces : list string) : string := String.concat "/" pieces.

(** [str::replace('\\', "/")] *)
Fixpoint replace_backslash (s : string) : string :=
  match s with
  | EmptyString => EmptyString
  | String c s => String (if (c =? backslash)%char then slash else c) (replace_backslash s)
  end.

(** [str::contains("//")] *)
Fixpoint has_double_slash (s : string) : bool :=
  match s with
  | String c (String d _ as s') => (c =? slash)%char && (d =? slash)%char || has_double_slash s'
  | _ => false
  end.

(** [str::replace("//", "/")]: non-overlapping matches, left to right. *)
Fixpoint replace_double_slash (s : string) : string :=
  match s with
  | EmptyString => EmptyString
  | String c s' =>
      match s' with
      | String d s'' =>
          if (c =? slash)%char && (d =? slash)%char then String slash (replace_double_slash s'')
          else String c (replace_double_slash s')
      | EmptyString => s
      end
  end.

(** [str::trim_start_matches("./")] *)
Fixpoint trim_start_dot_slash (s : string) : string :=
  match s with
  | String c (String d s') =>
      if (c =? dot)%char && (d =? slash)%char then trim_start_dot_slash s' else s
  | _ => s
  end.

(** [str::trim_start_matches('/')] *)
Fixpoint trim_start_slash (s : string) : string :=
  match s with
  | String c s' => if (c =? slash)%char then trim_start_slash s' else s
  | EmptyString => EmptyString
  end.

(** [str::trim_end_matches('/')] *)
Fixpoint trim_end_slash (s : string) : string :=
  match s with
  | EmptyString => EmptyString
  | String c s =>
      let rest := trim_end_slash s in
      if (c =? slash)%char && (rest =? "")%string then EmptyString else String c rest
  end.

(** ** [workspace_graph.rs] *)

(** [while normalized.contains("//") { .. }] *)
Fixpoint collapse_slashes (fuel : nat) (s : string) : string :=
  match fuel with
  | O => s
  | Datatypes.S fuel =>
      if has_double_slash s then collapse_slashes fuel (replace_double_slash s) else s
  end.

Definition trim_ends (s : string) : string :=
  trim_end_slash (trim_start_slash (trim_start_dot_slash s)).

(** The [loop] that trims to a fixpoint. *)
Fixpoint trim_loop (fuel : nat) (s : string) : string :=
  match fuel with
  | O => s
  | Datatypes.S fuel =>
      let trimmed := trim_ends s in
      if (str_len trimmed =? str_len s) then s else trim_loop fuel trimmed
  end.

Definition normalize_workspace_path (path : string) : string :=
  let normalized := replace_backslash path in
  let normalized := collapse_slashes (String.length normalized) normalized in
  let normalized := trim_loop (String.length normalized) normalized in
  if (normalized =? ".")%string then EmptyString else normalized.

(** The walk of [resolve_symlink_target] over the components of the target.
    [stack] is the vector [resolved] with its last element first. *)
Fixpoint resolve_components (components : list string) (stack : list string)
    : option (list string) :=
  match components with
  | [] => Some stack
  | component :: components =>
      if (component =? "")%string || (component =? ".")%string then
        resolve_components components stack
      else if (component =? "..")%string then
        match stack with
        | [] => None
        | _ :: stack => resolve_components components stack
        end
      else resolve_components components (component :: stack)
  end.

Definition resolve_symlink_target (link_path target : string) : option string :=
  if (target =? "")%string || starts_with_char slash target then None else
  let link := normalize_workspace_path link_path in
  if (link =? "")%string then None else
  let resolved := tail (reverse (split slash link)) in
  stack ← resolve_components (split slash target) resolved;
  Some (normalize_workspace_path (join (reverse stack))).

Definition symlink_target_stays_in_workspace (link_path target : string) : bool :=
  is_some (resolve_symlink_target link_path target).

(** ** [state_paths.rs] and the path predicate of [manifest.rs] *)

Fixpoint all_bytes (p : ascii → bool) (s : string) : bool :=
  match s with EmptyString => true | String c s => p c && all_bytes p s end.

Definition byte_in (lo hi : ascii) (c : ascii) : bool :=
  (N_of_ascii lo <=? N_of_ascii c)%N && (N_of_ascii c <=? N_of_ascii hi)%N.

Definition is_recovery_nonce_component (name prefix : string) : bool :=
  match (rest ← strip_prefix prefix name; strip_suffix ".tmp" rest) with
  | None => false
  | Some nonce =>
      (str_len nonce =? 32) &&
      all_bytes (λ byte, byte_in "0" "9" byte || byte_in "a" "f" byte) nonce
  end.

Definition is_recovery_temp_component (name : string) : bool :=
  is_recovery_nonce_component name ".bowline-recovery-".

Definition is_recovery_quarantine_component (name : string) : bool :=
  is_recovery_nonce_component name ".bowline-recovery-quarantine-".

Definition is_private_workspace_state_path (path : string) : bool :=
  (path =? ".bowline")%string
  || starts_with ".bowline/" path
  || existsb (λ part,
       (starts_with ".bowline-materialize-" part && ends_with ".tmp" part)
       || is_recovery_temp_component part
       || is_recovery_quarantine_component part) (split slash path).

Definition MAX_WORKSPACE_PATH_LEN : Z := 4096.
Definition MAX_WORKSPACE_PATH_DEPTH : Z := 256.

Inductive PathRejection :=
| Empty | Absolute | NotNormalized | Traversal | PrivateEngineState | TooLong | TooDeep.

Definition publishable_workspace_path (path : string) (max_path_len : Z)
    (allow_workspace_state_paths : bool) : Result unit PathRejection :=
  if (path =? "")%string then Err Empty else
  if max_path_len <? str_len path then Err TooLong else
  if starts_with_char slash path then Err Absolute else
  if MAX_WORKSPACE_PATH_DEPTH <? Z.of_nat (length (split slash path)) then Err TooDeep else
  if existsb (λ part, (part =? "..")%string || (part =? ".")%string) (split slash path)
  then Err Traversal else
  if negb (normalize_workspace_path path =? path)%string then Err NotNormalized else
  if negb allow_workspace_state_paths && is_private_workspace_state_path path
  then Err PrivateEngineState else Ok tt.

(** ** [git_paths.rs] *)

Inductive GitPathClass := ImmutableObject | PointerState | DerivableVolatile | OrdinaryState.

#[export] Instance GitPathClass_eq_dec : EqDecision GitPathClass.
Proof. solve_decision. Defined.

Definition apply_rank (class : GitPathClass) : Z :=
  match class with
  | ImmutableObject => 0
  | OrdinaryState | DerivableVolatile => 1
  | PointerState => 2
  end.

Definition GIT_VOLATILE_ROOT_NAMES : list string := ["FETCH_HEAD"; "ORIG_HEAD"; "gc.log"; "gc.pid"].
Definition GIT_VOLATILE_DIR_PREFIXES : list string := ["logs/"].
Definition GIT_VOLATILE_DIR_NAMES : list string := ["logs"].
Definition GIT_WORKTREE_LOCAL_ROOT_NAMES : list string :=
  ["gitdir"; "commondir"; "locked"; "config.worktree"].

Definition str_in (s : string) (l : list string) : bool := existsb (String.eqb s) l.

Definition is_git_directory_path (path : string) : bool :=
  (path =? ".git")%string || ends_with "/.git" path.

Definition git_tail_path (path : string) : option string :=
  match strip_prefix ".git/" path with
  | Some tail => Some tail
  | None => snd <$> split_once "/.git/" path
  end.

Definition is_git_temp_object_path (tail : list string) (tail_path final_name : string) : bool :=
  if negb (starts_with "objects/" tail_path) then false
  else starts_with "tmp_" final_name
       || existsb (starts_with "tmp_") (skipn 1 tail).

Definition is_pointer_tail (tail_path : string) : bool :=
  str_in tail_path ["HEAD"; "packed-refs"; "shallow"] || starts_with "refs/" tail_path.

(** Both classifiers index [tail[0]] and [tail[tail.len() - 1]]; every caller
    passes a non-empty tail. *)
Definition classify_nested_module_suffix (tail : list string) : option GitPathClass :=
  let root_name := default EmptyString (head tail) in
  let final_name := default EmptyString (last tail) in
  let tail_path := join tail in
  let single := (length tail =? 1)%nat in
  if single && (str_in root_name GIT_VOLATILE_ROOT_NAMES
                || str_in root_name GIT_VOLATILE_DIR_NAMES) then Some DerivableVolatile
  else if single && ends_with ".lock" root_name then Some DerivableVolatile
  else if is_git_temp_object_path tail tail_path final_name then Some DerivableVolatile
  else if is_pointer_tail tail_path then Some PointerState
  else if starts_with "objects/" tail_path then Some ImmutableObject
  else None.

Definition classify_plain_git_tail (tail : list string) : GitPathClass :=
  let tail_path := join tail in
  let root_name := default EmptyString (head tail) in
  let final_name := default EmptyString (last tail) in
  let single := (length tail =? 1)%nat in
  if single && str_in root_name GIT_VOLATILE_ROOT_NAMES then DerivableVolatile
  else if single && str_in root_name GIT_VOLATILE_DIR_NAMES then DerivableVolatile
  else if existsb (λ prefix, starts_with prefix tail_path) GIT_VOLATILE_DIR_PREFIXES
  then DerivableVolatile
  else if existsb (ends_with ".lock") tail then DerivableVolatile
  else if is_git_temp_object_path tail tail_path final_name then DerivableVolatile
  else if is_pointer_tail tail_path then PointerState
  else if starts_with "objects/" tail_path then ImmutableObject
  else OrdinaryState.

(** The non-empty suffixes [tail[1..], tail[2..], ..] of [tail], in this order. *)
Fixpoint proper_suffixes (tail : list string) : list (list string) :=
  match tail with
  | _ :: (_ :: _ as rest) => rest :: proper_suffixes rest
  | _ => []
  end.

(** The two [for] loops of [classify_module_tail]. *)
Definition classify_module_suffixes (tail : list string) : GitPathClass :=
  let classes := classify_nested_module_suffix <$> proper_suffixes tail in
  if existsb (λ class, bool_decide (class = Some DerivableVolatile)) classes
  then DerivableVolatile
  else default OrdinaryState (head (omap id (reverse classes))).

(** [classify_git_tail], [classify_worktree_tail] and [classify_module_tail] call
    each other on shorter tails; the fuel is the length of the tail. *)
Fixpoint classify_git_tail_fuel (fuel : nat) (tail : list string) : option GitPathClass :=
  match fuel with
  | O => None
  | Datatypes.S fuel =>
      match tail with
      | [] => None
      | first :: rest =>
          if (first =? "worktrees")%string && (3 <=? length tail)%nat then
            let tail := skipn 2 tail in
            if is_some_and (λ root, str_in root GIT_WORKTREE_LOCAL_ROOT_NAMES) (head tail)
            then Some DerivableVolatile
            else Some (default OrdinaryState (classify_git_tail_fuel fuel tail))
          else if (first =? "modules")%string && (3 <=? length tail)%nat then
            if (length rest =? 2)%nat
            then Some (default OrdinaryState (classify_git_tail_fuel fuel (skipn 1 rest)))
            else Some (classify_module_suffixes rest)
          else Some (classify_plain_git_tail tail)
      end
  end.

Definition classify_git_tail (tail : list string) : option GitPathClass :=
  classify_git_tail_fuel (Datatypes.S (length tail)) tail.

Definition classify_git_path (path : string) : option GitPathClass :=
  if is_git_directory_path path then Some DerivableVolatile else
  tail_path ← git_tail_path path;
  let components := List.filter (λ c, negb (c =? "")%string) (split slash tail_path) in
  match components with
  | [] => None
  | _ => classify_git_tail components
  end.

(** ** [git_contract.rs] *)

Definition git_dir_for (path : string) : option string :=
  match split_once "/.git/" path with
  | Some (before, _) => Some (before +:+ "/.git")
  | None =>
      if (path =? ".git")%string || starts_with ".git/" path then Some ".git"
      else (λ prefix, prefix +:+ "/.git") <$> strip_suffix "/.git" path
  end.

Definition is_git_lock_path (path : string) : bool :=
  is_some_and (ends_with ".lock") (last (split slash path)) && contains ".git/" path.

Definition git_apply_rank (path : string) : Z :=
  match classify_git_path path with Some class => apply_rank class | None => 1 end.

Example classify_1 : classify_git_path "repo/.git/refs/heads/main" = Some PointerState.
Proof. reflexivity. Qed.
Example classify_2 : classify_git_path ".git/objects/ab/cdef" = Some ImmutableObject.
Proof. reflexivity. Qed.
Example classify_3 : classify_git_path ".git/modules/a/b/HEAD" = Some PointerState.
Proof. reflexivity. Qed.
Example norm_1 : normalize_workspace_path "./acme//web/src/" = "acme/web/src".
Proof. reflexivity. Qed.
Example norm_2 : normalize_workspace_path "/././/acme/" = "acme".
Proof. reflexivity. Qed.
Example res_1 : resolve_symlink_target ".claude/skills/ads" "../../.agents/skills/ads" = Some ".agents/skills/ads".
Proof. reflexivity. Qed.

(** ** Splitting and joining *)

Ltac chars :=
  repeat match goal with
  | H : context [(?a =? ?b)%char] |- _ => destruct (Ascii.eqb_spec a b); subst
  | |- context [(?a =? ?b)%char] => destruct (Ascii.eqb_spec a b); subst
  end.

Definition nonempty (s : string) : bool := negb (s =? "")%string.

(** The components of a path: what is between its slashes, empty pieces dropped. *)
Definition components (s : string) : list string := List.filter nonempty (split slash s).

Definition no_char (c : ascii) (s : string) : bool := all_bytes (λ d, negb (d =? c)%char) s.

Lemma split_nil c s : split c s ≠ [].
Proof. destruct s as [|d s]; [done|]. cbn. destruct (d =? c)%char; [done|]. by destruct (split c s). Qed.

Lemma split_cons_char c d s :
  split c (String d s) =
    if (d =? c)%char then EmptyString :: split c s
    else match split c s with piece :: pieces => String d piece :: pieces | [] => [] end.
Proof. cbn. destruct (d =? c)%char; [done|]. pose proof (split_nil c s). by destruct (split c s). Qed.

Lemma join_cons p q l : join (p :: q :: l) = p +:+ String slash (join (q :: l)).
Proof. done. Qed.

Lemma join_push d p l : join (String d p :: l) = String d (join (p :: l)).
Proof. by destruct l. Qed.

Lemma join_split s : join (split slash s) = s.
Proof.
  induction s as [|d s IH]; [done|]. rewrite split_cons_char. pose proof (split_nil slash s).
  chars.
  - destruct (split slash s) as [|p l] eqn:Hs; [done|]. rewrite join_cons, IH. done.
  - destruct (split slash s) as [|p l]; [done|]. by rewrite join_push, IH.
Qed.

Lemma split_no_char s : Forall (λ p, no_char slash p = true) (split slash s).
Proof.
  induction s as [|d s IH]; [by repeat constructor|]. rewrite split_cons_char. chars.
  - by constructor.
  - destruct (split slash s) as [|p l]; [done|]. inversion_clear IH. constructor; [|done].
    cbn. destruct (Ascii.eqb_spec d slash); done.
Qed.

Lemma split_single p : no_char slash p = true → split slash p = [p].
Proof.
  induction p as [|d p IH]; [done|]. intros H. rewrite split_cons_char. cbn in H.
  destruct (Ascii.eqb_spec d slash); [done|]. cbn in H. by rewrite IH.
Qed.

Lemma split_app p s : no_char slash p = true →
  split slash (p +:+ String slash s) = p :: split slash s.
Proof.
  induction p as [|d p IH]; [done|]. intros H.
  change (String d p +:+ String slash s) with (String d (p +:+ String slash s)).
  rewrite split_cons_char. cbn in H. destruct (Ascii.eqb_spec d slash); [done|].
  cbn in H. by rewrite IH.
Qed.

Lemma split_join l : l ≠ [] → Forall (λ p, no_char slash p = true) l → split slash (join l) = l.
Proof.
  induction l as [|p [|q l] IH]; [done|..]; intros _ H; inversion_clear H as [|?? Hp Hl].
  - by apply split_single.
  - rewrite join_cons, split_app by done. by rewrite IH.
Qed.

(** ** Normalization *)

(** The first piece and the non-empty later pieces: enough to compute the
    components of a longer text. *)
Definition pieces (s : string) : string * list string :=
  (default EmptyString (head (split slash s)), List.filter nonempty (tail (split slash s))).

Definition cons_nonempty (h : string) (t : list string) : list string :=
  if nonempty h then h :: t else t.

Lemma components_pieces s : components s = cons_nonempty (pieces s).1 (pieces s).2.
Proof.
  unfold components, pieces, cons_nonempty. pose proof (split_nil slash s).
  by destruct (split slash s).
Qed.

Lemma pieces_char d s :
  pieces (String d s) =
    if (d =? slash)%char then (EmptyString, components s)
    else (String d (pieces s).1, (pieces s).2).
Proof.
  unfold pieces, components. rewrite split_cons_char. destruct (d =? slash)%char; [done|].
  pose proof (split_nil slash s). by destruct (split slash s).
Qed.

Lemma components_slash s : components (String slash s) = components s.
Proof. done. Qed.

Lemma replace_double_cons c d s :
  replace_double_slash (String c (String d s)) =
    if (c =? slash)%char && (d =? slash)%char then String slash (replace_double_slash s)
    else String c (replace_double_slash (String d s)).
Proof. done. Qed.

Lemma pieces_replace_double n s : (String.length s < n)%nat → pieces (replace_double_slash s) = pieces s.
Proof.
  revert s. induction n as [|n IH]; intros s Hn; [lia|].
  destruct s as [|c [|d s]]; [done..|]. cbn [String.length] in Hn. rewrite replace_double_cons.
  destruct ((c =? slash)%char && (d =? slash)%char) eqn:E.
  - apply andb_true_iff in E as [->%Ascii.eqb_eq ->%Ascii.eqb_eq].
    rewrite !pieces_char, Ascii.eqb_refl, components_slash, !components_pieces.
    by rewrite IH by lia.
  - rewrite (pieces_char c (replace_double_slash _)), (pieces_char c (String d s)).
    by rewrite !components_pieces, IH by (cbn; lia).
Qed.

Lemma components_replace_double s : components (replace_double_slash s) = components s.
Proof. by rewrite !components_pieces, (pieces_replace_double _ s (Nat.lt_succ_diag_r _)). Qed.

Lemma pieces_trim_end s : pieces (trim_end_slash s) = pieces s.
Proof.
  induction s as [|c s IH]; [done|]. cbn [trim_end_slash].
  destruct ((c =? slash)%char && (trim_end_slash s =? "")%string) eqn:E.
  - apply andb_true_iff in E as [->%Ascii.eqb_eq E%String.eqb_eq].
    rewrite E in IH. rewrite pieces_char. cbn. by rewrite components_pieces, <-IH.
  - by rewrite !pieces_char, !components_pieces, IH.
Qed.

Lemma components_trim_end s : components (trim_end_slash s) = components s.
Proof. by rewrite !components_pieces, pieces_trim_end. Qed.

Lemma components_trim_start s : components (trim_start_slash s) = components s.
Proof. induction s as [|c s IH]; [done|]. cbn [trim_start_slash]. chars; [by rewrite IH|done]. Qed.

(** Drop the leading [.] components. *)
Fixpoint drop_dots (l : list string) : list string :=
  match l with
  | p :: l' => if (p =? ".")%string then drop_dots l' else l
  | [] => []
  end.

Lemma components_dot_slash s : components (String dot (String slash s)) = "."%string :: components s.
Proof. done. Qed.

Lemma components_trim_dot n s : (String.length s < n)%nat →
  drop_dots (components (trim_start_dot_slash s)) = drop_dots (components s).
Proof.
  revert s. induction n as [|n IH]; intros s Hn; [lia|].
  destruct s as [|c [|d s]]; [done..|]. cbn [String.length] in Hn.
  cbn [trim_start_dot_slash].
  destruct ((c =? dot)%char && (d =? slash)%char) eqn:E; [|done].
  apply andb_true_iff in E as [->%Ascii.eqb_eq ->%Ascii.eqb_eq].
  rewrite IH by lia. done.
Qed.

Lemma components_trim_ends s : drop_dots (components (trim_ends s)) = drop_dots (components s).
Proof.
  unfold trim_ends. rewrite components_trim_end, components_trim_start.
  apply (components_trim_dot _ s (Nat.lt_succ_diag_r _)).
Qed.

Lemma has_double_cons2 c d s :
  has_double_slash (String c (String d s)) =
    (c =? slash)%char && (d =? slash)%char || has_double_slash (String d s).
Proof. done. Qed.

Lemma replace_double_length n s : (String.length s < n)%nat →
  (String.length (replace_double_slash s) + (if has_double_slash s then 1 else 0) ≤ String.length s)%nat.
Proof.
  revert s. induction n as [|n IH]; intros s Hn; [lia|].
  destruct s as [|c [|d s]]; [cbn; lia..|]. cbn [String.length] in Hn.
  rewrite replace_double_cons, has_double_cons2.
  destruct ((c =? slash)%char && (d =? slash)%char).
  - cbn [String.length orb]. specialize (IH s ltac:(lia)). lia.
  - specialize (IH (String d s) ltac:(cbn; lia)). cbn [String.length orb] in *. lia.
Qed.

Lemma collapse_spec fuel s : (String.length s ≤ fuel)%nat →
  has_double_slash (collapse_slashes fuel s) = false ∧
  components (collapse_slashes fuel s) = components s.
Proof.
  revert s. induction fuel as [|fuel IH]; intros s Hn; cbn [collapse_slashes].
  - by destruct s; [|cbn in Hn; lia].
  - destruct (has_double_slash s) eqn:E; [|done].
    pose proof (replace_double_length _ s (Nat.lt_succ_diag_r _)) as Hlen. rewrite E in Hlen.
    destruct (IH (replace_double_slash s) ltac:(lia)) as [? ->]. split; [done|].
    apply components_replace_double.
Qed.

(** A trimmed text is no longer, and unchanged if it is as long. *)
Definition shortens (f : string → string) : Prop :=
  ∀ s, (String.length (f s) ≤ String.length s)%nat ∧
       (String.length (f s) = String.length s → f s = s) ∧
       (has_double_slash s = false → has_double_slash (f s) = false).

Lemma shortens_compose f g : shortens f → shortens g → shortens (λ s, g (f s)).
Proof.
  intros Hf Hg s. destruct (Hf s) as (? & Hf1 & ?), (Hg (f s)) as (? & Hg1 & ?).
  split_and!; [lia| |by auto]. intros. rewrite Hg1 by lia. apply Hf1. lia.
Qed.

Lemma no_double_tail c s : has_double_slash (String c s) = false → has_double_slash s = false.
Proof. destruct s as [|d s]; [done|]. cbn [has_double_slash]. by intros [_ ?]%orb_false_iff. Qed.

Lemma shortens_dot : shortens trim_start_dot_slash.
Proof.
  intros s. remember (String.length s) as n eqn:Hn. revert s Hn.
  induction (lt_wf n) as [n _ IH]. intros s ->.
  destruct s as [|c [|d s]]; [done..|]. cbn [trim_start_dot_slash].
  destruct ((c =? dot)%char && (d =? slash)%char); [|done].
  destruct (IH (String.length s) ltac:(cbn; lia) s eq_refl) as (? & ? & Hd). cbn [String.length].
  split_and!; [lia|lia|]. intros Hs. by eapply Hd, no_double_tail, no_double_tail.
Qed.

Lemma shortens_start : shortens trim_start_slash.
Proof.
  intros s. induction s as [|c s (? & ? & Hd)]; [done|]. cbn [trim_start_slash].
  destruct (c =? slash)%char; [|done]. cbn [String.length]. split_and!; [lia..|].
  intros Hs. by eapply Hd, no_double_tail.
Qed.

Lemma trim_end_head s : starts_with_char slash (trim_end_slash s) = true →
  starts_with_char slash s = true.
Proof. destruct s as [|c s]; [done|]. cbn [trim_end_slash]. by destruct (_ && _). Qed.

Lemma has_double_cons c s :
  has_double_slash (String c s) = (c =? slash)%char && starts_with_char slash s || has_double_slash s.
Proof.
  destruct s as [|d s]; [cbn; by rewrite andb_false_r|]. rewrite has_double_cons2.
  unfold starts_with_char. by rewrite (Ascii.eqb_sym slash d).
Qed.

Lemma shortens_end : shortens trim_end_slash.
Proof.
  intros s. induction s as [|c s (? & Heq & Hd)]; [done|]. cbn [trim_end_slash].
  destruct (_ && _); cbn [String.length]; [split_and!; [lia..|done]|].
  split_and!; [lia|by intros [= ?]; rewrite Heq|].
  rewrite !has_double_cons. intros [Hc Hs]%orb_false_iff. rewrite (Hd Hs), orb_false_r.
  destruct (c =? slash)%char; [|done]. cbn in *. apply not_true_iff_false.
  intros ?%trim_end_head. congruence.
Qed.

Lemma shortens_trim_ends : shortens trim_ends.
Proof.
  apply (shortens_compose (λ s, trim_start_slash (trim_start_dot_slash s)) trim_end_slash);
    [|apply shortens_end]. apply shortens_compose; [apply shortens_dot|apply shortens_start].
Qed.

Lemma trim_loop_spec fuel s : (String.length s ≤ fuel)%nat → has_double_slash s = false →
  let r := trim_loop fuel s in
  trim_ends r = r ∧ has_double_slash r = false ∧
  drop_dots (components r) = drop_dots (components s).
Proof.
  revert s. induction fuel as [|fuel IH]; intros s Hn Hd; cbn [trim_loop].
  - by destruct s; [|cbn in Hn; lia].
  - destruct (shortens_trim_ends s) as (? & Heq & Hd'). unfold str_len.
    destruct (Z.eqb_spec (Z.of_nat (String.length (trim_ends s))) (Z.of_nat (String.length s))).
    + rewrite Heq by lia. done.
    + destruct (IH (trim_ends s) ltac:(lia) (Hd' Hd)) as (? & ? & ->).
      split_and!; [done..|]. apply components_trim_ends.
Qed.

(** A text that trimming leaves alone. *)
Lemma trim_ends_fixed r : trim_ends r = r →
  trim_start_dot_slash r = r ∧ trim_start_slash r = r ∧ trim_end_slash r = r.
Proof.
  unfold trim_ends. intros Hr. destruct (shortens_dot r) as (Hl1 & Heq1 & _).
  destruct (shortens_start (trim_start_dot_slash r)) as (Hl2 & Heq2 & _).
  destruct (shortens_end (trim_start_slash (trim_start_dot_slash r))) as (Hl3 & _).
  rewrite Hr in Hl3. specialize (Heq1 ltac:(lia)). rewrite Heq1 in *.
  specialize (Heq2 ltac:(lia)). by rewrite Heq2 in *.
Qed.

Lemma split_nonempty_tail s : has_double_slash s = false → trim_end_slash s = s →
  Forall (λ p, nonempty p = true) (tail (split slash s)) ∧
  (s ≠ EmptyString → starts_with_char slash s = false →
   is_some_and nonempty (head (split slash s)) = true).
Proof.
  induction s as [|c s IH]; [done|]. intros Hd Ht. rewrite has_double_cons in Hd.
  apply orb_false_iff in Hd as [Hc Hd].
  cbn [trim_end_slash] in Ht. destruct (_ && _) eqn:E in Ht; [done|]. injection Ht as Ht.
  specialize (IH Hd Ht) as [IHt IHh]. rewrite split_cons_char.
  pose proof (split_nil slash s). destruct (Ascii.eqb_spec c slash) as [->|Hne].
  - split; [|done]. cbn in Hc, E. rewrite Ht in E. apply String.eqb_neq in E.
    specialize (IHh E Hc). cbn. destruct (split slash s) as [|p l]; [done|]. by constructor.
  - destruct (split slash s) as [|p l]; [done|]. split; [done|]. done.
Qed.

Lemma filter_all {A} (f : A → bool) l : Forall (λ x, f x = true) l → List.filter f l = l.
Proof. induction 1 as [|x l Hx _ IH]; [done|]. cbn. by rewrite Hx, IH. Qed.

Lemma components_fixed r : has_double_slash r = false → trim_ends r = r → r ≠ EmptyString →
  components r = split slash r.
Proof.
  intros Hd (_ & Hs & He)%trim_ends_fixed Hne.
  destruct (split_nonempty_tail r Hd He) as [Ht Hh]. apply filter_all.
  specialize (Hh Hne). destruct (split slash r) as [|p l] eqn:E; [done|].
  constructor; [apply Hh|done].
  destruct r as [|c r]; [done|]. cbn [trim_start_slash] in Hs. unfold starts_with_char.
  destruct (Ascii.eqb_spec slash c) as [<-|]; [|done].
  exfalso. rewrite Ascii.eqb_refl in Hs. destruct (shortens_start r) as (Hl & _).
  rewrite Hs in Hl. cbn in Hl. lia.
Qed.

Lemma drop_dots_fixed r : r ≠ "."%string → trim_start_dot_slash r = r →
  drop_dots (split slash r) = split slash r.
Proof.
  intros Hne Ht. destruct (split slash r) as [|p l] eqn:E; [done|]. cbn.
  destruct (String.eqb_spec p ".") as [->|]; [|done]. exfalso.
  destruct r as [|c [|d r]].
  - by injection E.
  - rewrite split_cons_char in E. destruct (Ascii.eqb_spec c slash); [done|].
    cbn in E. congruence.
  - rewrite !split_cons_char in E. destruct (Ascii.eqb_spec c slash); [done|].
    destruct (Ascii.eqb_spec d slash) as [->|].
    + injection E as -> _. destruct (shortens_dot r) as (Hl & _).
      change (trim_start_dot_slash (String dot (String slash r))) with (trim_start_dot_slash r) in Ht.
      rewrite Ht in Hl. cbn in Hl. lia.
    + by destruct (split slash r).
Qed.

Lemma normalize_reference p :
  normalize_workspace_path p = join (drop_dots (components (replace_backslash p))).
Proof.
  unfold normalize_workspace_path.
  set (s := replace_backslash p). destruct (collapse_spec _ s (le_n _)) as [Hd Hc].
  set (s1 := collapse_slashes (String.length s) s) in *.
  destruct (trim_loop_spec _ s1 (le_n _) Hd) as (Ht & Hd' & Hdots).
  rewrite <-Hc, <-Hdots. set (r := trim_loop _ s1) in *. clearbody r.
  destruct (String.eqb_spec r ".") as [->|Hne]; [done|].
  destruct (decide (r = EmptyString)) as [->|Hr]; [done|].
  rewrite components_fixed by done. apply trim_ends_fixed in Ht as (? & _).
  by rewrite drop_dots_fixed, join_split.
Qed.

(** ** Plain names

    A plain name is what a directory entry of the workspace can be called and
    what normalization leaves alone. *)
Definition plain (name : string) : bool :=
  nonempty name && no_char slash name && no_char backslash name
  && negb (name =? ".")%string && negb (name =? "..")%string.

Lemma no_char_split c s : no_char c s = true → Forall (λ p, no_char c p = true) (split slash s).
Proof.
  induction s as [|d s IH]; [by repeat constructor|]. intros [Hd Hs]%andb_true_iff.
  specialize (IH Hs). rewrite split_cons_char. destruct (d =? slash)%char; [by constructor|].
  destruct (split slash s) as [|p l]; [done|]. inversion_clear IH.
  constructor; [by apply andb_true_iff|done].
Qed.

Lemma no_char_app c s t : no_char c (s +:+ t) = no_char c s && no_char c t.
Proof.
  induction s as [|d s IH]; [done|].
  change (String d s +:+ t) with (String d (s +:+ t)). unfold no_char in *. cbn [all_bytes].
  by rewrite IH, andb_assoc.
Qed.

Lemma no_backslash_join l : Forall (λ p, no_char backslash p = true) l →
  no_char backslash (join l) = true.
Proof.
  induction l as [|p [|q l] IH]; [done|..]; intros H; inversion_clear H as [|?? Hp Hl]; [done|].
  rewrite join_cons, no_char_app, Hp. by apply IH.
Qed.

Lemma replace_backslash_none s : no_char backslash s = true → replace_backslash s = s.
Proof.
  induction s as [|c s IH]; [done|]. intros [Hc Hs]%andb_true_iff. cbn [replace_backslash].
  apply negb_true_iff in Hc. by rewrite Hc, IH.
Qed.

Lemma replace_backslash_no s : no_char backslash (replace_backslash s) = true.
Proof.
  induction s as [|c s IH]; [done|]. cbn [replace_backslash]. apply andb_true_iff. split; [|done].
  destruct (Ascii.eqb_spec c backslash); [done|]. by apply negb_true_iff, Ascii.eqb_neq.
Qed.

Lemma components_join l :
  Forall (λ p, no_char slash p = true ∧ nonempty p = true) l → components (join l) = l.
Proof.
  destruct l as [|p l]; [done|]. intros H. unfold components.
  rewrite split_join; [|done|by eapply Forall_impl; [exact H|intros ? []]].
  apply filter_all. by eapply Forall_impl; [exact H|intros ? []].
Qed.

Lemma join_fixed l :
  Forall (λ p, no_char slash p = true ∧ nonempty p = true) l →
  Forall (λ p, no_char backslash p = true) l → drop_dots l = l →
  normalize_workspace_path (join l) = join l.
Proof.
  intros Hs Hb Hd. rewrite normalize_reference, replace_backslash_none by by apply no_backslash_join.
  by rewrite components_join, Hd.
Qed.

Lemma drop_dots_Forall (P : string → Prop) l : Forall P l → Forall P (drop_dots l).
Proof. induction 1 as [|p l ? ? IH]; [constructor|]. cbn. destruct (p =? ".")%string; by try constructor. Qed.

Lemma drop_dots_idem l : drop_dots (drop_dots l) = drop_dots l.
Proof.
  induction l as [|p l IH]; [done|]. cbn. destruct (p =? ".")%string eqn:E; [done|].
  cbn. by rewrite E.
Qed.

Lemma filter_Forall {A} (f : A → bool) (P : A → Prop) l :
  Forall P l → Forall (λ x, P x ∧ f x = true) (List.filter f l).
Proof. induction 1 as [|x l ? ? IH]; [constructor|]. cbn. destruct (f x) eqn:E; by try constructor. Qed.

Lemma components_Forall (P : string → Prop) s :
  Forall P (split slash s) → Forall P (components s).
Proof. intros H. eapply Forall_impl; [apply (filter_Forall nonempty P), H|by intros ? []]. Qed.

Lemma normalize_fixed p :
  normalize_workspace_path (normalize_workspace_path p) = normalize_workspace_path p.
Proof.
  rewrite (normalize_reference p). apply join_fixed; [..|apply drop_dots_idem].
  - apply drop_dots_Forall, filter_Forall, split_no_char.
  - apply drop_dots_Forall, components_Forall, no_char_split, replace_backslash_no.
Qed.

Lemma plain_spec n : plain n = true →
  nonempty n = true ∧ no_char slash n = true ∧ no_char backslash n = true ∧
  n ≠ "."%string ∧ n ≠ ".."%string.
Proof.
  unfold plain. intros [[[[? ?]%andb_true_iff ?]%andb_true_iff ?]%andb_true_iff ?]%andb_true_iff.
  rewrite !negb_true_iff, !String.eqb_neq in *. done.
Qed.

Lemma plain_drop_dots l : Forall (λ n, plain n = true) l → drop_dots l = l.
Proof.
  destruct 1 as [|p l Hp _]; [done|]. cbn. apply plain_spec in Hp as (_ & _ & _ & ? & _).
  destruct (String.eqb_spec p "."); done.
Qed.

Lemma plain_join l : Forall (λ n, plain n = true) l →
  normalize_workspace_path (join l) = join l ∧ components (join l) = l ∧
  (l ≠ [] → split slash (join l) = l).
Proof.
  intros Hl.
  assert (Forall (λ p, no_char slash p = true ∧ nonempty p = true) l) as Hs
    by (eapply Forall_impl; [exact Hl|by intros ? (? & ? & _)%plain_spec]).
  split_and!.
  - apply join_fixed; [done| |by apply plain_drop_dots].
    eapply Forall_impl; [exact Hl|by intros ? (_ & _ & ? & _)%plain_spec].
  - by apply components_join.
  - intros ?. apply split_join; [done|]. eapply Forall_impl; [exact Hs|by intros ? []].
Qed.

(** A publishable path is the join of plain names. *)
Lemma publishable_plain path len allow :
  publishable_workspace_path path len allow = Ok tt →
  ∃ names, names ≠ [] ∧ path = join names ∧ Forall (λ n, plain n = true) names.
Proof.
  unfold publishable_workspace_path.
  destruct (String.eqb_spec path "") as [|Hne]; [done|].
  destruct (_ <? _); [done|]. destruct (starts_with_char _ _); [done|].
  destruct (_ <? _); [done|]. destruct (existsb _ _) eqn:Htrav; [done|].
  destruct (String.eqb_spec (normalize_workspace_path path) path) as [Hn|]; [|done]. intros _.
  exists (split slash path). rewrite join_split. split_and!; [apply split_nil|done|].
  rewrite normalize_reference in Hn. set (l := drop_dots _) in Hn.
  assert (Forall (λ p, no_char slash p = true ∧ nonempty p = true) l) as Hs
    by apply drop_dots_Forall, filter_Forall, split_no_char.
  assert (Forall (λ p, no_char backslash p = true) l) as Hb
    by apply drop_dots_Forall, components_Forall, no_char_split, replace_backslash_no.
  clearbody l. subst path. destruct l as [|p l]; [done|].
  rewrite split_join in Htrav |- *;
    [|done|by eapply Forall_impl; [exact Hs|intros ? []]
     |done|by eapply Forall_impl; [exact Hs|intros ? []]].
  clear Hne. revert Hs Hb Htrav. generalize (p :: l). clear.
  induction l as [|p l IH]; intros Hs Hb Ht; [constructor|].
  inversion_clear Hs as [|?? [Hp1 Hp2] Hs']. inversion_clear Hb as [|?? Hp3 Hb'].
  cbn in Ht. apply orb_false_iff in Ht as [[Hp4 Hp5]%orb_false_iff Ht].
  constructor; [|by apply IH]. unfold plain. by rewrite Hp1, Hp2, Hp3, Hp4, Hp5.
Qed.

(** ** Prefixes and components *)

Lemma str_app_cons c (p r : string) : String c p +:+ r = String c (p +:+ r).
Proof. done. Qed.

Lemma str_app_assoc (p q r : string) : (p +:+ q) +:+ r = p +:+ q +:+ r.
Proof. induction p as [|c p IH]; [done|]. by rewrite !str_app_cons, IH. Qed.

Lemma str_length_app (p r : string) :
  String.length (p +:+ r) = (String.length p + String.length r)%nat.
Proof. induction p as [|c p IH]; [done|]. rewrite str_app_cons. cbn. by rewrite IH. Qed.

Lemma strip_prefix_Some p s r : strip_prefix p s = Some r → s = p +:+ r.
Proof.
  revert s. induction p as [|c p IH]; intros [|d s]; cbn; [by intros [= <-]|by intros [= <-]|done|].
  destruct (Ascii.eqb_spec c d) as [->|]; [|done]. intros H%IH. by rewrite H.
Qed.

Lemma strip_prefix_app p r : strip_prefix p (p +:+ r) = Some r.
Proof. induction p as [|c p IH]; rewrite ?str_app_cons; cbn; [done|]. by rewrite Ascii.eqb_refl. Qed.

(** A path component: what may stand between two slashes. *)
Definition segment (n : string) : Prop := no_char slash n = true ∧ nonempty n = true.

#[export] Instance segment_dec n : Decision (segment n) := _.

Lemma join_inj l l' : Forall segment l → Forall segment l' → join l = join l' → l = l'.
Proof. intros Hl Hl' He. rewrite <-(components_join l), <-(components_join l') by done. by rewrite He. Qed.

Lemma join_nil l : Forall segment l → join l = "" → l = [].
Proof. intros Hl He. by apply (join_inj l []). Qed.

Lemma join_below l n l' : l ≠ [] → join (l ++ n :: l')%list = join l +:+ "/" +:+ join (n :: l').
Proof.
  induction l as [|p [|q l] IH]; [done|..]; intros _; [done|].
  change ((p :: q :: l) ++ n :: l')%list with (p :: q :: (l ++ n :: l'))%list.
  rewrite !join_cons. change (q :: (l ++ n :: l'))%list with ((q :: l) ++ n :: l')%list.
  rewrite IH by done. by rewrite !str_app_assoc.
Qed.

Lemma split_join_app l r : Forall segment l → l ≠ [] →
  split slash (join l +:+ "/" +:+ r) = (l ++ split slash r)%list.
Proof.
  intros Hl Hne. induction l as [|p [|q l] IH]; [done|..]; apply Forall_cons in Hl as [[Hp _] Hl].
  - cbn. by apply split_app.
  - rewrite join_cons, str_app_assoc, str_app_cons, split_app by done.
    rewrite IH by done. done.
Qed.

(** ** Properties *)

(** Normalization is exactly "replace backslashes, split at slashes, drop the
    empty components and the leading dots, join": the two loops that rewrite the
    text in place compute this in any order of slashes and dots, end within
    their fuel, and leave a normalized path alone. *)
Theorem normalize_canonical p :
  normalize_workspace_path p = join (drop_dots (components (replace_backslash p))) ∧
  normalize_workspace_path (normalize_workspace_path p) = normalize_workspace_path p.
Proof. split; [apply normalize_reference|apply normalize_fixed]. Qed.
