(* ===== verification/Glob.v ===== *)
(** * Glob patterns

    Models [glob.rs]: the matcher of policy patterns, a dynamic program over one flat table.
    [gmatch] is its specification: what [*], [?] and the recursive [**] mean, by recursion on
    the pattern.  An index outside the table is a panic, [None] here. *)

From Stdlib Require Import Ascii.
From S2P Require Import Prelude.
Local Open Scope string_scope.
Local Open Scope nat_scope.

Definition MAX_GLOB_MATCH_BYTES : nat := 1024.

Definition slash_byte : ascii := "/"%char.
Definition star_byte : ascii := "*"%char.
Definition any_byte : ascii := "?"%char.

(** ** The matcher *)

Section Table.
Context (pattern text : list ascii).

Definition stride : nat := length text + 1.

Definition double_star_is_recursive (pattern_index : nat) : bool :=
  let starts_segment := (pattern_index =? 0)%nat || bool_decide (pattern !! (pattern_index - 1) = Some slash_byte) in
  let next_index := pattern_index + 2 in
  let ends_segment := (next_index =? length pattern)%nat || bool_decide (pattern !! next_index = Some slash_byte) in
  starts_segment && ends_segment.

(** [table[i] = v] *)
Definition store_cell (i : nat) (v : bool) (table : list bool) : option (list bool) :=
  if (i <? length table)%nat then Some (<[i := v]> table) else None.

(** The loop of [fill_double_star_row] for text indices below [n], downwards. *)
Fixpoint fill_deep_row (row after_slash_row n : nat) (later : bool) (table : list bool) : option (list bool) :=
  match n with
  | 0 => Some table
  | Datatypes.S text_index =>
      later ← (if bool_decide (text !! text_index = Some slash_byte)
               then (λ cell, later || cell) <$> table !! (row + text_index + 1) else Some later);
      after ← table !! (after_slash_row + text_index);
      table ← store_cell (row + text_index) (after || later) table;
      fill_deep_row row after_slash_row text_index later table
  end.

(** [table[row..row + stride].fill(true)] *)
Definition fill_true (row : nat) (table : list bool) : option (list bool) :=
  if (row + stride <=? length table)%nat
  then Some (take row table ++ replicate stride true ++ drop (row + stride) table)%list else None.

Definition fill_double_star_row (pattern_index : nat) (table : list bool) : option (list bool) :=
  let row := pattern_index * stride in
  let next_pattern_index := pattern_index + 2 in
  if bool_decide (pattern !! next_pattern_index = Some slash_byte)
  then fill_deep_row row ((next_pattern_index + 1) * stride) (length text + 1) false table
  else fill_true row table.

(** One cell of an ordinary row. *)
Definition cell_value (byte : ascii) (row next_row text_index : nat) (table : list bool) : option bool :=
  if Ascii.eqb byte star_byte then
    next ← table !! (next_row + text_index);
    match next : bool with
    | true => Some true
    | false =>
        match text !! text_index with
        | Some c => if Ascii.eqb c slash_byte then Some false else table !! (row + text_index + 1)
        | None => Some false
        end
    end
  else if Ascii.eqb byte any_byte then
    match text !! text_index with
    | Some c => if Ascii.eqb c slash_byte then Some false else table !! (next_row + text_index + 1)
    | None => Some false
    end
  else if bool_decide (text !! text_index = Some byte) then table !! (next_row + text_index + 1)
  else Some false.

(** The inner loop, for text indices below [n], downwards. *)
Fixpoint fill_row (byte : ascii) (row n : nat) (table : list bool) : option (list bool) :=
  match n with
  | 0 => Some table
  | Datatypes.S text_index =>
      value ← cell_value byte row (row + stride) text_index table;
      table ← store_cell (row + text_index) value table;
      fill_row byte row text_index table
  end.

(** The outer loop, for pattern indices below [n], downwards. *)
Fixpoint fill_table (n : nat) (table : list bool) : option (list bool) :=
  match n with
  | 0 => Some table
  | Datatypes.S pattern_index =>
      byte ← pattern !! pattern_index;
      table ← (if Ascii.eqb byte star_byte
                  && bool_decide (pattern !! (pattern_index + 1) = Some star_byte)
                  && double_star_is_recursive pattern_index
               then fill_double_star_row pattern_index table
               else fill_row byte (pattern_index * stride) (length text + 1) table);
      fill_table pattern_index table
  end.

Definition glob_matches_bytes : option bool :=
  if (MAX_GLOB_MATCH_BYTES <? length pattern)%nat || (MAX_GLOB_MATCH_BYTES <? length text)%nat then Some false else
  table ← store_cell (length pattern * stride + length text) true (replicate (stride * (length pattern + 1)) false);
  table ← fill_table (length pattern) table;
  table !! 0.

End Table.

(** [glob_matches]; the [None] of a panic does not occur ([glob_exact]). *)
Definition glob_matches (pattern text : string) : bool :=
  default false (glob_matches_bytes (String.list_ascii_of_string pattern) (String.list_ascii_of_string text)).

(** ** The meaning of a pattern *)

(** A run of characters without a slash, then [next]. *)
Fixpoint star_match (next : list ascii → bool) (text : list ascii) : bool :=
  next text || match text with
               | c :: text => negb (Ascii.eqb c slash_byte) && star_match next text
               | [] => false
               end.

(** [next] after some slash. *)
Fixpoint later_segment (next : list ascii → bool) (text : list ascii) : bool :=
  match text with
  | c :: text => (Ascii.eqb c slash_byte && next text) || later_segment next text
  | [] => false
  end.

(** One byte of a pattern outside a recursive [**], then [next]. *)
Definition plain_match (byte : ascii) (next : list ascii → bool) (text : list ascii) : bool :=
  if Ascii.eqb byte star_byte then star_match next text
  else match text with
       | c :: text =>
           (if Ascii.eqb byte any_byte then negb (Ascii.eqb c slash_byte) else Ascii.eqb byte c) && next text
       | [] => false
       end.

(** [gmatch start p t]: [p] matches [t]; [start] says that [p] begins a segment.  [**/] stands
    for any number of segments and [**] at the end for any text; elsewhere a [*] stands for
    characters of one segment and a [?] for one. *)
Fixpoint gmatch (start : bool) (p : list ascii) : list ascii → bool :=
  match p with
  | [] => λ t, match t with [] => true | _ => false end
  | c :: p1 =>
      let plain := plain_match c (gmatch (Ascii.eqb c slash_byte) p1) in
      match p1 with
      | [c2] => if start && Ascii.eqb c star_byte && Ascii.eqb c2 star_byte then λ _, true else plain
      | c2 :: c3 :: p3 =>
          if start && Ascii.eqb c star_byte && Ascii.eqb c2 star_byte && Ascii.eqb c3 slash_byte
          then λ t, gmatch true p3 t || later_segment (gmatch true p3) t
          else plain
      | [] => plain
      end
  end.

Definition glob_spec (pattern text : string) : bool :=
  gmatch true (String.list_ascii_of_string pattern) (String.list_ascii_of_string text).

Example globs :
  (glob_matches "*.ipynb" "analysis.ipynb", glob_matches "notebooks/*.ipynb" "src/run.ipynb",
   glob_matches "**/*.ipynb" "vendored/dep/run.ipynb", glob_matches "a/**/run.ipynb" "a/run.ipynb",
   glob_matches "a/**/run.ipynb" "a/b/c/run.ipynb", glob_matches "data**" "data/deep/blob.bin",
   glob_matches "notebooks**.ipynb" "notebooks-v1.ipynb")
  = (true, false, true, true, true, false, true).
Proof. vm_compute. reflexivity. Qed.

(** ** The matcher computes the meaning *)

Section Exact.
Context (pattern text : list ascii).
Local Abbreviation n := (length text).
Local Abbreviation m := (length pattern).
Local Abbreviation stride := (stride text).

(** Whether a segment of the pattern begins at [i]. *)
Definition starts_at (i : nat) : bool := (i =? 0)%nat || bool_decide (pattern !! (i - 1) = Some slash_byte).

(** What the cell of the pattern from [i] and the text from [t] should hold. *)
Definition value (i t : nat) : bool := gmatch (starts_at i) (drop i pattern) (drop t text).

Definition good_row (i k : nat) (table : list bool) : Prop :=
  ∀ t, k ≤ t ≤ n → table !! (i * stride + t) = Some (value i t).

(** The rows from [i] on are filled. *)
Definition good (i : nat) (table : list bool) : Prop :=
  length table = stride * (m + 1) ∧ ∀ j, i ≤ j ≤ m → good_row j 0 table.

Lemma starts_after i c : pattern !! i = Some c → starts_at (Datatypes.S i) = Ascii.eqb c slash_byte.
Proof.
  intros Hc. unfold starts_at. cbn [Nat.eqb orb]. replace (Datatypes.S i - 1) with i by lia. rewrite Hc.
  destruct (Ascii.eqb_spec c slash_byte) as [->|Hne]; [by rewrite bool_decide_eq_true_2|].
  rewrite bool_decide_eq_false_2; [done|]. by intros [= ->].
Qed.

Definition deep (i : nat) (c : ascii) : bool :=
  Ascii.eqb c star_byte && bool_decide (pattern !! (i + 1) = Some star_byte) && double_star_is_recursive pattern i.

Lemma bool_decide_byte (o : option ascii) b : bool_decide (o = Some b) = match o with Some c => Ascii.eqb c b | None => false end.
Proof.
  destruct o as [c|]; [|by rewrite bool_decide_eq_false_2]. destruct (Ascii.eqb_spec c b) as [->|Hne].
  - by rewrite bool_decide_eq_true_2.
  - rewrite bool_decide_eq_false_2; [done|]. by intros [= ->].
Qed.

(** The test of the code, on the rest of the pattern. *)
Lemma deep_tail i c : pattern !! i = Some c →
  deep i c = starts_at i && Ascii.eqb c star_byte &&
    match drop (Datatypes.S i) pattern with
    | [c2] => Ascii.eqb c2 star_byte
    | c2 :: c3 :: _ => Ascii.eqb c2 star_byte && Ascii.eqb c3 slash_byte
    | [] => false
    end.
Proof.
  intros Hc. unfold deep, double_star_is_recursive. change (_ || bool_decide (pattern !! (i - 1) = _)) with (starts_at i).
  rewrite !bool_decide_byte. pose proof (lookup_lt_Some _ _ _ Hc) as Hlt.
  assert (∀ k, pattern !! (i + Datatypes.S k) = drop (Datatypes.S i) pattern !! k) as Hl.
  { intros k. rewrite lookup_drop. f_equal. lia. }
  rewrite (Hl 0), (Hl 1). assert (length (drop (Datatypes.S i) pattern) = m - Datatypes.S i) as Hlen by apply length_drop.
  destruct (drop (Datatypes.S i) pattern) as [|c2 [|c3 p3]]; cbn in *.
  - destruct (Ascii.eqb c star_byte), (starts_at i); done.
  - replace (i + 2 =? m)%nat with true by (symmetry; apply Nat.eqb_eq; lia).
    destruct (Ascii.eqb c star_byte), (starts_at i), (Ascii.eqb c2 star_byte); done.
  - replace (i + 2 =? m)%nat with false by (symmetry; apply Nat.eqb_neq; lia).
    destruct (Ascii.eqb c star_byte), (starts_at i), (Ascii.eqb c2 star_byte), (Ascii.eqb c3 slash_byte); done.
Qed.

Local Abbreviation rest i := (gmatch (starts_at i) (drop i pattern)).

(** The specification of a row, from the rows below. *)
Lemma value_plain i t c : pattern !! i = Some c → deep i c = false →
  value i t = plain_match c (rest (Datatypes.S i)) (drop t text).
Proof.
  intros Hc Hdeep. rewrite (deep_tail i c Hc) in Hdeep. unfold value.
  rewrite (drop_S pattern c i Hc), (starts_after i c Hc). cbn [gmatch].
  destruct (drop (Datatypes.S i) pattern) as [|c2 [|c3 p3]]; [done| |].
  - by rewrite Hdeep.
  - rewrite andb_assoc in Hdeep. by rewrite Hdeep.
Qed.

Lemma value_deep i t c : pattern !! i = Some c → deep i c = true →
  value i t = if bool_decide (pattern !! (i + 2) = Some slash_byte)
              then rest (i + 3) (drop t text) || later_segment (rest (i + 3)) (drop t text) else true.
Proof.
  intros Hc Hdeep. rewrite (deep_tail i c Hc) in Hdeep. unfold value. rewrite (drop_S pattern c i Hc). cbn [gmatch].
  assert (pattern !! (i + 2) = drop (Datatypes.S i) pattern !! 1) as Hl by (rewrite lookup_drop; f_equal; lia).
  assert (drop (i + 3) pattern = drop 2 (drop (Datatypes.S i) pattern)) as Hd by (rewrite drop_drop; f_equal; lia).
  assert (starts_at (i + 3) = bool_decide (pattern !! (i + 2) = Some slash_byte)) as Hs.
  { unfold starts_at. replace (i + 3 - 1) with (i + 2) by lia. by replace (i + 3 =? 0)%nat with false by (symmetry; apply Nat.eqb_neq; lia). }
  rewrite Hs, Hd, Hl, !bool_decide_byte.
  destruct (drop (Datatypes.S i) pattern) as [|c2 [|c3 p3]]; cbn [lookup list_lookup drop].
  - by rewrite andb_false_r in Hdeep.
  - by rewrite Hdeep.
  - rewrite andb_assoc in Hdeep. rewrite Hdeep. rewrite !andb_true_iff in Hdeep. destruct Hdeep as [_ ->]. done.
Qed.

(** ** Cells *)

Lemma cell_neq i t j u : t ≤ n → u ≤ n → (i, t) ≠ (j, u) → i * stride + t ≠ j * stride + u.
Proof.
  intros Ht Hu Hne. unfold Glob.stride. intros Heq. apply Hne.
  assert (i = j) as ->; [|f_equal; lia]. nia.
Qed.

Lemma store_good i t v table : i ≤ m → t ≤ n → length table = stride * (m + 1) →
  ∃ table', store_cell (i * stride + t) v table = Some table' ∧ length table' = length table
    ∧ table' !! (i * stride + t) = Some v
    ∧ ∀ j u, u ≤ n → (i, t) ≠ (j, u) → table' !! (j * stride + u) = table !! (j * stride + u).
Proof.
  intros Hi Ht Hlen. assert (i * stride + t < length table) as Hlt by (rewrite Hlen; unfold Glob.stride; nia).
  unfold store_cell. rewrite (proj2 (Nat.ltb_lt _ _) Hlt). eexists. split_and!; [done|apply length_insert| |].
  - by apply list_lookup_insert_eq.
  - intros j u Hu Hne. apply list_lookup_insert_ne. by apply cell_neq.
Qed.

(** Storing the right value in the next cell of a row. *)
Lemma store_step i t table : i ≤ m → t ≤ n → good (Datatypes.S i) table → good_row i (Datatypes.S t) table →
  ∃ table', store_cell (i * stride + t) (value i t) table = Some table' ∧ good (Datatypes.S i) table' ∧ good_row i t table'.
Proof.
  intros Hi Ht [Hlen Hgood] Hrow. destruct (store_good i t (value i t) table Hi Ht Hlen) as (table' & Hst & Hl & Heq & Hne).
  exists table'. split_and!; [done|split; [congruence|]|].
  - intros j Hj u Hu. rewrite Hne; [by apply Hgood|lia|intros [= ->]; lia].
  - intros u Hu. destruct (decide (u = t)) as [->|Hut]; [done|]. rewrite Hne; [apply Hrow; lia|lia|congruence].
Qed.

Lemma text_at t : t ≤ n → drop t text = match text !! t with Some c => c :: drop (Datatypes.S t) text | None => [] end.
Proof.
  intros Ht. destruct (text !! t) as [c|] eqn:Ec; [by apply drop_S|]. apply lookup_ge_None in Ec. by apply drop_ge.
Qed.

Lemma star_match_unfold next t : star_match next t = next t || match t with c :: t => negb (Ascii.eqb c slash_byte) && star_match next t | [] => false end.
Proof. by destruct t. Qed.

Lemma cell_right i t c table : pattern !! i = Some c → deep i c = false → t ≤ n →
  good (Datatypes.S i) table → good_row i (Datatypes.S t) table →
  cell_value text c (i * stride) (i * stride + stride) t table = Some (value i t).
Proof.
  intros Hc Hdeep Ht [Hlen Hgood] Hrow. pose proof (lookup_lt_Some _ _ _ Hc) as Hi.
  assert (∀ u, u ≤ n → table !! (i * stride + stride + u) = Some (value (Datatypes.S i) u)) as Hnext.
  { intros u Hu. rewrite <- (Hgood (Datatypes.S i) ltac:(lia) u ltac:(lia)). f_equal. lia. }
  rewrite (value_plain i t c Hc Hdeep). unfold cell_value, plain_match.
  pose proof (text_at t Ht) as Htext. destruct (Ascii.eqb_spec c star_byte) as [->|Hstar].
  - rewrite Hnext by lia. cbn [mbind option_bind]. rewrite star_match_unfold. unfold value at 1.
    destruct (rest (Datatypes.S i) (drop t text)) eqn:En; [done|]. cbn [orb]. rewrite Htext.
    destruct (text !! t) as [d|] eqn:Ed; [|done]. apply lookup_lt_Some in Ed. destruct (Ascii.eqb d slash_byte); [done|].
    cbn [negb andb]. replace (i * stride + t + 1) with (i * stride + Datatypes.S t) by lia. rewrite Hrow by lia.
    f_equal. rewrite (value_plain i _ star_byte Hc Hdeep). unfold plain_match. by rewrite Ascii.eqb_refl.
  - rewrite Htext. destruct (text !! t) as [d|] eqn:Ed.
    2:{ destruct (Ascii.eqb c any_byte); [done|]. by rewrite bool_decide_eq_false_2. }
    apply lookup_lt_Some in Ed. replace (i * stride + stride + t + 1) with (i * stride + stride + Datatypes.S t) by lia.
    rewrite Hnext by lia. destruct (Ascii.eqb c any_byte); [by destruct (Ascii.eqb d slash_byte)|].
    rewrite bool_decide_byte. rewrite Ascii.eqb_sym. by destruct (Ascii.eqb c d).
Qed.

Lemma fill_row_good i c k table : pattern !! i = Some c → deep i c = false → k ≤ n + 1 →
  good (Datatypes.S i) table → good_row i k table →
  ∃ table', fill_row text c (i * stride) k table = Some table' ∧ good (Datatypes.S i) table' ∧ good_row i 0 table'.
Proof.
  intros Hc Hdeep. pose proof (lookup_lt_Some _ _ _ Hc) as Hi. revert table.
  induction k as [|t IH]; intros table Hk Hgood Hrow; [by exists table|]. cbn [fill_row].
  rewrite (cell_right i t c table) by (done || lia). cbn [mbind option_bind].
  destruct (store_step i t table) as (table' & -> & Hgood' & Hrow'); [lia|lia|done..|]. cbn [mbind option_bind].
  apply IH; [lia|done..].
Qed.

Lemma fill_deep_row_good i c k table : pattern !! i = Some c → deep i c = true →
  pattern !! (i + 2) = Some slash_byte → k ≤ n + 1 → good (Datatypes.S i) table → good_row i k table →
  ∃ table', fill_deep_row text (i * stride) ((i + 2 + 1) * stride) k (later_segment (rest (i + 3)) (drop k text)) table
              = Some table' ∧ good (Datatypes.S i) table' ∧ good_row i 0 table'.
Proof.
  intros Hc Hdeep Hslash. pose proof (lookup_lt_Some _ _ _ Hslash) as Hi. revert table.
  assert (∀ t, value i t = rest (i + 3) (drop t text) || later_segment (rest (i + 3)) (drop t text)) as Hvalue.
  { intros t. rewrite (value_deep i t c Hc Hdeep). by rewrite bool_decide_eq_true_2. }
  induction k as [|t IH]; intros table Hk [Hlen Hgood] Hrow; [by exists table|]. cbn [fill_deep_row].
  assert ((if bool_decide (text !! t = Some slash_byte)
           then (λ cell, later_segment (rest (i + 3)) (drop (Datatypes.S t) text) || cell) <$> table !! (i * stride + t + 1)
           else Some (later_segment (rest (i + 3)) (drop (Datatypes.S t) text)))
          = Some (later_segment (rest (i + 3)) (drop t text))) as ->.
  { rewrite (text_at t) by lia. rewrite bool_decide_byte. destruct (text !! t) as [d|] eqn:Ed; cbn [later_segment].
    - apply lookup_lt_Some in Ed. destruct (Ascii.eqb d slash_byte); [|done]. cbn [andb].
      replace (i * stride + t + 1) with (i * stride + Datatypes.S t) by lia. rewrite Hrow by lia. cbn. f_equal.
      rewrite Hvalue. by rewrite (orb_comm (later_segment _ _)), <- orb_assoc, orb_diag.
    - f_equal. apply lookup_ge_None in Ed. by rewrite (drop_ge text) by lia. }
  cbn [mbind option_bind]. replace ((i + 2 + 1) * stride + t) with ((i + 3) * stride + t) by lia.
  rewrite (Hgood (i + 3)) by lia. cbn [mbind option_bind]. change (value (i + 3) t) with (rest (i + 3) (drop t text)).
  rewrite <- Hvalue. destruct (store_step i t table) as (table' & -> & Hgood' & Hrow'); [lia|lia|by split|done|].
  cbn [mbind option_bind]. apply IH; [lia|done..].
Qed.

Lemma fill_true_good i c table : pattern !! i = Some c → deep i c = true → pattern !! (i + 2) ≠ Some slash_byte →
  good (Datatypes.S i) table → ∃ table', fill_true text (i * stride) table = Some table' ∧ good i table'.
Proof.
  intros Hc Hdeep Hslash [Hlen Hgood]. pose proof (lookup_lt_Some _ _ _ Hc) as Hi. unfold fill_true.
  assert (i * stride + stride ≤ length table) as Hle by (rewrite Hlen; unfold Glob.stride; nia).
  rewrite (proj2 (Nat.leb_le _ _) Hle). eexists. split; [done|]. split.
  - rewrite !length_app, length_replicate, length_take, length_drop. lia.
  - intros j Hj t Ht. destruct (decide (j = i)) as [->|Hne].
    + rewrite lookup_app_r by (rewrite length_take; lia). rewrite length_take.
      rewrite lookup_app_l by (rewrite length_replicate; unfold Glob.stride in *; lia).
      rewrite (value_deep i t c Hc Hdeep), bool_decide_eq_false_2 by done. apply lookup_replicate.
      split; [done|unfold Glob.stride in *; lia].
    + assert (i * stride + stride ≤ j * stride) as Hij by (unfold Glob.stride; nia).
      rewrite lookup_app_r by (rewrite length_take; lia). rewrite length_take.
      rewrite lookup_app_r by (rewrite length_replicate; lia). rewrite length_replicate, lookup_drop.
      rewrite <- (Hgood j) by lia. f_equal. lia.
Qed.

Lemma good_extend i table : good (Datatypes.S i) table → good_row i 0 table → good i table.
Proof.
  intros [Hlen Hgood] Hrow. split; [done|]. intros j Hj. destruct (decide (j = i)) as [->|]; [done|apply Hgood; lia].
Qed.

Lemma fill_table_good i table : i ≤ m → good i table → ∃ table', fill_table pattern text i table = Some table' ∧ good 0 table'.
Proof.
  revert table. induction i as [|i IH]; intros table Hi Hgood; [by exists table|]. cbn [fill_table].
  destruct (lookup_lt_is_Some_2 pattern i) as [c Hc]; [lia|]. rewrite Hc. cbn [mbind option_bind].
  assert (good_row i (n + 1) table) as Hempty by (intros t Ht; lia).
  change (Ascii.eqb c star_byte && _ && _) with (deep i c). destruct (deep i c) eqn:Hdeep.
  - unfold fill_double_star_row. case_bool_decide as Hslash.
    + destruct (fill_deep_row_good i c (n + 1) table) as (table' & Hfill & Hgood' & Hrow'); [done..|].
      rewrite (drop_ge text) in Hfill by lia. cbn [later_segment] in Hfill. rewrite Hfill. cbn [mbind option_bind]. apply IH; [lia|by apply good_extend].
    + destruct (fill_true_good i c table) as (table' & -> & Hgood'); [done..|]. cbn [mbind option_bind]. apply IH; [lia|done].
  - destruct (fill_row_good i c (n + 1) table) as (table' & -> & Hgood' & Hrow'); [done..|]. cbn [mbind option_bind].
    apply IH; [lia|by apply good_extend].
Qed.

Lemma start_good : ∃ table, store_cell (m * stride + n) true (replicate (stride * (m + 1)) false) = Some table ∧ good m table.
Proof.
  destruct (store_good m n true (replicate (stride * (m + 1)) false)) as (table & Hst & Hl & Heq & Hne);
    [done|done|apply length_replicate|].
  exists table. split; [done|]. rewrite length_replicate in Hl. split; [done|]. intros j Hj t Ht. assert (j = m) as -> by lia.
  unfold value. rewrite (drop_ge pattern) by done. cbn [gmatch]. destruct (decide (t = n)) as [->|Htn].
  - rewrite Heq. by rewrite (drop_ge text).
  - rewrite Hne by (lia || congruence). destruct (lookup_lt_is_Some_2 text t) as [c Hc]; [lia|]. rewrite (drop_S text c t Hc).
    apply lookup_replicate. split; [done|]. unfold Glob.stride in *. nia.
Qed.

End Exact.

Lemma glob_bytes_exact pattern text :
  glob_matches_bytes pattern text = Some
    (bool_decide (length pattern ≤ MAX_GLOB_MATCH_BYTES ∧ length text ≤ MAX_GLOB_MATCH_BYTES) && gmatch true pattern text).
Proof.
  unfold glob_matches_bytes. destruct (Nat.ltb_spec MAX_GLOB_MATCH_BYTES (length pattern)) as [Hp|Hp]; cbn [orb].
  { rewrite bool_decide_eq_false_2; [done|lia]. }
  destruct (Nat.ltb_spec MAX_GLOB_MATCH_BYTES (length text)) as [Ht|Ht].
  { rewrite bool_decide_eq_false_2; [done|lia]. }
  rewrite bool_decide_eq_true_2 by done. destruct (start_good pattern text) as (table & -> & Hgood). cbn [mbind option_bind].
  destruct (fill_table_good pattern text (length pattern) table) as (table' & -> & [_ Hgood']); [done..|].
  cbn [mbind option_bind andb]. apply (Hgood' 0); lia.
Qed.

(** ** Patterns without wildcards *)

Definition literal (pattern : list ascii) : bool :=
  forallb (λ c, negb (Ascii.eqb c star_byte) && negb (Ascii.eqb c any_byte)) pattern.

Lemma gmatch_plain start c p t : c ≠ star_byte → gmatch start (c :: p) t = plain_match c (gmatch (Ascii.eqb c slash_byte) p) t.
Proof.
  intros Hc%Ascii.eqb_neq. cbn [gmatch]. destruct p as [|c2 [|c3 p]]; [done|..];
    rewrite Hc, andb_false_r; cbn [andb]; done.
Qed.

Lemma gmatch_literal_app p q start : literal p = true → ∀ t,
  gmatch start (p ++ q)%list t = true ↔ ∃ u start', t = (p ++ u)%list ∧ gmatch start' q u = true ∧
    start' = match last p with Some c => Ascii.eqb c slash_byte | None => start end.
Proof.
  revert start. induction p as [|c p IH]; intros start Hp t; cbn [app].
  - split; [intros Ht; by exists t, start|]. by intros (u & s & -> & Hu & ->).
  - cbn in Hp. apply andb_true_iff in Hp as [[Hs%negb_true_iff Ha%negb_true_iff]%andb_true_iff Hp].
    rewrite gmatch_plain by by apply Ascii.eqb_neq. unfold plain_match. rewrite Hs, Ha.
    assert (match last (c :: p) with Some c => Ascii.eqb c slash_byte | None => start end
            = match last p with Some c => Ascii.eqb c slash_byte | None => Ascii.eqb c slash_byte end) as ->.
    { rewrite last_cons. by destruct (last p). }
    destruct t as [|d t]; [split; [done|by intros (? & ? & ? & _)]|]. rewrite andb_true_iff, IH by done. split.
    + intros [->%Ascii.eqb_eq (u & s' & -> & Hu)]. by exists u, s'.
    + intros (u & s' & He & Hu). injection He as -> ->. split; [apply Ascii.eqb_refl|by exists u, s'].
Qed.

Lemma gmatch_literal p t : literal p = true → gmatch true p t = true ↔ t = p.
Proof.
  intros Hp. pose proof (gmatch_literal_app p [] true Hp t) as H. rewrite app_nil_r in H. rewrite H. split.
  - intros (u & s & -> & Hu & _). destruct u; [apply app_nil_r|done].
  - intros ->. eexists [], _. by rewrite app_nil_r.
Qed.

Lemma gmatch_literal_below p t : literal p = true →
  gmatch true (p ++ [slash_byte; star_byte; star_byte])%list t = true ↔ ∃ u, t = (p ++ slash_byte :: u)%list.
Proof.
  intros Hp. rewrite gmatch_literal_app by done. split.
  - intros (u & s & -> & Hu & _). rewrite gmatch_plain in Hu by done. unfold plain_match in Hu.
    change (Ascii.eqb slash_byte star_byte) with false in Hu. change (Ascii.eqb slash_byte any_byte) with false in Hu.
    destruct u as [|d u]; [done|]. exists u. apply andb_true_iff in Hu as [<-%Ascii.eqb_eq _]. done.
  - intros [u ->]. eexists (slash_byte :: u), _. split; [done|]. split; [|done]. by rewrite gmatch_plain.
Qed.

Lemma String_length_bytes s : length (String.list_ascii_of_string s) = String.length s.
Proof. induction s as [|c s IH]; [done|]. cbn. by rewrite IH. Qed.

Lemma glob_matches_spec pattern text : glob_matches pattern text =
  bool_decide (String.length pattern ≤ MAX_GLOB_MATCH_BYTES ∧ String.length text ≤ MAX_GLOB_MATCH_BYTES) && glob_spec pattern text.
Proof.
  unfold glob_matches. rewrite glob_bytes_exact, !String_length_bytes. done.
Qed.

(** C27: The matcher computes the meaning of the pattern.  No index of the flat table is out of
    range, whatever the bytes, and for a pattern and a text of at most 1024 bytes the answer is
    that of the recursive specification: [*] and [?] stay within a segment, [**/] spans any
    number of segments, a final [**] anything, and [**] elsewhere is two stars; a longer one
    never matches. *)
Theorem glob_exact pattern text :
  is_Some (glob_matches_bytes (String.list_ascii_of_string pattern) (String.list_ascii_of_string text)) ∧
  glob_matches pattern text =
    bool_decide (String.length pattern ≤ MAX_GLOB_MATCH_BYTES ∧ String.length text ≤ MAX_GLOB_MATCH_BYTES) && glob_spec pattern text.
Proof. split; [by rewrite glob_bytes_exact|apply glob_matches_spec]. Qed.
