(* ===== verification/Policy.v ===== *)
(** * Path policy: classification

    Models [bowline-local/src/policy]: the built-in classification of a path by its names
    ([builtin_classification.rs]), the rules of [.bowlineignore] files and their order
    ([mod.rs]), the view of a project ([project_view.rs]) and what a walk asks of a decision
    ([traversal.rs]), with the worktree links of [bowline-core/src/git_worktree_link.rs].
    PolicyLoad models where the rules come from.

    A file's contents are its UTF-8 bytes; [str::trim] removes the encodings of Unicode white
    space from both ends. *)

From Stdlib Require Import Ascii.
From S2P Require Import Prelude.
From S2P Require Import Glob.
From S2P Require Import Paths.

(** ** The vocabulary *)

Inductive PathClassification :=
| ClassWorkspaceSync | ClassProjectEnv | ClassGenerated | ClassDependency | ClassCache
| ClassLargeFile | ClassSecretLooking | ClassLocalOnly | ClassBlocked.

Inductive MaterializationMode :=
| ModeWorkspaceSync | ModeProjectEnv | ModeEncryptedSync | ModeLazy | ModeStructureOnly
| ModeLocalRegenerate | ModeLocalCache | ModeIgnore | ModeLocalOnly | ModeBlocked.

Inductive AccessFlag := HumanReadable | AgentReadable | AgentHidden | LeaseOnly.

#[export] Instance PathClassification_eq_dec : EqDecision PathClassification.
Proof. solve_decision. Defined.
#[export] Instance MaterializationMode_eq_dec : EqDecision MaterializationMode.
Proof. solve_decision. Defined.

Record PathFacts := { pa_relative_path : string; pa_is_dir : bool; pa_byte_len : option Z }.

Record PathPolicyDecision := {
  pd_classification : PathClassification;
  pd_mode : MaterializationMode;
  pd_access : list AccessFlag;
}.

Record IgnoreRule := {
  ir_base : string;
  ir_pattern : string;
  ir_anchored_to_base : bool;
  ir_include : bool;
  ir_source : string;
  ir_candidates : list string;
}.

Record UserPolicy := { up_rules : list IgnoreRule }.

Definition UserPolicy_empty : UserPolicy := {| up_rules := [] |}.

Definition POLICY_MARKER_FILENAME : string := ".bowlineignore".

Definition is_root_policy_affecting_path (leaf : string) : bool := (leaf =? POLICY_MARKER_FILENAME)%string.

(** ** Normalization *)

(** [str::trim_matches('/')] *)
Definition trim_slashes (s : string) : string := trim_end_slash (trim_start_slash s).

(** [Path::components], each as text: a leading slash is the component [/], a leading [.] is
    kept, other [.] and empty pieces are dropped. *)
Definition os_components (path : string) : list string :=
  let normal := List.filter (λ piece, nonempty piece && negb (piece =? ".")%string) in
  if starts_with_char slash path then "/" :: normal (split slash path)
  else match split slash path with
       | "." :: rest => "." :: normal rest
       | all => normal all
       end.

Definition normalize_relative_path (path : string) : string :=
  let normalized := join (os_components path) in
  trim_slashes (collapse_slashes (String.length normalized) normalized).

(** ** [git_worktree_link.rs]: the files that name a worktree *)

(** The component at [git_index] is the first [.git]. *)
Fixpoint after_git (components : list string) : option (list string) :=
  match components with
  | [] => None
  | c :: rest => if (c =? ".git")%string then Some rest else after_git rest
  end.

Definition git_tail_components (path : string) : option (list string) := after_git (components path).

Definition is_worktree_admin_pointer (path : string) : bool :=
  match git_tail_components path with
  | Some ["worktrees"; name; file] => nonempty name && str_in file ["gitdir"; "commondir"]
  | _ => false
  end.

(** With [NamespaceEntryKind::File]. *)
Definition is_worktree_gitlink_file (path : string) : bool :=
  bool_decide (last (components path) = Some ".git").

(** [worktree_link_file(path, File).is_some()] *)
Definition worktree_link_file (path : string) : bool :=
  is_worktree_gitlink_file path || is_worktree_admin_pointer path.

(** ** [builtin_classification.rs] *)

Inductive NameHeuristics := Applied | Waived.

Definition LARGE_FILE_BYTES : Z := 8 * 1024 * 1024.

(** [str::to_ascii_lowercase] *)
Definition lower_byte (c : ascii) : ascii :=
  if byte_in "A" "Z" c then ascii_of_nat (nat_of_ascii c + 32) else c.
Fixpoint to_ascii_lowercase (s : string) : string :=
  match s with EmptyString => EmptyString | String c s => String (lower_byte c) (to_ascii_lowercase s) end.

Definition is_project_env_name (name : string) : bool :=
  let lower := to_ascii_lowercase name in
  (lower =? ".env")%string || starts_with ".env." lower || ends_with ".env" lower.

Definition is_secret_bearing_path (path : string) : bool := existsb is_project_env_name (split slash path).

Definition is_secret_name (name : string) : bool :=
  let lower := to_ascii_lowercase name in
  (lower =? "id_rsa")%string || (lower =? "id_dsa")%string || (lower =? "id_ed25519")%string
  || contains "private_key" lower
  || ends_with ".pem" lower || ends_with ".key" lower || ends_with ".p12" lower || ends_with ".pfx" lower.

Definition is_dependency_name (name : string) : bool :=
  str_in name ["node_modules"; ".pnpm-store"; ".yarn"; ".venv"; "venv"].

Definition is_generated_name (name : string) : bool :=
  str_in name [".next"; ".nuxt"; ".svelte-kit"; "dist"; "build"; "target"; "__pycache__"; ".pytest_cache";
               ".turbo"; ".cache"; "coverage"; "out"].

Definition is_dependency_path (parts : list string) : bool := existsb is_dependency_name parts.
Definition is_generated_path (parts : list string) : bool := existsb is_generated_name parts.

Definition has_cache_part (parts : list string) : bool :=
  existsb (λ part, str_in part [".cache"; ".pytest_cache"]) parts.
Definition generated_classification (parts : list string) : PathClassification :=
  if has_cache_part parts then ClassCache else ClassGenerated.
Definition generated_mode (parts : list string) : MaterializationMode :=
  if has_cache_part parts then ModeLocalCache else ModeLocalRegenerate.

Definition is_materialization_temp_path (parts : list string) : bool :=
  existsb (λ part, starts_with ".bowline-materialize-" part && ends_with ".tmp" part) parts.

Definition is_git_derivable_volatile_path (path : string) : bool :=
  bool_decide (classify_git_path path = Some DerivableVolatile).

Definition is_git_transient_path (parts : list string) : bool := is_git_derivable_volatile_path (join parts).

Definition is_work_view_namespace_path (path : string) : bool :=
  str_in ".work" (split slash (normalize_relative_path path)).

Definition is_portable_git_worktree_link_policy_path (path : string) (is_dir : bool) : bool :=
  negb is_dir && worktree_link_file path.

Definition local_decision : PathPolicyDecision :=
  {| pd_classification := ClassLocalOnly; pd_mode := ModeLocalOnly; pd_access := [HumanReadable; AgentHidden] |}.
Definition git_opaque_state_decision : PathPolicyDecision :=
  {| pd_classification := ClassWorkspaceSync; pd_mode := ModeEncryptedSync; pd_access := [HumanReadable; AgentHidden] |}.
Definition readable (class : PathClassification) (mode : MaterializationMode) : PathPolicyDecision :=
  {| pd_classification := class; pd_mode := mode; pd_access := [HumanReadable; AgentReadable] |}.

Definition classify_builtin (path : string) (is_dir : bool) (byte_len : option Z) (heuristics : NameHeuristics)
    : PathPolicyDecision :=
  let parts := components path in
  let name := default EmptyString (last parts) in
  let applied := match heuristics with Applied => true | Waived => false end in
  if is_materialization_temp_path parts then local_decision
  else if is_work_view_namespace_path path then local_decision
  else if is_portable_git_worktree_link_policy_path path is_dir then git_opaque_state_decision
  else if is_git_transient_path parts then local_decision
  else if str_in ".git" parts then git_opaque_state_decision
  else if applied && is_dependency_path parts then readable ClassDependency ModeLocalRegenerate
  else if applied && is_generated_path parts then readable (generated_classification parts) (generated_mode parts)
  else if is_project_env_name name then readable ClassProjectEnv ModeProjectEnv
  else if is_secret_name name
  then {| pd_classification := ClassSecretLooking; pd_mode := ModeEncryptedSync;
          pd_access := [HumanReadable; AgentHidden] |}
  else if is_some_and (λ len, LARGE_FILE_BYTES <=? len) byte_len then readable ClassLargeFile ModeLazy
  else readable ClassWorkspaceSync ModeWorkspaceSync.

Definition preserves_safety_classification (class : PathClassification) : bool :=
  match class with
  | ClassProjectEnv | ClassSecretLooking | ClassBlocked | ClassDependency | ClassGenerated | ClassCache => true
  | _ => false
  end.

(** ** Rules *)

Definition rule_target (rule : IgnoreRule) (relative_path : string) : option string :=
  if (ir_base rule =? "")%string then Some relative_path
  else rest ← strip_prefix (ir_base rule) relative_path; strip_prefix "/" rest.

Definition rule_matches (rule : IgnoreRule) (relative_path : string) : bool :=
  match rule_target rule relative_path with
  | Some target => existsb (λ candidate, glob_matches candidate target) (ir_candidates rule)
  | None => false
  end.

(** The last rule that matches. *)
Definition match_rule (policy : UserPolicy) (relative_path : string) : option IgnoreRule :=
  List.find (λ rule, rule_matches rule relative_path) (reverse (up_rules policy)).

Definition full_rule_pattern (rule : IgnoreRule) : string :=
  if (ir_base rule =? "")%string then trim_slashes (ir_pattern rule)
  else trim_slashes (ir_base rule) +:+ "/" +:+ trim_slashes (ir_pattern rule).

Definition has_include_below (policy : UserPolicy) (relative_path : string) : bool :=
  let relative_path := normalize_relative_path relative_path in
  existsb (λ rule,
    if negb (ir_include rule) then false
    else if negb (ir_anchored_to_base rule) then true
    else let pattern := full_rule_pattern rule in
         (pattern =? relative_path)%string || starts_with (relative_path +:+ "/") pattern) (up_rules policy).

Definition explicitly_includes (policy : UserPolicy) (relative_path : string) : bool :=
  is_some_and ir_include (match_rule policy (normalize_relative_path relative_path)).

Definition ignored_decision : PathPolicyDecision :=
  {| pd_classification := ClassLocalOnly; pd_mode := ModeIgnore; pd_access := [HumanReadable] |}.

(** What a rule makes of the built-in decision; shared by the two classifiers below. *)
Definition apply_rule (rule : option IgnoreRule) (path : string) (facts : PathFacts) : PathPolicyDecision :=
  let base := classify_builtin path (pa_is_dir facts) (pa_byte_len facts) Applied in
  match rule with
  | None => base
  | Some rule =>
      if ir_include rule then classify_builtin path (pa_is_dir facts) (pa_byte_len facts) Waived
      else if preserves_safety_classification (pd_classification base) then base
      else ignored_decision
  end.

Definition classify_path (facts : PathFacts) (policy : UserPolicy) : PathPolicyDecision :=
  let path := normalize_relative_path (pa_relative_path facts) in
  apply_rule (match_rule policy path) path facts.

Definition classify_project_view_path (facts : PathFacts) (policy : UserPolicy) : PathPolicyDecision :=
  let path := normalize_relative_path (pa_relative_path facts) in
  let '(root, below) := match split_once "/" path with
                        | Some (root, below) => (root, Some below)
                        | None => (path, None)
                        end in
  if negb (str_in root [".work"; ".bowline"; ".bowline-meta"]) then classify_path facts policy
  else apply_rule (match_rule policy path) (default "__project_directory__" below) facts.

(** ** [traversal.rs] *)

Definition policy_prunes_subtree (decision : PathPolicyDecision) : bool :=
  match pd_classification decision with
  | ClassDependency | ClassGenerated | ClassCache | ClassLocalOnly | ClassBlocked => true
  | _ => false
  end.

Definition policy_syncs_workspace_state (decision : PathPolicyDecision) : bool :=
  match pd_mode decision with
  | ModeWorkspaceSync | ModeEncryptedSync | ModeLazy | ModeProjectEnv => true
  | _ => false
  end.

Definition policy_should_recurse (decision : PathPolicyDecision) (user_policy : UserPolicy) (path : string) : bool :=
  has_include_below user_policy path || negb (policy_prunes_subtree decision).
