(* ===== verification/PolicyLoad.v ===== *)
(** * Path policy: discovering the rules

    Models the loaders of [bowline-local/src/policy/mod.rs] (the whole workspace, the root
    alone, the way to one path, the dirty subtrees) and the parser of a [.bowlineignore] line.

    A loader sees the workspace as a tree of directories.  A directory that cannot be listed,
    an entry or a file type that cannot be read and a marker file that cannot be read (or is
    not UTF-8) are part of the tree, as the code meets them.  The name of an entry is its text,
    lossy where it is not UTF-8. *)

From Stdlib Require Import Ascii.
From S2P Require Import Prelude.
From S2P Require Import Glob.
From S2P Require Import Policy.
From S2P Require Import Paths.

(** ** Text *)

Definition utf8 (bytes : list nat) : string := String.string_of_list_ascii (ascii_of_nat <$> bytes).

(** The encodings of the characters with the Unicode property White_Space. *)
Definition WHITE_SPACE : list string :=
  utf8 <$> ([[9]; [10]; [11]; [12]; [13]; [32]; [194; 133]; [194; 160]; [225; 154; 128]]%list
            ++ ((λ n, [226; 128; n]) <$> seq 128 11)
            ++ [[226; 128; 168]; [226; 128; 169]; [226; 128; 175]; [226; 129; 159]; [227; 128; 128]])%nat.

(** The first answer of [f] over the encodings. *)
Definition strip_white (f : string → string → option string) (s : string) : option string :=
  head (omap (λ w, f w s) WHITE_SPACE).

Fixpoint strip_while (f : string → string → option string) (fuel : nat) (s : string) : string :=
  match fuel with
  | O => s
  | Datatypes.S fuel => match strip_white f s with Some s => strip_while f fuel s | None => s end
  end.

(** [str::trim]; every step shortens the text. *)
Definition trim (s : string) : string :=
  let s := strip_while strip_prefix (String.length s) s in
  strip_while strip_suffix (String.length s) s.

Definition newline : ascii := ascii_of_nat 10.
Definition carriage_return : string := utf8 [13]%nat.

(** [str::lines]: a final line feed ends the last line, and a carriage return before a line
    feed belongs to the end of the line. *)
Definition text_lines (s : string) : list string :=
  let pieces := split newline s in
  let ended := removelast pieces in
  ((λ line, default line (strip_suffix carriage_return line)) <$> ended)
  ++ match last pieces with Some final => if nonempty final then [final] else [] | None => [] end.

(** ** [read_ignore_rules] *)

Definition matching_patterns (pattern : string) (directory_only anchored_to_base : bool) : list string :=
  if (pattern =? "")%string then []
  else if anchored_to_base then
    if directory_only then [pattern; pattern +:+ "/**"] else [pattern]
  else if directory_only
  then [pattern; pattern +:+ "/**"; "**/" +:+ pattern; "**/" +:+ pattern +:+ "/**"]
  else [pattern; "**/" +:+ pattern].

Definition rule_of (base source : string) (include : bool) (pattern : string) : IgnoreRule :=
  let directory_only := ends_with "/" pattern in
  let leading_slash := starts_with "/" pattern in
  let normalized_pattern := normalize_relative_path pattern in
  let anchored_to_base := leading_slash || contains "/" normalized_pattern in
  {| ir_base := base; ir_pattern := normalized_pattern; ir_anchored_to_base := anchored_to_base;
     ir_include := include; ir_source := source;
     ir_candidates := matching_patterns (trim_slashes normalized_pattern) directory_only anchored_to_base |}.

(** One line of a marker file. *)
Definition parse_rule (base source line : string) : option IgnoreRule :=
  let raw := trim line in
  if (raw =? "")%string || starts_with "#" raw then None else
  let '(include, pattern) := match strip_prefix "!" raw with
                             | Some pattern => (true, trim pattern)
                             | None => (false, raw)
                             end in
  if nonempty pattern then Some (rule_of base source include pattern) else None.

(** The rules of the marker file of the directory [base], whose text is [contents]. *)
Definition read_ignore_rules (base : string) (contents : option string) : list IgnoreRule :=
  match contents with
  | None => []
  | Some contents =>
      let source := if (base =? "")%string then POLICY_MARKER_FILENAME
                    else base +:+ "/" +:+ POLICY_MARKER_FILENAME in
      omap (parse_rule base source) (text_lines contents)
  end.

(** ** The tree a loader sees *)

(** How an entry comes out of a listing: not at all, without its [file_type], as a directory
    (not through a link), or as something else. *)
Inductive ListedAs := EntryError | TypeError | ListedDirectory | ListedOther.

(** A directory: its marker file as [fs::read_to_string] answers, whether [read_dir] succeeds,
    and its entries, each with the directory its name leads to, a link followed. *)
Inductive PolicyDir :=
| MkPolicyDir (marker : option string) (listable : bool) (entries : list (string * ListedAs * option PolicyDir)).

Definition pd_marker (d : PolicyDir) : option string := let 'MkPolicyDir marker _ _ := d in marker.
Definition pd_listable (d : PolicyDir) : bool := let 'MkPolicyDir _ listable _ := d in listable.
Definition pd_entries (d : PolicyDir) : list (string * ListedAs * option PolicyDir) :=
  let 'MkPolicyDir _ _ entries := d in entries.

(** [relative_to_root] of a child. *)
Definition child_path (relative name : string) : string :=
  if (relative =? "")%string then name else relative +:+ "/" +:+ name.

(** The names a loader never enters. *)
Definition skipped_name (name : string) : bool :=
  (name =? ".git")%string || is_dependency_name name || is_generated_name name.

(** ** The loaders *)

(** Pre-order: the rules of a directory come before those of its children. *)
Fixpoint collect_ignore_rules (relative : string) (should_descend : string → bool) (d : PolicyDir) : list IgnoreRule :=
  match d with
  | MkPolicyDir marker listable entries =>
      read_ignore_rules relative marker
      ++ (if listable
          then List.flat_map (λ '(name, listed, target),
                 match listed, target with
                 | ListedDirectory, Some child =>
                     if skipped_name name then []
                     else let path := child_path relative name in
                          if should_descend path then collect_ignore_rules path should_descend child else []
                 | _, _ => []
                 end) entries
          else [])
  end.

Definition load (root : PolicyDir) : UserPolicy :=
  {| up_rules := collect_ignore_rules "" (λ _, true) root |}.

Definition load_root_only (root : PolicyDir) : UserPolicy :=
  {| up_rules := read_ignore_rules "" (pd_marker root) |}.

(** What [directory.join(name)] leads to. *)
Definition named_child (name : string) (d : PolicyDir) : option PolicyDir :=
  head (omap (λ '(n, _, target), if (n =? name)%string then target else None) (pd_entries d)).

(** The loop of [load_for_path]: [directory] is [None] once a component is no directory. *)
Fixpoint read_on_the_way (relative : string) (directory : option PolicyDir) (parts : list string) : list IgnoreRule :=
  match parts with
  | [] => []
  | part :: parts =>
      let relative := child_path relative part in
      let directory := directory ≫= named_child part in
      match directory with
      | Some d => read_ignore_rules relative (pd_marker d)
      | None => []
      end ++ read_on_the_way relative directory parts
  end.

(** The [Component::Normal] parts of the parent of a path. *)
Definition parent_parts (relative_path : string) : list string :=
  List.filter (λ part, negb (str_in part ["/"; "."; ".."])) (removelast (os_components relative_path)).

Definition load_for_path (root : PolicyDir) (relative_path : string) : UserPolicy :=
  {| up_rules := read_ignore_rules "" (pd_marker root) ++ read_on_the_way "" (Some root) (parent_parts relative_path) |}.

Definition dir_leads_to_or_under_dirty (relative : string) (dirty_roots : gset string) : bool :=
  existsb (λ dirty, (dirty =? relative)%string || starts_with (relative +:+ "/") dirty
                    || starts_with (dirty +:+ "/") relative) (elements dirty_roots).

Definition load_scoped (root : PolicyDir) (dirty_roots : gset string) : UserPolicy :=
  if existsb (λ dirty, (dirty =? "")%string) (elements dirty_roots) then load root
  else {| up_rules := collect_ignore_rules "" (λ relative, dir_leads_to_or_under_dirty relative dirty_roots) root |}.
