(* ===== verification/ManifestTypes.v ===== *)
(** * The manifest engine's vocabulary

    Models the data of [bowline-local/src/sync/manifest_engine/]: manifest
    entries ([manifest.rs]), ancestor rows ([store.rs]), live observations
    ([fs_guard.rs]), unsyncable conditions ([unsyncable.rs]), the projection
    between an entry and the row that records it ([entry_record.rs],
    [file_record_to_entry] of [push.rs]), and the payloads of the intent journal
    ([pull_apply/intents.rs]).

    Identifiers ([ContentId], [BlobKey], [ManifestKey]) are strings, as in the
    code.  The clock reading [now_unix_ns()] is an argument of the functions that
    take it.  The keyed BLAKE3 hash is a library: [WorkspaceCrypto] is
    parameterised by it through the class [ContentHash]. *)

From S2P Require Import Prelude.
From S2P Require Import Paths.
Local Open Scope string_scope.
Open Scope Z_scope.

(** ** [manifest.rs] *)

Abbreviation ContentId := string (only parsing).
Abbreviation BlobKey := string (only parsing).
Abbreviation ManifestKey := string (only parsing).
Abbreviation WorkspacePath := string (only parsing).
Abbreviation KeyEpoch := Z (only parsing).
Abbreviation FileMode := Z (only parsing).
Abbreviation bytes := string (only parsing).

(** [FileMode::symlink()], [0o120_777]. *)
Definition FileMode_symlink : FileMode := 41471.

Inductive EntryKind := File | Directory | Symlink.

#[export] Instance EntryKind_eq_dec : EqDecision EntryKind.
Proof. solve_decision. Defined.

Inductive ManifestEntry :=
| FileEntry (size : Z) (mode : FileMode) (content_id : ContentId) (blob_key : BlobKey)
    (key_epoch : KeyEpoch)
| DirectoryEntry (mode : FileMode)
| SymlinkEntry (mode : FileMode) (target : string).

#[export] Instance ManifestEntry_eq_dec : EqDecision ManifestEntry.
Proof. solve_decision. Defined.

(** [ManifestEntry::kind] *)
Definition entry_kind (entry : ManifestEntry) : EntryKind :=
  match entry with
  | FileEntry _ _ _ _ _ => File
  | DirectoryEntry _ => Directory
  | SymlinkEntry _ _ => Symlink
  end.

Record PathCollision := { pc_folded : string; pc_paths : list WorkspacePath }.

(** The keyed content hash [content_id(workspace_key, plaintext)]. *)
Class ContentHash := content_id_of : string → bytes → ContentId.

Record WorkspaceCrypto := {
  cr_write_epoch : KeyEpoch;
  cr_keys : gmap Z string;
}.

(** [WorkspaceCrypto::new] and [with_key_epoch], the only constructors. *)
Definition crypto_new (key : string) (epoch : KeyEpoch) : WorkspaceCrypto :=
  {| cr_write_epoch := epoch; cr_keys := {[ epoch := key ]} |}.

Definition with_key_epoch (epoch : KeyEpoch) (key : string) (c : WorkspaceCrypto) : WorkspaceCrypto :=
  {| cr_write_epoch := cr_write_epoch c; cr_keys := <[epoch := key]> (cr_keys c) |}.

Definition content_id_at `{ContentHash} (c : WorkspaceCrypto) (epoch : KeyEpoch) (plaintext : bytes)
    : option ContentId :=
  (λ key, content_id_of key plaintext) <$> cr_keys c !! epoch.

(** [WorkspaceCrypto::content_id]: [None] where the [expect] panics. *)
Definition crypto_content_id `{ContentHash} (c : WorkspaceCrypto) (plaintext : bytes)
    : option ContentId := content_id_at c (cr_write_epoch c) plaintext.

(** ** [store.rs] *)

Record StatFingerprint := {
  fp_mtime_ns : Z; fp_ctime_ns : Z; fp_inode : Z; fp_dev : Z;
}.

#[export] Instance StatFingerprint_eq_dec : EqDecision StatFingerprint.
Proof. solve_decision. Defined.

Record FileRecord := {
  fr_kind : EntryKind;
  fr_size : Z;
  fr_mode : FileMode;
  fr_symlink_target : option string;
  fr_content_id : option ContentId;
  fr_blob_key : option BlobKey;
  fr_key_epoch : option KeyEpoch;
  fr_fingerprint : StatFingerprint;
  fr_hashed_at : option Z;
  fr_verified_at : option Z;
}.

#[export] Instance FileRecord_eq_dec : EqDecision FileRecord.
Proof. solve_decision. Defined.

Record AncestorCommit := {
  ac_upserts : gmap WorkspacePath FileRecord;
  ac_removals : gset WorkspacePath;
}.

#[export] Instance AncestorCommit_eta : Eta AncestorCommit :=
  λ r, Build_AncestorCommit (ac_upserts r) (ac_removals r).

Inductive IntentOperationKind := OpInstall | OpDelete | OpModeChange | OpConflictAside.

(** ** [fs_guard.rs] observations *)

Record Observed := {
  ob_kind : EntryKind;
  ob_size : Z;
  ob_mode : FileMode;
  ob_symlink_target : option string;
  ob_fingerprint : StatFingerprint;
}.

Record ExpectedFile := { ef_fingerprint : StatFingerprint; ef_size : Z }.

Definition expected_file (o : Observed) : ExpectedFile :=
  {| ef_fingerprint := ob_fingerprint o; ef_size := ob_size o |}.

(** ** [unsyncable.rs] *)

(** [std::io::ErrorKind]: the kinds the engine tells apart. *)
Inductive ErrorKind :=
| NotFound | NotADirectory | PermissionDeniedKind | OutOfMemory | InvalidData | AlreadyExists
| DirectoryNotEmpty
| OtherKind.

#[export] Instance ErrorKind_eq_dec : EqDecision ErrorKind.
Proof. solve_decision. Defined.

Record IoError := { io_kind : ErrorKind; io_raw_os_error : option Z }.

Inductive UnsyncableReason :=
| PermissionDenied | ResourceExhausted | NonUtf8Name | NonUtf8SymlinkTarget | UnsupportedKind
| UnrepresentablePath | AboveSealCeiling | ReadFailed | EscapingSymlinkTarget
| FilesystemRefused | RecoveryAbandoned.

#[export] Instance UnsyncableReason_eq_dec : EqDecision UnsyncableReason.
Proof. solve_decision. Defined.

(** [UnsyncableReason::ALL] *)
Definition ALL : list UnsyncableReason :=
  [PermissionDenied; ResourceExhausted; NonUtf8Name; NonUtf8SymlinkTarget; UnsupportedKind;
   UnrepresentablePath; AboveSealCeiling; ReadFailed; EscapingSymlinkTarget; FilesystemRefused;
   RecoveryAbandoned].

Definition reason_tag (r : UnsyncableReason) : string :=
  match r with
  | PermissionDenied => "permission-denied"
  | ResourceExhausted => "resource-exhausted"
  | NonUtf8Name => "non-utf8-name"
  | NonUtf8SymlinkTarget => "non-utf8-symlink-target"
  | UnsupportedKind => "unsupported-kind"
  | UnrepresentablePath => "unrepresentable-path"
  | AboveSealCeiling => "above-seal-ceiling"
  | ReadFailed => "read-failed"
  | EscapingSymlinkTarget => "escaping-symlink-target"
  | FilesystemRefused => "filesystem-refused"
  | RecoveryAbandoned => "recovery-abandoned"
  end.

Definition reason_from_tag (value : string) : option UnsyncableReason :=
  List.find (λ r, (reason_tag r =? value)%string) ALL.

Definition is_transient (r : UnsyncableReason) : bool :=
  match r with
  | ResourceExhausted | ReadFailed | FilesystemRefused | RecoveryAbandoned => true
  | _ => false
  end.

Record UnsyncableRecord := {
  ur_reason : UnsyncableReason;
  ur_errno : option Z;
  ur_observed_at : Z;
}.

(** [EMFILE] and [ENFILE], on every platform the code supports. *)
Definition libc_emfile : Z := 24.
Definition libc_enfile : Z := 23.

Definition classify_io_error (error : IoError) : option UnsyncableReason :=
  match io_kind error with
  | PermissionDeniedKind => Some PermissionDenied
  | OutOfMemory => Some ResourceExhausted
  | InvalidData => Some ReadFailed
  | _ => match io_raw_os_error error with
         | Some code =>
             if (code =? libc_emfile) || (code =? libc_enfile) then Some ResourceExhausted else None
         | None => None
         end
  end.

Definition path_scoped_reason (error : IoError) : UnsyncableReason :=
  default FilesystemRefused (classify_io_error error).

Record UnsyncablePath := { up_path : WorkspacePath; up_record : UnsyncableRecord }.

(** ** Errors *)

(** [PushError]; the payloads of the store, manifest and transport errors are opaque.
    [PushPanicked] is not a variant: it is a call that would unwind. *)
Inductive PushError :=
| PushIo (error : IoError)
| PushStoreErr
| PushManifestErr
| PushTransportErr
| AncestorRowMissing (field : string)
| StreamSealUnsupported (byte_len ceiling : Z)
| MassDeletionRefused (removals : gset WorkspacePath) (entries threshold : Z)
| PushPanicked (reason : string).

(** [PullError]; the payloads of the transport and store errors are opaque.
    [Panicked] is not a variant: it is a call that would unwind. *)
Inductive PullError :=
| PathError (fault : UnsyncablePath)
| EngineScratchIo (error : IoError)
| StoreError
| ManifestErr
| PushErr (error : PushError)
| TransportErr
| ManifestKeyMismatch
| BlobKeyMismatch
| RefRegressed (observed highest : Z)
| RefForked (version : Z)
| NarrowingMissedChange (path : string)
| Internal (reason : string)
| Panicked (reason : string).

(** [PullError::path_refused] *)
Definition path_refused (path : WorkspacePath) (reason : UnsyncableReason) (now : Z) : PullError :=
  PathError {| up_path := path;
               up_record := {| ur_reason := reason; ur_errno := None; ur_observed_at := now |} |}.

(** ** [entry_record.rs] *)

Definition record_for_entry (entry : ManifestEntry) (fingerprint : StatFingerprint) (now : Z)
    : FileRecord :=
  match entry with
  | FileEntry size mode content_id blob_key key_epoch =>
      {| fr_kind := File; fr_size := size; fr_mode := mode; fr_symlink_target := None;
         fr_content_id := Some content_id; fr_blob_key := Some blob_key;
         fr_key_epoch := Some key_epoch; fr_fingerprint := fingerprint;
         fr_hashed_at := Some now; fr_verified_at := None |}
  | DirectoryEntry mode =>
      {| fr_kind := Directory; fr_size := 0; fr_mode := mode; fr_symlink_target := None;
         fr_content_id := None; fr_blob_key := None; fr_key_epoch := None;
         fr_fingerprint := fingerprint; fr_hashed_at := None; fr_verified_at := None |}
  | SymlinkEntry _ target =>
      {| fr_kind := Symlink; fr_size := 0; fr_mode := FileMode_symlink;
         fr_symlink_target := Some target;
         fr_content_id := None; fr_blob_key := None; fr_key_epoch := None;
         fr_fingerprint := fingerprint; fr_hashed_at := None; fr_verified_at := None |}
  end.

Definition entry_mode (entry : ManifestEntry) : FileMode :=
  match entry with
  | FileEntry _ mode _ _ _ | DirectoryEntry mode => mode
  | SymlinkEntry _ _ => FileMode_symlink
  end.

Definition entry_matches_identity (entry : ManifestEntry) (kind : EntryKind)
    (content_id : option ContentId) (symlink_target : option string) : bool :=
  match entry with
  | FileEntry _ _ entry_content_id _ _ =>
      bool_decide (kind = File) && bool_decide (content_id = Some entry_content_id)
  | DirectoryEntry _ => bool_decide (kind = Directory)
  | SymlinkEntry _ target =>
      bool_decide (kind = Symlink) && bool_decide (symlink_target = Some target)
  end.

Definition entry_matches_observed (entry : ManifestEntry) (observed : Observed)
    (content_id : option ContentId) : bool :=
  entry_matches_identity entry (ob_kind observed) content_id (ob_symlink_target observed).

Definition entry_matches_record (entry : ManifestEntry) (record : FileRecord) : bool :=
  entry_matches_identity entry (fr_kind record) (fr_content_id record) (fr_symlink_target record).

(** [Option::ok_or(e)?] on a pure [Result]. *)
Definition result_ok_or {A E} (e : E) (o : option A) : Result A E :=
  match o with Some a => Ok a | None => Err e end.

Definition result_bind {A B E} (r : Result A E) (f : A → Result B E) : Result B E :=
  match r with Ok a => f a | Err e => Err e end.

(** [push.rs]: ancestor row to manifest entry. *)
Definition file_record_to_entry (record : FileRecord) : Result ManifestEntry PushError :=
  match fr_kind record with
  | File =>
      result_bind (result_ok_or (AncestorRowMissing "content_id") (fr_content_id record)) (λ content_id,
      result_bind (result_ok_or (AncestorRowMissing "blob_key") (fr_blob_key record)) (λ blob_key,
      result_bind (result_ok_or (AncestorRowMissing "key_epoch") (fr_key_epoch record)) (λ key_epoch,
      Ok (FileEntry (fr_size record) (fr_mode record) content_id blob_key key_epoch))))
  | Directory => Ok (DirectoryEntry (fr_mode record))
  | Symlink =>
      result_bind (result_ok_or (AncestorRowMissing "symlink_target") (fr_symlink_target record))
        (λ target, Ok (SymlinkEntry (fr_mode record) target))
  end.

(** ** [pull_apply/intents.rs] *)

Record PreimagePayload := {
  pp_present : bool;
  pp_kind : option EntryKind;
  pp_mode : option FileMode;
  pp_content_id : option ContentId;
  pp_key_epoch : option KeyEpoch;
  pp_symlink_target : option string;
}.

Definition preimage_absent : PreimagePayload :=
  {| pp_present := false; pp_kind := None; pp_mode := None; pp_content_id := None;
     pp_key_epoch := None; pp_symlink_target := None |}.

Definition preimage_from_record (record : FileRecord) : PreimagePayload :=
  {| pp_present := true; pp_kind := Some (fr_kind record); pp_mode := Some (fr_mode record);
     pp_content_id := fr_content_id record; pp_key_epoch := fr_key_epoch record;
     pp_symlink_target := fr_symlink_target record |}.

Definition preimage_from_observed (observed : Observed) (content_id : option ContentId)
    : PreimagePayload :=
  {| pp_present := true; pp_kind := Some (ob_kind observed); pp_mode := Some (ob_mode observed);
     pp_content_id := content_id; pp_key_epoch := None;
     pp_symlink_target := ob_symlink_target observed |}.

Inductive IntentOpTag := TagInstall | TagDelete | TagModeChange | TagConflictAside.

#[export] Instance IntentOpTag_eq_dec : EqDecision IntentOpTag.
Proof. solve_decision. Defined.

Record TargetRecordPayload := {
  tr_op : IntentOpTag;
  tr_kind : option EntryKind;
  tr_size : option Z;
  tr_mode : option FileMode;
  tr_content_id : option ContentId;
  tr_blob_key : option BlobKey;
  tr_key_epoch : option KeyEpoch;
  tr_symlink_target : option string;
}.

Definition missing (field : string) : PullError := Internal field.

(** [TargetRecordPayload::to_entry]; [0o644] and [0o755] are the default modes. *)
Definition to_entry (t : TargetRecordPayload) : Result ManifestEntry PullError :=
  match tr_kind t with
  | Some File =>
      result_bind (result_ok_or (missing "content_id") (tr_content_id t)) (λ content_id,
      result_bind (result_ok_or (missing "blob_key") (tr_blob_key t)) (λ blob_key,
      result_bind (result_ok_or (missing "key_epoch") (tr_key_epoch t)) (λ key_epoch,
      Ok (FileEntry (default 0 (tr_size t)) (default 420 (tr_mode t)) content_id blob_key
            key_epoch))))
  | Some Directory => Ok (DirectoryEntry (default 493 (tr_mode t)))
  | Some Symlink =>
      result_bind (result_ok_or (missing "symlink_target") (tr_symlink_target t)) (λ target,
      Ok (SymlinkEntry FileMode_symlink target))
  | None => Err (missing "kind")
  end.

Definition to_record (t : TargetRecordPayload) (fingerprint : StatFingerprint) (now : Z)
    : Result FileRecord PullError :=
  result_bind (to_entry t) (λ entry, Ok (record_for_entry entry fingerprint now)).

Definition entry_to_target (op : IntentOpTag) (entry : ManifestEntry) : TargetRecordPayload :=
  let payload size content_id blob_key key_epoch symlink_target :=
    {| tr_op := op; tr_kind := Some (entry_kind entry); tr_size := size;
       tr_mode := Some (entry_mode entry); tr_content_id := content_id;
       tr_blob_key := blob_key; tr_key_epoch := key_epoch;
       tr_symlink_target := symlink_target |} in
  match entry with
  | FileEntry size _ content_id blob_key key_epoch =>
      payload (Some size) (Some content_id) (Some blob_key) (Some key_epoch) None
  | DirectoryEntry _ => payload None None None None None
  | SymlinkEntry _ target => payload None None None None (Some target)
  end.

(** [FsOp] of [pull_apply.rs]. *)
Inductive FsOpKind :=
| Install (entry : ManifestEntry)
| DeleteOp
| ModeChange (entry : ManifestEntry)
| ConflictAside (entry : ManifestEntry).

Record FsOp := { op_path : WorkspacePath; op_kind : FsOpKind; op_expected : PreimagePayload }.

Definition target_payload (op : FsOp) : IntentOperationKind * TargetRecordPayload :=
  match op_kind op with
  | Install entry => (OpInstall, entry_to_target TagInstall entry)
  | ConflictAside entry => (OpConflictAside, entry_to_target TagConflictAside entry)
  | DeleteOp =>
      (OpDelete, {| tr_op := TagDelete; tr_kind := None; tr_size := None; tr_mode := None;
                    tr_content_id := None; tr_blob_key := None; tr_key_epoch := None;
                    tr_symlink_target := None |})
  | ModeChange entry => (OpModeChange, entry_to_target TagModeChange entry)
  end.

(** ** Lemmas *)

(** An entry as every device compares it: a link carries the one link mode. *)
Definition canonical_entry (entry : ManifestEntry) : ManifestEntry :=
  match entry with
  | SymlinkEntry _ target => SymlinkEntry FileMode_symlink target
  | _ => entry
  end.

Lemma entry_mode_canonical e : entry_mode (canonical_entry e) = entry_mode e.
Proof. by destruct e. Qed.

Lemma record_roundtrip e fp now :
  file_record_to_entry (record_for_entry e fp now) = Ok (canonical_entry e).
Proof. by destruct e. Qed.

Lemma record_mode e fp now : fr_mode (record_for_entry e fp now) = entry_mode e.
Proof. by destruct e. Qed.

Lemma record_matches e fp now : entry_matches_record e (record_for_entry e fp now) = true.
Proof. destruct e; cbn; by rewrite ?bool_decide_eq_true_2. Qed.

Lemma target_roundtrip op e : to_entry (entry_to_target op e) = Ok (canonical_entry e).
Proof. by destruct e. Qed.

(** The journal and the ancestor agree with the plan.  What crash recovery
    rebuilds from a journalled operation is the entry the plan held, the row it
    commits is the row a direct apply commits, that row reads back as the same
    entry and compares as unchanged against it, content and mode. *)
Theorem intent_roundtrip op e fp now :
  to_entry (entry_to_target op e) = Ok (canonical_entry e) ∧
  to_record (entry_to_target op e) fp now = Ok (record_for_entry e fp now) ∧
  file_record_to_entry (record_for_entry e fp now) = Ok (canonical_entry e) ∧
  entry_matches_record e (record_for_entry e fp now) = true ∧
  fr_mode (record_for_entry e fp now) = entry_mode e.
Proof.
  split_and!; [apply target_roundtrip| |apply record_roundtrip|apply record_matches|apply record_mode].
  unfold to_record. rewrite target_roundtrip. by destruct e.
Qed.

(** The storage tag of an unsyncable reason determines it: reading back what
    was written gives the same reason, and no other text is accepted for it. *)
Lemma reason_tag_roundtrip r tag : reason_from_tag tag = Some r ↔ tag = reason_tag r.
Proof.
  split.
  - intros [_ H]%find_some. by apply String.eqb_eq in H.
  - intros ->. by destruct r.
Qed.
