(* ===== verification/FsGuard.v ===== *)
(** * The no-follow filesystem boundary

    Models [bowline-local/src/sync/manifest_engine/fs_guard.rs]: the total
    observation of a path, the no-follow walk of a parent chain, the gate that
    decides whether a symlink lands inside the workspace, and the bounded read
    that refuses a file that is no longer the one observed.

    The operating system is the record [Os]: what each call answers.  Paths are
    relative to the workspace root, which is the argument [root] of every
    function of the source.  A descriptor answers its own [fstat] twice, because
    the code asks twice and a racing writer may come in between.

    The gate has no fuel: it recurses on the hops left and, between two hops, on
    the components not yet walked. *)

From S2P Require Import Prelude.
From S2P Require Import Paths.
From S2P Require Import ManifestTypes.
Local Open Scope string_scope.
Open Scope Z_scope.

(** ** The operating system *)

Inductive FileType := TypeFile | TypeDirectory | TypeSymlink | TypeOther.

#[export] Instance FileType_eq_dec : EqDecision FileType.
Proof. solve_decision. Defined.

Record Metadata := {
  md_type : FileType;
  md_mode : Z;
  md_len : Z;
  md_mtime : Z; md_mtime_nsec : Z;
  md_ctime : Z; md_ctime_nsec : Z;
  md_ino : Z; md_dev : Z;
}.

(** [rustix::io::Errno] of [open], the ones the code tells apart. *)
Inductive Errno := LOOP | NOENT | NOTDIR | ISDIR | NXIO | OtherErrno (code : Z).

(** An open descriptor: its first [fstat], its content, its last [fstat]. *)
Record Handle := {
  h_metadata : Result Metadata IoError;
  h_content : Result bytes IoError;
  h_final_metadata : Result Metadata IoError;
}.

Record Os := {
  symlink_metadata : string → Result Metadata IoError;
  (** [read_link], [None] where the target is not UTF-8 *)
  read_link : string → Result (option string) IoError;
  create_dir : string → Result unit IoError;
  (** [symlink_metadata] after a [create_dir] that found the name taken *)
  metadata_after_create : string → Result Metadata IoError;
  open_nofollow : string → Result Handle Errno;
}.

(** ** Fingerprints *)

Definition i64_max : Z := 2 ^ 63 - 1.
Definition i64_min : Z := - 2 ^ 63.
Definition i64_saturate (z : Z) : Z := Z.max i64_min (Z.min z i64_max).

(** [mtime_nsec_pair] and [ctime_nsec_pair] *)
Definition nsec_pair (seconds nanoseconds : Z) : Z :=
  i64_saturate (i64_saturate (seconds * 1000000000) + nanoseconds).

Definition fingerprint_of (m : Metadata) : StatFingerprint :=
  {| fp_mtime_ns := nsec_pair (md_mtime m) (md_mtime_nsec m);
     fp_ctime_ns := nsec_pair (md_ctime m) (md_ctime_nsec m);
     fp_inode := md_ino m;
     fp_dev := md_dev m |}.

(** ** Observation *)

Inductive ObserveOutcome :=
| ObAbsent
| ObPresent (observed : Observed)
| ObUnsyncable (reason : UnsyncableReason).

Definition is_absent (error : IoError) : bool :=
  match io_kind error with NotFound | NotADirectory => true | _ => false end.

Definition refused (error : IoError) : ObserveOutcome :=
  if is_absent error then ObAbsent else ObUnsyncable (path_scoped_reason error).

Definition observe_classified (os : Os) (path : WorkspacePath) : ObserveOutcome :=
  match symlink_metadata os path with
  | Err error => refused error
  | Ok metadata =>
      let present kind size mode target :=
        ObPresent {| ob_kind := kind; ob_size := size; ob_mode := mode;
                     ob_symlink_target := target; ob_fingerprint := fingerprint_of metadata |} in
      match md_type metadata with
      | TypeSymlink =>
          match read_link os path with
          | Err error => refused error
          | Ok None => ObUnsyncable NonUtf8SymlinkTarget
          | Ok (Some target) => present Symlink 0 FileMode_symlink (Some target)
          end
      | TypeDirectory => present Directory 0 (md_mode metadata) None
      | TypeFile => present File (md_len metadata) (md_mode metadata) None
      | TypeOther => ObUnsyncable UnsupportedKind
      end
  end.

(** ** Parent chains *)

Inductive ParentChain := Ready | Blocked.
Inductive ParentChainMode := CreateMissing | RequireExisting.

Definition ensure_dir (os : Os) (current : string) : bool :=
  match create_dir os current with
  | Ok _ => true
  | Err error =>
      if bool_decide (io_kind error = AlreadyExists) then
        match metadata_after_create os current with
        | Ok m => bool_decide (md_type m = TypeDirectory)
        | Err _ => false
        end
      else false
  end.

(** The loop over the intermediate components; [walked] is [current] below the
    root. *)
Fixpoint walk_parents (os : Os) (mode : ParentChainMode) (components walked : list string)
    : ParentChain :=
  match components with
  | [] => Ready
  | component :: components =>
      if (component =? "")%string then walk_parents os mode components walked else
      let walked := app walked [component] in
      match symlink_metadata os (join walked) with
      | Ok m =>
          if bool_decide (md_type m = TypeDirectory) then walk_parents os mode components walked
          else Blocked
      | Err error =>
          if bool_decide (io_kind error = NotFound) then
            match mode with
            | CreateMissing =>
                if ensure_dir os (join walked) then walk_parents os mode components walked
                else Blocked
            | RequireExisting => Ready
            end
          else Blocked
      end
  end.

Definition prepare_parent_chain (os : Os) (path : WorkspacePath) (mode : ParentChainMode)
    : ParentChain :=
  let components := split slash path in
  walk_parents os mode (firstn (length components - 1) components) [].

(** ** The symlink gate *)

Definition MAX_SYMLINK_HOPS : nat := 40.

Definition path_components (path : string) : list string :=
  List.filter (λ component, negb (component =? "")%string) (split slash path).

(** The [while let] loop; [hops_left] is [MAX_SYMLINK_HOPS - hops]. *)
Fixpoint lands (os : Os) (hops_left : nat) : list string → list string → bool :=
  fix walk (pending walked : list string) : bool :=
    match pending with
    | [] => true
    | component :: pending =>
        let walked := app walked [component] in
        let walked_path := join walked in
        match symlink_metadata os walked_path with
        | Err error => is_absent error
        | Ok metadata =>
            if bool_decide (md_type metadata ≠ TypeSymlink) then walk pending walked else
            match hops_left with
            | O => false
            | Datatypes.S hops_left =>
                match read_link os walked_path with
                | Err _ | Ok None => false
                | Ok (Some hop_target) =>
                    match resolve_symlink_target walked_path hop_target with
                    | None => false
                    | Some hop_resolved =>
                        lands os hops_left (app (path_components hop_resolved) pending) []
                    end
                end
            end
        end
    end.

Definition symlink_target_lands_in_workspace (os : Os) (link : WorkspacePath) (target : string)
    : bool :=
  match resolve_symlink_target link target with
  | None => false
  | Some resolved => lands os MAX_SYMLINK_HOPS (path_components resolved) []
  end.

(** ** Bounded reads *)

Inductive FileVisit (T : Type) := VisitValue (value : T) | VisitDiverged.
Arguments VisitValue {T} value.
Arguments VisitDiverged {T}.

Inductive FileRead := ReadBytes (content : bytes) | ReadDiverged.

(** [read.take(n).read_to_end] *)
Definition take_bytes (n : Z) (s : bytes) : bytes :=
  if str_len s <=? n then s else String.substring 0 (Z.to_nat n) s.

Definition matches_expected (m : Metadata) (expected : ExpectedFile) : bool :=
  bool_decide (md_type m = TypeFile)
  && bool_decide (fingerprint_of m = ef_fingerprint expected)
  && (md_len m =? ef_size expected).

Definition errno_diverges (e : Errno) : bool :=
  match e with LOOP | NOENT | NOTDIR | ISDIR | NXIO => true | OtherErrno _ => false end.

(** [io::Error::from(errno)] *)
Definition io_error_from (errno : Errno) : IoError :=
  match errno with
  | NOENT => {| io_kind := NotFound; io_raw_os_error := Some 2 |}
  | NOTDIR => {| io_kind := NotADirectory; io_raw_os_error := Some 20 |}
  | OtherErrno code =>
      {| io_kind := if (code =? 13) || (code =? 1) then PermissionDeniedKind
                    else if code =? 12 then OutOfMemory
                    else if code =? 17 then AlreadyExists else OtherKind;
         io_raw_os_error := Some code |}
  | LOOP | ISDIR | NXIO => {| io_kind := OtherKind; io_raw_os_error := None |}
  end.

(** [visit_file_bounded]; [visitor] consumes the content. *)
Definition visit_file_bounded {T} (os : Os) (path : WorkspacePath) (max_bytes : Z)
    (expected : ExpectedFile) (visitor : Handle → Z → Result T PushError)
    : Result (FileVisit T) PushError :=
  match prepare_parent_chain os path RequireExisting with
  | Blocked => Ok VisitDiverged
  | Ready =>
  match open_nofollow os path with
  | Err errno =>
      if errno_diverges errno then Ok VisitDiverged
      else Err (PushIo (io_error_from errno))
  | Ok file =>
  match h_metadata file with
  | Err error => Err (PushIo error)
  | Ok metadata =>
      if negb (matches_expected metadata expected) then Ok VisitDiverged else
      if max_bytes <? md_len metadata
      then Err (StreamSealUnsupported (md_len metadata) max_bytes) else
      result_bind (visitor file (md_len metadata)) (λ value,
      match h_final_metadata file with
      | Err error => Err (PushIo error)
      | Ok final => if negb (matches_expected final expected) then Ok VisitDiverged
                    else Ok (VisitValue value)
      end)
  end end end.

(** [read_file_bounded]; on the 64-bit targets of the code the conversion of the
    length to [usize] does not fail. *)
Definition read_file_bounded (os : Os) (path : WorkspacePath) (max_bytes : Z)
    (expected : ExpectedFile) : Result FileRead PushError :=
  result_map (λ visit, match visit with
              | VisitValue buffer => ReadBytes buffer
              | VisitDiverged => ReadDiverged
              end)
    (visit_file_bounded os path max_bytes expected (λ file byte_len,
       match h_content file with
       | Err error => Err (PushIo error)
       | Ok content =>
           let buffer := take_bytes (u64_saturating_add max_bytes 1) content in
           if max_bytes <? str_len buffer
           then Err (StreamSealUnsupported (str_len buffer) max_bytes)
           else Ok buffer
       end)).

(** ** Path resolution by the kernel

    What [open(2)] does with a relative link target, component by component, from
    the directory [cwd] (innermost name first): the reference the gate is
    measured against.  [Outside] is any step above the workspace root, or an
    absolute target. *)
Inductive Resolution := Inside (cwd : list string) | Outside | Unresolved.

Fixpoint kernel_resolve (os : Os) (hops : nat) : list string → list string → Resolution :=
  fix walk (pending cwd : list string) : Resolution :=
    match pending with
    | [] => Inside cwd
    | component :: pending =>
        if (component =? "")%string || (component =? ".")%string then walk pending cwd else
        if (component =? "..")%string then
          match cwd with [] => Outside | _ :: cwd => walk pending cwd end
        else
        let path := join (reverse (component :: cwd)) in
        match symlink_metadata os path with
        | Err _ => Unresolved
        | Ok metadata =>
            match md_type metadata with
            | TypeSymlink =>
                match read_link os path with
                | Ok (Some target) =>
                    if starts_with_char slash target then Outside else
                    match hops with
                    | O => Unresolved
                    | Datatypes.S hops => kernel_resolve os hops (app (split slash target) pending) cwd
                    end
                | _ => Unresolved
                end
            | _ => walk pending (component :: cwd)
            end
        end
    end.

(** The directory a link at [link] lives in. *)
Definition parent_of (link : string) : list string := tail (reverse (split slash link)).

Definition follow_link (os : Os) (link target : string) : Resolution :=
  if starts_with_char slash target then Outside
  else kernel_resolve os MAX_SYMLINK_HOPS (split slash target) (parent_of link).
