(* ===== verification/SymlinkGate.v ===== *)
(** * The symlink gate against the kernel

    [FsGuard.symlink_target_lands_in_workspace] decides from a lexical resolution
    and a walk of the local tree whether a published link may be created.  This
    file measures it against [FsGuard.follow_link], what the kernel does with the
    link: where the gate is right (links that climb before they descend, the
    shape real repositories have), and two shapes where it lets a link out. *)

From S2P Require Import Prelude.
From S2P Require Import Paths.
From S2P Require Import ManifestTypes.
From S2P Require Import FsGuard.
Open Scope Z_scope.

(** ** Definitions *)

Definition is_up (c : string) : bool := (c =? "..")%string.
Definition is_stay (c : string) : bool := (c =? "")%string || (c =? ".")%string.

(** [..] occurs only before the first name. *)
Fixpoint climbs_first (components : list string) : bool :=
  match components with
  | [] => true
  | c :: components =>
      if is_stay c || is_up c then climbs_first components
      else forallb (λ c, negb (is_up c)) components
  end.

(** The targets the gate handles: no backslash, and climbing first. *)
Definition tame (target : string) : bool :=
  no_char backslash target && climbs_first (split slash target).

(** A directory (innermost name first) all of whose components are plain names
    that are not symlinks. *)
Fixpoint real_chain (os : Os) (cwd : list string) : bool :=
  match cwd with
  | [] => true
  | name :: parents =>
      plain name
      && match symlink_metadata os (join (reverse cwd)) with
         | Ok m => bool_decide (md_type m ≠ TypeSymlink)
         | Err _ => false
         end
      && real_chain os parents
  end.

(** The names of a component list: what is left when [""] and ["."] are dropped. *)
Definition names (components : list string) : list string :=
  List.filter (λ c, negb (is_stay c)) components.

(** What a piece of a backslash-free target looks like. *)
Definition piece (c : string) : Prop := no_char slash c = true ∧ no_char backslash c = true.

Definition descending (components : list string) : Prop :=
  Forall (λ c, piece c ∧ is_up c = false) components.

(** ** Unfolding *)

Lemma lands_cons os g c l w :
  lands os g (c :: l) w =
    match symlink_metadata os (join (w ++ [c])) with
    | Err error => is_absent error
    | Ok m =>
        if bool_decide (md_type m ≠ TypeSymlink) then lands os g l (w ++ [c]) else
        match g with
        | O => false
        | Datatypes.S g =>
            match read_link os (join (w ++ [c])) with
            | Err _ | Ok None => false
            | Ok (Some t) =>
                match resolve_symlink_target (join (w ++ [c])) t with
                | None => false
                | Some r => lands os g (path_components r ++ l) []
                end
            end
        end
    end.
Proof. by destruct g. Qed.

Lemma kernel_nil os h cwd : kernel_resolve os h [] cwd = Inside cwd.
Proof. by destruct h. Qed.

Lemma kernel_stay os h c l cwd : is_stay c = true →
  kernel_resolve os h (c :: l) cwd = kernel_resolve os h l cwd.
Proof. unfold is_stay. intros H. by destruct h; cbn; rewrite H. Qed.

Lemma kernel_up os h c l cwd : is_up c = true →
  kernel_resolve os h (c :: l) cwd =
    match cwd with [] => Outside | _ :: cwd => kernel_resolve os h l cwd end.
Proof. unfold is_up. intros ->%String.eqb_eq. by destruct h. Qed.

Lemma kernel_name os h c l cwd : is_stay c = false → is_up c = false →
  kernel_resolve os h (c :: l) cwd =
    match symlink_metadata os (join (reverse (c :: cwd))) with
    | Err _ => Unresolved
    | Ok m =>
        match md_type m with
        | TypeSymlink =>
            match read_link os (join (reverse (c :: cwd))) with
            | Ok (Some t) =>
                if starts_with_char slash t then Outside else
                match h with
                | O => Unresolved
                | Datatypes.S h => kernel_resolve os h (split slash t ++ l) cwd
                end
            | _ => Unresolved
            end
        | _ => kernel_resolve os h l (c :: cwd)
        end
    end.
Proof. unfold is_stay, is_up. intros H1 H2. by destruct h; cbn; rewrite H1, H2. Qed.

(** ** Soundness *)

Lemma names_cons c l : names (c :: l) = if is_stay c then names l else c :: names l.
Proof. unfold names. cbn. by destruct (is_stay c). Qed.

Lemma names_app l1 l2 : names (l1 ++ l2) = names l1 ++ names l2.
Proof. unfold names. apply List.filter_app. Qed.

Lemma plain_name c : piece c → is_stay c = false → is_up c = false → plain c = true.
Proof.
  unfold is_stay, is_up, plain, nonempty. intros [H1 H2] [H3 H4]%orb_false_iff H5.
  by rewrite H1, H2, H3, H4, H5.
Qed.

Lemma names_plain l : descending l → Forall (λ n, plain n = true) (names l).
Proof.
  induction 1 as [|c l [Hp Hu] _ IH]; [constructor|]. rewrite names_cons.
  destruct (is_stay c) eqn:E; [done|]. constructor; [by apply plain_name|done].
Qed.

Lemma real_chain_plain os cwd : real_chain os cwd = true → Forall (λ n, plain n = true) cwd.
Proof.
  induction cwd as [|n cwd IH]; [constructor|].
  cbn [real_chain]. intros [[? _]%andb_true_iff ?]%andb_true_iff. constructor; auto.
Qed.

Lemma resolve_descending l cwd : descending l →
  resolve_components l cwd = Some (reverse (names l) ++ cwd).
Proof.
  intros H. revert cwd. induction H as [|c l [Hp Hu] _ IH]; intros cwd; [done|].
  rewrite names_cons. cbn [resolve_components]. fold (is_stay c). fold (is_up c).
  rewrite Hu. destruct (is_stay c); [by rewrite IH|].
  by rewrite IH, reverse_cons, <-(assoc_L (++)).
Qed.

(** Climbing and then descending, the lexical walk and the kernel's agree. *)
Lemma climb_agrees os l cwd st :
  climbs_first l = true → Forall piece l → real_chain os cwd = true →
  resolve_components l cwd = Some st →
  ∃ cwd' rest, real_chain os cwd' = true ∧ descending rest ∧
    st = reverse (names rest) ++ cwd' ∧
    ∀ h l', kernel_resolve os h (l ++ l') cwd = kernel_resolve os h (rest ++ l') cwd'.
Proof.
  intros Hc Hl. revert cwd. induction Hl as [|c l Hp Hl IH]; intros cwd Hreal Hr.
  - injection Hr as <-. exists cwd, []. split_and!; [done|constructor|done|done].
  - cbn [climbs_first] in Hc. cbn [resolve_components] in Hr. fold (is_stay c) in Hr.
    fold (is_up c) in Hr. destruct (is_stay c) eqn:Hs; [|destruct (is_up c) eqn:Hu].
    + destruct (IH Hc cwd Hreal Hr) as (cwd' & rest & ? & ? & ? & Hk).
      exists cwd', rest. split_and!; [done..|]. intros h l'. rewrite <-(Hk h l'). cbn [app]. by rewrite kernel_stay.
    + destruct cwd as [|n cwd]; [done|].
      cbn [real_chain] in Hreal. apply andb_true_iff in Hreal as [_ Hreal].
      destruct (IH Hc cwd Hreal Hr) as (cwd' & rest & ? & ? & ? & Hk).
      exists cwd', rest. split_and!; [done..|]. intros h l'. rewrite <-(Hk h l').
      cbn [app]. by rewrite kernel_up.
    + assert (descending (c :: l)) as Hd.
      { constructor; [done|]. clear IH Hr. cbn in Hc. rewrite forallb_forall in Hc.
        apply Forall_forall. intros x Hx. rewrite Forall_forall in Hl. split; [by apply Hl|].
        apply negb_true_iff, Hc. by apply list_elem_of_In. }
      exists cwd, (c :: l). split_and!; [done..| |done].
      pose proof (resolve_descending (c :: l) cwd Hd) as Hr'. cbn [resolve_components] in Hr'.
      fold (is_stay c) in Hr'. fold (is_up c) in Hr'. rewrite Hs, Hu in Hr'. congruence.
Qed.

(** A real chain is walked without a hop. *)
Lemma lands_real os g cwd l : real_chain os cwd = true →
  lands os g (reverse cwd ++ l) [] = lands os g l (reverse cwd).
Proof.
  revert l. induction cwd as [|n cwd IH]; intros l; [done|].
  cbn [real_chain]. intros [[_ Hm]%andb_true_iff Hr]%andb_true_iff.
  rewrite reverse_cons, <-(assoc_L (++)). cbn [app]. rewrite IH by done.
  rewrite lands_cons, <-reverse_cons.
  destruct (symlink_metadata os _) as [m|]; [|done]. by rewrite Hm.
Qed.

Lemma join_plain_ne l : l ≠ [] → Forall (λ n, plain n = true) l → join l ≠ EmptyString.
Proof.
  intros Hne Hl He. destruct (plain_join l Hl) as (_ & _ & Hs). specialize (Hs Hne).
  rewrite He in Hs. cbn in Hs. subst l. by inversion_clear Hl.
Qed.

Lemma resolve_tame os c cwd t r :
  plain c = true → real_chain os cwd = true → tame t = true →
  resolve_symlink_target (join (reverse (c :: cwd))) t = Some r →
  ∃ cwd' rest, real_chain os cwd' = true ∧ descending rest ∧
    path_components r = reverse cwd' ++ names rest ∧
    starts_with_char slash t = false ∧
    ∀ h l, kernel_resolve os h (split slash t ++ l) cwd = kernel_resolve os h (rest ++ l) cwd'.
Proof.
  intros Hc Hreal [Hb Ht]%andb_true_iff. unfold resolve_symlink_target.
  assert (Forall (λ n, plain n = true) (reverse (c :: cwd))) as Hplain
    by (apply Forall_reverse; constructor; [done|by eapply real_chain_plain]).
  assert (reverse (c :: cwd) ≠ []) as Hne by (rewrite reverse_cons; by destruct (reverse cwd)).
  destruct (plain_join _ Hplain) as (-> & _ & Hs). rewrite (Hs Hne), reverse_involutive.
  destruct (String.eqb_spec t ""); [done|]. cbn [orb].
  destruct (starts_with_char slash t) eqn:Habs; [done|].
  destruct (String.eqb_spec (join (reverse (c :: cwd))) "") as [He|];
    [by apply join_plain_ne in He|]. cbn [tail].
  destruct (resolve_components (split slash t) cwd) as [st|] eqn:Hst; [|done].
  intros [= <-].
  assert (Forall piece (split slash t)) as Hp.
  { apply Forall_and. split; [apply split_no_char|by apply no_char_split]. }
  destruct (climb_agrees os _ cwd st Ht Hp Hreal Hst) as (cwd' & rest & Hr' & Hd & -> & Hk).
  exists cwd', rest. split_and!; [done..| |done|done].
  assert (Forall (λ n, plain n = true) (reverse (reverse (names rest) ++ cwd'))) as Hpl.
  { apply Forall_reverse, Forall_app. split; [by apply Forall_reverse, names_plain|].
    by eapply real_chain_plain. }
  destruct (plain_join _ Hpl) as (-> & Hcomp & _).
  change (path_components (join ?l)) with (components (join l)).
  rewrite Hcomp, reverse_app, reverse_involutive. done.
Qed.

Lemma kernel_contained os h :
  (∀ p t, read_link os p = Ok (Some t) → tame t = true) →
  ∀ l cwd g, real_chain os cwd = true → descending l →
    lands os g (names l) (reverse cwd) = true → kernel_resolve os h l cwd ≠ Outside.
Proof.
  intros Htame. induction h as [h IHh] using lt_wf_ind.
  induction l as [|c l IHl]; intros cwd g Hreal Hd Hlands; [by rewrite kernel_nil|].
  inversion_clear Hd as [|?? [Hp Hu] Hd']. rewrite names_cons in Hlands.
  destruct (is_stay c) eqn:Hs; [rewrite kernel_stay by done; by eapply IHl|].
  rewrite kernel_name by done. rewrite lands_cons, <-reverse_cons in Hlands.
  assert (plain c = true) as Hc by by apply plain_name.
  destruct (symlink_metadata os (join (reverse (c :: cwd)))) as [m|] eqn:Hm; [|done].
  assert (md_type m ≠ TypeSymlink → kernel_resolve os h l (c :: cwd) ≠ Outside) as Hwalk.
  { intros Hty. rewrite bool_decide_eq_true_2 in Hlands by done.
    apply (IHl (c :: cwd) g); [|done|done]. cbn [real_chain]. rewrite Hm, Hc, Hreal.
    by rewrite bool_decide_eq_true_2. }
  destruct (md_type m) eqn:Hty; [by apply Hwalk..| |by apply Hwalk]. clear Hwalk.
  rewrite bool_decide_eq_false_2 in Hlands by (intros Hn; by apply Hn).
  destruct g as [|g]; [done|].
  destruct (read_link os (join (reverse (c :: cwd)))) as [[t|]|] eqn:Hl; [|done..].
  destruct (resolve_symlink_target _ t) as [r|] eqn:Hr; [|done].
  destruct (resolve_tame os c cwd t r Hc Hreal (Htame _ _ Hl) Hr)
    as (cwd' & rest & Hreal' & Hdr & Hcomp & -> & Hk).
  destruct h as [|h]; [done|]. rewrite Hk. apply (IHh h ltac:(lia) (rest ++ l) cwd' g); [done|..].
  - by apply Forall_app.
  - rewrite names_app, <-lands_real by done. by rewrite Hcomp, <-(assoc_L (++)) in Hlands.
Qed.

(** ** Concrete trees, for the examples *)

Inductive Node := DirNode | FileNode | LinkNode (target : string).

Definition node_type (n : Node) : FileType :=
  match n with DirNode => TypeDirectory | FileNode => TypeFile | LinkNode _ => TypeSymlink end.

Definition tree_lookup (tree : list (string * Node)) (path : string) : option Node :=
  snd <$> List.find (λ e, (e.1 =? path)%string) tree.

Definition enoent : IoError := {| io_kind := NotFound; io_raw_os_error := Some 2 |}.

Definition tree_metadata (tree : list (string * Node)) (path : string) : Result Metadata IoError :=
  match tree_lookup tree path with
  | Some n =>
      Ok {| md_type := node_type n; md_mode := 0; md_len := 0; md_mtime := 0; md_mtime_nsec := 0;
            md_ctime := 0; md_ctime_nsec := 0; md_ino := 1; md_dev := 1 |}
  | None => Err enoent
  end.

Definition os_of_tree (tree : list (string * Node)) : Os :=
  {| symlink_metadata := tree_metadata tree;
     read_link := λ path, match tree_lookup tree path with
                          | Some (LinkNode t) => Ok (Some t)
                          | _ => Err enoent
                          end;
     create_dir := λ _, Ok tt;
     metadata_after_create := tree_metadata tree;
     open_nofollow := λ _, Err NOENT |}.

Definition tame_tree (tree : list (string * Node)) : bool :=
  forallb (λ e, match e.2 with LinkNode t => tame t | _ => true end) tree.

Lemma tame_tree_links tree p t : tame_tree tree = true →
  read_link (os_of_tree tree) p = Ok (Some t) → tame t = true.
Proof.
  unfold tame_tree. rewrite forallb_forall. intros Hall. cbn. unfold tree_lookup.
  destruct (List.find _ tree) as [[q n]|] eqn:Hf; [|done]. cbn.
  apply find_some in Hf as [Hin _]. specialize (Hall _ Hin). cbn in Hall.
  destruct n; [done..|]. by intros [= <-].
Qed.

(** A package manager's shape: [node_modules/pkg] is a link. *)
Definition pnpm_tree : list (string * Node) :=
  [("node_modules", DirNode); ("node_modules/.bin", DirNode); ("pkgs", DirNode);
   ("pkgs/pkg", DirNode); ("pkgs/pkg/bin.js", FileNode);
   ("node_modules/pkg", LinkNode "../pkgs/pkg")].

Definition climb_tree : list (string * Node) :=
  [("top", DirNode); ("p", DirNode); ("p/q", DirNode); ("p/q/s", LinkNode "../../top")].

Definition backslash_tree : list (string * Node) := [("esc\ape", LinkNode "/etc")].

(** ** Properties *)

(** C30: The gate is sound for links that climb before they descend.  If every
    link on disk and the published target put [..] only in front and carry no
    backslash, and the link's directory is real, then a link the gate accepts is
    never resolved by the kernel to a place outside the workspace, however many
    links of the local tree the resolution passes through. *)
Theorem symlink_gate_sound os link target len allow :
  publishable_workspace_path link len allow = Ok tt →
  real_chain os (parent_of link) = true →
  (∀ p t, read_link os p = Ok (Some t) → tame t = true) → tame target = true →
  symlink_target_lands_in_workspace os link target = true →
  follow_link os link target ≠ Outside.
Proof.
  intros (l & Hne & -> & Hl)%publishable_plain Hreal Htame Ht Hgate.
  destruct (plain_join l Hl) as (_ & _ & Hs). unfold follow_link, parent_of in *.
  rewrite (Hs Hne) in *. destruct (reverse l) as [|c cwd] eqn:Hrev.
  { by apply (f_equal reverse) in Hrev; rewrite reverse_involutive in Hrev. }
  assert (l = reverse (c :: cwd)) as -> by (by rewrite <-Hrev, reverse_involutive).
  apply Forall_reverse in Hl. rewrite reverse_involutive in Hl. inversion_clear Hl.
  unfold symlink_target_lands_in_workspace in Hgate.
  destruct (resolve_symlink_target _ target) as [r|] eqn:Hr; [|done]. cbn [tail] in *.
  destruct (resolve_tame os c cwd target r) as (cwd' & rest & Hreal' & Hd & Hcomp & -> & Hk);
    [done..|].
  rewrite <-(app_nil_r (split slash target)), Hk, app_nil_r.
  apply (kernel_contained os _ Htame rest cwd' MAX_SYMLINK_HOPS); [done..|].
  by rewrite <-lands_real, <-Hcomp.
Qed.

(** The gate does not contain a target that climbs after it descended.  The
    lexical resolution cancels [s/..] although [p/q/s] is itself a link, so the
    gate never walks it; the kernel follows it to the shallower [top] and leaves
    the workspace.  Both links pass the gate and are accepted by the path rules. *)
Lemma symlink_gate_climb_escapes :
  let os := os_of_tree climb_tree in
  symlink_target_lands_in_workspace os "p/q/s" "../../top" = true ∧
  symlink_target_lands_in_workspace os "read" "p/q/s/../../secret" = true ∧
  publishable_workspace_path "read" MAX_WORKSPACE_PATH_LEN false = Ok tt ∧
  follow_link os "read" "p/q/s/../../secret" = Outside.
Proof. vm_compute. done. Qed.

(** The gate does not contain a target whose name carries a backslash.  The
    lexical walk keeps it as one name, but the result is normalized as a path, so
    the gate walks [esc/ape] while the kernel opens the existing link [esc\ape]. *)
Lemma symlink_gate_backslash_escapes :
  let os := os_of_tree backslash_tree in
  resolve_symlink_target "link" "..\..\x" = Some "../../x"%string ∧
  symlink_target_lands_in_workspace os "read" "esc\ape/passwd" = true ∧
  follow_link os "read" "esc\ape/passwd" = Outside.
Proof. vm_compute. done. Qed.

(** Outside the hypothesis of soundness the gate lets links escape.  A target that
    climbs after descending through an existing link ([p/q/s/../../secret]) is accepted
    and leaves the workspace when the kernel follows it; so is a target that names an
    existing link whose name carries a backslash. *)
Example symlink_gate_escapes :
  (let os := os_of_tree climb_tree in
   symlink_target_lands_in_workspace os "p/q/s" "../../top" = true ∧
   symlink_target_lands_in_workspace os "read" "p/q/s/../../secret" = true ∧
   publishable_workspace_path "read" MAX_WORKSPACE_PATH_LEN false = Ok tt ∧
   follow_link os "read" "p/q/s/../../secret" = Outside) ∧
  (let os := os_of_tree backslash_tree in
   resolve_symlink_target "link" "..\..\x" = Some "../../x"%string ∧
   symlink_target_lands_in_workspace os "read" "esc\ape/passwd" = true ∧
   follow_link os "read" "esc\ape/passwd" = Outside).
Proof. split; [apply symlink_gate_climb_escapes|apply symlink_gate_backslash_escapes]. Qed.

(** ** Witnesses *)

Lemma symlink_gate_sound_witness :
  let os := os_of_tree pnpm_tree in
  symlink_target_lands_in_workspace os "node_modules/.bin/x" "../pkg/bin.js" = true ∧
  follow_link os "node_modules/.bin/x" "../pkg/bin.js" ≠ Outside.
Proof.
  split; [vm_compute; reflexivity|].
  apply (symlink_gate_sound (os_of_tree pnpm_tree) "node_modules/.bin/x" "../pkg/bin.js"
    MAX_WORKSPACE_PATH_LEN false).
  - vm_compute; reflexivity.
  - vm_compute; reflexivity.
  - intros p t. apply tame_tree_links. vm_compute; reflexivity.
  - vm_compute; reflexivity.
  - vm_compute; reflexivity.
Defined.
