(* ===== verification/MergeMatrix.v ===== *)
(** * The three-way merge

    Models [pull_apply.rs] and [pull_apply/delta.rs] of the manifest engine: what
    each side did to a path since the ancestor, the eleven-row matrix that decides
    what a pull does about it, and the classification of a whole head.

    An [EngineContext] holds what the deciding code reads: the operating system's
    answers, the key ring, the size ceiling and the clock.  The plan under
    construction is the state of the error monad.  Counters are not modelled.
    [debug_assertions] selects the debug build, whose [prove_narrowing] re-observes
    the paths the narrowed scope skipped. *)

From S2P Require Import Prelude.
From S2P Require Import Paths.
From S2P Require Import ManifestTypes.
From S2P Require Import FsGuard.
From stdpp Require Export sorting.
Local Open Scope string_scope.
Open Scope Z_scope.

Record EngineContext := {
  ctx_os : Os;
  ctx_crypto : WorkspaceCrypto;
  ctx_max_seal_bytes : Z;
  ctx_now : Z;
}.

(** ** [delta.rs] *)

Inductive LocalDelta :=
| LAbsent
| LUnreadable
| LUntracked (observed : Observed) (content_id : option ContentId)
| LUnchanged (record : FileRecord)
| LChanged (observed : Observed) (content_id : option ContentId)
| LModeChanged (observed : Observed)
| LDeleted.

Definition preimage (local : LocalDelta) : PreimagePayload :=
  match local with
  | LAbsent | LDeleted | LUnreadable => preimage_absent
  | LUnchanged record => preimage_from_record record
  | LUntracked observed content_id | LChanged observed content_id =>
      preimage_from_observed observed content_id
  | LModeChanged observed => preimage_from_observed observed None
  end.

Definition record_from_observed (local : LocalDelta) (entry : ManifestEntry) (now : Z)
    : Result FileRecord PullError :=
  match local with
  | LUntracked observed _ | LChanged observed _ =>
      Ok (record_for_entry entry (ob_fingerprint observed) now)
  | _ => Err (Internal "adopt without local observation")
  end.

Inductive LocalRead := LocalBytes (content : bytes) | Unverifiable.

Definition read_local_content (ctx : EngineContext) (path : WorkspacePath)
    (expected : ExpectedFile) : Result LocalRead PullError :=
  match read_file_bounded (ctx_os ctx) path (ctx_max_seal_bytes ctx) expected with
  | Ok (ReadBytes content) => Ok (LocalBytes content)
  | Ok ReadDiverged => Ok Unverifiable
  | Err (StreamSealUnsupported _ _) | Err (PushIo _) => Ok Unverifiable
  | Err error => Err (PushErr error)
  end.

Inductive RemoteDelta :=
| RAbsent
| RCreated (entry : ManifestEntry)
| RUnchanged
| RModeChanged (entry : ManifestEntry)
| RChanged (entry : ManifestEntry).

Definition requires_verified_local_content (remote : RemoteDelta) : bool :=
  match remote with RUnchanged => false | _ => true end.

Definition remote_entry (remote : RemoteDelta) : option ManifestEntry :=
  match remote with
  | RCreated entry | RModeChanged entry | RChanged entry => Some entry
  | RAbsent | RUnchanged => None
  end.

Definition remote_delta (remote : option ManifestEntry) (ancestor : option FileRecord)
    : RemoteDelta :=
  match remote, ancestor with
  | None, _ => RAbsent
  | Some entry, None => RCreated entry
  | Some entry, Some record =>
      if entry_matches_record entry record then
        if entry_mode entry =? fr_mode record then RUnchanged else RModeChanged entry
      else RChanged entry
  end.

(** ** The plan *)

Record MergePlan := {
  mp_fs_ops : list FsOp;
  mp_ancestor_upserts : gmap WorkspacePath FileRecord;
  mp_ancestor_removals : gset WorkspacePath;
  mp_push_again : gset WorkspacePath;
  mp_unsyncable : gmap WorkspacePath UnsyncableRecord;
}.

#[export] Instance MergePlan_eta : Eta MergePlan :=
  λ r, Build_MergePlan (mp_fs_ops r) (mp_ancestor_upserts r) (mp_ancestor_removals r)
         (mp_push_again r) (mp_unsyncable r).

(** [MergePlan::default()] *)
Definition empty_plan : MergePlan :=
  {| mp_fs_ops := []; mp_ancestor_upserts := ∅; mp_ancestor_removals := ∅;
     mp_push_again := ∅; mp_unsyncable := ∅ |}.

Abbreviation PM := (M MergePlan PullError).

(** [MergePlan::op], which [install], [aside], [delete] and [mode_change] call. *)
Definition plan_op (path : WorkspacePath) (kind : FsOpKind) (expected : PreimagePayload) : PM unit :=
  modify (λ p, p <| mp_fs_ops := app (mp_fs_ops p)
                      [{| op_path := path; op_kind := kind; op_expected := expected |}] |>).

Definition plan_adopt (path : WorkspacePath) (record : FileRecord) : PM unit :=
  modify (λ p, p <| mp_ancestor_upserts := <[path := record]> (mp_ancestor_upserts p) |>).

Definition plan_remove (path : WorkspacePath) : PM unit :=
  modify (λ p, p <| mp_ancestor_removals := {[path]} ∪ mp_ancestor_removals p |>).

Definition plan_push_again (path : WorkspacePath) : PM unit :=
  modify (λ p, p <| mp_push_again := {[path]} ∪ mp_push_again p |>).

Definition plan_unsyncable (path : WorkspacePath) (record : UnsyncableRecord) : PM unit :=
  modify (λ p, p <| mp_unsyncable := <[path := record]> (mp_unsyncable p) |>).

(** ** Scopes *)

Inductive PullScope :=
| ChangedAndDirty (dirty : gset WorkspacePath)
| ChangedAndWalked (dirty : gset WorkspacePath)
| WholeAncestor
| ReconcileAncestor (pending : gset WorkspacePath).

Definition dirty_paths (scope : PullScope) : option (gset WorkspacePath) :=
  match scope with
  | ChangedAndDirty dirty | ChangedAndWalked dirty | ReconcileAncestor dirty => Some dirty
  | WholeAncestor => None
  end.

Definition observes (scope : PullScope) (path : WorkspacePath) (remote : RemoteDelta) : bool :=
  match scope with
  | WholeAncestor | ReconcileAncestor _ => true
  | ChangedAndDirty dirty | ChangedAndWalked dirty =>
      match remote with RUnchanged => bool_decide (path ∈ dirty) | _ => true end
  end.

Definition reconciles_pending (scope : PullScope) (path : WorkspacePath) : bool :=
  match scope with ReconcileAncestor pending => bool_decide (path ∈ pending) | _ => false end.

(** ** The matrix *)

Definition escapes (os : Os) (path : WorkspacePath) (remote : RemoteDelta) : bool :=
  match remote_entry remote with
  | Some (SymlinkEntry _ target) => negb (symlink_target_lands_in_workspace os path target)
  | _ => false
  end.

Definition classify_one (ctx : EngineContext) (path : WorkspacePath) (local : LocalDelta)
    (remote : RemoteDelta) (force_aside : bool) : PM unit :=
  if escapes (ctx_os ctx) path remote then
    plan_unsyncable path {| ur_reason := EscapingSymlinkTarget; ur_errno := None;
                            ur_observed_at := ctx_now ctx |}
  else
  match local, remote with
  (* ancestor absent *)
  | LAbsent, RCreated entry => plan_op path (Install entry) preimage_absent
  | LUntracked _ _, RAbsent => plan_push_again path
  | LUntracked observed content_id, RCreated entry =>
      if negb force_aside && entry_matches_observed entry observed content_id then
        record ← of_result (record_from_observed local entry (ctx_now ctx));
        plan_adopt path record
      else
        plan_op path (ConflictAside entry) preimage_absent ;;
        plan_push_again path
  (* ancestor present, local unchanged *)
  | LUnchanged _, RAbsent => plan_op path DeleteOp (preimage local)
  | LUnchanged _, RChanged entry => plan_op path (Install entry) (preimage local)
  | LUnchanged _, RModeChanged entry => plan_op path (ModeChange entry) (preimage local)
  | LUnchanged _, RUnchanged => mret tt
  (* ancestor present, local deleted *)
  | LDeleted, RAbsent => plan_remove path
  | LDeleted, RChanged entry =>
      plan_op path (ConflictAside entry) preimage_absent ;;
      plan_remove path ;;
      plan_push_again path
  | LDeleted, RUnchanged | LDeleted, RModeChanged _ => plan_push_again path
  (* ancestor present, local changed *)
  | LChanged _ _, RAbsent | LModeChanged _, RAbsent =>
      plan_remove path ;;
      plan_push_again path
  | LChanged observed content_id, RChanged entry =>
      if negb (entry_matches_observed entry observed content_id) then
        plan_op path (ConflictAside entry) (preimage local) ;;
        plan_push_again path
      else if entry_mode entry =? ob_mode observed then
        plan_adopt path (record_for_entry entry (ob_fingerprint observed) (ctx_now ctx))
      else plan_op path (ModeChange entry) (preimage local)
  | LModeChanged observed, RModeChanged entry =>
      if entry_mode entry =? ob_mode observed then
        plan_adopt path (record_for_entry entry (ob_fingerprint observed) (ctx_now ctx))
      else plan_push_again path
  | LChanged _ _, RUnchanged | LChanged _ _, RModeChanged _ | LModeChanged _, RUnchanged =>
      plan_push_again path
  | LModeChanged _, RChanged entry =>
      plan_op path (ConflictAside entry) (preimage local) ;;
      plan_push_again path
  | LUnreadable, _ => mret tt
  | LAbsent, _ | LUntracked _ _, _ | _, RCreated _ => mret tt
  end.

Definition collision_set (collisions : list PathCollision) : gset string :=
  list_to_set (collisions ≫= pc_paths).

(** [BTreeSet] iteration order: bytewise. *)
Definition str_le (a b : string) : Prop := String.leb a b = true.
#[export] Instance str_le_dec a b : Decision (str_le a b) := decide (String.leb a b = true).

Section Deciding.
Context `{ContentHash}.

(** [ctx.crypto.content_id(&bytes)], whose [expect] may panic. *)
Definition write_content_id (ctx : EngineContext) (content : bytes) : Result ContentId PullError :=
  result_ok_or (Panicked "write epoch key must exist in workspace crypto keyring")
    (crypto_content_id (ctx_crypto ctx) content).

Definition maybe_hash (ctx : EngineContext) (path : WorkspacePath) (observed : Observed)
    : Result (option ContentId) PullError :=
  if bool_decide (ob_kind observed ≠ File) then Ok None else
  result_bind (read_local_content ctx path (expected_file observed)) (λ read,
  match read with
  | LocalBytes content => result_map Some (write_content_id ctx content)
  | Unverifiable => Ok None
  end).

(** The early [return]s of [local_vs_record]: stat alone proves the path unchanged. *)
Definition stat_unchanged (observed : Observed) (record : FileRecord) (verify_file_content : bool)
    : bool :=
  match ob_kind observed with
  | Directory => ob_mode observed =? fr_mode record
  | Symlink =>
      (ob_mode observed =? fr_mode record)
      && bool_decide (ob_symlink_target observed = fr_symlink_target record)
  | File =>
      negb verify_file_content
      && bool_decide (ob_fingerprint observed = fr_fingerprint record)
      && (ob_size observed =? fr_size record)
      && (ob_mode observed =? fr_mode record)
  end.

(** [key_epoch.and_then(|e| crypto.content_id_at(e, bytes).map(|id| Some(id) == expected))],
    compared with [Some(true)]. *)
Definition content_matches (ctx : EngineContext) (key_epoch : option KeyEpoch)
    (content : bytes) (expected : option ContentId) : bool :=
  match key_epoch ≫= (λ e, content_id_at (ctx_crypto ctx) e content) with
  | Some content_id => bool_decide (Some content_id = expected)
  | None => false
  end.

Definition local_vs_record (ctx : EngineContext) (path : WorkspacePath) (observed : Observed)
    (record : FileRecord) (verify_file_content : bool) : Result LocalDelta PullError :=
  if bool_decide (ob_kind observed ≠ fr_kind record) then
    result_map (LChanged observed) (maybe_hash ctx path observed)
  else if stat_unchanged observed record verify_file_content then Ok (LUnchanged record)
  else match ob_kind observed with
  | File =>
      result_bind (read_local_content ctx path (expected_file observed)) (λ read,
      match read with
      | Unverifiable => Ok (LChanged observed None)
      | LocalBytes content =>
          if content_matches ctx (fr_key_epoch record) content (fr_content_id record) then
            if ob_mode observed =? fr_mode record then Ok (LUnchanged record)
            else Ok (LModeChanged observed)
          else
            result_map (λ content_id, LChanged observed (Some content_id))
              (write_content_id ctx content)
      end)
  | Symlink =>
      if bool_decide (ob_symlink_target observed = fr_symlink_target record)
         && (ob_mode observed =? fr_mode record)
      then Ok (LUnchanged record) else Ok (LChanged observed None)
  | Directory => Ok (LModeChanged observed)
  end.

Definition local_delta (ctx : EngineContext) (path : WorkspacePath)
    (ancestor : option FileRecord) (verify_file_content : bool) : Result LocalDelta PullError :=
  match observe_classified (ctx_os ctx) path, ancestor with
  | ObUnsyncable _, _ => Ok LUnreadable
  | ObAbsent, None => Ok LAbsent
  | ObAbsent, Some _ => Ok LDeleted
  | ObPresent observed, None => result_map (LUntracked observed) (maybe_hash ctx path observed)
  | ObPresent observed, Some record =>
      local_vs_record ctx path observed record verify_file_content
  end.

(** ** Classifying a head *)

Section Classify.
Context (ctx : EngineContext) (debug_assertions : bool).
Context (ancestor : gmap WorkspacePath FileRecord) (remote : gmap WorkspacePath ManifestEntry).
Context (collisions : list PathCollision) (scope : PullScope).

(** One iteration of the loop; [Some path] is a path pushed on [excluded]. *)
Definition classify_path (path : WorkspacePath) : PM (option WorkspacePath) :=
  if is_git_lock_path path then mret None else
  let delta := remote_delta (remote !! path) (ancestor !! path) in
  if negb (observes scope path delta) then mret (Some path) else
  local ← of_result (local_delta ctx path (ancestor !! path)
                       (requires_verified_local_content delta));
  if reconciles_pending scope path
     && is_none (ancestor !! path)
     && (match local with LAbsent => true | _ => false end)
     && is_some (remote !! path)
  then plan_push_again path ;; mret None
  else
    let force_aside := bool_decide (path ∈ collision_set collisions) in
    classify_one ctx path local delta force_aside ;;
    mret None.

Fixpoint classify_paths (paths : list WorkspacePath) : PM (list WorkspacePath) :=
  match paths with
  | [] => mret []
  | path :: paths =>
      excluded ← classify_path path;
      rest ← classify_paths paths;
      mret (match excluded with Some path => path :: rest | None => rest end)
  end.

(** The debug build's [prove_narrowing]; the release build's returns [Ok(())]. *)
Fixpoint prove_excluded (excluded : list WorkspacePath) : Result unit PullError :=
  match excluded with
  | [] => Ok tt
  | path :: excluded =>
      result_bind (local_delta ctx path (ancestor !! path) false) (λ local,
      match local with
      | LUnchanged _ | LUnreadable => prove_excluded excluded
      | _ => Err (NarrowingMissedChange path)
      end)
  end.

Definition prove_narrowing (excluded : list WorkspacePath) : Result unit PullError :=
  match debug_assertions, scope with
  | true, ChangedAndWalked _ => prove_excluded excluded
  | _, _ => Ok tt
  end.

(** The paths of the loop, in [BTreeSet] order. *)
Definition merge_paths : list WorkspacePath :=
  merge_sort str_le (elements (dom ancestor ∪ dom remote)).

Definition classify : Result MergePlan PullError :=
  match classify_paths merge_paths empty_plan with
  | (Err error, _) => Err error
  | (Ok excluded, plan) => result_bind (prove_narrowing excluded) (λ _, Ok plan)
  end.

End Classify.

(** ** Re-observation before a mutation ([pull_apply/apply.rs]) *)

(** [expected] against what is on disk now. *)
Definition preimage_matches (ctx : EngineContext) (path : WorkspacePath)
    (expected : PreimagePayload) (observed : option Observed) : Result bool PullError :=
  match pp_present expected, observed with
  | false, None => Ok true
  | false, Some _ => Ok false
  | true, None => Ok false
  | true, Some observed =>
      if bool_decide (Some (ob_kind observed) ≠ pp_kind expected) then Ok false else
      match ob_kind observed with
      | File =>
          if is_some_and (λ mode, negb (ob_mode observed =? mode)) (pp_mode expected)
          then Ok false else
          result_bind (read_local_content ctx path (expected_file observed)) (λ read,
          match read with
          | Unverifiable => Ok false
          | LocalBytes content =>
              match pp_key_epoch expected with
              | Some key_epoch =>
                  Ok (bool_decide (content_id_at (ctx_crypto ctx) key_epoch content
                                   = pp_content_id expected))
              | None =>
                  result_map (λ content_id, bool_decide (Some content_id = pp_content_id expected))
                    (write_content_id ctx content)
              end
          end)
      | Symlink => Ok (bool_decide (ob_symlink_target observed = pp_symlink_target expected))
      | Directory => Ok (is_none_or (λ mode, ob_mode observed =? mode) (pp_mode expected))
      end
  end.

End Deciding.

(** [observe_syncable] of [pull_apply.rs] *)
Definition observe_syncable (ctx : EngineContext) (path : WorkspacePath)
    : Result (option Observed) PullError :=
  match observe_classified (ctx_os ctx) path with
  | ObPresent observed => Ok (Some observed)
  | ObAbsent => Ok None
  | ObUnsyncable reason => Err (path_refused path reason (ctx_now ctx))
  end.
