(* ===== verification/MergePlans.v ===== *)
(** * How a merge plan is put together

    The loop of [classify] touches one path at a time.  This file proves that its
    result is the sum of what each path contributes on its own, that a
    contribution mentions no other path, and that no single path can make the
    classification fail. *)

From S2P Require Import Prelude.
From S2P Require Import Paths.
From S2P Require Import ManifestTypes.
From S2P Require Import FsGuard.
From S2P Require Import MergeMatrix.
Open Scope Z_scope.

(** ** Sums of plans *)

Definition plan_app (p q : MergePlan) : MergePlan :=
  {| mp_fs_ops := mp_fs_ops p ++ mp_fs_ops q;
     mp_ancestor_upserts := mp_ancestor_upserts q ∪ mp_ancestor_upserts p;
     mp_ancestor_removals := mp_ancestor_removals q ∪ mp_ancestor_removals p;
     mp_push_again := mp_push_again q ∪ mp_push_again p;
     mp_unsyncable := mp_unsyncable q ∪ mp_unsyncable p |}.

Definition plan_sum (plans : list MergePlan) : MergePlan := foldr plan_app empty_plan plans.

Lemma plan_app_empty_l p : plan_app empty_plan p = p.
Proof. destruct p. unfold plan_app. cbn. f_equal; by rewrite ?(right_id_L ∅ (∪)). Qed.

Lemma plan_app_empty_r p : plan_app p empty_plan = p.
Proof. destruct p. unfold plan_app. cbn. f_equal; by rewrite ?app_nil_r, ?(left_id_L ∅ (∪)). Qed.

Lemma plan_app_assoc p q r : plan_app p (plan_app q r) = plan_app (plan_app p q) r.
Proof. unfold plan_app. cbn. f_equal; by rewrite (assoc_L _). Qed.

(** A plan that says something about [path] only, and at most one operation. *)
Definition only_at (path : WorkspacePath) (p : MergePlan) : Prop :=
  (mp_fs_ops p = [] ∨ ∃ op, mp_fs_ops p = [op] ∧ op_path op = path) ∧
  (∀ q, q ≠ path →
     (mp_ancestor_upserts p !! q = None) ∧ (q ∉ mp_ancestor_removals p) ∧
     (q ∉ mp_push_again p) ∧ (mp_unsyncable p !! q = None)).

(** Running [m] on any plan adds [c] to it. *)
Definition contributes {A} (m : PM A) (a : A) (c : MergePlan) : Prop :=
  ∀ p, m p = (Ok a, plan_app p c).

Lemma contributes_ret {A} (a : A) : contributes (mret a) a empty_plan.
Proof. intros p. by rewrite plan_app_empty_r. Qed.

Lemma contributes_bind {A B} (m : PM A) (f : A → PM B) a b c d :
  contributes m a c → contributes (f a) b d → contributes (m ≫= f) b (plan_app c d).
Proof.
  intros Hm Hf p. unfold mbind, M_bind, m_bind. by rewrite Hm, Hf, plan_app_assoc.
Qed.

Lemma contributes_eq {A} (m : PM A) a c : contributes m a c → m empty_plan = (Ok a, c).
Proof. intros H. by rewrite H, plan_app_empty_l. Qed.

Lemma contributes_op path kind expected :
  contributes (plan_op path kind expected) tt (state_of (plan_op path kind expected) empty_plan).
Proof.
  intros p. unfold plan_op, modify, state_of, plan_app. cbn. f_equal. f_equal;
    by rewrite ?(left_id_L ∅ (∪)).
Qed.

Lemma contributes_adopt path record :
  contributes (plan_adopt path record) tt (state_of (plan_adopt path record) empty_plan).
Proof.
  intros p. unfold plan_adopt, modify, state_of, plan_app. cbn. f_equal. f_equal;
    rewrite ?(left_id_L ∅ (∪)), ?app_nil_r; try done.
  by rewrite insert_union_singleton_l, insert_empty.
Qed.

Lemma contributes_remove path :
  contributes (plan_remove path) tt (state_of (plan_remove path) empty_plan).
Proof.
  intros p. unfold plan_remove, modify, state_of, plan_app. cbn. f_equal. f_equal;
    rewrite ?(left_id_L ∅ (∪)), ?(right_id_L ∅ (∪)), ?app_nil_r; done.
Qed.

Lemma contributes_push path :
  contributes (plan_push_again path) tt (state_of (plan_push_again path) empty_plan).
Proof.
  intros p. unfold plan_push_again, modify, state_of, plan_app. cbn. f_equal. f_equal;
    rewrite ?(left_id_L ∅ (∪)), ?(right_id_L ∅ (∪)), ?app_nil_r; done.
Qed.

Lemma contributes_unsyncable path record :
  contributes (plan_unsyncable path record) tt (state_of (plan_unsyncable path record) empty_plan).
Proof.
  intros p. unfold plan_unsyncable, modify, state_of, plan_app. cbn. f_equal. f_equal;
    rewrite ?(left_id_L ∅ (∪)), ?app_nil_r; try done.
  by rewrite insert_union_singleton_l, insert_empty.
Qed.

#[export] Hint Resolve contributes_ret contributes_op contributes_adopt contributes_remove
  contributes_push contributes_unsyncable : bowline.

(** ** The matrix contributes one path *)

(** What [classify_one] adds. *)
Definition row (ctx : EngineContext) (path : WorkspacePath) (local : LocalDelta)
    (remote : RemoteDelta) (force_aside : bool) : MergePlan :=
  state_of (classify_one ctx path local remote force_aside) empty_plan.

Ltac contribute :=
  repeat first
    [ solve [eauto with bowline nocore]
    | eapply contributes_bind
    | progress cbn beta ].

Lemma contributes_state {A} (m : PM A) a c : contributes m a c → contributes m a (state_of m empty_plan).
Proof. intros H. unfold state_of. by rewrite (contributes_eq _ _ _ H). Qed.

Lemma classify_one_contributes ctx path local remote force :
  contributes (classify_one ctx path local remote force) tt (row ctx path local remote force).
Proof.
  cut (∃ c, contributes (classify_one ctx path local remote force) tt c).
  { intros [c Hc]. by eapply contributes_state. }
  unfold classify_one. destruct (escapes _ _ _); [eexists; contribute|].
  destruct local, remote; repeat case_match; eexists; contribute.
Qed.

Lemma only_at_empty path : only_at path empty_plan.
Proof. split; [by left|]. intros q _. cbn. split_and!; set_solver. Qed.

Ltac at_path :=
  lazymatch goal with
  | |- only_at ?path ?p =>
      split; [first [by left|right; eexists; split; reflexivity]|];
      intros ??; cbn; rewrite ?lookup_insert_ne, ?lookup_empty by done;
      split_and!; set_solver
  end.

Lemma row_only_at ctx path local remote force : only_at path (row ctx path local remote force).
Proof.
  unfold row, state_of, classify_one. destruct (escapes _ _ _); [at_path|].
  destruct local, remote; unfold_M; cbn; repeat case_match; cbn; first [apply only_at_empty|at_path].
Qed.

(** ** Reading local content never fails the cycle *)

Definition crypto_ok (c : WorkspaceCrypto) : Prop := is_Some (cr_keys c !! cr_write_epoch c).

Lemma crypto_new_ok key epoch : crypto_ok (crypto_new key epoch).
Proof. exists key. apply lookup_singleton_eq. Qed.

Lemma with_key_epoch_ok epoch key c : crypto_ok c → crypto_ok (with_key_epoch epoch key c).
Proof.
  intros [k Hk]. unfold crypto_ok, with_key_epoch. cbn.
  destruct (decide (epoch = cr_write_epoch c)) as [->|Hne];
    [by rewrite lookup_insert_eq|rewrite lookup_insert_ne by done; by exists k].
Qed.

Lemma read_file_bounded_errors os path max expected e :
  read_file_bounded os path max expected = Err e →
  match e with StreamSealUnsupported _ _ | PushIo _ => True | _ => False end.
Proof.
  unfold read_file_bounded, visit_file_bounded.
  destruct (prepare_parent_chain _ _ _); [|done].
  destruct (open_nofollow os path) as [h|]; [|destruct (errno_diverges _); [done|by intros [= <-]]].
  destruct (h_metadata h) as [m|]; [|by intros [= <-]].
  destruct (negb _); [done|]. destruct (max <? md_len m); [by intros [= <-]|].
  destruct (h_content h); [|by intros [= <-]]. destruct (max <? str_len _); [by intros [= <-]|]. cbn.
  destruct (h_final_metadata h); [|by intros [= <-]]. by destruct (negb _).
Qed.

Lemma read_local_content_ok ctx path expected :
  ∃ read, read_local_content ctx path expected = Ok read.
Proof.
  unfold read_local_content.
  destruct (read_file_bounded _ _ _ _) as [[content|]|e] eqn:He; [by eexists..|].
  apply read_file_bounded_errors in He. destruct e; try done; by eexists.
Qed.

Section Total.
Context `{ContentHash}.

Lemma write_content_id_ok ctx content : crypto_ok (ctx_crypto ctx) →
  ∃ key, cr_keys (ctx_crypto ctx) !! cr_write_epoch (ctx_crypto ctx) = Some key ∧
    write_content_id ctx content = Ok (content_id_of key content).
Proof.
  intros [key Hk]. exists key. split; [done|].
  unfold write_content_id, crypto_content_id, content_id_at. by rewrite Hk.
Qed.

Lemma maybe_hash_ok ctx path observed : crypto_ok (ctx_crypto ctx) →
  ∃ id, maybe_hash ctx path observed = Ok id.
Proof.
  intros Hc. unfold maybe_hash. destruct (bool_decide _); [by eexists|].
  destruct (read_local_content_ok ctx path (expected_file observed)) as [[content|] ->]; [|by eexists].
  cbn. destruct (write_content_id_ok ctx content Hc) as (k & _ & ->). by eexists.
Qed.

Lemma local_delta_ok ctx path ancestor verify : crypto_ok (ctx_crypto ctx) →
  ∃ local, local_delta ctx path ancestor verify = Ok local.
Proof.
  intros Hc. unfold local_delta, local_vs_record.
  destruct (observe_classified _ _) as [|o|]; destruct ancestor as [record|]; try (by eexists);
    [|destruct (maybe_hash_ok ctx path o Hc) as [? ->]; by eexists].
  destruct (bool_decide _); [destruct (maybe_hash_ok ctx path o Hc) as [? ->]; by eexists|].
  destruct (stat_unchanged _ _ _); [by eexists|].
  destruct (ob_kind o); [|by eexists|destruct (_ && _); by eexists].
  destruct (read_local_content_ok ctx path (expected_file o)) as [[content|] ->]; [|by eexists].
  cbn. destruct (content_matches _ _ _ _); [destruct (_ =? _); by eexists|].
  destruct (write_content_id_ok ctx content Hc) as (k & _ & ->). by eexists.
Qed.

(** ** One path, then all of them *)

Section Paths.
Context (ctx : EngineContext) (ancestor : gmap WorkspacePath FileRecord).
Context (remote : gmap WorkspacePath ManifestEntry).
Context (collisions : list PathCollision) (scope : PullScope).

Local Abbreviation delta path := (remote_delta (remote !! path) (ancestor !! path)).

(** The path [path] is taken to the matrix with the local delta [local]. *)
Definition consulted (path : WorkspacePath) (local : LocalDelta) : Prop :=
  is_git_lock_path path = false ∧ observes scope path (delta path) = true ∧
  local_delta ctx path (ancestor !! path) (requires_verified_local_content (delta path)) = Ok local.

(** A path whose creation a crash left pending: pushed again, not merged. *)
Definition pending_absent (path : WorkspacePath) (local : LocalDelta) : bool :=
  reconciles_pending scope path && is_none (ancestor !! path)
  && (match local with LAbsent => true | _ => false end) && is_some (remote !! path).

Definition contribution (path : WorkspacePath) : MergePlan :=
  state_of (classify_path ctx ancestor remote collisions scope path) empty_plan.

Inductive contribution_cases (path : WorkspacePath) : MergePlan → Prop :=
| contribution_skipped :
    (is_git_lock_path path = true ∨ observes scope path (delta path) = false) →
    contribution_cases path empty_plan
| contribution_pending local :
    consulted path local → pending_absent path local = true →
    contribution_cases path (state_of (plan_push_again path) empty_plan)
| contribution_row local force :
    consulted path local → pending_absent path local = false →
    force = bool_decide (path ∈ collision_set collisions) →
    contribution_cases path (row ctx path local (delta path) force).

Lemma classify_path_contributes path : crypto_ok (ctx_crypto ctx) →
  (∃ ex, contributes (classify_path ctx ancestor remote collisions scope path) ex
           (contribution path)) ∧
  contribution_cases path (contribution path).
Proof.
  intros Hc.
  cut (∃ ex c, contributes (classify_path ctx ancestor remote collisions scope path) ex c ∧
               contribution_cases path c).
  { intros (ex & c & Hm & Hcases). unfold contribution, state_of.
    rewrite (contributes_eq _ _ _ Hm). cbn. eauto. }
  unfold classify_path. destruct (is_git_lock_path path) eqn:Hlock.
  { eexists _, _. split; [apply contributes_ret|]. apply contribution_skipped. by left. }
  destruct (observes _ _ _) eqn:Hobs; cbn [negb].
  2:{ eexists _, _. split; [apply contributes_ret|]. apply contribution_skipped. by right. }
  destruct (local_delta_ok ctx path (ancestor !! path)
              (requires_verified_local_content (delta path)) Hc) as [local Hl].
  rewrite Hl. fold (pending_absent path local).
  assert (consulted path local) as Hcons by done.
  assert (∀ (f : LocalDelta → PM (option WorkspacePath)) ex c,
    contributes (f local) ex c → contributes (of_result (Ok local) ≫= f) ex c) as Hbind.
  { intros f ex c Hf p. apply Hf. }
  destruct (pending_absent path local) eqn:Hp; eexists _, _; (split; [apply Hbind|]).
  - fold (pending_absent path local). rewrite Hp.
    eapply contributes_bind; [apply contributes_push|apply contributes_ret].
  - rewrite plan_app_empty_r. by eapply contribution_pending.
  - fold (pending_absent path local). rewrite Hp.
    eapply contributes_bind; [apply classify_one_contributes|apply contributes_ret].
  - rewrite plan_app_empty_r. by eapply contribution_row.
Qed.

Lemma contribution_only_at path : crypto_ok (ctx_crypto ctx) → only_at path (contribution path).
Proof.
  intros Hc. destruct (classify_path_contributes path Hc) as [_ []];
    [apply only_at_empty|at_path|apply row_only_at].
Qed.

Lemma classify_paths_sum paths : crypto_ok (ctx_crypto ctx) →
  ∃ excluded, contributes (classify_paths ctx ancestor remote collisions scope paths) excluded
                (plan_sum (contribution <$> paths)).
Proof.
  intros Hc. induction paths as [|path paths [rest IH]]; [eexists; apply contributes_ret|].
  destruct (classify_path_contributes path Hc) as [[ex Hex] _].
  eexists. cbn [classify_paths].
  change (plan_sum (contribution <$> path :: paths))
    with (plan_app (contribution path) (plan_sum (contribution <$> paths))).
  eapply contributes_bind; [exact Hex|].
  rewrite <-(plan_app_empty_r (plan_sum (contribution <$> paths))).
  eapply contributes_bind; [exact IH|apply contributes_ret].
Qed.

End Paths.
End Total.
