(* ===== verification/MergeDisk.v ===== *)
(** * Merge plans and the disk

    Two things the merge theorems need: a plan read path by path, and what a local
    delta says about the disk it was derived from. *)

From S2P Require Import Prelude.
From S2P Require Import Paths.
From S2P Require Import ManifestTypes.
From S2P Require Import FsGuard.
From S2P Require Import MergeMatrix.
From S2P Require Import MergePlans.
Open Scope Z_scope.

(** ** Plans, path by path *)

Definition ops_at (q : WorkspacePath) (p : MergePlan) : list FsOp :=
  filter (λ op, op_path op = q) (mp_fs_ops p).

(** [p] says about [q] what [r] says. *)
Definition agree_at (q : WorkspacePath) (p r : MergePlan) : Prop :=
  ops_at q p = mp_fs_ops r ∧
  mp_ancestor_upserts p !! q = mp_ancestor_upserts r !! q ∧
  (q ∈ mp_ancestor_removals p ↔ q ∈ mp_ancestor_removals r) ∧
  (q ∈ mp_push_again p ↔ q ∈ mp_push_again r) ∧
  mp_unsyncable p !! q = mp_unsyncable r !! q.

Lemma only_at_ops_eq q r : only_at q r → ops_at q r = mp_fs_ops r.
Proof.
  intros [[Hn|(op & Hn & <-)] _]; unfold ops_at; rewrite Hn; [done|].
  by rewrite filter_cons_True.
Qed.

Lemma only_at_ops_ne q q' r : only_at q' r → q ≠ q' → ops_at q r = [].
Proof.
  intros [[Hn|(op & Hn & <-)] _] Hne; unfold ops_at; rewrite Hn; [done|].
  by rewrite filter_cons_False.
Qed.

Lemma plan_sum_cons (f : WorkspacePath → MergePlan) q paths :
  plan_sum (f <$> q :: paths) = plan_app (f q) (plan_sum (f <$> paths)).
Proof. done. Qed.

(** Two plans say the same about [q]. *)
Definition same_at (q : WorkspacePath) (p r : MergePlan) : Prop :=
  ops_at q p = ops_at q r ∧
  mp_ancestor_upserts p !! q = mp_ancestor_upserts r !! q ∧
  (q ∈ mp_ancestor_removals p ↔ q ∈ mp_ancestor_removals r) ∧
  (q ∈ mp_push_again p ↔ q ∈ mp_push_again r) ∧
  mp_unsyncable p !! q = mp_unsyncable r !! q.

Lemma agree_same q p p' r : agree_at q p r → agree_at q p' r → same_at q p p'.
Proof.
  intros (Ho & Hu & Hr & Hp & Hs) (Ho' & Hu' & Hr' & Hp' & Hs').
  split_and!; [congruence..|by rewrite Hr|by rewrite Hp|congruence].
Qed.


Lemma plan_sum_silent (f : WorkspacePath → MergePlan) paths q :
  (∀ q, only_at q (f q)) → q ∉ paths → agree_at q (plan_sum (f <$> paths)) empty_plan.
Proof.
  intros Hf. induction paths as [|q' paths IH]; intros Hq; [done|].
  apply not_elem_of_cons in Hq as [Hne Hq]. specialize (IH Hq) as (H1 & H2 & H3 & H4 & H5).
  destruct (proj2 (Hf q') q Hne) as (Hu & Hr & Hp & Hs).
  pose proof (only_at_ops_ne q q' (f q') (Hf q') Hne) as Ho.
  rewrite plan_sum_cons. set (s := plan_sum _) in *. clearbody s.
  unfold agree_at, ops_at in *. cbn in *. split_and!.
  - by rewrite filter_app, Ho, H1.
  - rewrite lookup_union_None. split; [done|]. done.
  - set_solver.
  - set_solver.
  - by rewrite lookup_union_None.
Qed.

Lemma plan_sum_at (f : WorkspacePath → MergePlan) paths q :
  (∀ q, only_at q (f q)) → NoDup paths → q ∈ paths →
  agree_at q (plan_sum (f <$> paths)) (f q).
Proof.
  intros Hf. induction paths as [|q' paths IH]; intros Hnd Hq; [by apply not_elem_of_nil in Hq|].
  apply NoDup_cons in Hnd as [Hnin Hnd]. apply elem_of_cons in Hq as [<-|Hq].
  - destruct (plan_sum_silent f paths q Hf Hnin) as (H1 & H2 & H3 & H4 & H5).
    pose proof (only_at_ops_eq q (f q) (Hf q)) as Ho.
    rewrite plan_sum_cons. set (s := plan_sum _) in *. clearbody s.
    unfold agree_at, ops_at in *. cbn in *. split_and!.
    + by rewrite filter_app, Ho, H1, app_nil_r.
    + rewrite lookup_union, H2, lookup_empty. by destruct (mp_ancestor_upserts (f q) !! q).
    + set_solver.
    + set_solver.
    + rewrite lookup_union, H5, lookup_empty. by destruct (mp_unsyncable (f q) !! q).
  - assert (q ≠ q') as Hne by (by intros ->).
    destruct (IH Hnd Hq) as (H1 & H2 & H3 & H4 & H5).
    destruct (proj2 (Hf q') q Hne) as (Hu & Hr & Hp & Hs).
    pose proof (only_at_ops_ne q q' (f q') (Hf q') Hne) as Ho.
    rewrite plan_sum_cons. set (s := plan_sum _) in *. clearbody s.
    unfold agree_at, ops_at in *. cbn in *. split_and!.
    + by rewrite filter_app, Ho, H1.
    + rewrite lookup_union, H2, Hu. by destruct (mp_ancestor_upserts (f q) !! q).
    + set_solver.
    + set_solver.
    + rewrite lookup_union, H5, Hs. by destruct (mp_unsyncable (f q) !! q).
Qed.

(** ** The disk *)

Section Merge.
Context `{ContentHash}.

(** The disk holds, at [path], exactly what the ancestor row [record] says. *)
Definition holds_record (ctx : EngineContext) (path : WorkspacePath) (record : FileRecord) : Prop :=
  ∃ o, observe_classified (ctx_os ctx) path = ObPresent o ∧
    ob_kind o = fr_kind record ∧ ob_mode o = fr_mode record ∧
    match fr_kind record with
    | File => ∃ content epoch id,
        read_local_content ctx path (expected_file o) = Ok (LocalBytes content) ∧
        fr_key_epoch record = Some epoch ∧ fr_content_id record = Some id ∧
        content_id_at (ctx_crypto ctx) epoch content = Some id
    | Symlink => ob_symlink_target o = fr_symlink_target record
    | Directory => True
    end.

(** The disk holds, at [path], the content of [entry], whatever its mode. *)
Definition holds_entry (ctx : EngineContext) (path : WorkspacePath) (entry : ManifestEntry) : Prop :=
  ∃ o, observe_classified (ctx_os ctx) path = ObPresent o ∧ ob_kind o = entry_kind entry ∧
    match entry with
    | FileEntry _ _ id _ _ => ∃ content epoch,
        read_local_content ctx path (expected_file o) = Ok (LocalBytes content) ∧
        content_id_at (ctx_crypto ctx) epoch content = Some id
    | SymlinkEntry _ target => ob_symlink_target o = Some target
    | DirectoryEntry _ => True
    end.

(** The re-observation before the mutation accepts [op] on this disk. *)
Definition guard_accepts (ctx : EngineContext) (op : FsOp) : Prop :=
  ∃ o, observe_syncable ctx (op_path op) = Ok o ∧
    preimage_matches ctx (op_path op) (op_expected op) o = Ok true.

(** ** Local deltas describe the disk *)

Lemma content_matches_spec ctx epoch content expected :
  content_matches ctx epoch content expected = true →
  ∃ e id, epoch = Some e ∧ expected = Some id ∧ content_id_at (ctx_crypto ctx) e content = Some id.
Proof.
  unfold content_matches. destruct epoch as [e|]; [|done]. cbn.
  destruct (content_id_at _ _ _) as [id|] eqn:Hid; [|done]. intros <-%bool_decide_eq_true_1. by exists e, id.
Qed.

Lemma write_content_id_at ctx content id : write_content_id ctx content = Ok id →
  content_id_at (ctx_crypto ctx) (cr_write_epoch (ctx_crypto ctx)) content = Some id.
Proof.
  unfold write_content_id, crypto_content_id. destruct (content_id_at _ _ _); [|done].
  by intros [= ->].
Qed.

(** What [local_delta] says, by the ancestor and the verdict. *)
Definition delta_facts (ctx : EngineContext) (path : WorkspacePath) (ancestor : option FileRecord)
    (verify : bool) (local : LocalDelta) : Prop :=
  match local with
  | LAbsent => ancestor = None ∧ observe_classified (ctx_os ctx) path = ObAbsent
  | LDeleted => is_Some ancestor ∧ observe_classified (ctx_os ctx) path = ObAbsent
  | LUnreadable => ∃ reason, observe_classified (ctx_os ctx) path = ObUnsyncable reason
  | LUnchanged record => ancestor = Some record ∧ (verify = true → holds_record ctx path record)
  | LUntracked o cid =>
      ancestor = None ∧ observe_classified (ctx_os ctx) path = ObPresent o ∧
      maybe_hash ctx path o = Ok cid
  | LChanged o cid =>
      is_Some ancestor ∧ observe_classified (ctx_os ctx) path = ObPresent o ∧
      (maybe_hash ctx path o = Ok cid ∨ (cid = None ∧ ob_kind o ≠ Directory))
  | LModeChanged o =>
      ∃ record, ancestor = Some record ∧ observe_classified (ctx_os ctx) path = ObPresent o ∧
        ob_kind o = fr_kind record ∧ ob_kind o ≠ Symlink ∧
        (ob_kind o = File → ∃ content epoch id,
           read_local_content ctx path (expected_file o) = Ok (LocalBytes content) ∧
           fr_key_epoch record = Some epoch ∧ fr_content_id record = Some id ∧
           content_id_at (ctx_crypto ctx) epoch content = Some id)
  end.

Lemma stat_unchanged_holds ctx path o record :
  observe_classified (ctx_os ctx) path = ObPresent o → ob_kind o = fr_kind record →
  stat_unchanged o record true = true → holds_record ctx path record.
Proof.
  intros Ho Hk Hs. exists o. unfold stat_unchanged in Hs. rewrite Hk in Hs.
  destruct (fr_kind record); [done|..]; bool_to_prop; done.
Qed.

Lemma local_delta_facts ctx path ancestor verify local :
  local_delta ctx path ancestor verify = Ok local → delta_facts ctx path ancestor verify local.
Proof.
  unfold local_delta. destruct (observe_classified _ _) as [|o|] eqn:Ho.
  - destruct ancestor; intros [= <-]; cbn; eauto.
  - destruct ancestor as [record|]; unfold local_vs_record.
    2:{ destruct (maybe_hash ctx path o) eqn:Hh; intros [= <-]. done. }
    destruct (bool_decide_reflect (ob_kind o ≠ fr_kind record)) as [|Hk%dec_stable].
    { destruct (maybe_hash ctx path o) eqn:Hh; intros [= <-]. cbn. eauto. }
    destruct (stat_unchanged o record verify) eqn:Hs.
    { intros [= <-]. cbn. split; [done|]. intros ->. by eapply stat_unchanged_holds. }
    destruct (ob_kind o) eqn:Hko.
    + destruct (read_local_content _ _ _) as [[content|]|] eqn:Hread; cbn; [|intros [= <-]|done].
      2:{ cbn. split_and!; [eauto|done|]. right. by rewrite Hko. }
      destruct (content_matches _ _ _ _) eqn:Hc.
      * apply content_matches_spec in Hc as (e & id & He & Hid & Hat).
        destruct (Z.eqb_spec (ob_mode o) (fr_mode record)); intros [= <-]; cbn.
        -- split; [done|]. intros _. exists o. rewrite <-Hk. split_and!; [done..|]. by exists content, e, id.
        -- exists record. split_and!; [done|done|congruence|congruence|]. intros _. by exists content, e, id.
      * destruct (write_content_id ctx content) as [id|] eqn:Hw; [|done]. intros [= <-]. cbn.
        split_and!; [eauto|done|]. left. unfold maybe_hash.
        rewrite bool_decide_eq_false_2 by (intros Hn; apply Hn; congruence). rewrite Hread. cbn. by rewrite Hw.
    + intros [= <-]. cbn. exists record. split_and!; [done|done|congruence|congruence|congruence].
    + destruct (_ && _) eqn:Hb; intros [= <-]; cbn.
      * split; [done|]. intros _. exists o. rewrite <-Hk. bool_to_prop. done.
      * split_and!; [eauto|done|]. right. by rewrite Hko.
  - destruct ancestor; intros [= <-]; cbn; eauto.
Qed.

Lemma record_guard ctx path record kind : holds_record ctx path record →
  guard_accepts ctx {| op_path := path; op_kind := kind;
                       op_expected := preimage_from_record record |}.
Proof.
  intros (o & Ho & Hk & Hm & Hc). exists (Some o). unfold observe_syncable. cbn. rewrite Ho.
  split; [done|]. rewrite bool_decide_eq_false_2 by (intros Hn; apply Hn; congruence). rewrite Hk.
  destruct (fr_kind record).
  - rewrite Hm, Z.eqb_refl. cbn. destruct Hc as (content & e & id & Hr & He & Hid & Hat).
    rewrite Hr. cbn. rewrite He, Hat, Hid. by rewrite bool_decide_eq_true_2.
  - by rewrite Hm, Z.eqb_refl.
  - by rewrite bool_decide_eq_true_2.
Qed.

Lemma observed_holds ctx path o cid e :
  observe_classified (ctx_os ctx) path = ObPresent o →
  maybe_hash ctx path o = Ok cid ∨ (cid = None ∧ ob_kind o ≠ Directory) →
  entry_matches_observed e o cid = true →
  holds_entry ctx path e ∧
  ∀ kind, guard_accepts ctx {| op_path := path; op_kind := kind;
                               op_expected := preimage_from_observed o cid |}.
Proof.
  intros Ho Hcid Hm. unfold guard_accepts, observe_syncable. cbn. rewrite Ho.
  destruct e; cbn in Hm; bool_to_prop; subst.
  - match goal with Hf : ob_kind o = File |- _ => rename Hf into Hk end.
    destruct Hcid as [Hh|[? _]]; [|done]. unfold maybe_hash in Hh.
    rewrite bool_decide_eq_false_2 in Hh by (intros Hn; apply Hn; congruence).
    destruct (read_local_content _ _ _) as [[content|]|] eqn:Hr; cbn in Hh; [|done..].
    destruct (write_content_id ctx content) as [id|] eqn:Hw; [|done]. injection Hh as ->.
    split.
    + exists o. split_and!; [done..|]. exists content, (cr_write_epoch (ctx_crypto ctx)).
      split; [done|]. by apply write_content_id_at.
    + intros _. exists (Some o). split; [done|].
      rewrite bool_decide_eq_false_2, Hk, Z.eqb_refl by (intros Hn; apply Hn; congruence). cbn.
      rewrite Hr. cbn. rewrite Hw. cbn. by rewrite bool_decide_eq_true_2.
  - match goal with Hf : ob_kind o = Directory |- _ => rename Hf into Hk end. split.
    + exists o. done.
    + intros _. exists (Some o). split; [done|].
      by rewrite bool_decide_eq_false_2, Hk, Z.eqb_refl by (intros Hn; apply Hn; congruence).
  - match goal with Hf : ob_kind o = Symlink |- _ => rename Hf into Hk end. split.
    + exists o. done.
    + intros _. exists (Some o). split; [done|].
      rewrite bool_decide_eq_false_2, Hk by (intros Hn; apply Hn; congruence). by rewrite bool_decide_eq_true_2.
Qed.

Lemma record_holds_entry ctx path record e :
  holds_record ctx path record → entry_matches_record e record = true → holds_entry ctx path e.
Proof.
  intros (o & Ho & Hk & _ & Hc) Hm. exists o. split; [done|].
  destruct e; cbn in Hm; rewrite ?andb_true_iff, ?bool_decide_eq_true in Hm.
  - destruct Hm as [Hf Hid]. rewrite Hf in Hc, Hk. destruct Hc as (content & epoch & id' & ? & ? & ? & ?).
    split; [done|]. exists content, epoch. split; [done|]. congruence.
  - rewrite Hm in Hk. done.
  - destruct Hm as [Hf Ht]. rewrite Hf in Hc, Hk. cbn. split; congruence.
Qed.
End Merge.
