(* ===== verification/MergeTheorems.v ===== *)
(** * What the merge promises

    Properties of [MergeMatrix.classify], stated of the disk, the ancestor and the
    remote manifest: what is overwritten is verified first, no local change is
    forgotten, frozen paths stay frozen, narrowing the observed set loses nothing,
    and no single path fails the cycle. *)

From S2P Require Import Prelude.
From S2P Require Import Paths.
From S2P Require Import ManifestTypes.
From S2P Require Import FsGuard.
From S2P Require Import MergeMatrix.
From S2P Require Import MergePlans.
From S2P Require Import MergeDisk.
Open Scope Z_scope.

Section Classified.
Context `{ContentHash}.
Context (ctx : EngineContext) (ancestor : gmap WorkspacePath FileRecord).
Context (remote : gmap WorkspacePath ManifestEntry).
Context (collisions : list PathCollision).

Local Abbreviation delta path := (remote_delta (remote !! path) (ancestor !! path)).

(** What the plan may do at a path, by the state of the disk. *)
Definition op_safe (plan : MergePlan) (op : FsOp) : Prop :=
  let path := op_path op in
  match op_kind op with
  | Install entry =>
      remote !! path = Some entry ∧ guard_accepts ctx op ∧
      ((ancestor !! path = None ∧ observe_classified (ctx_os ctx) path = ObAbsent) ∨
       ∃ record, ancestor !! path = Some record ∧ holds_record ctx path record)
  | DeleteOp =>
      remote !! path = None ∧ guard_accepts ctx op ∧
      ∃ record, ancestor !! path = Some record ∧ holds_record ctx path record
  | ModeChange entry =>
      remote !! path = Some entry ∧ guard_accepts ctx op ∧ holds_entry ctx path entry
  | ConflictAside entry => remote !! path = Some entry ∧ path ∈ mp_push_again plan
  end.

(** The user changed this path since the ancestor. *)
Definition diverged (local : LocalDelta) : bool :=
  match local with
  | LUntracked _ _ | LChanged _ _ | LModeChanged _ | LDeleted => true
  | LAbsent | LUnreadable | LUnchanged _ => false
  end.

(** How a plan answers for a local change. *)
Definition carried (plan : MergePlan) (path : WorkspacePath) (local : LocalDelta) : Prop :=
  path ∈ mp_push_again plan ∨
  (local = LDeleted ∧ remote !! path = None ∧ path ∈ mp_ancestor_removals plan) ∨
  ∃ entry, remote !! path = Some entry ∧ holds_entry ctx path entry ∧
    ((∃ record, mp_ancestor_upserts plan !! path = Some record ∧
                entry_matches_record entry record = true) ∨
     (∃ op, ops_at path plan = [op] ∧ op_kind op = ModeChange entry)).

(** Nothing happens to [path]. *)
Definition untouched (plan : MergePlan) (path : WorkspacePath) : Prop :=
  ops_at path plan = [] ∧ mp_ancestor_upserts plan !! path = None ∧
  path ∉ mp_ancestor_removals plan ∧ path ∉ mp_push_again plan.

(** ** From the plan to the path *)

Lemma merge_paths_nodup : NoDup (merge_paths ancestor remote).
Proof. unfold merge_paths. rewrite merge_sort_Permutation. apply NoDup_elements. Qed.

Lemma elem_merge_paths q : q ∈ merge_paths ancestor remote ↔ q ∈ dom ancestor ∪ dom remote.
Proof. unfold merge_paths. rewrite merge_sort_Permutation. apply elem_of_elements. Qed.

Lemma classify_sum debug scope plan : crypto_ok (ctx_crypto ctx) →
  classify ctx debug ancestor remote collisions scope = Ok plan →
  plan = plan_sum (contribution ctx ancestor remote collisions scope
                     <$> merge_paths ancestor remote).
Proof.
  intros Hc. unfold classify.
  destruct (classify_paths_sum ctx ancestor remote collisions scope
              (merge_paths ancestor remote) Hc) as [ex Hex].
  rewrite (contributes_eq _ _ _ Hex). destruct (prove_narrowing _ _ _ _ _) as [[]|]; [|done].
  by intros [= <-].
Qed.

Lemma classify_release_total scope : crypto_ok (ctx_crypto ctx) →
  classify ctx false ancestor remote collisions scope =
    Ok (plan_sum (contribution ctx ancestor remote collisions scope
                    <$> merge_paths ancestor remote)).
Proof.
  intros Hc. unfold classify.
  destruct (classify_paths_sum ctx ancestor remote collisions scope
              (merge_paths ancestor remote) Hc) as [ex Hex].
  by rewrite (contributes_eq _ _ _ Hex).
Qed.

Lemma classify_at debug scope plan q : crypto_ok (ctx_crypto ctx) →
  classify ctx debug ancestor remote collisions scope = Ok plan →
  q ∈ dom ancestor ∪ dom remote →
  agree_at q plan (contribution ctx ancestor remote collisions scope q) ∧
  contribution_cases ctx ancestor remote collisions scope q
    (contribution ctx ancestor remote collisions scope q).
Proof.
  intros Hc ->%classify_sum Hq; [|done]. split.
  - apply plan_sum_at; [|apply merge_paths_nodup|by apply elem_merge_paths].
    intros q'. by apply contribution_only_at.
  - by apply classify_path_contributes.
Qed.

Lemma classify_op debug scope plan op : crypto_ok (ctx_crypto ctx) →
  classify ctx debug ancestor remote collisions scope = Ok plan → op ∈ mp_fs_ops plan →
  op_path op ∈ dom ancestor ∪ dom remote.
Proof.
  intros Hc ->%classify_sum Hop; [|done]. apply dec_stable. intros Hn.
  rewrite <-elem_merge_paths in Hn.
  destruct (plan_sum_silent (contribution ctx ancestor remote collisions scope)
              (merge_paths ancestor remote) (op_path op)) as (Ho & _); [|done|].
  { intros q. by apply contribution_only_at. }
  apply (not_elem_of_nil op). cbn in Ho. rewrite <-Ho. by apply list_elem_of_filter.
Qed.

(** The coupling the matrix relies on: which remote deltas a local delta can meet. *)
Lemma delta_inv path :
  match delta path with
  | RAbsent => remote !! path = None
  | RCreated entry => remote !! path = Some entry ∧ ancestor !! path = None
  | RUnchanged => ∃ entry record, remote !! path = Some entry ∧ ancestor !! path = Some record
  | RModeChanged entry => remote !! path = Some entry ∧
      ∃ record, ancestor !! path = Some record ∧ entry_matches_record entry record = true
  | RChanged entry => remote !! path = Some entry ∧ is_Some (ancestor !! path)
  end.
Proof.
  unfold remote_delta. destruct (remote !! path) as [e|], (ancestor !! path) as [r|]; try done.
  destruct (entry_matches_record e r) eqn:Hm; [destruct (_ =? _)|]; eauto.
Qed.

Lemma absent_guard path kind : observe_classified (ctx_os ctx) path = ObAbsent →
  guard_accepts ctx {| op_path := path; op_kind := kind; op_expected := preimage_absent |}.
Proof. intros Ho. exists None. unfold observe_syncable. cbn. by rewrite Ho. Qed.

Lemma row_safe path local force op :
  delta_facts ctx path (ancestor !! path) (requires_verified_local_content (delta path)) local →
  op ∈ mp_fs_ops (row ctx path local (delta path) force) →
  op_path op = path ∧ op_safe (row ctx path local (delta path) force) op.
Proof.
  intros Hl Hop. pose proof (delta_inv path) as Hd.
  destruct (row_only_at ctx path local (delta path) force) as [[Hn|(op' & Hn & Hpath)] _];
    rewrite Hn in Hop; [by apply not_elem_of_nil in Hop|].
  apply list_elem_of_singleton in Hop as ->. split; [done|]. revert Hn. clear Hpath.
  destruct (delta path) as [|entry| |entry|entry]; destruct local as [| |o cid|record|o cid|o|];
    unfold row, state_of, classify_one; destruct (escapes _ _ _); unfold_M; cbn in *;
    repeat (case_match; cbn in * ); intros [= <-]; unfold op_safe; cbn; cbn in *;
    try (split; [by destruct Hd|set_solver]).
  - destruct Hl as [Ha Hh]. split_and!; [done|by apply record_guard, Hh|]. exists record. auto.
  - destruct Hl as [Ha Ho]. split_and!; [by destruct Hd|by apply absent_guard|by left].
  - destruct Hl as [Ha Hh], Hd as (? & record' & Ha' & Hm). simplify_eq.
    split_and!; [done|by apply record_guard, Hh|]. eapply record_holds_entry; eauto.
  - destruct Hl as [Ha Hh]. split_and!; [by destruct Hd|by apply record_guard, Hh|]. eauto 10.
  - destruct Hl as (_ & Ho & Hcid). bool_to_prop.
    destruct (observed_holds ctx path o cid entry Ho Hcid) as [? Hg]; [done|].
    split_and!; [by destruct Hd|by apply Hg|done].
Qed.

(** C17: Nothing local is overwritten or deleted unverified.  Every operation of a
    plan acts on a path the remote manifest decides, and: an install lands on an
    absent path, or on one whose bytes, kind and mode are verified to be the
    ancestor's; so does a delete; a mode change touches only content verified to
    be the remote's; and on an unchanged disk the re-observation before the
    mutation accepts each of these.  An aside holds the remote's entry, and its
    path is pushed again. *)
Theorem plan_never_clobbers debug scope plan op :
  crypto_ok (ctx_crypto ctx) →
  classify ctx debug ancestor remote collisions scope = Ok plan → op ∈ mp_fs_ops plan →
  op_safe plan op.
Proof.
  intros Hc Hp Hop. pose proof (classify_op debug scope plan op Hc Hp Hop) as Hq.
  destruct (classify_at debug scope plan _ Hc Hp Hq) as [(Ho & _ & _ & Hpush & _) Hcases].
  assert (op ∈ ops_at (op_path op) plan) as Hin by by apply list_elem_of_filter.
  rewrite Ho in Hin. destruct Hcases as [| |local force (_ & _ & Hl) _ _];
    [by apply not_elem_of_nil in Hin..|].
  apply local_delta_facts in Hl. destruct (row_safe _ _ _ _ Hl Hin) as [_ Hsafe].
  unfold op_safe in *. destruct (op_kind op); [done..|]. by rewrite Hpush.
Qed.

Lemma mode_changed_holds path verify o record entry :
  delta_facts ctx path (Some record) verify (LModeChanged o) →
  entry_matches_record entry record = true → holds_entry ctx path entry.
Proof.
  intros (record' & [= <-] & Ho & Hk & Hns & Hf) Hm. exists o. split; [done|].
  destruct entry; cbn in Hm; rewrite ?andb_true_iff, ?bool_decide_eq_true in Hm.
  - destruct Hm as [Hkf Hid]. destruct Hf as (content & epoch & id & ? & ? & ? & ?); [congruence|].
    split; [cbn; congruence|]. exists content, epoch. split; [done|]. congruence.
  - split; [cbn; congruence|done].
  - destruct Hm as [Hkf _]. congruence.
Qed.

(** The row either pushes the path, adopts a deletion both sides made, or adopts
    or re-modes content the two sides share. *)
Definition row_answers (path : WorkspacePath) (local : LocalDelta) (r : MergePlan) : Prop :=
  path ∈ mp_push_again r ∨
  (local = LDeleted ∧ remote !! path = None ∧ path ∈ mp_ancestor_removals r) ∨
  ∃ entry, remote !! path = Some entry ∧ holds_entry ctx path entry ∧
    ((∃ fp, mp_ancestor_upserts r !! path = Some (record_for_entry entry fp (ctx_now ctx))) ∨
     (∃ op, mp_fs_ops r = [op] ∧ op_kind op = ModeChange entry)).

Lemma row_carried path local force :
  delta_facts ctx path (ancestor !! path) (requires_verified_local_content (delta path)) local →
  escapes (ctx_os ctx) path (delta path) = false → diverged local = true →
  row_answers path local (row ctx path local (delta path) force).
Proof.
  intros Hl Hesc Hdiv. pose proof (delta_inv path) as Hd. unfold row_answers, row, state_of, classify_one.
  rewrite Hesc. clear Hesc.
  destruct (delta path) as [|entry| |entry|entry]; destruct local as [| |o cid|record|o cid|o|];
    try done; unfold_M; cbn in *; repeat (case_match; cbn in * ); bool_to_prop;
    try (left; set_solver).
  (* what is left: adoptions, mode changes and pairs that cannot meet *)
  all: try (destruct Hd as (Hrem & Hanc)); try (by destruct Hl as ([? ?] & _); congruence);
    try (by destruct Hl as (? & ? & _); congruence).
  - right; left. split_and!; [done..|set_solver].
  - right; right. exists entry. split_and!; [done| |left; eexists; apply lookup_insert_eq].
    destruct Hl as (_ & Ho & Hh). eapply (observed_holds ctx path o cid); [done|by left|done].
  - right; right. exists entry. split_and!; [done| |left; eexists; apply lookup_insert_eq].
    destruct Hanc as (record & Hanc & Hm). rewrite Hanc in Hl.
    by eapply (mode_changed_holds path true o record).
  - destruct Hl as (Hl & _), Hanc as [? Hanc]. congruence.
  - right; right. exists entry. split_and!; [done| |left; eexists; apply lookup_insert_eq].
    destruct Hl as (_ & Ho & Hh). by eapply (observed_holds ctx path o cid).
  - right; right. exists entry. split_and!; [done| |right; by eexists].
    destruct Hl as (_ & Ho & Hh). by eapply (observed_holds ctx path o cid).
Qed.

Lemma classify_elsewhere debug scope plan path : crypto_ok (ctx_crypto ctx) →
  classify ctx debug ancestor remote collisions scope = Ok plan →
  path ∉ dom ancestor ∪ dom remote → agree_at path plan empty_plan.
Proof.
  intros Hc ->%classify_sum Hn; [|done]. rewrite <- elem_merge_paths in Hn. apply plan_sum_silent; [|done].
  intros q. by apply contribution_only_at.
Qed.

Lemma silent_untouched plan path : agree_at path plan empty_plan → untouched plan path.
Proof.
  intros (Ho & Hu & Hr & Hp & _). split; [done|]. split; [done|].
  split; intros Hin; [apply Hr in Hin|apply Hp in Hin]; by apply elem_of_empty in Hin.
Qed.

(** C18: No local change is forgotten, whatever the path.  Let the disk show that the user
    created, edited, re-moded or deleted [path] since the ancestor.  Then the plan either
    answers for it: the path is pushed again, or both sides deleted it, or the remote holds
    exactly the content on disk and the plan adopts the remote's row or applies its mode.  Or
    the remote put a link there that leaves the workspace: the path is frozen, which the plan
    reports.  Or the path is none of this pull's: a Git lock file, a path the scope leaves out
    (the remote did not change it and it is not among the dirty paths), or one that neither
    the ancestor nor the remote knows.  In the last two cases the plan does nothing at the
    path and leaves its row as it was, so the change still shows against the ancestor. *)
Theorem local_change_carried debug scope plan path local :
  crypto_ok (ctx_crypto ctx) →
  classify ctx debug ancestor remote collisions scope = Ok plan →
  local_delta ctx path (ancestor !! path) (requires_verified_local_content (delta path)) = Ok local →
  diverged local = true →
  carried plan path local ∨
  (untouched plan path ∧
   (escapes (ctx_os ctx) path (delta path) = true ∧
      ur_reason <$> mp_unsyncable plan !! path = Some EscapingSymlinkTarget ∨
    is_git_lock_path path = true ∨ observes scope path (delta path) = false ∨
    ancestor !! path = None ∧ remote !! path = None)).
Proof.
  intros Hc Hp Hl Hdiv. destruct (decide (path ∈ dom ancestor ∪ dom remote)) as [Hq|Hq].
  2:{ right. split; [by eapply silent_untouched, classify_elsewhere|]. rewrite elem_of_union, !elem_of_dom, <- !not_eq_None_Some in Hq.
      right; right; right. by destruct (ancestor !! path), (remote !! path); split; try done; destruct Hq; auto. }
  destruct (classify_at debug scope plan _ Hc Hp Hq) as [(Ho & Hu & Hr & Hpush & Hs) Hcases]. unfold untouched.
  rewrite Ho, Hu, Hr, Hpush, Hs.
  destruct Hcases as [Hskip|local' (_ & _ & Hl') Hpend|local' force (_ & _ & Hl') _ _].
  - right. cbn. split; [split_and!; set_solver|tauto].
  - left. left. apply Hpush. cbn. set_solver.
  - assert (local' = local) as -> by congruence. destruct (escapes (ctx_os ctx) path (delta path)) eqn:Hesc.
    { right. unfold row, state_of, classify_one. rewrite Hesc. cbn. rewrite lookup_insert_eq.
      split; [split_and!; set_solver|]. by left. }
    left. apply local_delta_facts in Hl.
    destruct (row_carried path local force Hl Hesc Hdiv) as [?|[(? & ? & ?)|(e & ? & ? & Hans)]].
    + left. by apply Hpush.
    + right; left. by rewrite Hr.
    + right; right. exists e. split_and!; [done..|]. destruct Hans as [[fp Hfp]|(op & Hop & ?)].
      * left. eexists. rewrite Hu. split; [exact Hfp|]. apply record_matches.
      * right. exists op. by rewrite Ho.
Qed.

(** A frozen path stays frozen.  If the local path cannot be read, or the
    remote is a symlink that leaves the workspace, the plan performs no
    operation on it, changes no ancestor row and pushes nothing for it. *)
Theorem frozen_untouched debug scope plan path local :
  crypto_ok (ctx_crypto ctx) →
  classify ctx debug ancestor remote collisions scope = Ok plan →
  path ∈ dom ancestor ∪ dom remote → consulted ctx ancestor remote scope path local →
  local = LUnreadable ∨
  (escapes (ctx_os ctx) path (delta path) = true ∧
   pending_absent ancestor remote scope path local = false) →
  untouched plan path ∧
  (escapes (ctx_os ctx) path (delta path) = true →
   ur_reason <$> mp_unsyncable plan !! path = Some EscapingSymlinkTarget).
Proof.
  intros Hc Hp Hq Hcons Hfrozen.
  destruct (classify_at debug scope plan _ Hc Hp Hq) as [(Ho & Hu & Hr & Hpush & Hs) Hcases].
  destruct Hcons as (Hlock & Hobs & Hl). unfold untouched. rewrite Ho, Hu, Hr, Hpush, Hs.
  destruct Hcases as [[?|?]|local' (_ & _ & Hl') Hpend|local' force (_ & _ & Hl') _ _]; [congruence..| |].
  - assert (local' = local) as -> by congruence. destruct Hfrozen as [->|[_ ?]]; [|congruence].
    unfold pending_absent in Hpend. by rewrite !andb_false_r in Hpend.
  - assert (local' = local) as -> by congruence. unfold row, state_of, classify_one.
    destruct (escapes _ _ _) eqn:Hesc.
    + cbn. rewrite lookup_insert_eq. split_and!; set_solver.
    + destruct Hfrozen as [->|[? _]]; [|done]. destruct (delta path); cbn; split_and!; set_solver.
Qed.

Lemma contribution_narrow dirty q : crypto_ok (ctx_crypto ctx) →
  (delta q = RUnchanged → q ∉ dirty → ∃ local,
     local_delta ctx q (ancestor !! q) false = Ok local ∧
     match local with LUnchanged _ | LUnreadable => True | _ => False end) →
  contribution ctx ancestor remote collisions (ChangedAndDirty dirty) q =
  contribution ctx ancestor remote collisions WholeAncestor q.
Proof.
  intros Hc Hclean. unfold contribution, classify_path, state_of.
  destruct (is_git_lock_path q); [done|]. cbn [observes reconciles_pending andb negb].
  destruct (delta q) eqn:Hd; cbn [negb]; [done..| |done|done].
  destruct (bool_decide_reflect (q ∈ dirty)) as [|Hn]; [done|].
  destruct (Hclean eq_refl Hn) as (local & Hl & Hm). cbn. rewrite Hl. unfold_M. cbn.
  by destruct local.
Qed.

(** Narrowing loses nothing.  If every path outside the dirty set that the
    remote left alone is locally unchanged (or unreadable), then the plan derived
    from the changed and dirty paths alone is the plan derived from observing
    the whole ancestor. *)
Theorem narrowing_exact dirty :
  crypto_ok (ctx_crypto ctx) →
  (∀ q, delta q = RUnchanged → q ∉ dirty → ∃ local,
     local_delta ctx q (ancestor !! q) false = Ok local ∧
     match local with LUnchanged _ | LUnreadable => True | _ => False end) →
  classify ctx false ancestor remote collisions (ChangedAndDirty dirty) =
  classify ctx false ancestor remote collisions WholeAncestor.
Proof.
  intros Hc Hclean. rewrite !classify_release_total by done. do 2 f_equal.
  apply list_fmap_ext. intros i q _. apply contribution_narrow; [done|apply Hclean].
Qed.

Lemma sum_ops_nodup f paths : (∀ q, only_at q (f q)) → NoDup paths →
  NoDup (op_path <$> mp_fs_ops (plan_sum (f <$> paths))) ∧
  Forall (λ op, op_path op ∈ paths) (mp_fs_ops (plan_sum (f <$> paths))).
Proof.
  intros Hf. induction paths as [|q paths IH]; intros Hnd; [split; constructor|].
  apply NoDup_cons in Hnd as [Hq Hnd]. specialize (IH Hnd) as [IH1 IH2].
  rewrite plan_sum_cons. cbn [mp_fs_ops plan_app]. set (rest := mp_fs_ops (plan_sum _)) in *.
  assert (Forall (λ op, op_path op ∈ q :: paths) rest) as IH3
    by (eapply Forall_impl; [exact IH2|intros ? ?; by right]).
  destruct (proj1 (Hf q)) as [->|(op & -> & <-)]; [done|]. cbn. split.
  - constructor; [|done]. intros (op' & Heq & Hin)%list_elem_of_fmap.
    rewrite Forall_forall in IH2. apply Hq. rewrite Heq. by apply IH2.
  - constructor; [by left|done].
Qed.

(** C35: One path cannot fail the cycle.  With a key ring that holds its write
    epoch, the release build's classification always returns a plan, whatever
    the operating system answers; the plan has at most one operation per path
    and only paths of the ancestor or of the remote manifest. *)
Theorem classify_total scope :
  crypto_ok (ctx_crypto ctx) →
  ∃ plan, classify ctx false ancestor remote collisions scope = Ok plan ∧
    NoDup (op_path <$> mp_fs_ops plan) ∧
    Forall (λ op, op_path op ∈ dom ancestor ∪ dom remote) (mp_fs_ops plan).
Proof.
  intros Hc. eexists. split; [by apply classify_release_total|].
  destruct (sum_ops_nodup (contribution ctx ancestor remote collisions scope)
              (merge_paths ancestor remote)) as [Hnd Hin].
  { intros q. by apply contribution_only_at. }
  { apply merge_paths_nodup. }
  split; [done|]. eapply Forall_impl; [exact Hin|]. intros op. by rewrite elem_merge_paths.
Qed.
End Classified.

(** ** Witnesses

    A workspace of four tracked or new paths: [kept] is as the ancestor says and
    the remote changed it; [edited] was changed on both sides; [gone] was deleted
    locally; [odd] became a socket. *)

Definition w_hash : ContentHash := λ key content, (key +:+ ":" +:+ content)%string.
#[local] Existing Instance w_hash.

Definition w_meta (ty : FileType) (len ino : Z) : Metadata :=
  {| md_type := ty; md_mode := 33188; md_len := len; md_mtime := 1; md_mtime_nsec := 0;
     md_ctime := 1; md_ctime_nsec := 0; md_ino := ino; md_dev := 1 |}.

Definition w_node (path : string) : option (Metadata * string) :=
  if (path =? "kept")%string then Some (w_meta TypeFile 3 1, "old"%string)
  else if (path =? "edited")%string then Some (w_meta TypeFile 4 2, "mine"%string)
  else if (path =? "odd")%string then Some (w_meta TypeOther 0 3, ""%string)
  else None.

Definition w_enoent : IoError := {| io_kind := NotFound; io_raw_os_error := Some 2 |}.

Definition w_os : Os :=
  {| symlink_metadata := λ p, match w_node p with Some (m, _) => Ok m | None => Err w_enoent end;
     read_link := λ _, Err w_enoent;
     create_dir := λ _, Ok tt;
     metadata_after_create := λ _, Err w_enoent;
     open_nofollow := λ p, match w_node p with
       | Some (m, content) => Ok {| h_metadata := Ok m; h_content := Ok content; h_final_metadata := Ok m |}
       | None => Err NOENT end |}.

Definition w_ctx : EngineContext :=
  {| ctx_os := w_os; ctx_crypto := crypto_new "k" 1; ctx_max_seal_bytes := 100; ctx_now := 7 |}.

Definition w_entry (content : string) : ManifestEntry :=
  FileEntry (str_len content) 33188 (content_id_of "k" content) ("b_" +:+ content)%string 1.

Definition w_row (content : string) : FileRecord :=
  record_for_entry (w_entry content) {| fp_mtime_ns := 0; fp_ctime_ns := 0; fp_inode := 0; fp_dev := 0 |} 5.

Definition w_ancestor : gmap WorkspacePath FileRecord :=
  list_to_map [("kept", w_row "old"); ("edited", w_row "base"); ("gone", w_row "x"); ("odd", w_row "y")]%string.

Definition w_remote : gmap WorkspacePath ManifestEntry :=
  list_to_map [("kept", w_entry "new"); ("edited", w_entry "theirs"); ("gone", w_entry "x"); ("odd", w_entry "y")]%string.

Definition w_plan (scope : PullScope) : MergePlan :=
  match classify w_ctx false w_ancestor w_remote [] scope with Ok p => p | Err _ => empty_plan end.

Definition w_install : FsOp :=
  {| op_path := "kept"; op_kind := Install (w_entry "new");
     op_expected := preimage_from_record (w_row "old") |}.

Lemma plan_never_clobbers_witness :
  w_install ∈ mp_fs_ops (w_plan WholeAncestor) ∧
  op_safe w_ctx w_ancestor w_remote (w_plan WholeAncestor) w_install.
Proof.
  assert (w_install ∈ mp_fs_ops (w_plan WholeAncestor)) as Hin
    by (apply (list_elem_of_lookup_2 _ 1); vm_compute; reflexivity).
  split; [exact Hin|].
  apply (plan_never_clobbers w_ctx w_ancestor w_remote [] false WholeAncestor).
  - apply crypto_new_ok.
  - vm_compute; reflexivity.
  - exact Hin.
Defined.

Lemma local_change_carried_witness :
  carried w_ctx w_remote (w_plan WholeAncestor) "gone" LDeleted ∧
  carried w_ctx w_remote (w_plan WholeAncestor) "edited"
    (LChanged {| ob_kind := File; ob_size := 4; ob_mode := 33188; ob_symlink_target := None;
                 ob_fingerprint := fingerprint_of (w_meta TypeFile 4 2) |} (Some "k:mine")%string).
Proof.
  split.
  - destruct (local_change_carried w_ctx w_ancestor w_remote [] false WholeAncestor (w_plan WholeAncestor) "gone" LDeleted
      (crypto_new_ok _ _)) as [Hc|[_ [[He _]|[Hl|[Ho|[Ha _]]]]]];
      [vm_compute; reflexivity..|exact Hc|vm_compute in He; discriminate He|vm_compute in Hl; discriminate Hl
      |vm_compute in Ho; discriminate Ho|vm_compute in Ha; discriminate Ha].
  - edestruct (local_change_carried w_ctx w_ancestor w_remote [] false WholeAncestor (w_plan WholeAncestor) "edited")
      as [Hc|[_ [[He _]|[Hl|[Ho|[Ha _]]]]]];
      [apply crypto_new_ok|vm_compute; reflexivity..|exact Hc|vm_compute in He; discriminate He|vm_compute in Hl; discriminate Hl
      |vm_compute in Ho; discriminate Ho|vm_compute in Ha; discriminate Ha].
Defined.

Lemma frozen_untouched_witness : untouched (w_plan WholeAncestor) "odd".
Proof.
  apply (frozen_untouched w_ctx w_ancestor w_remote [] false WholeAncestor
           (w_plan WholeAncestor) "odd" LUnreadable).
  - apply crypto_new_ok.
  - vm_compute; reflexivity.
  - apply elem_of_union_l, elem_of_dom_2 with (w_row "y"); vm_compute; reflexivity.
  - split_and!; vm_compute; reflexivity.
  - by left.
Defined.

Lemma narrowing_exact_witness :
  classify w_ctx false w_ancestor w_remote [] (ChangedAndDirty {["gone"; "edited"]}) =
  classify w_ctx false w_ancestor w_remote [] WholeAncestor.
Proof.
  apply (narrowing_exact w_ctx w_ancestor w_remote []); [apply crypto_new_ok|].
  intros q Hd Hq. exists LUnreadable. split; [|done].
  assert (q = "odd"%string) as ->; [|vm_compute; reflexivity].
  assert (q ∈ dom w_remote) as Hdom.
  { apply elem_of_dom. unfold remote_delta in Hd. by destruct (_ !! q). }
  unfold w_remote in Hdom. rewrite dom_list_to_map in Hdom. cbn in Hdom.
  assert (q = "kept" ∨ q = "edited" ∨ q = "gone" ∨ q = "odd")%string as Hcase by set_solver.
  destruct Hcase as [Hc|[Hc|[Hc|Hc]]]; subst q; [discriminate Hd| | |done]; set_solver.
Defined.

Lemma classify_total_witness :
  ∃ plan, classify w_ctx false w_ancestor w_remote [] WholeAncestor = Ok plan ∧
    NoDup (op_path <$> mp_fs_ops plan) ∧
    Forall (λ op, op_path op ∈ dom w_ancestor ∪ dom w_remote) (mp_fs_ops plan).
Proof. apply (classify_total w_ctx w_ancestor w_remote [] WholeAncestor), crypto_new_ok. Defined.
