(* ===== verification/Asides.v ===== *)
(** * Names of conflict asides

    Models [pull_apply/naming.rs]: the one grammar of an aside's name, its parser,
    the choice of a free name, and the names of staged and quarantined files.

    The BLAKE3 digest of a seed is a library: [SeedHash] is the hexadecimal text it
    gives, and [hex_digest] the documented shape of that text.  Whether a name is
    taken on disk is an argument. *)

From stdpp Require Import pretty.
From Stdlib Require Import Ascii.
From S2P Require Import Prelude.
From S2P Require Import Paths.
From S2P Require Import ManifestTypes.
Local Open Scope string_scope.
Open Scope Z_scope.

(** [blake3::hash(seed.as_bytes()).to_hex()] *)
Class SeedHash := seed_hex : string → string.

Definition CONFLICT_ASIDE_MARKER : string := ".bowline-conflict.".

Definition FIRST_COLLISION_SUFFIX : Z := 2.

(** [AsidePrefix::LEN] *)
Definition AsidePrefix_LEN : nat := 8.

Abbreviation AsidePrefix := string (only parsing).

Section Naming.
Context `{SeedHash}.

(** [AsidePrefix::derive] *)
Definition AsidePrefix_derive (seed : string) : AsidePrefix :=
  String.substring 0 AsidePrefix_LEN (seed_hex seed).

Definition entry_manifest_prefix (entry : ManifestEntry) : AsidePrefix :=
  let identity := match entry with
    | FileEntry _ _ content_id _ _ => content_id
    | DirectoryEntry _ => "dir"
    | SymlinkEntry _ target => target
    end in
  AsidePrefix_derive identity.

Definition aside_path_with_prefix (path : WorkspacePath) (prefix : AsidePrefix) : WorkspacePath :=
  path +:+ CONFLICT_ASIDE_MARKER +:+ prefix.

(** [u32::to_string] *)
Definition u32_to_string (n : Z) : string := pretty (Z.to_N n).

Definition collision_aside_path (base : WorkspacePath) (suffix : Z) : WorkspacePath :=
  base +:+ "." +:+ u32_to_string suffix.

Definition materialized_aside_path (path : WorkspacePath) (entry : ManifestEntry) : WorkspacePath :=
  aside_path_with_prefix path (entry_manifest_prefix entry).

Definition aside_is_permitted (path : WorkspacePath) : bool := is_none (classify_git_path path).

Definition usable_aside_path (path : WorkspacePath) : bool :=
  is_ok (publishable_workspace_path path MAX_WORKSPACE_PATH_LEN false).

Definition permitted_aside_path (path : WorkspacePath) (prefix : AsidePrefix)
    : option WorkspacePath :=
  if negb (aside_is_permitted path) then None else
  let candidate := aside_path_with_prefix path prefix in
  if usable_aside_path candidate then Some candidate else None.

(** One turn of the loop of [free_aside_path]: [Some] where it returns. *)
Definition try_collision_suffix (taken : string → bool) (base : WorkspacePath) (suffix : Z)
    : option (option WorkspacePath) :=
  let candidate := collision_aside_path base suffix in
  if negb (usable_aside_path candidate) then Some None else
  if negb (taken candidate) then Some (Some candidate) else None.

Definition free_aside_path (taken : string → bool) (path : WorkspacePath) (entry : ManifestEntry)
    : option WorkspacePath :=
  match permitted_aside_path path (entry_manifest_prefix entry) with
  | None => None
  | Some base =>
      if negb (taken base) then Some base else
      default None
        (for_range FIRST_COLLISION_SUFFIX u32_max (try_collision_suffix taken base))
  end.

(** ** The parser *)

Definition digit_value (c : ascii) : option Z :=
  if byte_in "0" "9" c then Some (Z.of_nat (nat_of_ascii c) - 48) else None.

(** The digits of [str::parse::<u32>], with its overflow check. *)
Fixpoint parse_digits (acc : Z) (s : string) : option Z :=
  match s with
  | EmptyString => Some acc
  | String c s =>
      match digit_value c with
      | None => None
      | Some d => let acc := acc * 10 + d in
                  if acc <=? u32_max then parse_digits acc s else None
      end
  end.

Definition parse_u32 (s : string) : option Z :=
  match s with
  | EmptyString => None
  | String c rest =>
      if (c =? "+")%char then if (rest =? "")%string then None else parse_digits 0 rest
      else parse_digits 0 s
  end.

Definition is_lower_hex (c : ascii) : bool := byte_in "0" "9" c || byte_in "a" "f" c.

Definition generated_aside_suffix (suffix : string) : bool :=
  let '(prefix, collision) := match split_once "." suffix with
    | Some (prefix, collision) => (prefix, Some collision)
    | None => (suffix, None)
    end in
  if negb (Nat.eqb (String.length prefix) AsidePrefix_LEN)
     || negb (all_bytes is_lower_hex prefix)
  then false else
  match collision with
  | None => true
  | Some collision =>
      is_some_and (λ value, (FIRST_COLLISION_SUFFIX <=? value)
                            && (collision =? u32_to_string value)%string)
        (parse_u32 collision)
  end.

(** [origin.rsplit('/').next().unwrap_or_default()] *)
Definition final_component (path : string) : string := List.last (split slash path) "".

Definition conflict_aside_origin (path : string) : option string :=
  match rsplit_once CONFLICT_ASIDE_MARKER path with
  | None => None
  | Some (origin, suffix) =>
      if str_in (final_component origin) [""; "."; ".."] then None
      else if generated_aside_suffix suffix then Some origin else None
  end.

Definition is_conflict_aside (path : string) : bool := is_some (conflict_aside_origin path).

(** ** Staged and quarantined files *)

Fixpoint sanitize (value : string) : string :=
  match value with
  | EmptyString => EmptyString
  | String c value => String (if (c =? slash)%char then "_"%char else c) (sanitize value)
  end.

Definition temp_name (path : WorkspacePath) (blob_key : BlobKey) : string :=
  sanitize path +:+ "-" +:+ String.substring 0 (Nat.min (String.length blob_key) 16) blob_key.

Definition quarantine_leaf (path : WorkspacePath) : string :=
  sanitize path +:+ "-" +:+ String.substring 0 16 (seed_hex path).

Definition quarantine_name (path : WorkspacePath) : string := "quarantine/" +:+ quarantine_leaf path.

End Naming.

(** ** The grammar, as a specification *)

Definition hex8 (p : string) : Prop :=
  String.length p = AsidePrefix_LEN ∧ all_bytes is_lower_hex p = true.

Inductive aside_tag : string → Prop :=
| tag_base p : hex8 p → aside_tag p
| tag_collision p n : hex8 p → FIRST_COLLISION_SUFFIX ≤ n ≤ u32_max →
    aside_tag (p +:+ "." +:+ u32_to_string n).

(** A path whose final component is a real name. *)
Definition named (path : string) : Prop :=
  str_in (final_component path) [""; "."; ".."] = false.

(** ** Lemmas *)

Lemma split_once_Some p s a b : split_once p s = Some (a, b) → s = a +:+ p +:+ b.
Proof.
  revert a b. induction s as [|c s IH]; intros a b; cbn; destruct (strip_prefix p _) eqn:E.
  - intros [= <- <-]. by apply strip_prefix_Some in E.
  - done.
  - intros [= <- <-]. by apply strip_prefix_Some in E.
  - destruct (split_once p s) as [[a' b']|] eqn:Es; [|done]. intros [= <- <-].
    by rewrite (IH a' b').
Qed.

Lemma rsplit_once_Some p s a b : rsplit_once p s = Some (a, b) → s = a +:+ p +:+ b.
Proof.
  revert a b. induction s as [|c s IH]; intros a b; cbn [rsplit_once]; [done|].
  destruct (rsplit_once p s) as [[a' b']|] eqn:Es.
  - intros [= <- <-]. by rewrite (IH a' b').
  - destruct (strip_prefix p _) eqn:E; [|done]. intros [= <- <-]. by apply strip_prefix_Some in E.
Qed.

Lemma rsplit_once_app p o s t :
  rsplit_once p s = Some (EmptyString, t) → rsplit_once p (o +:+ s) = Some (o, t).
Proof.
  intros H. induction o as [|c o IH]; [done|]. rewrite str_app_cons. cbn [rsplit_once]. by rewrite IH.
Qed.

Lemma no_o_strip s : no_char "o" s = true → strip_prefix CONFLICT_ASIDE_MARKER s = None.
Proof.
  intros Hno. destruct (strip_prefix _ s) as [r|] eqn:E; [|done].
  apply strip_prefix_Some in E as ->. rewrite no_char_app in Hno. done.
Qed.

Lemma no_o_rsplit s : no_char "o" s = true → rsplit_once CONFLICT_ASIDE_MARKER s = None.
Proof.
  induction s as [|c s IH]; intros Hno; cbn [rsplit_once]; [done|].
  rewrite IH by (cbn in Hno; by apply andb_true_iff in Hno as [_ ?]).
  by rewrite no_o_strip.
Qed.

(** The marker is found at the end of the origin and nowhere later. *)
Lemma rsplit_marker o tag : no_char "o" tag = true →
  rsplit_once CONFLICT_ASIDE_MARKER (o +:+ CONFLICT_ASIDE_MARKER +:+ tag) = Some (o, tag).
Proof.
  intros Hno. apply rsplit_once_app. unfold CONFLICT_ASIDE_MARKER at 2.
  pose proof (no_o_rsplit ("nflict." +:+ tag) Hno) as Hn.
  change (".bowline-conflict." +:+ tag) with (".bowline-co" +:+ ("nflict." +:+ tag)).
  set (rest := "nflict." +:+ tag) in *.
  rewrite !str_app_cons. cbn [rsplit_once]. change ("" +:+ rest) with rest.
  rewrite Hn. reflexivity.
Qed.

Lemma all_bytes_app f s t : all_bytes f (s +:+ t) = all_bytes f s && all_bytes f t.
Proof. induction s as [|c s IH]; rewrite ?str_app_cons; cbn; [done|]. by rewrite IH, andb_assoc. Qed.

Lemma all_bytes_impl (f g : ascii → bool) s :
  (∀ c, f c = true → g c = true) → all_bytes f s = true → all_bytes g s = true.
Proof.
  intros Hfg. induction s as [|c s IH]; cbn; [done|].
  rewrite !andb_true_iff. intros [? ?]. split; [by apply Hfg|by apply IH].
Qed.

(** Every byte of a hexadecimal or decimal text differs from a letter past [f]
    and from the dot. *)
Lemma hex_not_o c : is_lower_hex c = true → negb (c =? "o")%char = true.
Proof. destruct c as [[] [] [] [] [] [] [] []]; vm_compute; done. Qed.

Lemma hex_not_dot c : is_lower_hex c = true → negb (c =? ".")%char = true.
Proof. destruct c as [[] [] [] [] [] [] [] []]; vm_compute; done. Qed.

Lemma digit_is_hex c d : digit_value c = Some d → is_lower_hex c = true.
Proof. unfold digit_value, is_lower_hex. by destruct (byte_in "0" "9" c). Qed.

Lemma parse_digits_hex acc s n : parse_digits acc s = Some n → all_bytes is_lower_hex s = true.
Proof.
  revert acc. induction s as [|c s IH]; intros acc; cbn; [done|].
  destruct (digit_value c) as [d|] eqn:Ed; [|done].
  destruct (_ <=? _); [|done]. intros H%IH. by rewrite (digit_is_hex _ _ Ed), H.
Qed.

Lemma parse_digits_bound acc s n : acc ≤ u32_max → parse_digits acc s = Some n → n ≤ u32_max.
Proof.
  revert acc. induction s as [|c s IH]; intros acc Hacc; cbn; [by intros [= <-]|].
  destruct (digit_value c) as [d|] eqn:Ed; [|done].
  destruct (Z.leb_spec (acc * 10 + d) u32_max); [|done]. by apply IH.
Qed.

Lemma parse_u32_bound s n : parse_u32 s = Some n → n ≤ u32_max.
Proof.
  assert (0 ≤ u32_max) by (unfold u32_max; lia).
  unfold parse_u32. destruct s as [|c s]; [done|].
  destruct (_ =? _)%char; [destruct (_ =? _)%string; [done|]|]; by apply parse_digits_bound.
Qed.

Lemma digit_value_char x : (x < 10)%N → digit_value (pretty_N_char x) = Some (Z.of_N x).
Proof.
  intros Hx. assert (x ∈ [0; 1; 2; 3; 4; 5; 6; 7; 8; 9]%N) as Hin.
  { rewrite !elem_of_cons. lia. }
  revert Hin. rewrite !elem_of_cons. intros Hin. repeat destruct Hin as [->|Hin]; try done.
  by apply elem_of_nil in Hin.
Qed.

Lemma parse_pretty_go (x : N) s : Z.of_N x ≤ u32_max →
  parse_digits 0 (pretty_N_go x s) = parse_digits (Z.of_N x) s.
Proof.
  revert s. induction (N.lt_wf_0 x) as [x _ IH]. intros s Hx.
  destruct (decide (x = 0%N)) as [->|Hne]; [by rewrite pretty_N_go_0|].
  assert (0 < x)%N as Hpos by lia. rewrite pretty_N_go_step by done.
  pose proof (N.div_lt x 10 Hpos) as Hlt. pose proof (N.div_mod x 10) as Hdm.
  pose proof (N.mod_lt x 10) as Hmod. rewrite IH by lia. cbn [parse_digits].
  rewrite digit_value_char by lia. cbn beta zeta.
  replace (Z.of_N (x / 10) * 10 + Z.of_N (x mod 10)) with (Z.of_N x) by lia.
  by rewrite (proj2 (Z.leb_le _ _) Hx).
Qed.

Lemma pretty_go_head (x : N) s : (0 < x)%N →
  ∃ c rest, pretty_N_go x s = String c rest ∧ is_lower_hex c = true.
Proof.
  revert s. induction (N.lt_wf_0 x) as [x _ IH]. intros s Hx. rewrite pretty_N_go_step by done.
  destruct (decide (x / 10 = 0)%N) as [->|Hne].
  - rewrite pretty_N_go_0. eexists _, _. split; [done|].
    eapply digit_is_hex, digit_value_char, N.mod_lt. lia.
  - apply IH; [by apply N.div_lt|]. by apply N.neq_0_lt_0.
Qed.

Lemma parse_u32_to_string n : 0 < n ≤ u32_max → parse_u32 (u32_to_string n) = Some n.
Proof.
  intros Hn. unfold u32_to_string, pretty, pretty_N. rewrite decide_False by lia.
  destruct (pretty_go_head (Z.to_N n) "") as (c & rest & Heq & Hc); [lia|].
  unfold parse_u32. rewrite Heq. destruct (Ascii.eqb_spec c "+") as [->|]; [done|].
  rewrite <- Heq, parse_pretty_go by lia. cbn. f_equal. lia.
Qed.

Lemma u32_to_string_hex n : 0 < n ≤ u32_max → all_bytes is_lower_hex (u32_to_string n) = true.
Proof.
  intros Hn. unfold u32_to_string, pretty, pretty_N. rewrite decide_False by lia.
  eapply parse_digits_hex. rewrite parse_pretty_go by lia. done.
Qed.

Lemma no_dot_split_once p s : no_char "." p = true →
  split_once "." (p +:+ "." +:+ s) = Some (p, s) ∧ split_once "." p = None.
Proof.
  induction p as [|c p IH]; [done|]. rewrite str_app_cons. intros [Hc Hp]%andb_true_iff.
  destruct (IH Hp) as [H1 H2]. cbn [split_once strip_prefix]. rewrite H1, H2.
  destruct (Ascii.eqb_spec "." c) as [<-|]; done.
Qed.

Lemma hex8_no_dot p : hex8 p → no_char "." p = true.
Proof. intros [_ H]. by eapply all_bytes_impl; [apply hex_not_dot|]. Qed.

Lemma suffix_bounds n : FIRST_COLLISION_SUFFIX ≤ n ≤ u32_max → 0 < n ≤ u32_max.
Proof. unfold FIRST_COLLISION_SUFFIX. lia. Qed.

Lemma aside_tag_no_o tag : aside_tag tag → no_char "o" tag = true.
Proof.
  intros [p [_ Hp]|p n [_ Hp] Hn]; unfold no_char in *.
  - by eapply all_bytes_impl; [apply hex_not_o|].
  - rewrite !all_bytes_app. rewrite !andb_true_iff. split_and!; [|done|].
    + by eapply all_bytes_impl; [apply hex_not_o|].
    + eapply all_bytes_impl; [apply hex_not_o|]. by apply u32_to_string_hex, suffix_bounds.
Qed.

Lemma hex8_spec p :
  negb (Nat.eqb (String.length p) AsidePrefix_LEN) || negb (all_bytes is_lower_hex p) = false ↔ hex8 p.
Proof.
  unfold hex8. rewrite orb_false_iff, !negb_false_iff, Nat.eqb_eq. done.
Qed.

Lemma generated_aside_suffix_spec s : generated_aside_suffix s = true ↔ aside_tag s.
Proof.
  unfold generated_aside_suffix. split.
  - destruct (split_once "." s) as [[p c]|] eqn:Es.
    + apply split_once_Some in Es as ->. destruct (_ || _) eqn:Eh; [done|].
      apply hex8_spec in Eh. destruct (parse_u32 c) as [n|] eqn:En; [|done]. cbn.
      rewrite andb_true_iff, Z.leb_le, String.eqb_eq. intros [Hn ->].
      apply parse_u32_bound in En. by constructor.
    + destruct (_ || _) eqn:Eh; [done|]. intros _. by constructor; apply hex8_spec.
  - intros [p Hp|p n Hp Hn]; pose proof (hex8_no_dot p Hp) as Hd.
    + rewrite (proj2 (no_dot_split_once p "" Hd)). by rewrite (proj2 (hex8_spec p) Hp).
    + rewrite (proj1 (no_dot_split_once p _ Hd)). rewrite (proj2 (hex8_spec p) Hp).
      rewrite parse_u32_to_string by by apply suffix_bounds. cbn.
      rewrite String.eqb_refl, andb_true_r. apply Z.leb_le, Hn.
Qed.

(** C37: One grammar for asides.  The parser recognizes exactly the names the
    writer can produce for a named path — the path, the marker, eight lowercase
    hexadecimal digits, and optionally a collision suffix in canonical decimal from
    2 to the largest 32-bit value — and gives back exactly the path the aside sits
    beside; every other name is a user's file. *)
Theorem aside_grammar s origin :
  conflict_aside_origin s = Some origin ↔
  named origin ∧ ∃ tag, aside_tag tag ∧ s = origin +:+ CONFLICT_ASIDE_MARKER +:+ tag.
Proof.
  unfold conflict_aside_origin, named. split.
  - destruct (rsplit_once _ s) as [[o tag]|] eqn:E; [|done]. apply rsplit_once_Some in E.
    destruct (str_in _ _) eqn:En; [done|].
    destruct (generated_aside_suffix tag) eqn:Et; [|done]. intros [= <-].
    split; [done|]. exists tag. by rewrite <- generated_aside_suffix_spec.
  - intros [Hn (tag & Ht & ->)]. rewrite rsplit_marker by by apply aside_tag_no_o.
    rewrite Hn. by rewrite (proj2 (generated_aside_suffix_spec tag)).
Qed.

(** ** The writer produces the grammar *)

(** BLAKE3's hexadecimal rendering: 64 lowercase hexadecimal digits. *)
Definition hex_digest (hash : SeedHash) : Prop :=
  ∀ seed, String.length (hash seed) = 64%nat ∧ all_bytes is_lower_hex (hash seed) = true.

Lemma substring_hex8 s : String.length s = 64%nat → all_bytes is_lower_hex s = true →
  hex8 (String.substring 0 AsidePrefix_LEN s).
Proof.
  unfold hex8, AsidePrefix_LEN. intros Hl Ha.
  do 8 (destruct s as [|? s]; [done|]). cbn [all_bytes] in Ha.
  do 8 (apply andb_true_iff in Ha as [? Ha]). split; [by destruct s|].
  replace (String.substring 0 8 _) with
    (String a (String a0 (String a1 (String a2 (String a3 (String a4 (String a5 (String a6 ""))))))))
    by by destruct s.
  cbn [all_bytes]. by repeat (apply andb_true_iff; split).
Qed.

Lemma derive_hex8 `{SeedHash} seed : hex_digest seed_hex → hex8 (AsidePrefix_derive seed).
Proof. intros Hh. destruct (Hh seed). by apply substring_hex8. Qed.

(** What a chosen aside is: free, publishable, and one of the names of [path]. *)
Lemma free_aside_path_spec `{SeedHash} taken path entry aside :
  hex_digest seed_hex → free_aside_path taken path entry = Some aside →
  taken aside = false ∧ usable_aside_path aside = true ∧ classify_git_path path = None ∧
  ∃ tag, aside_tag tag ∧ aside = path +:+ CONFLICT_ASIDE_MARKER +:+ tag.
Proof.
  intros Hh. unfold free_aside_path, permitted_aside_path, aside_is_permitted.
  destruct (classify_git_path path) eqn:Eg; [done|]. cbn [is_none negb].
  pose proof (derive_hex8 (match entry with FileEntry _ _ c _ _ => c | DirectoryEntry _ => "dir"
    | SymlinkEntry _ t => t end) Hh) as Hx. fold (entry_manifest_prefix entry) in Hx.
  destruct (usable_aside_path _) eqn:Eu; [|done].
  destruct (taken _) eqn:Et; cbn [negb].
  - destruct (for_range _ _ _) as [r|] eqn:Ef; [|done]. cbn. intros ->.
    apply for_range_Some in Ef as (n & Hn & Htest & _). unfold try_collision_suffix in Htest.
    destruct (usable_aside_path (collision_aside_path _ n)) eqn:Eu2; [|done].
    destruct (taken (collision_aside_path _ n)) eqn:Et2; [done|]. cbn in Htest.
    injection Htest as <-. split_and!; [done|done|done|].
    exists (entry_manifest_prefix entry +:+ "." +:+ u32_to_string n).
    split; [constructor; [done|lia]|].
    unfold collision_aside_path, aside_path_with_prefix. by rewrite !str_app_assoc.
  - intros [= <-]. split_and!; [done|done|done|]. eexists. split; [by constructor|done].
Qed.

Lemma marker_ne path tag : path +:+ CONFLICT_ASIDE_MARKER +:+ tag ≠ path.
Proof.
  intros Heq%(f_equal String.length). rewrite !str_length_app in Heq. cbn in Heq. lia.
Qed.
