(* ===== verification/PolicyTheorems.v ===== *)
(** * Path policy: theorems

    A load scoped to dirty roots classifies the paths below them as the full load does; a load
    for one path agrees with the full load where the full load enters every directory above the
    path; the built-in safety classes hold whatever the rules say; and the walk reaches every
    path that syncs, within limits the statement names. *)

From Stdlib Require Import Ascii.
From S2P Require Import Prelude.
From S2P Require Import Glob.
From S2P Require Import Policy.
From S2P Require Import PolicyLoad.
From S2P Require Import Paths.

(** ** The tree *)

Section TreeInduction.
Context (P : PolicyDir → Prop)
  (Hdir : ∀ marker listable entries,
    Forall (λ entry, from_option P True entry.2) entries → P (MkPolicyDir marker listable entries)).

Fixpoint PolicyDir_induction (d : PolicyDir) : P d :=
  match d with
  | MkPolicyDir marker listable entries =>
      Hdir marker listable entries
        ((fix go (l : list (string * ListedAs * option PolicyDir)) : Forall (λ entry, from_option P True entry.2) l :=
            match l with
            | [] => List.Forall_nil _
            | (name, listed, target) :: l =>
                @List.Forall_cons _ (λ entry, from_option P True entry.2) (name, listed, target) l
                  (match target return from_option P True target with
                   | Some child => PolicyDir_induction child
                   | None => I
                   end) (go l)
            end) entries)
  end.
End TreeInduction.

(** A name a directory listing can have. *)
Definition entry_name (name : string) : bool :=
  nonempty name && no_char slash name && negb (str_in name ["."; ".."]).

Fixpoint well_named (d : PolicyDir) : bool :=
  match d with
  | MkPolicyDir _ _ entries =>
      forallb (λ '(name, _, target),
        entry_name name && match target with Some child => well_named child | None => true end) entries
  end.

Lemma entry_name_segment name : entry_name name = true → segment name.
Proof. unfold entry_name, segment. rewrite !andb_true_iff. tauto. Qed.

Lemma entry_names_segments l : Forall (λ n, entry_name n = true) l → Forall segment l.
Proof. intros Hl. eapply Forall_impl; [exact Hl|apply entry_name_segment]. Qed.

(** ** Normal paths *)

Lemma str_app_nil_r s : s +:+ "" = s.
Proof. induction s as [|c s IH]; [done|]. by rewrite str_app_cons, IH. Qed.

Lemma double_after p t : no_char slash p = true →
  has_double_slash (p +:+ String slash t) = starts_with_char slash t || has_double_slash t.
Proof.
  induction p as [|c p IH]; intros Hp.
  - change ("" +:+ String slash t) with (String slash t). destruct t as [|d t]; [done|].
    rewrite has_double_cons2. rewrite Ascii.eqb_refl. cbn [starts_with_char andb].
    by rewrite Ascii.eqb_sym.
  - cbn in Hp. apply andb_true_iff in Hp as [Hc Hp]. rewrite str_app_cons, has_double_cons, IH by done.
    apply negb_true_iff in Hc. by rewrite Hc.
Qed.
Lemma no_slash_start p t : segment p → starts_with_char slash (p +:+ t) = false.
Proof.
  intros [Hp Hn]. destruct p as [|c p]; [done|]. cbn [no_char all_bytes] in Hp.
  apply andb_true_iff in Hp as [Hc _]. rewrite str_app_cons. cbn [starts_with_char].
  apply negb_true_iff in Hc. by rewrite Ascii.eqb_sym.
Qed.

Lemma join_start l : Forall segment l → starts_with_char slash (join l) = false.
Proof.
  intros Hl. destruct l as [|p [|q l]]; [done|..]; apply Forall_cons in Hl as [Hp Hl].
  - rewrite <- (str_app_nil_r (join [p])). by apply no_slash_start.
  - rewrite join_cons. by apply no_slash_start.
Qed.

Lemma no_char_no_double p : no_char slash p = true → has_double_slash p = false.
Proof.
  induction p as [|c p IH]; [done|]. cbn [no_char all_bytes]. intros [Hc Hp]%andb_true_iff.
  rewrite has_double_cons, IH by done. apply negb_true_iff in Hc. by rewrite Hc.
Qed.

Lemma join_no_double l : Forall segment l → has_double_slash (join l) = false.
Proof.
  induction l as [|p [|q l] IH]; intros Hl; [done|..]; apply Forall_cons in Hl as [[Hp _] Hl].
  - by apply no_char_no_double.
  - rewrite join_cons, double_after, join_start, IH by done. done.
Qed.

Lemma trim_end_fixed p : no_char slash p = true → trim_end_slash p = p.
Proof.
  induction p as [|c p IH]; [done|]. cbn [no_char all_bytes]. intros [Hc Hp]%andb_true_iff.
  cbn [trim_end_slash]. rewrite IH by done. apply negb_true_iff in Hc. by rewrite Hc.
Qed.

Lemma trim_end_app p t : trim_end_slash t = t → t ≠ "" → trim_end_slash (p +:+ t) = p +:+ t.
Proof.
  intros Ht Hne. induction p as [|c p IH]; [done|]. rewrite str_app_cons. cbn [trim_end_slash]. rewrite IH.
  destruct (String.eqb_spec (p +:+ t) "") as [He|]; [|by rewrite andb_false_r]. destruct p; [by destruct t|done].
Qed.

Lemma join_ne l : Forall segment l → l ≠ [] → join l ≠ "".
Proof. intros Hl Hne He. by apply join_nil in He. Qed.

Lemma join_trim_end l : Forall segment l → trim_end_slash (join l) = join l.
Proof.
  induction l as [|p [|q l] IH]; intros Hl; [done|..]; apply Forall_cons in Hl as [[Hp _] Hl].
  - by apply trim_end_fixed.
  - rewrite join_cons. change (String slash (join (q :: l))) with ("/" +:+ join (q :: l)).
    rewrite <- str_app_assoc. apply trim_end_app; [by apply IH|by apply join_ne].
Qed.

Lemma trim_slashes_join l : Forall segment l → trim_slashes (join l) = join l.
Proof.
  intros Hl. unfold trim_slashes. pose proof (join_start l Hl) as Hs. destruct (join l) as [|c t] eqn:E; [done|].
  cbn [trim_start_slash]. cbn [starts_with_char] in Hs. rewrite Ascii.eqb_sym in Hs. rewrite Hs, <- E. by apply join_trim_end.
Qed.

Lemma collapse_fixed fuel t : has_double_slash t = false → collapse_slashes fuel t = t.
Proof. intros Ht. destruct fuel; [done|]. cbn. by rewrite Ht. Qed.

Lemma os_components_join l : Forall (λ n, entry_name n = true) l → os_components (join l) = l.
Proof.
  intros Hl. pose proof (entry_names_segments l Hl) as Hs. unfold os_components. rewrite join_start by done.
  destruct l as [|p l]; [done|]. rewrite split_join; [|done|eapply Forall_impl; [exact Hs|by intros ? []]].
  assert (List.filter (λ piece, nonempty piece && negb (piece =? ".")%string) (p :: l) = p :: l) as Hf.
  { apply filter_all. eapply Forall_impl; [exact Hl|]. unfold entry_name. intros n [[Hn _]%andb_true_iff Hd]%andb_true_iff.
    rewrite Hn. cbn in Hd. apply negb_true_iff, orb_false_iff in Hd as [Hd _]. by rewrite Hd. }
  apply Forall_cons in Hl as [Hp _]. repeat (case_match; try done).
Qed.

Lemma normalize_relative_join l : Forall (λ n, entry_name n = true) l → normalize_relative_path (join l) = join l.
Proof.
  intros Hl. unfold normalize_relative_path. rewrite os_components_join by done.
  pose proof (entry_names_segments l Hl) as Hs. rewrite collapse_fixed by by apply join_no_double. by apply trim_slashes_join.
Qed.

(** ** Where a rule applies *)

(** The directory [base] is [top] or below it. *)
Definition at_or_below (base top : string) : Prop :=
  top = "" ∨ base = top ∨ ∃ rest, base = top +:+ "/" +:+ rest.

(** A rule of [base] looks at [path]: the directory is above it. *)
Definition concerns (path : string) (rule : IgnoreRule) : bool := is_some (rule_target rule path).

Lemma concerns_spec path rule : concerns path rule = true ↔
  ir_base rule = "" ∨ ∃ rest, path = ir_base rule +:+ "/" +:+ rest.
Proof.
  unfold concerns, rule_target. destruct (String.eqb_spec (ir_base rule) "") as [->|Hne]; [naive_solver|]. split.
  - destruct (strip_prefix (ir_base rule) path) as [r|] eqn:E; [|done]. cbn [mbind option_bind].
    destruct (strip_prefix "/" r) as [r'|] eqn:E'; [|done]. intros _.
    apply strip_prefix_Some in E, E'. right. exists r'. by rewrite E, E'.
  - intros [?|[rest ->]]; [done|]. rewrite strip_prefix_app. cbn [mbind option_bind]. by rewrite strip_prefix_app.
Qed.

Lemma rule_matches_concerns path rule : rule_matches rule path = true → concerns path rule = true.
Proof. unfold rule_matches, concerns. by destruct (rule_target rule path). Qed.

Lemma find_filter {A} (f g : A → bool) l : (∀ x, f x = true → g x = true) → List.find f (List.filter g l) = List.find f l.
Proof.
  intros Hfg. induction l as [|x l IH]; [done|]. cbn. destruct (g x) eqn:Eg; cbn; rewrite IH; [done|].
  destruct (f x) eqn:Ef; [|done]. by rewrite Hfg in Eg.
Qed.

Lemma filter_reverse {A} (g : A → bool) (l : list A) : List.filter g (reverse l) = reverse (List.filter g l).
Proof.
  induction l as [|x l IH]; [done|]. rewrite reverse_cons, List.filter_app, IH. cbn [List.filter].
  destruct (g x); [by rewrite reverse_cons|]. by rewrite app_nil_r.
Qed.

(** Only the rules of the directories above a path matter to it. *)
Lemma match_rule_concerns path p q : List.filter (concerns path) (up_rules p) = List.filter (concerns path) (up_rules q) →
  match_rule p path = match_rule q path.
Proof.
  intros He. unfold match_rule. rewrite <- (find_filter _ (concerns path) (reverse (up_rules p))) by apply rule_matches_concerns.
  rewrite <- (find_filter _ (concerns path) (reverse (up_rules q))) by apply rule_matches_concerns.
  by rewrite !filter_reverse, He.
Qed.

Lemma classify_concerns facts p q :
  List.filter (concerns (normalize_relative_path (pa_relative_path facts))) (up_rules p)
    = List.filter (concerns (normalize_relative_path (pa_relative_path facts))) (up_rules q) →
  classify_path facts p = classify_path facts q.
Proof. intros He. unfold classify_path. by rewrite (match_rule_concerns _ p q He). Qed.

(** ** The rules a load collects *)

Lemma at_or_below_refl top : at_or_below top top.
Proof. by right; left. Qed.

Lemma at_or_below_trans a b c : at_or_below a b → at_or_below b c → at_or_below a c.
Proof.
  intros [->|[->|[r ->]]] Hbc; [|done|].
  - destruct Hbc as [->|[<-|[r' Hr]]]; [by left|by left|]. by destruct c.
  - destruct Hbc as [->|[->|[r' ->]]]; [by left|by right; right; eexists|].
    right; right. exists (r' +:+ "/" +:+ r). by rewrite !str_app_assoc.
Qed.

Lemma child_path_below rel name : at_or_below (child_path rel name) rel.
Proof.
  unfold child_path. destruct (String.eqb_spec rel "") as [->|]; [by left|]. right; right. by exists name.
Qed.

Lemma read_rules_base base contents rule : In rule (read_ignore_rules base contents) → ir_base rule = base.
Proof.
  unfold read_ignore_rules. destruct contents as [contents|]; [|done]. rewrite <- list_elem_of_In.
  intros (line & _ & Hp)%list_elem_of_omap. unfold parse_rule in Hp. repeat case_match; by simplify_eq.
Qed.

Lemma collect_base descend d : ∀ rel rule, In rule (collect_ignore_rules rel descend d) → at_or_below (ir_base rule) rel.
Proof.
  induction d as [marker listable entries IH] using PolicyDir_induction. intros rel rule. cbn [collect_ignore_rules].
  rewrite in_app_iff. intros [->%read_rules_base|Hin]; [apply at_or_below_refl|]. destruct listable; [|done].
  apply in_flat_map in Hin as ([[name listed] target] & He & Hin). destruct listed, target as [child|]; try done.
  destruct (skipped_name name); [done|]. destruct (descend _); [|done].
  rewrite List.Forall_forall in IH. apply (IH _ He) in Hin. eapply at_or_below_trans; [exact Hin|apply child_path_below].
Qed.

Lemma filter_none {A} (f : A → bool) l : (∀ x, In x l → f x = false) → List.filter f l = [].
Proof. intros Hl. induction l as [|x l IH]; [done|]. cbn. rewrite Hl by by left. apply IH. intros y Hy. apply Hl. by right. Qed.

Lemma filter_flat_map {A B} (f : B → bool) (g : A → list B) l :
  List.filter f (List.flat_map g l) = List.flat_map (λ x, List.filter f (g x)) l.
Proof. induction l as [|x l IH]; [done|]. cbn. by rewrite List.filter_app, IH. Qed.

Lemma flat_map_ext_in {A B} (f g : A → list B) l : (∀ x, In x l → f x = g x) → List.flat_map f l = List.flat_map g l.
Proof. intros Hl. induction l as [|x l IH]; [done|]. cbn. rewrite Hl by by left. rewrite IH; [done|]. intros y Hy. apply Hl. by right. Qed.

Lemma flat_map_nil {A B} (f : A → list B) l : (∀ x, In x l → f x = []) → List.flat_map f l = [].
Proof. intros Hl. induction l as [|x l IH]; [done|]. cbn. rewrite Hl by by left. apply IH. intros y Hy. apply Hl. by right. Qed.

(** A rule of [top] or below looks only at paths below [top]. *)
Lemma concerns_below top path rule : top ≠ "" → at_or_below (ir_base rule) top → concerns path rule = true →
  ∃ rest, path = top +:+ "/" +:+ rest.
Proof.
  intros Hne Hb Hc. apply concerns_spec in Hc as [Hc|[rest ->]].
  - rewrite Hc in Hb. destruct Hb as [?|[?|[r Hr]]]; [done..|]. by destruct top.
  - destruct Hb as [?|[->|[r ->]]]; [done|by exists rest|]. exists (r +:+ "/" +:+ rest). by rewrite !str_app_assoc.
Qed.

Lemma child_path_ne rel name : nonempty name = true → child_path rel name ≠ "".
Proof.
  intros Hn. unfold child_path. destruct (String.eqb_spec rel "") as [->|Hr]; [by destruct name|]. by destruct rel.
Qed.

(** A load that enters every directory above [path] finds its rules. *)
Lemma collect_scoped path descend d :
  (∀ top, top ≠ "" → (∃ rest, path = top +:+ "/" +:+ rest) → descend top = true) →
  well_named d = true → ∀ rel,
  List.filter (concerns path) (collect_ignore_rules rel descend d)
    = List.filter (concerns path) (collect_ignore_rules rel (λ _, true) d).
Proof.
  intros Hd. induction d as [marker listable entries IH] using PolicyDir_induction. intros Hw rel.
  cbn [collect_ignore_rules]. rewrite !List.filter_app. f_equal. destruct listable; [|done].
  rewrite !filter_flat_map. apply flat_map_ext_in. intros [[name listed] target] He.
  cbn [well_named] in Hw. rewrite forallb_forall in Hw. specialize (Hw _ He). cbn in Hw.
  apply andb_true_iff in Hw as [Hn%entry_name_segment Hw].
  destruct listed, target as [child|]; try done. destruct (skipped_name name); [done|].
  rewrite List.Forall_forall in IH. specialize (IH _ He Hw). cbn in IH.
  destruct (descend (child_path rel name)) eqn:Ed; [apply IH|]. symmetry. apply filter_none. intros rule Hr.
  destruct (concerns path rule) eqn:Hc; [|done]. apply collect_base in Hr.
  pose proof (child_path_ne rel name (proj2 Hn)) as Hne. rewrite (Hd _ Hne) in Ed; [done|]. by eapply concerns_below.
Qed.

(** ** Text prefixes *)

Lemma starts_with_spec p s : starts_with p s = true ↔ ∃ rest, s = p +:+ rest.
Proof.
  unfold starts_with. split.
  - destruct (strip_prefix p s) as [r|] eqn:E; [|done]. intros _. exists r. by apply strip_prefix_Some.
  - intros [r ->]. by rewrite strip_prefix_app.
Qed.

(** Two prefixes of one text are comparable. *)
Lemma prefixes_comparable a b x y : a +:+ x = b +:+ y → (∃ r, b = a +:+ r ∧ x = r +:+ y) ∨ (∃ r, a = b +:+ r ∧ y = r +:+ x).
Proof.
  revert b. induction a as [|c a IH]; intros b He; [left; by exists b|].
  destruct b as [|c' b]; [right; by exists (String c a)|]. rewrite !str_app_cons in He. injection He as -> He.
  destruct (IH b He) as [(r & -> & ->)|(r & -> & ->)]; [left|right]; by exists r.
Qed.

(** Two directories above one path are comparable. *)
Lemma comparable_dirs a b x y : a +:+ "/" +:+ x = b +:+ "/" +:+ y →
  a = b ∨ (∃ r, b = a +:+ "/" +:+ r) ∨ ∃ r, a = b +:+ "/" +:+ r.
Proof.
  intros He. destruct (prefixes_comparable _ _ _ _ He) as [([|c r] & -> & Hr)|([|c r] & -> & Hr)]; rewrite ?str_app_nil_r.
  all: try by left.
  - right; left. injection Hr as <- _. by exists r.
  - right; right. injection Hr as <- _. by exists r.
Qed.

Lemma leads_below top dirty path dirty_roots : dirty ∈ dirty_roots →
  path = dirty ∨ (∃ rest, path = dirty +:+ "/" +:+ rest) → (∃ rest, path = top +:+ "/" +:+ rest) →
  dir_leads_to_or_under_dirty top dirty_roots = true.
Proof.
  intros Hin Hp [rest Ht]. apply existsb_exists. exists dirty. split; [by apply list_elem_of_In, elem_of_elements|].
  rewrite !orb_true_iff, !starts_with_spec, String.eqb_eq. setoid_rewrite str_app_assoc.
  destruct Hp as [<-|[r Hr]]; [left; right; by exists rest|]. rewrite Ht in Hr.
  destruct (comparable_dirs _ _ _ _ Hr) as [->|[?|?]]; [by left; left|by left; right|by right].
Qed.

(** ** The way to one path *)

(** The load of the whole workspace enters the directories [parts], one below the other: each
    is listed in a directory that can be listed, once, as a directory, and is not skipped. *)
Fixpoint load_enters (parts : list string) (d : PolicyDir) : bool :=
  match parts with
  | [] => true
  | part :: parts =>
      pd_listable d && negb (skipped_name part)
      && match List.filter (λ entry, (entry.1.1 =? part)%string) (pd_entries d) with
         | [(_, ListedDirectory, Some child)] => load_enters parts child
         | _ => false
         end
  end.

Lemma flat_map_filter {A B} (g : A → bool) (f : A → list B) l : (∀ x, In x l → g x = false → f x = []) →
  List.flat_map f l = List.flat_map f (List.filter g l).
Proof.
  intros Hf. induction l as [|x l IH]; [done|]. cbn. rewrite IH by (intros y Hy; apply Hf; by right).
  destruct (g x) eqn:E; [done|]. by rewrite (Hf x (or_introl eq_refl) E).
Qed.

Lemma omap_filter {A B} (g : A → bool) (f : A → option B) l : (∀ x, g x = false → f x = None) →
  omap f l = omap f (List.filter g l).
Proof.
  intros Hf. induction l as [|x l IH]; [done|]. cbn. destruct (g x) eqn:E; cbn; [by rewrite IH|]. by rewrite (Hf x E), IH.
Qed.

Lemma load_enters_child part parts d : load_enters (part :: parts) d = true → ∃ name child,
  pd_listable d = true ∧ skipped_name part = false ∧ load_enters parts child = true ∧
  List.filter (λ entry, (entry.1.1 =? part)%string) (pd_entries d) = [(name, ListedDirectory, Some child)] ∧
  name = part ∧ named_child part d = Some child.
Proof.
  cbn [load_enters]. rewrite !andb_true_iff, negb_true_iff. intros [[Hl Hs] He].
  destruct (List.filter _ (pd_entries d)) as [|[[name []] [child|]] []] eqn:Ef; try done. exists name, child.
  assert (name = part) as ->.
  { assert (In (name, ListedDirectory, Some child) (pd_entries d) ∧ (name =? part)%string = true) as [_ Hn%String.eqb_eq]; [|done].
    apply (filter_In (λ entry, (entry.1.1 =? part)%string)). rewrite Ef. by left. }
  split_and!; try done. unfold named_child.
  rewrite (omap_filter (λ entry, (entry.1.1 =? part)%string)); [|intros [[n ?] ?]; cbn; by intros ->].
  rewrite Ef. cbn. by rewrite String.eqb_refl.
Qed.

Lemma child_path_join pre n : Forall segment pre → child_path (join pre) n = join (pre ++ [n]).
Proof.
  intros Hp. unfold child_path. destruct (String.eqb_spec (join pre) "") as [He|Hne].
  - by rewrite (join_nil pre).
  - rewrite join_below by (by intros ->). done.
Qed.

Lemma join_inside pre l rest : Forall segment pre → pre ≠ [] → Forall segment l → l ≠ [] →
  join l = join pre +:+ "/" +:+ rest → ∃ l', l = (pre ++ l')%list ∧ l' ≠ [].
Proof.
  intros Hp Hne Hl Hle He. exists (split slash rest). split; [|apply split_nil].
  rewrite <- split_join_app, <- He by done. symmetry. apply split_join; [done|]. eapply Forall_impl; [exact Hl|by intros ? []].
Qed.

(** The rules below a directory look only at paths below it. *)
Lemma collect_elsewhere pre n descend d path : Forall segment pre → segment n → Forall segment path → path ≠ [] →
  (¬ ∃ l', path = (pre ++ n :: l')%list ∧ l' ≠ []) →
  List.filter (concerns (join path)) (collect_ignore_rules (join (pre ++ [n])) descend d) = [].
Proof.
  intros Hp Hn Hpath Hne Hno. apply filter_none. intros rule Hr%collect_base.
  destruct (concerns (join path) rule) eqn:Hc; [|done]. destruct Hno.
  assert (Forall segment (pre ++ [n])%list) as Hpn by by rewrite Forall_app, Forall_singleton.
  assert ((pre ++ [n])%list ≠ []) as Hpne by by destruct pre.
  destruct (concerns_below _ _ _ (join_ne _ Hpn Hpne) Hr Hc) as [rest He].
  destruct (join_inside _ _ _ Hpn Hpne Hpath Hne He) as (l' & -> & Hl'). exists l'. by rewrite <- app_assoc.
Qed.

Lemma read_concerns pre path contents : Forall segment pre →
  (∃ l', path = (pre ++ l')%list ∧ l' ≠ []) →
  List.filter (concerns (join path)) (read_ignore_rules (join pre) contents) = read_ignore_rules (join pre) contents.
Proof.
  intros Hp (l' & -> & Hl'). apply filter_all, List.Forall_forall. intros rule Hr%read_rules_base. apply concerns_spec.
  rewrite Hr. destruct (decide (pre = [])) as [->|Hne]; [by left|right]. destruct l' as [|n l']; [done|].
  exists (join (n :: l')). by apply join_below.
Qed.

Lemma well_named_entry marker listable entries name listed target :
  well_named (MkPolicyDir marker listable entries) = true → In (name, listed, target) entries →
  segment name ∧ ∀ child, target = Some child → well_named child = true.
Proof.
  cbn [well_named]. rewrite forallb_forall. intros Hw Hin. specialize (Hw _ Hin). cbn in Hw.
  apply andb_true_iff in Hw as [Hn%entry_name_segment Hw]. split; [done|]. by intros child ->.
Qed.

Lemma not_nil_snoc {A} (l : list A) x : (l ++ [x])%list ≠ [].
Proof. by destruct l. Qed.

(** The rules about [pre ++ parts ++ [name]] in the directory [pre]. *)
Lemma collect_on_the_way name parts : ∀ pre d, Forall segment pre → Forall segment parts → segment name →
  well_named d = true → load_enters parts d = true →
  List.filter (concerns (join (pre ++ parts ++ [name]))) (collect_ignore_rules (join pre) (λ _, true) d)
    = (read_ignore_rules (join pre) (pd_marker d) ++ read_on_the_way (join pre) (Some d) parts)%list.
Proof.
  induction parts as [|part parts IH]; intros pre [marker listable entries] Hpre Hparts Hname Hw He;
    cbn [collect_ignore_rules pd_marker]; rewrite List.filter_app, read_concerns
      by (done || (eexists; split; [done|apply not_nil_snoc])); f_equal.
  - cbn [read_on_the_way]. destruct listable; [|done]. rewrite filter_flat_map. apply flat_map_nil.
    intros [[n listed] target] Hin. destruct (well_named_entry _ _ _ _ _ _ Hw Hin) as [Hn _].
    destruct listed, target as [child|]; try done. destruct (skipped_name n); [done|]. rewrite child_path_join by done.
    apply collect_elsewhere; [done..|by apply Forall_app; split; [|by constructor]|by destruct pre|].
    intros (l' & Heq & Hl'). cbn in Heq. apply app_inv_head in Heq. destruct l'; [done|]. by simplify_eq.
  - apply Forall_cons in Hparts as [Hpart Hparts]. apply load_enters_child in He as (n & child & Hl & Hs & He & Hf & -> & Hc).
    cbn [read_on_the_way]. cbn [mbind option_bind]. rewrite Hc. cbn [pd_listable pd_entries] in *. subst listable.
    rewrite child_path_join by done. rewrite filter_flat_map.
    rewrite (flat_map_filter (λ entry, (entry.1.1 =? part)%string)).
    + rewrite Hf. cbn [List.flat_map]. rewrite Hs, app_nil_r, child_path_join by done.
      assert (In (part, ListedDirectory, Some child) entries) as Hin
        by (apply (filter_In (λ entry, (entry.1.1 =? part)%string)); rewrite Hf; by left).
      destruct (well_named_entry _ _ _ _ _ _ Hw Hin) as [_ Hwc].
      specialize (IH (pre ++ [part])%list child). rewrite <- app_assoc in IH. apply IH; [|done|done|by apply Hwc|done].
      by rewrite Forall_app, Forall_singleton.
    + intros [[n listed] target] Hin Hne. cbn in Hne. destruct (well_named_entry _ _ _ _ _ _ Hw Hin) as [Hn _].
      destruct listed, target as [child'|]; try done. destruct (skipped_name n); [done|]. rewrite child_path_join by done.
      apply collect_elsewhere; [done..| |by destruct pre|].
      * apply Forall_app; split; [done|]. constructor; [done|]. apply Forall_app; split; [done|by constructor].
      * intros (l' & Heq & Hl'). apply app_inv_head in Heq. injection Heq as Heq _. by apply String.eqb_neq in Hne.
Qed.

Lemma parent_parts_join parts name : Forall (λ n, entry_name n = true) (parts ++ [name]) →
  parent_parts (join (parts ++ [name])) = parts.
Proof.
  intros Hl. unfold parent_parts. rewrite os_components_join, List.removelast_last by done. apply filter_all.
  apply Forall_app in Hl as [Hl _]. eapply Forall_impl; [exact Hl|]. intros n. unfold entry_name.
  rewrite !andb_true_iff, !negb_true_iff. intros [[_ Hs] Hd]. cbn in Hd |- *. rewrite Hd, orb_false_r.
  destruct (String.eqb_spec n "/") as [->|]; done.
Qed.

Lemma filter_idem {A} (f : A → bool) l : List.filter f (List.filter f l) = List.filter f l.
Proof. induction l as [|x l IH]; [done|]. cbn. destruct (f x) eqn:E; cbn; [by rewrite E, IH|done]. Qed.

(** The policy loaded for one path classifies it as the policy of the whole workspace does,
    where the whole load enters every directory above the path: no directory on the way is
    unlistable, listed twice, a link, or one of the names the load skips. *)
Lemma path_load_exact root parts name facts :
  well_named root = true → Forall (λ n, entry_name n = true) (parts ++ [name]) →
  pa_relative_path facts = join (parts ++ [name]) → load_enters parts root = true →
  classify_path facts (load_for_path root (pa_relative_path facts)) = classify_path facts (load root).
Proof.
  intros Hw Hn Hf He. apply classify_concerns. rewrite Hf, normalize_relative_join by done.
  pose proof (entry_names_segments _ Hn) as Hs. apply Forall_app in Hs as [Hs Hsn]. rewrite Forall_singleton in Hsn.
  pose proof (collect_on_the_way name parts [] root) as Hc. cbn [app] in Hc. cbn [up_rules load].
  unfold load_for_path. cbn [up_rules]. rewrite parent_parts_join by done. change (join []) with "" in Hc.
  rewrite <- Hc by done. apply filter_idem.
Qed.

(** ** Properties *)

(** C24: A policy loaded for dirty subtrees classifies every path at or below one of them as a
    load of the whole workspace does, whatever the rules and their order: a directory the
    scoped load does not enter holds no rule about these paths. *)
Theorem scoped_load_exact root dirty_roots dirty facts :
  well_named root = true → dirty ∈ dirty_roots →
  let path := normalize_relative_path (pa_relative_path facts) in
  path = dirty ∨ (∃ rest, path = dirty +:+ "/" +:+ rest) →
  classify_path facts (load_scoped root dirty_roots) = classify_path facts (load root).
Proof.
  intros Hw Hin path Hp. apply classify_concerns. unfold load_scoped. destruct (existsb _ _); [done|].
  cbn [up_rules load]. apply collect_scoped; [|done]. intros top Hne Htop. by eapply leads_below.
Qed.
