(* ===== verification/PolicyReach.v ===== *)
(** * Path policy: what a walk reaches

    A walk asks the policy which directories to enter, the watcher which paths to record.  Here
    is what both rest on: the built-in classes hold whatever the rules say, and a path that
    syncs lies in directories the walk enters, if no rule excludes such a directory and the
    anchored include rules have no wildcards. *)

From Stdlib Require Import Ascii.
From S2P Require Import Prelude.
From S2P Require Import Glob.
From S2P Require Import Policy.
From S2P Require Import PolicyLoad.
From S2P Require Import Asides.
From S2P Require Import PolicyTheorems.
From S2P Require Import Paths.

(** ** Paths outside [.git] *)

Lemma split_at_slash a b : split slash (a +:+ "/" +:+ b) = (split slash a ++ split slash b)%list.
Proof.
  induction a as [|c a IH]; [done|]. rewrite str_app_cons, !split_cons_char, IH.
  destruct (Ascii.eqb c slash); [done|]. pose proof (split_nil slash a). by destruct (split slash a).
Qed.

Lemma strip_suffix_Some p s r : strip_suffix p s = Some r → s = r +:+ p.
Proof.
  revert r. induction s as [|c s IH]; intros r; cbn [strip_suffix].
  - destruct (String.eqb_spec "" p) as [<-|]; [|done]. by intros [= <-].
  - destruct (String.eqb_spec (String c s) p) as [<-|]; [by intros [= <-]|].
    destruct (strip_suffix p s) as [r'|] eqn:E; [|done]. intros [= <-]. by rewrite str_app_cons, <- (IH r').
Qed.

Lemma str_in_spec x l : str_in x l = true ↔ x ∈ l.
Proof.
  unfold str_in. rewrite existsb_exists. setoid_rewrite <- list_elem_of_In. split.
  - by intros (y & Hy & ->%String.eqb_eq).
  - intros Hx. exists x. by rewrite String.eqb_refl.
Qed.

Lemma git_path_part l : l ≠ [] → Forall segment l → is_Some (classify_git_path (join l)) → ".git" ∈ l.
Proof.
  intros Hne Hl. rewrite <- (split_join l) at 2; [|done|eapply Forall_impl; [exact Hl|by intros ? []]].
  generalize (join l) as path. clear. intros path. unfold classify_git_path, is_git_directory_path.
  destruct (String.eqb_spec path ".git") as [->|_]; [by set_solver|]. cbn [orb].
  unfold ends_with. destruct (strip_suffix "/.git" path) as [a|] eqn:Es.
  { apply strip_suffix_Some in Es as ->. change (a +:+ "/.git") with (a +:+ "/" +:+ ".git"). rewrite split_at_slash. set_solver. }
  cbn [is_some]. unfold git_tail_path. destruct (strip_prefix ".git/" path) as [t|] eqn:Ep.
  { apply strip_prefix_Some in Ep as ->. change (".git/" +:+ t) with (".git" +:+ "/" +:+ t). rewrite split_at_slash. set_solver. }
  destruct (split_once "/.git/" path) as [[a b]|] eqn:Eo; [|by intros []].
  apply split_once_Some in Eo as ->. intros _.
  change (a +:+ "/.git/" +:+ b) with (a +:+ "/" +:+ (".git" +:+ "/" +:+ b)). rewrite !split_at_slash. set_solver.
Qed.

Lemma after_git_part l : is_Some (after_git l) → ".git" ∈ l.
Proof.
  induction l as [|c l IH]; [by intros []|]. cbn. destruct (String.eqb_spec c ".git") as [->|]; set_solver.
Qed.

Lemma worktree_link_part l : Forall segment l → worktree_link_file (join l) = true → ".git" ∈ l.
Proof.
  intros Hl. unfold worktree_link_file, is_worktree_gitlink_file, is_worktree_admin_pointer, git_tail_components.
  rewrite components_join by done. intros [Hb|Ha]%orb_true_iff.
  - apply bool_decide_eq_true in Hb. by apply last_Some_elem_of in Hb.
  - apply after_git_part. by destruct (after_git l).
Qed.

(** ** The built-in classes of a path outside [.git] *)

Definition temp_or_work (parts : list string) : bool :=
  is_materialization_temp_path parts || str_in ".work" parts.
Definition rebuilt (parts : list string) : bool := is_dependency_path parts || is_generated_path parts.

(** Neither class syncs, and both prune. *)
Definition hidden (heuristics : NameHeuristics) (parts : list string) : bool :=
  temp_or_work parts || match heuristics with Applied => rebuilt parts | Waived => false end.

Lemma work_view_join l : l ≠ [] → Forall (λ n, entry_name n = true) l → is_work_view_namespace_path (join l) = str_in ".work" l.
Proof.
  intros Hne Hl. unfold is_work_view_namespace_path. rewrite normalize_relative_join by done.
  rewrite split_join; [done..|]. eapply Forall_impl; [exact Hl|]. by intros n [? _]%entry_name_segment.
Qed.

Lemma builtin_outside_git l is_dir len heuristics : l ≠ [] → Forall (λ n, entry_name n = true) l → ".git" ∉ l →
  let decision := classify_builtin (join l) is_dir len heuristics in
  policy_prunes_subtree decision = hidden heuristics l ∧ policy_syncs_workspace_state decision = negb (hidden heuristics l).
Proof.
  intros Hne Hl Hg. pose proof (entry_names_segments l Hl) as Hs. unfold classify_builtin, hidden, temp_or_work, rebuilt.
  rewrite components_join, work_view_join by done.
  destruct (is_materialization_temp_path l); [done|]. destruct (str_in ".work" l); [done|]. cbn [orb].
  assert (is_portable_git_worktree_link_policy_path (join l) is_dir = false) as ->.
  { unfold is_portable_git_worktree_link_policy_path. destruct (worktree_link_file (join l)) eqn:E; [|by rewrite andb_false_r].
    by apply worktree_link_part in E. }
  assert (is_git_transient_path l = false) as ->.
  { apply bool_decide_eq_false_2. intros He. apply Hg, git_path_part; [done..|by eexists]. }
  assert (str_in ".git" l = false) as -> by (apply not_true_is_false; by rewrite str_in_spec).
  unfold generated_classification, generated_mode.
  destruct heuristics; cbn [andb]; [destruct (is_dependency_path l); [done|]; destruct (is_generated_path l); [by destruct (has_cache_part l)|]|];
    repeat case_match; done.
Qed.

(** ** Anchored rules without wildcards *)

Definition literal_text (s : string) : bool := literal (String.list_ascii_of_string s).

(** An anchored include rule has no wildcard. *)
Definition literal_include (rule : IgnoreRule) : bool :=
  negb (ir_include rule && ir_anchored_to_base rule) || literal_text (trim_slashes (ir_pattern rule)).

(** A rule a loader makes in a directory of a well-named tree. *)
Definition loaded_rule (rule : IgnoreRule) : Prop :=
  ∃ l source include pattern, Forall segment l ∧ rule = rule_of (join l) source include pattern.

Lemma collect_loaded descend d : ∀ pre rule, well_named d = true → Forall segment pre →
  In rule (collect_ignore_rules (join pre) descend d) → loaded_rule rule.
Proof.
  induction d as [marker listable entries IH] using PolicyDir_induction. intros pre rule Hw Hpre.
  cbn [collect_ignore_rules]. rewrite in_app_iff. intros [Hr|Hin].
  - unfold read_ignore_rules in Hr. destruct marker as [contents|]; [|done]. rewrite <- list_elem_of_In in Hr.
    apply list_elem_of_omap in Hr as (line & _ & Hp). unfold parse_rule in Hp.
    repeat case_match; simplify_eq; by repeat eexists.
  - destruct listable; [|done]. apply in_flat_map in Hin as ([[name listed] target] & He & Hin).
    destruct (well_named_entry _ _ _ _ _ _ Hw He) as [Hn Hwc].
    destruct listed, target as [child|]; try done. destruct (skipped_name name); [done|]. destruct (descend _); [|done].
    rewrite child_path_join in Hin by done. rewrite List.Forall_forall in IH.
    eapply (IH _ He); [by apply Hwc| |exact Hin]. by apply Forall_app; split; [|by constructor].
Qed.

(** The path of [target] seen from the directory [base]. *)
Definition placed (base target : string) : string := if (base =? "")%string then target else base +:+ "/" +:+ target.

Lemma placed_below base t u : placed base (t +:+ "/" +:+ u) = placed base t +:+ "/" +:+ u.
Proof. unfold placed. destruct (base =? "")%string; [done|]. by rewrite !str_app_assoc. Qed.

Lemma rule_target_placed rule path t : rule_target rule path = Some t ↔ path = placed (ir_base rule) t.
Proof.
  unfold rule_target, placed. destruct (String.eqb_spec (ir_base rule) "") as [_|Hne]; [naive_solver|]. split.
  - destruct (strip_prefix (ir_base rule) path) as [r|] eqn:E; [|done]. cbn [mbind option_bind]. intros E'.
    apply strip_prefix_Some in E, E'. by rewrite E, E'.
  - intros ->. rewrite strip_prefix_app. cbn [mbind option_bind]. by rewrite strip_prefix_app.
Qed.

Lemma bytes_app a b : String.list_ascii_of_string (a +:+ b) = (String.list_ascii_of_string a ++ String.list_ascii_of_string b)%list.
Proof. induction a as [|c a IH]; [done|]. rewrite str_app_cons. cbn. by rewrite IH. Qed.

Lemma bytes_inj a b : String.list_ascii_of_string a = String.list_ascii_of_string b → a = b.
Proof. intros He. rewrite <- (String.string_of_list_ascii_of_string a), He. apply String.string_of_list_ascii_of_string. Qed.

Lemma glob_literal q t : literal_text q = true → glob_matches q t = true → t = q.
Proof.
  intros Hq. rewrite glob_matches_spec. intros [_ Hm]%andb_true_iff. apply bytes_inj. by apply gmatch_literal.
Qed.

Lemma glob_below q t : literal_text q = true → glob_matches (q +:+ "/**") t = true ↔
  (String.length (q +:+ "/**") ≤ MAX_GLOB_MATCH_BYTES ∧ String.length t ≤ MAX_GLOB_MATCH_BYTES)%nat ∧ ∃ u, t = q +:+ "/" +:+ u.
Proof.
  intros Hq. rewrite glob_matches_spec, andb_true_iff, bool_decide_eq_true. apply and_iff_compat_l. unfold glob_spec.
  rewrite bytes_app. change (String.list_ascii_of_string "/**") with [slash_byte; star_byte; star_byte].
  rewrite gmatch_literal_below by done. split.
  - intros [u Hu]. exists (String.string_of_list_ascii u). apply bytes_inj. rewrite !bytes_app, Hu.
    by rewrite String.list_ascii_of_string_of_list_ascii.
  - intros [u ->]. exists (String.list_ascii_of_string u). by rewrite !bytes_app.
Qed.

Lemma full_pattern_placed l source include pattern : Forall segment l →
  let rule := rule_of (join l) source include pattern in
  full_rule_pattern rule = placed (ir_base rule) (trim_slashes (ir_pattern rule)).
Proof. intros Hl. unfold full_rule_pattern, placed. cbn [rule_of ir_base]. by rewrite trim_slashes_join. Qed.

(** Such a rule matches its own path or everything below it. *)
Lemma literal_rule_matches rule path : loaded_rule rule → ir_anchored_to_base rule = true →
  literal_text (trim_slashes (ir_pattern rule)) = true → rule_matches rule path = true →
  let full := full_rule_pattern rule in
  path = full ∨ ∃ u, path = full +:+ "/" +:+ u ∧
    ∀ u', (String.length u' ≤ String.length u)%nat → rule_matches rule (full +:+ "/" +:+ u') = true.
Proof.
  intros (l & source & include & pattern & Hl & ->) Ha Hq Hm. rewrite (full_pattern_placed _ _ _ _ Hl).
  revert Ha Hq Hm. set (rule := rule_of (join l) source include pattern). set (q := trim_slashes (ir_pattern rule)).
  intros Ha Hq. unfold rule_matches. destruct (rule_target rule path) as [t|] eqn:Et; [|done].
  apply rule_target_placed in Et as ->. intros (candidate & Hin & Hg)%existsb_exists.
  assert (In candidate [q] ∨ candidate = q +:+ "/**" ∧ In candidate (ir_candidates rule)) as [Hc|[-> Hc]].
  { subst q rule. cbn [rule_of ir_anchored_to_base ir_pattern ir_candidates] in *. rewrite Ha in *. unfold matching_patterns in *.
    destruct (_ =? "")%string; [done|]. destruct (ends_with "/" pattern); [|by left].
    destruct Hin as [<-|[<-|[]]]; [left; by left|]. right. split; [done|]. right. by left. }
  - destruct Hc as [<-|[]]. left. by rewrite (glob_literal _ _ Hq Hg).
  - right. apply glob_below in Hg as [[Hlp Hlt] [u ->]]; [|done]. exists u. split; [apply placed_below|]. intros u' Hu.
    assert (rule_target rule (placed (ir_base rule) q +:+ "/" +:+ u') = Some (q +:+ "/" +:+ u')) as ->
      by (apply rule_target_placed; by rewrite placed_below).
    apply existsb_exists. exists (q +:+ "/**"). split; [done|]. apply glob_below; [done|]. split; [|by exists u'].
    split; [done|]. rewrite !str_length_app in *. cbn in *. lia.
Qed.

(** ** The directories above a path *)

Lemma hidden_app heuristics l l' : hidden heuristics l = true → hidden heuristics (l ++ l') = true.
Proof.
  unfold hidden, temp_or_work, rebuilt, is_materialization_temp_path, is_dependency_path, is_generated_path, str_in.
  rewrite !existsb_app. intros H. destruct heuristics; repeat (apply orb_true_iff in H as [H|H]); try done;
    rewrite H, ?orb_true_r; try done; cbn [orb]; rewrite ?orb_true_r; done.
Qed.

Lemma hidden_waived l : hidden Waived l = true → hidden Applied l = true.
Proof. unfold hidden. rewrite orb_false_r. by intros ->. Qed.

(** A rule that syncs a path and waives the name lists is an include rule. *)
Lemma synced_hidden rule l facts : l ≠ [] → Forall (λ n, entry_name n = true) l → ".git" ∉ l →
  policy_syncs_workspace_state (apply_rule rule (join l) facts) = true →
  hidden Waived l = false ∧ (hidden Applied l = true → ∃ r, rule = Some r ∧ ir_include r = true).
Proof.
  intros Hne Hl Hg. unfold apply_rule.
  destruct (builtin_outside_git l (pa_is_dir facts) (pa_byte_len facts) Applied) as [_ Ha]; [done..|].
  destruct (builtin_outside_git l (pa_is_dir facts) (pa_byte_len facts) Waived) as [_ Hw]; [done..|].
  pose proof (hidden_waived l) as Himp.
  destruct rule as [r|]; [destruct (ir_include r) eqn:Er|].
  - rewrite Hw, negb_true_iff. intros ->. split; [done|]. intros _. by exists r.
  - destruct (preserves_safety_classification _); [|done]. rewrite Ha, negb_true_iff. intros Hh.
    split; [|by rewrite Hh]. destruct (hidden Waived l); [by rewrite Himp in Hh|done].
  - rewrite Ha, negb_true_iff. intros Hh. split; [|by rewrite Hh]. destruct (hidden Waived l); [by rewrite Himp in Hh|done].
Qed.

Lemma include_below_spec policy rule path : In rule (up_rules policy) → ir_include rule = true →
  (ir_anchored_to_base rule = true → full_rule_pattern rule = normalize_relative_path path
     ∨ ∃ r, full_rule_pattern rule = normalize_relative_path path +:+ "/" +:+ r) →
  has_include_below policy path = true.
Proof.
  intros Hin Hi Ha. unfold has_include_below. apply existsb_exists. exists rule. split; [done|]. rewrite Hi. cbn [negb].
  destruct (ir_anchored_to_base rule); [|done]. cbn [negb]. rewrite orb_true_iff, String.eqb_eq, starts_with_spec.
  destruct Ha as [?|[r Hr]]; [done|by left|]. right. exists r. by rewrite str_app_assoc.
Qed.

Lemma match_rule_In policy path rule : match_rule policy path = Some rule →
  In rule (up_rules policy) ∧ rule_matches rule path = true.
Proof.
  intros [Hin Hm]%find_some. split; [|done]. by rewrite <- list_elem_of_In, elem_of_reverse, list_elem_of_In in Hin.
Qed.

Lemma match_rule_some policy path rule : In rule (up_rules policy) → rule_matches rule path = true →
  is_Some (match_rule policy path).
Proof.
  intros Hin Hm. destruct (match_rule policy path) as [r|] eqn:E; [by eexists|]. unfold match_rule in E.
  apply (find_none _ _) with (x := rule) in E; [congruence|]. by rewrite <- list_elem_of_In, elem_of_reverse, list_elem_of_In.
Qed.

(** An include rule that matches a path asks to enter the directories above it, or matches
    them too. *)
Lemma include_enters policy rule d b : loaded_rule rule → literal_include rule = true → ir_include rule = true →
  Forall (λ n, entry_name n = true) d → In rule (up_rules policy) →
  rule_matches rule (join d +:+ "/" +:+ b) = true →
  has_include_below policy (join d) = true ∨ rule_matches rule (join d) = true.
Proof.
  intros Hr Hlit Hi Hd Hin Hm. unfold literal_include in Hlit. rewrite Hi in Hlit. cbn [andb] in Hlit.
  destruct (ir_anchored_to_base rule) eqn:Ha.
  2:{ left. eapply include_below_spec; [done..|]. by rewrite Ha. }
  cbn [negb orb] in Hlit. pose proof (normalize_relative_join d Hd) as Hn.
  destruct (literal_rule_matches _ _ Hr Ha Hlit Hm) as [He|(u & He & Hall)].
  - left. eapply include_below_spec; [done..|]. intros _. rewrite Hn. right. by exists b.
  - destruct (comparable_dirs _ _ _ _ He) as [Hf|[Hf|[r Hf]]].
    + left. eapply include_below_spec; [done..|]. intros _. rewrite Hn. by left.
    + left. eapply include_below_spec; [done..|]. intros _. rewrite Hn. by right.
    + right. rewrite Hf. apply Hall. rewrite Hf in He. apply (f_equal String.length) in He.
      rewrite !str_length_app in He. cbn in He. lia.
Qed.

(** ** Safety classes *)

(** Waiving the name lists changes only what they decide. *)
Lemma waived_builtin path is_dir len : let base := classify_builtin path is_dir len Applied in
  match pd_classification base with
  | ClassGenerated | ClassDependency | ClassCache => True
  | _ => classify_builtin path is_dir len Waived = base
  end.
Proof.
  cbv zeta. unfold classify_builtin, generated_classification.
  repeat (case_match; try done); cbn [andb] in *; try done; repeat (case_match; try done); congruence.
Qed.

Lemma local_builtin path is_dir len h : pd_classification (classify_builtin path is_dir len h) = ClassLocalOnly →
  policy_syncs_workspace_state (classify_builtin path is_dir len h) = false.
Proof. unfold classify_builtin, generated_classification. repeat (case_match; try done). Qed.

(** ** Properties *)

(** C40: No rule weakens a safety class.  A path the built-in names make an environment file or
    secret-looking is treated as such whatever the rules say, a path they keep on the machine
    never syncs, and otherwise a rule can only ignore a path or, as an include, restore what the
    dependency and generated lists took away. *)
Theorem rules_respect_safety facts policy :
  let path := normalize_relative_path (pa_relative_path facts) in
  let builtin := classify_builtin path (pa_is_dir facts) (pa_byte_len facts) in
  let base := builtin Applied in
  let decision := classify_path facts policy in
  match pd_classification base with
  | ClassProjectEnv | ClassSecretLooking => decision = base
  | ClassLocalOnly => policy_syncs_workspace_state decision = false
  | _ => decision = base ∨ decision = ignored_decision ∧ match_rule policy path ≠ None
         ∨ decision = builtin Waived ∧ explicitly_includes policy (pa_relative_path facts) = true
  end.
Proof.
  cbv zeta. unfold classify_path, apply_rule, explicitly_includes.
  pose proof (waived_builtin (normalize_relative_path (pa_relative_path facts)) (pa_is_dir facts) (pa_byte_len facts)) as Hw.
  pose proof (local_builtin (normalize_relative_path (pa_relative_path facts)) (pa_is_dir facts) (pa_byte_len facts) Applied) as Hl.
  cbv zeta in Hw. destruct (match_rule policy _) as [r|]; [destruct (ir_include r) eqn:Ei|];
    destruct (pd_classification _) eqn:Ec; cbn [preserves_safety_classification is_some_and]; rewrite ?Hw; auto 6.
Qed.

(** C26: The policy of a workspace lets a walk reach what it syncs.  If a path outside [.git]
    syncs under the loaded rules, a walk enters each directory above it, unless a rule excludes
    this very directory or an anchored include rule has wildcards. *)
Theorem synced_path_reached root above below facts dir_len :
  let policy := load root in
  let path := join (above ++ below) in
  well_named root = true → above ≠ [] → below ≠ [] →
  Forall (λ n, entry_name n = true) (above ++ below) → ".git" ∉ above ++ below →
  pa_relative_path facts = path → policy_syncs_workspace_state (classify_path facts policy) = true →
  (∀ rule, match_rule policy (join above) = Some rule → ir_include rule = true) →
  forallb literal_include (up_rules policy) = true →
  let directory := {| pa_relative_path := join above; pa_is_dir := true; pa_byte_len := dir_len |} in
  policy_should_recurse (classify_path directory policy) policy (join above) = true.
Proof.
  intros policy path Hw Ha Hb Hn Hg Hf Hs Hd Hlit directory. unfold policy_should_recurse.
  destruct (has_include_below policy (join above)) eqn:Hinc; [done|]. cbn [orb].
  pose proof Hn as [Hna _]%Forall_app. assert (".git" ∉ above) as Hga by set_solver.
  unfold classify_path in *. cbn [pa_relative_path directory] in *. rewrite Hf in Hs. subst path.
  rewrite (normalize_relative_join (above ++ below)) in Hs by done. rewrite (normalize_relative_join above) by done.
  assert ((above ++ below)%list ≠ []) as Hne by by destruct above.
  destruct (synced_hidden _ _ _ Hne Hn Hg Hs) as [Hwaived Happlied].
  unfold apply_rule, directory. cbn [pa_is_dir pa_byte_len].
  destruct (builtin_outside_git above true dir_len Applied) as [Hpa _]; [done..|].
  destruct (builtin_outside_git above true dir_len Waived) as [Hpw _]; [done..|].
  destruct (match_rule policy (join above)) as [r|] eqn:Em.
  - rewrite (Hd r eq_refl), Hpw. destruct (hidden Waived above) eqn:Eh; [|done].
    by rewrite (hidden_app _ _ below Eh) in Hwaived.
  - rewrite Hpa. destruct (hidden Applied above) eqn:Eh; [|done]. exfalso.
    destruct (Happlied (hidden_app _ _ below Eh)) as (r & Hr & Hi). apply match_rule_In in Hr as [Hin Hm].
    assert (loaded_rule r) as Hlr by (eapply (collect_loaded _ root []); [done|by constructor|exact Hin]).
    rewrite forallb_forall in Hlit. destruct below as [|n below]; [done|]. rewrite join_below in Hm by done.
    destruct (include_enters policy r above (join (n :: below)) Hlr (Hlit _ Hin) Hi Hna Hin Hm) as [|Hma]; [congruence|].
    destruct (match_rule_some policy _ r Hin Hma) as [? ?]. congruence.
Qed.
