(* ===== verification/Disk.v ===== *)
(** * The workspace on disk

    The state the apply transaction changes, and the POSIX calls it changes it
    with.  The workspace tree is a map from canonical relative paths to objects; the
    engine's own directories — the staged temporaries of [recovery_dir()] and the
    preimages of [quarantine] — are maps of their own, because they are not part of
    the synchronized tree.

    Every fallible call first draws from [w_faults], so each theorem covers every
    pattern of I/O failures.  A path that runs through a symbolic link, or that is
    not in canonical form, is [Behind]: what the system shows there is the
    environment's answer, and a mutation there sets [w_escaped] — it would have
    written outside the workspace.  The tree is one volume, so a rename never answers
    [EXDEV]. *)

From S2P Require Import Prelude.
From S2P Require Import Paths.
From S2P Require Import ManifestTypes.
From S2P Require Import FsGuard.
Local Open Scope string_scope.
Open Scope Z_scope.

Record Stamp := {
  st_mtime : Z; st_mtime_nsec : Z; st_ctime : Z; st_ctime_nsec : Z; st_ino : Z; st_dev : Z;
}.

Inductive Object :=
| RegularFile (content : bytes) (mode : Z) (stamp : Stamp)
| DirectoryNode (mode : Z)
| SymbolicLink (target : option string)
| SpecialFile (mode : Z).

Inductive ScratchDir := ScratchAbsent | ScratchReady | ScratchBlocked.

Record World := {
  w_disk : gmap string Object;
  w_escaped : bool;
  w_recovery_dir : ScratchDir;
  w_temps : gmap string bytes;
  w_quarantine : gmap string bytes;
  w_faults : list (option IoError);
  w_tick : nat;
}.

#[export] Instance World_eta : Eta World :=
  λ w, Build_World (w_disk w) (w_escaped w) (w_recovery_dir w) (w_temps w) (w_quarantine w)
         (w_faults w) (w_tick w).

(** What the environment answers where the tree does not determine it. *)
Record Env := {
  (** the stamp of a file written or re-moded at a tick *)
  env_fresh : nat → Stamp;
  (** the stamp of anything that is not a regular file *)
  env_stamp : string → nat → Stamp;
  env_umask : Z;
  (** paths the process may not stat, or may not open *)
  env_unreadable : string → bool;
  env_unopenable : string → bool;
  (** [Path::exists] where it follows a link *)
  env_link_exists : string → bool;
  (** answers behind a symlinked directory *)
  env_behind : Os;
}.

(** [root.join(path)] relative to the root, split into the directories above. *)
Fixpoint proper_prefixes (walked names : list string) : list string :=
  match names with
  | [] => []
  | name :: rest =>
      match rest with
      | [] => []
      | _ => join (app walked [name]) :: proper_prefixes (app walked [name]) rest
      end
  end.

Definition parents (path : string) : list string := proper_prefixes [] (split slash path).

Definition canonical (path : string) : bool := forallb plain (split slash path).

Inductive Place := Here (object : option Object) | Behind | NoParent | NotDirectoryAbove.

Fixpoint descend (disk : gmap string Object) (above : list string) : option Place :=
  match above with
  | [] => None
  | directory :: above =>
      match disk !! directory with
      | Some (DirectoryNode _) => descend disk above
      | Some (SymbolicLink _) => Some Behind
      | Some _ => Some NotDirectoryAbove
      | None => Some NoParent
      end
  end.

Definition place (w : World) (path : string) : Place :=
  if negb (canonical path) then Behind else
  default (Here (w_disk w !! path)) (descend (w_disk w) (parents path)).

(** ** Errors *)

Definition not_found : IoError := {| io_kind := NotFound; io_raw_os_error := Some 2 |}.
Definition access_denied : IoError := {| io_kind := PermissionDeniedKind; io_raw_os_error := Some 13 |}.
Definition already_exists : IoError := {| io_kind := AlreadyExists; io_raw_os_error := Some 17 |}.
Definition not_a_directory : IoError := {| io_kind := NotADirectory; io_raw_os_error := Some 20 |}.
Definition is_a_directory : IoError := {| io_kind := OtherKind; io_raw_os_error := Some 21 |}.
Definition invalid_argument : IoError := {| io_kind := OtherKind; io_raw_os_error := Some 22 |}.
Definition directory_not_empty : IoError :=
  {| io_kind := DirectoryNotEmpty; io_raw_os_error := Some 39 |}.

(** ** Reading *)

Definition metadata_with (type : FileType) (mode len : Z) (s : Stamp) : Metadata :=
  {| md_type := type; md_mode := mode; md_len := len;
     md_mtime := st_mtime s; md_mtime_nsec := st_mtime_nsec s;
     md_ctime := st_ctime s; md_ctime_nsec := st_ctime_nsec s;
     md_ino := st_ino s; md_dev := st_dev s |}.

Abbreviation IO := (M World IoError).

Section Reads.
Context (env : Env).

Definition metadata_of (path : string) (tick : nat) (object : Object) : Metadata :=
  match object with
  | RegularFile content mode stamp => metadata_with TypeFile mode (str_len content) stamp
  | DirectoryNode mode => metadata_with TypeDirectory mode 0 (env_stamp env path tick)
  | SymbolicLink _ => metadata_with TypeSymlink FileMode_symlink 0 (env_stamp env path tick)
  | SpecialFile mode => metadata_with TypeOther mode 0 (env_stamp env path tick)
  end.

Definition lstat (w : World) (path : string) : Result Metadata IoError :=
  match place w path with
  | Here (Some object) =>
      if env_unreadable env path then Err access_denied
      else Ok (metadata_of path (w_tick w) object)
  | Here None | NoParent => Err not_found
  | NotDirectoryAbove => Err not_a_directory
  | Behind => symlink_metadata (env_behind env) path
  end.

Definition readlink (w : World) (path : string) : Result (option string) IoError :=
  match place w path with
  | Here (Some (SymbolicLink target)) =>
      if env_unreadable env path then Err access_denied else Ok target
  | Here (Some _) => Err invalid_argument
  | Here None | NoParent => Err not_found
  | NotDirectoryAbove => Err not_a_directory
  | Behind => read_link (env_behind env) path
  end.

(** [open(O_RDONLY | O_NOFOLLOW | O_NONBLOCK)] *)
Definition open_leaf (w : World) (path : string) : Result Handle Errno :=
  match place w path with
  | Here (Some object) =>
      match object with
      | SymbolicLink _ => Err LOOP
      | _ =>
          if env_unopenable env path then Err (OtherErrno 13) else
          let metadata := metadata_of path (w_tick w) object in
          Ok {| h_metadata := Ok metadata;
                h_content := match object with
                             | RegularFile content _ _ => Ok content
                             | _ => Err is_a_directory
                             end;
                h_final_metadata := Ok metadata |}
      end
  | Here None | NoParent => Err NOENT
  | NotDirectoryAbove => Err NOTDIR
  | Behind => open_nofollow (env_behind env) path
  end.

Definition mkdir_answer (w : World) (path : string) : Result unit IoError :=
  match place w path with
  | Here None => Ok tt
  | Here (Some _) => Err already_exists
  | NoParent => Err not_found
  | NotDirectoryAbove => Err not_a_directory
  | Behind => create_dir (env_behind env) path
  end.

(** The operating system as the reading code sees it. *)
Definition os_of (w : World) : Os :=
  {| symlink_metadata := lstat w; read_link := readlink w; create_dir := mkdir_answer w;
     metadata_after_create := lstat w; open_nofollow := open_leaf w |}.

(** [Path::exists], which follows a final link. *)
Definition path_exists (w : World) (path : string) : bool :=
  match place w path with
  | Here (Some (SymbolicLink _)) | Behind => env_link_exists env path
  | Here (Some _) => negb (env_unreadable env path)
  | _ => false
  end.

(** ** Mutating *)

(** The failures of a call that are not determined by the tree. *)
Definition may_fail : IO unit := λ w,
  match w_faults w with
  | Some error :: faults => (Err error, w <| w_faults := faults |>)
  | None :: faults => (Ok tt, w <| w_faults := faults |>)
  | [] => (Ok tt, w)
  end.

(** A call that replaces the object named by [path]. *)
Definition edit (path : string) (f : option Object → Result (option Object) IoError) : IO unit := λ w,
  match place w path with
  | Here object =>
      match f object with
      | Ok object =>
          (Ok tt, w <| w_disk := partial_alter (λ _, object) path (w_disk w) |>
                    <| w_tick := Datatypes.S (w_tick w) |>)
      | Err error => (Err error, w)
      end
  | Behind => (Ok tt, w <| w_escaped := true |>)
  | NoParent => (Err not_found, w)
  | NotDirectoryAbove => (Err not_a_directory, w)
  end.

(** Directory modes carry the type bits, as [st_mode] does. *)
Definition S_IFDIR : Z := 16384.
Definition S_IFREG : Z := 32768.
Definition S_IFMT : Z := 61440.

Definition created_mode (type permissions : Z) : Z :=
  Z.lor type (Z.land permissions (Z.lnot (env_umask env))).

(** [fs::create_dir] *)
Definition fs_create_dir (path : string) : IO unit :=
  may_fail ;;
  edit path (λ object, match object with
    | None => Ok (Some (DirectoryNode (created_mode S_IFDIR 511)))
    | Some _ => Err already_exists
    end).

(** [fs::remove_file] *)
Definition fs_remove_file (path : string) : IO unit :=
  may_fail ;;
  edit path (λ object, match object with
    | None => Err not_found
    | Some (DirectoryNode _) => Err is_a_directory
    | Some _ => Ok None
    end).

Definition has_children (disk : gmap string Object) (path : string) : bool :=
  existsb (λ '(other, _), starts_with (path +:+ "/") other) (map_to_list disk).

(** [fs::remove_dir] *)
Definition fs_remove_dir (path : string) : IO unit :=
  may_fail ;;
  w ← get;
  edit path (λ object, match object with
    | None => Err not_found
    | Some (DirectoryNode _) =>
        if has_children (w_disk w) path then Err directory_not_empty else Ok None
    | Some _ => Err not_a_directory
    end).

(** [std::os::unix::fs::symlink(target, path)] *)
Definition fs_symlink (target : string) (path : string) : IO unit :=
  may_fail ;;
  edit path (λ object, match object with
    | None => Ok (Some (SymbolicLink (Some target)))
    | Some _ => Err already_exists
    end).

(** [OpenOptions::new().write(true).create_new(true).mode(0o644).open(path)] *)
Definition fs_create_new (path : string) : IO unit :=
  may_fail ;;
  w ← get;
  edit path (λ object, match object with
    | None => Ok (Some (RegularFile "" (created_mode S_IFREG 420) (env_fresh env (w_tick w))))
    | Some _ => Err already_exists
    end).

(** [io::copy] into the file just created under [path], through its descriptor. *)
Definition fs_write_created (path : string) (content : bytes) : IO unit :=
  may_fail ;;
  modify (λ w, w <| w_disk := alter (λ object, match object with
                      | RegularFile _ mode _ =>
                          RegularFile content mode (env_fresh env (w_tick w))
                      | object => object
                      end) path (w_disk w) |>
                 <| w_tick := Datatypes.S (w_tick w) |>).

(** [fchmod]: the kernel keeps the type bits. *)
Definition chmod_mode (old new : Z) : Z := Z.lor (Z.land old S_IFMT) (Z.land new 4095).

Definition chmod_object (tick : nat) (mode : Z) (object : Object) : Object :=
  match object with
  | RegularFile content old _ => RegularFile content (chmod_mode old mode) (env_fresh env tick)
  | DirectoryNode old => DirectoryNode (chmod_mode old mode)
  | SpecialFile old => SpecialFile (chmod_mode old mode)
  | SymbolicLink target => SymbolicLink target
  end.

(** [fchmod] of the descriptor of the object under [path]. *)
Definition fs_fchmod (path : string) (mode : Z) : IO unit :=
  may_fail ;;
  modify (λ w, w <| w_disk := alter (chmod_object (w_tick w) mode) path (w_disk w) |>
                 <| w_tick := Datatypes.S (w_tick w) |>).

End Reads.
