(* ===== verification/Materialize.v ===== *)
(** * Materializing one entry

    Models [pull_apply/materialize.rs] and the staged install of
    [fs_guard.rs] and [fs_guard/anchored.rs] over the disk of [Disk]: staging a
    download, installing an entry, the checked delete, conflict asides, preserving a
    preimage and re-moding.

    Decryption is a library of the product's storage crate: [Envelope] holds what
    the staging code calls of it.  [Deps] is the dependency bundle of a pull — key
    ring, size ceiling, clock, the transport's answers and the environment of the
    disk.  Fsync changes nothing the model observes, but an fsync whose failure the
    code reports draws a fault. *)

From S2P Require Import Prelude.
From S2P Require Import MergeMatrix.
From S2P Require Import Paths.
From S2P Require Import ManifestTypes.
From S2P Require Import FsGuard.
From S2P Require Import Asides.
From S2P Require Import Disk.
Local Open Scope string_scope.
Open Scope Z_scope.

(** ** Error plumbing *)

(** [result.map_err(f)] *)
Definition map_err {S E F A} (f : E → F) (m : M S E A) : M S F A := λ s,
  match m s with
  | (Ok a, s') => (Ok a, s')
  | (Err e, s') => (Err (f e), s')
  end.

(** Matching on a result instead of returning early. *)
Definition attempt {S E F A} (m : M S E A) : M S F (Result A E) := λ s,
  let '(r, s') := m s in (Ok r, s').

(** ** The storage crate *)

Inductive EnvelopeError := DecodedSizeExceeded | EnvelopeRefused.

(** The object kind is the purpose again, so [record_id] stands for both; the
    workspace id hash is the same in every context of a workspace. *)
Record EnvelopeContext := {
  ec_object_id : string; ec_record_id : string; ec_key_epoch : KeyEpoch; ec_format_version : Z;
}.

Class Envelope := {
  physical_blob_key : bytes → BlobKey;
  is_segmented_envelope : bytes → bool;
  open_bounded : bytes → string → EnvelopeContext → Z → Result bytes EnvelopeError;
  open_segmented : bytes → string → EnvelopeContext → Z → Result bytes EnvelopeError;
}.

Definition ENVELOPE_FORMAT_VERSION : Z := 1.

Inductive EnvelopePurpose := WorkspaceFileV1 | WorkspaceManifestV1.

Definition as_aad (purpose : EnvelopePurpose) : string :=
  match purpose with
  | WorkspaceFileV1 => "WorkspaceFileV1"
  | WorkspaceManifestV1 => "WorkspaceManifestV1"
  end.

Inductive ManifestError :=
| EnvelopeFailed (error : EnvelopeError)
| Serialization (reason : string)
| BoundExceeded (bound : string)
| InvalidPath (reason : string)
| InvalidEntry (reason : string)
| KeyEpochMismatch
| UnknownKeyEpoch (key_epoch : KeyEpoch)
| UnsupportedFormatVersion (found : Z)
| ContentIdMismatch
| DecodedSizeMismatch (expected : Z) (actual : option Z)
| NotSorted
| DuplicatePath
| ManifestInternal (reason : string).

(** [WorkspaceCrypto::file_context] *)
Definition file_context (content_id : ContentId) (key_epoch : KeyEpoch) (format_version : Z)
    : EnvelopeContext :=
  {| ec_object_id := content_id; ec_record_id := as_aad WorkspaceFileV1;
     ec_key_epoch := key_epoch; ec_format_version := format_version |}.

Record Deps := {
  dp_env : Env;
  dp_crypto : WorkspaceCrypto;
  dp_max_seal_bytes : Z;
  dp_now : Z;
  (** [get_blob_to_writer]: the bytes written and the length it reports *)
  dp_get_blob_to_writer : BlobKey → option (bytes * Z);
  (** [ctx.timestamps] and the reading of the endpoint's clock *)
  dp_timestamps : Z;
  dp_endpoint_clock : option Z;
}.

#[export] Instance Deps_eta : Eta Deps :=
  λ d, Build_Deps (dp_env d) (dp_crypto d) (dp_max_seal_bytes d) (dp_now d)
         (dp_get_blob_to_writer d) (dp_timestamps d) (dp_endpoint_clock d).

Abbreviation PL := (M World PullError).

Inductive Materialized (T : Type) :=
| Done (value : T) | ParentBlocked | EscapingTarget | Vanished | AsideRefused.
Arguments Done {T} value.
Arguments ParentBlocked {T}.
Arguments EscapingTarget {T}.
Arguments Vanished {T}.
Arguments AsideRefused {T}.

Inductive GuardedWrite := Written (fingerprint : StatFingerprint) | WriteBlocked.
Inductive DeleteOutcome := Deleted | DeleteKeptLocal.
Inductive DirRemoval := Removed | LocalContent.

(** A staged file is named by its leaf in the recovery directory. *)
Abbreviation TempFile := string (only parsing).

Section Materialize.
Context `{ContentHash} `{SeedHash} `{Envelope} (deps : Deps).
Local Abbreviation env := (dp_env deps).

(** The engine context over the disk as it stands. *)
Definition ctx_of (w : World) : EngineContext :=
  {| ctx_os := os_of env w; ctx_crypto := dp_crypto deps;
     ctx_max_seal_bytes := dp_max_seal_bytes deps; ctx_now := dp_now deps |}.

(** [PullError::path] *)
Definition path_error (path : WorkspacePath) (error : IoError) : PullError :=
  PathError {| up_path := path;
               up_record := {| ur_reason := path_scoped_reason error;
                               ur_errno := io_raw_os_error error;
                               ur_observed_at := dp_now deps |} |}.

(** Calls on the engine's own directories. *)
Definition scratch {A} (m : IO A) : PL A := map_err EngineScratchIo m.

(** Calls on one workspace path. *)
Definition on_path {A} (path : WorkspacePath) (m : IO A) : PL A := map_err (path_error path) m.

Definition observe_now (path : WorkspacePath) : PL (option Observed) :=
  w ← get; of_result (observe_syncable (ctx_of w) path).

(** ** Opening sealed files *)

(** [open_file] of [manifest.rs] and [open_file_segmented] of
    [manifest/segmented_file.rs], which differ in the opening call alone. *)
Definition open_with (opener : bytes → string → EnvelopeContext → Z → Result bytes EnvelopeError)
    (key_epoch : KeyEpoch) (expected_content_id : ContentId) (sealed : bytes)
    (expected_size max_decoded_bytes : Z) : Result bytes ManifestError :=
  if max_decoded_bytes <? expected_size then Err (BoundExceeded "file-decoded-size-policy") else
  match cr_keys (dp_crypto deps) !! key_epoch with
  | None => Err (UnknownKeyEpoch key_epoch)
  | Some storage_key =>
      let context := file_context expected_content_id key_epoch ENVELOPE_FORMAT_VERSION in
      match opener sealed storage_key context expected_size with
      | Err DecodedSizeExceeded => Err (DecodedSizeMismatch expected_size None)
      | Err error => Err (EnvelopeFailed error)
      | Ok plaintext =>
          if negb (str_len plaintext =? expected_size)
          then Err (DecodedSizeMismatch expected_size (Some (str_len plaintext))) else
          if bool_decide (content_id_at (dp_crypto deps) key_epoch plaintext
                          ≠ Some expected_content_id)
          then Err ContentIdMismatch else Ok plaintext
      end
  end.

Definition open_file := open_with open_bounded.
Definition open_file_segmented := open_with open_segmented.

(** ** The recovery directory *)

Definition scratch_unlink (leaf : string) : IO unit :=
  may_fail ;;
  w ← get;
  match w_temps w !! leaf with
  | None => throw not_found
  | Some _ => modify (λ w, w <| w_temps := delete leaf (w_temps w) |>)
  end.

(** [create_private_file] *)
Definition scratch_create (leaf : string) : IO unit :=
  may_fail ;;
  w ← get;
  match w_temps w !! leaf with
  | Some _ => throw already_exists
  | None => modify (λ w, w <| w_temps := <[leaf := ""]> (w_temps w) |>)
  end.

Definition scratch_write (leaf : string) (content : bytes) : IO unit :=
  may_fail ;;
  modify (λ w, w <| w_temps := <[leaf := content]> (w_temps w) |>).

Definition recovery_directory : PL unit :=
  scratch may_fail ;;
  w ← get;
  match w_recovery_dir w with
  | ScratchReady => mret tt
  | ScratchAbsent =>
      scratch may_fail ;;
      modify (λ w, w <| w_recovery_dir := ScratchReady |>)
  | ScratchBlocked => throw (Internal "recovery directory is not a private directory")
  end.

(** The closure whose result [stage_downloaded_file] inspects. *)
Definition stage_body (key_epoch : KeyEpoch) (content_id : ContentId) (blob_key : BlobKey)
    (expected_size : Z) (sealed_leaf plaintext_leaf : string) : PL unit :=
  '(sealed, downloaded) ← ok_or TransportErr (dp_get_blob_to_writer deps blob_key);
  modify (λ w, w <| w_temps := <[sealed_leaf := sealed]> (w_temps w) |>) ;;
  scratch may_fail ;; scratch may_fail ;; scratch may_fail ;;
  bail_if (negb (downloaded =? str_len sealed)) BlobKeyMismatch ;;
  scratch may_fail ;; scratch may_fail ;;
  bail_if (bool_decide (physical_blob_key sealed ≠ blob_key)) BlobKeyMismatch ;;
  scratch may_fail ;; scratch may_fail ;; scratch may_fail ;;
  attempt (scratch_unlink plaintext_leaf) ;;
  scratch (scratch_create plaintext_leaf) ;;
  (if is_segmented_envelope (String.substring 0 8 sealed) then
     plaintext ← map_err (λ _, ManifestErr)
                   (of_result (open_file_segmented key_epoch content_id sealed expected_size
                                 (dp_max_seal_bytes deps)));
     map_err (λ _, ManifestErr) (scratch_write plaintext_leaf plaintext)
   else
     scratch may_fail ;;
     opened ← map_err (λ _, ManifestErr)
                (of_result (open_file key_epoch content_id sealed expected_size
                              (dp_max_seal_bytes deps)));
     scratch (scratch_write plaintext_leaf opened)) ;;
  scratch may_fail ;; scratch may_fail.

Definition stage_downloaded_file (key_epoch : KeyEpoch) (content_id : ContentId)
    (blob_key : BlobKey) (expected_size : Z) (plaintext_leaf : string) : PL unit :=
  let sealed_leaf := plaintext_leaf +:+ ".sealed-partial" in
  attempt (scratch_unlink sealed_leaf) ;;
  scratch (scratch_create sealed_leaf) ;;
  result ← attempt (stage_body key_epoch content_id blob_key expected_size sealed_leaf plaintext_leaf);
  attempt (scratch_unlink sealed_leaf) ;;
  match result with
  | Err error => attempt (scratch_unlink plaintext_leaf) ;; throw error
  | Ok _ => mret tt
  end.

Definition stage_write_temp (op : FsOp) : PL (option TempFile) :=
  match op_kind op with
  | Install entry | ConflictAside entry =>
      match entry with
      | FileEntry size _ content_id blob_key key_epoch =>
          let name := temp_name (op_path op) blob_key in
          recovery_directory ;;
          stage_downloaded_file key_epoch content_id blob_key size name ;;
          mret (Some name)
      | _ => mret None
      end
  | _ => mret None
  end.

(** [download_recovery_temp]; the path it returns is the recovery directory's. *)
Definition download_recovery_temp (path : WorkspacePath) (key_epoch : KeyEpoch)
    (content_id : ContentId) (blob_key : BlobKey) (expected_size : Z) : PL TempFile :=
  recovery_directory ;;
  let name := temp_name path blob_key in
  stage_downloaded_file key_epoch content_id blob_key expected_size name ;;
  mret name.

(** ** Guards *)

Definition escapes_workspace (w : World) (path : WorkspacePath) (entry : ManifestEntry) : bool :=
  match entry with
  | SymlinkEntry _ target => negb (symlink_target_lands_in_workspace (os_of env w) path target)
  | FileEntry _ _ _ _ _ | DirectoryEntry _ => false
  end.

(** The [CreateMissing] walk of [prepare_parent_chain], which makes directories. *)
Definition make_dir (current : string) : PL bool :=
  created ← attempt (fs_create_dir env current);
  match created with
  | Ok _ => mret true
  | Err error =>
      if bool_decide (io_kind error = AlreadyExists) then
        w ← get;
        mret (match lstat env w current with
              | Ok m => bool_decide (md_type m = TypeDirectory)
              | Err _ => false
              end)
      else mret false
  end.

Fixpoint make_parents (components walked : list string) : PL ParentChain :=
  match components with
  | [] => mret Ready
  | component :: components =>
      if (component =? "")%string then make_parents components walked else
      let walked := app walked [component] in
      w ← get;
      match lstat env w (join walked) with
      | Ok m =>
          if bool_decide (md_type m = TypeDirectory) then make_parents components walked
          else mret Blocked
      | Err error =>
          if bool_decide (io_kind error = NotFound) then
            made ← make_dir (join walked);
            if made : bool then make_parents components walked else mret Blocked
          else mret Blocked
      end
  end.

Definition make_parent_chain (path : WorkspacePath) : PL ParentChain :=
  let components := split slash path in
  make_parents (firstn (length components - 1) components) [].

(** [create_dir_no_follow] *)
Definition create_dir_no_follow (path : WorkspacePath) : PL unit :=
  created ← attempt (fs_create_dir env path);
  match created with
  | Ok _ => mret tt
  | Err error => if bool_decide (io_kind error = AlreadyExists) then mret tt
                 else throw (path_error path error)
  end.

Definition set_mode (path : WorkspacePath) (mode : FileMode) : PL unit :=
  w ← get;
  match place w path with
  | Here (Some (SymbolicLink _)) | Here None | NoParent | NotDirectoryAbove => mret tt
  | Here (Some _) =>
      if env_unopenable env path then throw (path_error path access_denied)
      else on_path path (fs_fchmod env path mode)
  | Behind => modify (λ w, w <| w_escaped := true |>)
  end.

(** ** The staged install *)

(** [LeafName::of] is [None]. *)
Definition has_no_leaf (path : WorkspacePath) : bool :=
  let leaf := final_component path in
  (leaf =? "")%string || negb (no_char Ascii.zero leaf).

Inductive AnchoredOpen := AnchoredReady | AnchoredAbsent | AnchoredBlocked.

(** [open_containing_directory]: every component opened without following. *)
Definition open_containing_directory (w : World) (path : WorkspacePath) : AnchoredOpen :=
  if negb (canonical path) then AnchoredReady else
  match descend (w_disk w) (parents path) with
  | Some NoParent => AnchoredAbsent
  | Some _ => AnchoredBlocked
  | None => if existsb (env_unopenable env) (parents path) then AnchoredBlocked else AnchoredReady
  end.

(** [ENOENT], [ENXIO], [ENOTDIR], [EISDIR], [ELOOP] *)
Definition open_blocks (error : IoError) : bool :=
  match io_raw_os_error error with
  | Some code => existsb (Z.eqb code) [2; 6; 20; 21; 40]
  | None => false
  end.

(** The staged inode under its final mode. *)
Definition staged_object (w : World) (content : bytes) (mode : FileMode) : Object :=
  RegularFile content (chmod_mode (Z.lor S_IFREG 384) mode) (env_fresh env (w_tick w)).

(** [rename_refusing_symlink]: [None] refuses, [Some exchanged] installed. *)
Definition rename_refusing_symlink (leaf : string) (content : bytes) (path : WorkspacePath)
    (mode : FileMode) : IO (option bool) :=
  may_fail ;;
  w ← get;
  let object := staged_object w content mode in
  match place w path with
  | Here (Some (RegularFile displaced _ _)) =>
      may_fail ;;
      edit path (λ _, Ok (Some object)) ;;
      modify (λ w, w <| w_temps := <[leaf := displaced]> (w_temps w) |>) ;;
      may_fail ;;
      mret (Some true)
  | Here (Some _) => mret None
  | _ =>
      renamed ← attempt (may_fail ;; edit path (λ _, Ok (Some object)));
      match renamed with
      | Ok _ =>
          modify (λ w, w <| w_temps := delete leaf (w_temps w) |>) ;;
          mret (Some false)
      | Err error => if bool_decide (io_kind error = AlreadyExists) then mret None else throw error
      end
  end.

(** [AnchoredDirectory::install_staged_file] *)
Definition anchored_install (leaf : string) (path : WorkspacePath) (mode : FileMode)
    : IO GuardedWrite :=
  opened ← attempt may_fail;
  w ← get;
  match opened, w_temps w !! leaf with
  | Err error, _ => if open_blocks error then mret WriteBlocked else throw error
  | Ok _, None => mret WriteBlocked
  | Ok _, Some content =>
      may_fail ;; may_fail ;; may_fail ;; may_fail ;;
      renamed ← rename_refusing_symlink leaf content path mode;
      match renamed with
      | None => mret WriteBlocked
      | Some exchanged =>
          may_fail ;; may_fail ;;
          w ← get;
          match place w path with
          | Here (Some object) =>
              (if exchanged : bool then
                 unlinked ← attempt (scratch_unlink leaf);
                 match unlinked with
                 | Ok _ => mret tt
                 | Err error =>
                     if bool_decide (io_kind error = NotFound) then mret tt else throw error
                 end
               else mret tt) ;;
              mret (Written (fingerprint_of (metadata_of env path (w_tick w) object)))
          | _ => mret WriteBlocked
          end
      end
  end.

Definition install_staged_file_from_directory (path : WorkspacePath) (temp : TempFile)
    (final_mode : FileMode) : PL GuardedWrite :=
  chain ← make_parent_chain path;
  match chain with
  | Blocked => mret WriteBlocked
  | Ready =>
      bail_if (has_no_leaf path)
        (path_error path {| io_kind := OtherKind; io_raw_os_error := None |}) ;;
      w ← get;
      match open_containing_directory w path with
      | AnchoredReady => on_path path (anchored_install temp path final_mode)
      | AnchoredAbsent | AnchoredBlocked => mret WriteBlocked
      end
  end.

(** [install_staged_file] through [copy_replacement]: the staging directory is
    opened again by path. *)
Definition copy_replacement (path : WorkspacePath) (source : TempFile) (final_mode : FileMode)
    : PL GuardedWrite :=
  on_path path may_fail ;;
  install_staged_file_from_directory path source final_mode.

(** ** Preimages *)

Definition copy_private_file (path : WorkspacePath) : PL unit :=
  w ← get;
  match open_leaf env w path with
  | Err errno => throw (path_error path (io_error_from errno))
  | Ok handle =>
      on_path path may_fail ;;
      scratch may_fail ;;
      modify (λ w, w <| w_quarantine := <[quarantine_leaf path := ""]> (w_quarantine w) |>) ;;
      content ← map_err (path_error path) (of_result (h_content handle));
      on_path path may_fail ;;
      modify (λ w, w <| w_quarantine := <[quarantine_leaf path := content]> (w_quarantine w) |>) ;;
      scratch may_fail
  end.

Definition preserve_preimage (path : WorkspacePath) : PL unit :=
  w ← get;
  if negb (path_exists env w path) then mret tt else
  scratch may_fail ;;
  w ← get;
  match lstat env w path with
  | Ok metadata =>
      if bool_decide (md_type metadata = TypeFile) then copy_private_file path else mret tt
  | Err _ => mret tt
  end.

(** [fs::remove_file] of a preimage, its failure ignored. *)
Definition drop_preimage (leaf : string) : PL unit :=
  attempt (may_fail ;; modify (λ w, w <| w_quarantine := delete leaf (w_quarantine w) |>)) ;;
  mret tt.

Fixpoint release_quarantine (paths : list WorkspacePath) : PL unit :=
  match paths with
  | [] => mret tt
  | path :: paths => drop_preimage (quarantine_leaf path) ;; release_quarantine paths
  end.

Definition remove_empty_dir (path : WorkspacePath) : PL DirRemoval :=
  removed ← attempt (fs_remove_dir path);
  match removed with
  | Ok _ => mret Removed
  | Err error => if bool_decide (io_kind error = DirectoryNotEmpty) then mret LocalContent
                 else throw (path_error path error)
  end.

(** ** Installing *)

(** Clearing a target of another kind: [false] where local content stays. *)
Definition clear_other_kind (path : WorkspacePath) (entry : ManifestEntry) (observed : Observed)
    : PL bool :=
  if bool_decide (ob_kind observed = entry_kind entry) then mret true else
  match ob_kind observed with
  | Directory =>
      removal ← remove_empty_dir path;
      mret (match removal with Removed => true | LocalContent => false end)
  | File | Symlink => on_path path (fs_remove_file path) ;; mret true
  end.

Definition install_entry (path : WorkspacePath) (entry : ManifestEntry) (temp : option TempFile)
    (preimage : option Observed) : PL (Materialized FileRecord) :=
  w ← get;
  if escapes_workspace w path entry then mret EscapingTarget else
  chain ← make_parent_chain path;
  match chain with
  | Blocked => mret ParentBlocked
  | Ready =>
      cleared ← match preimage with
                | None => mret true
                | Some observed => preserve_preimage path ;; clear_other_kind path entry observed
                end;
      if negb cleared then mret ParentBlocked else
      let finish :=
        observed ← observe_now path;
        mret (match observed with
              | None => Vanished
              | Some observed => Done (record_for_entry entry (ob_fingerprint observed) (dp_now deps))
              end) in
      match entry with
      | FileEntry _ _ _ _ _ =>
          temp ← ok_or (Internal "file install without temp") temp;
          written ← install_staged_file_from_directory path temp (entry_mode entry);
          mret (match written with
                | Written fingerprint => Done (record_for_entry entry fingerprint (dp_now deps))
                | WriteBlocked => ParentBlocked
                end)
      | DirectoryEntry mode =>
          create_dir_no_follow path ;;
          set_mode path mode ;;
          finish
      | SymlinkEntry _ target =>
          attempt (fs_remove_file path) ;;
          on_path path (fs_symlink target path) ;;
          finish
      end
  end.

Definition checked_delete (path : WorkspacePath) : PL DeleteOutcome :=
  w ← get;
  match prepare_parent_chain (os_of env w) path RequireExisting with
  | Blocked => mret DeleteKeptLocal
  | Ready =>
      preserve_preimage path ;;
      w ← get;
      match lstat env w path with
      | Ok metadata =>
          if bool_decide (md_type metadata = TypeDirectory) then
            removal ← remove_empty_dir path;
            mret (match removal with Removed => Deleted | LocalContent => DeleteKeptLocal end)
          else on_path path (fs_remove_file path) ;; mret Deleted
      | Err error =>
          if bool_decide (io_kind error = NotFound) then mret Deleted
          else throw (path_error path error)
      end
  end.

(** ** Asides *)

Definition create_no_replace_from_file (path : WorkspacePath) (source : TempFile) : PL unit :=
  scratch may_fail ;;
  w ← get;
  content ← map_err EngineScratchIo (ok_or not_found (w_temps w !! source));
  on_path path (fs_create_new env path) ;;
  on_path path (fs_write_created env path content) ;;
  on_path path may_fail.

Definition materialize_aside (path : WorkspacePath) (entry : ManifestEntry) (temp : option TempFile)
    : PL (Materialized WorkspacePath) :=
  w ← get;
  match free_aside_path (path_exists env w) path entry with
  | None => mret AsideRefused
  | Some aside =>
      if escapes_workspace w aside entry then mret EscapingTarget else
      chain ← make_parent_chain aside;
      match chain with
      | Blocked => mret ParentBlocked
      | Ready =>
          match entry with
          | FileEntry size _ content_id blob_key key_epoch =>
              '(source, remove_after) ←
                match temp with
                | Some temp => mret (temp, false)
                | None =>
                    source ← download_recovery_temp path key_epoch content_id blob_key size;
                    mret (source, true)
                end;
              result ← attempt (create_no_replace_from_file aside source);
              (if remove_after : bool then attempt (scratch_unlink source) ;; mret tt else mret tt) ;;
              of_result result
          | DirectoryEntry _ => create_dir_no_follow aside
          | SymlinkEntry _ target => on_path aside (fs_symlink target aside)
          end ;;
          mret (Done aside)
      end
  end.

Definition aside_content_matches (w : World) (candidate : WorkspacePath) (entry : ManifestEntry)
    : Result bool PullError :=
  match lstat env w candidate with
  | Err _ => Ok false
  | Ok metadata =>
      match entry with
      | FileEntry _ _ content_id _ key_epoch =>
          if negb (bool_decide (md_type metadata = TypeFile)) then Ok false else
          let expected := {| ef_fingerprint := fingerprint_of metadata;
                             ef_size := md_len metadata |} in
          result_map (λ read, match read with
            | LocalBytes content =>
                bool_decide (content_id_at (dp_crypto deps) key_epoch content = Some content_id)
            | Unverifiable => false
            end) (read_local_content (ctx_of w) candidate expected)
      | DirectoryEntry _ => Ok (bool_decide (md_type metadata = TypeDirectory))
      | SymlinkEntry _ target =>
          Ok (bool_decide (md_type metadata = TypeSymlink)
              && match readlink env w candidate with
                 | Ok (Some link) => (link =? target)%string
                 | _ => false
                 end)
      end
  end.

(** One turn of the scan of [aside_already_materialized]. *)
Definition aside_scan_turn (w : World) (base : WorkspacePath) (entry : ManifestEntry) (suffix : Z)
    : option (Result bool PullError) :=
  let candidate := collision_aside_path base suffix in
  if negb (path_exists env w candidate) then Some (Ok false) else
  match aside_content_matches w candidate entry with
  | Err error => Some (Err error)
  | Ok true => Some (Ok true)
  | Ok false => None
  end.

Definition aside_already_materialized (w : World) (path : WorkspacePath) (entry : ManifestEntry)
    : Result bool PullError :=
  let base := materialized_aside_path path entry in
  result_bind (aside_content_matches w base entry) (λ matches,
  if matches : bool then Ok true
  else default (Ok false) (for_range 2 u32_max (aside_scan_turn w base entry))).

Definition reinstall_from_download (path : WorkspacePath) (entry : ManifestEntry)
    : PL (Materialized FileRecord) :=
  match entry with
  | FileEntry size _ content_id blob_key key_epoch =>
      chain ← make_parent_chain path;
      match chain with
      | Blocked => mret ParentBlocked
      | Ready =>
          temp ← download_recovery_temp path key_epoch content_id blob_key size;
          preserve_preimage path ;;
          copied ← attempt (copy_replacement path temp (entry_mode entry));
          attempt (scratch_unlink temp) ;;
          written ← of_result copied;
          mret (match written with
                | Written fingerprint => Done (record_for_entry entry fingerprint (dp_now deps))
                | WriteBlocked => ParentBlocked
                end)
      end
  | _ =>
      observed ← observe_now path;
      mret (match observed with
            | None => Vanished
            | Some observed => Done (record_for_entry entry (ob_fingerprint observed) (dp_now deps))
            end)
  end.

End Materialize.
