(* ===== verification/Endpoint.v ===== *)
(** * Stat trust

    Models the part of [manifest_engine/endpoint.rs] that decides when a matching
    stat may stand in for reading a file: the timestamp buckets of the endpoint
    volume, the trust a row earns, and the proof that stamps rows before they are
    committed.  The reading of the volume's clock is an argument. *)

From S2P Require Import Prelude.
From S2P Require Import Paths.
From S2P Require Import ManifestTypes.
From S2P Require Import FsGuard.
Local Open Scope string_scope.
Open Scope Z_scope.

(** A width in nanoseconds. *)
Abbreviation TimestampGranularity := Z (only parsing).

Definition NANOSECOND : TimestampGranularity := 1.
Definition SECOND : TimestampGranularity := 1000000000.
Definition TWO_SECONDS : TimestampGranularity := 2000000000.

Definition bucket (granularity : TimestampGranularity) (nanos : Z) : Z :=
  i64_saturate (nanos / granularity * granularity).

Definition indistinguishable (granularity : TimestampGranularity) (left right : Z) : bool :=
  bucket granularity left =? bucket granularity right.

Definition same_stat (granularity : TimestampGranularity) (record : FileRecord)
    (observed : Observed) : bool :=
  let recorded := fr_fingerprint record in
  let seen := ob_fingerprint observed in
  (fp_inode recorded =? fp_inode seen)
  && (fp_dev recorded =? fp_dev seen)
  && indistinguishable granularity (fp_mtime_ns recorded) (fp_mtime_ns seen)
  && indistinguishable granularity (fp_ctime_ns recorded) (fp_ctime_ns seen).

Inductive StatTrust := OutsideRacyWindow (granularity : TimestampGranularity) | NeverTrust.

Definition settles (trust : StatTrust) (record : FileRecord) (observed : Observed) : bool :=
  match trust, fr_verified_at record with
  | OutsideRacyWindow granularity, Some verified_at =>
      same_stat granularity record observed
      && (bucket granularity (fp_ctime_ns (ob_fingerprint observed))
          <? bucket granularity verified_at)
  | _, _ => false
  end.

(** [content_matches_record]: the whole content is hashed through one descriptor. *)
Definition content_matches_record `{ContentHash} (os : Os) (path : WorkspacePath)
    (observed : Observed) (record : FileRecord) (crypto : WorkspaceCrypto) (max_read_bytes : Z)
    : bool :=
  match fr_content_id record, fr_key_epoch record with
  | Some expected_content_id, Some key_epoch =>
      match visit_file_bounded os path max_read_bytes (expected_file observed) (λ file _,
              match h_content file with
              | Err error => Err (PushIo error)
              | Ok content =>
                  Ok ((λ content_id, (content_id, str_len content))
                      <$> content_id_at crypto key_epoch content)
              end) with
      | Ok (VisitValue (Some (content_id, byte_len))) =>
          (byte_len =? ob_size observed) && (content_id =? expected_content_id)%string
      | _ => false
      end
  | _, _ => false
  end.

Definition prove_row `{ContentHash} (os : Os) (granularity : TimestampGranularity) (sampled : Z)
    (crypto : WorkspaceCrypto) (max_read_bytes : Z) (path : WorkspacePath) (record : FileRecord)
    : option Z :=
  if bucket granularity sampled <=? bucket granularity (fp_ctime_ns (fr_fingerprint record))
  then None else
  match observe_classified os path with
  | ObPresent observed =>
      if bool_decide (ob_kind observed ≠ fr_kind record)
         || negb (ob_size observed =? fr_size record)
         || negb (ob_mode observed =? fr_mode record)
         || bool_decide (ob_symlink_target observed ≠ fr_symlink_target record)
         || negb (same_stat granularity record observed)
      then None else
      if negb (granularity =? NANOSECOND)
         && bool_decide (fr_kind record = File)
         && negb (content_matches_record os path observed record crypto max_read_bytes)
      then None else Some sampled
  | _ => None
  end.

#[export] Instance FileRecord_eta : Eta FileRecord :=
  λ r, Build_FileRecord (fr_kind r) (fr_size r) (fr_mode r) (fr_symlink_target r)
         (fr_content_id r) (fr_blob_key r) (fr_key_epoch r) (fr_fingerprint r) (fr_hashed_at r)
         (fr_verified_at r).

(** [sampled] is [sample_endpoint_clock(engine_dir, workspace_root)]. *)
Definition prove_rows `{ContentHash} (os : Os) (sampled : option Z)
    (granularity : TimestampGranularity) (crypto : WorkspaceCrypto) (max_read_bytes : Z)
    (rows : gmap WorkspacePath FileRecord) : gmap WorkspacePath FileRecord :=
  match sampled with
  | None => rows
  | Some sampled =>
      map_imap (λ path record,
        Some (record <| fr_verified_at :=
                prove_row os granularity sampled crypto max_read_bytes path record |>)) rows
  end.
