(* ===== verification/Store.v ===== *)
(** * The engine's store

    Models [manifest_engine/store.rs], [store/frontier.rs], [store/file_queries.rs]
    and the constraints of [store/schema.rs]: the ancestor rows, the engine-state
    row with the ref-freshness ratchet, the intent journal, the unsyncable set, the
    pending pushes and the two object ledgers.

    A table is a map by primary key and a row holds the columns the code writes, so
    every conversion between a Rust integer and an SQLite [INTEGER] is explicit.
    Each statement draws from [ms_faults], and [in_transaction] rolls back what its
    body did when the body or the commit fails.  The code issues no [ROLLBACK] after
    a failed [COMMIT]: SQLite rolls such a transaction back itself unless the failure
    is [SQLITE_BUSY], which the holder of the write lock does not get in the WAL mode
    [open] selects. *)

From S2P Require Import Prelude.
From S2P Require Import Paths.
From S2P Require Import ManifestTypes.
From stdpp Require Import sorting.
Local Open Scope string_scope.
Open Scope Z_scope.

Inductive ManifestStoreError :=
| Sqlite
| Corrupt (field : string)
| ValueOutOfRange (field : string).

(** ** Columns *)

Definition i64_top : Z := 2 ^ 63 - 1.

Definition to_i64 (value : Z) : Result Z ManifestStoreError :=
  if value <=? i64_top then Ok value else Err (ValueOutOfRange "u64->i64").

Definition from_i64 (value : Z) : Result Z ManifestStoreError :=
  if 0 <=? value then Ok value else Err (ValueOutOfRange "i64->u64").

Definition u32_from_i64 (value : Z) (field : string) : Result Z ManifestStoreError :=
  if (0 <=? value) && (value <=? u32_max) then Ok value else Err (ValueOutOfRange field).

(** [value as i64] and [value as u64] *)
Definition as_i64 (value : Z) : Z := if value <=? i64_top then value else value - 2 ^ 64.
Definition as_u64 (value : Z) : Z := if 0 <=? value then value else value + 2 ^ 64.

Definition entry_kind_to_i64 (kind : EntryKind) : Z :=
  match kind with File => 0 | Directory => 1 | Symlink => 2 end.

Definition entry_kind_from_i64 (value : Z) : Result EntryKind ManifestStoreError :=
  if value =? 0 then Ok File else if value =? 1 then Ok Directory
  else if value =? 2 then Ok Symlink else Err (Corrupt "kind").

(** A row of [files]. *)
Record FileRow := {
  row_kind : Z; row_size : Z; row_mode : Z;
  row_symlink_target : option string; row_content_id : option string;
  row_blob_key : option string; row_key_epoch : option Z;
  row_mtime_ns : Z; row_ctime_ns : Z; row_inode : Z; row_dev : Z;
  row_hashed_at : option Z; row_verified_at : option Z;
}.

(** The parameters [apply_ancestor] binds. *)
Definition file_to_row (record : FileRecord) : Result FileRow ManifestStoreError :=
  result_bind (to_i64 (fr_size record)) (λ size,
  Ok {| row_kind := entry_kind_to_i64 (fr_kind record); row_size := size;
        row_mode := fr_mode record; row_symlink_target := fr_symlink_target record;
        row_content_id := fr_content_id record; row_blob_key := fr_blob_key record;
        row_key_epoch := fr_key_epoch record;
        row_mtime_ns := fp_mtime_ns (fr_fingerprint record);
        row_ctime_ns := fp_ctime_ns (fr_fingerprint record);
        row_inode := as_i64 (fp_inode (fr_fingerprint record));
        row_dev := as_i64 (fp_dev (fr_fingerprint record));
        row_hashed_at := fr_hashed_at record; row_verified_at := fr_verified_at record |}).

Definition row_to_file (row : FileRow) : Result FileRecord ManifestStoreError :=
  result_bind (entry_kind_from_i64 (row_kind row)) (λ kind,
  result_bind (from_i64 (row_size row)) (λ size,
  result_bind (u32_from_i64 (row_mode row) "mode") (λ mode,
  result_bind (match row_key_epoch row with
               | None => Ok None
               | Some value => result_map Some (u32_from_i64 value "key_epoch")
               end) (λ key_epoch,
  Ok {| fr_kind := kind; fr_size := size; fr_mode := mode;
        fr_symlink_target := row_symlink_target row; fr_content_id := row_content_id row;
        fr_blob_key := row_blob_key row; fr_key_epoch := key_epoch;
        fr_fingerprint := {| fp_mtime_ns := row_mtime_ns row; fp_ctime_ns := row_ctime_ns row;
                             fp_inode := as_u64 (row_inode row); fp_dev := as_u64 (row_dev row) |};
        fr_hashed_at := row_hashed_at row; fr_verified_at := row_verified_at row |})))).

(** The singleton row of [engine_state]; the column defaults are [NULL] and 0. *)
Record EngineRow := {
  er_applied_manifest_key : option string;
  er_last_ref_version : option Z;
  er_materialization_revision : Z;
  er_highest_verified_ref_version : option Z;
  er_highest_verified_manifest_key : option string;
}.

#[export] Instance EngineRow_eta : Eta EngineRow :=
  λ r, Build_EngineRow (er_applied_manifest_key r) (er_last_ref_version r)
         (er_materialization_revision r) (er_highest_verified_ref_version r)
         (er_highest_verified_manifest_key r).

Definition empty_row : EngineRow :=
  {| er_applied_manifest_key := None; er_last_ref_version := None;
     er_materialization_revision := 0; er_highest_verified_ref_version := None;
     er_highest_verified_manifest_key := None |}.

(** ** [store/frontier.rs] *)

Record RefObservation := { ro_version : Z; ro_manifest_key : ManifestKey }.

Inductive EngineRef := Genesis | Head (observation : RefObservation).

Record EngineState := {
  es_applied_manifest_key : option ManifestKey;
  es_last_ref_version : option Z;
  es_materialization_revision : Z;
  es_highest_verified_ref_version : option Z;
  es_highest_verified_manifest_key : option ManifestKey;
}.

Definition EngineState_default : EngineState :=
  {| es_applied_manifest_key := None; es_last_ref_version := None;
     es_materialization_revision := 0; es_highest_verified_ref_version := None;
     es_highest_verified_manifest_key := None |}.

Definition applied_ref (s : EngineState) : Result EngineRef ManifestStoreError :=
  match es_applied_manifest_key s, es_last_ref_version s with
  | None, None => Ok Genesis
  | Some manifest_key, Some version =>
      Ok (Head {| ro_version := version; ro_manifest_key := manifest_key |})
  | _, _ => Err (Corrupt "applied_ref")
  end.

Definition option_from_i64 (value : option Z) : Result (option Z) ManifestStoreError :=
  match value with None => Ok None | Some value => result_map Some (from_i64 value) end.

Definition row_to_engine_state (row : EngineRow) : Result EngineState ManifestStoreError :=
  result_bind (option_from_i64 (er_last_ref_version row)) (λ last_ref_version,
  result_bind (from_i64 (er_materialization_revision row)) (λ materialization_revision,
  result_bind (option_from_i64 (er_highest_verified_ref_version row)) (λ highest,
  let state := {| es_applied_manifest_key := er_applied_manifest_key row;
                  es_last_ref_version := last_ref_version;
                  es_materialization_revision := materialization_revision;
                  es_highest_verified_ref_version := highest;
                  es_highest_verified_manifest_key := er_highest_verified_manifest_key row |} in
  result_bind (applied_ref state) (λ _, Ok state)))).

(** ** The journal *)

(** [expected_preimage] and [target_record] are JSON of the payloads: the inner
    [None] is a text that does not decode. *)
Record Intent := {
  in_path : WorkspacePath;
  in_operation_kind : IntentOperationKind;
  in_temp_name : option string;
  in_expected_preimage : option (option PreimagePayload);
  in_target_record : option (option TargetRecordPayload);
  in_preserved_preimage : option string;
  in_target_manifest_key : option ManifestKey;
  in_created_at : Z;
}.

Record SealedBlob := { sb_blob_key : BlobKey; sb_key_epoch : KeyEpoch; sb_byte_len : Z }.

Record ManifestStore := {
  ms_files : gmap string FileRow;
  ms_engine_state : option EngineRow;
  ms_intents : gmap string Intent;
  ms_unsyncable : gmap string UnsyncableRecord;
  ms_pending_push : gset string;
  ms_blobs : gmap string SealedBlob;
  ms_tree_nodes : gmap string (ManifestKey * KeyEpoch);
  ms_tree_node_epochs : gmap string KeyEpoch;
  (** statements SQLite fails *)
  ms_faults : list bool;
}.

#[export] Instance ManifestStore_eta : Eta ManifestStore :=
  λ s, Build_ManifestStore (ms_files s) (ms_engine_state s) (ms_intents s) (ms_unsyncable s)
         (ms_pending_push s) (ms_blobs s) (ms_tree_nodes s) (ms_tree_node_epochs s) (ms_faults s).

Abbreviation SM := (M ManifestStore ManifestStoreError).

(** One statement. *)
Definition statement : SM unit := λ s,
  match ms_faults s with
  | true :: faults => (Err Sqlite, s <| ms_faults := faults |>)
  | false :: faults => (Ok tt, s <| ms_faults := faults |>)
  | [] => (Ok tt, s)
  end.

Definition execute (f : ManifestStore → ManifestStore) : SM unit := statement ;; modify f.

(** [BEGIN IMMEDIATE .. COMMIT], with rollback. *)
Definition in_transaction {T} (body : SM T) : SM T := λ s,
  match statement s with
  | (Err e, s) => (Err e, s)
  | (Ok _, s) =>
      match body s with
      | (Ok value, s') =>
          match statement s' with
          | (Ok _, s') => (Ok value, s')
          | (Err e, s') => (Err e, s <| ms_faults := ms_faults s' |>)
          end
      | (Err e, s') => (Err e, s <| ms_faults := ms_faults s' |>)
      end
  end.

Fixpoint for_each {A} (l : list A) (f : A → SM unit) : SM unit :=
  match l with [] => mret tt | a :: l => f a ;; for_each l f end.

(** ** Writing the ancestor *)

Definition apply_ancestor (commit : AncestorCommit) : SM unit :=
  for_each (elements (ac_removals commit)) (λ path,
    execute (λ s, s <| ms_files := delete path (ms_files s) |>)) ;;
  for_each (map_to_list (ac_upserts commit)) (λ '(path, record),
    row ← of_result (file_to_row record);
    execute (λ s, s <| ms_files := <[path := row]> (ms_files s) |>)).

Definition delete_pending_push_paths (paths : gset WorkspacePath) : SM unit :=
  for_each (elements paths) (λ path,
    execute (λ s, s <| ms_pending_push := ms_pending_push s ∖ {[path]} |>)).

(** ** The engine-state row *)

(** [INSERT .. ON CONFLICT(singleton) DO UPDATE] *)
Definition upsert_engine (f : EngineRow → EngineRow) (s : ManifestStore) : ManifestStore :=
  s <| ms_engine_state := Some (f (default empty_row (ms_engine_state s))) |>.

Definition next_materialization_revision : SM Z :=
  statement ;;
  s ← get;
  let current := default 0 (er_materialization_revision <$> ms_engine_state s) in
  ok_or (ValueOutOfRange "materialization_revision")
    (if current + 1 <=? i64_top then Some (current + 1) else None).

Definition set_applied (manifest_key : ManifestKey) (ref_version : Z) : SM unit :=
  next ← next_materialization_revision;
  execute (upsert_engine (λ r, r <| er_applied_manifest_key := Some manifest_key |>
                                 <| er_last_ref_version := Some ref_version |>
                                 <| er_materialization_revision := next |>)).

Definition advance_materialization_revision : SM unit :=
  next ← next_materialization_revision;
  execute (upsert_engine (λ r, r <| er_materialization_revision := next |>)).

(** The single writer of the ratchet: the [WHERE] clause of the upsert. *)
Definition ratchet_advances (r : EngineRow) (ref_version : Z) : bool :=
  is_none_or (λ highest, highest <? ref_version) (er_highest_verified_ref_version r).

Definition advance_verified_ratchet (manifest_key : ManifestKey) (ref_version : Z) : SM unit :=
  execute (upsert_engine (λ r,
    if ratchet_advances r ref_version then
      r <| er_highest_verified_ref_version := Some ref_version |>
        <| er_highest_verified_manifest_key := Some manifest_key |>
    else r)).

Definition raise_floor (r : EngineRow) : EngineRow :=
  match er_last_ref_version r, er_applied_manifest_key r with
  | Some last, Some _ =>
      if ratchet_advances r last then
        r <| er_highest_verified_ref_version := er_last_ref_version r |>
          <| er_highest_verified_manifest_key := er_applied_manifest_key r |>
      else r
  | _, _ => r
  end.

(** The [UPDATE] that [open] runs. *)
Definition raise_ratchet_floor : SM unit :=
  execute (λ s, s <| ms_engine_state := raise_floor <$> ms_engine_state s |>).

(** [ManifestStore::open], past the creation of the tables. *)
Definition open_store : SM unit := raise_ratchet_floor.

Definition engine_state : SM EngineState :=
  statement ;;
  s ← get;
  match ms_engine_state s with
  | Some row => of_result (row_to_engine_state row)
  | None => mret EngineState_default
  end.

(** ** Transactions *)

Definition record_unsyncable (observed : gmap WorkspacePath UnsyncableRecord)
    (resolved : gset WorkspacePath) : SM unit :=
  if bool_decide (observed = ∅) && bool_decide (resolved = ∅) then mret tt else
  in_transaction (
    for_each (elements resolved) (λ path,
      execute (λ s, s <| ms_unsyncable := delete path (ms_unsyncable s) |>)) ;;
    for_each (map_to_list observed) (λ '(path, record),
      execute (λ s, s <| ms_unsyncable := <[path := record]> (ms_unsyncable s) |>))).

Definition record_sealed_blobs (blobs : gmap ContentId SealedBlob) : SM unit :=
  if bool_decide (map_to_list blobs = []) then mret tt else
  in_transaction (for_each (map_to_list blobs) (λ '(content_id, blob),
    byte_len ← of_result (to_i64 (sb_byte_len blob));
    execute (λ s, s <| ms_blobs := <[content_id := {| sb_blob_key := sb_blob_key blob;
                                       sb_key_epoch := sb_key_epoch blob;
                                       sb_byte_len := byte_len |}]> (ms_blobs s) |>))).

Definition sealed_blob (content_id : ContentId) (key_epoch : KeyEpoch) : SM (option SealedBlob) :=
  statement ;;
  s ← get;
  mret (option_filter (λ blob, sb_key_epoch blob =? key_epoch) (ms_blobs s !! content_id)).

Definition tree_node (subtree_hash : string) (key_epoch : KeyEpoch) : SM (option ManifestKey) :=
  statement ;;
  s ← get;
  mret (fst <$> option_filter (λ '(_, epoch), epoch =? key_epoch) (ms_tree_nodes s !! subtree_hash)).

Definition record_tree_node_epochs (node_keys : list ManifestKey) (key_epoch : KeyEpoch) : SM unit :=
  for_each node_keys (λ node_key,
    execute (λ s, s <| ms_tree_node_epochs := <[node_key := key_epoch]> (ms_tree_node_epochs s) |>)).

Definition record_tree_nodes (nodes : gmap string ManifestKey) (key_epoch : KeyEpoch) : SM unit :=
  if bool_decide (nodes = ∅) then mret tt else
  in_transaction (
    for_each (map_to_list nodes) (λ '(subtree_hash, node_key),
      execute (λ s, s <| ms_tree_nodes := <[subtree_hash := (node_key, key_epoch)]>
                                            (ms_tree_nodes s) |>)) ;;
    record_tree_node_epochs (map_to_list nodes).*2 key_epoch).

Definition record_tree_node_epoch (node_key : ManifestKey) (key_epoch : KeyEpoch) : SM unit :=
  in_transaction (record_tree_node_epochs [node_key] key_epoch).

Definition record_highest_verified (ref_version : Z) (manifest_key : ManifestKey) : SM unit :=
  version ← of_result (to_i64 ref_version);
  in_transaction (advance_verified_ratchet manifest_key version).

Definition record_ref_advance (manifest_key : ManifestKey) (ref_version : Z) : SM unit :=
  version ← of_result (to_i64 ref_version);
  in_transaction (
    set_applied manifest_key version ;;
    advance_verified_ratchet manifest_key version).

Definition commit_push_success (commit : AncestorCommit) (manifest_key : ManifestKey)
    (ref_version : Z) (settled_paths : gset WorkspacePath) : SM unit :=
  version ← of_result (to_i64 ref_version);
  in_transaction (
    apply_ancestor commit ;;
    set_applied manifest_key version ;;
    advance_verified_ratchet manifest_key version ;;
    delete_pending_push_paths settled_paths).

Definition pending_push_paths : SM (gset WorkspacePath) :=
  statement ;; s ← get; mret (ms_pending_push s).

Definition clear_pending_push_paths (paths : gset WorkspacePath) : SM unit :=
  in_transaction (delete_pending_push_paths paths).

Definition commit_push_no_change (commit : AncestorCommit) (settled_paths : gset WorkspacePath)
    : SM unit :=
  in_transaction (apply_ancestor commit ;; delete_pending_push_paths settled_paths).

Definition refresh_local_file_records (records : gmap WorkspacePath FileRecord) : SM unit :=
  in_transaction (apply_ancestor {| ac_upserts := records; ac_removals := ∅ |}).

Definition commit_pull_outcome (commit : AncestorCommit) (applied verified : option (ManifestKey * Z))
    (intent_ids : list WorkspacePath) (push_again : gset WorkspacePath) : SM unit :=
  let materialization_changed :=
    negb (bool_decide (ac_upserts commit = ∅)) || negb (bool_decide (ac_removals commit = ∅))
    || negb (bool_decide (intent_ids = [])) in
  in_transaction (
    apply_ancestor commit ;;
    match applied with
    | Some (manifest_key, ref_version) =>
        version ← of_result (to_i64 ref_version); set_applied manifest_key version
    | None => if materialization_changed then advance_materialization_revision else mret tt
    end ;;
    match verified with
    | Some (manifest_key, ref_version) =>
        version ← of_result (to_i64 ref_version); advance_verified_ratchet manifest_key version
    | None => mret tt
    end ;;
    for_each intent_ids (λ path,
      execute (λ s, s <| ms_intents := delete path (ms_intents s) |>)) ;;
    for_each (elements push_again) (λ path,
      execute (λ s, s <| ms_pending_push := {[path]} ∪ ms_pending_push s |>))).

Definition open_intent (intent : Intent) : SM unit :=
  execute (λ s, s <| ms_intents := <[in_path intent := intent]> (ms_intents s) |>).

(** ** Queries *)

Definition path_order (a b : string) : Prop := String.leb a b = true.
#[export] Instance path_order_dec a b : Decision (path_order a b) := decide (String.leb a b = true).

(** [ORDER BY path] *)
Definition pending_intents : SM (list Intent) :=
  statement ;;
  s ← get;
  let paths := merge_sort path_order (elements (dom (ms_intents s))) in
  mret (omap (λ path, ms_intents s !! path) paths).

Fixpoint read_rows (rows : list (WorkspacePath * FileRow))
    : Result (gmap WorkspacePath FileRecord) ManifestStoreError :=
  match rows with
  | [] => Ok ∅
  | (path, row) :: rows =>
      result_bind (row_to_file row) (λ record,
      result_map (λ files, <[path := record]> files) (read_rows rows))
  end.

Definition all_files : SM (gmap WorkspacePath FileRecord) :=
  statement ;; s ← get; of_result (read_rows (map_to_list (ms_files s))).

Definition files_at_paths (paths : gset WorkspacePath) : SM (gmap WorkspacePath FileRecord) :=
  statement ;;
  s ← get;
  of_result (read_rows (map_to_list (filter (λ '(path, _), path ∈ paths) (ms_files s)))).

(** [path = scope OR (path >= scope || '/' AND path < scope || '0')] *)
Definition in_scope (scope path : WorkspacePath) : bool :=
  (path =? scope)%string
  || (String.leb (scope +:+ "/") path && negb (String.leb (scope +:+ "0") path)).

Definition files_in_scopes (scopes : gset WorkspacePath) : SM (gmap WorkspacePath FileRecord) :=
  statement ;;
  s ← get;
  of_result (read_rows (map_to_list
    (filter (λ '(path, _), existsb (λ scope, in_scope scope path) (elements scopes) = true)
       (ms_files s)))).

Definition file_count : SM Z :=
  statement ;; s ← get; mret (Z.of_nat (size (ms_files s))).

Definition has_files_outside_key_epoch (key_epoch : KeyEpoch) : SM bool :=
  statement ;;
  s ← get;
  mret (existsb (λ '(_, row), is_some_and (λ epoch, negb (epoch =? key_epoch)) (row_key_epoch row))
          (map_to_list (ms_files s))).

Definition tree_node_key_epoch (node_key : ManifestKey) : SM (option KeyEpoch) :=
  statement ;;
  s ← get;
  match ms_tree_node_epochs s !! node_key with
  | None => mret None
  | Some value => of_result (result_map Some (u32_from_i64 value "key_epoch"))
  end.
