(* ===== verification/Ordered.v ===== *)
(** * Ordered iteration

    The bytewise order of strings and the iteration of a [BTreeMap]: ascending keys,
    each once. *)

From stdpp Require Import strings sorting.
From S2P Require Import Prelude.
From S2P Require Import MergeMatrix.
From S2P Require Import Paths.
From S2P Require Import Asides.
Local Open Scope string_scope.
Open Scope Z_scope.

(** [BTreeMap] iteration: ascending keys. *)
Definition btree_iter {A} (m : gmap string A) : list (string * A) :=
  omap (λ k, pair k <$> m !! k) (merge_sort str_le (elements (dom m))).

(** ** The bytewise order *)

Lemma leb_le a b : String.leb a b = true ↔ String.le a b.
Proof. unfold String.le. by rewrite Is_true_true. Qed.

Lemma leb_refl a : String.leb a a = true.
Proof. by apply leb_le. Qed.

Lemma leb_trans a b c : String.leb a b = true → String.leb b c = true → String.leb a c = true.
Proof. rewrite !leb_le. apply transitivity. Qed.

Lemma leb_app a b : String.leb a (a +:+ b) = true.
Proof.
  induction a as [|c a IH]; [by destruct b|]. rewrite str_app_cons.
  unfold String.leb in *. cbn. unfold Ascii.compare. by rewrite N.compare_refl.
Qed.

#[export] Instance str_le_trans : Transitive str_le.
Proof. intros a b c. apply leb_trans. Qed.

#[export] Instance str_le_total : Total str_le.
Proof. intros a b. apply String.leb_total. Qed.

#[export] Instance str_le_antisymm : AntiSymm (=) str_le.
Proof. intros a b. apply String.leb_antisym. Qed.

Definition str_lt (a b : string) : Prop := String.leb b a = false.

Lemma str_lt_le a b : str_lt a b ↔ str_le a b ∧ a ≠ b.
Proof.
  unfold str_lt, str_le. split.
  - intros Hl. split; [|by intros ->; rewrite leb_refl in Hl].
    destruct (String.leb_total a b) as [|Hb]; [done|]. by rewrite Hb in Hl.
  - intros [Hl Hne]. destruct (String.leb b a) eqn:E; [|done].
    by destruct (Hne (String.leb_antisym _ _ Hl E)).
Qed.

#[export] Instance str_lt_trans : Transitive str_lt.
Proof.
  intros a b c. rewrite !str_lt_le. intros [Hab Hne] [Hbc Hne']. split; [by etrans|].
  intros ->. by apply Hne, (anti_symm str_le).
Qed.

#[export] Instance str_lt_irrefl : Irreflexive str_lt.
Proof. intros a. unfold complement, str_lt. by rewrite leb_refl. Qed.

(** A text comes before every longer one it begins. *)
Lemma str_lt_app a b : b ≠ "" → str_lt a (a +:+ b).
Proof.
  intros Hb. apply str_lt_le. split; [apply leb_app|]. intros He.
  apply (f_equal String.length) in He. rewrite str_length_app in He.
  destruct b; [done|]. cbn in He. lia.
Qed.

(** ** Iteration *)

Section Iter.
Context {A : Type}.
Implicit Types m : gmap string A.

Lemma btree_iter_keys m : (btree_iter m).*1 = merge_sort str_le (elements (dom m)).
Proof.
  unfold btree_iter. set (l := merge_sort _ _).
  assert (∀ k, k ∈ l → is_Some (m !! k)) as Hl.
  { intros k. unfold l. rewrite merge_sort_Permutation, elem_of_elements. apply elem_of_dom. }
  clearbody l. induction l as [|k l IH]; [done|]. cbn.
  destruct (Hl k) as [v Hv]; [by constructor|]. rewrite Hv. cbn. f_equal. apply IH.
  intros k' Hk'. apply Hl. by constructor.
Qed.

Lemma elem_of_btree_iter m k v : (k, v) ∈ btree_iter m ↔ m !! k = Some v.
Proof.
  unfold btree_iter. rewrite list_elem_of_omap. split.
  - intros (k' & _ & Hk). destruct (m !! k') eqn:E; naive_solver.
  - intros Hk. exists k. rewrite merge_sort_Permutation, elem_of_elements, elem_of_dom, Hk.
    naive_solver.
Qed.

Lemma btree_iter_NoDup m : NoDup (btree_iter m).*1.
Proof. rewrite btree_iter_keys, merge_sort_Permutation. apply NoDup_elements. Qed.

Lemma btree_iter_sorted m : StronglySorted str_lt (btree_iter m).*1.
Proof.
  pose proof (btree_iter_NoDup m) as Hn. revert Hn. rewrite btree_iter_keys.
  assert (StronglySorted str_le (merge_sort str_le (elements (dom m)))) as Hs.
  { apply Sorted_StronglySorted; [apply _|apply Sorted_merge_sort, _]. }
  revert Hs. generalize (merge_sort str_le (elements (dom m))). clear.
  induction 1 as [|k l Hs IH Hk]; [constructor|]. rewrite NoDup_cons. intros [Hni Hn].
  constructor; [by apply IH|]. rewrite Forall_forall in *. intros x Hx. apply str_lt_le.
  split; [by apply Hk|]. by intros ->.
Qed.

Lemma btree_iter_perm m : btree_iter m ≡ₚ map_to_list m.
Proof.
  apply NoDup_Permutation.
  - eapply NoDup_fmap_1, btree_iter_NoDup.
  - apply NoDup_map_to_list.
  - intros [k v]. by rewrite elem_of_btree_iter, elem_of_map_to_list.
Qed.

Lemma btree_iter_length m : length (btree_iter m) = size m.
Proof. by rewrite btree_iter_perm, length_map_to_list. Qed.

Lemma btree_iter_empty : btree_iter (∅ : gmap string A) = [].
Proof. done. Qed.

Lemma list_to_map_btree_iter m : list_to_map (btree_iter m) = m.
Proof.
  rewrite <-(list_to_map_to_list m) at 2. apply list_to_map_proper.
  - apply btree_iter_NoDup.
  - apply btree_iter_perm.
Qed.

Lemma sorted_keys (l : list (string * A)) :
  StronglySorted str_lt l.*1 → StronglySorted (λ a b, str_lt a.1 b.1) l.
Proof.
  induction l as [|[k v] l IH]; cbn; intros Hs; [constructor|]. inversion_clear Hs as [|?? Hs' Hk].
  constructor; [by apply IH|]. by rewrite Forall_fmap in Hk.
Qed.

Lemma sorted_NoDup (l : list string) : StronglySorted str_lt l → NoDup l.
Proof.
  induction 1 as [|k l _ IH Hk]; [constructor|]. constructor; [|done].
  intros Hin. rewrite Forall_forall in Hk. by destruct (irreflexivity str_lt k (Hk _ Hin)).
Qed.

(** A strictly ascending list is the iteration of its map. *)
Lemma btree_iter_list (l : list (string * A)) :
  StronglySorted str_lt l.*1 → btree_iter (list_to_map l) = l.
Proof.
  intros Hs. pose proof (sorted_NoDup _ Hs) as Hn.
  apply (StronglySorted_unique_strong (λ a b, str_lt a.1 b.1)).
  - intros a b _ _ H1 H2. destruct (irreflexivity str_lt a.1). by etrans.
  - apply sorted_keys, btree_iter_sorted.
  - by apply sorted_keys.
  - rewrite btree_iter_perm. by apply map_to_list_to_map.
Qed.

End Iter.
