(* ===== verification/Tree.v ===== *)
(** * Directory nodes

    Models the wire form of a manifest: [manifest/tree.rs] (a directory node, its
    decoder and the per-entry checks), [manifest/directory_tree.rs] (the
    decomposition of a flat manifest into directories and the content hash of each
    subtree) and the parts of [manifest.rs] they meet: the decode limits, the
    reader's path check and the sealing of a node.

    Three libraries are parameters: BLAKE3 ([Blake3]), the postcard encoding of a
    node ([NodeCodec]) and the sealing half of the envelope ([Sealing]; the opening
    half is [Envelope]).  [EnvelopeLaws] and [NodeCodecLaws] state what their
    documentation promises. *)

From Stdlib Require Import Ascii.
From S2P Require Import Prelude.
From S2P Require Import ManifestTypes.
From S2P Require Import MergeMatrix.
From S2P Require Import Ordered.
From S2P Require Import Materialize.
From S2P Require Import Paths.
Local Open Scope string_scope.
Open Scope Z_scope.

(** ** The Rust library *)

(** [map.entry(key).or_default()] *)
Definition or_default {A} (key : string) (m : gmap string (gmap string A))
    : gmap string (gmap string A) :=
  match m !! key with Some _ => m | None => <[key := ∅]> m end.

(** [for x in l { acc = f(acc, x)? }] *)
Fixpoint try_fold {A B E} (f : B → A → Result B E) (acc : B) (l : list A) : Result B E :=
  match l with
  | [] => Ok acc
  | a :: l => result_bind (f acc a) (λ acc, try_fold f acc l)
  end.

(** [u64::to_le_bytes] for [n = 8]. *)
Fixpoint le_bytes (n : nat) (z : Z) : bytes :=
  match n with
  | O => ""
  | Datatypes.S n => String (ascii_of_N (Z.to_N (z mod 256))) (le_bytes n (z / 256))
  end.

(** [blake3::hash(..).to_hex()] and its keyed form. *)
Class Blake3 := {
  blake3_hex : bytes → string;
  blake3_keyed_hex : string → bytes → string;
}.

(** ** [manifest/tree.rs] *)

Abbreviation DirPath := string (only parsing).
Abbreviation SubtreeHash := string (only parsing).

Inductive TreeEntryPayload :=
| TreeFile (size : Z) (mode : FileMode) (content_id : ContentId) (blob_key : BlobKey)
    (key_epoch : KeyEpoch)
| TreeDirectory (mode : FileMode) (child : ManifestKey)
| TreeSubtree (child : ManifestKey)
| TreeSymlink (mode : FileMode) (target : string).

#[export] Instance TreeEntryPayload_eq_dec : EqDecision TreeEntryPayload.
Proof. solve_decision. Defined.

(** [TreeEntryPayload::child] *)
Definition payload_child (payload : TreeEntryPayload) : option ManifestKey :=
  match payload with
  | TreeDirectory _ child | TreeSubtree child => Some child
  | TreeFile _ _ _ _ _ | TreeSymlink _ _ => None
  end.

Record TreeEntry := { te_name : string; te_payload : TreeEntryPayload }.

Record TreeNode := {
  tn_format_version : Z;
  tn_key_epoch : KeyEpoch;
  tn_entries : list TreeEntry;
}.

Definition TREE_FORMAT_VERSION : Z := 1.
Definition MAX_NAME_LEN : Z := 255.

(** [TreeNode::new] *)
Definition tree_node_new (key_epoch : KeyEpoch) (entries : list TreeEntry) : TreeNode :=
  {| tn_format_version := TREE_FORMAT_VERSION; tn_key_epoch := key_epoch; tn_entries := entries |}.

(** [postcard::to_allocvec] and [postcard::from_bytes]. *)
Class NodeCodec := {
  to_allocvec : TreeNode → option bytes;
  from_bytes : bytes → option TreeNode;
}.

(** Postcard decodes what it encoded. *)
Class NodeCodecLaws `{NodeCodec} :=
  from_to_bytes : ∀ node plaintext, to_allocvec node = Some plaintext → from_bytes plaintext = Some node.

(** ** [DecodeLimits] and the reader's path check ([manifest.rs]) *)

Record DecodeLimits := {
  max_sealed_bytes : Z;
  max_decoded_bytes : Z;
  max_records : Z;
  max_node_entries : Z;
  max_path_len : Z;
  max_name_len : Z;
  max_depth : Z;
  max_aggregate_declared_bytes : Z;
  max_aggregate_decoded_bytes : Z;
  allow_workspace_state_paths : bool;
}.

Definition DecodeLimits_default : DecodeLimits :=
  {| max_sealed_bytes := 64 * 1024 * 1024;
     max_decoded_bytes := 256 * 1024 * 1024;
     max_records := 2000000;
     max_node_entries := 1000000;
     max_path_len := MAX_WORKSPACE_PATH_LEN;
     max_name_len := MAX_NAME_LEN;
     max_depth := MAX_WORKSPACE_PATH_DEPTH;
     max_aggregate_declared_bytes := 8 * 1024 * 1024 * 1024 * 1024;
     max_aggregate_decoded_bytes := 2 * 1024 * 1024 * 1024;
     allow_workspace_state_paths := false |}.

#[export] Instance DecodeLimits_eta : Eta DecodeLimits :=
  λ l, Build_DecodeLimits (max_sealed_bytes l) (max_decoded_bytes l) (max_records l)
         (max_node_entries l) (max_path_len l) (max_name_len l) (max_depth l)
         (max_aggregate_declared_bytes l) (max_aggregate_decoded_bytes l)
         (allow_workspace_state_paths l).

Definition project_view : DecodeLimits :=
  DecodeLimits_default <| allow_workspace_state_paths := true |>.

(** [PathRejection::reason] *)
Definition rejection_reason (rejection : PathRejection) : string :=
  match rejection with
  | Empty => "path is empty"
  | Absolute => "path is absolute"
  | NotNormalized => "path is not normalized-relative"
  | Traversal => "path escapes the workspace"
  | PrivateEngineState => "path is private engine state"
  | TooLong => "path exceeds the maximum length"
  | TooDeep => "path exceeds the maximum depth"
  end.

Definition validate_manifest_path (path : string) (limits : DecodeLimits)
    : Result unit ManifestError :=
  match publishable_workspace_path path (max_path_len limits)
          (allow_workspace_state_paths limits) with
  | Ok _ => Ok tt
  | Err TooLong => Err (BoundExceeded "path-length")
  | Err TooDeep => Err (BoundExceeded "path-depth")
  | Err rejection => Err (InvalidPath (rejection_reason rejection))
  end.

(** ** Decoding a node *)

Definition validate_name (name : string) (limits : DecodeLimits) : Result unit ManifestError :=
  if (name =? "")%string then Err (InvalidEntry "tree entry name is empty") else
  if max_name_len limits <? str_len name then Err (BoundExceeded "name-length") else
  if contains "/" name then Err (InvalidEntry "tree entry name contains a separator") else
  if (name =? ".")%string || (name =? "..")%string
  then Err (InvalidEntry "tree entry name traverses") else Ok tt.

Definition validate_payload (payload : TreeEntryPayload) (limits : DecodeLimits)
    : Result unit ManifestError :=
  match payload with
  | TreeSymlink _ target =>
      if (target =? "")%string then Err (InvalidEntry "symlink target is empty") else
      if max_path_len limits <? str_len target then Err (BoundExceeded "symlink-target-length")
      else Ok tt
  | _ => Ok tt
  end.

(** The loop of [TreeNode::decode] over the entries. *)
Fixpoint validate_entries (limits : DecodeLimits) (previous : option string)
    (entries : list TreeEntry) : Result unit ManifestError :=
  match entries with
  | [] => Ok tt
  | entry :: entries =>
      result_bind (validate_name (te_name entry) limits) (λ _,
      if is_some_and (String.leb (te_name entry)) previous then
        Err (if is_some_and (String.eqb (te_name entry)) previous then DuplicatePath else NotSorted)
      else
      result_bind (validate_payload (te_payload entry) limits) (λ _,
      validate_entries limits (Some (te_name entry)) entries))
  end.

Section Nodes.
Context `{Blake3} `{NodeCodec}.

Definition to_canonical_bytes (node : TreeNode) : Result bytes ManifestError :=
  result_ok_or (Serialization "tree node serialization failed") (to_allocvec node).

(** [TreeNode::decode] *)
Definition decode_node (plaintext : bytes) (expected_epoch : KeyEpoch) (limits : DecodeLimits)
    : Result TreeNode ManifestError :=
  result_bind (result_ok_or (Serialization "tree node decode failed") (from_bytes plaintext)) (λ node,
  if negb (tn_format_version node =? TREE_FORMAT_VERSION)
  then Err (UnsupportedFormatVersion (tn_format_version node)) else
  if negb (tn_key_epoch node =? expected_epoch) then Err KeyEpochMismatch else
  if max_node_entries limits <? Z.of_nat (length (tn_entries node))
  then Err (BoundExceeded "node-entry-count") else
  result_bind (validate_entries limits None (tn_entries node)) (λ _, Ok node)).

(** ** Node identity and sealing ([manifest.rs]) *)

Definition TREE_NODE_CONTENT_DOMAIN : bytes := "bowline/workspace-tree-node/v1".

Definition keyed_content_id (workspace_key : string) (domain plaintext : bytes) (prefix : string)
    : ContentId :=
  prefix +:+ "_"
    +:+ blake3_keyed_hex workspace_key (le_bytes 8 (str_len domain) +:+ domain +:+ plaintext).

(** [WorkspaceCrypto::tree_node_content_id]: [None] where the [expect] panics. *)
Definition tree_node_content_id (crypto : WorkspaceCrypto) (plaintext : bytes) : option ContentId :=
  (λ key, keyed_content_id key TREE_NODE_CONTENT_DOMAIN plaintext "mcid")
    <$> cr_keys crypto !! cr_write_epoch crypto.

Definition physical_manifest_key (sealed : bytes) : ManifestKey := "m_" +:+ blake3_hex sealed.

Definition tree_node_context (key_epoch : KeyEpoch) (format_version : Z) : EnvelopeContext :=
  {| ec_object_id := as_aad WorkspaceManifestV1; ec_record_id := as_aad WorkspaceManifestV1;
     ec_key_epoch := key_epoch; ec_format_version := format_version |}.

End Nodes.

(** The sealing half of the envelope. *)
Class Sealing := seal : bytes → string → EnvelopeContext → Result bytes EnvelopeError.

(** The envelope is authenticated encryption: what was sealed opens under the same
    key and context, within the size cap, and under no other. *)
Class EnvelopeLaws `{Sealing} `{Envelope} := {
  open_sealed : ∀ plaintext key context sealed cap,
    seal plaintext key context = Ok sealed →
    open_bounded sealed key context cap
    = if cap <? str_len plaintext then Err DecodedSizeExceeded else Ok plaintext;
  open_other : ∀ plaintext key context sealed key' context' cap,
    seal plaintext key context = Ok sealed → (key', context') ≠ (key, context) →
    open_bounded sealed key' context' cap = Err EnvelopeRefused;
}.

Section NodeEnvelope.
Context `{Sealing} `{Envelope}.

(** [seal_tree_node]: [None] where [storage_key()] panics. *)
Definition seal_tree_node (crypto : WorkspaceCrypto) (plaintext : bytes)
    : option (Result bytes ManifestError) :=
  (λ key,
     match seal plaintext key (tree_node_context (cr_write_epoch crypto) ENVELOPE_FORMAT_VERSION) with
     | Ok sealed => Ok sealed
     | Err error => Err (EnvelopeFailed error)
     end) <$> cr_keys crypto !! cr_write_epoch crypto.

(** The held epochs, newest first: [crypto.keys.iter().rev()]. *)
Definition epochs_descending (crypto : WorkspaceCrypto) : list (KeyEpoch * string) :=
  omap (λ epoch, pair epoch <$> cr_keys crypto !! epoch)
    (reverse (merge_sort Z.le (elements (dom (cr_keys crypto))))).

Fixpoint open_at_epochs (epochs : list (KeyEpoch * string)) (write_epoch : KeyEpoch)
    (sealed : bytes) (limits : DecodeLimits) (last_error : option EnvelopeError)
    : Result (bytes * KeyEpoch) ManifestError :=
  match epochs with
  | [] => Err (match last_error with
               | Some error => EnvelopeFailed error
               | None => UnknownKeyEpoch write_epoch
               end)
  | (key_epoch, key) :: epochs =>
      match open_bounded sealed key (tree_node_context key_epoch ENVELOPE_FORMAT_VERSION)
              (max_decoded_bytes limits) with
      | Ok plaintext => Ok (plaintext, key_epoch)
      | Err DecodedSizeExceeded => Err (BoundExceeded "decoded-size")
      | Err error => open_at_epochs epochs write_epoch sealed limits (Some error)
      end
  end.

Definition open_tree_node (crypto : WorkspaceCrypto) (sealed : bytes) (limits : DecodeLimits)
    : Result (bytes * KeyEpoch) ManifestError :=
  if max_sealed_bytes limits <? str_len sealed then Err (BoundExceeded "sealed-size") else
  open_at_epochs (epochs_descending crypto) (cr_write_epoch crypto) sealed limits None.

End NodeEnvelope.

(** ** [manifest/directory_tree.rs] *)

(** [DirPath::child] *)
Definition dir_child (dir : DirPath) (name : string) : DirPath :=
  if (dir =? "")%string then name else dir +:+ "/" +:+ name.

Inductive ChildSpec :=
| Leaf (entry : ManifestEntry)
| ChildDirectory (mode : FileMode)
| ChildSubtree.

Abbreviation DirectoryTree := (gmap DirPath (gmap string ChildSpec)).

Definition claim_child (nodes : DirectoryTree) (parent : DirPath) (name : string)
    (incoming : ChildSpec) : Result DirectoryTree ManifestError :=
  let children := default ∅ (nodes !! parent) in
  let inserted := <[parent := <[name := incoming]> children]> nodes in
  match children !! name, incoming with
  | None, _ => Ok inserted
  | Some ChildSubtree, ChildDirectory _ => Ok inserted
  | Some (ChildDirectory _), ChildSubtree
  | Some ChildSubtree, ChildSubtree => Ok (<[parent := children]> nodes)
  | _, _ => Err (InvalidEntry "path component is claimed as both a file and a directory")
  end.

Definition child_spec (entry : ManifestEntry) : ChildSpec :=
  match entry with
  | DirectoryEntry mode => ChildDirectory mode
  | file_or_symlink => Leaf file_or_symlink
  end.

(** The loop of [insert_path] over the components. *)
Fixpoint insert_components (nodes : DirectoryTree) (parent : DirPath) (components : list string)
    (entry : ManifestEntry) : Result DirectoryTree ManifestError :=
  match components with
  | [] => Ok nodes
  | component :: rest =>
      if (component =? "")%string then Err (InvalidPath "path has an empty component") else
      match rest with
      | _ :: _ =>
          result_bind (claim_child nodes parent component ChildSubtree) (λ nodes,
          let parent := dir_child parent component in
          insert_components (or_default parent nodes) parent rest entry)
      | [] =>
          let spec := child_spec entry in
          result_bind (claim_child nodes parent component spec) (λ nodes,
          Ok match spec with
             | ChildDirectory _ => or_default (dir_child parent component) nodes
             | _ => nodes
             end)
      end
  end.

Definition insert_path (nodes : DirectoryTree) (path : WorkspacePath) (entry : ManifestEntry)
    : Result DirectoryTree ManifestError :=
  insert_components nodes "" (split slash path) entry.

(** [DirectoryTree::decompose] *)
Definition decompose (entries : gmap WorkspacePath ManifestEntry)
    : Result DirectoryTree ManifestError :=
  try_fold (λ nodes '(path, entry), insert_path nodes path entry) {[ "" := ∅ ]}
    (btree_iter entries).

(** ** Subtree hashes *)

Definition SUBTREE_DOMAIN : bytes := "bowline/manifest-subtree/v1".

(** Bytes are appended to the hasher: the hashed text is their concatenation. *)
Definition write_bytes (content : bytes) : bytes := le_bytes 8 (str_len content) +:+ content.

Definition child_hash (dir : DirPath) (name : string) (hashes : gmap DirPath SubtreeHash)
    : Result SubtreeHash ManifestError :=
  result_ok_or (ManifestInternal "child subtree hash was not computed before its parent")
    (hashes !! dir_child dir name).

Definition byte (n : N) : bytes := String (ascii_of_N n) "".

Definition write_child (dir : DirPath) (name : string) (spec : ChildSpec)
    (hashes : gmap DirPath SubtreeHash) : Result bytes ManifestError :=
  match spec with
  | Leaf (FileEntry size mode content_id blob_key key_epoch) =>
      Ok (byte 0 +:+ le_bytes 8 size +:+ le_bytes 8 mode +:+ write_bytes content_id
            +:+ write_bytes blob_key +:+ le_bytes 8 key_epoch)
  | Leaf (SymlinkEntry mode target) =>
      Ok (byte 1 +:+ le_bytes 8 mode +:+ write_bytes target)
  | ChildDirectory mode =>
      result_bind (child_hash dir name hashes) (λ hash,
      Ok (byte 2 +:+ le_bytes 8 mode +:+ write_bytes hash))
  | ChildSubtree =>
      result_bind (child_hash dir name hashes) (λ hash, Ok (byte 3 +:+ write_bytes hash))
  | Leaf (DirectoryEntry _) => Err (ManifestInternal "directory entry occupies a leaf slot")
  end.

(** The bytes a directory's hasher is fed before its children. *)
Definition directory_header (key_epoch : KeyEpoch) (count : nat) : bytes :=
  write_bytes SUBTREE_DOMAIN +:+ le_bytes 8 TREE_FORMAT_VERSION +:+ le_bytes 8 key_epoch
    +:+ le_bytes 8 (Z.of_nat count).

Section SubtreeHashes.
Context `{Blake3}.

Definition hash_directory (dir : DirPath) (children : gmap string ChildSpec) (key_epoch : KeyEpoch)
    (hashes : gmap DirPath SubtreeHash) : Result SubtreeHash ManifestError :=
  result_bind
    (try_fold (λ written '(name, spec),
       result_map (λ child, written +:+ write_bytes name +:+ child) (write_child dir name spec hashes))
       (directory_header key_epoch (size children)) (btree_iter children))
    (λ written, Ok ("st_" +:+ blake3_hex written)).

(** [DirectoryTree::subtree_hashes] *)
Definition subtree_hashes (nodes : DirectoryTree) (key_epoch : KeyEpoch)
    : Result (gmap DirPath SubtreeHash) ManifestError :=
  try_fold (λ hashes '(dir, children),
      result_map (λ hash, <[dir := hash]> hashes) (hash_directory dir children key_epoch hashes))
    ∅ (reverse (btree_iter nodes)).

End SubtreeHashes.
