(* ===== verification/TreeTransport.v ===== *)
(** * Moving a manifest as a tree of nodes

    Models [tree_transport.rs] and [tree_transport/publish.rs], [fetch.rs] and
    [diff.rs]: the node ledger, publishing a flat manifest as sealed directory
    nodes, flattening a root back, and comparing two roots.

    The object store is behind the class [RemoteObjects], as it is behind the trait
    in the code; [RemoteObjectsLaws] is the contract of a create-only, content-named
    store.  The recursions on depth carry [room], the number of levels the depth
    guard still admits: [depth > max] is [room = 0].  [NameFolding::fold] is a
    parameter.  Counters are not modelled. *)

From S2P Require Import Prelude.
From S2P Require Import ManifestTypes.
From S2P Require Import MergeMatrix.
From S2P Require Import Ordered.
From S2P Require Import Materialize.
From S2P Require Import Store.
From S2P Require Import Paths.
From S2P Require Import Tree.
Local Open Scope string_scope.
Open Scope Z_scope.

(** ** The object store ([remote.rs]) *)

Inductive TransportError := TransportFailed.

Record ManifestBatchUpload := {
  mu_key : ManifestKey;
  mu_content_id : ContentId;
  mu_key_epoch : KeyEpoch;
  mu_sealed : bytes;
}.

(** A call that fails may have stored some of its uploads. *)
Class RemoteObjects (O : Type) := {
  get_manifest : O → ManifestKey → Result bytes TransportError;
  put_manifests : list ManifestBatchUpload → M O TransportError unit;
}.

(** Uploads that returned are stored, and an object once stored does not change. *)
Class RemoteObjectsLaws (Obj : Type) `{RemoteObjects Obj} := {
  put_stores : ∀ uploads objects objects' upload,
    put_manifests uploads objects = (Ok tt, objects') → upload ∈ uploads →
    get_manifest objects' (mu_key upload) = Ok (mu_sealed upload);
  put_keeps : ∀ uploads objects r objects' key sealed,
    put_manifests uploads objects = (r, objects') → get_manifest objects key = Ok sealed →
    get_manifest objects' key = Ok sealed;
}.

(** ** [tree_transport.rs] *)

(** [TreePanicked] is not a variant: it is a call that would unwind. *)
Inductive TreeError :=
| TreeManifest (error : ManifestError)
| TreeStore (error : ManifestStoreError)
| TreeTransportFailed (error : TransportError)
| NodeKeyMismatch
| TreePanicked (reason : string).

Definition tree_bound (bound : string) : TreeError := TreeManifest (BoundExceeded bound).
Definition tree_internal (reason : string) : TreeError := TreeManifest (ManifestInternal reason).

Class TreeNodeLookup (L : Type) := known : SubtreeHash → M L TreeError (option ManifestKey).

Class TreeNodeLedger (L : Type) `{TreeNodeLookup L} := record : SubtreeHash → ManifestKey → L → L.

(** [UnledgeredNodes] *)
Inductive UnledgeredNodes := unledgered_nodes.

#[export] Instance unledgered_lookup : TreeNodeLookup UnledgeredNodes := λ _, mret None.
#[export] Instance unledgered_ledger : TreeNodeLedger UnledgeredNodes := λ _ _ ledger, ledger.

Record StoreNodeLedger := {
  sl_store : ManifestStore;
  sl_key_epoch : KeyEpoch;
  sl_fresh : gmap SubtreeHash ManifestKey;
}.

#[export] Instance StoreNodeLedger_eta : Eta StoreNodeLedger :=
  λ l, Build_StoreNodeLedger (sl_store l) (sl_key_epoch l) (sl_fresh l).

Definition store_ledger_new (store : ManifestStore) (key_epoch : KeyEpoch) : StoreNodeLedger :=
  {| sl_store := store; sl_key_epoch := key_epoch; sl_fresh := ∅ |}.

Definition store_known (hash : SubtreeHash) : M StoreNodeLedger TreeError (option ManifestKey) :=
  λ ledger,
  match sl_fresh ledger !! hash with
  | Some key => (Ok (Some key), ledger)
  | None =>
      match tree_node hash (sl_key_epoch ledger) (sl_store ledger) with
      | (Ok key, store) => (Ok key, ledger <| sl_store := store |>)
      | (Err error, store) => (Err (TreeStore error), ledger <| sl_store := store |>)
      end
  end.

#[export] Instance store_lookup : TreeNodeLookup StoreNodeLedger := store_known.
#[export] Instance store_ledger : TreeNodeLedger StoreNodeLedger :=
  λ hash key ledger, ledger <| sl_fresh := <[hash := key]> (sl_fresh ledger) |>.

Definition into_recorded (ledger : StoreNodeLedger) : gmap SubtreeHash ManifestKey := sl_fresh ledger.

(** ** Errors and substates *)

(** [map_err(TreeError::Manifest)?] *)
Definition manifest_result {S A} (r : Result A ManifestError) : M S TreeError A :=
  match r with Ok a => mret a | Err error => throw (TreeManifest error) end.

Fixpoint each {S E A} (l : list A) (f : A → M S E unit) : M S E unit :=
  match l with [] => mret tt | a :: l => f a ;; each l f end.

(** ** Publishing ([publish.rs]) *)

Definition leaf_payload (entry : ManifestEntry) : Result TreeEntryPayload ManifestError :=
  match entry with
  | FileEntry size mode content_id blob_key key_epoch =>
      Ok (TreeFile size mode content_id blob_key key_epoch)
  | SymlinkEntry mode target => Ok (TreeSymlink mode target)
  | DirectoryEntry _ => Err (ManifestInternal "directory entry occupies a leaf slot")
  end.

Record NodePublisher (O L : Type) := {
  np_objects : O;
  np_ledger : L;
  np_pending_uploads : list ManifestBatchUpload;
  np_pending_ledger : list (SubtreeHash * ManifestKey);
}.
Arguments np_objects {O L} _.
Arguments np_ledger {O L} _.
Arguments np_pending_uploads {O L} _.
Arguments np_pending_ledger {O L} _.

#[export] Instance NodePublisher_eta O L : Eta (NodePublisher O L) :=
  λ p, Build_NodePublisher O L (np_objects p) (np_ledger p) (np_pending_uploads p)
         (np_pending_ledger p).

Section Publish.
Context {Obj L : Type} `{Blake3} `{NodeCodec} `{Sealing} `{RemoteObjects Obj} `{TreeNodeLedger L}.
Context (crypto : WorkspaceCrypto) (key_epoch : KeyEpoch).
Context (tree : DirectoryTree) (hashes : gmap DirPath SubtreeHash).

Local Abbreviation PM := (M (NodePublisher Obj L) TreeError).

Definition subtree_hash (dir : DirPath) : PM SubtreeHash :=
  ok_or (tree_internal "directory has no subtree hash") (hashes !! dir).

Definition ledger_known (hash : SubtreeHash) : PM (option ManifestKey) := λ p,
  let '(r, ledger) := known hash (np_ledger p) in (r, p <| np_ledger := ledger |>).

Definition sealed_upload (plaintext : bytes) : PM ManifestBatchUpload :=
  let unheld := TreePanicked "write epoch key must exist in workspace crypto keyring" in
  content_id ← ok_or unheld (tree_node_content_id crypto plaintext);
  sealed_result ← ok_or unheld (seal_tree_node crypto plaintext);
  sealed ← manifest_result sealed_result;
  mret {| mu_key := physical_manifest_key sealed; mu_content_id := content_id;
          mu_key_epoch := key_epoch; mu_sealed := sealed |}.

Definition seal_node (node : TreeNode) : PM ManifestKey :=
  plaintext ← manifest_result (to_canonical_bytes node);
  upload ← sealed_upload plaintext;
  modify (λ p, p <| np_pending_uploads := (np_pending_uploads p ++ [upload])%list |>) ;;
  mret (mu_key upload).

(** The payload of one child; [publish] is the recursive call at [depth + 1]. *)
Definition build_payload (publish : DirPath → PM ManifestKey) (dir : DirPath) (name : string)
    (spec : ChildSpec) : PM TreeEntryPayload :=
  match spec with
  | Leaf entry => manifest_result (leaf_payload entry)
  | ChildDirectory mode => child ← publish (dir_child dir name); mret (TreeDirectory mode child)
  | ChildSubtree => child ← publish (dir_child dir name); mret (TreeSubtree child)
  end.

Definition build_entries (publish : DirPath → PM ManifestKey) (dir : DirPath)
    : PM (list TreeEntry) :=
  children ← ok_or (tree_internal "directory has no node in the decomposed tree") (tree !! dir);
  mapM (λ '(name, spec),
    payload ← build_payload publish dir name spec;
    mret {| te_name := name; te_payload := payload |}) (btree_iter children).

Fixpoint publish (room : nat) (dir : DirPath) : PM ManifestKey :=
  match room with
  | O => throw (tree_bound "tree-depth")
  | Datatypes.S room =>
      hash ← subtree_hash dir;
      found ← ledger_known hash;
      match found with
      | Some key => mret key
      | None =>
          entries ← build_entries (publish room) dir;
          key ← seal_node (tree_node_new key_epoch entries);
          modify (λ p, p <| np_pending_ledger := (np_pending_ledger p ++ [(hash, key)])%list |>) ;;
          mret key
      end
  end.

Definition commit_pending : PM unit := λ p,
  match put_manifests (np_pending_uploads p) (np_objects p) with
  | (Err error, objects) => (Err (TreeTransportFailed error), p <| np_objects := objects |>)
  | (Ok _, objects) =>
      (Ok tt, p <| np_objects := objects |>
                <| np_ledger := foldl (λ ledger '(hash, key), record hash key ledger) (np_ledger p)
                                  (np_pending_ledger p) |>
                <| np_pending_ledger := [] |>)
  end.

End Publish.

(** The levels a publish may descend. *)
Definition publish_room : nat := Z.to_nat (MAX_WORKSPACE_PATH_DEPTH + 1).

Record Manifest := { mf_key_epoch : KeyEpoch; mf_entries : gmap WorkspacePath ManifestEntry }.

(** [publish_tree]: the root key, with the object store and the ledger it leaves. *)
Definition publish_tree {Obj L : Type} `{Blake3} `{NodeCodec} `{Sealing} `{RemoteObjects Obj}
    `{TreeNodeLedger L} (crypto : WorkspaceCrypto) (snapshot : Manifest) (objects : Obj) (ledger : L)
    : Result ManifestKey TreeError * (Obj * L) :=
  match decompose (mf_entries snapshot) with
  | Err error => (Err (TreeManifest error), (objects, ledger))
  | Ok tree =>
      match subtree_hashes tree (mf_key_epoch snapshot) with
      | Err error => (Err (TreeManifest error), (objects, ledger))
      | Ok hashes =>
          let '(r, p) :=
            (root ← publish crypto (mf_key_epoch snapshot) tree hashes publish_room "";
             commit_pending ;; mret root)
            {| np_objects := objects; np_ledger := ledger; np_pending_uploads := [];
               np_pending_ledger := [] |} in
          (r, (np_objects p, np_ledger p))
      end
  end.

(** ** Fetching ([fetch.rs]) *)

Record PruneBasis := {
  pb_entries : gmap WorkspacePath ManifestEntry;
  pb_hashes : gmap DirPath SubtreeHash;
}.

Record TreeWalk (L : Type) := {
  tw_ledger : L;
  tw_entries : gmap WorkspacePath ManifestEntry;
  tw_folded : gmap string (list WorkspacePath);
  tw_node_keys : gmap DirPath ManifestKey;
  tw_records : Z;
  tw_aggregate : Z;
  tw_decoded : Z;
}.
Arguments tw_ledger {L} _.
Arguments tw_entries {L} _.
Arguments tw_folded {L} _.
Arguments tw_node_keys {L} _.
Arguments tw_records {L} _.
Arguments tw_aggregate {L} _.
Arguments tw_decoded {L} _.

#[export] Instance TreeWalk_eta L : Eta (TreeWalk L) :=
  λ w, Build_TreeWalk L (tw_ledger w) (tw_entries w) (tw_folded w) (tw_node_keys w) (tw_records w)
         (tw_aggregate w) (tw_decoded w).

(** The entries strictly below [dir], in path order. *)
Definition descendants (entries : gmap WorkspacePath ManifestEntry) (dir : DirPath)
    : list (WorkspacePath * ManifestEntry) :=
  let prefix := if (dir =? "")%string then "" else dir +:+ "/" in
  List.filter (λ '(path, _), starts_with prefix path) (btree_iter entries).

(** [entry(folded).or_default().push(path)] *)
Definition push_folded (folded : string) (path : WorkspacePath)
    (m : gmap string (list WorkspacePath)) : gmap string (list WorkspacePath) :=
  <[folded := (default [] (m !! folded) ++ [path])%list]> m.

(** [collisions]: groups of more than one path, in folded order. *)
Definition fetch_collisions (folded : gmap string (list WorkspacePath)) : list PathCollision :=
  (λ '(key, paths), {| pc_folded := key; pc_paths := merge_sort str_le paths |})
    <$> List.filter (λ '(_, paths), (1 <? length paths)%nat) (btree_iter folded).

(** What a payload makes visible in the flat manifest. *)
Definition visible_entry (payload : TreeEntryPayload) : option ManifestEntry :=
  match payload with
  | TreeFile size mode content_id blob_key key_epoch =>
      Some (FileEntry size mode content_id blob_key key_epoch)
  | TreeDirectory mode _ => Some (DirectoryEntry mode)
  | TreeSymlink mode target => Some (SymlinkEntry mode target)
  | TreeSubtree _ => None
  end.

Record FetchedTree := {
  ft_manifest : Manifest;
  ft_collisions : list PathCollision;
  ft_node_keys : gmap DirPath ManifestKey;
}.

Section Fetch.
Context {Obj L : Type} `{Blake3} `{NodeCodec} `{Envelope} `{RemoteObjects Obj} `{TreeNodeLookup L}.
Context (objects : Obj) (crypto : WorkspaceCrypto) (limits : DecodeLimits).
Context (fold : string → string) (prune : option PruneBasis).

Local Abbreviation WM := (M (TreeWalk L) TreeError).

Definition count_record : WM unit :=
  modify (λ w, w <| tw_records := tw_records w + 1 |>) ;;
  w ← get;
  bail_if (max_records limits <? tw_records w) (tree_bound "record-count").

Definition validate_dir (dir : DirPath) : WM unit :=
  manifest_result (validate_manifest_path dir limits).

Definition emit_path (path : WorkspacePath) (entry : ManifestEntry) : WM unit :=
  validate_dir path ;;
  (match entry with
   | FileEntry size _ _ _ _ =>
       w ← get;
       total ← ok_or (tree_bound "aggregate-declared-size")
         (option_filter (λ total, total <=? max_aggregate_declared_bytes limits)
            (u64_checked_add (tw_aggregate w) size));
       modify (λ w, w <| tw_aggregate := total |>)
   | _ => mret tt
   end) ;;
  modify (λ w, w <| tw_folded := push_folded (fold path) path (tw_folded w) |>) ;;
  modify (λ w, w <| tw_entries := <[path := entry]> (tw_entries w) |>).

Definition open_node (key : ManifestKey) : WM TreeNode :=
  sealed ← (match get_manifest objects key with
            | Ok sealed => mret sealed
            | Err error => throw (TreeTransportFailed error)
            end);
  bail_if (negb (physical_manifest_key sealed =? key)%string) NodeKeyMismatch ;;
  '(plaintext, key_epoch) ← manifest_result (open_tree_node crypto sealed limits);
  modify (λ w, w <| tw_decoded := u64_saturating_add (tw_decoded w) (str_len plaintext) |>) ;;
  w ← get;
  bail_if (max_aggregate_decoded_bytes limits <? tw_decoded w)
    (tree_bound "tree-aggregate-decoded-bytes") ;;
  manifest_result (decode_node plaintext key_epoch limits).

Definition walk_known (hash : SubtreeHash) : WM (option ManifestKey) := λ w,
  let '(r, ledger) := known hash (tw_ledger w) in (r, w <| tw_ledger := ledger |>).

Definition prune_subtree (dir : DirPath) (key : ManifestKey) : WM bool :=
  match prune with
  | None => mret false
  | Some basis =>
      match pb_hashes basis !! dir with
      | None => mret false
      | Some hash =>
          found ← walk_known hash;
          if bool_decide (found ≠ Some key) then mret false else
          each (descendants (pb_entries basis) dir) (λ '(path, entry),
            count_record ;; emit_path path entry) ;;
          mret true
      end
  end.

(** One entry of a node; [descend] is the recursive call at [depth + 1]. *)
Definition walk_entry (descend : DirPath → ManifestKey → WM unit) (dir : DirPath)
    (entry : TreeEntry) : WM unit :=
  let child := dir_child dir (te_name entry) in
  count_record ;;
  match te_payload entry with
  | TreeFile size mode content_id blob_key key_epoch =>
      emit_path child (FileEntry size mode content_id blob_key key_epoch)
  | TreeSymlink mode target => emit_path child (SymlinkEntry mode target)
  | TreeDirectory mode node => emit_path child (DirectoryEntry mode) ;; descend child node
  | TreeSubtree node => validate_dir child ;; descend child node
  end.

Fixpoint descend (room : nat) (dir : DirPath) (key : ManifestKey) : WM unit :=
  match room with
  | O => throw (tree_bound "tree-depth")
  | Datatypes.S room =>
      modify (λ w, w <| tw_node_keys := <[dir := key]> (tw_node_keys w) |>) ;;
      pruned ← prune_subtree dir key;
      if pruned : bool then mret tt else
      node ← open_node key;
      each (tn_entries node) (walk_entry (descend room) dir)
  end.

(** The levels a walk may descend. *)
Definition walk_room : nat := Z.to_nat (max_depth limits + 1).

Definition fetch_tree (root : ManifestKey) (ledger : L) : Result FetchedTree TreeError * L :=
  let '(r, w) := descend walk_room "" root
    {| tw_ledger := ledger; tw_entries := ∅; tw_folded := ∅; tw_node_keys := ∅; tw_records := 0;
       tw_aggregate := 0; tw_decoded := 0 |} in
  (result_map (λ _,
     {| ft_manifest := {| mf_key_epoch := cr_write_epoch crypto; mf_entries := tw_entries w |};
        ft_collisions := fetch_collisions (tw_folded w);
        ft_node_keys := tw_node_keys w |}) r, tw_ledger w).

End Fetch.
