(* ===== verification/TreeDiff.v ===== *)
(** * Comparing two roots

    Models [tree_transport/diff.rs]: the walk of two trees that skips equal node keys
    and collects the paths whose remote value changed, the paths the caller asked for,
    and the name collisions of the directories it opened. *)

From S2P Require Import Prelude.
From S2P Require Import ManifestTypes.
From S2P Require Import MergeMatrix.
From S2P Require Import Ordered.
From S2P Require Import Materialize.
From S2P Require Import Paths.
From S2P Require Import Tree.
From S2P Require Import TreeTransport.
Local Open Scope string_scope.
Open Scope Z_scope.

Record TreeDelta := {
  td_entries : gmap WorkspacePath ManifestEntry;
  td_touched : gset WorkspacePath;
  td_collisions : list PathCollision;
}.

Inductive TreeSide := SideOld | SideNew.

Record OpenedTreeNode := { ot_node : TreeNode; ot_decoded_bytes : Z }.

Record DecodedBudgets := { db_old : Z; db_new : Z }.

#[export] Instance DecodedBudgets_eta : Eta DecodedBudgets :=
  λ b, Build_DecodedBudgets (db_old b) (db_new b).

(** [DecodedBudgets::charge] *)
Definition charge (side : TreeSide) (byte_count limit : Z) (b : DecodedBudgets)
    : Result unit TreeError * DecodedBudgets :=
  let decoded := match side with SideOld => db_old b | SideNew => db_new b end in
  let decoded := u64_saturating_add decoded byte_count in
  let b := match side with
           | SideOld => b <| db_old := decoded |>
           | SideNew => b <| db_new := decoded |>
           end in
  (if limit <? decoded then Err (tree_bound "tree-aggregate-decoded-bytes") else Ok tt, b).

Record TreeDiffer := {
  di_entries : gmap WorkspacePath ManifestEntry;
  di_touched : gset WorkspacePath;
  di_folded : gmap string (list WorkspacePath);
  di_collision_entries : gmap WorkspacePath ManifestEntry;
  di_opened : gmap ManifestKey OpenedTreeNode;
  di_records : Z;
  di_aggregate : Z;
  di_decoded : DecodedBudgets;
}.

#[export] Instance TreeDiffer_eta : Eta TreeDiffer :=
  λ d, Build_TreeDiffer (di_entries d) (di_touched d) (di_folded d) (di_collision_entries d)
         (di_opened d) (di_records d) (di_aggregate d) (di_decoded d).

Abbreviation DM := (M TreeDiffer TreeError).

(** [Vec::dedup]: consecutive duplicates. *)
Fixpoint dedup (l : list string) : list string :=
  match l with
  | [] => []
  | x :: l => match dedup l with
              | y :: l' => if (x =? y)%string then y :: l' else x :: y :: l'
              | [] => [x]
              end
  end.

Definition diff_collisions (folded : gmap string (list WorkspacePath)) : list PathCollision :=
  List.filter (λ collision, (1 <? length (pc_paths collision))%nat)
    ((λ '(key, paths), {| pc_folded := key; pc_paths := dedup (merge_sort str_le paths) |})
       <$> List.filter (λ '(_, paths), (1 <? length paths)%nat) (btree_iter folded)).

Definition entries_by_name (node : TreeNode) : gmap string TreeEntry :=
  foldl (λ m entry, <[te_name entry := entry]> m) ∅ (tn_entries node).

Section Diff.
Context {Obj : Type} `{Blake3} `{NodeCodec} `{Envelope} `{RemoteObjects Obj}.
Context (objects : Obj) (crypto : WorkspaceCrypto) (limits : DecodeLimits) (fold : string → string).

Definition charge_side (side : TreeSide) (byte_count : Z) : DM unit := λ d,
  let '(r, b) := charge side byte_count (max_aggregate_decoded_bytes limits) (di_decoded d) in
  (r, d <| di_decoded := b |>).

Definition diff_open_node (key : ManifestKey) (side : TreeSide) (charge_cached : bool) : DM TreeNode :=
  d ← get;
  match di_opened d !! key with
  | Some opened =>
      (if charge_cached then charge_side side (ot_decoded_bytes opened) else mret tt) ;;
      mret (ot_node opened)
  | None =>
      sealed ← (match get_manifest objects key with
                | Ok sealed => mret sealed
                | Err error => throw (TreeTransportFailed error)
                end);
      bail_if (negb (physical_manifest_key sealed =? key)%string) NodeKeyMismatch ;;
      '(plaintext, epoch) ← manifest_result (open_tree_node crypto sealed limits);
      charge_side side (str_len plaintext) ;;
      node ← manifest_result (decode_node plaintext epoch limits);
      modify (λ d, d <| di_opened := <[key := {| ot_node := node;
                                                 ot_decoded_bytes := str_len plaintext |}]>
                                       (di_opened d) |>) ;;
      mret node
  end.

Definition count_file (entry : TreeEntry) : DM unit :=
  match te_payload entry with
  | TreeFile size _ _ _ _ =>
      d ← get;
      total ← ok_or (tree_bound "aggregate-declared-size")
        (option_filter (λ total, total <=? max_aggregate_declared_bytes limits)
           (u64_checked_add (di_aggregate d) size));
      modify (λ d, d <| di_aggregate := total |>)
  | _ => mret tt
  end.

Definition count_node (node : TreeNode) (new_tree : bool) : DM unit :=
  modify (λ d, d <| di_records := u64_saturating_add (di_records d)
                                    (Z.of_nat (length (tn_entries node))) |>) ;;
  d ← get;
  bail_if (u64_saturating_mul (max_records limits) 2 <? di_records d) (tree_bound "record-count") ;;
  if new_tree then each (tn_entries node) count_file else mret tt.

Definition diff_emit (path : DirPath) (entry : ManifestEntry) : DM unit :=
  manifest_result (validate_manifest_path path limits) ;;
  modify (λ d, d <| di_touched := {[ path ]} ∪ di_touched d |>) ;;
  modify (λ d, d <| di_entries := <[path := entry]> (di_entries d) |>).

Definition touch (path : WorkspacePath) : DM unit :=
  modify (λ d, d <| di_touched := {[ path ]} ∪ di_touched d |>).

Definition record_collisions (dir : DirPath) (entries : list TreeEntry) : DM unit :=
  each entries (λ entry,
    let path := dir_child dir (te_name entry) in
    manifest_result (validate_manifest_path path limits) ;;
    modify (λ d, d <| di_folded := push_folded (fold path) path (di_folded d) |>) ;;
    match visible_entry (te_payload entry) with
    | Some visible =>
        modify (λ d, match di_collision_entries d !! path with
                     | Some _ => d
                     | None => d <| di_collision_entries := <[path := visible]> (di_collision_entries d) |>
                     end)
    | None => mret tt
    end).

(** One entry of an enumerated directory; [enumerate] is the recursive call. *)
Definition enumerate_entry (enumerate : DirPath → ManifestKey → DM unit) (adding : bool)
    (dir : DirPath) (entry : TreeEntry) : DM unit :=
  let child := dir_child dir (te_name entry) in
  (if adding then
     match visible_entry (te_payload entry) with
     | Some visible => diff_emit child visible
     | None => mret tt
     end
   else if is_some (visible_entry (te_payload entry)) then touch child else mret tt) ;;
  match payload_child (te_payload entry) with
  | Some node => enumerate child node
  | None => mret tt
  end.

Fixpoint enumerate (adding : bool) (room : nat) (dir : DirPath) (key : ManifestKey) : DM unit :=
  match room with
  | O => throw (tree_bound "tree-depth")
  | Datatypes.S room =>
      node ← diff_open_node key (if adding then SideNew else SideOld) true;
      count_node node adding ;;
      (if adding then record_collisions dir (tn_entries node) else mret tt) ;;
      each (tn_entries node) (enumerate_entry (enumerate adding room) adding dir)
  end.

Definition add_entry (room : nat) (path : DirPath) (entry : TreeEntry) : DM unit :=
  (match visible_entry (te_payload entry) with
   | Some visible => diff_emit path visible
   | None => mret tt
   end) ;;
  match payload_child (te_payload entry) with
  | Some child => enumerate true room path child
  | None => mret tt
  end.

Definition remove_entry (room : nat) (path : DirPath) (entry : TreeEntry) : DM unit :=
  (if is_some (visible_entry (te_payload entry)) then touch path else mret tt) ;;
  match payload_child (te_payload entry) with
  | Some child => enumerate false room path child
  | None => mret tt
  end.

(** [compare_entry]; [compare] is the recursive call and [room] the levels left. *)
Definition compare_entry (compare : DirPath → ManifestKey → ManifestKey → DM unit) (room : nat)
    (path : DirPath) (before after : TreeEntry) : DM unit :=
  match te_payload before, te_payload after with
  | TreeDirectory before_mode before_child, TreeDirectory after_mode after_child =>
      (if negb (before_mode =? after_mode) then diff_emit path (DirectoryEntry after_mode)
       else mret tt) ;;
      compare path before_child after_child
  | TreeSubtree before_child, TreeSubtree after_child => compare path before_child after_child
  | TreeDirectory _ before_child, TreeSubtree after_child =>
      touch path ;; compare path before_child after_child
  | TreeSubtree before_child, TreeDirectory mode after_child =>
      diff_emit path (DirectoryEntry mode) ;; compare path before_child after_child
  | _, _ => remove_entry room path before ;; add_entry room path after
  end.

Definition compare_name (compare : DirPath → ManifestKey → ManifestKey → DM unit) (room : nat)
    (dir : DirPath) (old new : gmap string TreeEntry) (name : string) : DM unit :=
  let child := dir_child dir name in
  match old !! name, new !! name with
  | Some before, Some after =>
      if bool_decide (te_payload before = te_payload after) then mret tt
      else compare_entry compare room child before after
  | Some before, None => remove_entry room child before
  | None, Some after => add_entry room child after
  | None, None => mret tt
  end.

Fixpoint compare (room : nat) (dir : DirPath) (old_key new_key : ManifestKey) : DM unit :=
  if (old_key =? new_key)%string then mret tt else
  match room with
  | O => throw (tree_bound "tree-depth")
  | Datatypes.S room =>
      old_node ← diff_open_node old_key SideOld true;
      count_node old_node false ;;
      new_node ← diff_open_node new_key SideNew true;
      count_node new_node true ;;
      let old := entries_by_name old_node in
      let new := entries_by_name new_node in
      record_collisions dir (btree_iter new).*2 ;;
      each (merge_sort str_le (elements (dom old ∪ dom new)))
        (compare_name (compare room) room dir old new)
  end.

(** The loop of [resolve] over the components; the binary search over the strictly
    ascending names finds the entry of that name. *)
Fixpoint resolve_from (key : ManifestKey) (components : list string) (path : WorkspacePath) : DM unit :=
  match components with
  | [] => mret tt
  | component :: rest =>
      node ← diff_open_node key SideNew false;
      match List.find (λ entry, (te_name entry =? component)%string) (tn_entries node) with
      | None => mret tt
      | Some entry =>
          match rest with
          | [] =>
              match visible_entry (te_payload entry) with
              | Some visible => modify (λ d, d <| di_entries := <[path := visible]> (di_entries d) |>)
              | None => mret tt
              end
          | _ :: _ =>
              match payload_child (te_payload entry) with
              | None => mret tt
              | Some child => resolve_from child rest path
              end
          end
      end
  end.

Definition resolve (root : ManifestKey) (path : WorkspacePath) : DM unit :=
  resolve_from root (split slash path) path.

(** The entries of colliding paths join the delta. *)
Definition add_collision (path : WorkspacePath) (d : TreeDiffer) : TreeDiffer :=
  let d := d <| di_touched := {[ path ]} ∪ di_touched d |> in
  match di_collision_entries d !! path with
  | Some entry => d <| di_entries := <[path := entry]> (di_entries d) |>
  | None => d
  end.

Definition TreeDiffer_new : TreeDiffer :=
  {| di_entries := ∅; di_touched := ∅; di_folded := ∅; di_collision_entries := ∅; di_opened := ∅;
     di_records := 0; di_aggregate := 0; di_decoded := {| db_old := 0; db_new := 0 |} |}.

Definition diff_tree (old_root new_root : ManifestKey) (dirty : gset WorkspacePath)
    : Result TreeDelta TreeError :=
  let run :=
    compare (walk_room limits) "" old_root new_root ;;
    each (merge_sort str_le (elements dirty)) (λ path, resolve new_root path ;; touch path) in
  match run TreeDiffer_new with
  | (Err error, _) => Err error
  | (Ok _, d) =>
      let collisions := diff_collisions (di_folded d) in
      let d := foldl (λ d path, add_collision path d) d (collisions ≫= pc_paths) in
      Ok {| td_entries := di_entries d; td_touched := di_touched d; td_collisions := collisions |}
  end.

End Diff.
