(* ===== verification/TreePatch.v ===== *)
(** * Patching a published tree

    Models [tree_transport/patch.rs]: a grouped delta of a manifest is applied to the
    tree of an existing root.  The nodes on the way to a changed path are opened once and
    edited in memory, and what changed is sealed bottom-up.

    A [BTreeMap] of the code inside the editable tree is a list of pairs in ascending
    order of names. *)

From S2P Require Import Prelude.
From S2P Require Import ManifestTypes.
From S2P Require Import MergeMatrix.
From S2P Require Import Ordered.
From S2P Require Import Materialize.
From S2P Require Import Paths.
From S2P Require Import Tree.
From S2P Require Import TreeTransport.
Local Open Scope string_scope.
Open Scope Z_scope.

(** ** [BTreeMap] as an ordered list *)

Fixpoint entry_get {A} (name : string) (l : list (string * A)) : option A :=
  match l with
  | [] => None
  | (n, a) :: l => if (n =? name)%string then Some a else entry_get name l
  end.

Fixpoint entry_remove {A} (name : string) (l : list (string * A)) : list (string * A) :=
  match l with
  | [] => []
  | (n, a) :: l => if (n =? name)%string then l else (n, a) :: entry_remove name l
  end.

Fixpoint entry_insert {A} (name : string) (value : A) (l : list (string * A)) : list (string * A) :=
  match l with
  | [] => [(name, value)]
  | (n, a) :: l =>
      if (n =? name)%string then (name, value) :: l
      else if String.leb n name then (n, a) :: entry_insert name value l
      else (name, value) :: (n, a) :: l
  end.

(** ** The editable tree *)

(** The struct [EditableNode] with the enums [EditablePayload] and [EditableChild]: the three
    refer to each other and are one declaration. *)
Inductive EditableNode :=
| Editable (original_key : option ManifestKey) (format_version : Z) (key_epoch : KeyEpoch)
    (entries : list (string * EditablePayload)) (dirty : bool)
with EditablePayload :=
| EditFile (size : Z) (mode : FileMode) (content_id : ContentId) (blob_key : BlobKey)
    (key_epoch : KeyEpoch)
| EditDirectory (mode : FileMode) (child : EditableChild)
| EditSubtree (child : EditableChild)
| EditSymlink (mode : FileMode) (target : string)
with EditableChild :=
| Stored (key : ManifestKey)
| Loaded (node : EditableNode).

Definition ed_entries (node : EditableNode) : list (string * EditablePayload) :=
  match node with Editable _ _ _ entries _ => entries end.

Definition ed_original_key (node : EditableNode) : option ManifestKey :=
  match node with Editable original_key _ _ _ _ => original_key end.

(** [self.entries = entries; self.dirty |= changed] *)
Definition ed_update (node : EditableNode) (entries : list (string * EditablePayload))
    (changed : bool) : EditableNode :=
  match node with
  | Editable original_key format_version key_epoch _ dirty =>
      Editable original_key format_version key_epoch entries (dirty || changed)
  end.

(** [EditablePayload::from_tree] *)
Definition from_tree (payload : TreeEntryPayload) : EditablePayload :=
  match payload with
  | TreeFile size mode content_id blob_key key_epoch =>
      EditFile size mode content_id blob_key key_epoch
  | TreeDirectory mode child => EditDirectory mode (Stored child)
  | TreeSubtree child => EditSubtree (Stored child)
  | TreeSymlink mode target => EditSymlink mode target
  end.

Definition from_tree_node (node : TreeNode) (original_key : option ManifestKey) : EditableNode :=
  Editable original_key (tn_format_version node) (tn_key_epoch node)
    (foldl (λ entries entry, entry_insert (te_name entry) (from_tree (te_payload entry)) entries) []
       (tn_entries node)) false.

(** [EditableNode::empty] *)
Definition editable_empty (crypto : WorkspaceCrypto) : EditableNode :=
  from_tree_node (tree_node_new (cr_write_epoch crypto) []) None.

(** [EditablePayload::replacement] *)
Definition replacement (crypto : WorkspaceCrypto) (entry : ManifestEntry)
    (existing : option EditablePayload) : EditablePayload * bool :=
  match entry with
  | FileEntry size mode content_id blob_key key_epoch =>
      let unchanged :=
        match existing with
        | Some (EditFile old_size old_mode old_content_id old_blob_key old_key_epoch) =>
            (old_size =? size) && (old_mode =? mode) && (old_content_id =? content_id)%string
            && (old_blob_key =? blob_key)%string && (old_key_epoch =? key_epoch)
        | _ => false
        end in
      (EditFile size mode content_id blob_key key_epoch, negb unchanged)
  | SymlinkEntry mode target =>
      let unchanged :=
        match existing with
        | Some (EditSymlink old_mode old_target) =>
            (old_mode =? mode) && (old_target =? target)%string
        | _ => false
        end in
      (EditSymlink mode target, negb unchanged)
  | DirectoryEntry mode =>
      match existing with
      | Some (EditDirectory old_mode child) => (EditDirectory mode child, negb (old_mode =? mode))
      | Some (EditSubtree child) => (EditDirectory mode child, true)
      | Some (EditFile _ _ _ _ _) | Some (EditSymlink _ _) | None =>
          (EditDirectory mode (Loaded (editable_empty crypto)), true)
      end
  end.

(** [EditableNode::apply_leaf] *)
Definition apply_leaf (crypto : WorkspaceCrypto) (node : EditableNode) (name : string)
    (change : option ManifestEntry) : bool * EditableNode :=
  match change with
  | None =>
      let changed := is_some (entry_get name (ed_entries node)) in
      (changed, ed_update node (entry_remove name (ed_entries node)) changed)
  | Some entry =>
      let existing := entry_get name (ed_entries node) in
      let '(payload, changed) := replacement crypto entry existing in
      (changed, ed_update node (entry_insert name payload (entry_remove name (ed_entries node))) changed)
  end.

Definition path_depth (path : WorkspacePath) : nat := length (split slash path).

(** The order of the removals: deepest first, then by path. *)
Definition removal_le (left right : WorkspacePath) : Prop :=
  (path_depth right < path_depth left)%nat ∨ (path_depth left = path_depth right ∧ str_le left right).
#[export] Instance removal_le_dec left right : Decision (removal_le left right) := _.

(** The order of the replacements: shallowest first, then by path. *)
Definition replacement_le (left right : WorkspacePath * ManifestEntry) : Prop :=
  (path_depth left.1 < path_depth right.1)%nat
  ∨ (path_depth left.1 = path_depth right.1 ∧ str_le left.1 right.1).
#[export] Instance replacement_le_dec left right : Decision (replacement_le left right) := _.

Section Patch.
Context {Obj : Type} `{Blake3} `{NodeCodec} `{Sealing} `{Envelope} `{RemoteObjects Obj}.
Context (objects : Obj) (crypto : WorkspaceCrypto).

(** The state of [TreePatcher] is its pending uploads. *)
Local Abbreviation PM := (M (list ManifestBatchUpload) TreeError).

(** [TreePatcher::open_node] *)
Definition patch_open_node (key : ManifestKey) : PM TreeNode :=
  sealed ← (match get_manifest objects key with
            | Ok sealed => mret sealed
            | Err error => throw (TreeTransportFailed error)
            end);
  bail_if (negb (physical_manifest_key sealed =? key)%string) NodeKeyMismatch ;;
  '(plaintext, epoch) ← manifest_result (open_tree_node crypto sealed DecodeLimits_default);
  manifest_result (decode_node plaintext epoch DecodeLimits_default).

(** [EditableNode::open] *)
Definition editable_open (key : ManifestKey) : PM EditableNode :=
  node ← patch_open_node key;
  mret (from_tree_node node (Some key)).

(** [EditableChild::load] *)
Definition child_load (child : EditableChild) : PM EditableNode :=
  match child with Stored key => editable_open key | Loaded node => mret node end.

(** The child of a payload, with the way to put it back. *)
Definition child_mut (payload : EditablePayload)
    : PM (option (EditableNode * (EditableNode → EditablePayload))) :=
  match payload with
  | EditDirectory mode child =>
      node ← child_load child; mret (Some (node, λ node, EditDirectory mode (Loaded node)))
  | EditSubtree child => node ← child_load child; mret (Some (node, λ node, EditSubtree (Loaded node)))
  | EditFile _ _ _ _ _ | EditSymlink _ _ => mret None
  end.

Definition is_implicit (payload : EditablePayload) : bool :=
  match payload with EditSubtree _ => true | _ => false end.

(** [EditableNode::apply_descendant]; [apply_rest] applies the rest of the path to the
    child. *)
Definition apply_descendant (apply_rest : EditableNode → PM (bool * EditableNode)) (node : EditableNode)
    (name : string) (change : option ManifestEntry) : PM (bool * EditableNode) :=
  if negb (is_some (entry_get name (ed_entries node))) && negb (is_some change)
  then mret (false, node) else
  let node :=
    match entry_get name (ed_entries node) with
    | Some _ => node
    | None =>
        ed_update node
          (entry_insert name (EditSubtree (Loaded (editable_empty crypto))) (ed_entries node)) true
    end in
  payload ← ok_or (tree_internal "tree patch lost an inserted ancestor") (entry_get name (ed_entries node));
  found ← child_mut payload;
  match found with
  | None =>
      match change with
      | None => mret (false, node)
      | Some _ => throw (tree_internal "tree patch descends through a leaf")
      end
  | Some (child, put) =>
      '(changed, child) ← apply_rest child;
      let prune := changed && is_implicit payload && bool_decide (ed_entries child = []) in
      let entries := entry_insert name (put child) (ed_entries node) in
      mret (changed, ed_update node (if prune then entry_remove name entries else entries) changed)
  end.

(** [EditableNode::apply_path] *)
Fixpoint apply_path (components : list string) (change : option ManifestEntry) (node : EditableNode)
    : PM (bool * EditableNode) :=
  match components with
  | [] => throw (tree_internal "tree patch received an empty path")
  | name :: rest =>
      match rest with
      | [] => mret (apply_leaf crypto node name change)
      | _ :: _ => apply_descendant (apply_path rest change) node name change
      end
  end.

(** [TreePatcher::upload_node] *)
Definition upload_node (node : TreeNode) : PM ManifestKey :=
  plaintext ← manifest_result (to_canonical_bytes node);
  let unheld := TreePanicked "write epoch key must exist in workspace crypto keyring" in
  content_id ← ok_or unheld (tree_node_content_id crypto plaintext);
  sealed_result ← ok_or unheld (seal_tree_node crypto plaintext);
  sealed ← manifest_result sealed_result;
  let key := physical_manifest_key sealed in
  modify (λ pending,
    (pending ++ [{| mu_key := key; mu_content_id := content_id;
                    mu_key_epoch := cr_write_epoch crypto; mu_sealed := sealed |}])%list) ;;
  mret key.

(** [EditableNode::persist], [EditablePayload::persist] and [EditableChild::persist] *)
Fixpoint persist_node (node : EditableNode) : PM ManifestKey :=
  match node with
  | Editable original_key format_version key_epoch entries dirty =>
      persisted ← mapM (λ '(name, payload),
        '(payload, changed) ← persist_payload payload;
        mret ({| te_name := name; te_payload := payload |}, changed)) entries;
      let upload := upload_node {| tn_format_version := format_version; tn_key_epoch := key_epoch;
                                   tn_entries := persisted.*1 |} in
      match original_key with
      | Some key => if negb dirty && negb (existsb snd persisted) then mret key else upload
      | None => upload
      end
  end
with persist_payload (payload : EditablePayload) : PM (TreeEntryPayload * bool) :=
  match payload with
  | EditFile size mode content_id blob_key key_epoch =>
      mret (TreeFile size mode content_id blob_key key_epoch, false)
  | EditDirectory mode child =>
      '(key, changed) ← persist_child child; mret (TreeDirectory mode key, changed)
  | EditSubtree child => '(key, changed) ← persist_child child; mret (TreeSubtree key, changed)
  | EditSymlink mode target => mret (TreeSymlink mode target, false)
  end
with persist_child (child : EditableChild) : PM (ManifestKey * bool) :=
  match child with
  | Stored key => mret (key, false)
  | Loaded node =>
      key ← persist_node node;
      mret (key, bool_decide (ed_original_key node ≠ Some key))
  end.

(** One loop of [patch_tree]. *)
Fixpoint apply_changes (changes : list (WorkspacePath * option ManifestEntry)) (root : EditableNode)
    : PM EditableNode :=
  match changes with
  | [] => mret root
  | (path, change) :: changes =>
      '(_, root) ← apply_path (split slash path) change root;
      apply_changes changes root
  end.

Definition removals_of (changes : gmap WorkspacePath (option ManifestEntry)) : list WorkspacePath :=
  merge_sort removal_le (omap (λ '(path, change), match change with None => Some path | Some _ => None end)
                           (btree_iter changes)).

Definition replacements_of (changes : gmap WorkspacePath (option ManifestEntry))
    : list (WorkspacePath * ManifestEntry) :=
  merge_sort replacement_le (omap (λ '(path, change), (λ entry, (path, entry)) <$> change)
                               (btree_iter changes)).

(** [patch_tree]: the new root key, and the object store it leaves. *)
Definition patch_tree (root : ManifestKey) (changes : gmap WorkspacePath (option ManifestEntry))
    : Result ManifestKey TreeError * Obj :=
  let run :=
    node ← editable_open root;
    node ← apply_changes ((λ path, (path, None)) <$> removals_of changes) node;
    node ← apply_changes ((λ '(path, entry), (path, Some entry)) <$> replacements_of changes) node;
    persist_node node in
  match run [] with
  | (Err error, _) => (Err error, objects)
  | (Ok key, pending) =>
      match put_manifests pending objects with
      | (Ok _, objects) => (Ok key, objects)
      | (Err error, objects) => (Err (TreeTransportFailed error), objects)
      end
  end.

End Patch.
