(* ===== verification/Apply.v ===== *)
(** * The apply transaction and crash recovery

    Models [pull_apply/apply.rs], [pull_apply/apply/applied_outcome.rs],
    [pull_apply/prefetch.rs], the lock cache of [pull_apply/git_contract.rs] and the
    replay helpers of [pull_apply/intents.rs].

    The state is the engine's store and the disk.  Counters are not modelled. *)

From Stdlib Require Import Ascii.
From S2P Require Import Prelude.
From S2P Require Import MergeMatrix.
From S2P Require Import Paths.
From S2P Require Import ManifestTypes.
From S2P Require Import FsGuard.
From S2P Require Import Asides.
From S2P Require Import Disk.
From S2P Require Import Materialize.
From S2P Require Import Endpoint.
From S2P Require Import Store.
Local Open Scope string_scope.
Open Scope Z_scope.

Record Engine := { en_store : ManifestStore; en_world : World }.

#[export] Instance Engine_eta : Eta Engine := λ e, Build_Engine (en_store e) (en_world e).

Abbreviation EM := (M Engine PullError).

(** A store call, whose failure is [PullError::Store]. *)
Definition on_store {A} (m : SM A) : EM A := λ e,
  match m (en_store e) with
  | (Ok a, s) => (Ok a, e <| en_store := s |>)
  | (Err _, s) => (Err StoreError, e <| en_store := s |>)
  end.

Definition on_world {A} (m : PL A) : EM A := λ e,
  let '(r, w) := m (en_world e) in (r, e <| en_world := w |>).

Definition AUX_INDEX_PATH : string := ".bowline-meta/aux-index".
Definition WORK_VIEW_TRANSITION_LOCK_PATH : string := ".bowline/work-view-transitions.lock".

(** ** Outcomes *)

Inductive Applied :=
| Upsert (path : WorkspacePath) (record : FileRecord)
| Remove (path : WorkspacePath)
| Aside (path : WorkspacePath)
| KeptLocal (path : WorkspacePath)
| Unsyncable (path : WorkspacePath) (record : UnsyncableRecord).

Record PullOutcome := {
  po_observed_ref : EngineRef;
  po_applied_manifest_key : option ManifestKey;
  po_ref_version : option Z;
  po_installed : gset WorkspacePath;
  po_deleted : gset WorkspacePath;
  po_conflict_asides : gset WorkspacePath;
  po_push_again : gset WorkspacePath;
  po_deferred : gset WorkspacePath;
  po_unsyncable : gmap WorkspacePath UnsyncableRecord;
  po_already_current : bool;
}.

#[export] Instance PullOutcome_eta : Eta PullOutcome :=
  λ o, Build_PullOutcome (po_observed_ref o) (po_applied_manifest_key o) (po_ref_version o)
         (po_installed o) (po_deleted o) (po_conflict_asides o) (po_push_again o) (po_deferred o)
         (po_unsyncable o) (po_already_current o).

Definition PullOutcome_default : PullOutcome :=
  {| po_observed_ref := Genesis; po_applied_manifest_key := None; po_ref_version := None;
     po_installed := ∅; po_deleted := ∅; po_conflict_asides := ∅; po_push_again := ∅;
     po_deferred := ∅; po_unsyncable := ∅; po_already_current := false |}.

Definition record_applied (commit : AncestorCommit) (outcome : PullOutcome) (applied : Applied)
    : AncestorCommit * PullOutcome :=
  match applied with
  | Upsert path record =>
      (commit <| ac_upserts := <[path := record]> (ac_upserts commit) |>,
       outcome <| po_installed := {[path]} ∪ po_installed outcome |>)
  | Remove path =>
      (commit <| ac_removals := {[path]} ∪ ac_removals commit |>,
       outcome <| po_deleted := {[path]} ∪ po_deleted outcome |>)
  | Aside path => (commit, outcome <| po_conflict_asides := {[path]} ∪ po_conflict_asides outcome |>)
  | KeptLocal path => (commit, outcome <| po_push_again := {[path]} ∪ po_push_again outcome |>)
  | Unsyncable path record =>
      (commit, outcome <| po_unsyncable := <[path := record]> (po_unsyncable outcome) |>)
  end.

(** ** The order of a plan *)

Definition delete_phase (op : FsOp) : Z := match op_kind op with DeleteOp => 0 | _ => 1 end.

(** [order_within_phase(left, right) != Greater] *)
Definition within_phase_le (left right : FsOp) : bool :=
  match op_kind left with
  | DeleteOp => String.leb (op_path right) (op_path left)
  | _ =>
      let l := git_apply_rank (op_path left) in
      let r := git_apply_rank (op_path right) in
      (l <? r) || ((l =? r) && String.leb (op_path left) (op_path right))
  end.

Definition op_le (left right : FsOp) : Prop :=
  delete_phase left < delete_phase right ∨
  (delete_phase left = delete_phase right ∧ within_phase_le left right = true).

#[export] Instance op_le_dec left right : Decision (op_le left right).
Proof. unfold op_le. apply _. Defined.

Definition order_ops (ops : list FsOp) : list FsOp := merge_sort op_le ops.

(** ** Prefetch windows *)

Definition MAX_PREFETCHED_BLOB_BYTES : Z := 32 * 1024 * 1024.
Definition SEALED_BLOB_OVERHEAD_ALLOWANCE : Z := 4 * 1024.
Definition APPLY_WINDOW_MAX_FILES : Z := 16.
Definition APPLY_WINDOW_MAX_PREFETCH_BYTES : Z := 8 * 1024 * 1024.

Definition prefetch_request (op : FsOp) : option (BlobKey * Z) :=
  match op_kind op with
  | Install entry | ConflictAside entry =>
      match entry with
      | FileEntry size _ _ blob_key _ =>
          let transfer_budget := u64_saturating_add size SEALED_BLOB_OVERHEAD_ALLOWANCE in
          if transfer_budget <=? MAX_PREFETCHED_BLOB_BYTES then Some (blob_key, transfer_budget)
          else None
      | _ => None
      end
  | DeleteOp | ModeChange _ => None
  end.

(** The loop; [window] is [&ops[start..index]]. *)
Fixpoint split_windows (ops window : list FsOp) (files bytes : Z) : list (list FsOp) :=
  match ops with
  | [] => match window with [] => [] | _ => [window] end
  | op :: ops =>
      let op_bytes := default 0 (snd <$> prefetch_request op) in
      let full := APPLY_WINDOW_MAX_FILES <=? files in
      let overflows := (0 <? files)
        && (APPLY_WINDOW_MAX_PREFETCH_BYTES <? u64_saturating_add bytes op_bytes) in
      if full || overflows
      then window :: split_windows ops [op] 1 (u64_saturating_add 0 op_bytes)
      else split_windows ops (app window [op]) (files + 1) (u64_saturating_add bytes op_bytes)
  end.

Definition apply_windows (ops : list FsOp) : list (list FsOp) := split_windows ops [] 0 0.

(** A [BTreeMap]: one request per blob, with the largest budget. *)
Definition blob_prefetch_requests (ops : list FsOp) : gmap BlobKey Z :=
  foldl (λ requests op,
    match prefetch_request op with
    | None => requests
    | Some (blob_key, transfer_budget) =>
        <[blob_key := match requests !! blob_key with
                      | Some byte_len => Z.max byte_len transfer_budget
                      | None => transfer_budget
                      end]> requests
    end) ∅ ops.

(** [PrefetchedRemoteObjects::get_blob_to_writer] *)
Definition with_prefetched (blobs : gmap BlobKey bytes) (deps : Deps) : Deps :=
  deps <| dp_get_blob_to_writer := λ key,
    match blobs !! key with
    | Some blob => Some (blob, str_len blob)
    | None => dp_get_blob_to_writer deps key
    end |>.

(** ** Git locks *)

Definition GIT_LOCK_REPROBE_OPS : Z := 256.

Record GitLockCache := { gl_refs_locked : gmap string bool; gl_ops_since_probe : Z }.

Definition GitLockCache_default : GitLockCache :=
  {| gl_refs_locked := ∅; gl_ops_since_probe := 0 |}.

Definition single_file_lock_present (env : Env) (w : World) (git_dir : string) : bool :=
  existsb (λ lock, path_exists env w (git_dir +:+ "/" +:+ lock))
    ["index.lock"; "HEAD.lock"; "packed-refs.lock"].

(** [Path::extension] of the last component is [lock]. *)
Definition has_lock_extension (path : string) : bool :=
  match rsplit_once "." (final_component path) with
  | Some (stem, extension) => negb (stem =? "")%string && (extension =? "lock")%string
  | None => false
  end.

(** The recursive walk of [refs]; a link below it is followed, which is the
    environment's answer. *)
Definition refs_lock_present (env : Env) (w : World) (git_dir : string) : bool :=
  let refs := git_dir +:+ "/refs" in
  match place w refs with
  | Here (Some (DirectoryNode _)) =>
      existsb (λ '(path, object),
        starts_with (refs +:+ "/") path
        && match object with
           | DirectoryNode _ => false
           | SymbolicLink _ => env_link_exists env path
           | _ => has_lock_extension path
           end) (map_to_list (w_disk w))
  | Here (Some (SymbolicLink _)) | Behind => env_link_exists env refs
  | _ => false
  end.

Definition is_ascii_hexdigit (c : ascii) : bool :=
  is_lower_hex c || byte_in "A"%char "F"%char c.

Definition immutable_pack_artifact (artifact : string) : bool :=
  match rsplit_once "." artifact with
  | None => false
  | Some (stem, extension) =>
      match strip_prefix "pack-" stem with
      | None => false
      | Some hash =>
          (40 <=? str_len hash) && all_bytes is_ascii_hexdigit hash && (extension =? "pack")%string
      end
  end.

Definition is_immutable_git_object_payload (path : string) : bool :=
  if bool_decide (classify_git_path path ≠ Some ImmutableObject) then false else
  match git_tail_path path with
  | None => false
  | Some tail =>
      let object_path := match strip_prefix "objects/" tail with
        | Some object => Some object
        | None => snd <$> rsplit_once "/objects/" tail
        end in
      match split slash <$> object_path with
      | Some [fanout; object] =>
          if (str_len fanout =? 2) && all_bytes is_ascii_hexdigit fanout
             && (38 <=? str_len object) && all_bytes is_ascii_hexdigit object
          then true
          else (fanout =? "pack")%string && immutable_pack_artifact object
      | _ => false
      end
  end.

Definition requires_fresh_refs_probe (path : WorkspacePath) : bool :=
  negb (is_immutable_git_object_payload path).

Definition is_active (env : Env) (w : World) (cache : GitLockCache) (path : WorkspacePath)
    : bool * GitLockCache :=
  match git_dir_for path with
  | None => (false, cache)
  | Some git_dir =>
      let ops_since_probe := u32_saturating_add (gl_ops_since_probe cache) 1 in
      let '(refs_locked, ops_since_probe) :=
        if GIT_LOCK_REPROBE_OPS <=? ops_since_probe then (∅, 0)
        else (gl_refs_locked cache, ops_since_probe) in
      let cache refs_locked :=
        {| gl_refs_locked := refs_locked; gl_ops_since_probe := ops_since_probe |} in
      if single_file_lock_present env w git_dir then (true, cache refs_locked) else
      let refs_locked := if requires_fresh_refs_probe path then delete git_dir refs_locked
                         else refs_locked in
      match refs_locked !! git_dir with
      | Some locked => (locked, cache refs_locked)
      | None =>
          let locked := refs_lock_present env w git_dir in
          (locked, cache (<[git_dir := locked]> refs_locked))
      end
  end.

(** ** Locking the aux index *)

(** [acquire_work_view_transition_lock]: opens the lock file, creating it. *)
Definition acquire_transition_lock (deps : Deps) : PL unit :=
  let invalid := {| io_kind := OtherKind; io_raw_os_error := None |} in
  chain ← make_parent_chain deps WORK_VIEW_TRANSITION_LOCK_PATH;
  match chain with
  | Blocked => throw (EngineScratchIo invalid)
  | Ready =>
      w ← get;
      scratch (may_fail ;;
        edit WORK_VIEW_TRANSITION_LOCK_PATH (λ object, match object with
          | None => Ok (Some (RegularFile "" (created_mode (dp_env deps) S_IFREG 384)
                                (env_fresh (dp_env deps) (w_tick w))))
          | Some (RegularFile _ _ _) => Ok object
          | Some (DirectoryNode _) => Err is_a_directory
          | Some _ => Err invalid
          end)) ;;
      scratch may_fail
  end.

Section Apply.
Context `{ContentHash} `{SeedHash} `{Envelope}.

Definition lock_if_aux (deps : Deps) (paths : list WorkspacePath) : PL unit :=
  if existsb (λ path, (path =? AUX_INDEX_PATH)%string) paths
  then acquire_transition_lock deps else mret tt.

(** ** One operation *)

Definition build_intent (deps : Deps) (op : FsOp) (temp : option TempFile)
    (manifest_key : ManifestKey) : Intent :=
  let '(operation_kind, target) := target_payload op in
  {| in_path := op_path op; in_operation_kind := operation_kind; in_temp_name := temp;
     in_expected_preimage := Some (Some (op_expected op)); in_target_record := Some (Some target);
     in_preserved_preimage := Some (quarantine_name (op_path op));
     in_target_manifest_key := Some manifest_key; in_created_at := dp_now deps |}.

Definition installs_the_same_directory (kind : FsOpKind) (observed : option Observed) : bool :=
  match kind with
  | Install (DirectoryEntry _) =>
      is_some_and (λ observed, bool_decide (ob_kind observed = Directory)) observed
  | _ => false
  end.

Definition apply_keep_local (deps : Deps) (op : FsOp) (temp : option TempFile) : PL Applied :=
  match op_kind op with
  | Install entry | ConflictAside entry =>
      materialized ← materialize_aside deps (op_path op) entry temp;
      mret (match materialized with
            | Done aside => Aside aside
            | ParentBlocked | EscapingTarget | Vanished | AsideRefused => KeptLocal (op_path op)
            end)
  | DeleteOp | ModeChange _ => mret (KeptLocal (op_path op))
  end.

(** Past the guard: the mutation itself. *)
Definition execute_op (deps : Deps) (op : FsOp) (temp : option TempFile)
    (observed : option Observed) : PL Applied :=
  let path := op_path op in
  match op_kind op with
  | Install entry =>
      materialized ← install_entry deps path entry temp observed;
      match materialized with
      | Done record => mret (Upsert path record)
      | ParentBlocked => apply_keep_local deps op None
      | EscapingTarget | Vanished | AsideRefused => mret (KeptLocal path)
      end
  | ConflictAside _ => apply_keep_local deps op temp
  | DeleteOp =>
      outcome ← checked_delete deps path;
      mret (match outcome with Deleted => Remove path | DeleteKeptLocal => KeptLocal path end)
  | ModeChange entry =>
      w ← get;
      match prepare_parent_chain (os_of (dp_env deps) w) path RequireExisting with
      | Blocked => mret (KeptLocal path)
      | Ready =>
          set_mode deps path (entry_mode entry) ;;
          observed ← observe_now deps path;
          mret (match observed with
                | None => KeptLocal path
                | Some observed =>
                    Upsert path (record_for_entry entry (ob_fingerprint observed) (dp_now deps))
                end)
      end
  end.

(** The re-observation and what follows it. *)
Definition guarded_op (deps : Deps) (op : FsOp) (temp : option TempFile) : PL Applied :=
  observed ← observe_now deps (op_path op);
  w ← get;
  matches ← of_result (preimage_matches (ctx_of deps w) (op_path op) (op_expected op) observed);
  if negb matches && negb (installs_the_same_directory (op_kind op) observed)
  then apply_keep_local deps op temp
  else execute_op deps op temp observed.

Definition apply_op (deps : Deps) (op : FsOp) (manifest_key : ManifestKey) : EM Applied :=
  temp ← on_world (stage_write_temp deps op);
  on_store (open_intent (build_intent deps op temp manifest_key)) ;;
  on_world (guarded_op deps op temp).

(** ** The plan *)

Record Progress := {
  pr_commit : AncestorCommit;
  pr_outcome : PullOutcome;
  pr_intent_ids : list WorkspacePath;
  pr_git_locks : GitLockCache;
}.

(** One turn of the loop over a window. *)
Definition apply_turn (deps : Deps) (manifest_key : ManifestKey) (progress : Progress) (op : FsOp)
    : EM Progress :=
  e ← get;
  let path := op_path op in
  let commit := pr_commit progress in
  let outcome := pr_outcome progress in
  let '(locked, git_locks) := is_active (dp_env deps) (en_world e) (pr_git_locks progress) path in
  if locked : bool then
    mret {| pr_commit := commit <| ac_upserts := delete path (ac_upserts commit) |>
                                <| ac_removals := ac_removals commit ∖ {[path]} |>;
            pr_outcome := outcome <| po_deferred := {[path]} ∪ po_deferred outcome |>;
            pr_intent_ids := pr_intent_ids progress; pr_git_locks := git_locks |}
  else
    result ← attempt (apply_op deps op manifest_key);
    applied ← match result with
              | Ok applied => mret applied
              | Err (PathError fault) => mret (Unsyncable (up_path fault) (up_record fault))
              | Err error => throw error
              end;
    let '(commit, outcome) := record_applied commit outcome applied in
    mret {| pr_commit := commit; pr_outcome := outcome;
            pr_intent_ids := app (pr_intent_ids progress) [path]; pr_git_locks := git_locks |}.

Fixpoint apply_ops (deps : Deps) (manifest_key : ManifestKey) (progress : Progress)
    (ops : list FsOp) : EM Progress :=
  match ops with
  | [] => mret progress
  | op :: ops =>
      progress ← apply_turn deps manifest_key progress op;
      apply_ops deps manifest_key progress ops
  end.

(** [prefetch_blobs] of the transport is [prefetch]. *)
Fixpoint apply_all (deps : Deps) (prefetch : gmap BlobKey Z → option (gmap BlobKey bytes))
    (manifest_key : ManifestKey) (progress : Progress) (windows : list (list FsOp)) : EM Progress :=
  match windows with
  | [] => mret progress
  | window :: windows =>
      blobs ← ok_or TransportErr (prefetch (blob_prefetch_requests window));
      progress ← apply_ops (with_prefetched blobs deps) manifest_key progress window;
      apply_all deps prefetch manifest_key progress windows
  end.

(** [prove_commit] *)
Definition prove_commit (deps : Deps) (w : World) (commit : AncestorCommit) : AncestorCommit :=
  commit <| ac_upserts := prove_rows (os_of (dp_env deps) w) (dp_endpoint_clock deps)
              (dp_timestamps deps) (dp_crypto deps) (dp_max_seal_bytes deps)
              (ac_upserts commit) |>.

Definition zip_option {A B} (a : option A) (b : option B) : option (A * B) :=
  match a, b with Some a, Some b => Some (a, b) | _, _ => None end.

Definition apply_plan (deps : Deps) (prefetch : gmap BlobKey Z → option (gmap BlobKey bytes))
    (plan : MergePlan) (manifest_key : ManifestKey) (ref_version : Z) : EM PullOutcome :=
  prior ← on_store engine_state;
  let outcome := PullOutcome_default
    <| po_observed_ref := Head {| ro_version := ref_version; ro_manifest_key := manifest_key |} |>
    <| po_applied_manifest_key := Some manifest_key |>
    <| po_ref_version := Some ref_version |>
    <| po_push_again := mp_push_again plan |> in
  let commit := {| ac_upserts := mp_ancestor_upserts plan;
                   ac_removals := mp_ancestor_removals plan |} in
  on_store (record_unsyncable (mp_unsyncable plan) ∅) ;;
  on_world (lock_if_aux deps (op_path <$> mp_fs_ops plan)) ;;
  progress ← apply_all deps prefetch manifest_key
    {| pr_commit := commit; pr_outcome := outcome; pr_intent_ids := [];
       pr_git_locks := GitLockCache_default |}
    (apply_windows (order_ops (mp_fs_ops plan)));
  let outcome := pr_outcome progress in
  on_store (record_unsyncable (po_unsyncable outcome) ∅) ;;
  let advance := if bool_decide (po_deferred outcome = ∅) then Some (manifest_key, ref_version)
                 else zip_option (es_applied_manifest_key prior) (es_last_ref_version prior) in
  let outcome := outcome <| po_applied_manifest_key := fst <$> advance |>
                         <| po_ref_version := snd <$> advance |> in
  e ← get;
  on_store (commit_pull_outcome (prove_commit deps (en_world e) (pr_commit progress)) advance
              (Some (manifest_key, ref_version)) (pr_intent_ids progress) (po_push_again outcome)) ;;
  on_world (release_quarantine (pr_intent_ids progress)) ;;
  mret outcome.

(** ** Recovery *)

Inductive RecoveryBoundary :=
| TempOnly | IntentOldTarget | InstalledIntent | PreservedNoTarget | DeleteDoneIntent
| TargetModifiedWhileDown.

Inductive RecoveryAction :=
| DiscardTemp | Reapply | FinalizeInstalled | RestoreOrComplete | FinalizeDeleted | KeepLocalAside.

Record RecoveryObservation := {
  rv_target_present : bool;
  rv_target_matches_target_record : bool;
  rv_target_matches_preimage : bool;
  rv_temp_exists : bool;
  rv_quarantine_exists : bool;
}.

Definition recovery_boundary (operation : IntentOperationKind) (observed : RecoveryObservation)
    : RecoveryBoundary :=
  match operation with
  | OpDelete =>
      if rv_target_present observed then
        if rv_target_matches_preimage observed then IntentOldTarget else TargetModifiedWhileDown
      else DeleteDoneIntent
  | OpInstall | OpModeChange | OpConflictAside =>
      if rv_target_matches_target_record observed then InstalledIntent
      else if rv_target_matches_preimage observed then IntentOldTarget
      else if negb (rv_target_present observed) && rv_quarantine_exists observed
      then PreservedNoTarget
      else if rv_target_present observed then TargetModifiedWhileDown
      else if rv_temp_exists observed then TempOnly
      else PreservedNoTarget
  end.

Definition recovery_action (boundary : RecoveryBoundary) : RecoveryAction :=
  match boundary with
  | TempOnly => DiscardTemp
  | IntentOldTarget => Reapply
  | InstalledIntent => FinalizeInstalled
  | PreservedNoTarget => RestoreOrComplete
  | DeleteDoneIntent => FinalizeDeleted
  | TargetModifiedWhileDown => KeepLocalAside
  end.

(** [target_matches] of [intents.rs] *)
Definition target_matches (ctx : EngineContext) (path : WorkspacePath) (target : TargetRecordPayload)
    (observed : option Observed) : Result bool PullError :=
  match observed with
  | None => Ok (bool_decide (tr_op target = TagDelete))
  | Some observed =>
      if bool_decide (tr_op target = TagModeChange)
         && is_some_and (λ mode, negb (ob_mode observed =? mode)) (tr_mode target)
      then Ok false else
      match tr_kind target with
      | Some File =>
          if bool_decide (ob_kind observed ≠ File) then Ok false else
          result_map (λ read, match read with
            | LocalBytes content =>
                bool_decide ((λ content_id, bool_decide (Some content_id = tr_content_id target)) <$>
                  (tr_key_epoch target ≫= λ key_epoch,
                     content_id_at (ctx_crypto ctx) key_epoch content) = Some true)
            | Unverifiable => false
            end) (read_local_content ctx path (expected_file observed))
      | Some Symlink =>
          Ok (bool_decide (ob_kind observed = Symlink)
              && bool_decide (ob_symlink_target observed = tr_symlink_target target))
      | Some Directory => Ok (bool_decide (ob_kind observed = Directory))
      | None => Ok false
      end
  end.

(** [recovery_facts]; the quarantine column names the preimage's leaf. *)
Definition recovery_facts (deps : Deps) (w : World) (target : TargetRecordPayload)
    (preimage : PreimagePayload) (observed : option Observed) (intent : Intent)
    : Result RecoveryObservation PullError :=
  let ctx := ctx_of deps w in
  let path := in_path intent in
  result_bind (target_matches ctx path target observed) (λ matches_target,
  result_bind (preimage_matches ctx path preimage observed) (λ matches_preimage,
  Ok {| rv_target_present := is_some observed;
        rv_target_matches_target_record := matches_target;
        rv_target_matches_preimage := matches_preimage;
        rv_temp_exists := is_some_and (λ name, is_some (w_temps w !! name)) (in_temp_name intent);
        rv_quarantine_exists :=
          is_some_and (λ name, is_some_and (λ leaf, is_some (w_quarantine w !! leaf))
                                 (strip_prefix "quarantine/" name))
            (in_preserved_preimage intent) |})).

Definition commit_upsert (path : WorkspacePath) (record : FileRecord) (commit : AncestorCommit)
    : AncestorCommit := commit <| ac_upserts := <[path := record]> (ac_upserts commit) |>.

Definition commit_removal (path : WorkspacePath) (commit : AncestorCommit) : AncestorCommit :=
  commit <| ac_removals := {[path]} ∪ ac_removals commit |>.

Definition finalize_installed (deps : Deps) (path : WorkspacePath) (target : TargetRecordPayload)
    (commit : AncestorCommit) : PL AncestorCommit :=
  match tr_op target with
  | TagDelete => mret (commit_removal path commit)
  | _ =>
      observed ← observe_now deps path;
      match observed with
      | None => mret commit
      | Some observed =>
          record ← of_result (to_record target (ob_fingerprint observed) (dp_now deps));
          mret (commit_upsert path record commit)
      end
  end.

Definition reapply_target (deps : Deps) (intent : Intent) (target : TargetRecordPayload)
    (commit : AncestorCommit) : PL AncestorCommit :=
  let path := in_path intent in
  match tr_op target with
  | TagDelete =>
      outcome ← checked_delete deps path;
      mret (match outcome with Deleted => commit_removal path commit | DeleteKeptLocal => commit end)
  | TagConflictAside =>
      entry ← of_result (to_entry target);
      w ← get;
      placed ← of_result (aside_already_materialized deps w path entry);
      (if negb placed then materialize_aside deps path entry None ;; mret tt else mret tt) ;;
      mret commit
  | TagModeChange =>
      entry ← of_result (to_entry target);
      w ← get;
      match prepare_parent_chain (os_of (dp_env deps) w) path RequireExisting with
      | Blocked => mret commit
      | Ready =>
          set_mode deps path (entry_mode entry) ;;
          observed ← observe_now deps path;
          mret (match observed with
                | None => commit
                | Some observed =>
                    commit_upsert path
                      (record_for_entry entry (ob_fingerprint observed) (dp_now deps)) commit
                end)
      end
  | TagInstall =>
      entry ← of_result (to_entry target);
      existing ← observe_now deps path;
      installed ← attempt (install_entry deps path entry None existing);
      materialized ← match installed with
                     | Ok materialized => mret materialized
                     | Err (PathError fault) => throw (PathError fault)
                     | Err _ => reinstall_from_download deps path entry
                     end;
      mret (match materialized with
            | Done record => commit_upsert path record commit
            | _ => commit
            end)
  end.

Definition execute_recovery (deps : Deps) (intent : Intent) (target : TargetRecordPayload)
    (boundary : RecoveryBoundary) (commit : AncestorCommit) : PL AncestorCommit :=
  match recovery_action boundary with
  | DiscardTemp | KeepLocalAside => mret commit
  | FinalizeDeleted => mret (commit_removal (in_path intent) commit)
  | FinalizeInstalled => finalize_installed deps (in_path intent) target commit
  | Reapply | RestoreOrComplete => reapply_target deps intent target commit
  end.

Definition decoded {A} (payload : option A) : Result A PullError :=
  result_ok_or (Internal "intent decode failed") payload.

(** [recover_one] up to the boundary it settles. *)
Definition recovery_plan (deps : Deps) (intent : Intent)
    : PL (TargetRecordPayload * RecoveryBoundary) :=
  target ← of_result (match in_target_record intent with
                      | None => Err (Internal "intent missing target record")
                      | Some payload => decoded payload
                      end);
  preimage ← of_result (match in_expected_preimage intent with
                        | None => Ok preimage_absent
                        | Some payload => decoded payload
                        end);
  observed ← observe_now deps (in_path intent);
  w ← get;
  facts ← of_result (recovery_facts deps w target preimage observed intent);
  mret (target, recovery_boundary (in_operation_kind intent) facts).

(** [recover_one]: the commit and the temporaries to keep are [&mut], so what was
    recorded before a failure stays. *)
Definition recover_one (deps : Deps) (intent : Intent) (state : AncestorCommit * gset string)
    : PL (Result unit PullError * (AncestorCommit * gset string)) :=
  let '(commit, keep_temps) := state in
  planned ← attempt (recovery_plan deps intent);
  match planned with
  | Err error => mret (Err error, (commit, keep_temps))
  | Ok (target, boundary) =>
      let keep_temps := match in_temp_name intent with
                        | Some temp => {[temp]} ∪ keep_temps
                        | None => keep_temps
                        end in
      executed ← attempt (execute_recovery deps intent target boundary commit);
      mret (match executed with
            | Ok commit => (Ok tt, (commit, keep_temps))
            | Err error => (Err error, (commit, keep_temps))
            end)
  end.

Inductive ReplayVerdict := Retry | Quarantine (reason : UnsyncableReason).

Definition replay_verdict (error : PullError) : ReplayVerdict :=
  match error with
  | TransportErr | StoreError => Retry
  | PathError fault => Quarantine (ur_reason (up_record fault))
  | _ => Quarantine RecoveryAbandoned
  end.

(** The loop of [recover_intents]. *)
Record Replay := {
  rp_commit : AncestorCommit;
  rp_keep_temps : gset string;
  rp_abandoned : gmap WorkspacePath UnsyncableRecord;
}.

Fixpoint replay_intents (deps : Deps) (replay : Replay) (intents : list Intent) : EM Replay :=
  match intents with
  | [] => mret replay
  | intent :: intents =>
      '(result, (commit, keep_temps)) ←
        on_world (recover_one deps intent (rp_commit replay, rp_keep_temps replay));
      let next abandoned :=
        {| rp_commit := commit; rp_keep_temps := keep_temps; rp_abandoned := abandoned |} in
      match result with
      | Ok _ => replay_intents deps (next (rp_abandoned replay)) intents
      | Err error =>
          match replay_verdict error with
          | Retry => throw error
          | Quarantine reason =>
              replay_intents deps
                (next (<[in_path intent := {| ur_reason := reason; ur_errno := None;
                                              ur_observed_at := dp_now deps |}]>
                         (rp_abandoned replay))) intents
          end
      end
  end.

(** ** Sweeping scratch *)

Definition is_recovery_owner_record_name (name : string) : bool :=
  let base := default name (strip_suffix ".complete" name) in
  match strip_prefix ".bowline-recovery-owner-" base ≫= strip_suffix ".record" with
  | None => false
  | Some nonce => is_recovery_temp_component (".bowline-recovery-" +:+ nonce +:+ ".tmp")
  end.

Fixpoint unlink_temps (names : list string) : PL unit :=
  match names with
  | [] => mret tt
  | name :: names => attempt (scratch_unlink name) ;; unlink_temps names
  end.

Definition sweep_orphan_temps (keep : gset string) : PL unit :=
  w ← get;
  match w_recovery_dir w with
  | ScratchAbsent => mret tt
  | ScratchBlocked => throw (EngineScratchIo not_a_directory)
  | ScratchReady =>
      scratch may_fail ;; scratch may_fail ;;
      unlink_temps (List.filter (λ name, negb (is_recovery_owner_record_name name)
                                        && negb (bool_decide (name ∈ keep)))
                      (elements (dom (w_temps w))))
  end.

Fixpoint drop_preimages (leaves : list string) : PL unit :=
  match leaves with
  | [] => mret tt
  | leaf :: leaves => scratch may_fail ;; drop_preimage leaf ;; drop_preimages leaves
  end.

Definition sweep_orphan_quarantine (keep_paths : gset WorkspacePath) : PL unit :=
  opened ← attempt may_fail;
  match opened with
  | Err error => if bool_decide (io_kind error = NotFound) then mret tt
                 else throw (EngineScratchIo error)
  | Ok _ =>
      w ← get;
      let keep := quarantine_leaf <$> elements keep_paths in
      drop_preimages (List.filter (λ name, negb (str_in name keep))
                        (elements (dom (w_quarantine w))))
  end.

Definition recover_intents (deps : Deps) : EM unit :=
  intents ← on_store pending_intents;
  on_world (lock_if_aux deps (in_path <$> intents)) ;;
  match intents with
  | [] =>
      on_world (sweep_orphan_temps ∅) ;;
      on_world (sweep_orphan_quarantine ∅)
  | _ =>
      replay ← replay_intents deps
        {| rp_commit := {| ac_upserts := ∅; ac_removals := ∅ |}; rp_keep_temps := ∅;
           rp_abandoned := ∅ |} intents;
      on_store (record_unsyncable (rp_abandoned replay) ∅) ;;
      e ← get;
      on_store (commit_pull_outcome (prove_commit deps (en_world e) (rp_commit replay)) None None
                  (in_path <$> intents) ∅) ;;
      on_world (sweep_orphan_temps (rp_keep_temps replay)) ;;
      on_world (sweep_orphan_quarantine ∅)
  end.

End Apply.
