(* ===== verification/Pull.v ===== *)
(** * Pulling a head

    Models the entry points of [pull_apply.rs]: [pull], [pull_observed],
    [enforce_freshness], [apply_head], [decide_head], [fetch_head] and
    [ancestor_manifest_entries].  The head's manifest comes from the tree transport
    ([diff_tree] or [fetch_tree]), its plan from the three-way merge and its effect from
    the apply transaction. *)

From S2P Require Import Prelude.
From S2P Require Import MergeMatrix.
From S2P Require Import Paths.
From S2P Require Import ManifestTypes.
From S2P Require Import Asides.
From S2P Require Import Disk.
From S2P Require Import Materialize.
From S2P Require Import Store.
From S2P Require Import Ordered.
From S2P Require Import Tree.
From S2P Require Import TreeTransport.
From S2P Require Import TreeDiff.
From S2P Require Import Apply.
Local Open Scope string_scope.
Open Scope Z_scope.

(** [impl From<TreeError> for PullError] *)
Definition tree_error (error : TreeError) : PullError :=
  match error with
  | TreeManifest _ => ManifestErr
  | TreeStore _ => StoreError
  | TreeTransportFailed _ => TransportErr
  | NodeKeyMismatch => ManifestKeyMismatch
  | TreePanicked reason => Panicked reason
  end.

(** What a pull is given: the engine's context, the object store, what the hosted ref
    answers and the scope. *)
Record PullDeps (Obj : Type) := {
  pd_ctx : Deps;
  pd_project_view : bool;
  (** [NameFolding], the endpoint's folding of names *)
  pd_names : string → string;
  pd_objects : Obj;
  pd_prefetch_blobs : gmap BlobKey Z → option (gmap BlobKey bytes);
  pd_read_ref : option (option RefObservation);
  pd_scope : PullScope;
}.
Arguments pd_ctx {Obj} _.
Arguments pd_project_view {Obj} _.
Arguments pd_names {Obj} _.
Arguments pd_objects {Obj} _.
Arguments pd_prefetch_blobs {Obj} _.
Arguments pd_read_ref {Obj} _.
Arguments pd_scope {Obj} _.

Definition enforce_freshness (head : RefObservation) : EM unit :=
  state ← on_store engine_state;
  match es_highest_verified_ref_version state with
  | None => mret tt
  | Some highest =>
      bail_if (ro_version head <? highest) (RefRegressed (ro_version head) highest) ;;
      bail_if ((ro_version head =? highest)
               && bool_decide (es_highest_verified_manifest_key state ≠ Some (ro_manifest_key head)))
        (RefForked (ro_version head))
  end.

Definition ancestor_manifest_entries (ancestor : gmap WorkspacePath FileRecord)
    : Result (gmap WorkspacePath ManifestEntry) PullError :=
  try_fold (λ entries '(path, record),
    match file_record_to_entry record with
    | Err error => Err (PushErr error)
    | Ok entry => Ok (<[path := entry]> entries)
    end) ∅ (btree_iter ancestor).

Definition is_reconcile (scope : PullScope) : bool :=
  match scope with ReconcileAncestor _ => true | _ => false end.

Section Pull.
Context {Obj : Type} `{ContentHash} `{SeedHash} `{Blake3} `{NodeCodec} `{Envelope} `{RemoteObjects Obj}.
Context (debug_assertions : bool) (deps : PullDeps Obj).

Definition pull_limits : DecodeLimits :=
  if pd_project_view deps then project_view else DecodeLimits_default.

Definition manifest_err {A} (r : Result A ManifestError) : EM A :=
  match r with Ok a => mret a | Err _ => throw ManifestErr end.

(** The nodes the fetch proved, recorded against the hashes of the fetched manifest. *)
Definition record_fetched (hashes : gmap DirPath SubtreeHash) (node_keys : gmap DirPath ManifestKey)
    (ledger : StoreNodeLedger) : StoreNodeLedger :=
  foldl (λ ledger '(dir, hash),
    match node_keys !! dir with
    | Some node_key => record hash node_key ledger
    | None => ledger
    end) ledger (btree_iter hashes).

Definition fetch_head (head : RefObservation) (ancestor : gmap WorkspacePath FileRecord)
    (prune_unchanged : bool) : EM (gmap WorkspacePath ManifestEntry * list PathCollision) :=
  let crypto := dp_crypto (pd_ctx deps) in
  let key_epoch := cr_write_epoch crypto in
  ancestor_entries ← of_result (ancestor_manifest_entries ancestor);
  ancestor_tree ← manifest_err (decompose ancestor_entries);
  ancestor_hashes ← manifest_err (subtree_hashes ancestor_tree key_epoch);
  e ← get;
  let prune := if prune_unchanged
               then Some {| pb_entries := ancestor_entries; pb_hashes := ancestor_hashes |}
               else None in
  let '(r, ledger) := fetch_tree (pd_objects deps) crypto pull_limits (pd_names deps) prune
                        (ro_manifest_key head) (store_ledger_new (en_store e) key_epoch) in
  modify (λ e, e <| en_store := sl_store ledger |>) ;;
  match r with
  | Err error => throw (tree_error error)
  | Ok fetched =>
      let head_snapshot := ft_manifest fetched in
      head_tree ← manifest_err (decompose (mf_entries head_snapshot));
      hashes ← manifest_err (subtree_hashes head_tree key_epoch);
      let recorded := into_recorded (record_fetched hashes (ft_node_keys fetched) ledger) in
      (if bool_decide (recorded = ∅) then mret tt
       else on_store (record_tree_nodes recorded key_epoch)) ;;
      mret (mf_entries head_snapshot, ft_collisions fetched)
  end.

Definition decide_head (head : RefObservation) : EM MergePlan :=
  state ← on_store engine_state;
  match es_applied_manifest_key state, dirty_paths (pd_scope deps) with
  | Some applied, Some dirty =>
      match diff_tree (pd_objects deps) (dp_crypto (pd_ctx deps)) pull_limits (pd_names deps)
              applied (ro_manifest_key head) dirty with
      | Err error => throw (tree_error error)
      | Ok delta =>
          let scopes := td_touched delta ∪ dirty ∪ collision_set (td_collisions delta) in
          ancestor ← on_store (files_at_paths scopes);
          e ← get;
          of_result (classify (ctx_of (pd_ctx deps) (en_world e)) debug_assertions ancestor
                       (td_entries delta) (td_collisions delta) (pd_scope deps))
      end
  | _, _ =>
      ancestor ← on_store all_files;
      '(head_snapshot, collisions) ← fetch_head head ancestor (negb (is_reconcile (pd_scope deps)));
      e ← get;
      of_result (classify (ctx_of (pd_ctx deps) (en_world e)) debug_assertions ancestor
                   head_snapshot collisions (pd_scope deps))
  end.

Definition apply_head (head : RefObservation) : EM PullOutcome :=
  plan ← decide_head head;
  apply_plan (pd_ctx deps) (pd_prefetch_blobs deps) plan (ro_manifest_key head) (ro_version head).

Definition pull_observed (observed : option RefObservation) : EM PullOutcome :=
  match observed with
  | None => mret (PullOutcome_default <| po_observed_ref := Genesis |>)
  | Some head =>
      enforce_freshness head ;;
      state ← on_store engine_state;
      if bool_decide (es_applied_manifest_key state = Some (ro_manifest_key head))
         && negb (is_reconcile (pd_scope deps))
      then
        (if bool_decide (es_last_ref_version state ≠ Some (ro_version head))
         then on_store (record_ref_advance (ro_manifest_key head) (ro_version head))
         else mret tt) ;;
        mret (PullOutcome_default
          <| po_observed_ref := Head head |>
          <| po_applied_manifest_key := Some (ro_manifest_key head) |>
          <| po_ref_version := Some (ro_version head) |>
          <| po_already_current := true |>)
      else apply_head head
  end.

Definition pull : EM PullOutcome :=
  recover_intents (pd_ctx deps) ;;
  observed ← ok_or TransportErr (pd_read_ref deps);
  pull_observed observed.

End Pull.
