(* ===== verification/Push.v ===== *)
(** * Pushing local changes

    Models [push.rs] and [push/candidate.rs]: the scan of the dirty paths into a
    candidate delta, the upload of changed content, the removal breaker, the publication
    of the new manifest and the compare-and-swap of the hosted ref.

    The user may change the disk while the engine scans it: [ps_disk k] is the disk at the
    engine's [k]-th look at a path.  The pass that stamps the rows at the end of the scan
    ([prove_rows]) is one look.  Blob uploads, the spool of large files and the hosted ref
    answer anything; counters are not modelled. *)

From S2P Require Import Prelude.
From S2P Require Import MergeMatrix.
From S2P Require Import Paths.
From S2P Require Import ManifestTypes.
From S2P Require Import FsGuard.
From S2P Require Import Disk.
From S2P Require Import Materialize.
From S2P Require Import Endpoint.
From S2P Require Import Store.
From S2P Require Import Ordered.
From S2P Require Import Tree.
From S2P Require Import TreeTransport.
From S2P Require Import TreePatch.
Local Open Scope string_scope.
Open Scope Z_scope.

(** ** The transport of blobs *)

Class RemoteBlobs (Obj : Type) := {
  put_blob : BlobKey → bytes → M Obj TransportError unit;
  ensure_uploads_settled : M Obj TransportError unit;
  get_blob : Obj → BlobKey → option bytes;
}.

Class SegmentedSealing :=
  seal_segmented : bytes → string → EnvelopeContext → Result bytes EnvelopeError.

Inductive CasOutcome := Advanced (observed : RefObservation) | Lost (current : RefObservation) | Ambiguous.

(** The spool file of one large upload. *)
Record Spool := {
  sp_create_dir : Result unit IoError;
  (** creating the name of an attempt *)
  sp_open : Z → Result unit IoError;
  (** [flush] and [sync_all] *)
  sp_sync : Result unit IoError;
  (** the content read back, from what was written *)
  sp_read_back : bytes → Result bytes IoError;
}.

Record PushDeps := {
  ps_disk : nat → Os;
  ps_crypto : WorkspaceCrypto;
  ps_max_seal_bytes : Z;
  ps_large_file_threshold : Z;
  ps_project_view : bool;
  (** [NameFolding::canonical_spelling] of the endpoint *)
  ps_canonical : WorkspacePath → WorkspacePath;
  ps_timestamps : TimestampGranularity;
  (** the reading of the endpoint's clock at the end of the scan *)
  ps_endpoint_clock : option Z;
  ps_now : Z;
  ps_spool : ContentId → Spool;
  ps_compare_and_swap : option Z → ManifestKey → option CasOutcome;
  (** what [read_ref] answers after an ambiguous swap *)
  ps_read_ref : option (option RefObservation);
}.

Record Pushing (Obj : Type) := {
  pu_store : ManifestStore;
  pu_objects : Obj;
  (** the rows of the blob ledger this push earned *)
  pu_fresh : gmap ContentId SealedBlob;
  pu_tick : nat;
}.
Arguments pu_store {Obj} _.
Arguments pu_objects {Obj} _.
Arguments pu_fresh {Obj} _.
Arguments pu_tick {Obj} _.
#[export] Instance Pushing_eta Obj : Eta (Pushing Obj) :=
  λ p, Build_Pushing Obj (pu_store p) (pu_objects p) (pu_fresh p) (pu_tick p).

(** ** The candidate delta *)

Record Candidate := {
  cd_upserts : gmap WorkspacePath (FileRecord * ManifestEntry);
  cd_removals : gset WorkspacePath;
  cd_local_refreshes : gmap WorkspacePath FileRecord;
  cd_unsyncable : gmap WorkspacePath UnsyncableRecord;
  cd_skipped : gset WorkspacePath;
  cd_scanned : gset WorkspacePath;
}.

#[export] Instance Candidate_eta : Eta Candidate :=
  λ c, Build_Candidate (cd_upserts c) (cd_removals c) (cd_local_refreshes c) (cd_unsyncable c)
         (cd_skipped c) (cd_scanned c).

Definition Candidate_default : Candidate :=
  {| cd_upserts := ∅; cd_removals := ∅; cd_local_refreshes := ∅; cd_unsyncable := ∅;
     cd_skipped := ∅; cd_scanned := ∅ |}.

(** [Candidate::is_empty] *)
Definition candidate_is_empty (c : Candidate) : bool :=
  bool_decide (cd_upserts c = ∅) && bool_decide (cd_removals c = ∅).

Definition ancestor_commit (c : Candidate) : AncestorCommit :=
  {| ac_upserts := (fst <$> cd_upserts c) ∪ cd_local_refreshes c; ac_removals := cd_removals c |}.

Definition settled_paths (c : Candidate) : gset WorkspacePath :=
  filter (λ path, (path ∉ cd_skipped c) ∧ cd_unsyncable c !! path = None) (cd_scanned c).

Inductive PathScan :=
| ScanUpsert (record : FileRecord) (entry : ManifestEntry)
| ScanRemove
| ScanLocalRefresh (record : FileRecord)
| ScanSettled
| ScanRetry
| ScanUnsyncable (record : UnsyncableRecord).

Inductive ScanResult :=
| SrEntry (record : FileRecord) (entry : ManifestEntry)
| SrLocalRefresh (record : FileRecord)
| SrUnchanged
| SrDiverged
| SrUnsyncable (record : UnsyncableRecord).

Definition directory_candidate (observed : Observed) : FileRecord * ManifestEntry :=
  ({| fr_kind := Directory; fr_size := 0; fr_mode := ob_mode observed; fr_symlink_target := None;
      fr_content_id := None; fr_blob_key := None; fr_key_epoch := None;
      fr_fingerprint := ob_fingerprint observed; fr_hashed_at := None; fr_verified_at := None |},
   DirectoryEntry (ob_mode observed)).

Definition symlink_candidate (observed : Observed) : FileRecord * ManifestEntry :=
  let target := default "" (ob_symlink_target observed) in
  ({| fr_kind := Symlink; fr_size := 0; fr_mode := ob_mode observed; fr_symlink_target := Some target;
      fr_content_id := None; fr_blob_key := None; fr_key_epoch := None;
      fr_fingerprint := ob_fingerprint observed; fr_hashed_at := None; fr_verified_at := None |},
   SymlinkEntry (ob_mode observed) target).

Definition directory_scan (observed : Observed) (ancestor_row : option FileRecord) : ScanResult :=
  if is_some_and (λ row, bool_decide (fr_kind row = Directory) && (fr_mode row =? ob_mode observed)) ancestor_row
  then SrUnchanged
  else let '(record, entry) := directory_candidate observed in SrEntry record entry.

Definition symlink_scan (now : Z) (path : WorkspacePath) (observed : Observed)
    (ancestor_row : option FileRecord) : ScanResult :=
  let observed_target := default "" (ob_symlink_target observed) in
  if negb (symlink_target_stays_in_workspace path observed_target)
  then SrUnsyncable {| ur_reason := EscapingSymlinkTarget; ur_errno := None; ur_observed_at := now |} else
  if is_some_and (λ row, bool_decide (fr_kind row = Symlink) && (fr_mode row =? ob_mode observed)
                         && bool_decide (fr_symlink_target row = Some observed_target)) ancestor_row
  then SrUnchanged
  else let '(record, entry) := symlink_candidate observed in SrEntry record entry.

Definition read_rejection (now : Z) (error : PushError) : Result UnsyncableRecord PushError :=
  match error with
  | StreamSealUnsupported _ _ =>
      Ok {| ur_reason := AboveSealCeiling; ur_errno := None; ur_observed_at := now |}
  | PushIo error =>
      Ok {| ur_reason := path_scoped_reason error; ur_errno := io_raw_os_error error;
            ur_observed_at := now |}
  | other => Err other
  end.

Definition is_descendant (path root : WorkspacePath) : bool :=
  match strip_prefix root path with Some suffix => starts_with "/" suffix | None => false end.

Definition destructive_roots (c : Candidate) (ancestor : gmap WorkspacePath FileRecord) : gset WorkspacePath :=
  cd_removals c
  ∪ dom (filter (λ '(path, (_, entry)),
           is_some_and (λ record, bool_decide (fr_kind record = Directory)) (ancestor !! path) = true
           ∧ entry_kind entry ≠ Directory) (cd_upserts c)).

Definition below_destructive_root (roots : gset WorkspacePath) (path : WorkspacePath) : bool :=
  existsb (λ root, negb (path =? root)%string && is_descendant path root) (elements roots).

Definition expand_subtree_removals (c : Candidate) (ancestor : gmap WorkspacePath FileRecord) : Candidate :=
  let roots := destructive_roots c ancestor in
  if bool_decide (roots = ∅) then c else
  c <| cd_removals := cd_removals c ∪ filter (λ path, below_destructive_root roots path = true) (dom ancestor) |>
    <| cd_upserts := filter (λ '(path, _), below_destructive_root roots path = false) (cd_upserts c) |>
    <| cd_local_refreshes :=
         filter (λ '(path, _), below_destructive_root roots path = false) (cd_local_refreshes c) |>.

(** ** The removal breaker *)

Inductive DeletionAuthorization :=
| Enforce
| ExplicitOperation
| ConfirmedPaths (paths : gset WorkspacePath).

Inductive DeletionPolicy := PolicyEnforce | PolicyConfirmed.

(** [impl From<DeletionPolicy> for DeletionAuthorization] *)
Definition authorization_of (policy : DeletionPolicy) : DeletionAuthorization :=
  match policy with PolicyEnforce => Enforce | PolicyConfirmed => ExplicitOperation end.

Definition MIN_DELETION_ALLOWANCE : Z := 64.
Definition DELETION_FRACTION_DENOMINATOR : Z := 4.

Definition mass_deletion_threshold (entries : Z) : Z :=
  MIN_DELETION_ALLOWANCE `max` (entries / DELETION_FRACTION_DENOMINATOR).

Definition counted_removals (scoped_ancestor : gmap WorkspacePath FileRecord)
    (durable_pending : gset WorkspacePath) (c : Candidate) : gset WorkspacePath :=
  filter (λ path, path ∈ dom scoped_ancestor ∨ path ∈ durable_pending) (cd_removals c).

Definition guard_mass_deletion (ancestor_count : Z) (scoped_ancestor : gmap WorkspacePath FileRecord)
    (durable_pending : gset WorkspacePath) (c : Candidate) (deletions : DeletionAuthorization)
    : Result unit PushError :=
  let removals := counted_removals scoped_ancestor durable_pending c in
  let enforce :=
    let threshold := mass_deletion_threshold ancestor_count in
    if threshold <? Z.of_nat (size removals)
    then Err (MassDeletionRefused removals ancestor_count threshold) else Ok tt in
  match deletions with
  | ExplicitOperation => Ok tt
  | ConfirmedPaths confirmed => if bool_decide (removals ⊆ confirmed) then Ok tt else enforce
  | Enforce => enforce
  end.

(** [build_manifest] *)
Definition build_manifest (ancestor : gmap WorkspacePath FileRecord) (c : Candidate) (key_epoch : KeyEpoch)
    : Result Manifest PushError :=
  result_map (λ entries,
    {| mf_key_epoch := key_epoch;
       mf_entries := filter (λ '(path, _), path ∉ cd_removals c) ((snd <$> cd_upserts c) ∪ entries) |})
    (try_fold (λ entries '(path, record),
       result_map (λ entry, <[path := entry]> entries) (file_record_to_entry record)) ∅ (btree_iter ancestor)).

(** [impl From<TreeError> for PushError] *)
Definition push_tree_error (error : TreeError) : PushError :=
  match error with
  | TreeManifest _ => PushManifestErr
  | TreeStore _ => PushStoreErr
  | TreeTransportFailed _ => PushTransportErr
  | NodeKeyMismatch => PushManifestErr
  | TreePanicked reason => PushPanicked reason
  end.

Inductive PushOutcome :=
| PushAdvanced (manifest_key : ManifestKey) (ref_version : Z) (skipped : gset WorkspacePath)
| PushNoChange (skipped : gset WorkspacePath)
| PushRefLost (current : option RefObservation).

Inductive WatcherEvidence := Continuous | Gapped.

Section Push.
Context {Obj : Type} `{ContentHash} `{Blake3} `{NodeCodec} `{Sealing} `{SegmentedSealing} `{Envelope}.
Context `{RemoteObjects Obj} `{RemoteBlobs Obj}.
Context (deps : PushDeps).

Local Abbreviation PM := (M (Pushing Obj) PushError).

Local Abbreviation key_epoch := (cr_write_epoch (ps_crypto deps)).

Definition unheld : PushError := PushPanicked "write epoch key must exist in workspace crypto keyring".

(** A store call, whose failure is [PushError::Store]. *)
Definition push_store {A} (m : SM A) : PM A := λ s,
  match m (pu_store s) with
  | (Ok a, store) => (Ok a, s <| pu_store := store |>)
  | (Err _, store) => (Err PushStoreErr, s <| pu_store := store |>)
  end.

(** A transport call, whose failure is [PushError::Transport]. *)
Definition push_objects {A} (m : M Obj TransportError A) : PM A := λ s,
  match m (pu_objects s) with
  | (Ok a, objects) => (Ok a, s <| pu_objects := objects |>)
  | (Err _, objects) => (Err PushTransportErr, s <| pu_objects := objects |>)
  end.

(** One look at the disk. *)
Definition look : PM Os := λ s, (Ok (ps_disk deps (pu_tick s)), s <| pu_tick := Datatypes.S (pu_tick s) |>).

Definition io_result {A} (r : Result A IoError) : PM A :=
  match r with Ok a => mret a | Err error => throw (PushIo error) end.

(** ** Uploading content *)

(** [BlobLedger::known] *)
Definition blob_known (content_id : ContentId) : PM (option BlobKey) :=
  s ← get;
  match pu_fresh s !! content_id with
  | Some blob => mret (Some (sb_blob_key blob))
  | None => blob ← push_store (sealed_blob content_id key_epoch); mret (sb_blob_key <$> blob)
  end.

(** [BlobLedger::record] *)
Definition blob_record (content_id : ContentId) (blob_key : BlobKey) (byte_len : Z) : PM unit :=
  modify (λ s, s <| pu_fresh := <[content_id := {| sb_blob_key := blob_key; sb_key_epoch := key_epoch;
                                                   sb_byte_len := byte_len |}]> (pu_fresh s) |>).

(** [seal_file] *)
Definition seal_file (content_id : ContentId) (plaintext : bytes) : PM bytes :=
  key ← ok_or unheld (cr_keys (ps_crypto deps) !! key_epoch);
  match seal plaintext key (file_context content_id key_epoch ENVELOPE_FORMAT_VERSION) with
  | Ok sealed => mret sealed
  | Err _ => throw PushManifestErr
  end.

Definition upload_file_blob (content_id : ContentId) (plaintext : bytes) : PM BlobKey :=
  known ← blob_known content_id;
  match known with
  | Some existing => mret existing
  | None =>
      sealed ← seal_file content_id plaintext;
      let key := physical_blob_key sealed in
      push_objects (put_blob key sealed) ;;
      blob_record content_id key (str_len plaintext) ;;
      mret key
  end.

(** The attempts of [create_segmented_spool]. *)
Fixpoint spool_attempts (spool : Spool) (attempts : list Z) : Result unit IoError :=
  match attempts with
  | [] => Err already_exists
  | attempt :: attempts =>
      match sp_open spool attempt with
      | Ok _ => Ok tt
      | Err error => if bool_decide (io_kind error = AlreadyExists) then spool_attempts spool attempts
                     else Err error
      end
  end.

Definition create_segmented_spool (content_id : ContentId) : PM unit :=
  io_result (sp_create_dir (ps_spool deps content_id)) ;;
  io_result (spool_attempts (ps_spool deps content_id) (seqZ 0 16)).

(** [seal_file_segmented] over the content of the opened file. *)
Definition seal_file_segmented (expected_content_id : ContentId) (content : Result bytes IoError)
    : Result bytes PushError :=
  match cr_keys (ps_crypto deps) !! key_epoch with
  | None => Err unheld
  | Some key =>
      match content with
      | Err _ => Err PushManifestErr
      | Ok plaintext =>
          match seal_segmented plaintext key
                  (file_context expected_content_id key_epoch ENVELOPE_FORMAT_VERSION) with
          | Err _ => Err PushManifestErr
          | Ok sealed =>
              if negb (content_id_of key plaintext =? expected_content_id)%string
              then Err PushManifestErr else Ok sealed
          end
      end
  end.

Definition upload_file_blob_segmented (path : WorkspacePath) (expected : ExpectedFile)
    (content_id : ContentId) : PM (option BlobKey) :=
  known ← blob_known content_id;
  match known with
  | Some existing => mret (Some existing)
  | None =>
      create_segmented_spool content_id ;;
      os ← look;
      visited ← of_result (visit_file_bounded os path (ps_max_seal_bytes deps) expected (λ source _,
        result_bind (seal_file_segmented content_id (h_content source)) (λ sealed,
        match sp_sync (ps_spool deps content_id) with
        | Ok _ => Ok sealed
        | Err error => Err (PushIo error)
        end)));
      match visited with
      | VisitDiverged => mret None
      | VisitValue sealed =>
          spooled ← io_result (sp_read_back (ps_spool deps content_id) sealed);
          let key := physical_blob_key spooled in
          bail_if (negb (str_len spooled =? str_len sealed)) PushManifestErr ;;
          push_objects (put_blob key spooled) ;;
          blob_record content_id key (ef_size expected) ;;
          mret (Some key)
      end
  end.

(** ** Scanning *)

(** The identity of a file's content, with the bytes of a small one; the inner error is
    the scan's answer. *)
Definition file_content (path : WorkspacePath) (observed : Observed) (is_segmented : bool)
    : PM (Result (ContentId * option bytes) ScanResult) :=
  os ← look;
  if is_segmented then
    let visited := visit_file_bounded os path (ps_max_seal_bytes deps) (expected_file observed) (λ file _,
      match h_content file with
      | Err error => Err (PushIo error)
      | Ok content =>
          match crypto_content_id (ps_crypto deps) content with
          | Some content_id => Ok (content_id, str_len content)
          | None => Err (PushIo {| io_kind := OtherKind; io_raw_os_error := None |})
          end
      end) in
    match visited with
    | Ok (VisitValue (content_id, byte_len)) =>
        if byte_len =? ob_size observed then mret (Ok (content_id, None)) else mret (Err SrDiverged)
    | Ok VisitDiverged => mret (Err SrDiverged)
    | Err error => record ← of_result (read_rejection (ps_now deps) error); mret (Err (SrUnsyncable record))
    end
  else
    match read_file_bounded os path (ps_max_seal_bytes deps) (expected_file observed) with
    | Ok (ReadBytes plaintext) =>
        content_id ← ok_or unheld (crypto_content_id (ps_crypto deps) plaintext);
        mret (Ok (content_id, Some plaintext))
    | Ok ReadDiverged => mret (Err SrDiverged)
    | Err error => record ← of_result (read_rejection (ps_now deps) error); mret (Err (SrUnsyncable record))
    end.

(** The row and entry of a file whose content is stored under [blob_key]. *)
Definition file_entry (observed : Observed) (content_id : ContentId) (blob_key : BlobKey) : ScanResult :=
  SrEntry
    {| fr_kind := File; fr_size := ob_size observed; fr_mode := ob_mode observed; fr_symlink_target := None;
       fr_content_id := Some content_id; fr_blob_key := Some blob_key; fr_key_epoch := Some key_epoch;
       fr_fingerprint := ob_fingerprint observed; fr_hashed_at := Some (ps_now deps);
       fr_verified_at := None |}
    (FileEntry (ob_size observed) (ob_mode observed) content_id blob_key key_epoch).

(** The key of the content of a file: the two upload arms of the [match]. *)
Definition upload_content (path : WorkspacePath) (observed : Observed) (content_id : ContentId)
    (plaintext : option bytes) (is_segmented : bool) : PM ScanResult :=
  if is_segmented then
    blob_key ← upload_file_blob_segmented path (expected_file observed) content_id;
    match blob_key with
    | None => mret SrDiverged
    | Some blob_key => mret (file_entry observed content_id blob_key)
    end
  else
    plaintext ← ok_or PushManifestErr plaintext;
    blob_key ← upload_file_blob content_id plaintext;
    mret (file_entry observed content_id blob_key).

Definition file_candidate (path : WorkspacePath) (observed : Observed) (ancestor_row : option FileRecord)
    (trust : StatTrust) : PM ScanResult :=
  if is_some_and (λ row, bool_decide (fr_kind row = File) && (fr_size row =? ob_size observed)
                         && (fr_mode row =? ob_mode observed) && settles trust row observed) ancestor_row
  then mret SrUnchanged else
  let is_segmented := ps_large_file_threshold deps <=? ob_size observed in
  content ← file_content path observed is_segmented;
  match content with
  | Err answer => mret answer
  | Ok (content_id, plaintext) =>
      let same_content row :=
        bool_decide (fr_content_id row = Some content_id) && bool_decide (fr_key_epoch row = Some key_epoch) in
      match ancestor_row with
      | Some row =>
          if bool_decide (fr_kind row = File) && same_content row && (fr_mode row =? ob_mode observed) then
            mret (SrLocalRefresh (row <| fr_size := ob_size observed |>
                                      <| fr_fingerprint := ob_fingerprint observed |>
                                      <| fr_hashed_at := Some (ps_now deps) |>
                                      <| fr_verified_at := None |>))
          else if same_content row then
            blob_key ← ok_or (AncestorRowMissing "blob_key") (fr_blob_key row);
            mret (file_entry observed content_id blob_key)
          else upload_content path observed content_id plaintext is_segmented
      | None => upload_content path observed content_id plaintext is_segmented
      end
  end.
Definition scan_observed (path : WorkspacePath) (observed : Observed) (ancestor_row : option FileRecord)
    (trust : StatTrust) : PM ScanResult :=
  match ob_kind observed with
  | Directory => mret (directory_scan observed ancestor_row)
  | Symlink => mret (symlink_scan (ps_now deps) path observed ancestor_row)
  | File => file_candidate path observed ancestor_row trust
  end.

(** The attempts of [scan_path]. *)
Fixpoint scan_attempts (attempts : nat) (ancestor : gmap WorkspacePath FileRecord) (path : WorkspacePath)
    (trust : StatTrust) : PM PathScan :=
  match attempts with
  | O => mret ScanRetry
  | Datatypes.S attempts =>
      os ← look;
      match observe_classified os path with
      | ObAbsent => mret ScanRemove
      | ObUnsyncable reason =>
          mret (ScanUnsyncable {| ur_reason := reason; ur_errno := None; ur_observed_at := ps_now deps |})
      | ObPresent observed =>
          result ← scan_observed path observed (ancestor !! path) trust;
          match result with
          | SrEntry record entry => mret (ScanUpsert record entry)
          | SrLocalRefresh record => mret (ScanLocalRefresh record)
          | SrUnchanged => mret ScanSettled
          | SrUnsyncable record => mret (ScanUnsyncable record)
          | SrDiverged => scan_attempts attempts ancestor path trust
          end
      end
  end.

Definition scan_path := scan_attempts 2.

(** The [match] of [build_candidate] on one path's scan. *)
Definition note_scan (path : WorkspacePath) (scan : PathScan) (c : Candidate) : Candidate :=
  match scan with
  | ScanUpsert record entry => c <| cd_upserts := <[path := (record, entry)]> (cd_upserts c) |>
  | ScanRemove => c <| cd_removals := {[path]} ∪ cd_removals c |>
  | ScanUnsyncable record => c <| cd_unsyncable := <[path := record]> (cd_unsyncable c) |>
  | ScanLocalRefresh record => c <| cd_local_refreshes := <[path := record]> (cd_local_refreshes c) |>
  | ScanSettled => c
  | ScanRetry => c <| cd_skipped := {[path]} ∪ cd_skipped c |>
  end.

(** One turn of the loop of [build_candidate]: the guard on the name, then the scan. *)
Definition scan_publishable (ancestor : gmap WorkspacePath FileRecord) (path : WorkspacePath)
    (trust : StatTrust) : PM PathScan :=
  match publishable_workspace_path path MAX_WORKSPACE_PATH_LEN (ps_project_view deps) with
  | Err _ =>
      mret (ScanUnsyncable {| ur_reason := UnrepresentablePath; ur_errno := None;
                              ur_observed_at := ps_now deps |})
  | Ok _ => scan_path ancestor path trust
  end.

Fixpoint scan_all (ancestor : gmap WorkspacePath FileRecord) (trust : StatTrust)
    (paths : list WorkspacePath) (c : Candidate) : PM Candidate :=
  match paths with
  | [] => mret c
  | path :: paths =>
      scan ← scan_publishable ancestor path trust;
      scan_all ancestor trust paths (note_scan path scan c)
  end.

(** [prove_rows] over the rows of a candidate: only [verified_at] changes. *)
Definition prove_candidate (os : Os) (c : Candidate) : Candidate :=
  let prove rows := prove_rows os (ps_endpoint_clock deps) (ps_timestamps deps) (ps_crypto deps)
                      (ps_max_seal_bytes deps) rows in
  c <| cd_upserts := map_zip (prove (fst <$> cd_upserts c)) (snd <$> cd_upserts c) |>
    <| cd_local_refreshes := prove (cd_local_refreshes c) |>.

Definition canonical_paths (dirty_paths : gset WorkspacePath) : gset WorkspacePath :=
  set_map (ps_canonical deps) dirty_paths.

Definition build_candidate (ancestor : gmap WorkspacePath FileRecord) (dirty_paths : gset WorkspacePath)
    (trust : StatTrust) : PM Candidate :=
  let publish := canonical_paths dirty_paths in
  c ← scan_all ancestor trust (merge_sort str_le (elements publish)) Candidate_default;
  let c := (expand_subtree_removals c ancestor) <| cd_scanned := publish |> in
  os ← look;
  mret (prove_candidate os c).

Definition record_unsyncable_outcome (c : Candidate) : PM unit :=
  push_store (record_unsyncable (cd_unsyncable c)
                (filter (λ path, cd_unsyncable c !! path = None) (cd_scanned c))).

(** ** Publishing the manifest *)

Definition upload_manifest (snapshot : Manifest) : PM ManifestKey :=
  s ← get;
  let '(r, (objects, ledger)) :=
    publish_tree (ps_crypto deps) snapshot (pu_objects s) (store_ledger_new (pu_store s) key_epoch) in
  modify (λ s, s <| pu_objects := objects |> <| pu_store := sl_store ledger |>) ;;
  match r with
  | Err error => throw (push_tree_error error)
  | Ok key =>
      let recorded := into_recorded ledger in
      (if bool_decide (recorded = ∅) then mret tt else push_store (record_tree_nodes recorded key_epoch)) ;;
      mret key
  end.

(** The changes of a candidate: a removal overrides an upsert of the same path. *)
Definition candidate_changes (c : Candidate) : gmap WorkspacePath (option ManifestEntry) :=
  gset_to_gmap None (cd_removals c) ∪ ((λ '(_, entry), Some entry) <$> cd_upserts c).

Definition upload_manifest_delta (root : ManifestKey) (c : Candidate) : PM ManifestKey :=
  s ← get;
  let '(r, objects) := patch_tree (pu_objects s) (ps_crypto deps) root (candidate_changes c) in
  modify (λ s, s <| pu_objects := objects |>) ;;
  match r with
  | Err error => throw (push_tree_error error)
  | Ok root => push_store (record_tree_node_epoch root key_epoch) ;; mret root
  end.

(** ** The swap of the ref *)

Definition commit_advance (c : Candidate) (manifest_key : ManifestKey) (ref_version : Z) : PM PushOutcome :=
  push_store (commit_push_success (ancestor_commit c) manifest_key ref_version (settled_paths c)) ;;
  mret (PushAdvanced manifest_key ref_version (cd_skipped c)).

Definition resolve_cas (c : Candidate) (manifest_key : ManifestKey) (outcome : CasOutcome) : PM PushOutcome :=
  match outcome with
  | Advanced observed => commit_advance c manifest_key (ro_version observed)
  | Lost current => mret (PushRefLost (Some current))
  | Ambiguous =>
      answer ← ok_or PushTransportErr (ps_read_ref deps);
      match answer with
      | Some current =>
          if (ro_manifest_key current =? manifest_key)%string
          then commit_advance c manifest_key (ro_version current)
          else mret (PushRefLost (Some current))
      | None => mret (PushRefLost None)
      end
  end.

(** The durable record of the blobs this push uploaded. *)
Definition settle_uploads : PM unit :=
  s ← get;
  if bool_decide (pu_fresh s = ∅) then mret tt else
  push_objects ensure_uploads_settled ;;
  push_store (record_sealed_blobs (pu_fresh s)).

Definition no_change (c : Candidate) : PM PushOutcome :=
  push_store (commit_push_no_change (ancestor_commit c) (settled_paths c)) ;;
  mret (PushNoChange (cd_skipped c)).

(** Whether the tree of the applied root was sealed under an older key. *)
Definition needs_epoch_rebuild (state : EngineState) : PM bool :=
  outside ← push_store (has_files_outside_key_epoch key_epoch);
  match outside, es_applied_manifest_key state with
  | true, _ => mret true
  | false, Some root =>
      epoch ← push_store (tree_node_key_epoch root); mret (bool_decide (epoch ≠ Some key_epoch))
  | false, None => mret false
  end.

(** The [match] that publishes the candidate: the delta of the applied root, or the whole
    manifest. *)
Definition publish_candidate (state : EngineState) (ancestor : gmap WorkspacePath FileRecord)
    (epoch_rebuild : bool) (c : Candidate) : PM ManifestKey :=
  match es_applied_manifest_key state, epoch_rebuild with
  | Some root, false => upload_manifest_delta root c
  | _, _ =>
      complete_ancestor ← (if epoch_rebuild then push_store all_files else mret ancestor);
      snapshot ← of_result (build_manifest complete_ancestor c key_epoch);
      upload_manifest snapshot
  end.

Definition push_scanned (dirty_paths : gset WorkspacePath) (trust : StatTrust)
    (deletions : DeletionAuthorization) : PM PushOutcome :=
  ancestor ← push_store (files_in_scopes (canonical_paths dirty_paths));
  ancestor_count ← push_store file_count;
  state ← push_store engine_state;
  durable_pending ← push_store pending_push_paths;
  epoch_rebuild ← needs_epoch_rebuild state;
  modify (λ s, s <| pu_fresh := ∅ |>) ;;
  c ← build_candidate ancestor dirty_paths trust;
  settle_uploads ;;
  record_unsyncable_outcome c ;;
  if candidate_is_empty c && negb epoch_rebuild then no_change c else
  of_result (guard_mass_deletion ancestor_count ancestor durable_pending c deletions) ;;
  manifest_key ← publish_candidate state ancestor epoch_rebuild c;
  if bool_decide (es_applied_manifest_key state = Some manifest_key) then no_change c else
  outcome ← ok_or PushTransportErr (ps_compare_and_swap deps (es_last_ref_version state) manifest_key);
  resolve_cas c manifest_key outcome.

Definition push_dirty_paths_authorized (dirty_paths : gset WorkspacePath)
    (deletions : DeletionAuthorization) (evidence : WatcherEvidence) : PM PushOutcome :=
  let trust :=
    match evidence with
    | Continuous => OutsideRacyWindow (ps_timestamps deps)
    | Gapped => NeverTrust
    end in
  push_scanned dirty_paths trust deletions.

Definition push_dirty_paths (dirty_paths : gset WorkspacePath) (deletions : DeletionPolicy)
    (evidence : WatcherEvidence) : PM PushOutcome :=
  push_dirty_paths_authorized dirty_paths (authorization_of deletions) evidence.

Definition push (dirty_paths : gset WorkspacePath) : PM PushOutcome :=
  push_dirty_paths dirty_paths PolicyEnforce Continuous.

End Push.
