(* ===== verification/DiskLemmas.v ===== *)
(** * Reasoning about the disk

    Well-formed trees, the invariant of a computation that works at one path, and
    the creation of a parent chain.  [keeps] is invariant preservation for the error
    monad; the [keeps] hint database carries it through the combinators and the
    calls of [Disk] and [Materialize]. *)

From S2P Require Import Prelude.
From S2P Require Import MergeMatrix.
From S2P Require Import Paths.
From S2P Require Import ManifestTypes.
From S2P Require Import FsGuard.
From S2P Require Import Asides.
From S2P Require Import Disk.
From S2P Require Import Materialize.
Local Open Scope string_scope.
Open Scope Z_scope.

(** ** Running computations *)

Lemma bind_run {S E A B} (m : M S E A) (f : A → M S E B) s :
  (m ≫= f) s = match m s with (Ok a, s') => f a s' | (Err e, s') => (Err e, s') end.
Proof. done. Qed.

(** ** Invariants of computations *)

Definition keeps {S E A} (I : S → Prop) (m : M S E A) : Prop := ∀ s, I s → I (snd (m s)).

Lemma bind_inv {S E A B} (m : M S E A) (f : A → M S E B) s r s' :
  (m ≫= f) s = (r, s') →
  (∃ e, m s = (Err e, s') ∧ r = Err e) ∨ (∃ a s1, m s = (Ok a, s1) ∧ f a s1 = (r, s')).
Proof.
  rewrite bind_run. destruct (m s) as [[a|e] s1]; [by right; exists a, s1|].
  intros [= <- <-]. left. by exists e.
Qed.

Section Keeps.
Context {S : Type} (I : S → Prop).

Lemma keeps_ret {E A} (a : A) : keeps I (mret a : M S E A).
Proof. by intros s. Qed.

Lemma keeps_throw {E A} (e : E) : keeps I (throw e : M S E A).
Proof. by intros s. Qed.

Lemma keeps_get {E} : keeps I (get : M S E S).
Proof. by intros s. Qed.

Lemma keeps_of_result {E A} (r : Result A E) : keeps I (of_result r).
Proof. by intros s. Qed.

Lemma keeps_ok_or {E A} (e : E) (o : option A) : keeps I (ok_or e o).
Proof. by destruct o; intros s. Qed.

Lemma keeps_bail_if {E} (b : bool) (e : E) : keeps I (bail_if b e).
Proof. by destruct b; intros s. Qed.

Lemma keeps_modify {E} (f : S → S) : (∀ s, I s → I (f s)) → keeps I (modify f : M S E unit).
Proof. intros Hf s Hs. by apply Hf. Qed.

Lemma keeps_bind {E A B} (m : M S E A) (f : A → M S E B) :
  keeps I m → (∀ a, keeps I (f a)) → keeps I (m ≫= f).
Proof.
  intros Hm Hf s Hs. unfold mbind, M_bind, m_bind. specialize (Hm s Hs).
  destruct (m s) as [[a|e] s']; cbn in *; [by apply Hf|done].
Qed.

Lemma keeps_map_err {E F A} (f : E → F) (m : M S E A) : keeps I m → keeps I (map_err f m).
Proof. intros Hm s Hs. specialize (Hm s Hs). unfold map_err. by destruct (m s) as [[a|e] s']. Qed.

Lemma keeps_attempt {E F A} (m : M S E A) : keeps I m → keeps I (attempt m : M S F _).
Proof. intros Hm s Hs. specialize (Hm s Hs). unfold attempt. by destruct (m s). Qed.

(** Reading the state and deciding on it. *)
Lemma keeps_get_bind {E A} (f : S → M S E A) :
  (∀ s, I s → I (snd (f s s))) → keeps I (get ≫= f).
Proof. intros Hf s Hs. by apply Hf. Qed.

(** A step that always fails: what follows it never runs. *)
Lemma keeps_bind_fails {E A B} (m : M S E A) (f : A → M S E B) :
  keeps I m → (∀ s, I s → ∃ e, fst (m s) = Err e) → keeps I (m ≫= f).
Proof.
  intros Hm Hf s Hs. rewrite bind_run. specialize (Hm s Hs). destruct (Hf s Hs) as [e He].
  by destruct (m s) as [[a|e'] s'].
Qed.

(** Passing to a stronger invariant. *)
Lemma keeps_under (J : S → Prop) {E A} (m : M S E A) s :
  J s → keeps J m → (∀ s, J s → I s) → I (snd (m s)).
Proof. intros Hs Hm HJ. by apply HJ, Hm. Qed.

End Keeps.

Create HintDb keeps discriminated.
#[export] Hint Resolve keeps_ret keeps_throw keeps_get keeps_of_result keeps_ok_or keeps_bail_if
  keeps_map_err keeps_attempt : keeps.

(** Decompose a computation; what remains are its calls. *)
Ltac keeps_step :=
  lazymatch goal with
  | |- keeps _ (mbind _ _) => apply keeps_bind; [|intros ?]
  | |- keeps _ (map_err _ _) => apply keeps_map_err
  | |- keeps _ (attempt _) => apply keeps_attempt
  | |- keeps _ (scratch _) => apply keeps_map_err
  | |- keeps _ (on_path _ _ _) => apply keeps_map_err
  | |- keeps _ (match ?x with _ => _ end) => destruct x
  | |- keeps _ _ => solve [eauto with keeps nocore]
  end.
Ltac keeps_go := repeat keeps_step.

(** ** Paths *)

Lemma join_app a b : a ≠ [] → b ≠ [] → join (app a b) = join a +:+ String slash (join b).
Proof.
  intros Ha Hb. induction a as [|x a IH]; [done|]. destruct a as [|y a].
  - destruct b as [|z b]; [done|]. cbn [app]. by rewrite join_cons.
  - cbn [app] in *. rewrite !join_cons, IH by done.
    rewrite str_app_assoc. by rewrite str_app_cons.
Qed.

Lemma elem_proper_prefixes d walked names :
  d ∈ proper_prefixes walked names ↔
  ∃ a b, names = app a b ∧ a ≠ [] ∧ b ≠ [] ∧ d = join (app walked a).
Proof.
  revert walked. induction names as [|n names IH]; intros walked; cbn [proper_prefixes].
  - split; [by intros ?%not_elem_of_nil|]. intros (a & b & Hn & Ha & _). by destruct a.
  - destruct names as [|m names].
    + split; [by intros ?%not_elem_of_nil|]. intros ([|x a] & b & Hn & ? & Hb & _); [done|].
      injection Hn as _ Hn. by destruct a, b.
    + rewrite elem_of_cons, IH. split.
      * intros [->|(a & b & Hn & Ha & Hb & ->)].
        -- by exists [n], (m :: names).
        -- exists (n :: a), b. rewrite <- (assoc_L app). cbn. by rewrite Hn.
      * intros (a & b & Hn & Ha & Hb & ->). destruct a as [|x a]; [done|].
        injection Hn as -> Hn. destruct a as [|y a]; [by left|]. right.
        exists (y :: a), b. rewrite <- (assoc_L app). done.
Qed.

Lemma elem_parents d p :
  d ∈ parents p ↔ ∃ a b, split slash p = app a b ∧ a ≠ [] ∧ b ≠ [] ∧ d = join a.
Proof. unfold parents. by rewrite elem_proper_prefixes. Qed.

Lemma parent_prefix d p : d ∈ parents p → ∃ r, p = d +:+ String slash r.
Proof.
  intros (a & b & Hs & Ha & Hb & ->)%elem_parents. exists (join b).
  by rewrite <- join_app, <- Hs, join_split.
Qed.

Lemma parent_ne d p : d ∈ parents p → d ≠ p.
Proof.
  intros [r Hr]%parent_prefix Heq. subst p. apply (f_equal String.length) in Heq.
  rewrite str_length_app in Heq. cbn in Heq. lia.
Qed.

Lemma canonical_split p : canonical p = true → Forall (λ n, plain n = true) (split slash p).
Proof. unfold canonical. intros H. apply Forall_forall. intros n Hn.
  by apply (proj1 (forallb_forall _ _) H), list_elem_of_In. Qed.

Lemma canonical_join l : l ≠ [] → Forall (λ n, plain n = true) l →
  canonical (join l) = true ∧ split slash (join l) = l.
Proof.
  intros Hl Hp. assert (split slash (join l) = l) as Hs.
  { apply split_join; [done|]. eapply Forall_impl; [done|]. intros n Hn.
    by destruct (plain_spec n Hn) as (_ & ? & _). }
  split; [|done]. unfold canonical. rewrite Hs. apply forallb_forall. intros n Hn.
  by apply (proj1 (Forall_forall _ _) Hp), list_elem_of_In.
Qed.

(** ** Well-formed trees *)

Definition is_dir (o : option Object) : Prop := ∃ mode, o = Some (DirectoryNode mode).

(** Every directory above [p] is one. *)
Definition anchored (disk : gmap string Object) (p : string) : Prop :=
  canonical p = true ∧ ∀ d, d ∈ parents p → is_dir (disk !! d).

Definition tree_ok (disk : gmap string Object) : Prop :=
  ∀ p o, disk !! p = Some o → anchored disk p.

Lemma descend_None disk above : (∀ d, d ∈ above → is_dir (disk !! d)) → descend disk above = None.
Proof.
  induction above as [|d above IH]; intros Hd; [done|]. cbn.
  destruct (Hd d) as [mode ->]; [by left|]. apply IH. intros d' ?. apply Hd. by right.
Qed.

Lemma place_anchored w p : anchored (w_disk w) p → place w p = Here (w_disk w !! p).
Proof.
  intros [Hc Hd]. unfold place. rewrite Hc. cbn [negb]. by rewrite descend_None.
Qed.

Lemma place_present w p o : tree_ok (w_disk w) → w_disk w !! p = Some o → place w p = Here (Some o).
Proof. intros Ht Hp. rewrite place_anchored by (by eapply Ht). by rewrite Hp. Qed.

Lemma anchored_alter disk p q o' : anchored disk q →
  (p ∈ parents q → is_dir o') → anchored (partial_alter (λ _, o') p disk) q.
Proof.
  intros [Hc Hd] Hp. split; [done|]. intros d Hin. destruct (decide (d = p)) as [->|Hne].
  - rewrite lookup_partial_alter_eq. by apply Hp.
  - rewrite lookup_partial_alter_ne by done. by apply Hd.
Qed.

(** Replacing the object at an anchored path keeps the tree, unless a directory
    with something in it goes away. *)
Lemma tree_ok_alter disk p o' : tree_ok disk → anchored disk p →
  (is_dir (disk !! p) → is_dir o' ∨ ∀ q o, disk !! q = Some o → p ∉ parents q) →
  tree_ok (partial_alter (λ _, o') p disk).
Proof.
  intros Ht Hp Hdir q o Hq. destruct (decide (q = p)) as [->|Hne].
  - apply anchored_alter; [done|]. intros ?%parent_ne. done.
  - rewrite lookup_partial_alter_ne in Hq by done. pose proof (Ht q o Hq) as Ha.
    apply anchored_alter; [done|]. intros Hin. destruct Ha as [_ Hd].
    destruct (Hdir (Hd p Hin)) as [?|Hno]; [done|]. by destruct (Hno q o Hq).
Qed.

Lemma no_children disk p : has_children disk p = false → ∀ q o, disk !! q = Some o → p ∉ parents q.
Proof.
  unfold has_children. intros Hh q o Hq [r ->]%parent_prefix. rewrite <- not_true_iff_false in Hh.
  apply Hh, existsb_exists. exists (p +:+ String slash r, o). split.
  - by apply list_elem_of_In, elem_of_map_to_list.
  - unfold starts_with. change (String slash r) with ("/" +:+ r). rewrite <- str_app_assoc.
    by rewrite strip_prefix_app.
Qed.

(** ** Working at one path *)

(** Started from [w0], the disk has changed at [p] alone. *)
Definition at_only (p : string) (w0 w : World) : Prop :=
  w_escaped w = w_escaped w0 ∧ tree_ok (w_disk w) ∧ anchored (w_disk w) p ∧
  ∀ q, q ≠ p → w_disk w !! q = w_disk w0 !! q.

(** Started from [w0], the disk has only gained objects. *)
Definition extends (w0 w : World) : Prop :=
  w_escaped w = w_escaped w0 ∧ tree_ok (w_disk w) ∧ w_disk w0 ⊆ w_disk w.

(** Started from [w0], what lies elsewhere than at [p] is still there. *)
Definition frame (p : string) (w0 w : World) : Prop :=
  w_escaped w = w_escaped w0 ∧ tree_ok (w_disk w) ∧
  ∀ q o, q ≠ p → w_disk w0 !! q = Some o → w_disk w !! q = Some o.

Lemma extends_refl w : tree_ok (w_disk w) → extends w w.
Proof. done. Qed.

Lemma extends_trans w1 w2 w3 : extends w1 w2 → extends w2 w3 → extends w1 w3.
Proof.
  intros (H1 & _ & H2) (H3 & H4 & H5). split_and!; [congruence|done|by etrans].
Qed.

Lemma extends_frame p w0 w : extends w0 w → frame p w0 w.
Proof. intros (? & ? & Hs). split_and!; [done..|]. intros q o _ Hq. by eapply lookup_weaken. Qed.

Lemma at_only_frame p w0 w : at_only p w0 w → frame p w0 w.
Proof. intros (? & ? & _ & Hq). split_and!; [done..|]. intros q o Hne. by rewrite Hq. Qed.

Lemma frame_trans p w1 w2 w3 : frame p w1 w2 → frame p w2 w3 → frame p w1 w3.
Proof.
  intros (H1 & _ & H2) (H3 & H4 & H5). split_and!; [congruence|done|]. intros q o Hne Hq.
  apply H5; [done|]. by apply H2.
Qed.

Lemma at_only_refl p w : tree_ok (w_disk w) → anchored (w_disk w) p → at_only p w w.
Proof. done. Qed.

(** The invariants read the tree and the escape flag alone. *)
Class DiskOnly (I : World → Prop) :=
  disk_only : ∀ w w', w_disk w' = w_disk w → w_escaped w' = w_escaped w → I w → I w'.

#[export] Instance at_only_disk p w0 : DiskOnly (at_only p w0).
Proof. intros w w' Hd He (H1 & H2 & H3 & H4). unfold at_only. by rewrite Hd, He. Qed.

#[export] Instance extends_disk w0 : DiskOnly (extends w0).
Proof. intros w w' Hd He (H1 & H2 & H3). unfold extends. by rewrite Hd, He. Qed.

Section Scratch.
Context (I : World → Prop) `{!DiskOnly I}.

Lemma keeps_scratch_modify {E} (f : World → World) :
  (∀ w, w_disk (f w) = w_disk w) → (∀ w, w_escaped (f w) = w_escaped w) →
  keeps I (modify f : M World E unit).
Proof. intros Hd He. apply keeps_modify. intros w. by apply disk_only. Qed.

Lemma keeps_may_fail : keeps I may_fail.
Proof.
  intros w. unfold may_fail. destruct (w_faults w) as [|[e|] fs]; cbn; [done|by apply disk_only..].
Qed.

Lemma keeps_scratch_unlink leaf : keeps I (scratch_unlink leaf).
Proof.
  unfold scratch_unlink. apply keeps_bind; [apply keeps_may_fail|intros _].
  apply keeps_bind; [apply keeps_get|intros w]. destruct (w_temps w !! leaf);
    [by apply keeps_scratch_modify|apply keeps_throw].
Qed.

Lemma keeps_scratch_create leaf : keeps I (scratch_create leaf).
Proof.
  unfold scratch_create. apply keeps_bind; [apply keeps_may_fail|intros _].
  apply keeps_bind; [apply keeps_get|intros w]. destruct (w_temps w !! leaf);
    [apply keeps_throw|by apply keeps_scratch_modify].
Qed.

Lemma keeps_scratch_write leaf content : keeps I (scratch_write leaf content).
Proof.
  unfold scratch_write. apply keeps_bind; [apply keeps_may_fail|intros _].
  by apply keeps_scratch_modify.
Qed.

End Scratch.

#[export] Hint Resolve keeps_may_fail keeps_scratch_unlink keeps_scratch_create
  keeps_scratch_write : keeps.
#[export] Hint Extern 4 (DiskOnly _) => typeclasses eauto : keeps.
#[export] Hint Extern 4 (keeps _ (modify _)) =>
  apply keeps_scratch_modify; [typeclasses eauto|by intros|by intros] : keeps.

(** Calls at [p], from a disk where [p] is anchored. *)
Section AtPath.
Context (p : string) (w0 : World).

Lemma edit_at_only f w : at_only p w0 w →
  (∀ o', f (w_disk w !! p) = Ok o' → is_dir (w_disk w !! p) →
     is_dir o' ∨ has_children (w_disk w) p = false) →
  at_only p w0 (snd (edit p f w)).
Proof.
  intros (He & Ht & Ha & Hq) Hf. unfold edit. rewrite (place_anchored w p Ha).
  destruct (f (w_disk w !! p)) as [o'|e] eqn:Ef; [|done]. cbn. split_and!; [done| | |].
  - apply tree_ok_alter; [done..|]. intros Hd.
    destruct (Hf o' eq_refl Hd) as [?|Hc]; [by left|right]. by apply no_children.
  - apply anchored_alter; [done|]. intros ?%parent_ne. done.
  - intros q Hne. cbn. rewrite lookup_partial_alter_ne by done. by apply Hq.
Qed.

(** An edit that never replaces a directory. *)
Lemma keeps_edit_leaf f :
  (∀ mode, ∃ e, f (Some (DirectoryNode mode)) = Err e) → keeps (at_only p w0) (edit p f).
Proof.
  intros Hf w Hw. apply edit_at_only; [done|]. intros o' Ho [mode Hd]. rewrite Hd in Ho.
  destruct (Hf mode) as [e He]. congruence.
Qed.

Lemma keeps_create_dir env : keeps (at_only p w0) (fs_create_dir env p).
Proof.
  unfold fs_create_dir. keeps_step; [apply keeps_may_fail, _|].
  apply keeps_edit_leaf. by eexists.
Qed.

Lemma keeps_remove_file : keeps (at_only p w0) (fs_remove_file p).
Proof.
  unfold fs_remove_file. keeps_step; [apply keeps_may_fail, _|].
  apply keeps_edit_leaf. by eexists.
Qed.

Lemma keeps_symlink target : keeps (at_only p w0) (fs_symlink target p).
Proof.
  unfold fs_symlink. keeps_step; [apply keeps_may_fail, _|].
  apply keeps_edit_leaf. by eexists.
Qed.

Lemma keeps_create_new env : keeps (at_only p w0) (fs_create_new env p).
Proof.
  unfold fs_create_new. keeps_step; [apply keeps_may_fail, _|]. keeps_step; [apply keeps_get|].
  apply keeps_edit_leaf. by eexists.
Qed.

Lemma keeps_remove_dir : keeps (at_only p w0) (fs_remove_dir p).
Proof.
  unfold fs_remove_dir. keeps_step; [apply keeps_may_fail, _|].
  intros w Hw. apply edit_at_only; [done|]. intros o' Ho [mode Hd]. rewrite Hd in Ho.
  right. by destruct (has_children _ _).
Qed.

(** Calls on the open descriptor of the object at [p]: the kind stays. *)
Lemma keeps_alter {E} (g : World → Object → Object) (h : World → World) :
  (∀ w mode, ∃ mode', g w (DirectoryNode mode) = DirectoryNode mode') →
  (∀ w, w_disk (h w) = alter (g w) p (w_disk w)) → (∀ w, w_escaped (h w) = w_escaped w) →
  keeps (at_only p w0) (modify h : M World E unit).
Proof.
  intros Hg Hh He w (Hw & Ht & Ha & Hq). change (at_only p w0 (h w)).
  assert (alter (g w) p (w_disk w) = partial_alter (λ _, g w <$> w_disk w !! p) p (w_disk w)) as Halt.
  { apply map_eq. intros q. destruct (decide (q = p)) as [->|];
      [by rewrite lookup_alter_eq, lookup_partial_alter_eq
      |by rewrite lookup_alter_ne, lookup_partial_alter_ne]. }
  unfold at_only. rewrite (Hh w), (He w), Halt. split_and!; [done| | |].
  - apply tree_ok_alter; [done..|]. intros [mode ->]. left. destruct (Hg w mode) as [mode' Hm].
    exists mode'. cbn. by rewrite Hm.
  - apply anchored_alter; [done|]. intros ?%parent_ne. done.
  - intros q Hne. rewrite lookup_partial_alter_ne by done. by apply Hq.
Qed.

Lemma keeps_write_created env content : keeps (at_only p w0) (fs_write_created env p content).
Proof.
  unfold fs_write_created. keeps_step; [apply keeps_may_fail, _|].
  eapply keeps_alter; [|done|done]. intros w mode. by eexists.
Qed.

Lemma keeps_fchmod env mode : keeps (at_only p w0) (fs_fchmod env p mode).
Proof.
  unfold fs_fchmod. keeps_step; [apply keeps_may_fail, _|].
  eapply keeps_alter; [|done|done]. intros w m. by eexists.
Qed.

End AtPath.

#[export] Hint Resolve keeps_create_dir keeps_remove_file keeps_symlink keeps_create_new
  keeps_remove_dir keeps_write_created keeps_fchmod : keeps.
