(* ===== verification/ApplyFrames.v ===== *)
(** * What each materialization touches

    The staging code touches no workspace object; the code that works at one path
    touches that path alone; a parent chain only adds directories; an aside only adds
    objects.  Nothing writes through a link. *)

From S2P Require Import Prelude.
From S2P Require Import MergeMatrix.
From S2P Require Import Paths.
From S2P Require Import ManifestTypes.
From S2P Require Import FsGuard.
From S2P Require Import Asides.
From S2P Require Import Disk.
From S2P Require Import Materialize.
From S2P Require Import DiskLemmas.
Local Open Scope string_scope.
Open Scope Z_scope.

Section Frames.
Context `{ContentHash} `{SeedHash} `{Envelope} (deps : Deps).

(** ** Scratch *)

Section ScratchOnly.
Context (I : World → Prop) `{!DiskOnly I}.

Lemma keeps_recovery_directory : keeps I recovery_directory.
Proof. unfold recovery_directory. keeps_go. Qed.

Lemma keeps_stage_body epoch cid key size a b : keeps I (stage_body deps epoch cid key size a b).
Proof. unfold stage_body. keeps_go. Qed.

Lemma keeps_stage epoch cid key size leaf :
  keeps I (stage_downloaded_file deps epoch cid key size leaf).
Proof. unfold stage_downloaded_file. pose proof keeps_stage_body. keeps_go. Qed.

Lemma keeps_stage_write_temp op : keeps I (stage_write_temp deps op).
Proof. unfold stage_write_temp. pose proof keeps_stage. pose proof keeps_recovery_directory. keeps_go. Qed.

Lemma keeps_download path epoch cid key size :
  keeps I (download_recovery_temp deps path epoch cid key size).
Proof. unfold download_recovery_temp. pose proof keeps_stage. pose proof keeps_recovery_directory. keeps_go. Qed.

Lemma keeps_observe_now path : keeps I (observe_now deps path).
Proof. unfold observe_now. keeps_go. Qed.

Lemma keeps_copy_private_file path : keeps I (copy_private_file deps path).
Proof. unfold copy_private_file. keeps_go. Qed.

Lemma keeps_preserve_preimage path : keeps I (preserve_preimage deps path).
Proof. unfold preserve_preimage. pose proof keeps_copy_private_file. keeps_go. Qed.

Lemma keeps_drop_preimage leaf : keeps I (drop_preimage leaf).
Proof. unfold drop_preimage. keeps_go. Qed.

Lemma keeps_release_quarantine paths : keeps I (release_quarantine paths).
Proof. pose proof keeps_drop_preimage. induction paths; cbn [release_quarantine]; keeps_go. Qed.

End ScratchOnly.

#[local] Hint Resolve keeps_recovery_directory keeps_stage keeps_stage_write_temp keeps_download
  keeps_observe_now keeps_preserve_preimage keeps_release_quarantine : keeps.

(** ** At one path *)

Section Leaf.
Context (p : string) (w0 : World).

(** At [p] there is no directory. *)
Definition at_leaf (w : World) : Prop := at_only p w0 w ∧ ¬ is_dir (w_disk w !! p).

#[local] Instance at_leaf_disk : DiskOnly at_leaf.
Proof.
  intros w w' Hd He [Hw Hn]. split; [by eapply at_only_disk|]. by rewrite Hd.
Qed.

Lemma keeps_place_file content mode stamp :
  keeps at_leaf (edit p (λ _, Ok (Some (RegularFile content mode stamp)))).
Proof.
  intros w [Hw Hn]. split.
  - apply edit_at_only; [done|]. by intros o' _ ?.
  - destruct Hw as (_ & _ & Ha & _). unfold edit. rewrite (place_anchored w p Ha). cbn.
    rewrite lookup_partial_alter_eq. by intros [? ?].
Qed.

Lemma keeps_rename leaf content mode :
  keeps (at_only p w0) (rename_refusing_symlink deps leaf content p mode).
Proof.
  unfold rename_refusing_symlink. keeps_step; [apply keeps_may_fail, _|].
  apply keeps_get_bind. intros w Hw. pose proof Hw as (_ & _ & Ha & _). cbn zeta.
  rewrite (place_anchored w p Ha). pose proof keeps_place_file as Hplace.
  assert (∀ s, at_leaf s → at_only p w0 s) as Hdown by (by intros s [? _]).
  destruct (w_disk w !! p) as [[c m st|m|t|m]|] eqn:Hp; try done;
    (apply (keeps_under _ at_leaf); [split; [done|]; rewrite Hp; by intros [? ?]| |done]);
    unfold staged_object; keeps_go.
Qed.

Lemma keeps_anchored_install leaf mode : keeps (at_only p w0) (anchored_install deps leaf p mode).
Proof. unfold anchored_install. pose proof keeps_rename. keeps_go. Qed.

Lemma keeps_set_mode mode : keeps (at_only p w0) (set_mode deps p mode).
Proof.
  unfold set_mode. apply keeps_get_bind. intros w Hw. pose proof Hw as (_ & _ & Ha & _).
  rewrite (place_anchored w p Ha). revert w Hw Ha. intros w Hw _.
  destruct (w_disk w !! p) as [[]|]; try done; (destruct (env_unopenable _ _); [done|]);
    revert w Hw; apply keeps_map_err, keeps_fchmod.
Qed.

Lemma keeps_create_dir_no_follow : keeps (at_only p w0) (create_dir_no_follow deps p).
Proof. unfold create_dir_no_follow. keeps_go. Qed.

Lemma keeps_remove_empty_dir : keeps (at_only p w0) (remove_empty_dir deps p).
Proof. unfold remove_empty_dir. keeps_go. Qed.

Lemma keeps_clear_other_kind entry observed :
  keeps (at_only p w0) (clear_other_kind deps p entry observed).
Proof. unfold clear_other_kind. pose proof keeps_remove_empty_dir. keeps_go. Qed.

Lemma keeps_create_no_replace source :
  keeps (at_only p w0) (create_no_replace_from_file deps p source).
Proof. unfold create_no_replace_from_file. keeps_go. Qed.

End Leaf.

#[local] Hint Resolve keeps_anchored_install keeps_set_mode keeps_create_dir_no_follow
  keeps_clear_other_kind keeps_create_no_replace : keeps.

(** ** Parent chains *)

(** Every nonempty prefix of [names] is a directory. *)
Definition dirs_along (disk : gmap string Object) (names : list string) : Prop :=
  ∀ a b, names = app a b → a ≠ [] → is_dir (disk !! join a).

Lemma app_snoc_inv {A} (a b l : list A) x : app a b = app l [x] → b ≠ [] → ∃ b', l = app a b'.
Proof.
  intros Heq Hb. destruct b as [|y b _] using rev_ind; [done|].
  rewrite (assoc_L app) in Heq. apply app_inj_tail in Heq as [Heq _]. by exists b.
Qed.

Lemma dirs_along_anchored disk names n :
  Forall (λ n, plain n = true) (app names [n]) → dirs_along disk names →
  anchored disk (join (app names [n])).
Proof.
  intros Hp Hd. destruct (canonical_join (app names [n])) as [Hc Hs]; [by destruct names|done|].
  split; [done|]. intros d (a & b & Hab & Ha & Hb & ->)%elem_parents. rewrite Hs in Hab.
  destruct (app_snoc_inv a b names n) as [b' ->]; [done..|]. by eapply Hd.
Qed.

Lemma dirs_along_snoc disk names n :
  dirs_along disk names → is_dir (disk !! join (app names [n])) → dirs_along disk (app names [n]).
Proof.
  intros Hd Hn a b Hab Ha. destruct b as [|y b _] using rev_ind.
  - rewrite app_nil_r in Hab. by subst a.
  - rewrite (assoc_L app) in Hab. apply app_inj_tail in Hab as [-> _]. by eapply Hd.
Qed.

Lemma dirs_along_extends w w' names :
  extends w w' → dirs_along (w_disk w) names → dirs_along (w_disk w') names.
Proof.
  intros (_ & _ & Hs) Hd a b Hab Ha. destruct (Hd a b Hab Ha) as [mode Hm]. exists mode.
  by eapply lookup_weaken.
Qed.

(** A call that creates and never replaces. *)
Lemma edit_extends p f w :
  tree_ok (w_disk w) → anchored (w_disk w) p → (∀ o, ∃ e, f (Some o) = Err e) →
  extends w (snd (edit p f w)).
Proof.
  intros Ht Ha Hf. pose proof (edit_at_only p w f w (at_only_refl p w Ht Ha)) as Hat.
  unfold edit in *. rewrite (place_anchored w p Ha) in *.
  destruct (w_disk w !! p) as [o|] eqn:Hp; [by destruct (Hf o) as [e ->]|].
  destruct (f None) as [o'|e]; [|done]. destruct Hat as (_ & Ht' & _); [by intros ? ? [? ?]|].
  split_and!; [done|done|]. cbn. apply map_subseteq_spec. intros q o Hq.
  rewrite lookup_partial_alter_ne; [done|]. by intros ->; simplify_eq.
Qed.

Lemma may_fail_same w : w_disk (snd (may_fail w)) = w_disk w ∧ w_escaped (snd (may_fail w)) = w_escaped w.
Proof. unfold may_fail. by destruct (w_faults w) as [|[e|] fs]. Qed.

Lemma may_fail_extends w : tree_ok (w_disk w) → extends w (snd (may_fail w)).
Proof. intros Ht. destruct (may_fail_same w) as [Hd He]. unfold extends. by rewrite Hd, He. Qed.

(** The creating calls, as [may_fail ;; edit]. *)
Lemma create_extends p (f : World → option Object → Result (option Object) IoError) w :
  tree_ok (w_disk w) → anchored (w_disk w) p → (∀ w o, ∃ e, f w (Some o) = Err e) →
  extends w (snd ((may_fail ;; (w ← get; edit p (f w))) w)).
Proof.
  intros Ht Ha Hf. pose proof (may_fail_extends w Ht) as Hx. destruct (may_fail_same w) as [Hd He].
  unfold mbind, M_bind, m_bind, get. destruct (may_fail w) as [[[]|e] w1]; cbn in *; [|done].
  eapply extends_trans; [done|]. apply edit_extends; [by rewrite Hd|by rewrite Hd|apply Hf].
Qed.

Lemma create_dir_spec p w : tree_ok (w_disk w) → anchored (w_disk w) p →
  wp (fs_create_dir (dp_env deps) p)
    (λ r w', extends w w' ∧ (r = Ok tt → is_dir (w_disk w' !! p))) w.
Proof.
  intros Ht Ha. pose proof (create_extends p (λ _ object, match object with
    | None => Ok (Some (DirectoryNode (created_mode (dp_env deps) S_IFDIR 511)))
    | Some _ => Err already_exists end) w Ht Ha) as Hx.
  unfold wp, fs_create_dir. destruct (may_fail_same w) as [Hd He].
  unfold mbind, M_bind, m_bind, get in *. destruct (may_fail w) as [[[]|e] w1]; cbn in *.
  - pose proof (place_anchored w1 p) as Hpl. rewrite Hd in Hpl. specialize (Hpl Ha).
    destruct (edit p _ w1) as [r w2] eqn:Ee. split; [apply Hx; by eexists|]. intros ->.
    unfold edit in Ee. rewrite Hpl in Ee. destruct (w_disk w !! p); [done|].
    injection Ee as <-. cbn. rewrite lookup_partial_alter_eq. by eexists.
  - split; [|done]. apply Hx. by eexists.
Qed.

Lemma lstat_anchored w p : anchored (w_disk w) p →
  lstat (dp_env deps) w p = match w_disk w !! p with
    | Some o => if env_unreadable (dp_env deps) p then Err access_denied
                else Ok (metadata_of (dp_env deps) p (w_tick w) o)
    | None => Err not_found
    end.
Proof. intros Ha. unfold lstat. rewrite (place_anchored w p Ha). by destruct (w_disk w !! p). Qed.

Lemma lstat_is_dir w p m : anchored (w_disk w) p → lstat (dp_env deps) w p = Ok m →
  md_type m = TypeDirectory → is_dir (w_disk w !! p).
Proof.
  intros Ha. rewrite lstat_anchored by done. destruct (w_disk w !! p) as [o|]; [|done].
  destruct (env_unreadable _ _); [done|]. intros [= <-]. destruct o; try done. by eexists.
Qed.

Lemma anchored_extends w w' p : extends w w' → anchored (w_disk w) p → anchored (w_disk w') p.
Proof.
  intros (_ & _ & Hs) [Hc Hd]. split; [done|]. intros d Hin. destruct (Hd d Hin) as [m Hm].
  exists m. by eapply lookup_weaken.
Qed.

Lemma make_dir_spec p w : tree_ok (w_disk w) → anchored (w_disk w) p →
  wp (make_dir deps p)
    (λ r w', extends w w' ∧ ∃ b, r = Ok b ∧ (b = true → is_dir (w_disk w' !! p))) w.
Proof.
  intros Ht Ha. pose proof (create_dir_spec p w Ht Ha) as Hc.
  unfold wp, make_dir, attempt, mbind, M_bind, m_bind, get, mret, M_ret, m_ret in *.
  destruct (fs_create_dir _ _ w) as [[[]|e] w']; cbn in *; destruct Hc as [Hx Hok].
  - split; [done|]. exists true. by split; [|intros _; apply Hok].
  - destruct (bool_decide _); cbn; (split; [done|]); eexists; split; try reflexivity; [|done].
    destruct (lstat _ w' p) as [m|] eqn:El; [|done]. intros Hm%bool_decide_eq_true_1.
    by eapply lstat_is_dir; [eapply anchored_extends| |].
Qed.

Lemma make_parents_spec components : ∀ walked w0 w,
  extends w0 w → Forall (λ n, plain n = true) (app walked components) →
  dirs_along (w_disk w) walked →
  wp (make_parents deps components walked)
    (λ r w', extends w0 w' ∧ ∃ c, r = Ok c ∧
       (c = Ready → dirs_along (w_disk w') (app walked components))) w.
Proof.
  induction components as [|c components IH]; intros walked w0 w Hx Hp Hd.
  - cbn. split; [done|]. eexists. split; [done|]. intros _. by rewrite app_nil_r.
  - assert (plain c = true) as Hc by (apply Forall_app in Hp as [_ Hp]; by apply Forall_cons in Hp as [? _]).
    cbn [make_parents]. destruct (String.eqb_spec c "") as [->|_]; [done|].
    replace (app walked (c :: components)) with (app (app walked [c]) components) in *
      by (by rewrite <- (assoc_L app)).
    assert (anchored (w_disk w) (join (app walked [c]))) as Ha.
    { apply dirs_along_anchored; [|done]. by apply Forall_app in Hp as [? _]. }
    do 2 wp_step. rewrite (lstat_anchored w _ Ha).
    destruct (w_disk w !! join (app walked [c])) as [o|] eqn:Ho.
    + destruct (env_unreadable _ _); cbn.
      { split; [done|]. by eexists. }
      destruct (bool_decide (md_type _ = TypeDirectory)) eqn:Edir; cbn.
      2: { split; [done|]. by eexists. }
      apply IH; [done..|]. apply dirs_along_snoc; [done|]. rewrite Ho.
      apply bool_decide_eq_true_1 in Edir. destruct o; try done. by eexists.
    + cbn [io_kind not_found]. rewrite bool_decide_eq_true_2 by done. apply wp_bind.
      pose proof Hx as (_ & Ht & _).
      eapply wp_conseq; [by apply make_dir_spec|]. cbn beta.
      intros r w1 (Hx1 & b & -> & Hb). pose proof (extends_trans _ _ _ Hx Hx1) as Hx2.
      destruct b; [|cbn; split; [done|by eexists]].
      apply IH; [done..|]. apply dirs_along_snoc; [|by apply Hb].
      by apply (dirs_along_extends w w1).
Qed.

Lemma init_last {A} (l : list A) : l ≠ [] → ∃ x, l = app (firstn (length l - 1) l) [x].
Proof.
  intros Hl. destruct l as [|x l _] using rev_ind; [done|]. exists x.
  rewrite length_app. cbn. replace (length l + 1 - 1)%nat with (length l + 0)%nat by lia.
  rewrite firstn_app_2. cbn. by rewrite app_nil_r.
Qed.

(** The directories above [path] as the walk sees them. *)
Lemma anchored_dirs disk path : canonical path = true →
  let init := firstn (length (split slash path) - 1) (split slash path) in
  Forall (λ n, plain n = true) init ∧ (anchored disk path ↔ dirs_along disk init).
Proof.
  intros Hc init. pose proof (canonical_split path Hc) as Hp.
  destruct (init_last (split slash path)) as [leaf Hl]; [apply split_nil|]. fold init in Hl.
  rewrite Hl in Hp. apply Forall_app in Hp as [Hpi _]. split; [done|]. split.
  - intros [_ Hd] a b Hab Ha. apply Hd, elem_parents. exists a, (app b [leaf]).
    rewrite (assoc_L app), <- Hab. split_and!; [done|done|by destruct b|done].
  - intros Hd. split; [done|]. intros d (a & b & Hab & Ha & Hb & ->)%elem_parents.
    rewrite Hl in Hab. symmetry in Hab. destruct (app_snoc_inv a b init leaf Hab Hb) as [b' Hi].
    by eapply Hd.
Qed.

Lemma make_parent_chain_spec path w : tree_ok (w_disk w) → canonical path = true →
  wp (make_parent_chain deps path)
    (λ r w', extends w w' ∧ ∃ c, r = Ok c ∧ (c = Ready → anchored (w_disk w') path)) w.
Proof.
  intros Ht Hc. pose proof (anchored_dirs (w_disk w) path Hc) as [Hp _].
  unfold make_parent_chain. eapply wp_conseq.
  - apply (make_parents_spec _ [] w w); [by apply extends_refl|done|].
    intros a b Hab Ha. by destruct a.
  - cbn beta. intros r w' (Hx & c & -> & Hd). split; [done|]. exists c. split; [done|].
    intros Hr. by apply anchored_dirs, Hd.
Qed.

(** Where the chain already stands, the walk changes nothing. *)
Lemma make_parents_stays components : ∀ walked w,
  Forall (λ n, plain n = true) (app walked components) →
  dirs_along (w_disk w) (app walked components) →
  snd (make_parents deps components walked w) = w.
Proof.
  induction components as [|c components IH]; intros walked w Hp Hd; [done|].
  assert (plain c = true) as Hc by (apply Forall_app in Hp as [_ Hp]; by apply Forall_cons in Hp as [? _]).
  cbn [make_parents]. destruct (String.eqb_spec c "") as [->|_]; [done|].
  replace (app walked (c :: components)) with (app (app walked [c]) components) in *
    by (by rewrite <- (assoc_L app)).
  assert (anchored (w_disk w) (join (app walked [c]))) as Ha.
  { apply dirs_along_anchored; [by apply Forall_app in Hp as [? _]|].
    intros a b Hab. apply (Hd a (app b (c :: components))). rewrite Hab.
    by rewrite <- !(assoc_L app). }
  destruct (Hd (app walked [c]) components) as [mode Hm]; [done|by destruct walked|].
  unfold mbind, M_bind, m_bind, get. cbn. rewrite (lstat_anchored w _ Ha), Hm.
  destruct (env_unreadable _ _); [done|]. cbn. by apply IH.
Qed.

Lemma keeps_make_parent_chain p w0 : keeps (at_only p w0) (make_parent_chain deps p).
Proof.
  intros w Hw. pose proof Hw as (_ & _ & Ha & _). pose proof Ha as [Hc _].
  destruct (anchored_dirs (w_disk w) p Hc) as [Hp Hd].
  unfold make_parent_chain. rewrite make_parents_stays; [done|done|]. by apply Hd.
Qed.

#[local] Hint Resolve keeps_make_parent_chain : keeps.

(** ** Entries *)

Lemma keeps_install_staged p w0 temp mode :
  keeps (at_only p w0) (install_staged_file_from_directory deps p temp mode).
Proof. unfold install_staged_file_from_directory. keeps_go. Qed.

#[local] Hint Resolve keeps_install_staged : keeps.

(** A computation that prepares the chain of [path] and then works there. *)
Lemma chain_frame {A} path (after : ParentChain → PL A) w :
  tree_ok (w_disk w) → canonical path = true →
  (∀ w1, extends w w1 → frame path w (snd (after Blocked w1))) →
  (∀ w0, keeps (at_only path w0) (after Ready)) →
  frame path w (snd ((make_parent_chain deps path ≫= after) w)).
Proof.
  intros Ht Hc Hb Hr. pose proof (make_parent_chain_spec path w Ht Hc) as Hs.
  unfold wp, mbind, M_bind, m_bind in *.
  destruct (make_parent_chain deps path w) as [r w1]. destruct Hs as (Hx & c & -> & Hready).
  destruct c; [|by apply Hb]. eapply frame_trans; [by apply extends_frame|].
  apply at_only_frame, Hr. apply at_only_refl; [apply Hx|by apply Hready].
Qed.

Lemma install_entry_frame path entry temp preimage w :
  tree_ok (w_disk w) → canonical path = true →
  frame path w (snd (install_entry deps path entry temp preimage w)).
Proof.
  intros Ht Hc. assert (frame path w w) as Hrefl by (by apply extends_frame, extends_refl).
  unfold install_entry. set (rest := mbind _ (make_parent_chain deps path)).
  unfold mbind, M_bind, m_bind, get. cbn. destruct (escapes_workspace _ _ _ _); [done|].
  subst rest. apply chain_frame; [done..| |].
  - intros w1 Hx. by apply extends_frame.
  - intros w0. keeps_go.
Qed.

(** ** Verified chains *)

Lemma descend_not_here disk above o : descend disk above ≠ Some (Here o).
Proof. induction above as [|d above IH]; [done|]. cbn. destruct (disk !! d) as [[]|]; done. Qed.

Lemma place_here w p o : place w p = Here o → o = w_disk w !! p.
Proof.
  unfold place. destruct (canonical p); [|done]. cbn.
  destruct (descend _ _) eqn:E; cbn; [|by intros [= <-]].
  intros ->. by apply descend_not_here in E.
Qed.

Lemma walk_not_behind w leaf components : ∀ walked,
  Forall (λ n, plain n = true) (app walked components) → dirs_along (w_disk w) walked →
  walk_parents (os_of (dp_env deps) w) RequireExisting components walked = Ready →
  descend (w_disk w) (proper_prefixes walked (app components [leaf])) ≠ Some Behind.
Proof.
  induction components as [|c components IH]; intros walked Hp Hd; [done|].
  assert (plain c = true) as Hc by (apply Forall_app in Hp as [_ Hp]; by apply Forall_cons in Hp as [? _]).
  cbn [walk_parents]. destruct (String.eqb_spec c "") as [->|_]; [done|].
  replace (app walked (c :: components)) with (app (app walked [c]) components) in *
    by (by rewrite <- (assoc_L app)).
  assert (anchored (w_disk w) (join (app walked [c]))) as Ha.
  { apply dirs_along_anchored; [by apply Forall_app in Hp as [? _]|done]. }
  cbn [os_of symlink_metadata]. rewrite (lstat_anchored w _ Ha).
  cbn [app proper_prefixes]. destruct (app components [leaf]) as [|y ys] eqn:Hys;
    [by destruct components|]. cbn [descend].
  destruct (w_disk w !! join (app walked [c])) as [o|] eqn:Ho; [|done].
  destruct (env_unreadable _ _); [done|].
  destruct o; cbn [metadata_of metadata_with md_type];
    try (rewrite bool_decide_eq_false_2 by done; done).
  rewrite bool_decide_eq_true_2 by done. intros Hr. apply IH; [done| |done]. apply dirs_along_snoc; [done|].
  rewrite Ho. by eexists.
Qed.

Lemma chain_not_behind w path : canonical path = true →
  prepare_parent_chain (os_of (dp_env deps) w) path RequireExisting = Ready →
  place w path ≠ Behind.
Proof.
  intros Hc Hr. destruct (anchored_dirs (w_disk w) path Hc) as [Hp _].
  destruct (init_last (split slash path)) as [leaf Hl]; [apply split_nil|].
  unfold place, parents. rewrite Hc. cbn [negb]. rewrite Hl.
  pose proof (walk_not_behind w leaf _ [] Hp) as Hw.
  assert (dirs_along (w_disk w) []) as H0' by (intros a b Hab Ha; by destruct a).
  specialize (Hw H0' Hr). destruct (descend _ _) as [pl|] eqn:E; [|done]. cbn. by intros ->.
Qed.

Lemma place_disk w w' p : w_disk w' = w_disk w → place w' p = place w p.
Proof. intros Hd. unfold place. by rewrite Hd. Qed.

(** Where the path is not behind a link, a stat that answers anchors it. *)
Lemma lstat_present w p m : tree_ok (w_disk w) → place w p ≠ Behind →
  lstat (dp_env deps) w p = Ok m →
  ∃ o, w_disk w !! p = Some o ∧ anchored (w_disk w) p ∧ m = metadata_of (dp_env deps) p (w_tick w) o.
Proof.
  intros Ht Hb. unfold lstat. destruct (place w p) as [[o|]| | |] eqn:Ep; try done.
  apply place_here in Ep. destruct (env_unreadable _ _); [done|]. intros [= <-].
  exists o. split_and!; [done| |done]. by eapply Ht.
Qed.

(** The invariant of a computation that only looks. *)
Definition unchanged (w0 w : World) : Prop :=
  w_disk w = w_disk w0 ∧ w_escaped w = w_escaped w0.

#[local] Instance unchanged_disk w0 : DiskOnly (unchanged w0).
Proof. intros w w' Hd He [Hd1 He1]. split; congruence. Qed.

Lemma unchanged_frame p w0 w : tree_ok (w_disk w0) → unchanged w0 w → frame p w0 w.
Proof. intros Ht [Hd He]. unfold frame. rewrite Hd. done. Qed.

Lemma checked_delete_frame path w :
  tree_ok (w_disk w) → canonical path = true →
  frame path w (snd (checked_delete deps path w)).
Proof.
  intros Ht Hc. unfold checked_delete. rewrite bind_run. unfold get at 1. cbn beta iota.
  destruct (prepare_parent_chain _ _ _) eqn:Hr; [|by apply extends_frame, extends_refl].
  pose proof (chain_not_behind w path Hc Hr) as Hb.
  pose proof (keeps_preserve_preimage (unchanged w) path w) as Hp.
  rewrite bind_run. destruct (preserve_preimage deps path w) as [[[]|e] w1]; cbn in Hp.
  2: { apply unchanged_frame; [done|]. by apply Hp. }
  assert (unchanged w w1) as Hu by (by apply Hp). pose proof Hu as [Hd He].
  rewrite bind_run. unfold get. cbn beta iota.
  destruct (lstat (dp_env deps) w1 path) as [m|e] eqn:El.
  - apply lstat_present in El as (o & Ho & Ha & ->); [|by rewrite Hd|by rewrite (place_disk w w1)].
    assert (at_only path w w1) as Hat by (split_and!; [done|by rewrite Hd|done|by intros q _; rewrite Hd]).
    apply at_only_frame.
    match goal with |- at_only _ _ (snd (?m w1)) => enough (keeps (at_only path w) m) as Hk by (by apply Hk) end.
    pose proof keeps_remove_empty_dir. keeps_go.
  - destruct (bool_decide _); by apply unchanged_frame.
Qed.

(** A chmod behind a verified chain: the object keeps its content. *)
Lemma set_mode_at path mode w : place w path ≠ Behind →
  wp (set_mode deps path mode) (λ _ w', w_escaped w' = w_escaped w ∧
    (w_disk w' = w_disk w ∨
     ∃ tick, w_disk w' = alter (chmod_object (dp_env deps) tick mode) path (w_disk w))) w.
Proof.
  intros Hb. unfold wp, set_mode, mbind, M_bind, m_bind, get. cbn.
  destruct (place w path) as [[[]|]| | |]; try (split; [done|by left]); try done;
    (destruct (env_unopenable _ _); [split; [done|by left]|]);
    unfold on_path, map_err, fs_fchmod, mbind, M_bind, m_bind;
    destruct (may_fail_same w) as [Hd He]; destruct (may_fail w) as [[[]|e] w1]; cbn in *;
    split; try done; try (by left; rewrite Hd); try (by rewrite He);
    right; eexists; by rewrite Hd.
Qed.


(** ** Asides *)

Lemma publishable_canonical p len allow :
  publishable_workspace_path p len allow = Ok tt → canonical p = true.
Proof.
  intros (names & Hn & -> & Hp)%publishable_plain. by apply canonical_join.
Qed.

Lemma at_only_fresh p w0 w : w_disk w0 !! p = None → at_only p w0 w → extends w0 w.
Proof.
  intros Hn (He & Ht & _ & Hq). split_and!; [done..|]. apply map_subseteq_spec. intros q o Ho.
  rewrite Hq; [done|]. by intros ->; simplify_eq.
Qed.

(** Creating where something already is fails and changes nothing. *)
Section Taken.
Context (p : string) (o : Object) (w0 : World).

Definition taken_at (w : World) : Prop :=
  unchanged w0 w ∧ anchored (w_disk w) p ∧ w_disk w !! p = Some o.

#[local] Instance taken_disk : DiskOnly taken_at.
Proof.
  intros w w' Hd He (Hu & Ha & Ho). split_and!; [by eapply unchanged_disk|by rewrite Hd..].
Qed.

Lemma edit_taken f w : taken_at w → (∃ e, f (Some o) = Err e) →
  ∃ e, edit p f w = (Err e, w).
Proof.
  intros (_ & Ha & Ho) [e He]. exists e. unfold edit. rewrite (place_anchored w p Ha), Ho.
  by rewrite He.
Qed.

Lemma keeps_create_taken f : (∀ w, ∃ e, f w (Some o) = Err e) →
  keeps taken_at (may_fail ;; (w ← get; edit p (f w))) ∧
  ∀ w, taken_at w → ∃ e, fst ((may_fail ;; (w ← get; edit p (f w))) w) = Err e.
Proof.
  intros Hf. split.
  - keeps_step; [apply keeps_may_fail, _|]. apply keeps_get_bind. intros w Hw.
    by destruct (edit_taken (f w) w Hw (Hf w)) as [e ->].
  - intros w Hw. rewrite bind_run. pose proof (keeps_may_fail taken_at w Hw) as Hw1.
    destruct (may_fail w) as [[[]|e] w1]; [|by eexists]. rewrite bind_run. unfold get. cbn beta iota.
    destruct (edit_taken (f w1) w1 Hw1 (Hf w1)) as [e ->]. by eexists.
Qed.

Lemma keeps_aside_taken source :
  keeps taken_at (create_no_replace_from_file deps p source).
Proof.
  unfold create_no_replace_from_file.
  destruct (keeps_create_taken (λ w object, match object with
    | None => Ok (Some (RegularFile "" (created_mode (dp_env deps) S_IFREG 420)
                          (env_fresh (dp_env deps) (w_tick w))))
    | Some _ => Err already_exists end)) as [Hk Hf]; [by eexists|].
  keeps_step; [keeps_go|]. keeps_step; [keeps_go|]. keeps_step; [keeps_go|].
  apply keeps_bind_fails; [by apply keeps_map_err|]. intros w Hw. destruct (Hf w Hw) as [e He].
  change (fst (fs_create_new (dp_env deps) p w) = Err e) in He.
  exists (path_error deps p e). unfold on_path, map_err.
  by destruct (fs_create_new (dp_env deps) p w) as [[] w1]; cbn in *; simplify_eq.
Qed.

(** The aside's own object, as [materialize_aside] creates it. *)
Definition place_aside (path aside : WorkspacePath) (entry : ManifestEntry) (temp : option TempFile)
    : PL (Materialized WorkspacePath) :=
  match entry with
  | FileEntry size _ content_id blob_key key_epoch =>
      '(source, remove_after) ←
        match temp with
        | Some temp => mret (temp, false)
        | None =>
            source ← download_recovery_temp deps path key_epoch content_id blob_key size;
            mret (source, true)
        end;
      result ← attempt (create_no_replace_from_file deps aside source);
      (if remove_after : bool then attempt (scratch_unlink source) ;; mret tt else mret tt) ;;
      of_result result
  | DirectoryEntry _ => create_dir_no_follow deps aside
  | SymlinkEntry _ target => on_path deps aside (fs_symlink target aside)
  end ;;
  mret (Done aside).

Lemma keeps_place_taken path entry temp : keeps taken_at (place_aside path p entry temp).
Proof.
  pose proof keeps_aside_taken. unfold place_aside.
  keeps_step; [|keeps_go]. destruct entry as [size m id key epoch|m|m target].
  - keeps_go.
  - unfold create_dir_no_follow. keeps_step; [|keeps_go]. keeps_step.
    apply (keeps_create_taken (λ _ object, match object with
      | None => Ok (Some (DirectoryNode (created_mode (dp_env deps) S_IFDIR 511)))
      | Some _ => Err already_exists end)). by eexists.
  - keeps_step. apply (keeps_create_taken (λ _ object, match object with
      | None => Ok (Some (SymbolicLink (Some target)))
      | Some _ => Err already_exists end)). by eexists.
Qed.

End Taken.

Lemma keeps_place_fresh p w0 path entry temp : keeps (at_only p w0) (place_aside path p entry temp).
Proof. unfold place_aside. keeps_go. Qed.

Lemma place_aside_extends path aside entry temp w :
  tree_ok (w_disk w) → anchored (w_disk w) aside →
  extends w (snd (place_aside path aside entry temp w)).
Proof.
  intros Ht Ha. destruct (w_disk w !! aside) as [o|] eqn:Ho.
  - destruct (keeps_place_taken aside o w path entry temp w) as ([Hd He] & _); [done|].
    unfold extends. by rewrite Hd, He.
  - apply (at_only_fresh aside); [done|]. by apply keeps_place_fresh.
Qed.

Lemma materialize_aside_extends path entry temp w :
  hex_digest seed_hex → tree_ok (w_disk w) →
  extends w (snd (materialize_aside deps path entry temp w)).
Proof.
  intros Hh Ht. unfold materialize_aside. rewrite bind_run. unfold get. cbn beta iota.
  destruct (free_aside_path _ _ _) as [aside|] eqn:Ef; [|done].
  apply free_aside_path_spec in Ef as (_ & Hu & _ & _); [|done].
  destruct (escapes_workspace _ _ _ _); [done|].
  assert (canonical aside = true) as Hc.
  { unfold usable_aside_path in Hu. destruct (publishable_workspace_path _ _ _) as [[]|] eqn:Ep; [|done].
    by eapply publishable_canonical. }
  rewrite bind_run. pose proof (make_parent_chain_spec aside w Ht Hc) as Hs. unfold wp in Hs.
  destruct (make_parent_chain deps aside w) as [r w1]. destruct Hs as (Hx & c & -> & Hr).
  destruct c; [|done]. eapply extends_trans; [done|].
  apply (place_aside_extends path aside entry temp w1); [apply Hx|by apply Hr].
Qed.

(** ** Reinstalling *)

Lemma reinstall_frame path entry w :
  tree_ok (w_disk w) → canonical path = true →
  frame path w (snd (reinstall_from_download deps path entry w)).
Proof.
  intros Ht Hc. assert (frame path w w) as Hrefl by (by apply extends_frame, extends_refl).
  unfold reinstall_from_download. destruct entry as [size m id key epoch|m|m target].
  - apply chain_frame; [done..| |].
    + intros w1 Hx. by apply extends_frame.
    + intros w0. unfold copy_replacement. keeps_go.
  - apply unchanged_frame; [done|].
    match goal with |- unchanged _ (snd (?m w)) => enough (keeps (unchanged w) m) as Hk by (by apply Hk) end.
    keeps_go.
  - apply unchanged_frame; [done|].
    match goal with |- unchanged _ (snd (?m w)) => enough (keeps (unchanged w) m) as Hk by (by apply Hk) end.
    keeps_go.
Qed.

End Frames.
