(* ===== verification/ApplyTheorems.v ===== *)
(** * What the apply transaction promises

    A pull decides on one disk and applies to another: between the two, anything may
    have happened in the workspace.  The theorems of this file hold of every disk the
    transaction is run on, and of every pattern of I/O failures. *)

From S2P Require Import Prelude.
From S2P Require Import MergeMatrix.
From S2P Require Import MergePlans.
From S2P Require Import MergeDisk.
From S2P Require Import MergeTheorems.
From S2P Require Import Paths.
From S2P Require Import ManifestTypes.
From S2P Require Import FsGuard.
From S2P Require Import Asides.
From S2P Require Import Disk.
From S2P Require Import Materialize.
From S2P Require Import Endpoint.
From S2P Require Import Store.
From S2P Require Import Apply.
From S2P Require Import DiskLemmas.
From S2P Require Import ApplyFrames.
Local Open Scope string_scope.
Open Scope Z_scope.

(** What a user can lose: a file's bytes, a link's target. *)
Definition work (o : Object) : Prop :=
  match o with RegularFile _ _ _ | SymbolicLink _ => True | _ => False end.

Definition same_content (o o' : Object) : Prop :=
  match o, o' with
  | RegularFile content _ _, RegularFile content' _ _ => content = content'
  | SymbolicLink target, SymbolicLink target' => target = target'
  | _, _ => False
  end.

Lemma same_content_refl o : work o → same_content o o.
Proof. by destruct o. Qed.

Lemma same_content_trans o1 o2 o3 : same_content o1 o2 → same_content o2 o3 → same_content o1 o3.
Proof. destruct o1, o2, o3; cbn; congruence || done. Qed.

Lemma same_content_work o o' : same_content o o' → work o'.
Proof. by destruct o, o'. Qed.

(** The object is the one the preimage describes: kind, and content under the key
    epoch that recorded it, or target. *)
Definition object_matches `{ContentHash} (crypto : WorkspaceCrypto) (expected : PreimagePayload)
    (o : Object) : Prop :=
  pp_present expected = true ∧
  match o with
  | RegularFile content _ _ =>
      pp_kind expected = Some File ∧
      match pp_key_epoch expected with
      | Some epoch => content_id_at crypto epoch content = pp_content_id expected
      | None => crypto_content_id crypto content = pp_content_id expected
      end
  | SymbolicLink target => pp_kind expected = Some Symlink ∧ target = pp_symlink_target expected
  | _ => True
  end.

Section Apply.
Context `{ContentHash} `{SeedHash} `{Envelope}.

(** ** Observing a present object *)

Section Observing.
Context (deps : Deps) (Hmax : is_u64 (dp_max_seal_bytes deps)).

Definition observed_of (p : string) (tick : nat) (o : Object) : Observed :=
  let m := metadata_of (dp_env deps) p tick o in
  {| ob_kind := match o with DirectoryNode _ => Directory | SymbolicLink _ => Symlink | _ => File end;
     ob_size := match o with RegularFile content _ _ => str_len content | _ => 0 end;
     ob_mode := match o with SymbolicLink _ => FileMode_symlink | _ => md_mode m end;
     ob_symlink_target := match o with SymbolicLink target => target | _ => None end;
     ob_fingerprint := fingerprint_of m |}.

Lemma observe_present w p o r : tree_ok (w_disk w) → w_disk w !! p = Some o →
  observe_syncable (ctx_of deps w) p = Ok r → r = Some (observed_of p (w_tick w) o).
Proof.
  intros Ht Ho. unfold observe_syncable, observe_classified. cbn [ctx_of ctx_os os_of symlink_metadata read_link].
  unfold lstat, readlink. rewrite (place_present w p o Ht Ho).
  destruct (env_unreadable _ _); [done|]. destruct o as [c m st|m|[t|]|m]; cbn; try done;
    by intros [= <-].
Qed.

Lemma take_bytes_all n s : str_len s ≤ n → take_bytes n s = s.
Proof. intros Hn. unfold take_bytes. by rewrite (proj2 (Z.leb_le _ _) Hn). Qed.

(** The bounded read of a present file returns its bytes or refuses. *)
Lemma read_present w p content mode stamp expected read :
  tree_ok (w_disk w) → w_disk w !! p = Some (RegularFile content mode stamp) →
  read_local_content (ctx_of deps w) p expected = Ok (LocalBytes read) → read = content.
Proof.
  intros Ht Ho. unfold read_local_content, read_file_bounded, visit_file_bounded.
  cbn [ctx_of ctx_os os_of open_nofollow].
  destruct (prepare_parent_chain _ _ _); [|done].
  unfold open_leaf. rewrite (place_present w p _ Ht Ho).
  destruct (env_unopenable _ _); [done|]. cbn [h_metadata h_content h_final_metadata].
  destruct (negb _) eqn:E1; [done|]. cbn [md_len metadata_of metadata_with].
  destruct (Z.ltb_spec (ctx_max_seal_bytes (ctx_of deps w)) (str_len content)) as [|Hlen]; [done|].
  cbn [result_bind]. destruct (_ <? str_len (take_bytes _ _)) eqn:E2; [done|]. cbn [result_bind].
  cbn [result_map]. intros [= <-]. apply take_bytes_all.
  unfold u64_saturating_add, is_u64 in *. cbn [ctx_of ctx_max_seal_bytes] in *. lia.
Qed.

(** The guard accepts a present object only where the object is the preimage. *)
Lemma guard_present w p o expected : tree_ok (w_disk w) → w_disk w !! p = Some o →
  preimage_matches (ctx_of deps w) p expected (Some (observed_of p (w_tick w) o)) = Ok true →
  object_matches (dp_crypto deps) expected o.
Proof.
  intros Ht Ho. unfold preimage_matches, object_matches.
  destruct (pp_present expected); [|done]. destruct (bool_decide _) eqn:Ek; [done|].
  apply bool_decide_eq_false_1, dec_stable in Ek.
  destruct o as [c m st|m|t|m]; cbn [observed_of ob_kind ob_symlink_target] in *; try done.
  - destruct (is_some_and _ _); [done|].
    destruct (read_local_content _ _ _) as [[read|]|e] eqn:Er; cbn [result_bind]; try done.
    apply (read_present w p c m st) in Er as ->; [|done..].
    intros Hr. split_and!; [done..|]. destruct (pp_key_epoch expected) as [epoch|].
    + injection Hr as Hr. by apply bool_decide_eq_true_1 in Hr.
    + unfold write_content_id, result_ok_or in Hr. cbn [ctx_of ctx_crypto] in Hr.
      destruct (crypto_content_id _ _) as [id|]; [|done]. cbn in Hr.
      injection Hr as Hr. by apply bool_decide_eq_true_1 in Hr.
  - intros Hr. injection Hr as Hr. apply bool_decide_eq_true_1 in Hr. done.
Qed.

End Observing.

(** ** One operation *)

Section Op.
Context (deps : Deps) (Hmax : is_u64 (dp_max_seal_bytes deps)) (Hhex : hex_digest seed_hex).

(** What lay at [p] is still there, up to its mode, unless [gone] of it. *)
Definition leaves (p : string) (gone : Object → Prop) (w w' : World) : Prop :=
  frame p w w' ∧
  ∀ o, w_disk w !! p = Some o → work o →
    gone o ∨ ∃ o', w_disk w' !! p = Some o' ∧ same_content o o'.

Lemma extends_leaves p gone w w' : extends w w' → leaves p gone w w'.
Proof.
  intros Hx. split; [by apply extends_frame|]. intros o Ho Hw. right. exists o.
  split; [|by apply same_content_refl]. by eapply lookup_weaken; [|apply Hx].
Qed.

Lemma keep_local_extends op temp w : tree_ok (w_disk w) →
  extends w (snd (apply_keep_local deps op temp w)).
Proof.
  intros Ht. unfold apply_keep_local.
  destruct (op_kind op) as [entry| |entry|entry]; try done;
    rewrite bind_run; pose proof (materialize_aside_extends deps (op_path op) entry temp w Hhex Ht) as Hx;
    by destruct (materialize_aside _ _ _ _ w) as [[]].
Qed.

Lemma observe_now_run p w : observe_now deps p w = (observe_syncable (ctx_of deps w) p, w).
Proof. done. Qed.

Lemma tree_ok_chmod disk p tick mode : tree_ok disk →
  tree_ok (alter (chmod_object (dp_env deps) tick mode) p disk).
Proof.
  intros Ht q o Hq. destruct (proj1 (lookup_alter_Some _ _ _ _ _) Hq) as [(<- & o' & Ho' & _)|[_ Ho']];
    destruct (Ht _ _ Ho') as [Hc Hd]; (split; [done|]); intros d Hin;
    destruct (Hd d Hin) as [m Hm]; destruct (decide (d = p)) as [->|Hne];
    rewrite ?lookup_alter_eq, ?lookup_alter_ne, ?Hm by done; by eexists.
Qed.

(** Re-moding keeps what a user can lose. *)
Lemma set_mode_leaves p mode gone w : tree_ok (w_disk w) → canonical p = true → place w p ≠ Behind →
  leaves p gone w (snd (set_mode deps p mode w)).
Proof.
  intros Ht Hc Hb. pose proof (set_mode_at deps p mode w Hb) as Hs. unfold wp in Hs.
  destruct (set_mode deps p mode w) as [r w']. destruct Hs as [He Hd]. cbn [snd].
  assert (∀ o, w_disk w !! p = Some o → ∃ tick, w_disk w' !! p = Some o ∨
    w_disk w' !! p = Some (chmod_object (dp_env deps) tick mode o)) as Hat.
  { intros o Ho. destruct Hd as [->|[tick ->]]; [exists O; by left|]. exists tick. right.
    by rewrite lookup_alter_eq, Ho. }
  split.
  - split_and!; [done| |].
    + destruct Hd as [->|[tick ->]]; [done|]. by apply tree_ok_chmod.
    + intros q o Hne Hq. destruct Hd as [->|[tick ->]]; [done|]. by rewrite lookup_alter_ne.
  - intros o Ho Hw. right. destruct (Hat o Ho) as [tick [Ho'|Ho']]; (eexists; split; [done|]).
    + by apply same_content_refl.
    + by destruct o.
Qed.

Lemma unchanged_leaves p gone w : tree_ok (w_disk w) → leaves p gone w w.
Proof. intros Ht. by apply extends_leaves, extends_refl. Qed.

Lemma frame_leaves p (gone : Object → Prop) w w' :
  frame p w w' → (∀ o, w_disk w !! p = Some o → work o → gone o) → leaves p gone w w'.
Proof. intros Hf Hg. split; [done|]. intros o Ho Hw. left. by apply Hg. Qed.

(** Operations that may displace what is at their path. *)
Definition displaces (kind : FsOpKind) : Prop :=
  match kind with Install _ | DeleteOp => True | ModeChange _ | ConflictAside _ => False end.

Lemma execute_op_leaves op temp observed (gone : Object → Prop) w :
  tree_ok (w_disk w) → canonical (op_path op) = true →
  (displaces (op_kind op) → ∀ o, w_disk w !! op_path op = Some o → work o → gone o) →
  leaves (op_path op) gone w (snd (execute_op deps op temp observed w)).
Proof.
  intros Ht Hc Hgone. unfold execute_op.
  destruct (op_kind op) as [entry| |entry|entry] eqn:Ek; cbn [displaces] in Hgone.
  - apply frame_leaves; [|by apply Hgone]. rewrite bind_run.
    pose proof (install_entry_frame deps (op_path op) entry temp observed w Ht Hc) as Hf.
    destruct (install_entry _ _ _ _ _ w) as [[[record| | | |]|e] w1]; try done.
    eapply frame_trans; [done|]. apply extends_frame, keep_local_extends, Hf.
  - apply frame_leaves; [|by apply Hgone]. rewrite bind_run.
    pose proof (checked_delete_frame deps (op_path op) w Ht Hc) as Hf.
    by destruct (checked_delete _ _ w) as [[]].
  - rewrite bind_run. unfold get. cbn beta iota.
    destruct (prepare_parent_chain _ _ _) eqn:Hr; [|by apply unchanged_leaves].
    pose proof (set_mode_leaves (op_path op) (entry_mode entry) gone w Ht Hc
                  (chain_not_behind deps w (op_path op) Hc Hr)) as Hl.
    rewrite bind_run. destruct (set_mode _ _ _ w) as [[[]|e] w1]; [|done].
    rewrite bind_run, observe_now_run. by destruct (observe_syncable _ _).
  - by apply extends_leaves, keep_local_extends.
Qed.

(** The preimage the operation names, of an operation that may displace. *)
Definition displaced_by (op : FsOp) (o : Object) : Prop :=
  displaces (op_kind op) ∧ object_matches (dp_crypto deps) (op_expected op) o.

Lemma guarded_op_leaves op temp w :
  tree_ok (w_disk w) → canonical (op_path op) = true →
  leaves (op_path op) (displaced_by op) w (snd (guarded_op deps op temp w)).
Proof.
  intros Ht Hc. unfold guarded_op. rewrite bind_run, observe_now_run.
  destruct (observe_syncable _ _) as [observed|e] eqn:Eo; [|by apply unchanged_leaves].
  rewrite bind_run. unfold get. cbn beta iota. rewrite bind_run. unfold of_result.
  destruct (preimage_matches _ _ _ _) as [matches|e] eqn:Em; [|by apply unchanged_leaves].
  destruct (negb matches && _) eqn:Eg; [by apply extends_leaves, keep_local_extends|].
  apply execute_op_leaves; [done..|]. intros Hk o Ho Hw. split; [done|].
  apply (observe_present deps w _ o) in Eo as ->; [|done..]. destruct matches.
  - by apply (guard_present deps Hmax w (op_path op)).
  - cbn [negb andb] in Eg. apply negb_false_iff in Eg. unfold installs_the_same_directory in Eg.
    destruct (op_kind op) as [[]| | |]; try done. cbn in Eg. apply bool_decide_eq_true_1 in Eg.
    by destruct o.
Qed.


End Op.

(** ** A whole transaction *)

(** Nothing escapes, the tree stays one, and every file and link that lay on the disk
    is still there, up to its mode, unless [gone] of it. *)
Definition survives (gone : string → Object → Prop) (w w' : World) : Prop :=
  w_escaped w' = w_escaped w ∧ tree_ok (w_disk w') ∧
  ∀ q o, w_disk w !! q = Some o → work o →
    gone q o ∨ ∃ o', w_disk w' !! q = Some o' ∧ same_content o o'.

(** A fate that reads the content alone. *)
Class ByContent (gone : string → Object → Prop) :=
  by_content : ∀ q o o', same_content o o' → gone q o' → gone q o.

Lemma object_matches_content crypto expected o o' :
  same_content o o' → object_matches crypto expected o' → object_matches crypto expected o.
Proof. unfold object_matches. destruct o, o'; try done; cbn; by intros ->. Qed.

Lemma survives_trans gone `{!ByContent gone} w1 w2 w3 :
  survives gone w1 w2 → survives gone w2 w3 → survives gone w1 w3.
Proof.
  intros (He & _ & Hs) (He' & Ht & Hs'). split_and!; [congruence|done|]. intros q o Ho Hw.
  destruct (Hs q o Ho Hw) as [?|(o1 & Ho1 & Hc1)]; [by left|].
  destruct (Hs' q o1 Ho1 (same_content_work _ _ Hc1)) as [Hg|(o2 & Ho2 & Hc2)].
  - left. by eapply by_content.
  - right. exists o2. split; [done|]. by eapply same_content_trans.
Qed.

Lemma leaves_survives p (gone : Object → Prop) (fate : string → Object → Prop) w w' :
  leaves p gone w w' → (∀ o, gone o → fate p o) → survives fate w w'.
Proof.
  intros [(He & Ht & Hf) Hl] Hg. split_and!; [done..|]. intros q o Ho Hw.
  destruct (decide (q = p)) as [->|Hne].
  - destruct (Hl o Ho Hw) as [?|?]; [left; by apply Hg|by right].
  - right. exists o. split; [by apply Hf|by apply same_content_refl].
Qed.

Lemma extends_survives fate w w' : extends w w' → survives fate w w'.
Proof.
  intros (He & Ht & Hs). split_and!; [done..|]. intros q o Ho Hw. right. exists o.
  split; [by eapply lookup_weaken|by apply same_content_refl].
Qed.

#[export] Instance survives_disk fate w0 : DiskOnly (survives fate w0).
Proof. intros w w' Hd He (? & ? & ?). unfold survives. by rewrite Hd, He. Qed.

(** The engine's disk, against the one it started from. *)
Definition survived (fate : string → Object → Prop) (w0 : World) (e : Engine) : Prop :=
  survives fate w0 (en_world e).

Section Fate.
Context (fate : string → Object → Prop) `{!ByContent fate} (w0 : World).

Lemma keeps_on_store {A} (m : SM A) : keeps (survived fate w0) (on_store m).
Proof. intros e He. unfold on_store. by destruct (m (en_store e)) as [[] s]. Qed.

Lemma keeps_on_world {A} (m : PL A) :
  (∀ w, tree_ok (w_disk w) → survives fate w (snd (m w))) → keeps (survived fate w0) (on_world m).
Proof.
  intros Hm e He. unfold on_world. specialize (Hm (en_world e) (proj1 (proj2 He))).
  destruct (m (en_world e)) as [r w]. by eapply survives_trans.
Qed.

Lemma keeps_on_world_scratch {A} (m : PL A) :
  (∀ I, DiskOnly I → keeps I m) → keeps (survived fate w0) (on_world m).
Proof.
  intros Hm. apply keeps_on_world. intros w Ht. apply (Hm (survives fate w)); [apply _|].
  by apply extends_survives, extends_refl.
Qed.

Lemma keeps_get_engine {A} (f : Engine → EM A) :
  (∀ e, keeps (survived fate w0) (f e)) → keeps (survived fate w0) (get ≫= f).
Proof. intros Hf. apply keeps_get_bind. intros e He. by apply Hf. Qed.

End Fate.

Lemma edit_same_extends p f w :
  tree_ok (w_disk w) → anchored (w_disk w) p →
  (∀ o, f (Some o) = Ok (Some o) ∨ ∃ e, f (Some o) = Err e) →
  extends w (snd (edit p f w)).
Proof.
  intros Ht Ha Hf. destruct (w_disk w !! p) as [o|] eqn:Ho.
  - unfold edit. rewrite (place_anchored w p Ha), Ho. destruct (Hf o) as [->|[e ->]]; [|done].
    assert (partial_alter (λ _, Some o) p (w_disk w) = w_disk w) as Heq
      by (rewrite <- Ho; apply partial_alter_self).
    unfold extends. cbn. by rewrite Heq.
  - pose proof (edit_at_only p w f w (at_only_refl p w Ht Ha)) as Hat.
    apply (at_only_fresh p w); [done|]. apply Hat. intros o' _ [m Hm]. congruence.
Qed.

Lemma scratch_then_fault (m : IO unit) w : extends w (snd (m w)) →
  extends w (snd ((scratch m ;; scratch may_fail) w)).
Proof.
  intros Hm. rewrite bind_run. unfold scratch at 1, map_err. destruct (m w) as [[[]|e] w1]; [|done].
  cbn [snd] in Hm. apply (keeps_map_err (extends w)); [apply keeps_may_fail, _|done].
Qed.

(** The lock file is created where it is missing, and nothing else. *)
Lemma lock_if_aux_extends deps paths w : tree_ok (w_disk w) →
  extends w (snd (lock_if_aux deps paths w)).
Proof.
  intros Ht. unfold lock_if_aux. destruct (existsb _ _); [|done].
  unfold acquire_transition_lock. rewrite bind_run.
  pose proof (make_parent_chain_spec deps WORK_VIEW_TRANSITION_LOCK_PATH w Ht eq_refl) as Hs.
  unfold wp in Hs. destruct (make_parent_chain _ _ w) as [r w1]. destruct Hs as (Hx & c & -> & Hr).
  destruct c; [|done]. eapply extends_trans; [done|]. specialize (Hr eq_refl).
  rewrite bind_run. unfold get. cbn beta iota.
  apply scratch_then_fault.
  rewrite bind_run. destruct (may_fail_same w1) as [Hd He].
  pose proof (may_fail_extends w1 (proj1 (proj2 Hx))) as Hm.
  destruct (may_fail w1) as [[[]|e] w2]; [|done]. cbn [snd] in *. eapply extends_trans; [done|].
  apply edit_same_extends; [apply Hm|by rewrite Hd|]. intros []; eauto.
Qed.

(** What an operation displaces, it displaces as planned. *)
Definition fated (deps : Deps) (fate : string → Object → Prop) (op : FsOp) : Prop :=
  canonical (op_path op) = true ∧ ∀ o, displaced_by deps op o → fate (op_path op) o.

Section Transaction.
Context (Hhex : hex_digest seed_hex).
Context (fate : string → Object → Prop) `{!ByContent fate} (w0 : World).

Lemma keeps_apply_op deps op manifest_key : is_u64 (dp_max_seal_bytes deps) →
  fated deps fate op → keeps (survived fate w0) (apply_op deps op manifest_key).
Proof.
  intros Hmax [Hc Hf]. unfold apply_op. keeps_step.
  { apply keeps_on_world_scratch; [done|]. intros I HI. by apply keeps_stage_write_temp. }
  keeps_step; [by apply keeps_on_store|]. apply keeps_on_world; [done|]. intros w Ht.
  eapply leaves_survives; [by apply guarded_op_leaves|done].
Qed.

Lemma keeps_apply_turn deps manifest_key progress op : is_u64 (dp_max_seal_bytes deps) →
  fated deps fate op → keeps (survived fate w0) (apply_turn deps manifest_key progress op).
Proof.
  intros Hmax Hf. unfold apply_turn. apply keeps_get_engine. intros e.
  destruct (is_active _ _ _ _) as [[] locks]; [apply keeps_ret|].
  keeps_step; [by apply keeps_attempt, keeps_apply_op|]. keeps_step.
  { destruct a as [a|[]]; eauto with keeps nocore. }
  destruct (record_applied _ _ _). apply keeps_ret.
Qed.

Lemma keeps_apply_ops deps manifest_key ops progress : is_u64 (dp_max_seal_bytes deps) →
  Forall (fated deps fate) ops →
  keeps (survived fate w0) (apply_ops deps manifest_key progress ops).
Proof.
  intros Hmax Hf. revert progress. induction Hf; intros progress; cbn [apply_ops]; [apply keeps_ret|].
  keeps_step; [by apply keeps_apply_turn|done].
Qed.

Lemma keeps_apply_all deps prefetch manifest_key windows progress : is_u64 (dp_max_seal_bytes deps) →
  Forall (fated deps fate) (concat windows) →
  keeps (survived fate w0) (apply_all deps prefetch manifest_key progress windows).
Proof.
  intros Hmax. revert progress.
  induction windows as [|window windows IH]; intros progress; cbn [apply_all concat]; [intros _; apply keeps_ret|].
  intros [Hw Hws]%Forall_app. keeps_step; [apply keeps_ok_or|]. keeps_step; [|by apply IH].
  by apply keeps_apply_ops.
Qed.

Lemma split_windows_concat ops : ∀ window files bytes,
  concat (split_windows ops window files bytes) = app window ops.
Proof.
  induction ops as [|op ops IH]; intros window files bytes; cbn [split_windows].
  - destruct window; cbn; by rewrite ?app_nil_r.
  - destruct (_ || _); cbn [concat]; rewrite IH; [done|]. by rewrite <- (assoc_L app).
Qed.

Lemma windows_fated deps ops : Forall (fated deps fate) ops →
  Forall (fated deps fate) (concat (apply_windows (order_ops ops))).
Proof.
  intros Hf. unfold apply_windows. rewrite split_windows_concat. cbn [app]. unfold order_ops.
  by rewrite merge_sort_Permutation.
Qed.

Lemma keeps_apply_plan deps prefetch plan manifest_key ref_version :
  is_u64 (dp_max_seal_bytes deps) → Forall (fated deps fate) (mp_fs_ops plan) →
  keeps (survived fate w0) (apply_plan deps prefetch plan manifest_key ref_version).
Proof.
  intros Hmax Hf. pose proof (@keeps_on_store fate w0) as Hstore. unfold apply_plan.
  keeps_step; [apply Hstore|]. keeps_step; [apply Hstore|]. keeps_step.
  { apply keeps_on_world; [done|]. intros w Ht. by apply extends_survives, lock_if_aux_extends. }
  keeps_step; [by apply keeps_apply_all, windows_fated|]. keeps_step; [apply Hstore|].
  keeps_step; [apply keeps_get|]. keeps_step; [apply Hstore|]. keeps_step; [|apply keeps_ret].
  apply keeps_on_world_scratch; [done|]. intros I HI. by apply keeps_release_quarantine.
Qed.

End Transaction.

(** ** From the plan to the disk *)

(** The object is the one the ancestor row describes. *)
Definition recorded (crypto : WorkspaceCrypto) (ancestor : gmap WorkspacePath FileRecord)
    (q : string) (o : Object) : Prop :=
  ∃ record, ancestor !! q = Some record ∧ object_matches crypto (preimage_from_record record) o.

#[export] Instance recorded_by_content crypto ancestor : ByContent (recorded crypto ancestor).
Proof.
  intros q o o' Hc (record & Hr & Hm). exists record. split; [done|].
  by eapply object_matches_content.
Qed.

Lemma absent_matches crypto o : ¬ object_matches crypto preimage_absent o.
Proof. by intros [? _]. Qed.

(** A row of the matrix names the ancestor's record as preimage, or nothing. *)
Lemma row_expected ctx path local remote force op :
  op ∈ mp_fs_ops (row ctx path local remote force) → displaces (op_kind op) →
  op_expected op = preimage_absent ∨
  ∃ record, local = LUnchanged record ∧ op_expected op = preimage_from_record record.
Proof.
  destruct (row_only_at ctx path local remote force) as [[Hn|(op' & Hn & _)] _];
    rewrite Hn; [by intros ?%not_elem_of_nil|]. intros ->%list_elem_of_singleton. revert Hn.
  unfold row, state_of, classify_one. destruct (escapes _ _ _); [done|].
  destruct local, remote; unfold_M; cbn; repeat (case_match; cbn); intros [= <-]; cbn; intros [];
    solve [by left|right; by eexists].
Qed.

Lemma plan_fated deps ancestor remote collisions debug scope decided plan :
  crypto_ok (dp_crypto deps) →
  (∀ q, q ∈ dom ancestor ∪ dom remote → canonical q = true) →
  classify (ctx_of deps decided) debug ancestor remote collisions scope = Ok plan →
  Forall (fated deps (recorded (dp_crypto deps) ancestor)) (mp_fs_ops plan).
Proof.
  intros Hok Hcan Hp. apply Forall_forall. intros op Hop.
  pose proof (classify_op (ctx_of deps decided) _ _ _ debug scope plan op Hok Hp Hop) as Hq.
  split; [by apply Hcan|]. intros o [Hk Hm].
  destruct (classify_at (ctx_of deps decided) _ _ _ debug scope plan _ Hok Hp Hq) as [(Ho & _) Hcases].
  assert (op ∈ ops_at (op_path op) plan) as Hin by by apply list_elem_of_filter.
  rewrite Ho in Hin. destruct Hcases as [| |local force (_ & _ & Hl) _ _];
    [by apply not_elem_of_nil in Hin..|].
  apply local_delta_facts in Hl.
  destruct (row_expected _ _ _ _ _ _ Hin Hk) as [He|(record & -> & He)]; rewrite He in Hm.
  - by destruct (absent_matches (dp_crypto deps) o).
  - destruct Hl as [Ha _]. by exists record.
Qed.

(** C1: Applying a pull destroys no local work.  Take a plan decided on any earlier
    state of the disk, and apply it to a disk on which the user, another process or a
    crash has since done anything, under any pattern of I/O, store and transport
    failures.  Afterwards nothing was written outside the workspace, the tree is
    well formed, and every file and every link that was there is still there with
    its content — unless it was exactly what its ancestor row records, which the
    pull had agreed to replace. *)
Theorem apply_keeps_local_work deps ancestor remote collisions debug scope decided plan
    prefetch manifest_key ref_version (e : Engine) :
  is_u64 (dp_max_seal_bytes deps) → hex_digest seed_hex → crypto_ok (dp_crypto deps) →
  (∀ q, q ∈ dom ancestor ∪ dom remote → canonical q = true) →
  classify (ctx_of deps decided) debug ancestor remote collisions scope = Ok plan →
  tree_ok (w_disk (en_world e)) →
  survives (recorded (dp_crypto deps) ancestor) (en_world e)
    (en_world (snd (apply_plan deps prefetch plan manifest_key ref_version e))).
Proof.
  intros Hmax Hhex Hok Hcan Hp Ht.
  apply (keeps_apply_plan Hhex (recorded (dp_crypto deps) ancestor) (en_world e)); [done| |].
  - by eapply plan_fated.
  - by apply extends_survives, extends_refl.
Qed.

End Apply.

(** ** Witnesses

    The workspace of [MergeTheorems], on a disk: the plan is decided while [kept] is
    as the ancestor says, and applied after the user rewrote it. *)

#[local] Existing Instance w_hash.

Definition w_seed : SeedHash := λ _, "0123456789abcdef0123456789abcdef0123456789abcdef0123456789abcdef".
#[local] Existing Instance w_seed.

Lemma w_seed_hex : hex_digest (@seed_hex w_seed).
Proof. by intros seed. Qed.

Definition w_envelope : Envelope :=
  {| physical_blob_key := λ sealed, "b_" +:+ sealed;
     is_segmented_envelope := λ _, false;
     open_bounded := λ sealed _ _ _, Ok sealed;
     open_segmented := λ sealed _ _ _, Ok sealed |}.
#[local] Existing Instance w_envelope.

Definition w_stamp : Stamp :=
  {| st_mtime := 1; st_mtime_nsec := 0; st_ctime := 1; st_ctime_nsec := 0; st_ino := 1; st_dev := 1 |}.

Definition w_env : Env :=
  {| env_fresh := λ _, w_stamp; env_stamp := λ _ _, w_stamp; env_umask := 18;
     env_unreadable := λ _, false; env_unopenable := λ _, false; env_link_exists := λ _, false;
     env_behind := w_os |}.

Definition w_deps : Deps :=
  {| dp_env := w_env; dp_crypto := crypto_new "k" 1; dp_max_seal_bytes := 100; dp_now := 7;
     dp_get_blob_to_writer := λ key, (λ content, (content, str_len content)) <$> strip_prefix "b_" key;
     dp_timestamps := 0; dp_endpoint_clock := None |}.

Definition w_disk_of (kept : string) : gmap string Object :=
  list_to_map [("kept", RegularFile kept 33188 w_stamp); ("edited", RegularFile "mine" 33188 w_stamp)].

Definition w_world (kept : string) : World :=
  {| w_disk := w_disk_of kept; w_escaped := false; w_recovery_dir := ScratchReady; w_temps := ∅;
     w_quarantine := ∅; w_faults := []; w_tick := 0 |}.

Definition w_store (intents : gmap string Intent) : ManifestStore :=
  {| ms_files := ∅; ms_engine_state := None; ms_intents := intents; ms_unsyncable := ∅;
     ms_pending_push := ∅; ms_blobs := ∅; ms_tree_nodes := ∅; ms_tree_node_epochs := ∅;
     ms_faults := [] |}.

Definition w_engine (kept : string) : Engine := {| en_store := w_store ∅; en_world := w_world kept |}.

Definition w_planned : MergePlan :=
  match classify (ctx_of w_deps (w_world "old")) false w_ancestor w_remote [] WholeAncestor with
  | Ok plan => plan
  | Err _ => empty_plan
  end.

Lemma w_tree_ok kept : tree_ok (w_disk_of kept).
Proof.
  unfold w_disk_of. cbn [list_to_map foldr curry].
  intros q o [[<- _]|(_ & [[<- _]|[_ Hq]]%lookup_insert_Some)]%lookup_insert_Some;
    [by split; [|intros d ?%not_elem_of_nil]..|by rewrite lookup_empty in Hq].
Qed.

Lemma w_canonical q : q ∈ dom w_ancestor ∪ dom w_remote → canonical q = true.
Proof.
  unfold w_ancestor, w_remote. rewrite !dom_list_to_map. cbn. intros Hq.
  assert (q = "kept" ∨ q = "edited" ∨ q = "gone" ∨ q = "odd")%string as Hcase by set_solver.
  destruct Hcase as [Hc|[Hc|[Hc|Hc]]]; by subst q.
Qed.

Lemma apply_keeps_local_work_witness :
  survives (recorded (crypto_new "k" 1) w_ancestor) (w_world "newer")
    (en_world (snd (apply_plan w_deps (λ _, Some ∅) w_planned "m" 9 (w_engine "newer")))).
Proof.
  apply (apply_keeps_local_work w_deps w_ancestor w_remote [] false WholeAncestor (w_world "old")
           w_planned (λ _, Some ∅) "m" 9 (w_engine "newer")).
  - cbv; split; discriminate.
  - apply w_seed_hex.
  - apply crypto_new_ok.
  - apply w_canonical.
  - vm_compute; reflexivity.
  - apply w_tree_ok.
Defined.
