(* ===== verification/Reported.v ===== *)
(** * What a transaction reports is what is on the disk

    The outcome of an operation becomes an ancestor row or a reported path.  This file
    proves that the outcome describes the disk: an installed file holds bytes whose
    keyed identity is the manifest's, whatever the transport answered. *)

From S2P Require Import Prelude.
From S2P Require Import MergeMatrix.
From S2P Require Import MergeTheorems.
From S2P Require Import Paths.
From S2P Require Import ManifestTypes.
From S2P Require Import FsGuard.
From S2P Require Import Asides.
From S2P Require Import Disk.
From S2P Require Import Materialize.
From S2P Require Import Store.
From S2P Require Import Apply.
From S2P Require Import DiskLemmas.
From S2P Require Import ApplyFrames.
From S2P Require Import ApplyTheorems.
Local Open Scope string_scope.
Open Scope Z_scope.

(** ** Partial correctness *)

(** From [P], a run that returns establishes [Q]. *)
Definition ensures {S E A} (P : S → Prop) (m : M S E A) (Q : A → S → Prop) : Prop :=
  ∀ s, P s → match m s with (Ok a, s') => Q a s' | (Err _, _) => True end.

Section Ensures.
Context {S E : Type}.

Lemma ensures_ret {A} (P : S → Prop) (a : A) (Q : A → S → Prop) :
  (∀ s, P s → Q a s) → ensures P (mret a : M S E A) Q.
Proof. intros HQ s Hs. by apply HQ. Qed.

Lemma ensures_throw {A} (P : S → Prop) (e : E) (Q : A → S → Prop) : ensures P (throw e) Q.
Proof. by intros s Hs. Qed.

Lemma ensures_bind {A B} (P : S → Prop) (m : M S E A) (f : A → M S E B) (R : A → S → Prop) Q :
  ensures P m R → (∀ a, ensures (R a) (f a) Q) → ensures P (m ≫= f) Q.
Proof.
  intros Hm Hf s Hs. rewrite bind_run. specialize (Hm s Hs). destruct (m s) as [[a|e] s']; [|done].
  by apply Hf.
Qed.

Lemma ensures_keeps {A} (P : S → Prop) (m : M S E A) : keeps P m → ensures P m (λ _, P).
Proof. intros Hm s Hs. specialize (Hm s Hs). by destruct (m s) as [[]]. Qed.

(** A step whose result and effect do not matter to [P]. *)
Lemma ensures_then {A B} (P : S → Prop) (m : M S E A) (f : A → M S E B) Q :
  keeps P m → (∀ a, ensures P (f a) Q) → ensures P (m ≫= f) Q.
Proof. intros Hm Hf. eapply ensures_bind; [by apply ensures_keeps|done]. Qed.

Lemma ensures_get {A} (P : S → Prop) (f : S → M S E A) Q :
  (∀ s0, P s0 → ensures (λ s, s = s0) (f s0) Q) → ensures P (get ≫= f) Q.
Proof. intros Hf s Hs. by apply (Hf s Hs s). Qed.

Lemma ensures_get_state {A} (P : S → Prop) (m : M S E A) Q :
  (∀ s0, P s0 → ensures (λ s, s = s0) m Q) → ensures P m Q.
Proof. intros Hm s Hs. by apply (Hm s Hs s). Qed.

Lemma ensures_conseq {A} (P P' : S → Prop) (m : M S E A) (Q Q' : A → S → Prop) :
  ensures P' m Q' → (∀ s, P s → P' s) → (∀ a s, Q' a s → Q a s) → ensures P m Q.
Proof. intros Hm HP HQ s Hs. specialize (Hm s (HP s Hs)). destruct (m s) as [[]]; auto. Qed.

Lemma ensures_pre {A} (P P' : S → Prop) (m : M S E A) Q :
  ensures P' m Q → (∀ s, P s → P' s) → ensures P m Q.
Proof. intros Hm HP. by eapply ensures_conseq. Qed.

Lemma ensures_map_err {F A} (P : S → Prop) (g : F → E) (m : M S F A) (Q : A → S → Prop) :
  ensures P m Q → ensures P (map_err g m) Q.
Proof. intros Hm s Hs. specialize (Hm s Hs). unfold map_err. by destruct (m s) as [[]]. Qed.

Lemma ensures_attempt {F A} (P : S → Prop) (m : M S F A) (Q : A → S → Prop) :
  ensures P m Q →
  ensures P (attempt m : M S E _) (λ r s, match r with Ok a => Q a s | Err _ => True end).
Proof. intros Hm s Hs. specialize (Hm s Hs). unfold attempt. by destruct (m s) as [[]]. Qed.

Lemma ensures_and {A} (P J : S → Prop) (m : M S E A) (Q : A → S → Prop) :
  ensures P m Q → keeps J m → ensures (λ s, P s ∧ J s) m (λ a s, Q a s ∧ J s).
Proof.
  intros Hm HJ s [HP Hj]. specialize (Hm s HP). specialize (HJ s Hj). by destruct (m s) as [[]].
Qed.

Lemma keeps_any {A} (m : M S E A) : keeps (λ _, True) m.
Proof. by intros s _. Qed.

Lemma keeps_and {A} (I J : S → Prop) (m : M S E A) :
  keeps I m → keeps J m → keeps (λ s, I s ∧ J s) m.
Proof. intros HI HJ s [Hi Hj]. auto. Qed.

End Ensures.

Section Reported.
Context `{ContentHash} `{SeedHash} `{Envelope} (deps : Deps).

(** ** Staging *)

(** The bytes the manifest names. *)
Definition authentic (key_epoch : KeyEpoch) (content_id : ContentId) (size : Z) (content : bytes) : Prop :=
  content_id_at (dp_crypto deps) key_epoch content = Some content_id ∧ str_len content = size.

Lemma open_with_authentic opener epoch id sealed size max content :
  open_with deps opener epoch id sealed size max = Ok content → authentic epoch id size content.
Proof.
  unfold open_with. destruct (max <? size); [done|]. destruct (cr_keys _ !! epoch); [|done].
  destruct (opener _ _ _ _) as [plaintext|[]]; [|done..].
  destruct (Z.eqb_spec (str_len plaintext) size); [|done]. cbn [negb].
  destruct (bool_decide_reflect (content_id_at (dp_crypto deps) epoch plaintext ≠ Some id))
    as [|Hid%dec_stable]; [done|]. by intros [= <-].
Qed.

Definition temp_holds (leaf : string) (good : bytes → Prop) (w : World) : Prop :=
  ∃ content, w_temps w !! leaf = Some content ∧ good content.

(** Invariants that read the staging directory and the tree, not the faults. *)
Definition fault_free (I : World → Prop) : Prop := ∀ w faults, I w → I (w <| w_faults := faults |>).

Lemma keeps_fault I : fault_free I → keeps I may_fail.
Proof. intros HI w Hw. unfold may_fail. destruct (w_faults w) as [|[]]; cbn; auto. Qed.

Lemma temp_holds_fault leaf good : fault_free (temp_holds leaf good).
Proof. by intros w faults. Qed.

Lemma scratch_write_ensures leaf content (good : bytes → Prop) : good content →
  ensures (λ _, True) (scratch_write leaf content) (λ _, temp_holds leaf good).
Proof.
  intros Hg. unfold scratch_write. apply ensures_then; [apply keeps_any|]. intros [] w _. cbn.
  exists content. split; [|done]. cbn. apply lookup_insert_eq.
Qed.

(** Opening a download and writing it out. *)
Lemma open_and_write opener epoch id blob size max leaf (f : IoError → PullError)
    (h : ManifestError → PullError) :
  ensures (λ _, True)
    (content ← map_err h (of_result (open_with deps opener epoch id blob size max));
     map_err f (scratch_write leaf content))
    (λ _, temp_holds leaf (authentic epoch id size)).
Proof.
  intros w _. rewrite bind_run. unfold of_result, map_err at 1.
  destruct (open_with _ _ _ _ _ _ _) as [content|e] eqn:Eo; [|done].
  apply (ensures_map_err (λ _, True) f); [|done].
  by eapply scratch_write_ensures, open_with_authentic.
Qed.

Lemma stage_body_ensures epoch id key size sealed leaf :
  ensures (λ _, True) (stage_body deps epoch id key size sealed leaf)
    (λ _, temp_holds leaf (authentic epoch id size)).
Proof.
  unfold stage_body. apply ensures_then; [apply keeps_any|]. intros [blob downloaded].
  do 13 (apply ensures_then; [apply keeps_any|intros ?]).
  apply ensures_bind with (λ _, temp_holds leaf (authentic epoch id size)).
  - destruct (is_segmented_envelope _).
    + apply open_and_write.
    + apply ensures_then; [apply keeps_any|intros _].
      apply open_and_write.
  - intros []. pose proof (keeps_fault _ (temp_holds_fault leaf (authentic epoch id size))) as Hk.
    apply ensures_then; [by apply keeps_map_err|]. intros []. by apply ensures_keeps, keeps_map_err.
Qed.

Lemma keeps_unlink_other leaf other good : other ≠ leaf →
  keeps (temp_holds leaf good) (scratch_unlink other).
Proof.
  intros Hne. unfold scratch_unlink. keeps_step; [apply keeps_fault, temp_holds_fault|].
  keeps_step; [apply keeps_get|]. destruct (_ !! other); [|apply keeps_throw]. apply keeps_modify.
  intros w (content & Hc & Hg). exists content. split; [|done]. cbn. by rewrite lookup_delete_ne.
Qed.

Lemma stage_ensures epoch id key size leaf :
  ensures (λ _, True) (stage_downloaded_file deps epoch id key size leaf)
    (λ _, temp_holds leaf (authentic epoch id size)).
Proof.
  assert (leaf +:+ ".sealed-partial" ≠ leaf) as Hne.
  { intros Heq. apply (f_equal String.length) in Heq. rewrite str_length_app in Heq. cbn in Heq. lia. }
  unfold stage_downloaded_file.
  do 2 (apply ensures_then; [apply keeps_any|intros ?]).
  eapply ensures_bind; [apply ensures_attempt, stage_body_ensures|].
  intros [[]|e].
  - apply ensures_then; [by apply keeps_attempt, keeps_unlink_other|]. intros ?. by apply ensures_ret.
  - do 2 (apply ensures_then; [apply keeps_any|intros ?]). apply ensures_throw.
Qed.

Lemma download_ensures path epoch id key size :
  ensures (λ _, True) (download_recovery_temp deps path epoch id key size)
    (λ leaf, temp_holds leaf (authentic epoch id size)).
Proof.
  unfold download_recovery_temp. apply ensures_then; [apply keeps_any|intros ?].
  eapply ensures_bind; [apply stage_ensures|]. intros ?. by apply ensures_ret.
Qed.

(** A staged file of [entry], if there is one, is the one the manifest names. *)
Definition staged (entry : ManifestEntry) (temp : option TempFile) (w : World) : Prop :=
  match entry, temp with
  | FileEntry size _ id _ epoch, Some leaf => temp_holds leaf (authentic epoch id size) w
  | _, _ => True
  end.

Definition op_entry (kind : FsOpKind) : option ManifestEntry :=
  match kind with Install entry | ConflictAside entry => Some entry | _ => None end.

Lemma stage_write_temp_ensures op entry : op_entry (op_kind op) = Some entry →
  ensures (λ _, True) (stage_write_temp deps op) (staged entry).
Proof.
  intros He. unfold stage_write_temp.
  destruct (op_kind op) as [e| |e|e]; try done; injection He as ->;
    (destruct entry; [|by apply ensures_ret..]);
    (apply ensures_then; [apply keeps_any|intros ?]);
    (eapply ensures_bind; [apply stage_ensures|]; intros ?; by apply ensures_ret).
Qed.

(** ** The staging directory while the path is prepared *)

Section Temps.
Context (t : gmap string bytes).

Definition temps_are (w : World) : Prop := w_temps w = t.

Lemma temps_fault : fault_free temps_are.
Proof. by intros w faults. Qed.

Lemma keeps_temps_fault : keeps temps_are may_fail.
Proof. apply keeps_fault, temps_fault. Qed.

Lemma keeps_temps_edit p f : keeps temps_are (edit p f).
Proof.
  intros w Hw. unfold edit. destruct (place w p); [|done..]. by destruct (f object).
Qed.

Lemma keeps_temps_modify {E} f : (∀ w, w_temps (f w) = w_temps w) →
  keeps temps_are (modify f : M World E unit).
Proof. intros Hf. apply keeps_modify. intros w Hw. unfold temps_are. by rewrite Hf. Qed.

#[local] Hint Resolve keeps_temps_fault keeps_temps_edit : keeps.
#[local] Hint Extern 3 (keeps temps_are (modify _)) => by apply keeps_temps_modify : keeps.

Lemma keeps_temps_make_parents components walked : keeps temps_are (make_parents deps components walked).
Proof.
  revert walked. induction components as [|c components IH]; intros walked; cbn [make_parents];
    [apply keeps_ret|]. unfold make_dir, fs_create_dir. keeps_go.
Qed.

Lemma keeps_temps_chain p : keeps temps_are (make_parent_chain deps p).
Proof. apply keeps_temps_make_parents. Qed.

Lemma keeps_temps_preserve p : keeps temps_are (preserve_preimage deps p).
Proof. unfold preserve_preimage, copy_private_file. keeps_go. Qed.

Lemma keeps_temps_remove_file p : keeps temps_are (fs_remove_file p).
Proof. unfold fs_remove_file. keeps_go. Qed.

Lemma keeps_temps_remove_dir p : keeps temps_are (remove_empty_dir deps p).
Proof. unfold remove_empty_dir, fs_remove_dir. keeps_go. Qed.

Lemma keeps_temps_clear p entry observed : keeps temps_are (clear_other_kind deps p entry observed).
Proof. unfold clear_other_kind, remove_empty_dir, fs_remove_dir, fs_remove_file. keeps_go. Qed.

End Temps.

Lemma keeps_temp_holds {E A} (m : M World E A) leaf good :
  (∀ t, keeps (temps_are t) m) → keeps (temp_holds leaf good) m.
Proof.
  intros Hm w (content & Hc & Hg). exists content. split; [|done].
  by rewrite (Hm (w_temps w) w eq_refl).
Qed.

Lemma keeps_staged {E A} (m : M World E A) entry temp :
  (∀ t, keeps (temps_are t) m) → keeps (staged entry temp) m.
Proof.
  intros Hm. unfold staged. destruct entry, temp; try apply keeps_any. by apply keeps_temp_holds.
Qed.

(** ** Placing an object *)

Section Placing.
Context (p : string).

Definition standing (w : World) : Prop := anchored (w_disk w) p.

#[local] Instance standing_disk : DiskOnly standing.
Proof. intros w w' Hd _ Hw. unfold standing. by rewrite Hd. Qed.

(** The path stands and [P] of the object there. *)
Definition stands_with (P : option Object → Prop) (w : World) : Prop :=
  standing w ∧ P (w_disk w !! p).

#[local] Instance stands_with_disk P : DiskOnly (stands_with P).
Proof. intros w w' Hd He [Hw HP]. split; [by eapply standing_disk|]. by rewrite Hd. Qed.

Lemma edit_ensures f : ensures standing (edit p f) (λ _, stands_with (λ o, ∃ before, f before = Ok o)).
Proof.
  intros w Hw. unfold edit. rewrite (place_anchored w p Hw).
  destruct (f (w_disk w !! p)) as [o|e] eqn:Ef; [|done]. split.
  - apply anchored_alter; [done|]. by intros ?%parent_ne.
  - exists (w_disk w !! p). cbn. by rewrite lookup_partial_alter_eq.
Qed.

Lemma keeps_standing_edit f : keeps standing (edit p f).
Proof.
  intros w Hw. unfold edit. rewrite (place_anchored w p Hw). destruct (f _); [|done].
  apply anchored_alter; [done|]. by intros ?%parent_ne.
Qed.

Lemma keeps_standing_chain : keeps standing (make_parent_chain deps p).
Proof.
  intros w Hw. pose proof Hw as [Hc _]. destruct (anchored_dirs (w_disk w) p Hc) as [Hp Hd].
  unfold make_parent_chain. rewrite make_parents_stays; [done|done|]. by apply Hd.
Qed.

#[local] Hint Resolve keeps_standing_edit keeps_standing_chain keeps_preserve_preimage
  keeps_observe_now : keeps.

Definition is_staged (content : bytes) (mode : FileMode) (o : option Object) : Prop :=
  ∃ stamp, o = Some (RegularFile content (chmod_mode (Z.lor S_IFREG 384) mode) stamp).

Lemma place_staged w content mode :
  ensures standing (edit p (λ _, Ok (Some (staged_object deps w content mode))))
    (λ _, stands_with (is_staged content mode)).
Proof.
  eapply ensures_conseq; [apply edit_ensures|done|]. intros _ w' [Hs (_ & [= Ho])]. split; [done|].
  rewrite <- Ho. by eexists.
Qed.

Lemma rename_ensures leaf content mode :
  ensures standing (rename_refusing_symlink deps leaf content p mode)
    (λ r w, r ≠ None → stands_with (is_staged content mode) w).
Proof.
  unfold rename_refusing_symlink. apply ensures_then; [keeps_go|intros _].
  apply ensures_get. intros w0 Hw0. cbn zeta. rewrite (place_anchored w0 p Hw0).
  apply ensures_pre with standing; [|by intros w ->].
  assert (ensures standing (renamed ← attempt (may_fail ;; edit p
      (λ _, Ok (Some (staged_object deps w0 content mode))));
    match renamed with
    | Ok _ => modify (λ w, w <| w_temps := delete leaf (w_temps w) |>) ;; mret (Some false)
    | Err error => if bool_decide (io_kind error = AlreadyExists) then mret None else throw error
    end) (λ r w, r ≠ None → stands_with (is_staged content mode) w)) as Hfresh.
  { eapply ensures_bind.
    - eapply ensures_attempt, ensures_then; [keeps_go|]. intros _. apply place_staged.
    - intros [[]|e]; [|destruct (bool_decide _); [by apply ensures_ret|apply ensures_throw]].
      apply ensures_then; [keeps_go|]. intros _. by apply ensures_ret. }
  destruct (w_disk w0 !! p) as [[displaced m st|m|target|m]|]; [|by apply ensures_ret..|done].
  apply ensures_then; [keeps_go|intros _]. eapply ensures_bind; [apply place_staged|]. intros [].
  apply ensures_then; [keeps_go|]. intros _. apply ensures_then; [keeps_go|]. intros _.
  by apply ensures_ret.
Qed.

Lemma anchored_install_ensures leaf good mode :
  ensures (λ w, standing w ∧ temp_holds leaf good w) (anchored_install deps leaf p mode)
    (λ r w, ∀ fp, r = Written fp → ∃ content, good content ∧ stands_with (is_staged content mode) w).
Proof.
  unfold anchored_install. apply ensures_then.
  { apply keeps_attempt, keeps_and; [keeps_go|apply keeps_fault, temp_holds_fault]. }
  intros opened. apply ensures_get. intros w0 [Hs (content & Hc & Hg)]. rewrite Hc.
  destruct opened as [[]|e]; [|destruct (open_blocks e); [by apply ensures_ret|apply ensures_throw]].
  apply ensures_pre with standing; [|by intros w ->].
  do 4 (apply ensures_then; [keeps_go|intros _]).
  eapply ensures_bind; [apply rename_ensures|]. intros [exchanged|]; [|by apply ensures_ret].
  apply ensures_pre with (stands_with (is_staged content mode)); [|by intros w Hw; apply Hw].
  do 2 (apply ensures_then; [keeps_go|intros _]). apply ensures_get. intros w1 Hw1.
  apply ensures_pre with (stands_with (is_staged content mode)); [|by intros w ->].
  destruct (place w1 p) as [[o|]| | |]; try by apply ensures_ret.
  apply ensures_then; [keeps_go|]. intros _. apply ensures_ret. eauto.
Qed.

Lemma install_staged_ensures leaf good mode :
  ensures (λ w, standing w ∧ temp_holds leaf good w)
    (install_staged_file_from_directory deps p leaf mode)
    (λ r w, ∀ fp, r = Written fp → ∃ content, good content ∧ stands_with (is_staged content mode) w).
Proof.
  unfold install_staged_file_from_directory. apply ensures_then.
  { apply keeps_and; [keeps_go|apply keeps_temp_holds; intros t; apply keeps_temps_chain]. }
  intros [|]; [|by apply ensures_ret]. apply ensures_then; [apply keeps_bail_if|]. intros _.
  apply ensures_get. intros w0 Hw0. destruct (open_containing_directory _ _ _); [|by apply ensures_ret..].
  eapply ensures_pre; [apply ensures_map_err, anchored_install_ensures|]. by intros w ->.
Qed.

(** The object an entry describes, as [install_entry] leaves it. *)
Definition entry_on_disk (entry : ManifestEntry) (o : option Object) : Prop :=
  match entry with
  | FileEntry size mode id _ epoch =>
      ∃ content, authentic epoch id size content ∧ is_staged content mode o
  | DirectoryEntry _ => is_dir o
  | SymlinkEntry _ target => o = Some (SymbolicLink (Some target))
  end.

Lemma keeps_standing_clear entry observed : keeps standing (clear_other_kind deps p entry observed).
Proof. unfold clear_other_kind, remove_empty_dir, fs_remove_dir, fs_remove_file. keeps_go. Qed.

(** The closing re-observation, where the path stands: [Done] only of a present object. *)
Lemma finish_ensures entry (P : option Object → Prop) :
  ensures (stands_with P)
    (observed ← observe_now deps p;
     mret (match observed with
           | None => Vanished
           | Some observed => Done (record_for_entry entry (ob_fingerprint observed) (dp_now deps))
           end))
    (λ m w, ∀ record, m = Done record → ∃ o, w_disk w !! p = Some o ∧ P (Some o)).
Proof.
  intros w [Hs HP]. rewrite bind_run, observe_now_run. destruct (w_disk w !! p) as [o|] eqn:Ho.
  - destruct (observe_syncable _ _); [|done]. intros record _. exists o. split; [exact Ho|done].
  - unfold observe_syncable, observe_classified. cbn [ctx_of ctx_os os_of symlink_metadata].
    rewrite (lstat_anchored deps w p Hs), Ho. done.
Qed.

(** What an install may assume when it starts writing. *)
Definition prepared (entry : ManifestEntry) (temp : option TempFile) (w : World) : Prop :=
  standing w ∧ staged entry temp w ∧
  match entry with DirectoryEntry _ => w_disk w !! p = None ∨ is_dir (w_disk w !! p) | _ => True end.

Lemma link_ensures target : ensures standing (fs_symlink target p)
  (λ _, stands_with (λ o, o = Some (SymbolicLink (Some target)))).
Proof.
  unfold fs_symlink. apply ensures_then; [keeps_go|]. intros _.
  eapply ensures_conseq; [apply edit_ensures|done|]. intros _ w [Hs (before & Hb)]. split; [done|].
  by destruct before; simplify_eq.
Qed.

Definition none_or_dir (o : option Object) : Prop := o = None ∨ is_dir o.

Lemma keeps_none_or_dir_create : keeps (stands_with none_or_dir) (create_dir_no_follow deps p).
Proof.
  unfold create_dir_no_follow, fs_create_dir. keeps_step; [|keeps_go]. keeps_step. keeps_step; [keeps_go|].
  intros w [Hs Ho]. pose proof (edit_ensures (λ object, match object with
    | None => Ok (Some (DirectoryNode (created_mode (dp_env deps) S_IFDIR 511)))
    | Some _ => Err already_exists end) w Hs) as He.
  destruct (edit _ _ w) as [[]] eqn:Ee.
  - destruct He as [Hs' (before & Hb)]. split; [done|]. right. destruct before; [done|].
    injection Hb as Hb. cbn [snd]. rewrite <- Hb. by eexists.
  - unfold edit in Ee. rewrite (place_anchored w p Hs) in Ee. destruct (w_disk w !! p) eqn:E; [|done].
    injection Ee as _ <-. cbn. split; [done|]. by rewrite E.
Qed.

Lemma keeps_none_or_dir_mode mode : keeps (stands_with none_or_dir) (set_mode deps p mode).
Proof.
  unfold set_mode. apply keeps_get_bind. intros w Hw. pose proof Hw as [Hs Ho].
  rewrite (place_anchored w p Hs). destruct (w_disk w !! p) as [o|] eqn:E; [|done].
  destruct Ho as [?|[m Hm]]; [done|]. injection Hm as ->. destruct (env_unopenable _ _); [done|].
  unfold on_path, map_err, fs_fchmod. rewrite bind_run. destruct (may_fail_same w) as [Hd _].
  destruct (may_fail w) as [[[]|e] w1]; cbn in Hd |- *; unfold stands_with, standing; cbn;
    rewrite Hd; [|rewrite E; split; [done|right; by eexists]].
  rewrite lookup_alter_eq, E. split; [|right; by eexists].
  split; [apply Hs|]. intros d Hin. rewrite lookup_alter_ne; [by apply Hs|].
  intros ->. by apply (parent_ne d d).
Qed.

(** ** Installing *)

Lemma install_file_ensures size m id key epoch temp :
  let entry := FileEntry size m id key epoch in
  ensures (prepared entry temp)
    (temp ← ok_or (Internal "file install without temp") temp;
     written ← install_staged_file_from_directory deps p temp m;
     mret (match written with
           | Written fingerprint => Done (record_for_entry entry fingerprint (dp_now deps))
           | WriteBlocked => ParentBlocked
           end))
    (λ r w, ∀ record, r = Done record → entry_on_disk entry (w_disk w !! p)).
Proof.
  intros entry. destruct temp as [leaf|]; [|by intros w _]. intros w (Hs & Ht & _). cbn [staged entry] in Ht.
  revert w Hs Ht. cut (ensures (λ w, standing w ∧ temp_holds leaf (authentic epoch id size) w)
    (written ← install_staged_file_from_directory deps p leaf m;
     mret (match written with
           | Written fingerprint => Done (record_for_entry entry fingerprint (dp_now deps))
           | WriteBlocked => ParentBlocked
           end))
    (λ r w, ∀ record, r = Done record → entry_on_disk entry (w_disk w !! p))).
  { intros He w Hs Ht. by apply (He w (conj Hs Ht)). }
  eapply ensures_bind; [apply install_staged_ensures|]. intros written. apply ensures_ret.
  intros w Hw record Hr. destruct written as [fp|]; [|done].
  destruct (Hw fp eq_refl) as (content & Ha & _ & Hd). by exists content.
Qed.

(** Past the guards: the entry's own object. *)
Lemma install_body_ensures entry temp :
  let finish := (observed ← observe_now deps p;
    mret (match observed with
          | None => Vanished
          | Some observed => Done (record_for_entry entry (ob_fingerprint observed) (dp_now deps))
          end)) in
  ensures (prepared entry temp)
    (match entry with
     | FileEntry _ _ _ _ _ =>
         temp ← ok_or (Internal "file install without temp") temp;
         written ← install_staged_file_from_directory deps p temp (entry_mode entry);
         mret (match written with
               | Written fingerprint => Done (record_for_entry entry fingerprint (dp_now deps))
               | WriteBlocked => ParentBlocked
               end)
     | DirectoryEntry mode => create_dir_no_follow deps p ;; set_mode deps p mode ;; finish
     | SymlinkEntry _ target =>
         attempt (fs_remove_file p) ;; on_path deps p (fs_symlink target p) ;; finish
     end)
    (λ r w, ∀ record, r = Done record → entry_on_disk entry (w_disk w !! p)).
Proof.
  intros finish. destruct entry as [size m id key epoch|mode|m target].
  - apply install_file_ensures.
  - apply ensures_pre with (stands_with none_or_dir); [|by intros w (? & _ & ?)].
    apply ensures_then; [apply keeps_none_or_dir_create|]. intros _.
    apply ensures_then; [apply keeps_none_or_dir_mode|]. intros _.
    eapply ensures_conseq; [apply finish_ensures|done|]. intros r w Hr record Hd.
    destruct (Hr record Hd) as (o & Ho & [?|?]); [done|]. cbn. by rewrite Ho.
  - apply ensures_pre with standing; [|by intros w (? & _)].
    apply ensures_then; [unfold fs_remove_file; keeps_go|]. intros _.
    eapply ensures_bind; [apply ensures_map_err, link_ensures|]. intros [].
    eapply ensures_conseq; [apply finish_ensures|done|]. intros r w Hr record Hd.
    destruct (Hr record Hd) as (o & Ho & Hl). cbn. by rewrite Ho.
Qed.

(** ** Preparing *)

Lemma keeps_edit_elsewhere x q f : q ≠ p → keeps (λ w, w_disk w !! p = x) (edit q f).
Proof.
  intros Hne w Hw. unfold edit. destruct (place w q); [|done..]. destruct (f object); [|done].
  cbn. by rewrite lookup_partial_alter_ne.
Qed.

#[local] Instance object_disk x : DiskOnly (λ w, w_disk w !! p = x).
Proof. intros w w' Hd _ Hw. by rewrite Hd. Qed.

Lemma make_parents_elsewhere x components : Forall (λ n, plain n = true) components → ∀ walked,
  (∀ a b, components = app a b → a ≠ [] → join (app walked a) ≠ p) →
  keeps (λ w, w_disk w !! p = x) (make_parents deps components walked).
Proof.
  induction 1 as [|c components Hc _ IH]; intros walked Hne; cbn [make_parents]; [apply keeps_ret|].
  destruct (String.eqb_spec c "") as [->|_]; [done|].
  assert (join (app walked [c]) ≠ p) as Hq by (by apply (Hne [c] components)).
  assert (keeps (λ w, w_disk w !! p = x) (make_parents deps components (app walked [c]))) as Hrest.
  { apply IH. intros a b -> Ha. rewrite <- (assoc_L app). by apply (Hne (c :: a) b). }
  assert (keeps (λ w, w_disk w !! p = x) (make_dir deps (join (app walked [c])))) as Hdir.
  { unfold make_dir, fs_create_dir. pose proof (keeps_edit_elsewhere x (join (app walked [c]))) as He.
    keeps_step; [|keeps_go]. keeps_step. keeps_step; [keeps_go|]. by apply He. }
  keeps_step; [keeps_go|]. repeat case_match; keeps_go.
Qed.

Lemma keeps_chain_object x : canonical p = true →
  keeps (λ w, w_disk w !! p = x) (make_parent_chain deps p).
Proof.
  intros Hc. destruct (anchored_dirs ∅ p Hc) as [Hp _]. unfold make_parent_chain.
  apply make_parents_elsewhere; [done|]. intros a b Hab Ha. cbn [app]. apply parent_ne, elem_parents.
  destruct (init_last (split slash p)) as [leaf Hl]; [apply split_nil|].
  exists a, (app b [leaf]). rewrite (assoc_L app), <- Hab. split_and!; [done|done|by destruct b|done].
Qed.

Lemma chain_ensures w0 entry temp : tree_ok (w_disk w0) → canonical p = true → staged entry temp w0 →
  ensures (λ w, w = w0) (make_parent_chain deps p)
    (λ c w, c = Ready → standing w ∧ staged entry temp w ∧ w_disk w !! p = w_disk w0 !! p).
Proof.
  intros Ht Hc Hst w ->. pose proof (make_parent_chain_spec deps p w0 Ht Hc) as Hs. unfold wp in Hs.
  pose proof (keeps_staged (make_parent_chain deps p) entry temp (λ t, keeps_temps_chain t p) w0 Hst) as Hk.
  pose proof (keeps_chain_object (w_disk w0 !! p) Hc w0 eq_refl) as Ho.
  destruct (make_parent_chain deps p w0) as [r w1]. destruct Hs as (_ & c & -> & Ha). cbn [snd] in Hk, Ho.
  intros ->. split_and!; [by apply Ha|done|done].
Qed.

(** The observation that guarded the operation, against the object itself. *)
Definition fits (observed : Observed) (o : option Object) : Prop :=
  ob_kind observed = Directory → none_or_dir o.

Lemma remove_file_ensures : ensures standing (fs_remove_file p) (λ _, stands_with (λ o, o = None)).
Proof.
  unfold fs_remove_file. apply ensures_then; [keeps_go|]. intros _.
  eapply ensures_conseq; [apply edit_ensures|done|]. intros _ w [Hs (before & Hb)]. split; [done|].
  by destruct before as [[]|]; simplify_eq.
Qed.

Lemma remove_dir_ensures : ensures standing (remove_empty_dir deps p)
  (λ r w, r = Removed → w_disk w !! p = None).
Proof.
  unfold remove_empty_dir. apply ensures_bind with (λ r w, match r with
    | Ok _ => w_disk w !! p = None | Err _ => True end).
  - apply (ensures_attempt _ _ (λ _ w, w_disk w !! p = None)). unfold fs_remove_dir.
    apply ensures_then; [keeps_go|]. intros _.
    apply ensures_get. intros w0 Hw0. eapply ensures_conseq; [apply edit_ensures|by intros w ->|].
    intros _ w [Hs (before & Hb)]. destruct before as [[]|]; try done.
    by destruct (has_children _ _); simplify_eq.
  - intros [[]|e]; [by apply ensures_ret|]. destruct (bool_decide _); [by apply ensures_ret|].
    apply ensures_throw.
Qed.

Lemma clear_ensures entry temp observed :
  ensures (λ w, (standing w ∧ fits observed (w_disk w !! p)) ∧ staged entry temp w)
    (clear_other_kind deps p entry observed) (λ b w, b = true → prepared entry temp w).
Proof.
  unfold clear_other_kind. destruct (bool_decide_reflect (ob_kind observed = entry_kind entry)) as [He|He].
  { apply ensures_ret. intros w [[Hs Hf] Ht] _. split_and!; [done..|]. destruct entry; try done.
    by apply Hf. }
  assert (ensures (λ w, (standing w ∧ fits observed (w_disk w !! p)) ∧ staged entry temp w)
            (on_path deps p (fs_remove_file p) ;; mret true) (λ b w, b = true → prepared entry temp w))
    as Hremove.
  { apply ensures_bind with (λ _, prepared entry temp); [|intros ?; apply ensures_ret; by intros w Hw _].
    apply ensures_map_err. eapply ensures_conseq.
    - apply ensures_and; [apply remove_file_ensures|].
      apply (keeps_staged _ entry temp). intros t. apply keeps_temps_remove_file.
    - by intros w [[? _] ?].
    - intros ? w [[Hs Hn] Ht]. split_and!; [done..|]. destruct entry; try done. by left. }
  destruct (ob_kind observed) eqn:Ek; [done| |done].
  apply ensures_pre with (λ w, standing w ∧ staged entry temp w); [|by intros w [[? _] ?]].
  apply ensures_then.
  - apply keeps_and; [unfold remove_empty_dir, fs_remove_dir; keeps_go|].
    apply keeps_staged. intros t. apply keeps_temps_remove_dir.
  - intros a. apply ensures_ret. intros w [Hs Ht] _. by destruct entry.
Qed.

Lemma install_entry_ensures w0 entry temp observed :
  tree_ok (w_disk w0) → canonical p = true → staged entry temp w0 →
  observe_syncable (ctx_of deps w0) p = Ok observed →
  ensures (λ w, w = w0) (install_entry deps p entry temp observed)
    (λ r w, ∀ record, r = Done record → entry_on_disk entry (w_disk w !! p)).
Proof.
  intros Ht Hc Hst Hobs. unfold install_entry. apply ensures_get. intros w1 ->.
  destruct (escapes_workspace _ _ _ _); [by apply ensures_ret|].
  eapply ensures_bind; [by apply chain_ensures|]. intros [|]; [|by apply ensures_ret].
  apply ensures_bind with (λ b w, b = true → prepared entry temp w).
  - destruct observed as [observed|].
    + assert (fits observed (w_disk w0 !! p)) as Hf.
      { intros Hd. destruct (w_disk w0 !! p) as [o|] eqn:Ho; [|by left]. right.
        apply (observe_present deps w0 p o) in Hobs; [|done..]. injection Hobs as ->.
        destruct o; try done. by eexists. }
      apply ensures_pre with (λ w, (standing w ∧ fits observed (w_disk w !! p)) ∧ staged entry temp w).
      2:{ intros w Hw. destruct (Hw eq_refl) as (? & ? & ->). done. }
      apply ensures_then; [|intros _; apply clear_ensures].
      apply keeps_and; [|apply keeps_staged; intros t; apply keeps_temps_preserve].
      apply keeps_and; [keeps_go|]. apply keeps_preserve_preimage. intros w w' Hd _ Hw. by rewrite Hd.
    + apply ensures_ret. intros w Hw _. destruct (Hw eq_refl) as (? & ? & Ho). split_and!; [done..|].
      destruct entry; try done. left. rewrite Ho. destruct (w_disk w0 !! p) as [o|] eqn:E; [|done].
      by apply (observe_present deps w0 p o) in Hobs.
  - intros [|]; [|by apply ensures_ret]. eapply ensures_pre; [apply install_body_ensures|]. auto.
Qed.

(** ** Deleting and re-moding *)

Lemma delete_ensures w0 : tree_ok (w_disk w0) → canonical p = true →
  ensures (λ w, w = w0) (checked_delete deps p) (λ r w, r = Deleted → w_disk w !! p = None).
Proof.
  intros Ht Hc. unfold checked_delete. apply ensures_get. intros w1 ->.
  destruct (prepare_parent_chain _ _ _) eqn:Hr; [|by apply ensures_ret].
  apply chain_not_behind in Hr; [|done].
  apply ensures_pre with (λ w, w_disk w = w_disk w0); [|by intros w ->].
  apply ensures_then; [apply keeps_preserve_preimage; intros w w' Hd _ Hw; by rewrite Hd|]. intros _.
  apply ensures_get. intros w1 Hw1. destruct (w_disk w0 !! p) as [o|] eqn:Ho.
  - assert (standing w1) as Hs by (unfold standing; rewrite Hw1; by eapply Ht).
    rewrite (lstat_anchored deps w1 p Hs), Hw1, Ho. destruct (env_unreadable _ _).
    { cbn [io_kind access_denied]. rewrite bool_decide_eq_false_2 by done. apply ensures_throw. }
    apply ensures_pre with standing; [|by intros w ->]. destruct (bool_decide _).
    + eapply ensures_bind; [apply remove_dir_ensures|]. intros []; apply ensures_ret; by auto.
    + eapply ensures_bind; [apply ensures_map_err, remove_file_ensures|]. intros []. apply ensures_ret.
      by intros w [_ Hn] _.
  - destruct (lstat (dp_env deps) w1 p) as [m|e] eqn:El.
    + apply lstat_present in El; [|by rewrite Hw1|by rewrite (place_disk w0 w1)].
      destruct El as (o & Ho' & _). rewrite Hw1 in Ho'. congruence.
    + destruct (bool_decide _); [|apply ensures_throw]. apply ensures_ret. intros w -> _. by rewrite Hw1.
Qed.

(** The permission bits are [mode]'s; a link has none of its own. *)
Definition has_mode (mode : FileMode) (o : option Object) : Prop :=
  match o with
  | Some (RegularFile _ m _) | Some (DirectoryNode m) | Some (SpecialFile m) =>
      ∃ old, m = chmod_mode old mode
  | Some (SymbolicLink _) => True
  | None => False
  end.

Lemma set_mode_ensures mode w0 : tree_ok (w_disk w0) → place w0 p ≠ Behind →
  ensures (λ w, w = w0) (set_mode deps p mode)
    (λ _ w, (w_disk w !! p = None ∧ w_disk w = w_disk w0) ∨ stands_with (has_mode mode) w).
Proof.
  intros Ht Hb. unfold set_mode. apply ensures_get. intros w1 ->.
  destruct (w_disk w0 !! p) as [o|] eqn:Ho.
  - assert (standing w0) as Hs by (by eapply Ht). rewrite (place_anchored w0 p Hs), Ho.
    assert (ensures (λ w, w = w0)
      (if env_unopenable (dp_env deps) p then throw (path_error deps p access_denied)
       else on_path deps p (fs_fchmod (dp_env deps) p mode))
      (λ _ w, (w_disk w !! p = None ∧ w_disk w = w_disk w0) ∨ stands_with (has_mode mode) w)) as Hfile.
    { destruct (env_unopenable _ _); [apply ensures_throw|]. apply ensures_map_err.
      unfold fs_fchmod. apply ensures_bind with (λ _ w, w_disk w = w_disk w0).
      - apply ensures_pre with (λ w, w_disk w = w_disk w0); [|by intros w ->].
        apply ensures_keeps, keeps_may_fail. intros w w' Hd _ Hw. by rewrite Hd.
      - intros _ w Hw. right. split; cbn.
        + unfold standing. cbn. split; [apply Hs|]. intros d Hin. rewrite lookup_alter_ne, Hw; [by apply Hs|].
          intros ->. by apply (parent_ne d d).
        + rewrite lookup_alter_eq, Hw, Ho. destruct o; cbn; try done; by eexists. }
    destruct o; try done. apply ensures_ret. intros w ->. right. split; [done|]. by rewrite Ho.
  - assert (∀ o, place w0 p ≠ Here (Some o)) as Hn.
    { intros o Hp. apply place_here in Hp. congruence. }
    destruct (place w0 p) as [[o|]| | |]; try done; [by destruct (Hn o)|..];
      apply ensures_ret; intros w ->; by left.
Qed.

(** ** Asides *)

Definition aside_on_disk (entry : ManifestEntry) (o : option Object) : Prop :=
  match entry with
  | FileEntry size _ id _ epoch =>
      ∃ content mode stamp, authentic epoch id size content ∧ o = Some (RegularFile content mode stamp)
  | SymlinkEntry _ target => o = Some (SymbolicLink (Some target))
  | DirectoryEntry _ => True
  end.

Lemma create_from_file_ensures source good :
  ensures (λ w, standing w ∧ temp_holds source good w) (create_no_replace_from_file deps p source)
    (λ _, stands_with (λ o, ∃ content mode stamp, good content ∧ o = Some (RegularFile content mode stamp))).
Proof.
  unfold create_no_replace_from_file. apply ensures_then.
  { apply keeps_map_err, keeps_and; [keeps_go|apply keeps_fault, temp_holds_fault]. }
  intros _. apply ensures_get. intros w0 [Hs (content & Hc & Hg)]. rewrite Hc.
  apply ensures_pre with standing; [|by intros w ->].
  apply ensures_bind with (λ c w, c = content ∧ standing w); [by intros w Hw|]. intros c.
  apply ensures_bind with (λ _ w, c = content ∧ stands_with (λ o, ∃ m st, o = Some (RegularFile "" m st)) w).
  - apply ensures_map_err. unfold fs_create_new. apply ensures_then; [apply keeps_and; keeps_go; by intros w|].
    intros _. apply ensures_get. intros w1 [-> Hw1].
    eapply ensures_conseq; [apply edit_ensures|by intros w ->|]. intros _ w [Hs' (before & Hb)].
    split; [done|]. split; [done|]. destruct before; simplify_eq. by eexists _, _.
  - intros _. apply ensures_bind with (λ _, stands_with
      (λ o, ∃ content mode stamp, good content ∧ o = Some (RegularFile content mode stamp))).
    + apply ensures_map_err. unfold fs_write_created. apply ensures_bind with (λ _ w, c = content ∧
        stands_with (λ o, ∃ m st, o = Some (RegularFile "" m st)) w).
      * apply ensures_keeps, keeps_and; keeps_go. by intros w.
      * intros _ w [-> [Hs' (m & st & Ho)]]. split; cbn.
        -- unfold standing. cbn. split; [apply Hs'|]. intros d Hin. rewrite lookup_alter_ne; [by apply Hs'|].
           intros ->. by apply (parent_ne d d).
        -- rewrite lookup_alter_eq, Ho. by eexists _, _, _.
    + intros _. apply ensures_keeps. keeps_go.
Qed.

Lemma place_aside_ensures path entry temp :
  ensures (λ w, standing w ∧ staged entry temp w) (place_aside deps path p entry temp)
    (λ r w, r = Done p ∧ aside_on_disk entry (w_disk w !! p)).
Proof.
  unfold place_aside. apply ensures_bind with (λ _ w, aside_on_disk entry (w_disk w !! p)).
  2:{ intros _. by apply ensures_ret. }
  destruct entry as [size m id key epoch|m|m target].
  - apply ensures_bind with (λ r w, standing w ∧ temp_holds (fst r) (authentic epoch id size) w).
    + destruct temp as [leaf|]; [by apply ensures_ret|].
      apply ensures_bind with (λ leaf w, standing w ∧ temp_holds leaf (authentic epoch id size) w);
        [|intros leaf; by apply ensures_ret].
      eapply ensures_conseq; [apply ensures_and; [apply download_ensures|]|by intros w [? _]|by intros ? w []].
      apply keeps_download, _.
    + intros [source remove_after]. cbn [fst].
      eapply ensures_bind; [apply ensures_attempt, create_from_file_ensures|]. intros r.
      apply ensures_bind with (λ _ w, match r with
        | Ok _ => aside_on_disk (FileEntry size m id key epoch) (w_disk w !! p) | Err _ => True end).
      * destruct r as [[]|e]; [|by intros w _; destruct remove_after; [unfold attempt; rewrite bind_run; destruct (scratch_unlink _ _) as [[]]|]].
        eapply ensures_conseq; [apply ensures_keeps|intros w Hw; exact Hw|by intros _ w [_ Hw]]. keeps_go.
      * intros _ w Hw. unfold of_result. by destruct r.
  - by intros w Hw; destruct (create_dir_no_follow _ _ w) as [[]].
  - apply ensures_pre with standing; [|by intros w []].
    eapply ensures_conseq; [apply ensures_map_err, link_ensures|done|]. by intros _ w [_ ->].
Qed.

End Placing.

(** ** An operation *)

(** The outcome of [op] against the disk it leaves. *)
Definition reported (op : FsOp) (applied : Applied) (disk : gmap string Object) : Prop :=
  match applied with
  | Upsert path _ =>
      path = op_path op ∧
      match op_kind op with
      | Install entry => entry_on_disk entry (disk !! path)
      | ModeChange entry => has_mode (entry_mode entry) (disk !! path)
      | DeleteOp | ConflictAside _ => False
      end
  | Remove path => path = op_path op ∧ op_kind op = DeleteOp ∧ disk !! path = None
  | Aside path => ∃ entry, op_entry (op_kind op) = Some entry ∧ aside_on_disk entry (disk !! path)
  | KeptLocal path => path = op_path op
  | Unsyncable _ _ => False
  end.

Section Operation.
Context (Hhex : hex_digest seed_hex).

Lemma materialize_aside_ensures path entry temp w0 : tree_ok (w_disk w0) → staged entry temp w0 →
  ensures (λ w, w = w0) (materialize_aside deps path entry temp)
    (λ r w, ∀ aside, r = Done aside → aside_on_disk entry (w_disk w !! aside)).
Proof.
  intros Ht Hst. unfold materialize_aside. apply ensures_get. intros w1 ->.
  destruct (free_aside_path _ _ _) as [aside|] eqn:Ef; [|by apply ensures_ret].
  apply free_aside_path_spec in Ef as (_ & Hu & _ & _); [|done].
  destruct (escapes_workspace _ _ _ _); [by apply ensures_ret|].
  assert (canonical aside = true) as Hc.
  { unfold usable_aside_path in Hu. destruct (publishable_workspace_path _ _ _) as [[]|] eqn:Ep; [|done].
    by eapply publishable_canonical. }
  eapply ensures_bind; [by apply (chain_ensures aside w0 entry temp)|].
  intros [|]; [|by apply ensures_ret].
  eapply ensures_conseq; [apply (place_aside_ensures aside path entry temp)| |].
  - intros w Hw. destruct (Hw eq_refl) as (? & ? & _). done.
  - intros r w [-> Ha] aside' [= <-]. done.
Qed.

Lemma keep_local_ensures op temp w0 : tree_ok (w_disk w0) →
  (∀ entry, op_entry (op_kind op) = Some entry → staged entry temp w0) →
  ensures (λ w, w = w0) (apply_keep_local deps op temp) (λ a w, reported op a (w_disk w)).
Proof.
  intros Ht Hst. unfold apply_keep_local.
  destruct (op_kind op) as [entry| |entry|entry] eqn:Ek; try by apply ensures_ret.
  all: specialize (Hst entry eq_refl); eapply ensures_bind; [by apply materialize_aside_ensures|];
    intros r; apply ensures_ret; intros w Hw; destruct r; try done; cbn; rewrite Ek;
    exists entry; (split; [done|by apply Hw]).
Qed.

Lemma execute_op_ensures op temp observed w0 :
  tree_ok (w_disk w0) → canonical (op_path op) = true →
  (∀ entry, op_entry (op_kind op) = Some entry → staged entry temp w0) →
  observe_syncable (ctx_of deps w0) (op_path op) = Ok observed →
  ensures (λ w, w = w0) (execute_op deps op temp observed) (λ a w, reported op a (w_disk w)).
Proof.
  intros Ht Hc Hst Hobs. unfold execute_op. destruct (op_kind op) as [entry| |entry|entry] eqn:Ek.
  - apply ensures_bind with (λ r w, tree_ok (w_disk w) ∧
      ∀ record, r = Done record → entry_on_disk entry (w_disk w !! op_path op)).
    + intros w ->.
      pose proof (install_entry_ensures (op_path op) w0 entry temp observed Ht Hc (Hst _ eq_refl) Hobs w0 eq_refl) as Hi.
      pose proof (install_entry_frame deps (op_path op) entry temp observed w0 Ht Hc) as (_ & Hf & _).
      by destruct (install_entry _ _ _ _ _ w0) as [[]].
    + intros r. apply ensures_get_state. intros w1 [Ht1 Hr].
      destruct r; try (by apply ensures_ret; intros w ->; cbn).
      * apply ensures_ret. intros w ->. cbn. rewrite Ek. split; [done|by eapply Hr].
      * apply keep_local_ensures; [done|]. intros e _. by destruct e.
  - eapply ensures_bind; [by apply delete_ensures|]. intros r. apply ensures_ret. intros w Hw.
    destruct r; [|done]. cbn. auto.
  - apply ensures_get. intros w1 ->.
    destruct (prepare_parent_chain _ _ _) eqn:Hr; [|by apply ensures_ret].
    apply chain_not_behind in Hr; [|done].
    eapply ensures_bind; [by apply (set_mode_ensures (op_path op))|]. intros _ w Hw.
    rewrite bind_run, observe_now_run. destruct (observe_syncable (ctx_of deps w) _) as [[o|]|e] eqn:Eo; [|done..].
    destruct Hw as [[Hn Hd]|[Hs Hm]]; cbn; rewrite Ek; (split; [done|]); [exfalso|done].
    unfold observe_syncable, observe_classified in Eo.
    cbn [ctx_of ctx_os os_of symlink_metadata read_link] in Eo.
    destruct (lstat (dp_env deps) w (op_path op)) as [m|err] eqn:El.
    + apply lstat_present in El; [|by rewrite Hd|by rewrite (place_disk w0 w)].
      destruct El as (o' & Ho' & _). congruence.
    + unfold refused in Eo. by repeat case_match.
  - by apply keep_local_ensures; [|rewrite Ek].
Qed.

Lemma guarded_op_ensures op temp w0 :
  tree_ok (w_disk w0) → canonical (op_path op) = true →
  (∀ entry, op_entry (op_kind op) = Some entry → staged entry temp w0) →
  ensures (λ w, w = w0) (guarded_op deps op temp) (λ a w, reported op a (w_disk w)).
Proof.
  intros Ht Hc Hst w ->. unfold guarded_op. rewrite bind_run, observe_now_run.
  destruct (observe_syncable _ _) as [observed|e] eqn:Eo; [|done].
  rewrite bind_run. unfold get. cbn beta iota. rewrite bind_run. unfold of_result.
  destruct (preimage_matches _ _ _ _) as [matches|e]; [|done].
  destruct (negb matches && _); [by apply (keep_local_ensures op temp w0)|].
  by apply (execute_op_ensures op temp observed w0).
Qed.

End Operation.

#[local] Instance tree_ok_disk : DiskOnly (λ w, tree_ok (w_disk w)).
Proof. intros w w' Hd _ Hw. by rewrite Hd. Qed.

(** C13: What an operation reports is what it did.  Whatever the transport served and
    whichever calls failed on the way: an install that is recorded leaves, under the path,
    a file whose bytes have the size and the keyed identity the manifest names and whose
    permissions are the entry's, or the directory, or the link with the manifest's
    target; a recorded delete leaves nothing there; a recorded mode change leaves the
    entry's permissions; and where the operation stepped aside for local work, the
    remote's file or link stands, authentic, under the aside it reports. *)
Theorem applied_as_reported op manifest_key (e e' : Engine) applied :
  hex_digest seed_hex → tree_ok (w_disk (en_world e)) → canonical (op_path op) = true →
  apply_op deps op manifest_key e = (Ok applied, e') →
  reported op applied (w_disk (en_world e')).
Proof.
  intros Hhex Ht Hc. unfold apply_op. rewrite bind_run. unfold on_world at 1.
  pose proof (keeps_stage_write_temp deps (λ w, tree_ok (w_disk w)) op (en_world e) Ht) as Htree.
  pose proof (λ entry He, stage_write_temp_ensures op entry He (en_world e) I) as Hst.
  destruct (stage_write_temp deps op (en_world e)) as [[temp|err] w1]; [|done].
  rewrite bind_run. unfold on_store. cbn [en_store].
  destruct (open_intent _ _) as [[[]|err] s]; [|done].
  unfold on_world. pose proof (guarded_op_ensures Hhex op temp w1 Htree Hc Hst w1 eq_refl) as Hg.
  cbn. destruct (guarded_op deps op temp w1) as [[a|err] w2]; [|done]. by intros [= <- <-].
Qed.

End Reported.

(** ** Witness *)

#[local] Existing Instance w_hash.
#[local] Existing Instance w_seed.
#[local] Existing Instance w_envelope.

Lemma applied_as_reported_witness :
  let r := apply_op w_deps w_install "m" (w_engine "old") in
  ∃ record, fst r = Ok (Upsert "kept" record) ∧
    reported w_deps w_install (Upsert "kept" record) (w_disk (en_world (snd r))).
Proof.
  eexists. split; [vm_compute; reflexivity|].
  eapply (applied_as_reported w_deps w_install "m" (w_engine "old")).
  - apply w_seed_hex.
  - apply w_tree_ok.
  - reflexivity.
  - vm_compute; reflexivity.
Defined.
