(* ===== verification/ReplayTheorems.v ===== *)
(** * What crash recovery promises

    A crash may leave an intent at any boundary of its operation, and the user may
    have worked on the path since.  Replay decides from the journal and the disk
    alone; these theorems say what it cannot destroy. *)

From S2P Require Import Prelude.
From S2P Require Import MergeMatrix.
From S2P Require Import MergePlans.
From S2P Require Import MergeTheorems.
From S2P Require Import Paths.
From S2P Require Import ManifestTypes.
From S2P Require Import FsGuard.
From S2P Require Import Asides.
From S2P Require Import Disk.
From S2P Require Import Materialize.
From S2P Require Import Store.
From S2P Require Import Apply.
From S2P Require Import DiskLemmas.
From S2P Require Import ApplyFrames.
From S2P Require Import ApplyTheorems.
Local Open Scope string_scope.
Open Scope Z_scope.

(** The preimage a replay reads from the journal. *)
Definition intent_preimage (intent : Intent) : Result PreimagePayload PullError :=
  match in_expected_preimage intent with
  | None => Ok preimage_absent
  | Some payload => decoded payload
  end.

Section Replay.
Context `{ContentHash} `{SeedHash} `{Envelope}.
Context (deps : Deps) (Hmax : is_u64 (dp_max_seal_bytes deps)) (Hhex : hex_digest seed_hex).

(** The object is the one the intent expected to replace. *)
Definition foreseen (intent : Intent) (o : Object) : Prop :=
  ∃ preimage, intent_preimage intent = Ok preimage ∧ object_matches (dp_crypto deps) preimage o.

(** The boundaries at which the replay acts on the path again. *)
Definition reapplies (boundary : RecoveryBoundary) : Prop :=
  match recovery_action boundary with Reapply | RestoreOrComplete => True | _ => False end.

Lemma boundary_reapplies operation facts : reapplies (recovery_boundary operation facts) →
  rv_target_matches_preimage facts = true ∨ rv_target_present facts = false.
Proof.
  unfold reapplies, recovery_boundary, recovery_action.
  destruct facts as [[] [] [] [] []], operation; cbn; auto.
Qed.

(** Planning reads. *)
Lemma recovery_plan_spec intent w : tree_ok (w_disk w) →
  wp (recovery_plan deps intent) (λ r w', w' = w ∧
    ∀ target boundary, r = Ok (target, boundary) → reapplies boundary →
      ∀ o, w_disk w !! in_path intent = Some o → foreseen intent o) w.
Proof.
  intros Ht. unfold recovery_plan, wp. fold (intent_preimage intent).
  set (journalled := match in_target_record intent with Some _ => _ | None => _ end).
  rewrite bind_run. unfold of_result at 1. destruct journalled as [target|e]; [|done].
  rewrite bind_run. unfold of_result at 1.
  destruct (intent_preimage intent) as [preimage|e] eqn:Ep; [|done].
  rewrite bind_run, observe_now_run. destruct (observe_syncable _ _) as [observed|e] eqn:Eo; [|done].
  rewrite bind_run. unfold get. cbn beta iota. rewrite bind_run. unfold of_result.
  destruct (recovery_facts _ _ _ _ _ _) as [facts|e] eqn:Ef; [|done]. cbn. split; [done|].
  intros t b [= <- <-] Hb o Ho. exists preimage. split; [done|].
  apply (observe_present deps w _ o) in Eo as ->; [|done..].
  unfold recovery_facts in Ef. destruct (target_matches _ _ _ _); [|done]. cbn in Ef.
  destruct (preimage_matches _ _ _ _) as [matches|] eqn:Em; [|done]. cbn in Ef.
  injection Ef as <-. apply boundary_reapplies in Hb as [Hb|Hb]; cbn in Hb; [|done].
  subst matches. by apply (guard_present deps Hmax w (in_path intent)).
Qed.

Lemma bind_frame {A B} p (m : PL A) (f : A → PL B) w :
  tree_ok (w_disk w) → frame p w (snd (m w)) →
  (∀ a w', tree_ok (w_disk w') → frame p w' (snd (f a w'))) → frame p w (snd ((m ≫= f) w)).
Proof.
  intros Ht Hm Hf. rewrite bind_run. destruct (m w) as [[a|e] w1]; [|done]. cbn [snd] in Hm.
  eapply frame_trans; [done|]. apply Hf, Hm.
Qed.

Lemma frame_refl p w : tree_ok (w_disk w) → frame p w w.
Proof. intros Ht. by apply extends_frame, extends_refl. Qed.

Lemma reapply_install_frame intent target commit w :
  tree_ok (w_disk w) → canonical (in_path intent) = true → tr_op target = TagInstall →
  frame (in_path intent) w (snd (reapply_target deps intent target commit w)).
Proof.
  intros Ht Hc Hop. unfold reapply_target. rewrite Hop.
  apply bind_frame; [done|by apply frame_refl|]. intros entry w1 Ht1.
  apply bind_frame; [done|by apply frame_refl|]. intros existing w2 Ht2.
  apply bind_frame; [done| |].
  - pose proof (install_entry_frame deps (in_path intent) entry None existing w2 Ht2 Hc) as Hf.
    unfold attempt. by destruct (install_entry _ _ _ _ _ w2).
  - intros installed w3 Ht3. apply bind_frame; [done| |intros; by apply frame_refl].
    destruct installed as [m|[]]; first [by apply frame_refl|by apply reinstall_frame].
Qed.

Lemma reapply_leaves intent target commit (gone : Object → Prop) w :
  tree_ok (w_disk w) → canonical (in_path intent) = true →
  (∀ o, w_disk w !! in_path intent = Some o → gone o) →
  leaves (in_path intent) gone w (snd (reapply_target deps intent target commit w)).
Proof.
  intros Ht Hc Hgone. assert (∀ o, w_disk w !! in_path intent = Some o → work o → gone o) as Hg by eauto.
  destruct (tr_op target) eqn:Hop;
    [by apply frame_leaves; [apply reapply_install_frame|]| | |]; unfold reapply_target; rewrite Hop.
  - apply frame_leaves; [|done]. rewrite bind_run.
    pose proof (checked_delete_frame deps (in_path intent) w Ht Hc) as Hf.
    by destruct (checked_delete _ _ w) as [[]].
  - rewrite bind_run. unfold of_result. destruct (to_entry target) as [entry|e];
      [|by apply unchanged_leaves]. rewrite bind_run. unfold get. cbn beta iota.
    destruct (prepare_parent_chain _ _ _) eqn:Hr; [|by apply unchanged_leaves].
    pose proof (set_mode_leaves deps (in_path intent) (entry_mode entry) gone w Ht Hc
                  (chain_not_behind deps w (in_path intent) Hc Hr)) as Hl.
    rewrite bind_run. destruct (set_mode _ _ _ w) as [[[]|e] w1]; [|done].
    rewrite bind_run, observe_now_run. by destruct (observe_syncable _ _).
  - apply extends_leaves. rewrite bind_run. unfold of_result at 1.
    destruct (to_entry target) as [entry|e]; [|done]. rewrite bind_run. unfold get. cbn beta iota.
    rewrite bind_run. unfold of_result. destruct (aside_already_materialized _ _ _ _) as [[]|e]; [done| |done].
    cbn [negb]. rewrite !bind_run.
    pose proof (materialize_aside_extends deps (in_path intent) entry None w Hhex Ht) as Hx.
    destruct (materialize_aside _ _ _ _ w) as [[]]; exact Hx.
Qed.

(** ** One intent *)

Lemma recover_one_leaves intent state w :
  tree_ok (w_disk w) → canonical (in_path intent) = true →
  leaves (in_path intent) (foreseen intent) w (snd (recover_one deps intent state w)).
Proof.
  intros Ht Hc. unfold recover_one. destruct state as [commit keep_temps].
  pose proof (recovery_plan_spec intent w Ht) as Hp. unfold wp in Hp. rewrite bind_run. unfold attempt at 1.
  destruct (recovery_plan deps intent w) as [[[target boundary]|e] w'];
    destruct Hp as [-> Hp]; [|by apply unchanged_leaves].
  specialize (Hp target boundary eq_refl). rewrite bind_run. unfold attempt.
  enough (leaves (in_path intent) (foreseen intent) w
            (snd (execute_recovery deps intent target boundary commit w))) as Hl
    by (by destruct (execute_recovery _ _ _ _ _ w) as [[]]).
  unfold execute_recovery. unfold reapplies in Hp.
  destruct (recovery_action boundary); try (by apply unchanged_leaves);
    try (by apply reapply_leaves; [done..|apply Hp]).
  unfold finalize_installed. destruct (tr_op target); try (by apply unchanged_leaves);
    rewrite bind_run, observe_now_run;
    (destruct (observe_syncable _ _) as [[observed|]|e]; [|by apply unchanged_leaves..]);
    rewrite bind_run; unfold of_result; (destruct (to_record _ _ _); by apply unchanged_leaves).
Qed.

(** ** The journal *)

Section Journal.
Context (fate : string → Object → Prop) `{!ByContent fate} (w0 : World).

Lemma keeps_replay_intents intents replay :
  Forall (λ intent, canonical (in_path intent) = true ∧
    ∀ o, foreseen intent o → fate (in_path intent) o) intents →
  keeps (survived fate w0) (replay_intents deps replay intents).
Proof.
  intros Hf. revert replay.
  induction Hf as [|intent intents [Hc Hi] _ IH]; intros replay; cbn [replay_intents]; [apply keeps_ret|].
  keeps_step.
  { apply keeps_on_world; [done|]. intros w Ht.
    eapply leaves_survives; [by apply recover_one_leaves|done]. }
  destruct a as [[[]|e] [commit keep_temps]]; [apply IH|]. destruct (replay_verdict e); [apply keeps_throw|apply IH].
Qed.

Lemma keeps_sweep_temps keep : keeps (survived fate w0) (on_world (sweep_orphan_temps keep)).
Proof.
  apply keeps_on_world_scratch; [done|]. intros I HI. unfold sweep_orphan_temps.
  assert (∀ names, keeps I (unlink_temps names)) as Hu.
  { intros names. induction names; cbn [unlink_temps]; keeps_go. }
  keeps_go.
Qed.

Lemma keeps_sweep_quarantine keep : keeps (survived fate w0) (on_world (sweep_orphan_quarantine keep)).
Proof.
  apply keeps_on_world_scratch; [done|]. intros I HI. unfold sweep_orphan_quarantine.
  pose proof (@keeps_drop_preimage I HI) as Hd.
  assert (∀ names, keeps I (drop_preimages names)) as Hu.
  { intros names. induction names; cbn [drop_preimages]; keeps_go. }
  keeps_go.
Qed.

End Journal.

(** Some intent of the journal expected this object at [q]. *)
Definition awaited (intents : gmap string Intent) (q : string) (o : Object) : Prop :=
  ∃ key intent, intents !! key = Some intent ∧ in_path intent = q ∧ foreseen intent o.

#[export] Instance awaited_by_content intents : ByContent (awaited intents).
Proof.
  intros q o o' Hc (key & intent & Hi & Hq & preimage & Hp & Hm). exists key, intent.
  split_and!; [done..|]. exists preimage. split; [done|]. by eapply object_matches_content.
Qed.

Lemma pending_intents_stored s intents s' : pending_intents s = (Ok intents, s') →
  Forall (λ intent, ∃ key, ms_intents s !! key = Some intent) intents.
Proof.
  unfold pending_intents. rewrite bind_run. destruct (statement s) as [[[]|e] s1] eqn:Es; [|done].
  assert (ms_intents s1 = ms_intents s) as Heq.
  { unfold statement in Es. by destruct (ms_faults s) as [|[] fs]; simplify_eq. }
  rewrite bind_run. unfold get. cbn beta iota. intros [= <- _]. apply Forall_forall.
  intros intent (key & _ & Hk)%list_elem_of_omap. exists key. by rewrite <- Heq.
Qed.

(** C15: Crash recovery destroys no local work.  Whatever the journal holds, whatever
    boundary each operation had reached, whatever happened to the disk since and
    whichever calls fail, replaying the journal writes nothing outside the workspace,
    leaves a well-formed tree, and keeps every file and every link that is not
    exactly the preimage its intent recorded before acting. *)
Theorem recovery_keeps_local_work (e : Engine) :
  (∀ key intent, ms_intents (en_store e) !! key = Some intent → canonical (in_path intent) = true) →
  tree_ok (w_disk (en_world e)) →
  survives (awaited (ms_intents (en_store e))) (en_world e)
    (en_world (snd (recover_intents deps e))).
Proof.
  intros Hcan Ht. set (fate := awaited (ms_intents (en_store e))). set (w0 := en_world e).
  assert (survived fate w0 e) as Hstart by (by apply extends_survives, extends_refl).
  unfold recover_intents. rewrite bind_run. unfold on_store at 1.
  destruct (pending_intents (en_store e)) as [[intents|err] s] eqn:Ep; [|done].
  apply pending_intents_stored in Ep. cbn beta iota.
  match goal with |- survives _ _ (en_world (snd (?m ?s))) =>
    enough (keeps (survived fate w0) m) as Hk by (by apply Hk) end.
  pose proof (@keeps_on_store fate w0) as Hstore.
  pose proof (keeps_sweep_temps fate w0). pose proof (keeps_sweep_quarantine fate w0).
  keeps_step.
  { apply keeps_on_world; [apply _|]. intros w Hw. by apply extends_survives, lock_if_aux_extends. }
  assert (∀ replay, keeps (survived fate w0) (replay_intents deps replay intents)) as Hreplay.
  { intros replay. apply keeps_replay_intents; [apply _|]. eapply Forall_impl; [exact Ep|].
    intros intent [key Hi]. split; [by eapply Hcan|]. intros o Hf. by exists key, intent. }
  destruct intents as [|intent intents]; [by keeps_step|].
  keeps_step; [done|]. keeps_step; [apply Hstore|]. keeps_step; [apply keeps_get|].
  keeps_step; [apply Hstore|]. by keeps_step.
Qed.

End Replay.

(** ** Witness

    A crash left the install of [kept] journalled; the user has since rewritten it. *)

#[local] Existing Instance w_hash.
#[local] Existing Instance w_seed.
#[local] Existing Instance w_envelope.

Definition w_journal : gmap string Intent :=
  {["kept" := build_intent w_deps w_install None "m"]}.

Definition w_crashed : Engine := {| en_store := w_store w_journal; en_world := w_world "newer" |}.

Lemma recovery_keeps_local_work_witness :
  survives (awaited w_deps w_journal) (w_world "newer")
    (en_world (snd (recover_intents w_deps w_crashed))).
Proof.
  apply (recovery_keeps_local_work w_deps ltac:(cbv; split; discriminate) w_seed_hex w_crashed).
  - cbn. unfold w_journal. intros key intent [<- <-]%lookup_singleton_Some. reflexivity.
  - apply w_tree_ok.
Defined.
