(* ===== verification/OrderTheorems.v ===== *)
(** * The order and the size of what a transaction does

    A transaction takes every operation of its plan once.  Deletes come first and from the leaves up; everything else follows from the roots
    down, git objects before the refs that name them; and no window asks the transport
    for more than it may hold. *)

From stdpp Require Import strings sorting.
From S2P Require Import Prelude.
From S2P Require Import MergeMatrix.
From S2P Require Import MergeTheorems.
From S2P Require Import Paths.
From S2P Require Import ManifestTypes.
From S2P Require Import Asides.
From S2P Require Import Ordered.
From S2P Require Import FsGuard.
From S2P Require Import Disk.
From S2P Require Import Materialize.
From S2P Require Import Store.
From S2P Require Import Apply.
From S2P Require Import DiskLemmas.
From S2P Require Import ApplyTheorems.
Local Open Scope string_scope.
Open Scope Z_scope.

(** ** Parents come first *)

Lemma parent_leb d p : d ∈ parents p → String.leb d p = true.
Proof. intros [r ->]%parent_prefix. apply leb_app. Qed.

(** A child does not come before its parent in the order of the paths. *)
Lemma parent_first d p : d ∈ parents p → String.leb p d = true → False.
Proof.
  intros Hd Hl. apply (parent_ne d p Hd). apply String.leb_antisym; [by apply parent_leb|done].
Qed.

(** ** The order of operations *)

Lemma op_le_inv a b : op_le a b →
  (op_kind b = DeleteOp → op_kind a = DeleteOp ∧ String.leb (op_path b) (op_path a) = true) ∧
  (op_kind a ≠ DeleteOp → op_kind b ≠ DeleteOp ∧
     (git_apply_rank (op_path a) < git_apply_rank (op_path b) ∨
      (git_apply_rank (op_path a) = git_apply_rank (op_path b) ∧
       String.leb (op_path a) (op_path b) = true))).
Proof.
  unfold op_le, delete_phase, within_phase_le.
  destruct (op_kind a), (op_kind b); intros [?|[? Hw]]; try lia; (split; intros ?; try done);
    (split; [done|]); apply orb_true_iff in Hw as [Hw|Hw]; bool_to_prop; auto.
Qed.

#[export] Instance op_le_total : Total op_le.
Proof.
  intros a b. unfold op_le, delete_phase, within_phase_le.
  destruct (op_kind a), (op_kind b); cbn; try (by left; left); try (by right; left);
    destruct (String.leb_total (op_path a) (op_path b)) as [Hl|Hl]; rewrite Hl; try (by left; right);
    try (by right; right);
    destruct (Z.lt_total (git_apply_rank (op_path a)) (git_apply_rank (op_path b))) as [Hr|[Hr|Hr]];
    first [left; right; split; [done|]; apply orb_true_iff; first [left; lia|right; apply andb_true_iff; split; [lia|done]]
          |right; right; split; [done|]; apply orb_true_iff; first [left; lia|right; apply andb_true_iff; split; [lia|done]]].
Qed.

#[export] Instance op_le_trans : Transitive op_le.
Proof.
  intros a b c. unfold op_le, delete_phase, within_phase_le. pose proof leb_trans as Ht.
  destruct (op_kind a), (op_kind b), (op_kind c); cbn; intros [?|[? H1]] [?|[? H2]]; try lia;
    try (by left); right; (split; [done|]); try (by eapply Ht);
    apply orb_true_iff in H1 as [H1|H1]; apply orb_true_iff in H2 as [H2|H2]; bool_to_prop;
    apply orb_true_iff; first [left; lia|right; apply andb_true_iff; split; [lia|by eapply Ht]].
Qed.

Lemma order_ops_before ops l1 a l2 b l3 :
  order_ops ops = app l1 (a :: app l2 (b :: l3)) → op_le a b.
Proof.
  intros Ho. assert (StronglySorted op_le (order_ops ops)) as Hs
    by (apply Sorted_StronglySorted; [apply _|apply Sorted_merge_sort, _]).
  rewrite Ho in Hs. apply StronglySorted_app in Hs as (_ & _ & Hs).
  apply StronglySorted_cons in Hs as [Hs _]. apply Forall_app in Hs as [_ Hs].
  by apply Forall_cons in Hs as [? _].
Qed.

(** The order of the operations a transaction got to. *)
Lemma prefix_ordered ops taken rest : order_ops ops = app taken rest → ∀ l1 a l2 b l3, taken = app l1 (a :: app l2 (b :: l3)) →
  (op_kind b = DeleteOp → op_kind a = DeleteOp ∧ op_path a ∉ parents (op_path b)) ∧
  (op_kind a ≠ DeleteOp →
     git_apply_rank (op_path a) ≤ git_apply_rank (op_path b) ∧
     (git_apply_rank (op_path a) = git_apply_rank (op_path b) → op_path b ∉ parents (op_path a))).
Proof.
  intros Hs l1 a l2 b l3 ->.
  assert (order_ops ops = app l1 (a :: app l2 (b :: app l3 rest))) as [Hd Hn]%order_ops_before%op_le_inv.
  { rewrite Hs, <- app_assoc. cbn. by rewrite <- app_assoc. }
  split.
  - intros [Ha Hl]%Hd. split; [done|]. intros Hp. by eapply parent_first.
  - intros [_ [Hr|[Hr Hl]]]%Hn; (split; [lia|]); intros He Hp; [lia|]. by eapply parent_first.
Qed.

(** ** The turns of a transaction *)

(** What became of an operation: a lock of its Git directory put it off, or it was applied. *)
Inductive Turn := PutOff | Ran (result : Result Applied PullError).

(** Only a fault of one path lets the transaction go on. *)
Definition goes_on (result : Result Applied PullError) : bool :=
  match result with Ok _ | Err (PathError _) => true | Err _ => false end.

Definition deferred_of (trace : list (FsOp * Turn)) : gset WorkspacePath :=
  foldr (λ '(op, turn) paths, match turn with PutOff => {[op_path op]} ∪ paths | Ran _ => paths end) ∅ trace.

Definition applied_of (trace : list (FsOp * Turn)) : list WorkspacePath :=
  omap (λ '(op, turn), match turn with PutOff => None | Ran _ => Some (op_path op) end) trace.

Section Transaction.
Context `{ContentHash} `{SeedHash} `{Envelope}.
Context (deps : Deps) (prefetch : gmap BlobKey Z → option (gmap BlobKey bytes)) (manifest_key : ManifestKey).

(** The turns of a transaction, from the machine and what it knows of the Git locks to the
    machine they leave.  The blobs at hand are those of the window the operation is in. *)
Inductive turns (windows : list (list FsOp)) : GitLockCache → Engine → list (FsOp * Turn) → Engine → Prop :=
| turns_end cache e : turns windows cache e [] e
| turns_put_off cache cache' e op trace e' :
    is_active (dp_env deps) (en_world e) cache (op_path op) = (true, cache') →
    turns windows cache' e trace e' →
    turns windows cache e ((op, PutOff) :: trace) e'
| turns_ran cache cache' window blobs e op result e1 trace e' :
    is_active (dp_env deps) (en_world e) cache (op_path op) = (false, cache') →
    window ∈ windows → op ∈ window → prefetch (blob_prefetch_requests window) = Some blobs →
    apply_op (with_prefetched blobs deps) op manifest_key e = (result, e1) →
    (goes_on result = false → trace = []) →
    turns windows cache' e1 trace e' →
    turns windows cache e ((op, Ran result) :: trace) e'.

Lemma record_applied_deferred commit outcome applied :
  po_deferred (record_applied commit outcome applied).2 = po_deferred outcome.
Proof. by destruct applied. Qed.

(** How far the turns got: all of [ops], or up to the one that failed. *)
Definition progressed (progress : Progress) (ops : list FsOp) (trace : list (FsOp * Turn)) (r : Result Progress PullError) : Prop :=
  trace.*1 `prefix_of` ops ∧
  match r with
  | Ok progress' =>
      trace.*1 = ops ∧ Forall (λ x, match x.2 with PutOff => True | Ran result => goes_on result = true end) trace ∧
      pr_intent_ids progress' = app (pr_intent_ids progress) (applied_of trace) ∧
      po_deferred (pr_outcome progress') = po_deferred (pr_outcome progress) ∪ deferred_of trace
  | Err _ => True
  end.

Lemma apply_turn_run blobs progress op e r e' :
  apply_turn (with_prefetched blobs deps) manifest_key progress op e = (r, e') →
  (∃ cache', is_active (dp_env deps) (en_world e) (pr_git_locks progress) (op_path op) = (true, cache') ∧ e' = e ∧
     ∃ progress', r = Ok progress' ∧ pr_git_locks progress' = cache' ∧ pr_intent_ids progress' = pr_intent_ids progress ∧
       po_deferred (pr_outcome progress') = {[op_path op]} ∪ po_deferred (pr_outcome progress)) ∨
  (∃ cache' result, is_active (dp_env deps) (en_world e) (pr_git_locks progress) (op_path op) = (false, cache') ∧
     apply_op (with_prefetched blobs deps) op manifest_key e = (result, e') ∧
     (if goes_on result
      then ∃ progress', r = Ok progress' ∧ pr_git_locks progress' = cache' ∧
             pr_intent_ids progress' = app (pr_intent_ids progress) [op_path op] ∧
             po_deferred (pr_outcome progress') = po_deferred (pr_outcome progress)
      else ∃ error, r = Err error)).
Proof.
  unfold apply_turn. rewrite bind_run. unfold get. cbn beta iota zeta.
  change (dp_env (with_prefetched blobs deps)) with (dp_env deps).
  destruct (is_active _ _ _ _) as [[] cache'].
  { intros [= <- <-]. left. exists cache'. split; [done|]. split; [done|]. by eexists. }
  intros Hr. right. rewrite bind_run in Hr. unfold attempt in Hr.
  destruct (apply_op _ op manifest_key e) as [result e1]. exists cache', result. split; [done|].
  destruct result as [applied|error]; cbn [goes_on].
  - rewrite bind_run in Hr. cbn in Hr. pose proof (record_applied_deferred (pr_commit progress) (pr_outcome progress) applied) as Hd.
    destruct (record_applied _ _ _) as [commit outcome]. injection Hr as <- <-. split; [done|]. by eexists.
  - destruct error; injection Hr as <- <-; (split; [done|]); by eexists.
Qed.

Lemma apply_ops_run windows window blobs ops progress e r e' :
  window ∈ windows → (∀ op, op ∈ ops → op ∈ window) → prefetch (blob_prefetch_requests window) = Some blobs →
  apply_ops (with_prefetched blobs deps) manifest_key progress ops e = (r, e') →
  ∃ trace, progressed progress ops trace r ∧
    ∀ more e2, (is_ok r = false → more = []) →
      turns windows (match r with Ok progress' => pr_git_locks progress' | Err _ => GitLockCache_default end) e' more e2 →
      turns windows (pr_git_locks progress) e (app trace more) e2.
Proof.
  intros Hw. revert progress e. induction ops as [|op ops IH]; intros progress e Hops Hb; cbn [apply_ops].
  { intros [= <- <-]. exists []. split; [|by intros more e2 _]. split; [apply prefix_nil|]. cbn.
    rewrite app_nil_r. by rewrite (right_id_L ∅ (∪)). }
  assert (op ∈ window) as Hop by (apply Hops; left).
  assert (∀ q, q ∈ ops → q ∈ window) as Hrest by (intros q Hq; apply Hops; by right).
  intros [(error & Hr & ->)|(progress1 & e1 & Ht & Hr)]%bind_inv.
  - apply apply_turn_run in Hr as [(? & _ & _ & ? & [=] & _)|(cache' & result & Hactive & Happ & Hres)].
    destruct (goes_on result) eqn:Hg; [by destruct Hres as (? & [=] & _)|].
    exists [(op, Ran result)]. split; [split; [|done]; cbn; apply prefix_cons, prefix_nil|].
    intros more e2 Hm Hmore. specialize (Hm eq_refl) as ->. inversion Hmore; subst. cbn. eapply turns_ran; [done..|constructor].
  - apply apply_turn_run in Ht as [(cache' & Hactive & -> & p' & [= <-] & Hc & Hi & Hd)|(cache' & result & Hactive & Happ & Hres)].
    + destruct (IH _ _ Hrest Hb Hr) as (trace & [Hpre Hp] & Hturns). exists ((op, PutOff) :: trace). split.
      * split; [by apply prefix_cons|]. destruct r as [p''|]; [|done]. destruct Hp as (Heq & Hall & Hids & Hdef).
        split; [cbn; by rewrite Heq|]. split; [by constructor|]. split; [by rewrite Hids, Hi|].
        rewrite Hdef, Hd. cbn. set_solver.
      * intros more e2 Hm Hmore. cbn. eapply turns_put_off; [done|]. rewrite <- Hc. by apply Hturns.
    + destruct (goes_on result) eqn:Hg; [|by destruct Hres as (? & [=])]. destruct Hres as (p' & [= <-] & Hc & Hi & Hd).
      destruct (IH _ _ Hrest Hb Hr) as (trace & [Hpre Hp] & Hturns). exists ((op, Ran result) :: trace). split.
      * split; [by apply prefix_cons|]. destruct r as [p''|]; [|done]. destruct Hp as (Heq & Hall & Hids & Hdef).
        split; [cbn; by rewrite Heq|]. split; [by constructor|]. split; [by rewrite Hids, Hi, <- app_assoc|].
        by rewrite Hdef, Hd.
      * intros more e2 Hm Hmore. cbn. eapply turns_ran; [done..|by rewrite Hg|]. rewrite <- Hc. by apply Hturns.
Qed.

Lemma apply_all_run all windows progress e r e' : (∀ window, window ∈ windows → window ∈ all) →
  apply_all deps prefetch manifest_key progress windows e = (r, e') →
  ∃ trace, progressed progress (concat windows) trace r ∧ turns all (pr_git_locks progress) e trace e'.
Proof.
  revert progress e. induction windows as [|window windows IH]; intros progress e Hall; cbn [apply_all concat].
  { intros [= <- <-]. exists []. split; [|constructor]. split; [apply prefix_nil|]. cbn.
    rewrite app_nil_r. by rewrite (right_id_L ∅ (∪)). }
  intros [(error & Hr & ->)|(blobs & e1 & Hb & Hr)]%bind_inv.
  { exists []. split; [split; [apply prefix_nil|done]|]. unfold ok_or in Hr.
    destruct (prefetch _); [done|]. injection Hr as _ <-. constructor. }
  assert (prefetch (blob_prefetch_requests window) = Some blobs ∧ e1 = e) as [Hpre ->]
    by (unfold ok_or in Hb; destruct (prefetch _); [by injection Hb as <- <-|done]).
  apply bind_inv in Hr as [(error & Hr & ->)|(progress1 & e2 & Hops & Hr)].
  - destruct (apply_ops_run all window blobs window progress e (Err error) e') as (trace & [Hp _] & Ht); [apply Hall; left|done..|].
    exists trace. split; [split; [by apply prefix_app_r|done]|]. specialize (Ht [] e' (λ _, eq_refl) ltac:(constructor)).
    by rewrite app_nil_r in Ht.
  - destruct (apply_ops_run all window blobs window progress e (Ok progress1) e2) as (trace & [_ (Heq & Hf & Hids & Hdef)] & Ht);
      [apply Hall; left|done..|].
    destruct (IH progress1 e2 ltac:(intros w Hw; apply Hall; by right) Hr) as (trace2 & [Hp2 Hok2] & Ht2).
    exists (app trace trace2). split.
    + split; [rewrite fmap_app, Heq; by apply prefix_app|]. destruct r as [p''|]; [|done].
      destruct Hok2 as (Heq2 & Hf2 & Hids2 & Hdef2). split; [by rewrite fmap_app, Heq, Heq2|].
      split; [by apply Forall_app|]. split.
      * rewrite Hids2, Hids. unfold applied_of. by rewrite omap_app, app_assoc.
      * rewrite Hdef2, Hdef. clear. induction trace as [|[op []] trace IH]; cbn in *; set_solver.
    + apply Ht; [done|]. exact Ht2.
Qed.

(** What a transaction does before its first turn. *)
Definition opening (plan : MergePlan) : EM EngineState :=
  prior ← on_store engine_state;
  on_store (record_unsyncable (mp_unsyncable plan) ∅) ;;
  on_world (lock_if_aux deps (op_path <$> mp_fs_ops plan)) ;;
  mret prior.

(** The applied manifest a transaction that succeeds reports. *)
Definition advanced_to (prior : EngineState) (trace : list (FsOp * Turn)) : option ManifestKey :=
  if decide (deferred_of trace = ∅) then Some manifest_key
  else fst <$> zip_option (es_applied_manifest_key prior) (es_last_ref_version prior).

(** C31: A transaction applies a plan in an order that never needs what it has not done yet.
    Whatever the plan, the machine and the faults, the transaction takes the operations of the
    plan one after another, each on the machine the one before it left, and each turn either
    puts the operation off, exactly when a lock of its Git directory shows, or applies it with
    the blobs of its window; a turn that fails for more than its own path is the last.  The
    operations are taken in the order of the schedule.  In it deletes precede everything else,
    a directory is deleted only after whatever is deleted below it, and of the rest a lower git
    rank comes first (objects before the refs that point at them) and, within a rank, a
    directory comes before what is placed below it.  A transaction that succeeds has taken
    every operation of the plan exactly once, reports exactly those it put off, and reports the
    manifest as applied only if it put none off. *)
Theorem apply_order plan ref_version e r e' :
  apply_plan deps prefetch plan manifest_key ref_version e = (r, e') →
  (∃ error, opening plan e = (Err error, e') ∧ r = Err error) ∨
  ∃ prior e1 trace e2, opening plan e = (Ok prior, e1) ∧
    turns (apply_windows (order_ops (mp_fs_ops plan))) GitLockCache_default e1 trace e2 ∧
    trace.*1 `prefix_of` order_ops (mp_fs_ops plan) ∧
    (∀ l1 a l2 b l3, trace.*1 = app l1 (a :: app l2 (b :: l3)) →
       (op_kind b = DeleteOp → op_kind a = DeleteOp ∧ op_path a ∉ parents (op_path b)) ∧
       (op_kind a ≠ DeleteOp →
          git_apply_rank (op_path a) ≤ git_apply_rank (op_path b) ∧
          (git_apply_rank (op_path a) = git_apply_rank (op_path b) → op_path b ∉ parents (op_path a)))) ∧
    (∀ outcome, r = Ok outcome →
       trace.*1 ≡ₚ mp_fs_ops plan ∧
       Forall (λ x, match x.2 with PutOff => True | Ran result => goes_on result = true end) trace ∧
       po_deferred outcome = deferred_of trace ∧
       po_applied_manifest_key outcome = advanced_to prior trace).
Proof.
  unfold apply_plan, opening. intros [(error & Hr & ->)|(prior & e0 & Hq0 & Hr)]%bind_inv.
  { left. exists error. by rewrite bind_run, Hr. }
  rewrite bind_run, Hq0. cbv zeta in Hr.
  apply bind_inv in Hr as [(error & Hr & ->)|([] & e0' & Hq1 & Hr)].
  { left. exists error. by rewrite bind_run, Hr. }
  rewrite bind_run, Hq1. apply bind_inv in Hr as [(error & Hr & ->)|([] & e1 & Hq2 & Hr)].
  { left. exists error. by rewrite bind_run, Hr. }
  right. rewrite bind_run, Hq2. apply bind_inv in Hr as [(error & Hr & ->)|(progress & e2 & Hall & Hr)].
  - destruct (apply_all_run (apply_windows (order_ops (mp_fs_ops plan))) _ _ _ _ _ (λ _ Hw, Hw) Hr) as (trace & [Hpre _] & Ht).
    unfold apply_windows in Hpre at 1. rewrite split_windows_concat in Hpre. cbn [app] in Hpre.
    exists prior, e1, trace, e'. split; [done|]. split; [exact Ht|]. split; [done|]. split; [|by intros outcome [=]].
    destruct Hpre as [rest Hpre]. by eapply prefix_ordered.
  - destruct (apply_all_run (apply_windows (order_ops (mp_fs_ops plan))) _ _ _ _ _ (λ _ Hw, Hw) Hall)
      as (trace & [Hpre (Heq & Hf & _ & Hdef)] & Ht).
    unfold apply_windows in Hpre at 1, Heq at 1. rewrite split_windows_concat in Hpre, Heq. cbn [app] in Hpre, Heq.
    exists prior, e1, trace, e2. split; [done|]. split; [exact Ht|]. split; [done|]. split.
    { destruct Hpre as [rest Hpre]. by eapply prefix_ordered. }
    intros outcome ->. split; [rewrite Heq; apply merge_sort_Permutation|]. split; [done|].
    cbn in Hdef. rewrite (left_id_L ∅ (∪)) in Hdef.
    apply bind_inv in Hr as [(? & _ & [=])|([] & e3 & _ & Hr)].
    rewrite bind_run in Hr. unfold get in Hr. cbn beta iota in Hr.
    apply bind_inv in Hr as [(? & _ & [=])|([] & e4 & _ & Hr)].
    apply bind_inv in Hr as [(? & _ & [=])|([] & e5 & _ & Hr)]. injection Hr as <- _. cbn. split; [done|].
    unfold advanced_to. rewrite <- Hdef. by case_bool_decide; [rewrite decide_True by done|rewrite decide_False by done].
Qed.

End Transaction.

(** ** Windows *)

Definition prefetch_bytes (op : FsOp) : Z := default 0 (snd <$> prefetch_request op).

Definition total {A} (f : A → Z) (l : list A) : Z := foldr (λ a n, f a + n) 0 l.

Lemma total_app {A} (f : A → Z) l k : total f (app l k) = total f l + total f k.
Proof. unfold total. induction l as [|a l IH]; cbn; [done|]. rewrite IH. lia. Qed.

Lemma total_perm {A} (f : A → Z) l k : l ≡ₚ k → total f l = total f k.
Proof. unfold total. induction 1; cbn; lia. Qed.

(** Sizes are [u64]s. *)
Definition sized (op : FsOp) : Prop :=
  match op_kind op with
  | Install (FileEntry size _ _ _ _) | ConflictAside (FileEntry size _ _ _ _) => is_u64 size
  | _ => True
  end.

Lemma prefetch_request_bounds op key n : sized op → prefetch_request op = Some (key, n) →
  0 ≤ n ≤ MAX_PREFETCHED_BLOB_BYTES.
Proof.
  unfold sized, prefetch_request, is_u64, u64_saturating_add, SEALED_BLOB_OVERHEAD_ALLOWANCE.
  intros Hs. repeat (case_match; try done); intros [= _ <-]; bool_to_prop; unfold u64_max in *; lia.
Qed.

Lemma prefetch_bytes_bounds op : sized op → 0 ≤ prefetch_bytes op ≤ MAX_PREFETCHED_BLOB_BYTES.
Proof.
  intros Hs. unfold prefetch_bytes. destruct (prefetch_request op) as [[key n]|] eqn:Er; [|done].
  by eapply prefetch_request_bounds.
Qed.

(** What a window may hold. *)
Definition window_fits (window : list FsOp) : Prop :=
  (1 ≤ length window)%nat ∧ Z.of_nat (length window) ≤ APPLY_WINDOW_MAX_FILES ∧
  (length window = 1%nat ∨ total prefetch_bytes window ≤ APPLY_WINDOW_MAX_PREFETCH_BYTES).

Lemma split_windows_fit ops : Forall sized ops → ∀ window files bytes,
  (window = [] ∨ window_fits window) → files = Z.of_nat (length window) →
  bytes = total prefetch_bytes window → 0 ≤ bytes ≤ MAX_PREFETCHED_BLOB_BYTES →
  Forall window_fits (split_windows ops window files bytes).
Proof.
  induction 1 as [|op ops Hs _ IH]; intros window files bytes Hw Hf Hb Hr; cbn [split_windows].
  { destruct window; [by constructor|]. by destruct Hw as [?|?]; [|constructor]. }
  pose proof (prefetch_bytes_bounds op Hs) as Ho. fold (prefetch_bytes op).
  unfold u64_saturating_add, u64_max.
  assert (total prefetch_bytes [op] = prefetch_bytes op) as Hone by (cbn; lia).
  assert (total prefetch_bytes (app window [op]) = bytes + prefetch_bytes op) as Htwo
    by (rewrite total_app, Hone; lia).
  assert (window_fits [op]) as Hop by (split_and!; [cbn; lia|by cbv|by left]).
  unfold MAX_PREFETCHED_BLOB_BYTES in *. destruct (_ || _) eqn:Efull.
  - constructor.
    + destruct Hw as [->|?]; [|done]. cbn in Hf. subst files. done.
    + apply IH; [by right|done|lia|lia].
  - bool_to_prop. unfold APPLY_WINDOW_MAX_FILES, APPLY_WINDOW_MAX_PREFETCH_BYTES in *.
    assert (window = [] ∨ bytes + prefetch_bytes op ≤ 8 * 1024 * 1024) as Hfit.
    { destruct window; [by left|right]. apply andb_false_iff in H0 as [Hz|Hz]; bool_to_prop;
        [cbn in Hf; lia|lia]. }
    apply IH; [|rewrite length_app; cbn; lia|lia|destruct Hfit as [->|?]; [cbn in Hb; lia|lia]].
    right. unfold window_fits. rewrite length_app. cbn [length]. split_and!; [lia|unfold APPLY_WINDOW_MAX_FILES; lia|].
    destruct Hfit as [->|?]; [by left|right]. unfold APPLY_WINDOW_MAX_PREFETCH_BYTES. lia.
Qed.

(** What the transport is asked for. *)
Definition requested (requests : gmap BlobKey Z) : Z := total snd (map_to_list requests).

Lemma requested_insert requests key n :
  requested (<[key := n]> requests) = requested requests + n - default 0 (requests !! key).
Proof.
  unfold requested. destruct (requests !! key) as [old|] eqn:Hk; cbn.
  - assert (∀ v, total snd (map_to_list (<[key := v]> (delete key requests))) =
              v + total snd (map_to_list (delete key requests))) as Hi
      by (intros v; by rewrite (total_perm _ _ _ (map_to_list_insert _ _ _ (lookup_delete_eq _ _)))).
    pose proof (Hi n) as Hnew. rewrite insert_delete_eq in Hnew.
    pose proof (Hi old) as Hold. rewrite insert_delete_id in Hold by done. lia.
  - rewrite (total_perm _ _ _ (map_to_list_insert _ _ _ Hk)).
    unfold total. cbn. lia.
Qed.

Lemma requests_within ops : Forall sized ops → ∀ requests,
  (∀ key n, requests !! key = Some n → 0 ≤ n) →
  requested (foldl (λ requests op,
    match prefetch_request op with
    | None => requests
    | Some (blob_key, transfer_budget) =>
        <[blob_key := match requests !! blob_key with
                      | Some byte_len => Z.max byte_len transfer_budget
                      | None => transfer_budget
                      end]> requests
    end) requests ops) ≤ requested requests + total prefetch_bytes ops.
Proof.
  induction 1 as [|op ops Hs _ IH]; intros requests Hn; cbn [foldl]; [cbn; lia|].
  change (total prefetch_bytes (op :: ops)) with (prefetch_bytes op + total prefetch_bytes ops).
  unfold prefetch_bytes at 1. destruct (prefetch_request op) as [[key n]|] eqn:Er.
  - pose proof (prefetch_request_bounds op key n Hs Er) as Hb. etrans; [apply IH|].
    + intros key' n'. destruct (decide (key' = key)) as [->|Hne].
      * rewrite lookup_insert_eq. intros [= <-]. destruct (requests !! key) eqn:Hk; [|lia].
        specialize (Hn _ _ Hk). lia.
      * rewrite lookup_insert_ne by done. apply Hn.
    + rewrite requested_insert. cbn. destruct (requests !! key) eqn:Hk; cbn; [|lia].
      specialize (Hn _ _ Hk). lia.
  - etrans; [by apply IH|]. cbn. lia.
Qed.

(** The transport is never asked to hold more than it may.  A transaction is cut
    into windows of one to sixteen operations, and what one window asks the transport
    to prefetch, each blob counted once, is at most 32 MiB in all; at most 8 MiB when
    the window has more than one operation. *)
Theorem prefetch_bounded ops :
  Forall sized ops →
  Forall (λ window, (1 ≤ length window ≤ 16)%nat ∧
    requested (blob_prefetch_requests window) ≤
      (if decide (length window = 1%nat) then 32 else 8) * 1024 * 1024) (apply_windows ops).
Proof.
  intros Hs. assert (Forall window_fits (apply_windows ops)) as Hf
    by (apply split_windows_fit; [done|by left|done|done|by cbv]).
  assert (Forall (Forall sized) (apply_windows ops)) as Hws.
  { apply Forall_forall. intros window Hw. apply Forall_forall. intros op Hop.
    apply (proj1 (Forall_forall _ _) Hs). change ops with (app [] ops).
    rewrite <- (split_windows_concat ops [] 0 0). apply list_elem_of_In, in_concat.
    exists window. by split; apply list_elem_of_In. }
  apply Forall_forall. intros window Hw.
  pose proof (proj1 (Forall_forall _ _) Hf _ Hw) as (H1 & H2 & H3).
  pose proof (proj1 (Forall_forall _ _) Hws _ Hw) as Hw'. unfold APPLY_WINDOW_MAX_FILES in H2.
  split; [lia|]. etrans; [by apply requests_within|].
  change (requested ∅) with 0. rewrite Z.add_0_l.
  destruct (decide _) as [Hone|?].
  - destruct window as [|op []]; try done. apply Forall_cons in Hw' as [Hop _].
    apply prefetch_bytes_bounds in Hop. unfold MAX_PREFETCHED_BLOB_BYTES in Hop. cbn. lia.
  - destruct H3 as [?|H3]; [done|]. unfold APPLY_WINDOW_MAX_PREFETCH_BYTES in H3. cbn. lia.
Qed.

#[local] Existing Instances w_hash w_seed w_envelope.

(** The plan of [ApplyTheorems], applied. *)
Definition w_applied : Result PullOutcome PullError * Engine :=
  apply_plan w_deps (λ _, Some ∅) w_planned "m" 9 (w_engine "newer").

Lemma w_applied_ok : is_ok w_applied.1 = true ∧ length (mp_fs_ops w_planned) = 2%nat.
Proof. split; vm_compute; reflexivity. Qed.

Lemma apply_order_witness : ∃ e1 trace e2,
  turns w_deps (λ _, Some ∅) "m" (apply_windows (order_ops (mp_fs_ops w_planned))) GitLockCache_default e1 trace e2 ∧
  trace.*1 ≡ₚ mp_fs_ops w_planned.
Proof.
  destruct (apply_order w_deps (λ _, Some ∅) "m" w_planned 9 (w_engine "newer") w_applied.1 w_applied.2
              (surjective_pairing w_applied)) as [(error & _ & He)|(prior & e1 & trace & e2 & _ & Ht & _ & _ & Hok)].
  - exfalso. pose proof (proj1 w_applied_ok) as Hy. rewrite He in Hy. discriminate Hy.
  - destruct w_applied.1 as [outcome|] eqn:E.
    + exists e1, trace, e2. split; [exact Ht|]. exact (proj1 (Hok outcome eq_refl)).
    + exfalso. pose proof (proj1 w_applied_ok) as Hy. rewrite E in Hy. discriminate Hy.
Defined.

Definition w_op (path content : string) : FsOp :=
  {| op_path := path; op_kind := Install (w_entry content); op_expected := preimage_absent |}.

Lemma prefetch_bounded_witness :
  Forall (λ window, (1 ≤ length window ≤ 16)%nat ∧
    requested (blob_prefetch_requests window) ≤
      (if decide (length window = 1%nat) then 32 else 8) * 1024 * 1024)
    (apply_windows [w_op "a" "x"; w_op "b" "y"]).
Proof. apply prefetch_bounded. repeat constructor; cbv; discriminate. Defined.
