(* ===== verification/StoreTheorems.v ===== *)
(** * What the store promises

    Rows read back as the records they were written from, a commit happens entirely or
    not at all, and the ref-freshness ratchet never turns back. *)

From S2P Require Import Prelude.
From S2P Require Import Paths.
From S2P Require Import ManifestTypes.
From S2P Require Import MergeMatrix.
From S2P Require Import Disk.
From S2P Require Import Materialize.
From S2P Require Import Store.
From S2P Require Import Apply.
From S2P Require Import Pull.
From S2P Require Import DiskLemmas.
Local Open Scope string_scope.
Open Scope Z_scope.

(** ** Rows *)

(** The ranges of the Rust fields. *)
Definition storable (r : FileRecord) : Prop :=
  is_u64 (fr_size r) ∧ is_u32 (fr_mode r) ∧ (∀ epoch, fr_key_epoch r = Some epoch → is_u32 epoch) ∧
  is_u64 (fp_inode (fr_fingerprint r)) ∧ is_u64 (fp_dev (fr_fingerprint r)).

Lemma as_u64_as_i64 z : is_u64 z → as_u64 (as_i64 z) = z.
Proof.
  unfold is_u64, u64_max, as_i64, as_u64, i64_top. intros Hz.
  destruct (Z.leb_spec z (2 ^ 63 - 1)); [|]; repeat case_match; bool_to_prop; lia.
Qed.

Lemma u32_from_i64_id z field : is_u32 z → u32_from_i64 z field = Ok z.
Proof. unfold is_u32, u32_from_i64. intros Hz. by rewrite !(proj2 (Z.leb_le _ _)) by lia. Qed.

Lemma entry_kind_roundtrip kind : entry_kind_from_i64 (entry_kind_to_i64 kind) = Ok kind.
Proof. by destruct kind. Qed.

Lemma row_roundtrip r row : storable r → file_to_row r = Ok row → row_to_file row = Ok r.
Proof.
  intros (Hs & Hm & He & Hi & Hd). unfold file_to_row, to_i64.
  destruct (_ <=? i64_top); [|done]. intros [= <-]. unfold row_to_file. cbn.
  rewrite entry_kind_roundtrip. cbn. unfold from_i64.
  rewrite (proj2 (Z.leb_le _ _)) by apply Hs. cbn. rewrite u32_from_i64_id by done. cbn.
  destruct r as [kind size mode target id key [epoch|] [mt ct ino dev] ha va]; cbn in *;
    rewrite ?u32_from_i64_id by auto; cbn; by rewrite !as_u64_as_i64.
Qed.

(** ** Reading a table *)

(** [files] is the content of the rows [rows]. *)
Definition table_of (rows : gmap string FileRow) (files : gmap string FileRecord) : Prop :=
  ∀ path, row_to_file <$> rows !! path = Ok <$> files !! path.

Lemma read_rows_Ok rows files : read_rows (map_to_list rows) = Ok files ↔ table_of rows files.
Proof.
  revert files. induction rows as [|path row rows Hp Hfirst IH] using map_first_key_ind; intros files.
  - rewrite map_to_list_empty. cbn. split.
    + intros [= <-] path. by rewrite !lookup_empty.
    + intros Ht. f_equal. symmetry. apply map_empty. intros path. specialize (Ht path).
      rewrite lookup_empty in Ht. by destruct (files !! path).
  - rewrite map_to_list_insert_first_key by done. cbn. split.
    + destruct (row_to_file row) as [record|] eqn:Er; [|done]. cbn.
      destruct (read_rows _) as [rest|]; [|done]. cbn. intros [= <-] q.
      destruct (decide (q = path)) as [->|Hne].
      * by rewrite !lookup_insert_eq; cbn; rewrite Er.
      * rewrite !lookup_insert_ne by done. by apply IH.
    + intros Ht. pose proof (Ht path) as Hq. rewrite lookup_insert_eq in Hq. cbn in Hq.
      destruct (files !! path) as [record|] eqn:Ef; [|done]. injection Hq as Hq. rewrite Hq. cbn.
      rewrite (proj2 (IH (delete path files))); cbn.
      * by rewrite insert_delete_id.
      * intros q. specialize (Ht q). destruct (decide (q = path)) as [->|Hne].
        -- by rewrite lookup_delete_eq, Hp.
        -- by rewrite lookup_insert_ne, lookup_delete_ne in *.
Qed.

(** ** Commits *)

(** Everything but the remaining faults. *)
Definition same_tables (s s' : ManifestStore) : Prop :=
  s <| ms_faults := [] |> = s' <| ms_faults := [] |>.

Lemma statement_tables s : same_tables s (snd (statement s)).
Proof. unfold statement, same_tables. by destruct (ms_faults s) as [|[]]. Qed.

Lemma in_transaction_fails {T} (body : SM T) s e s' :
  in_transaction body s = (Err e, s') → same_tables s s'.
Proof.
  unfold in_transaction. pose proof (statement_tables s) as Hs.
  destruct (statement s) as [[[]|e1] s1]; [|by intros [= _ <-]]. cbn [snd] in Hs.
  destruct (body s1) as [[v|e2] s2]; [destruct (statement s2) as [[[]|e3] s3]|]; intros [= _ <-];
    unfold same_tables in *; rewrite Hs; by destruct s1.
Qed.

Section Reads.
Context {X : Type} (field : ManifestStore → X).
Context (Hfield : ∀ s faults, field (s <| ms_faults := faults |>) = field s).

(** [field] does not move. *)
Lemma keeps_statement x : keeps (λ s, field s = x) statement.
Proof. intros s Hs. unfold statement. destruct (ms_faults s) as [|[]]; cbn; by rewrite ?Hfield. Qed.

Lemma keeps_execute f x : (∀ s, field (f s) = field s) → keeps (λ s, field s = x) (execute f).
Proof.
  intros Hf. unfold execute. keeps_step; [apply keeps_statement|]. apply keeps_modify.
  intros s Hs. by rewrite Hf.
Qed.

Lemma keeps_for_each {A} (l : list A) f x :
  (∀ a, keeps (λ s, field s = x) (f a)) → keeps (λ s, field s = x) (for_each l f).
Proof. intros Hf. induction l; cbn [for_each]; [apply keeps_ret|]. by keeps_step. Qed.

Lemma keeps_next_revision x : keeps (λ s, field s = x) next_materialization_revision.
Proof.
  unfold next_materialization_revision. keeps_step; [apply keeps_statement|].
  keeps_step; [apply keeps_get|apply keeps_ok_or].
Qed.

End Reads.

Lemma statement_files s : ms_files (snd (statement s)) = ms_files s.
Proof. unfold statement. by destruct (ms_faults s) as [|[]]. Qed.

Lemma execute_Ok f s s' : execute f s = (Ok tt, s') → ∃ s1, ms_files s1 = ms_files s ∧ s' = f s1.
Proof.
  unfold execute. rewrite bind_run. pose proof (statement_files s) as Hs.
  destruct (statement s) as [[[]|e] s1]; [|done]. intros [= <-]. by exists s1.
Qed.

Lemma remove_rows_Ok paths s s' :
  for_each paths (λ path, execute (λ s, s <| ms_files := delete path (ms_files s) |>)) s = (Ok tt, s') →
  ∀ q, ms_files s' !! q = if decide (q ∈ paths) then None else ms_files s !! q.
Proof.
  revert s. induction paths as [|path paths IH]; intros s; cbn [for_each].
  - intros [= <-] q. by rewrite decide_False by apply not_elem_of_nil.
  - rewrite bind_run. destruct (execute _ s) as [[[]|e] s1] eqn:Ee; [|done].
    apply execute_Ok in Ee as (s2 & Hs2 & ->). intros Hr q. rewrite (IH _ Hr q). cbn. rewrite Hs2.
    destruct (decide (q ∈ paths)) as [Hin|Hout].
    + by rewrite decide_True by by right.
    + destruct (decide (q = path)) as [->|Hne].
      * rewrite decide_True by by left. apply lookup_delete_eq.
      * rewrite lookup_delete_ne by done. by rewrite decide_False by by intros [?|?]%elem_of_cons.
Qed.

Lemma upsert_rows_Ok records s s' : NoDup records.*1 →
  for_each records (λ '(path, record),
    row ← of_result (file_to_row record);
    execute (λ s, s <| ms_files := <[path := row]> (ms_files s) |>)) s = (Ok tt, s') →
  (∀ path record, (path, record) ∈ records →
     ∃ row, file_to_row record = Ok row ∧ ms_files s' !! path = Some row) ∧
  (∀ q, q ∉ records.*1 → ms_files s' !! q = ms_files s !! q).
Proof.
  revert s. induction records as [|[path record] records IH]; intros s Hnd; cbn [for_each].
  { intros [= <-]. split; [by intros ? ? ?%not_elem_of_nil|done]. }
  apply NoDup_cons in Hnd as [Hnew Hnd]. rewrite bind_run. rewrite bind_run. unfold of_result.
  destruct (file_to_row record) as [row|e] eqn:Er; [|done].
  destruct (execute _ s) as [[[]|e] s1] eqn:Ee; [|done].
  apply execute_Ok in Ee as (s2 & Hs2 & ->). intros Hr. destruct (IH _ Hnd Hr) as [Hin Hout]. split.
  - intros q r [[= -> ->]|Hq]%elem_of_cons; [|by apply Hin]. exists row. split; [done|].
    rewrite Hout by done. cbn. apply lookup_insert_eq.
  - intros q [Hne Hq]%not_elem_of_cons. rewrite Hout by done. cbn.
    rewrite lookup_insert_ne by done. by rewrite Hs2.
Qed.

(** The ancestor after a commit. *)
Definition committed (commit : AncestorCommit) (files : gmap string FileRecord)
    : gmap string FileRecord :=
  ac_upserts commit ∪ filter (λ '(path, _), path ∉ ac_removals commit) files.

Lemma apply_ancestor_Ok commit s s' files :
  map_Forall (λ _ record, storable record) (ac_upserts commit) →
  table_of (ms_files s) files → apply_ancestor commit s = (Ok tt, s') →
  table_of (ms_files s') (committed commit files).
Proof.
  intros Hst Ht. unfold apply_ancestor. rewrite bind_run.
  destruct (for_each (elements _) _ s) as [[[]|e] s1] eqn:Er; [|done]. intros Hu q.
  pose proof (remove_rows_Ok _ _ _ Er q) as Hr.
  destruct (upsert_rows_Ok _ _ _ (NoDup_fst_map_to_list _) Hu) as [Hin Hout].
  unfold committed. destruct (ac_upserts commit !! q) as [record|] eqn:Hq.
  - destruct (Hin q record) as (row & Hrow & ->); [by apply elem_of_map_to_list|].
    rewrite (lookup_union_Some_l _ _ _ _ Hq). cbn. f_equal.
    by eapply row_roundtrip; [eapply Hst|].
  - rewrite lookup_union_r by done. rewrite Hout.
    2:{ intros ([q' record] & -> & Hl)%list_elem_of_fmap. apply elem_of_map_to_list in Hl.
        cbn in Hq. congruence. }
    rewrite Hr. destruct (decide (q ∈ elements (ac_removals commit))) as [Hrm|Hrm];
      rewrite elem_of_elements in Hrm.
    + rewrite map_lookup_filter_None_2; [done|]. right. by intros ? ? Hn.
    + rewrite Ht. destruct (files !! q) as [f|] eqn:Hf.
      * by rewrite (map_lookup_filter_Some_2 _ _ _ f).
      * rewrite map_lookup_filter_None_2; [done|]. by left.
Qed.

Lemma in_transaction_Ok {T} (body : SM T) s v s' :
  in_transaction body s = (Ok v, s') →
  ∃ s1 s2, ms_files s1 = ms_files s ∧ body s1 = (Ok v, s2) ∧ ms_files s' = ms_files s2.
Proof.
  unfold in_transaction. pose proof (statement_files s) as Hs.
  destruct (statement s) as [[[]|e1] s1]; [|done]. cbn [snd] in Hs.
  destruct (body s1) as [[v'|e2] s2] eqn:Eb; [|done]. pose proof (statement_files s2) as Hs2.
  destruct (statement s2) as [[[]|e3] s3]; [|done]. intros [= -> <-]. by exists s1, s2.
Qed.

(** The calls that commit an ancestor. *)
Inductive commit_call (commit : AncestorCommit) : SM unit → Prop :=
| pull_call applied verified intent_ids push_again :
    commit_call commit (commit_pull_outcome commit applied verified intent_ids push_again)
| push_call manifest_key ref_version settled_paths :
    commit_call commit (commit_push_success commit manifest_key ref_version settled_paths)
| no_change_call settled_paths : commit_call commit (commit_push_no_change commit settled_paths).

(** A transaction that starts with the ancestor's rows and then leaves them alone. *)
Lemma commit_transaction commit (rest : SM unit) s files :
  map_Forall (λ _ record, storable record) (ac_upserts commit) → table_of (ms_files s) files →
  (∀ x, keeps (λ s, ms_files s = x) rest) →
  match in_transaction (apply_ancestor commit ;; rest) s with
  | (Ok _, s') => table_of (ms_files s') (committed commit files)
  | (Err _, s') => same_tables s s'
  end.
Proof.
  intros Hst Ht Hrest. destruct (in_transaction _ s) as [[[]|e] s'] eqn:Et.
  - apply in_transaction_Ok in Et as (s1 & s2 & Hs1 & Hb & ->). rewrite bind_run in Hb.
    destruct (apply_ancestor commit s1) as [[[]|e] s3] eqn:Ea; [|done].
    rewrite <- Hs1 in Ht. pose proof (apply_ancestor_Ok _ _ _ _ Hst Ht Ea) as Hc.
    pose proof (Hrest (ms_files s3) s3 eq_refl) as Hk. rewrite Hb in Hk. cbn in Hk. by rewrite Hk.
  - by eapply in_transaction_fails.
Qed.

Lemma keeps_files_execute f x : (∀ s, ms_files (f s) = ms_files s) →
  keeps (λ s, ms_files s = x) (execute f).
Proof. by apply keeps_execute. Qed.

Lemma keeps_files_for_each {A} (l : list A) f x :
  (∀ a, keeps (λ s, ms_files s = x) (f a)) → keeps (λ s, ms_files s = x) (for_each l f).
Proof. apply keeps_for_each. Qed.

Lemma keeps_files_set_applied key version x : keeps (λ s, ms_files s = x) (set_applied key version).
Proof. unfold set_applied. keeps_step; [by apply keeps_next_revision|by apply keeps_files_execute]. Qed.

Lemma keeps_files_revision x : keeps (λ s, ms_files s = x) advance_materialization_revision.
Proof.
  unfold advance_materialization_revision.
  keeps_step; [by apply keeps_next_revision|by apply keeps_files_execute].
Qed.

Lemma keeps_files_ratchet key version x :
  keeps (λ s, ms_files s = x) (advance_verified_ratchet key version).
Proof. by apply keeps_files_execute. Qed.

Lemma keeps_files_settle paths x : keeps (λ s, ms_files s = x) (delete_pending_push_paths paths).
Proof. apply keeps_files_for_each. intros path. by apply keeps_files_execute. Qed.

#[local] Hint Resolve keeps_files_set_applied keeps_files_revision keeps_files_ratchet
  keeps_files_settle : keeps.

(** C29: A commit is atomic and durable to the last field.  Whichever statements fail,
    a pull's or a push's commit either reports failure and leaves every table as it
    was, or succeeds and the ancestor read afterwards is the one before with exactly
    the committed removals and upserts — every integer of every record back from its
    SQLite column unchanged. *)
Theorem commit_atomic s commit files call :
  map_Forall (λ _ record, storable record) (ac_upserts commit) →
  read_rows (map_to_list (ms_files s)) = Ok files → commit_call commit call →
  match call s with
  | (Ok _, s') => read_rows (map_to_list (ms_files s')) = Ok (committed commit files)
  | (Err _, s') => same_tables s s'
  end.
Proof.
  intros Hst Ht%read_rows_Ok Hcall.
  enough (match call s with
          | (Ok _, s') => table_of (ms_files s') (committed commit files)
          | (Err _, s') => same_tables s s'
          end) as He by (destruct (call s) as [[]]; by rewrite ?read_rows_Ok).
  destruct Hcall as [applied verified ids push|key version settled|settled].
  - unfold commit_pull_outcome. apply commit_transaction; [done..|]. intros x.
    assert (∀ l f, keeps (λ s, ms_files s = x) (for_each l (λ path : WorkspacePath,
      execute (λ s, s <| ms_intents := f path (ms_intents s) |>)))) as Hids.
    { intros l f. apply keeps_files_for_each. intros path. by apply keeps_files_execute. }
    keeps_step; [keeps_go|]. keeps_step; [keeps_go|]. keeps_step; [apply Hids|].
    apply keeps_files_for_each. intros path. by apply keeps_files_execute.
  - unfold commit_push_success. rewrite bind_run. unfold of_result.
    destruct (to_i64 version); [|done]. apply commit_transaction; [done..|]. intros x. keeps_go.
  - apply commit_transaction; [done..|]. intros x. keeps_go.
Qed.

(** ** The ratchet *)

(** The newest ref the store has verified. *)
Definition verified (s : ManifestStore) : option (Z * option ManifestKey) :=
  row ← ms_engine_state s;
  highest ← er_highest_verified_ref_version row;
  Some (highest, er_highest_verified_manifest_key row).

(** No step back: a later version, or the same version of the same manifest. *)
Definition not_before (from to : option (Z * option ManifestKey)) : Prop :=
  match from, to with
  | None, _ => True
  | Some _, None => False
  | Some (h, k), Some (h', k') => h < h' ∨ (h = h' ∧ k = k')
  end.

#[export] Instance not_before_preorder : PreOrder not_before.
Proof.
  split; [intros [[h k]|]; cbn; auto|].
  intros [[h k]|] [[h' k']|] [[h'' k'']|]; cbn; try done.
  intros [?|[-> ->]] [?|[-> ->]]; auto with lia.
Qed.

Section Ratchet.
Context (from : option (Z * option ManifestKey)).

Definition ratcheted (s : ManifestStore) : Prop := not_before from (verified s).

Lemma keeps_ratchet_statement : keeps ratcheted statement.
Proof. intros s Hs. unfold statement. by destruct (ms_faults s) as [|[]]. Qed.

Lemma keeps_ratchet_execute f : (∀ s, not_before (verified s) (verified (f s))) →
  keeps ratcheted (execute f).
Proof.
  intros Hf. unfold execute. keeps_step; [apply keeps_ratchet_statement|]. apply keeps_modify.
  intros s Hs. unfold ratcheted. by etrans.
Qed.

(** Statements on the other tables, and the other columns of the row. *)
Lemma keeps_ratchet_elsewhere f : (∀ s, verified (f s) = verified s) → keeps ratcheted (execute f).
Proof. intros Hf. apply keeps_ratchet_execute. intros s. by rewrite Hf. Qed.

Lemma keeps_ratchet_for_each {A} (l : list A) f :
  (∀ a, keeps ratcheted (f a)) → keeps ratcheted (for_each l f).
Proof. intros Hf. induction l; cbn [for_each]; [apply keeps_ret|]. by keeps_step. Qed.

Lemma keeps_in_transaction {T} (body : SM T) : keeps ratcheted body → keeps ratcheted (in_transaction body).
Proof.
  intros Hb s Hs. unfold in_transaction. pose proof (keeps_ratchet_statement s Hs) as H1.
  destruct (statement s) as [[[]|e1] s1]; [|done]. cbn [snd] in H1. specialize (Hb s1 H1).
  destruct (body s1) as [[v|e2] s2]; [|done]. pose proof (keeps_ratchet_statement s2 Hb) as H2.
  by destruct (statement s2) as [[[]|e3] s3].
Qed.

Lemma keeps_ratchet_row f :
  (∀ r, er_highest_verified_ref_version (f r) = er_highest_verified_ref_version r ∧
        er_highest_verified_manifest_key (f r) = er_highest_verified_manifest_key r) →
  keeps ratcheted (execute (upsert_engine f)).
Proof.
  intros Hf. apply keeps_ratchet_elsewhere. intros s. unfold verified, upsert_engine. cbn.
  destruct (Hf (default empty_row (ms_engine_state s))) as [-> ->].
  by destruct (ms_engine_state s).
Qed.

Lemma keeps_advance key version : keeps ratcheted (advance_verified_ratchet key version).
Proof.
  apply keeps_ratchet_execute. intros s. unfold verified, upsert_engine, ratchet_advances. cbn.
  destruct (ms_engine_state s) as [r|]; cbn; [|done].
  destruct (er_highest_verified_ref_version r) as [h|] eqn:Hh; cbn; [|done].
  destruct (Z.ltb_spec h version); cbn; [by left|]. rewrite Hh. cbn. by right.
Qed.

Lemma keeps_floor : keeps ratcheted raise_ratchet_floor.
Proof.
  apply keeps_ratchet_execute. intros s. unfold verified, raise_floor, ratchet_advances. cbn.
  destruct (ms_engine_state s) as [r|]; cbn; [|done].
  destruct (er_last_ref_version r) as [last|] eqn:Hl; [|done].
  destruct (er_applied_manifest_key r) as [key|]; [|done].
  destruct (er_highest_verified_ref_version r) as [h|] eqn:Hh; cbn; [|done].
  destruct (Z.ltb_spec h last); cbn; rewrite ?Hl, ?Hh; cbn; [by left|by right].
Qed.

Lemma keeps_ratchet_next : keeps ratcheted next_materialization_revision.
Proof.
  unfold next_materialization_revision. keeps_step; [apply keeps_ratchet_statement|].
  keeps_step; [apply keeps_get|apply keeps_ok_or].
Qed.

Lemma keeps_ratchet_set_applied key version : keeps ratcheted (set_applied key version).
Proof. unfold set_applied. keeps_step; [apply keeps_ratchet_next|by apply keeps_ratchet_row]. Qed.

Lemma keeps_ratchet_revision : keeps ratcheted advance_materialization_revision.
Proof.
  unfold advance_materialization_revision.
  keeps_step; [apply keeps_ratchet_next|by apply keeps_ratchet_row].
Qed.

Lemma keeps_ratchet_ancestor commit : keeps ratcheted (apply_ancestor commit).
Proof.
  unfold apply_ancestor. keeps_step; apply keeps_ratchet_for_each.
  - intros path. by apply keeps_ratchet_elsewhere.
  - intros [path record]. keeps_step; [apply keeps_of_result|by apply keeps_ratchet_elsewhere].
Qed.

Lemma keeps_ratchet_settle paths : keeps ratcheted (delete_pending_push_paths paths).
Proof. apply keeps_ratchet_for_each. intros path. by apply keeps_ratchet_elsewhere. Qed.

End Ratchet.

#[local] Hint Resolve keeps_ratchet_set_applied keeps_ratchet_revision keeps_advance keeps_floor
  keeps_ratchet_ancestor keeps_ratchet_settle : keeps.

(** Every call that writes the store. *)
Inductive StoreCall :=
| CallOpen
| CallRecordUnsyncable (observed : gmap WorkspacePath UnsyncableRecord) (resolved : gset WorkspacePath)
| CallRecordSealedBlobs (blobs : gmap ContentId SealedBlob)
| CallRecordTreeNodes (nodes : gmap string ManifestKey) (key_epoch : KeyEpoch)
| CallRecordTreeNodeEpoch (node_key : ManifestKey) (key_epoch : KeyEpoch)
| CallRecordHighestVerified (ref_version : Z) (manifest_key : ManifestKey)
| CallRecordRefAdvance (manifest_key : ManifestKey) (ref_version : Z)
| CallCommitPushSuccess (commit : AncestorCommit) (manifest_key : ManifestKey) (ref_version : Z)
    (settled_paths : gset WorkspacePath)
| CallClearPendingPush (paths : gset WorkspacePath)
| CallCommitPushNoChange (commit : AncestorCommit) (settled_paths : gset WorkspacePath)
| CallRefresh (records : gmap WorkspacePath FileRecord)
| CallCommitPullOutcome (commit : AncestorCommit) (applied verified : option (ManifestKey * Z))
    (intent_ids : list WorkspacePath) (push_again : gset WorkspacePath)
| CallOpenIntent (intent : Intent).

Definition store_call (call : StoreCall) : SM unit :=
  match call with
  | CallOpen => open_store
  | CallRecordUnsyncable observed resolved => record_unsyncable observed resolved
  | CallRecordSealedBlobs blobs => record_sealed_blobs blobs
  | CallRecordTreeNodes nodes key_epoch => record_tree_nodes nodes key_epoch
  | CallRecordTreeNodeEpoch node_key key_epoch => record_tree_node_epoch node_key key_epoch
  | CallRecordHighestVerified ref_version manifest_key => record_highest_verified ref_version manifest_key
  | CallRecordRefAdvance manifest_key ref_version => record_ref_advance manifest_key ref_version
  | CallCommitPushSuccess commit manifest_key ref_version settled_paths =>
      commit_push_success commit manifest_key ref_version settled_paths
  | CallClearPendingPush paths => clear_pending_push_paths paths
  | CallCommitPushNoChange commit settled_paths => commit_push_no_change commit settled_paths
  | CallRefresh records => refresh_local_file_records records
  | CallCommitPullOutcome commit applied verified intent_ids push_again =>
      commit_pull_outcome commit applied verified intent_ids push_again
  | CallOpenIntent intent => open_intent intent
  end.

(** The store after a sequence of calls, failed ones included. *)
Definition after_calls (s : ManifestStore) (calls : list StoreCall) : ManifestStore :=
  foldl (λ s call, snd (store_call call s)) s calls.

Ltac ratchet_rows :=
  apply keeps_ratchet_for_each; intros ?;
  repeat match goal with x : (_ * _)%type |- _ => destruct x end; by apply keeps_ratchet_elsewhere.

Lemma keeps_store_call from call : keeps (ratcheted from) (store_call call).
Proof.
  destruct call; cbn [store_call].
  - apply keeps_floor.
  - unfold record_unsyncable. destruct (_ && _); [apply keeps_ret|]. apply keeps_in_transaction.
    keeps_step; ratchet_rows.
  - unfold record_sealed_blobs. destruct (bool_decide _); [apply keeps_ret|]. apply keeps_in_transaction.
    apply keeps_ratchet_for_each. intros [id blob]. keeps_step; [apply keeps_of_result|].
    by apply keeps_ratchet_elsewhere.
  - unfold record_tree_nodes. destruct (bool_decide _); [apply keeps_ret|]. apply keeps_in_transaction.
    keeps_step; ratchet_rows.
  - apply keeps_in_transaction. ratchet_rows.
  - unfold record_highest_verified. keeps_step; [apply keeps_of_result|].
    apply keeps_in_transaction, keeps_advance.
  - unfold record_ref_advance. keeps_step; [apply keeps_of_result|]. apply keeps_in_transaction. keeps_go.
  - unfold commit_push_success. keeps_step; [apply keeps_of_result|]. apply keeps_in_transaction. keeps_go.
  - apply keeps_in_transaction. keeps_go.
  - apply keeps_in_transaction. keeps_go.
  - apply keeps_in_transaction. keeps_go.
  - apply keeps_in_transaction. keeps_step; [keeps_go|]. keeps_step; [keeps_go|]. keeps_step; [keeps_go|].
    keeps_step; ratchet_rows.
  - by apply keeps_ratchet_elsewhere.
Qed.

Lemma after_calls_ratcheted s calls : not_before (verified s) (verified (after_calls s calls)).
Proof.
  unfold after_calls. assert (ratcheted (verified s) s) as Hs by (unfold ratcheted; reflexivity).
  change (ratcheted (verified s) (foldl (λ s call, snd (store_call call s)) s calls)).
  revert Hs. generalize (verified s) as from. intros from. revert s.
  induction calls as [|call calls IH]; intros s Hs; cbn; [done|]. by apply IH, keeps_store_call.
Qed.

Lemma enforce_freshness_Ok head e e' : enforce_freshness head e = (Ok tt, e') →
  ∀ h k, verified (en_store e) = Some (h, k) →
    h < ro_version head ∨ (h = ro_version head ∧ k = Some (ro_manifest_key head)).
Proof.
  unfold enforce_freshness, verified. rewrite bind_run. unfold on_store, engine_state. rewrite bind_run.
  assert (ms_engine_state (snd (statement (en_store e))) = ms_engine_state (en_store e)) as Heq.
  { unfold statement. by destruct (ms_faults (en_store e)) as [|[]]. }
  destruct (statement (en_store e)) as [[[]|err] s1]; [|done]. cbn [snd] in Heq.
  rewrite bind_run. unfold get. cbn beta iota. rewrite <- Heq.
  destruct (ms_engine_state s1) as [row|]; [|done]. unfold of_result, row_to_engine_state.
  destruct (option_from_i64 (er_last_ref_version row)); [|done].
  destruct (from_i64 (er_materialization_revision row)); [|done]. cbn.
  destruct (er_highest_verified_ref_version row) as [highest|]; [|done]. cbn. unfold from_i64.
  destruct (0 <=? highest); [|done]. cbn. destruct (applied_ref _); [|done]. cbn. rewrite bind_run.
  destruct (Z.ltb_spec (ro_version head) highest); [done|]. cbn.
  destruct (Z.eqb_spec (ro_version head) highest) as [->|]; cbn; [|intros _ h k [= <- <-]; left; lia].
  destruct (bool_decide_reflect (er_highest_verified_manifest_key row ≠ Some (ro_manifest_key head)))
    as [?|Hk%dec_stable]; [done|]. intros _ h k [= <- <-]. by right.
Qed.

(** C16: A ref that has been verified can not be rolled back or forked.  Once the store
    has verified version [h] of a manifest, then after any sequence of store calls —
    pulls, pushes, restarts, and calls that fail at any statement — a head is accepted
    only if its version is newer than [h], or is [h] and names the same manifest. *)
Theorem verified_ref_final s calls h k w head e' :
  verified s = Some (h, Some k) →
  enforce_freshness head {| en_store := after_calls s calls; en_world := w |} = (Ok tt, e') →
  h < ro_version head ∨ (h = ro_version head ∧ k = ro_manifest_key head).
Proof.
  intros Hv Hf. pose proof (after_calls_ratcheted s calls) as Hr. rewrite Hv in Hr.
  destruct (verified (after_calls s calls)) as [[h' k']|] eqn:Ha; [|done]. cbn in Hr.
  pose proof (enforce_freshness_Ok head _ e' Hf h' k' Ha) as Hok.
  destruct Hr as [?|[<- <-]], Hok as [?|[? Hk]]; [left; lia..|]. right. by simplify_eq.
Qed.

(** ** Witnesses *)

Definition w_tables : ManifestStore :=
  {| ms_files := ∅; ms_engine_state := Some (empty_row <| er_highest_verified_ref_version := Some 4 |>
                                               <| er_highest_verified_manifest_key := Some "m4" |>);
     ms_intents := ∅; ms_unsyncable := ∅; ms_pending_push := ∅; ms_blobs := ∅; ms_tree_nodes := ∅;
     ms_tree_node_epochs := ∅; ms_faults := [] |}.

Definition w_record : FileRecord :=
  record_for_entry (FileEntry 3 33188 "id" "blob" 1)
    {| fp_mtime_ns := 1; fp_ctime_ns := 1; fp_inode := u64_max; fp_dev := 1 |} 5.

Definition w_commit : AncestorCommit :=
  {| ac_upserts := {["kept" := w_record]}; ac_removals := {["gone"]} |}.

Lemma commit_atomic_witness :
  match commit_pull_outcome w_commit (Some ("m", 9)) (Some ("m", 9)) [] ∅ w_tables with
  | (Ok _, s') => read_rows (map_to_list (ms_files s')) = Ok (committed w_commit ∅)
  | (Err _, s') => same_tables w_tables s'
  end.
Proof.
  apply (commit_atomic w_tables w_commit ∅).
  - apply map_Forall_singleton. unfold storable, w_record. cbn.
    split_and!; [..|intros epoch Hepoch; injection Hepoch as Hepoch; subst epoch| | ];
      (split; vm_compute; discriminate).
  - reflexivity.
  - constructor.
Defined.

Definition w_calls : list StoreCall :=
  [CallRecordRefAdvance "m3" 3; CallRecordRefAdvance "m6" 6; CallOpen].

Lemma verified_ref_final_witness : 4 < 7 ∨ (4 = 7 ∧ "m4" = "m7").
Proof.
  apply (verified_ref_final w_tables w_calls 4 "m4"
    {| w_disk := ∅; w_escaped := false; w_recovery_dir := ScratchReady; w_temps := ∅;
       w_quarantine := ∅; w_faults := []; w_tick := 0 |}
    {| ro_version := 7; ro_manifest_key := "m7" |} _ eq_refl eq_refl).
Defined.
