(* ===== verification/PushTheorems.v ===== *)
(** * What a push promises

    The committed ancestor changes only when the hosted ref is proven to have advanced,
    no path is removed that was not seen gone, and one push never removes more than the
    breaker allows. *)

From S2P Require Import Prelude.
From S2P Require Import MergeMatrix.
From S2P Require Import Paths.
From S2P Require Import ManifestTypes.
From S2P Require Import FsGuard.
From S2P Require Import Disk.
From S2P Require Import Materialize.
From S2P Require Import Endpoint.
From S2P Require Import Store.
From S2P Require Import Ordered.
From S2P Require Import Tree.
From S2P Require Import TreeTransport.
From S2P Require Import TreePatch.
From S2P Require Import Push.
From S2P Require Import DiskLemmas.
From S2P Require Import Reported.
From S2P Require Import StoreTheorems.
Local Open Scope string_scope.
Open Scope Z_scope.

(** ** Tables a call leaves alone *)

(** A property the fault schedule does not matter to. *)
Definition fault_blind (P : ManifestStore → Prop) : Prop :=
  ∀ s faults, P s → P (s <| ms_faults := faults |>).

Section Blind.
Context (P : ManifestStore → Prop) (HP : fault_blind P).

Lemma blind_statement : keeps P statement.
Proof. intros s Hs. unfold statement. destruct (ms_faults s) as [|[]]; cbn; auto. Qed.

Lemma blind_execute f : (∀ s, P s → P (f s)) → keeps P (execute f).
Proof. intros Hf. unfold execute. keeps_step; [apply blind_statement|by apply keeps_modify]. Qed.

Lemma blind_for_each {A} (l : list A) f : (∀ a, keeps P (f a)) → keeps P (for_each l f).
Proof. intros Hf. induction l; cbn [for_each]; [apply keeps_ret|]. by keeps_step. Qed.

Lemma blind_in_transaction {T} (body : SM T) : keeps P body → keeps P (in_transaction body).
Proof.
  intros Hb s Hs. unfold in_transaction. pose proof (blind_statement s Hs) as H1.
  destruct (statement s) as [[[]|e1] s1]; [|done]. cbn [snd] in H1. pose proof (Hb s1 H1) as H2.
  destruct (body s1) as [[v|e2] s2]; [|by apply HP]. pose proof (blind_statement s2 H2) as H3.
  destruct (statement s2) as [[[]|e3] s3]; [done|by apply HP].
Qed.

(** A query. *)
Lemma blind_query {A} (f : ManifestStore → SM A) :
  (∀ s, keeps P (f s)) → keeps P (statement ;; s ← get; f s).
Proof. intros Hf. keeps_step; [apply blind_statement|]. keeps_step; [apply keeps_get|apply Hf]. Qed.

End Blind.

(** The tables a commit writes: the ancestor, the applied ref and the pending paths. *)
Definition settled_tables (s : ManifestStore) :=
  (ms_files s, ms_engine_state s, ms_pending_push s).

Lemma settled_blind x : fault_blind (λ s, settled_tables s = x).
Proof. by intros s faults. Qed.
#[local] Hint Resolve settled_blind : core.

Lemma same_settled s s' : same_tables s s' → settled_tables s' = settled_tables s.
Proof. unfold same_tables. destruct s, s'. cbn. intros [=]. by subst. Qed.

Ltac settled_rows :=
  repeat first
    [ apply keeps_ret | apply keeps_of_result | apply keeps_ok_or | apply keeps_get
    | apply blind_in_transaction; [by intros ? ? ?|] | apply blind_for_each; intros ?
    | apply blind_execute; [by intros ? ? ?|by intros ?] | apply blind_statement; by intros ? ? ?
    | keeps_step; [|] | case_match ].

Section Settled.
Context (x : gmap string FileRow * option EngineRow * gset string).

Local Abbreviation still := (λ s, settled_tables s = x).

Lemma settled_record_unsyncable observed resolved : keeps still (record_unsyncable observed resolved).
Proof. unfold record_unsyncable. settled_rows. Qed.

Lemma settled_record_sealed_blobs blobs : keeps still (record_sealed_blobs blobs).
Proof. unfold record_sealed_blobs. settled_rows. Qed.

Lemma settled_record_tree_nodes nodes key_epoch : keeps still (record_tree_nodes nodes key_epoch).
Proof. unfold record_tree_nodes, record_tree_node_epochs. settled_rows. Qed.

Lemma settled_record_tree_node_epoch key key_epoch : keeps still (record_tree_node_epoch key key_epoch).
Proof. unfold record_tree_node_epoch, record_tree_node_epochs. settled_rows. Qed.

Lemma settled_sealed_blob content_id key_epoch : keeps still (sealed_blob content_id key_epoch).
Proof. unfold sealed_blob. settled_rows. Qed.

Lemma settled_tree_node hash key_epoch : keeps still (tree_node hash key_epoch).
Proof. unfold tree_node. settled_rows. Qed.

Lemma settled_tree_node_key_epoch key : keeps still (tree_node_key_epoch key).
Proof. unfold tree_node_key_epoch. settled_rows. Qed.

Lemma settled_all_files : keeps still all_files.
Proof. unfold all_files. settled_rows. Qed.

Lemma settled_files_in_scopes scopes : keeps still (files_in_scopes scopes).
Proof. unfold files_in_scopes. settled_rows. Qed.

Lemma settled_file_count : keeps still file_count.
Proof. unfold file_count. settled_rows. Qed.

Lemma settled_engine_state : keeps still engine_state.
Proof. unfold engine_state. settled_rows. Qed.

Lemma settled_pending : keeps still pending_push_paths.
Proof. unfold pending_push_paths. settled_rows. Qed.

Lemma settled_outside key_epoch : keeps still (has_files_outside_key_epoch key_epoch).
Proof. unfold has_files_outside_key_epoch. settled_rows. Qed.

End Settled.

#[local] Hint Resolve settled_record_unsyncable settled_record_sealed_blobs settled_record_tree_nodes
  settled_record_tree_node_epoch settled_sealed_blob settled_tree_node settled_tree_node_key_epoch
  settled_all_files settled_files_in_scopes settled_file_count settled_engine_state settled_pending
  settled_outside : keeps.

Lemma keeps_mapM {S E A B} (I : S → Prop) (f : A → M S E B) (l : list A) :
  (∀ a, keeps I (f a)) → keeps I (mapM f l).
Proof. intros Hf. induction l as [|a l IH]; cbn; keeps_go; auto. Qed.

(** ** Publishing asks the ledger, which asks the store *)

Section Publishing.
Context {Obj : Type} `{Blake3} `{NodeCodec} `{Sealing} `{RemoteObjects Obj}.
Context (crypto : WorkspaceCrypto) (P : ManifestStore → Prop) (HP : fault_blind P).

Lemma publish_keeps (objects : Obj) tree hashes epoch room dir :
  keeps (λ p : NodePublisher Obj StoreNodeLedger, np_objects p = objects ∧ P (sl_store (np_ledger p)))
    (publish crypto epoch tree hashes room dir).
Proof.
  revert dir. induction room as [|room IH]; intros dir; cbn [publish]; [apply keeps_throw|].
  assert (∀ hash, keeps (λ p : NodePublisher Obj StoreNodeLedger, np_objects p = objects ∧ P (sl_store (np_ledger p)))
            (ledger_known hash)) as Hknown.
  { intros hash p [Ho Hp]. unfold ledger_known, known, store_lookup, store_known.
    destruct (sl_fresh (np_ledger p) !! hash); [done|].
    assert (keeps P (tree_node hash (sl_key_epoch (np_ledger p)))) as Ht.
    { apply blind_query; [done|]. intros s. apply keeps_ret. }
    specialize (Ht (sl_store (np_ledger p)) Hp). by destruct (tree_node _ _ _) as [[]]. }
  keeps_step; [apply keeps_ok_or|]. keeps_step; [apply Hknown|]. keeps_step; [apply keeps_ret|].
  unfold build_entries, seal_node, sealed_upload, build_payload.
  repeat first [ progress keeps_go | apply keeps_mapM; intros ? | apply IH
               | apply keeps_modify; by intros ? | case_match ].
  all: unfold manifest_result; case_match; keeps_go.
Qed.

Lemma publish_tree_run snapshot (objects objects' : Obj) ledger ledger' r :
  P (sl_store ledger) → publish_tree crypto snapshot objects ledger = (r, (objects', ledger')) →
  P (sl_store ledger') ∧ (objects' = objects ∨ ∃ uploads r, put_manifests uploads objects = (r, objects')).
Proof.
  intros Hs. unfold publish_tree. destruct (decompose _) as [tree|]; [|intros [= <- <- <-]; by auto].
  destruct (subtree_hashes _ _) as [hashes|]; [|intros [= <- <- <-]; by auto].
  pose proof (publish_keeps objects tree hashes (mf_key_epoch snapshot) publish_room ""
    {| np_objects := objects; np_ledger := ledger; np_pending_uploads := []; np_pending_ledger := [] |}
    (conj eq_refl Hs)) as Hp.
  rewrite bind_run. destruct (publish _ _ _ _ _ _ _) as [[root|e] p]; [|intros [= <- <- <-]; cbn in Hp; tauto].
  cbn [snd] in Hp. destruct Hp as [Ho Hp]. rewrite bind_run. unfold commit_pending. rewrite Ho.
  destruct (put_manifests _ _) as [[[]|e] stored] eqn:Ep; intros [= <- <- <-]; (split; [|right; by eexists _, _]); cbn; [|done].
  revert Hp. generalize (np_ledger p). generalize (np_pending_ledger p). intros l.
  induction l as [|[hash key] l IH]; intros q Hq; [exact Hq|]. by apply IH.
Qed.

End Publishing.

(** ** The paths noted as unsyncable *)

Definition noted (path : WorkspacePath) (s : ManifestStore) : Prop := is_Some (ms_unsyncable s !! path).

(** What the table of unsyncable paths says about one path. *)
Definition notes_as (path : WorkspacePath) (x : option UnsyncableRecord) (s : ManifestStore) : Prop :=
  ms_unsyncable s !! path = x.

Lemma notes_blind path x : fault_blind (notes_as path x).
Proof. by intros s faults. Qed.
#[local] Hint Resolve notes_blind : core.

Lemma forget_each path x l s s' : notes_as path x s →
  for_each l (λ q, execute (λ s, s <| ms_unsyncable := delete q (ms_unsyncable s) |>)) s = (Ok tt, s') →
  notes_as path (if decide (path ∈ l) then None else x) s'.
Proof.
  revert x s. induction l as [|q l IH]; intros x s Hs.
  { intros [= <-]. by rewrite decide_False by apply not_elem_of_nil. }
  cbn [for_each]. rewrite bind_run. unfold execute at 1. rewrite bind_run.
  pose proof (blind_statement _ (notes_blind path x) s Hs) as Hb. destruct (statement s) as [[[]|e] s1]; [|done].
  cbn [snd] in Hb. unfold modify. cbn beta iota. destruct (decide (path = q)) as [->|Hne].
  - intros Hr. apply (IH None) in Hr; [|apply lookup_delete_eq]. rewrite decide_True by left.
    by destruct (decide (q ∈ l)).
  - intros Hr. apply (IH x) in Hr; [|unfold notes_as; cbn; by rewrite lookup_delete_ne].
    destruct (decide (path ∈ l)); [rewrite decide_True by (by right)|rewrite decide_False by (rewrite elem_of_cons; tauto)]; done.
Qed.

Lemma note_each path records x s s' : NoDup records.*1 → notes_as path x s →
  for_each records (λ '(q, record), execute (λ s, s <| ms_unsyncable := <[q := record]> (ms_unsyncable s) |>)) s = (Ok tt, s') →
  (∀ record, (path, record) ∈ records → notes_as path (Some record) s') ∧
  (path ∉ records.*1 → notes_as path x s').
Proof.
  revert x s. induction records as [|[q record] records IH]; intros x s Hnd Hs.
  { intros [= <-]. split; [by intros ? ?%not_elem_of_nil|done]. }
  rewrite fmap_cons, NoDup_cons in Hnd. destruct Hnd as [Hq Hnd]. cbn [for_each]. rewrite bind_run.
  unfold execute at 1. rewrite bind_run.
  pose proof (blind_statement _ (notes_blind path x) s Hs) as Hb. destruct (statement s) as [[[]|e] s1]; [|done].
  cbn [snd] in Hb. unfold modify. cbn beta iota. intros Hr. destruct (decide (path = q)) as [->|Hne].
  - apply (IH (Some record)) in Hr as [_ Hr]; [|done|apply lookup_insert_eq]. split.
    + intros r [[= ->]|Hin]%elem_of_cons; [by apply Hr|]. destruct Hq. apply list_elem_of_fmap. by exists (q, r).
    + intros Hn. destruct Hn. by left.
  - apply (IH x) in Hr as [Hin Hout]; [|done|unfold notes_as; cbn; by rewrite lookup_insert_ne]. split.
    + intros r [[= -> ->]|?]%elem_of_cons; [done|by apply Hin].
    + rewrite fmap_cons, elem_of_cons. intros Hn. apply Hout. tauto.
Qed.

(** What a scan found is what the table says of the scanned paths. *)
Lemma record_unsyncable_notes path observed resolved s s' : path ∈ resolved ∨ is_Some (observed !! path) →
  record_unsyncable observed resolved s = (Ok tt, s') → notes_as path (observed !! path) s'.
Proof.
  intros Ho. unfold record_unsyncable. case_bool_decide as He; [case_bool_decide as Hr|]; cbn [andb].
  { subst. rewrite lookup_empty in Ho. destruct Ho as [?%elem_of_empty|[? [=]]]; done. }
  all: unfold in_transaction; destruct (statement s) as [[[]|] s1]; [|done]; rewrite bind_run;
    destruct (for_each (elements resolved) _ s1) as [[[]|] s2] eqn:Ef; [|done];
    destruct (for_each (map_to_list observed) _ s2) as [[[]|] s3] eqn:Eo; [|done];
    apply (forget_each path _ _ _ _ eq_refl) in Ef;
    apply (note_each path _ _ _ _ (NoDup_fst_map_to_list _) Ef) in Eo as [Hin Hout];
    assert (notes_as path (observed !! path) s3) as Hn;
    [|pose proof (blind_statement _ (notes_blind path _) s3 Hn) as Hb; destruct (statement s3) as [[[]|] s4];
      [by intros [= <-]|done]];
    (destruct (observed !! path) as [record|] eqn:Eo'; [apply Hin; by apply elem_of_map_to_list|]);
    (rewrite decide_True in Hout by (apply elem_of_elements; by destruct Ho as [|[? [=]]]));
    apply Hout; intros ([q record] & -> & Hl)%list_elem_of_fmap; apply elem_of_map_to_list in Hl; cbn in *; congruence.
Qed.

Ltac notes_rows :=
  repeat first
    [ apply keeps_ret | apply keeps_of_result | apply keeps_ok_or | apply keeps_get
    | apply blind_in_transaction; [done|] | apply blind_for_each; intros ?
    | apply blind_execute; [done|by intros ?] | apply blind_statement; done
    | keeps_step; [|] | case_match ].

Section Notes.
Context (path : WorkspacePath) (x : option UnsyncableRecord).

Lemma notes_tree_nodes nodes key_epoch : keeps (notes_as path x) (record_tree_nodes nodes key_epoch).
Proof. unfold record_tree_nodes, record_tree_node_epochs. notes_rows. Qed.

Lemma notes_tree_node_epoch key key_epoch : keeps (notes_as path x) (record_tree_node_epoch key key_epoch).
Proof. unfold record_tree_node_epoch, record_tree_node_epochs. notes_rows. Qed.

Lemma notes_all_files : keeps (notes_as path x) all_files.
Proof. unfold all_files. notes_rows. Qed.

Lemma notes_no_change commit settled : keeps (notes_as path x) (commit_push_no_change commit settled).
Proof. unfold commit_push_no_change, apply_ancestor, delete_pending_push_paths. notes_rows. Qed.

Lemma notes_success commit key version settled : keeps (notes_as path x) (commit_push_success commit key version settled).
Proof.
  unfold commit_push_success, apply_ancestor, set_applied, next_materialization_revision, delete_pending_push_paths. notes_rows.
Qed.

End Notes.

(** ** Before the commit *)

Section PushKeeps.
Context {Obj : Type} `{ContentHash} `{Blake3} `{NodeCodec} `{Sealing} `{SegmentedSealing} `{Envelope}.
Context `{RemoteObjects Obj} `{RemoteBlobs Obj}.
Context (deps : PushDeps).
Context (x : gmap string FileRow * option EngineRow * gset string).

Local Abbreviation PM := (M (Pushing Obj) PushError).

(** The tables of a push's store are still those of [x]. *)
Definition waits (s : Pushing Obj) : Prop := settled_tables (pu_store s) = x.

Lemma waits_store {A} (m : SM A) : keeps (λ s, settled_tables s = x) m → keeps waits (push_store m : PM A).
Proof.
  intros Hm s Hs. specialize (Hm (pu_store s) Hs). unfold push_store.
  by destruct (m (pu_store s)) as [[]].
Qed.

Lemma waits_objects {A} (m : M Obj TransportError A) : keeps waits (push_objects m : PM A).
Proof. intros s Hs. unfold push_objects. by destruct (m (pu_objects s)) as [[]]. Qed.

Lemma waits_look : keeps waits (look deps : PM Os).
Proof. by intros s. Qed.

Lemma waits_io {A} (r : Result A IoError) : keeps waits (io_result r : PM A).
Proof. by destruct r; intros s. Qed.

#[local] Hint Resolve waits_objects waits_look waits_io : keeps.
#[local] Hint Extern 2 (keeps waits (push_store _)) => apply waits_store : keeps.

Ltac waits_go :=
  repeat first [ progress keeps_go | apply waits_store | solve [eauto with keeps]
               | apply keeps_modify; by intros ? ].

Lemma waits_blob_known id : keeps waits (blob_known deps id : PM _).
Proof. unfold blob_known. waits_go. Qed.

Lemma waits_blob_record id key len : keeps waits (blob_record deps id key len : PM _).
Proof. unfold blob_record. waits_go. Qed.

#[local] Hint Resolve waits_blob_known waits_blob_record : keeps.

Lemma waits_upload id plaintext : keeps waits (upload_file_blob deps id plaintext : PM _).
Proof. unfold upload_file_blob, seal_file. waits_go. Qed.

Lemma waits_upload_segmented path expected id :
  keeps waits (upload_file_blob_segmented deps path expected id : PM _).
Proof. unfold upload_file_blob_segmented, create_segmented_spool. waits_go. Qed.

#[local] Hint Resolve waits_upload waits_upload_segmented : keeps.

Lemma waits_file path observed row trust : keeps waits (file_candidate deps path observed row trust : PM _).
Proof. unfold file_candidate, file_content, upload_content. waits_go. Qed.

#[local] Hint Resolve waits_file : keeps.

Lemma waits_scan attempts ancestor path trust :
  keeps waits (scan_attempts deps attempts ancestor path trust : PM _).
Proof. induction attempts; cbn [scan_attempts]; unfold scan_observed; waits_go. Qed.

#[local] Hint Resolve waits_scan : keeps.

Lemma waits_scan_all ancestor trust paths c : keeps waits (scan_all deps ancestor trust paths c : PM _).
Proof.
  revert c. induction paths; intros c; cbn [scan_all]; unfold scan_publishable, scan_path; waits_go; auto.
Qed.

#[local] Hint Resolve waits_scan_all : keeps.

Lemma waits_candidate ancestor dirty trust : keeps waits (build_candidate deps ancestor dirty trust : PM _).
Proof. unfold build_candidate. waits_go. Qed.

Lemma waits_settle_uploads : keeps waits (settle_uploads : PM unit).
Proof. unfold settle_uploads. waits_go. Qed.

Lemma waits_upload_manifest snapshot : keeps waits (upload_manifest deps snapshot : PM _).
Proof.
  apply keeps_get_bind. intros s Hs.
  destruct (publish_tree _ _ _ _) as [r [objects ledger]] eqn:Ep.
  destruct (publish_tree_run _ _ (settled_blind x) snapshot (pu_objects s) objects
    (store_ledger_new (pu_store s) (cr_write_epoch (ps_crypto deps))) ledger r Hs Ep) as [Hl _].
  rewrite bind_run. unfold modify. cbn beta iota.
  match goal with |- waits (snd (?m ?s)) => assert (keeps waits m) as Hm; [|by apply Hm] end.
  waits_go.
Qed.

Lemma waits_upload_delta root c : keeps waits (upload_manifest_delta deps root c : PM _).
Proof.
  unfold upload_manifest_delta. keeps_step; [apply keeps_get|]. destruct (patch_tree _ _ _ _) as [[] objects].
  all: waits_go.
Qed.

#[local] Hint Resolve waits_candidate waits_settle_uploads waits_upload_manifest waits_upload_delta : keeps.

Lemma waits_publish_candidate state ancestor rebuild c :
  keeps waits (publish_candidate deps state ancestor rebuild c : PM _).
Proof. unfold publish_candidate. waits_go. Qed.

Lemma waits_rebuild state : keeps waits (needs_epoch_rebuild deps state : PM _).
Proof. unfold needs_epoch_rebuild. waits_go. Qed.

Lemma waits_unsyncable c : keeps waits (record_unsyncable_outcome c : PM unit).
Proof. unfold record_unsyncable_outcome. waits_go. Qed.

Local Abbreviation notes path x := (λ s : Pushing Obj, notes_as path x (pu_store s)).

Lemma notes_store {A} path y (m : SM A) : keeps (notes_as path y) m → keeps (notes path y) (push_store m : PM A).
Proof. intros Hm s Hs. specialize (Hm (pu_store s) Hs). unfold push_store. by destruct (m (pu_store s)) as [[]]. Qed.

(** A path the candidate scanned or found unsyncable. *)
Definition examined (c : Candidate) (path : WorkspacePath) : Prop := path ∈ cd_scanned c ∨ is_Some (cd_unsyncable c !! path).

Lemma notes_unsyncable path c (s s' : Pushing Obj) : examined c path →
  record_unsyncable_outcome c s = (Ok tt, s') → notes path (cd_unsyncable c !! path) s'.
Proof.
  intros Hc. unfold record_unsyncable_outcome, push_store. destruct (record_unsyncable _ _ _) as [[[]|] t] eqn:E; [|done].
  intros [= <-]. eapply record_unsyncable_notes; [|exact E].
  destruct (cd_unsyncable c !! path) as [record|] eqn:Eu; [right; eauto|left]. apply elem_of_filter. split; [done|].
  destruct Hc as [Hc|Hc]; [done|]. rewrite Eu in Hc. by destruct Hc.
Qed.

Lemma notes_publish_candidate path y state ancestor rebuild c :
  keeps (notes path y) (publish_candidate deps state ancestor rebuild c : PM _).
Proof.
  assert (∀ snapshot, keeps (notes path y) (upload_manifest deps snapshot : PM _)) as Hup.
  { intros snapshot. apply keeps_get_bind. intros s Hs.
    destruct (publish_tree _ _ _ _) as [r [objects ledger]] eqn:Ep.
    destruct (publish_tree_run _ _ (notes_blind path y) snapshot (pu_objects s) objects
      (store_ledger_new (pu_store s) (cr_write_epoch (ps_crypto deps))) ledger r Hs Ep) as [Hl _].
    rewrite bind_run. unfold modify. cbn beta iota.
    match goal with |- notes_as path y (pu_store (snd (?m ?t))) => assert (keeps (notes path y) m) as Hm; [|by apply Hm] end.
    case_match; [|apply keeps_throw]. keeps_step; [|apply keeps_ret]. case_match; [apply keeps_ret|].
    apply notes_store, notes_tree_nodes. }
  assert (∀ root, keeps (notes path y) (upload_manifest_delta deps root c : PM _)) as Hdelta.
  { intros root. unfold upload_manifest_delta. keeps_step; [apply keeps_get|]. destruct (patch_tree _ _ _ _) as [[] objects].
    - keeps_step; [apply keeps_modify; by intros ?|]. keeps_step; [apply notes_store, notes_tree_node_epoch|apply keeps_ret].
    - keeps_step; [apply keeps_modify; by intros ?|apply keeps_throw]. }
  unfold publish_candidate. repeat case_match; try apply Hdelta.
  all: keeps_step; [first [apply notes_store, notes_all_files|apply keeps_ret]|]; keeps_step; [apply keeps_of_result|apply Hup].
Qed.

End PushKeeps.

(** ** How a push ends *)

Lemma keeps_run {S E A} (I : S → Prop) (m : M S E A) s r s' : keeps I m → I s → m s = (r, s') → I s'.
Proof. intros Hm Hs Hr. specialize (Hm s Hs). by rewrite Hr in Hm. Qed.

Section Ends.
Context {Obj : Type} `{ContentHash} `{Blake3} `{NodeCodec} `{Sealing} `{SegmentedSealing} `{Envelope}.
Context `{RemoteObjects Obj} `{RemoteBlobs Obj}.
Context (deps : PushDeps).

Definition untouched (s s' : Pushing Obj) : Prop :=
  settled_tables (pu_store s') = settled_tables (pu_store s).

#[local] Instance untouched_preorder : PreOrder untouched.
Proof. split; [done|]. intros a b c. unfold untouched. congruence. Qed.

Lemma waits_untouched s s' : waits (settled_tables (pu_store s)) s' ↔ untouched s s'.
Proof. done. Qed.

(** The hosted ref is proven to hold [key] at [version]. *)
Definition ref_holds (last : option Z) (key : ManifestKey) (version : Z) : Prop :=
  (∃ observed, ps_compare_and_swap deps last key = Some (Advanced observed) ∧ version = ro_version observed) ∨
  (ps_compare_and_swap deps last key = Some Ambiguous ∧
   ∃ current, ps_read_ref deps = Some (Some current) ∧ ro_manifest_key current = key ∧
              version = ro_version current).

(** The reads a push starts from. *)
Record Start (s : Pushing Obj) (dirty : gset WorkspacePath) := {
  st_ancestor : gmap WorkspacePath FileRecord;
  st_state : EngineState;
  st_rebuild : bool;
  st_ancestor_rows :
    table_of (filter (λ '(path, _),
                existsb (λ scope, in_scope scope path) (elements (canonical_paths deps dirty)) = true)
                (ms_files (pu_store s))) st_ancestor;
  st_state_row :
    match ms_engine_state (pu_store s) with
    | Some row => row_to_engine_state row = Ok st_state
    | None => st_state = EngineState_default
    end;
}.
Arguments st_ancestor {s dirty} _.
Arguments st_state {s dirty} _.
Arguments st_rebuild {s dirty} _.

Inductive ended (s : Pushing Obj) (dirty : gset WorkspacePath) (trust : StatTrust)
    (deletions : DeletionAuthorization) (r : Result PushOutcome PushError) (s' : Pushing Obj) : Prop :=
| ended_before :
    untouched s s' → (∃ e, r = Err e) ∨ (∃ current, r = Ok (PushRefLost current)) →
    ended s dirty trust deletions r s'
| ended_commit (start : Start s dirty) c s0 s1 s2 :
    untouched s s0 → pu_objects s0 = pu_objects s → pu_fresh s0 = ∅ →
    build_candidate deps (st_ancestor start) dirty trust s0 = (Ok c, s1) →
    untouched s s2 → (∀ path, examined c path → notes_as path (cd_unsyncable c !! path) (pu_store s2)) →
    candidate_is_empty c = true ∨
      guard_mass_deletion (Z.of_nat (size (ms_files (pu_store s)))) (st_ancestor start)
        (ms_pending_push (pu_store s)) c deletions = Ok tt →
    no_change c s2 = (r, s') ∨
      (∃ key version s3,
         publish_candidate deps (st_state start) (st_ancestor start) (st_rebuild start) c s3 = (Ok key, s2) ∧
         es_applied_manifest_key (st_state start) ≠ Some key ∧
         ref_holds (es_last_ref_version (st_state start)) key version ∧
         commit_advance c key version s2 = (r, s')) →
    ended s dirty trust deletions r s'.

Lemma query_run {A} (f : ManifestStore → SM A) (s : Pushing Obj) r s' :
  (∀ x t, (f x t).2 = t) →
  push_store (statement ;; t ← get; f t) s = (Ok r, s') →
  ∃ t, settled_tables t = settled_tables (pu_store s) ∧ (f t t).1 = Ok r ∧
    untouched s s' ∧ pu_objects s' = pu_objects s.
Proof.
  intros Hf. unfold push_store. rewrite bind_run.
  assert (settled_tables (snd (statement (pu_store s))) = settled_tables (pu_store s)) as Hs.
  { by apply (blind_statement _ (settled_blind _)). }
  destruct (statement (pu_store s)) as [[[]|e] t]; [|done]. cbn [snd] in Hs. rewrite bind_run. unfold get.
  cbn beta iota. pose proof (Hf t t) as Ht. destruct (f t t) as [[a|e] t'] eqn:Ef; [|done]. cbn in Ht. subst t'.
  intros [= <- <-]. exists t. split; [done|]. rewrite Ef. done.
Qed.

Lemma resolve_cas_run c key last outcome (s : Pushing Obj) r s' :
  ps_compare_and_swap deps last key = Some outcome →
  resolve_cas deps c key outcome s = (r, s') →
  (s' = s ∧ ((∃ e, r = Err e) ∨ (∃ current, r = Ok (PushRefLost current)))) ∨
  (∃ version, ref_holds last key version ∧ commit_advance c key version s = (r, s')).
Proof.
  intros Hcas. destruct outcome as [observed|current|]; cbn [resolve_cas].
  - intros Hr. right. exists (ro_version observed). split; [by left; eauto|done].
  - intros [= <- <-]. left. eauto.
  - destruct (ps_read_ref deps) as [[current|]|] eqn:Eref.
    + rewrite bind_run. unfold ok_or, m_ret. cbn beta iota zeta.
      destruct (String.eqb_spec (ro_manifest_key current) key) as [Hkey|Hkey].
      * intros Hr. right. exists (ro_version current). split; [right; split; [done|by exists current]|exact Hr].
      * intros [= <- <-]. left. eauto.
    + intros [= <- <-]. left. eauto.
    + intros [= <- <-]. left. eauto.
Qed.

Ltac push_stop Hs Hr :=
  apply ended_before; [eapply (keeps_run (waits _)); [|exact Hs|exact Hr]|by left; eexists].

Lemma rebuild_objects state o :
  keeps (λ s : Pushing Obj, pu_objects s = o) (needs_epoch_rebuild deps state).
Proof.
  unfold needs_epoch_rebuild, push_store. intros s Hs. rewrite bind_run.
  destruct (has_files_outside_key_epoch _ _) as [[[]|] ?]; [done| |done].
  destruct (es_applied_manifest_key state); [|done]. rewrite bind_run. cbn.
  by destruct (tree_node_key_epoch _ _) as [[]].
Qed.

(** After the candidate is built. *)
Lemma push_finish (s : Pushing Obj) dirty trust deletions (start : Start s dirty) c s0 s1 r s' :
  untouched s s0 → pu_objects s0 = pu_objects s → pu_fresh s0 = ∅ →
  build_candidate deps (st_ancestor start) dirty trust s0 = (Ok c, s1) →
  (settle_uploads ;;
   record_unsyncable_outcome c ;;
   if candidate_is_empty c && negb (st_rebuild start) then no_change c else
   of_result (guard_mass_deletion (Z.of_nat (size (ms_files (pu_store s)))) (st_ancestor start)
                (ms_pending_push (pu_store s)) c deletions) ;;
   manifest_key ← publish_candidate deps (st_state start) (st_ancestor start) (st_rebuild start) c;
   if bool_decide (es_applied_manifest_key (st_state start) = Some manifest_key) then no_change c else
   outcome ← ok_or PushTransportErr
               (ps_compare_and_swap deps (es_last_ref_version (st_state start)) manifest_key);
   resolve_cas deps c manifest_key outcome) s1 = (r, s') →
  ended s dirty trust deletions r s'.
Proof.
  intros K0 Ho Hf Hb.
  assert (waits (settled_tables (pu_store s)) s1) as K1.
  { eapply keeps_run; [apply waits_candidate|exact K0|exact Hb]. }
  intros [(e & Hr & ->)|([] & s2 & K2 & Hr)]%bind_inv; [push_stop K1 Hr; apply (waits_settle_uploads deps)|].
  pose proof (keeps_run _ _ _ _ _ (waits_settle_uploads deps _) K1 K2) as Q2.
  apply bind_inv in Hr as [(e & Hr & ->)|([] & s3 & K3 & Hr)]; [push_stop Q2 Hr; apply waits_unsyncable|].
  pose proof (keeps_run _ _ _ _ _ (waits_unsyncable _ _) Q2 K3) as Q3.
  assert (∀ path, examined c path → notes_as path (cd_unsyncable c !! path) (pu_store s3)) as N3
    by (intros path Hc; by eapply notes_unsyncable).
  destruct (candidate_is_empty c && negb (st_rebuild start)) eqn:Ee.
  { apply andb_true_iff in Ee as [Ee _].
    apply (ended_commit s dirty trust deletions _ _ start c s0 s1 s3); [done..|by left|by left]. }
  apply bind_inv in Hr as [(e & Hr & ->)|([] & s4 & Hg & Hr)]; [push_stop Q3 Hr; apply keeps_of_result|].
  unfold of_result in Hg. destruct (guard_mass_deletion _ _ _ _ _) as [[]|] eqn:Eg; [|done].
  injection Hg as <-.
  apply bind_inv in Hr as [(e & Hr & ->)|(key & s5 & K5 & Hr)]; [push_stop Q3 Hr; apply waits_publish_candidate|].
  assert (waits (settled_tables (pu_store s)) s5) as Q5.
  { eapply keeps_run; [apply waits_publish_candidate|exact Q3|exact K5]. }
  assert (∀ path, examined c path → notes_as path (cd_unsyncable c !! path) (pu_store s5)) as N5
    by (intros path Hc; eapply (keeps_run (λ s : Pushing Obj, notes_as path (cd_unsyncable c !! path) (pu_store s)));
        [apply notes_publish_candidate|by apply N3|exact K5]).
  destruct (bool_decide_reflect (es_applied_manifest_key (st_state start) = Some key)) as [Hk|Hk].
  { apply (ended_commit s dirty trust deletions _ _ start c s0 s1 s5); [done..|by right|by left]. }
  apply bind_inv in Hr as [(e & Hr & ->)|(outcome & s6 & K6 & Hr)]; [push_stop Q5 Hr; apply keeps_ok_or|].
  destruct (ps_compare_and_swap _ _ _) as [o|] eqn:Ecas; [|done]. injection K6 as <- <-.
  destruct (resolve_cas_run c key _ o s5 r s' Ecas Hr) as [[-> Hend]|(version & Href & Hc)].
  { by apply ended_before. }
  apply (ended_commit s dirty trust deletions _ _ start c s0 s1 s5); [done..|by right|].
  right. by exists key, version, s3.
Qed.

(** One read of the start: its failure ends the push, its answer is about [s]. *)
Ltac push_query Hr Hw a s1 t Ht Hq Ho Hw1 :=
  let Hf := fresh in
  apply bind_inv in Hr as [(? & Hr & ->)|(a & s1 & Hq & Hr)];
  [push_stop Hw Hr; apply waits_store; eauto with keeps nocore|];
  apply query_run in Hq as (t & Ht & Hq & Hf & Ho); [|by intros ? ?; cbn; repeat case_match];
  pose proof (transitivity Hw Hf : untouched _ _) as Hw1; try rewrite Hw in Ht; clear Hf.

Lemma push_ended (s : Pushing Obj) dirty trust deletions r s' :
  push_scanned deps dirty trust deletions s = (r, s') → ended s dirty trust deletions r s'.
Proof.
  unfold push_scanned. intros Hr. assert (waits (settled_tables (pu_store s)) s) as Hw by done.
  push_query Hr Hw ancestor s1 t1 Ht1 Ha Ho1 Hw1. injection Ht1 as Ht1 _ _.
  cbn in Ha. rewrite Ht1 in Ha. apply read_rows_Ok in Ha.
  push_query Hr Hw1 count s2 t2 Ht2 Hc Ho2 Hw2. injection Ht2 as Ht2 _ _.
  cbn in Hc. rewrite Ht2 in Hc. injection Hc as <-.
  push_query Hr Hw2 state s3 t3 Ht3 Hst Ho3 Hw3. injection Ht3 as _ Ht3 _.
  push_query Hr Hw3 pending s4 t4 Ht4 Hp Ho4 Hw4. injection Ht4 as _ _ Ht4.
  cbn in Hp. rewrite Ht4 in Hp. injection Hp as <-.
  apply bind_inv in Hr as [(e & Hr & ->)|(rebuild & s5 & H5' & Hr)]; [push_stop Hw4 Hr; apply waits_rebuild|].
  pose proof (keeps_run _ _ _ _ _ (waits_rebuild deps _ _) Hw4 H5') as Hw5.
  pose proof (keeps_run _ _ _ _ _ (rebuild_objects state _) eq_refl H5') as Ho5.
  rewrite bind_run in Hr. unfold modify in Hr.
  assert (waits (settled_tables (pu_store s)) (s5 <| pu_fresh := ∅ |>)) as Hw6 by exact Hw5.
  apply bind_inv in Hr as [(e & Hr & ->)|(c & s6 & H6' & Hr)]; [push_stop Hw6 Hr; apply waits_candidate|].
  assert (match ms_engine_state (pu_store s) with
          | Some row => row_to_engine_state row = Ok state
          | None => state = EngineState_default
          end) as Hrow.
  { rewrite <- Ht3. cbn in Hst. destruct (ms_engine_state t3); cbn in Hst; congruence. }
  refine (push_finish s dirty trust deletions (Build_Start s dirty ancestor state rebuild Ha Hrow)
    c (s5 <| pu_fresh := ∅ |>) s6 r s' _ _ eq_refl H6' Hr); [exact Hw6|cbn in *; congruence].
Qed.

End Ends.

(** ** What a scan saw *)

Section Seen.
Context {Obj : Type} `{ContentHash} `{Blake3} `{NodeCodec} `{Sealing} `{SegmentedSealing} `{Envelope}.
Context `{RemoteObjects Obj} `{RemoteBlobs Obj}.
Context (deps : PushDeps).

Local Abbreviation PM := (M (Pushing Obj) PushError).

(** At some look of the engine, [path] was gone. *)
Definition seen_gone (path : WorkspacePath) : Prop :=
  ∃ look, observe_classified (ps_disk deps look) path = ObAbsent.

(** At some look of the engine, [path] was an entry of kind [kind]. *)
Definition seen_as (kind : EntryKind) (path : WorkspacePath) : Prop :=
  ∃ look observed, observe_classified (ps_disk deps look) path = ObPresent observed ∧ ob_kind observed = kind.

(** The row and the entry of an upsert say the same. *)
Definition row_says (record : FileRecord) (entry : ManifestEntry) : Prop :=
  file_record_to_entry record = Ok entry.

Definition scan_seen (path : WorkspacePath) (scan : PathScan) : Prop :=
  match scan with
  | ScanRemove => seen_gone path
  | ScanUpsert record entry => seen_as (entry_kind entry) path ∧ row_says record entry
  | _ => True
  end.

Lemma file_candidate_entry path observed row trust :
  ob_kind observed = File →
  ensures (λ _, True) (file_candidate deps path observed row trust : PM _)
    (λ result _, match result with
                 | SrEntry record entry => entry_kind entry = ob_kind observed ∧ row_says record entry
                 | _ => True
                 end).
Proof.
  intros Hk. unfold file_candidate. case_match; [by apply ensures_ret|].
  assert (∀ id key, entry_kind (FileEntry (ob_size observed) (ob_mode observed) id key
                                  (cr_write_epoch (ps_crypto deps))) = ob_kind observed) as He by done.
  eapply (ensures_bind _ _ _ (λ content _, match content with Err (SrEntry _ _) => False | _ => True end)).
  { unfold file_content. apply ensures_then; [apply keeps_any|]. intros os.
    repeat first [case_match | apply ensures_ret; by intros | apply ensures_then; [apply keeps_any|]; intros ?]. }
  intros [[id plaintext]|[]]; [|by intros ? []|by apply ensures_ret..].
  assert (ensures (λ s : Pushing Obj, True) (upload_content deps path observed id plaintext
            (ps_large_file_threshold deps <=? ob_size observed) : PM _)
    (λ result _, match result with
                 | SrEntry record entry => entry_kind entry = ob_kind observed ∧ row_says record entry
                 | _ => True
                 end)) as Hup.
  { unfold upload_content. case_match;
      repeat first [apply ensures_then; [apply keeps_any|]; intros ? | case_match | by apply ensures_ret]. }
  destruct row as [row|]; [|done]. case_match; [by apply ensures_ret|]. case_match; [|done].
  apply ensures_then; [apply keeps_any|]. intros key. by apply ensures_ret.
Qed.

Lemma scan_observed_entry path observed row trust :
  ensures (λ _, True) (scan_observed deps path observed row trust : PM _)
    (λ result _, match result with
                 | SrEntry record entry => entry_kind entry = ob_kind observed ∧ row_says record entry
                 | _ => True
                 end).
Proof.
  unfold scan_observed. destruct (ob_kind observed) eqn:Hk.
  - rewrite <- Hk. by apply file_candidate_entry.
  - apply ensures_ret. intros _ _. unfold directory_scan. by destruct (is_some_and _ _).
  - apply ensures_ret. intros _ _. unfold symlink_scan. destruct (negb _); [done|].
    by destruct (is_some_and _ _).
Qed.

Lemma scan_attempts_seen attempts ancestor path trust :
  ensures (λ _, True) (scan_attempts deps attempts ancestor path trust : PM _) (λ scan _, scan_seen path scan).
Proof.
  induction attempts as [|attempts IH]; cbn [scan_attempts]; [by apply ensures_ret|].
  apply (ensures_bind _ _ _ (λ os _, ∃ look, os = ps_disk deps look)).
  { intros s _. cbn. eauto. }
  intros os s [look Hos]. destruct (observe_classified os path) as [|observed|reason] eqn:Eo.
  - cbn. exists look. by rewrite <- Hos.
  - rewrite bind_run.
    pose proof (scan_observed_entry path observed (ancestor !! path) trust s I) as Hr.
    destruct (scan_observed _ _ _ _ _ s) as [[[]|e] s']; try done.
    + cbn. destruct Hr as [Hr1 Hr2]. split; [|done]. exists look, observed. by rewrite <- Hos, Hr1.
    + by apply IH.
  - done.
Qed.

(** The raw candidate of a scan of [paths]. *)
Definition candidate_seen (paths : gset WorkspacePath) (c : Candidate) : Prop :=
  (∀ path, path ∈ cd_removals c → path ∈ paths ∧ seen_gone path) ∧
  (∀ path record entry, cd_upserts c !! path = Some (record, entry) →
     path ∈ paths ∧ seen_as (entry_kind entry) path ∧ row_says record entry).

Lemma note_scan_seen paths path scan c : path ∈ paths → scan_seen path scan →
  candidate_seen paths c → candidate_seen paths (note_scan path scan c).
Proof.
  intros Hp Hs [Hr Hu]. destruct scan as [record entry| | | | |]; cbn in *; try done.
  - split; [done|]. cbn. intros q record' entry'. rewrite lookup_insert_Some.
    intros [[<- [= <- <-]]|[_ Hq]]; [done|by apply Hu].
  - split; [|done]. cbn. intros q. rewrite elem_of_union, elem_of_singleton. intros [->|Hq]; [done|by apply Hr].
Qed.

Lemma scan_all_seen ancestor trust paths l c : (∀ path, path ∈ l → path ∈ paths) →
  candidate_seen paths c →
  ensures (λ _, True) (scan_all deps ancestor trust l c : PM _) (λ c _, candidate_seen paths c).
Proof.
  revert c. induction l as [|path l IH]; intros c Hl Hc; cbn [scan_all]; [by apply ensures_ret|].
  apply (ensures_bind _ _ _ (λ scan _, scan_seen path scan)).
  { unfold scan_publishable. case_match; [apply scan_attempts_seen|by apply ensures_ret]. }
  intros scan s Hscan. apply (IH (note_scan path scan c)); [|by apply note_scan_seen; [apply Hl; left|..]|done].
  intros q Hq. apply Hl. by right.
Qed.

(** Why a removal is justified: the path, or a directory above it, was seen gone or
    replaced. *)
Definition removal_justified (paths : gset WorkspacePath) (path : WorkspacePath) : Prop :=
  (path ∈ paths ∧ seen_gone path) ∨
  (∃ root, root ∈ paths ∧ is_descendant path root = true ∧
           (seen_gone root ∨ (∃ kind, kind ≠ Directory ∧ seen_as kind root))).

Lemma below_root_inv roots path : below_destructive_root roots path = true →
  ∃ root, root ∈ roots ∧ is_descendant path root = true.
Proof.
  unfold below_destructive_root. rewrite existsb_exists. intros (root & Hin & [_ Hd]%andb_true_iff).
  exists root. split; [|done]. by apply elem_of_elements, list_elem_of_In.
Qed.

Lemma below_root_justified paths c ancestor path : candidate_seen paths c →
  below_destructive_root (destructive_roots c ancestor) path = true → removal_justified paths path.
Proof.
  intros [Hr Hu] (root & Hin & Hdesc)%below_root_inv. right. exists root.
  unfold destructive_roots in Hin. rewrite elem_of_union, elem_of_dom in Hin. destruct Hin as [Hin|[[record entry] Hin]].
  - destruct (Hr root Hin). auto.
  - apply map_lookup_filter_Some in Hin as [Hin [_ Hkind]]. destruct (Hu root record entry Hin) as (? & Hs & _).
    split; [done|]. split; [done|]. right. by exists (entry_kind entry).
Qed.

Lemma expand_removals_seen paths c ancestor path : candidate_seen paths c →
  path ∈ cd_removals (expand_subtree_removals c ancestor) →
  removal_justified paths path ∧ (path ∈ paths ∨ path ∈ dom ancestor).
Proof.
  intros Hc. pose proof Hc as [Hr _]. unfold expand_subtree_removals. case_bool_decide as He.
  { intros Hp. destruct (Hr path Hp). split; [by left|by left]. }
  cbn. rewrite elem_of_union, elem_of_filter. intros [Hp|[Hb Hd]].
  { destruct (Hr path Hp). split; [by left|by left]. }
  split; [by eapply below_root_justified|by right].
Qed.

(** The raw candidate behind a built one. *)
Lemma build_candidate_raw ancestor dirty trust s c s' :
  (build_candidate deps ancestor dirty trust : PM _) s = (Ok c, s') →
  ∃ raw s1 os, scan_all deps ancestor trust (merge_sort str_le (elements (canonical_paths deps dirty)))
             Candidate_default s = (Ok raw, s1) ∧
    candidate_seen (canonical_paths deps dirty) raw ∧
    c = prove_candidate deps os ((expand_subtree_removals raw ancestor) <| cd_scanned := canonical_paths deps dirty |>).
Proof.
  unfold build_candidate. rewrite bind_run.
  pose proof (scan_all_seen ancestor trust (canonical_paths deps dirty)
    (merge_sort str_le (elements (canonical_paths deps dirty))) Candidate_default) as Hs.
  destruct (scan_all _ _ _ _ _ s) as [[raw|e] s1] eqn:Es; [|done].
  rewrite bind_run. cbn beta iota. intros [= <- <-]. eexists raw, s1, _. split; [done|]. split; [|reflexivity].
  refine (_ (Hs _ _ s I)); [by rewrite Es|..].
  - intros path. rewrite merge_sort_Permutation. apply elem_of_elements.
  - split; [by intros ? ?%elem_of_empty|]. intros ? ? ?. cbn. by rewrite lookup_empty.
Qed.

Lemma build_candidate_seen ancestor dirty trust s c s' :
  (build_candidate deps ancestor dirty trust : PM _) s = (Ok c, s') →
  (∀ path, path ∈ cd_removals c → removal_justified (canonical_paths deps dirty) path ∧
     (path ∈ canonical_paths deps dirty ∨ path ∈ dom ancestor)).
Proof. intros (raw & s1 & os & _ & Hc & ->)%build_candidate_raw path Hp. by eapply expand_removals_seen. Qed.

End Seen.

(** ** The effect of a commit *)

Lemma apply_ancestor_rows commit s s' : apply_ancestor commit s = (Ok tt, s') →
  (∀ q record, ac_upserts commit !! q = Some record →
     ∃ row, file_to_row record = Ok row ∧ ms_files s' !! q = Some row) ∧
  (∀ q, ac_upserts commit !! q = None →
     ms_files s' !! q = if decide (q ∈ ac_removals commit) then None else ms_files s !! q).
Proof.
  unfold apply_ancestor. rewrite bind_run.
  destruct (for_each (elements _) _ s) as [[[]|e] s1] eqn:Er; [|done]. intros Hu.
  pose proof (remove_rows_Ok _ _ _ Er) as Hr.
  destruct (upsert_rows_Ok _ _ _ (NoDup_fst_map_to_list _) Hu) as [Hin Hout]. split.
  - intros q record Hq. apply Hin. by apply elem_of_map_to_list.
  - intros q Hq. rewrite Hout.
    2:{ intros ([q' record] & -> & Hl)%list_elem_of_fmap. apply elem_of_map_to_list in Hl. cbn in Hq. congruence. }
    rewrite Hr. destruct (decide (q ∈ elements _)) as [Hi|Hi]; rewrite elem_of_elements in Hi.
    + by rewrite decide_True.
    + by rewrite decide_False.
Qed.

(** A transaction that starts with the ancestor's rows and then leaves them alone. *)
Lemma commit_rows commit (rest : SM unit) s s' :
  (∀ x, keeps (λ s, ms_files s = x) rest) →
  in_transaction (apply_ancestor commit ;; rest) s = (Ok tt, s') →
  ∃ s1, ms_files s1 = ms_files s ∧ ∃ s2, apply_ancestor commit s1 = (Ok tt, s2) ∧ ms_files s' = ms_files s2.
Proof.
  intros Hrest (s1 & s2 & Hs1 & Hb & ->)%in_transaction_Ok. exists s1. split; [done|].
  rewrite bind_run in Hb. destruct (apply_ancestor commit s1) as [[[]|e] s3] eqn:Ea; [|done].
  exists s3. split; [done|]. pose proof (Hrest (ms_files s3) s3 eq_refl) as Hk. by rewrite Hb in Hk.
Qed.

Section Commit.
Context {Obj : Type} (c : Candidate).

(** How the ancestor's rows move when [c] is committed. *)
Definition rows_committed (s s' : ManifestStore) : Prop :=
  (∀ q record, ac_upserts (ancestor_commit c) !! q = Some record →
     ∃ row, file_to_row record = Ok row ∧ ms_files s' !! q = Some row) ∧
  (∀ q, ac_upserts (ancestor_commit c) !! q = None →
     ms_files s' !! q = if decide (q ∈ cd_removals c) then None else ms_files s !! q).

Lemma commit_rows_committed rest s s' :
  (∀ x, keeps (λ s, ms_files s = x) rest) →
  in_transaction (apply_ancestor (ancestor_commit c) ;; rest) s = (Ok tt, s') → rows_committed s s'.
Proof.
  intros Hrest (s1 & Hs1 & s2 & Ha & Hs')%commit_rows; [|done].
  apply apply_ancestor_rows in Ha as [Hu Hr]. split; [|]; intros q; rewrite ?Hs'; [apply Hu|].
  intros Hq. rewrite Hr by done. by rewrite Hs1.
Qed.

Lemma no_change_run (s : Pushing Obj) r s' : no_change c s = (r, s') →
  (untouched s s' ∧ ∃ e, r = Err e) ∨
  (r = Ok (PushNoChange (cd_skipped c)) ∧ rows_committed (pu_store s) (pu_store s') ∧
   ms_engine_state (pu_store s') = ms_engine_state (pu_store s)).
Proof.
  unfold no_change, push_store. rewrite bind_run.
  destruct (commit_push_no_change _ _ _) as [[[]|e] t] eqn:Et; intros [= <- <-].
  - right. split; [done|]. split.
    + unfold commit_push_no_change in Et. eapply commit_rows_committed; [|exact Et]. apply keeps_files_settle.
    + cbn. refine (_ (blind_in_transaction (λ s0, ms_engine_state s0 = ms_engine_state (pu_store s)) _
        (apply_ancestor (ancestor_commit c) ;; delete_pending_push_paths (settled_paths c)) _ (pu_store s) eq_refl)).
      * unfold commit_push_no_change in Et. by rewrite Et.
      * by intros ? ?.
      * unfold apply_ancestor, delete_pending_push_paths. settled_rows.
  - left. split; [|eauto]. by apply same_settled, (in_transaction_fails _ _ _ _ Et).
Qed.

Lemma set_applied_Ok key version s s' : set_applied key version s = (Ok tt, s') →
  ∃ row, ms_engine_state s' = Some row ∧ er_applied_manifest_key row = Some key ∧
    er_last_ref_version row = Some version.
Proof.
  unfold set_applied. rewrite bind_run. destruct (next_materialization_revision s) as [[next|] s1]; [|done].
  unfold execute. rewrite bind_run. destruct (statement s1) as [[[]|] s2]; [|done]. intros [= <-]. cbn. eauto.
Qed.

Definition applied_row (key : ManifestKey) (version : Z) (s : ManifestStore) : Prop :=
  ∃ row, ms_engine_state s = Some row ∧ er_applied_manifest_key row = Some key ∧
    er_last_ref_version row = Some version.

Lemma advance_run (s : Pushing Obj) key version r s' : commit_advance c key version s = (r, s') →
  (untouched s s' ∧ ∃ e, r = Err e) ∨
  (r = Ok (PushAdvanced key version (cd_skipped c)) ∧ rows_committed (pu_store s) (pu_store s') ∧
   applied_row key version (pu_store s')).
Proof.
  unfold commit_advance, push_store, commit_push_success. rewrite bind_run, bind_run. unfold of_result.
  destruct (to_i64 version) as [v|e] eqn:Ev.
  2:{ intros [= <- <-]. left. split; [done|eauto]. }
  assert (v = version) as -> by (unfold to_i64 in Ev; by case_match; simplify_eq).
  destruct (in_transaction _ _) as [[[]|e] t] eqn:Et; intros [= <- <-].
  - right. split; [done|]. split.
    + eapply commit_rows_committed; [|exact Et]. intros x.
      keeps_step; [apply keeps_files_set_applied|]. keeps_step; [apply keeps_files_ratchet|apply keeps_files_settle].
    + cbn. unfold in_transaction in Et. destruct (statement _) as [[[]|] s1]; [|done].
      destruct (mbind (M := M ManifestStore ManifestStoreError) _ _ s1) as [[[]|] s2] eqn:Eb; [|done].
      assert (applied_row key version s2) as Ha.
      { rewrite bind_run in Eb. destruct (apply_ancestor _ s1) as [[[]|] s3]; [|done]. rewrite bind_run in Eb.
        destruct (set_applied key version s3) as [[[]|] s4] eqn:E4; [|done]. apply set_applied_Ok in E4.
        eapply (keeps_run (applied_row key version)); [|exact E4|exact Eb].
        keeps_step.
        - apply blind_execute; [by intros ? ?|]. intros s5 (row & Hrow & Hk & Hv). unfold upsert_engine. cbn.
          rewrite Hrow. cbn. eexists. split; [done|]. by destruct (ratchet_advances _ _).
        - unfold delete_pending_push_paths. apply blind_for_each. intros path.
          apply blind_execute; by intros ?. }
      pose proof (blind_statement (applied_row key version) ltac:(by intros ? ?) s2 Ha) as Hb.
      destruct (statement s2) as [[[]|] s3]; [|done]. by injection Et as <-.
  - left. split; [|eauto]. by apply same_settled, (in_transaction_fails _ _ _ _ Et).
Qed.

End Commit.

(** ** The theorems *)

(** The version of the ref the store last committed. *)
Definition last_seen (s : ManifestStore) : option Z := ms_engine_state s ≫= er_last_ref_version.

(** The rows a push took out of the ancestor. *)
Definition removed_rows (s s' : ManifestStore) : gset WorkspacePath :=
  dom (ms_files s) ∖ dom (ms_files s').

Lemma state_last_seen s state :
  match ms_engine_state s with
  | Some row => row_to_engine_state row = Ok state
  | None => state = EngineState_default
  end → es_last_ref_version state = last_seen s.
Proof.
  unfold last_seen. destruct (ms_engine_state s) as [row|]; [|by intros ->]. cbn.
  unfold row_to_engine_state, option_from_i64, from_i64.
  destruct (er_last_ref_version row) as [last|]; cbn; [destruct (0 <=? last); cbn; [|done]|];
    destruct (0 <=? er_materialization_revision row); cbn; try done;
    destruct (er_highest_verified_ref_version row) as [h|]; cbn; try destruct (0 <=? h); cbn; try done;
    destruct (applied_ref _); cbn; intros [= <-]; done.
Qed.

Lemma in_scope_self path : in_scope path path = true.
Proof. unfold in_scope. by rewrite String.eqb_refl. Qed.

Section Promises.
Context {Obj : Type} `{ContentHash} `{Blake3} `{NodeCodec} `{Sealing} `{SegmentedSealing} `{Envelope}.
Context `{RemoteObjects Obj} `{RemoteBlobs Obj}.
Context (deps : PushDeps) (dirty : gset WorkspacePath).
Context (deletions : DeletionAuthorization) (evidence : WatcherEvidence).
Context (s s' : Pushing Obj) (r : Result PushOutcome PushError).

Local Abbreviation run_push := (push_dirty_paths_authorized deps dirty deletions evidence).

(** C2: The committed ancestor is sacred.  Whatever the disk, the transport and SQLite
    do, a push that fails or loses the ref leaves the ancestor rows, the applied ref and
    the pending paths exactly as they were; one that reports no change leaves the applied
    ref; and one that reports an advance was told by the hosted ref that it now holds the
    published manifest at that version — by the swap's own answer, or after an ambiguous
    answer by reading the ref back — and has committed that manifest and version. *)
Theorem push_ancestor_sacred : run_push s = (r, s') →
  match r with
  | Err _ | Ok (PushRefLost _) => settled_tables (pu_store s') = settled_tables (pu_store s)
  | Ok (PushNoChange _) => ms_engine_state (pu_store s') = ms_engine_state (pu_store s)
  | Ok (PushAdvanced key version _) =>
      ref_holds deps (last_seen (pu_store s)) key version ∧ applied_row key version (pu_store s')
  end.
Proof.
  intros Hp. apply push_ended in Hp as [Hu [[e ->]|[current ->]]|start c s0 s1 s2 _ _ _ _ Hu _ _ Hend];
    [done..|].
  injection Hu as Hf He Hpend. destruct Hend as [Hend|(key & version & s3 & _ & _ & Href & Hend)].
  - apply no_change_run in Hend as [[Hw [e ->]]|(-> & _ & Heng)]; [|congruence].
    rewrite Hw. unfold settled_tables. congruence.
  - apply advance_run in Hend as [[Hw [e ->]]|(-> & _ & Happ)].
    + rewrite Hw. unfold settled_tables. congruence.
    + split; [|done]. rewrite <- (state_last_seen _ _ (st_state_row deps _ _ start)). done.
Qed.

(** What a push that commits does to the rows. *)
Lemma push_rows : run_push s = (r, s') →
  ms_files (pu_store s') = ms_files (pu_store s) ∨
  (∃ (start : Start deps s dirty) trust c s0 s1,
     build_candidate deps (st_ancestor deps s dirty start) dirty trust s0 = (Ok c, s1) ∧
     (candidate_is_empty c = true ∨
      guard_mass_deletion (Z.of_nat (size (ms_files (pu_store s)))) (st_ancestor deps s dirty start)
        (ms_pending_push (pu_store s)) c deletions = Ok tt) ∧
     rows_committed c (pu_store s) (pu_store s')).
Proof.
  intros Hp. apply push_ended in Hp as [Hu _|start c s0 s1 s2 _ _ _ Hb Hu _ Hg Hend].
  { left. by injection Hu. }
  assert (untouched s2 s' ∨ rows_committed c (pu_store s2) (pu_store s')) as [Hw|Hrows].
  { destruct Hend as [Hend|(key & version & s3 & _ & _ & _ & Hend)].
    - apply no_change_run in Hend as [[Hw _]|(_ & Hrows & _)]; auto.
    - apply advance_run in Hend as [[Hw _]|(_ & Hrows & _)]; auto. }
  - left. injection Hw as Hw _ _. injection Hu as Hu _ _. congruence.
  - right. eexists start, _, c, s0, s1. split; [exact Hb|]. split; [done|]. injection Hu as Hu _ _.
    unfold rows_committed in *. by rewrite <- Hu.
Qed.

Lemma removed_rows_removals c path : rows_committed c (pu_store s) (pu_store s') →
  path ∈ removed_rows (pu_store s) (pu_store s') → path ∈ cd_removals c.
Proof.
  intros [Hup Hout]. unfold removed_rows. rewrite elem_of_difference, elem_of_dom, not_elem_of_dom.
  intros [[row Hrow] Hgone]. destruct (ac_upserts (ancestor_commit c) !! path) as [record|] eqn:Hu.
  { destruct (Hup path record Hu) as (row' & _ & Hr). congruence. }
  specialize (Hout path Hu). rewrite Hgone in Hout. destruct (decide _) as [|]; [done|]. congruence.
Qed.

(** C7: A push never removes a path it did not see gone.  Every row that leaves the
    ancestor in a push is a dirty path that some look at the disk found absent, or lies
    below a dirty path that a look found absent or found to be a file or a link where a
    directory was; that a look could not read the path is never the reason. *)
Theorem push_removes_only_gone path : run_push s = (r, s') →
  path ∈ removed_rows (pu_store s) (pu_store s') →
  removal_justified deps (canonical_paths deps dirty) path.
Proof.
  intros [Hf|(start & trust & c & s0 & s1 & Hb & _ & Hrows)]%push_rows Hin.
  { unfold removed_rows in Hin. rewrite Hf, difference_diag_L in Hin. by apply elem_of_empty in Hin. }
  eapply build_candidate_seen; [exact Hb|]. by apply removed_rows_removals.
Qed.

(** The rows that leave are counted by the breaker. *)
Lemma removed_rows_counted (start : Start deps s dirty) c trust s0 s1 :
  build_candidate deps (st_ancestor deps s dirty start) dirty trust s0 = (Ok c, s1) →
  rows_committed c (pu_store s) (pu_store s') →
  removed_rows (pu_store s) (pu_store s')
  ⊆ counted_removals (st_ancestor deps s dirty start) (ms_pending_push (pu_store s)) c.
Proof.
  intros Hb Hrows path Hin. pose proof (removed_rows_removals c path Hrows Hin) as Hrm.
  unfold counted_removals. apply elem_of_filter. split; [|done]. left.
  destruct (build_candidate_seen _ _ _ _ _ _ _ Hb path Hrm) as [_ [Hp|Hp]]; [|done].
  unfold removed_rows in Hin. apply elem_of_difference in Hin as [Hin _]. apply elem_of_dom in Hin as [row Hrow].
  pose proof (st_ancestor_rows deps _ _ start path) as Ht. rewrite (map_lookup_filter_Some_2 _ _ _ row) in Ht.
  - apply elem_of_dom. cbn in Ht. destruct (st_ancestor deps s dirty start !! path); [eauto|done].
  - done.
  - apply existsb_exists. exists path. split; [|apply in_scope_self].
    by apply list_elem_of_In, elem_of_elements.
Qed.

(** C38: One push never takes more than a quarter of the ancestor away (or 64 rows, where
    that is more), unless an explicit operation asked for it or every row it takes was
    confirmed by path. *)
Theorem push_removals_bounded : run_push s = (r, s') →
  let removed := removed_rows (pu_store s) (pu_store s') in
  Z.of_nat (size removed) <= 64 `max` (Z.of_nat (size (ms_files (pu_store s))) / 4) ∨
  deletions = ExplicitOperation ∨
  (∃ confirmed, deletions = ConfirmedPaths confirmed ∧ removed ⊆ confirmed).
Proof.
  intros [Hf|(start & trust & c & s0 & s1 & Hb & Hg & Hrows)]%push_rows removed.
  { left. subst removed. unfold removed_rows. rewrite Hf, difference_diag_L, size_empty. lia. }
  pose proof (removed_rows_counted start c trust s0 s1 Hb Hrows) as Hsub. fold removed in Hsub.
  pose proof (subseteq_size _ _ Hsub) as Hsize. destruct Hg as [He|Hg].
  { left. unfold candidate_is_empty in He. apply andb_true_iff in He as [_ He%bool_decide_eq_true].
    unfold counted_removals in Hsize. rewrite He, filter_empty_L, size_empty in Hsize by apply _. lia. }
  unfold guard_mass_deletion in Hg. set (counted := counted_removals _ _ _) in *.
  assert ((if mass_deletion_threshold (Z.of_nat (size (ms_files (pu_store s)))) <? Z.of_nat (size counted)
           then Err (MassDeletionRefused counted (Z.of_nat (size (ms_files (pu_store s))))
                       (mass_deletion_threshold (Z.of_nat (size (ms_files (pu_store s))))))
           else Ok tt) = Ok tt →
          Z.of_nat (size removed) <= 64 `max` (Z.of_nat (size (ms_files (pu_store s))) / 4)) as Henforce.
  { destruct (Z.ltb_spec (mass_deletion_threshold (Z.of_nat (size (ms_files (pu_store s)))))
                (Z.of_nat (size counted))) as [|Hle]; [done|]. intros _.
    unfold mass_deletion_threshold, MIN_DELETION_ALLOWANCE, DELETION_FRACTION_DENOMINATOR in Hle. lia. }
  destruct deletions as [| |confirmed]; [left; auto|by right; left|]. cbn in Hg.
  destruct (bool_decide_reflect (counted ⊆ confirmed)) as [Hc|Hc]; [|left; auto].
  right. right. exists confirmed. split; [done|]. by transitivity counted.
Qed.

End Promises.
