(* ===== verification/PushContent.v ===== *)
(** * The content a push claims to have stored

    A row of the blob ledger and a file row of the ancestor claim that the hosted store
    holds the sealed content of that identity.  A later push trusts the claim and does
    not upload again, and peers fetch by it.  This file proves that a push never makes a
    claim that is not true, however uploads, the disk and SQLite fail. *)

From S2P Require Import Prelude.
From S2P Require Import MergeMatrix.
From S2P Require Import Paths.
From S2P Require Import ManifestTypes.
From S2P Require Import FsGuard.
From S2P Require Import Disk.
From S2P Require Import Materialize.
From S2P Require Import Endpoint.
From S2P Require Import Store.
From S2P Require Import Ordered.
From S2P Require Import Tree.
From S2P Require Import TreeTransport.
From S2P Require Import TreePatch.
From S2P Require Import Push.
From S2P Require Import DiskLemmas.
From S2P Require Import StoreTheorems.
From S2P Require Import PushTheorems.
Local Open Scope string_scope.
Open Scope Z_scope.

(** ** The contract of the blob store

    An upload that returned is accepted; a transport may queue what it accepted, and once
    [ensure_uploads_settled] returns everything accepted is stored.  A stored object does
    not change. *)
Class RemoteBlobsLaws (Obj : Type) `{RemoteObjects Obj} `{RemoteBlobs Obj} := {
  accepted : Obj → BlobKey → bytes → Prop;
  put_blob_accepts : ∀ key sealed objects objects',
    put_blob key sealed objects = (Ok tt, objects') → accepted objects' key sealed;
  put_blob_keeps_accepted : ∀ key sealed objects r objects' key' sealed',
    put_blob key sealed objects = (r, objects') → accepted objects key' sealed' → accepted objects' key' sealed';
  settle_stores : ∀ objects objects' key sealed,
    ensure_uploads_settled objects = (Ok tt, objects') → accepted objects key sealed →
    get_blob objects' key = Some sealed;
  put_blob_keeps : ∀ key sealed objects r objects' key' sealed',
    put_blob key sealed objects = (r, objects') → get_blob objects key' = Some sealed' →
    get_blob objects' key' = Some sealed';
  settle_keeps : ∀ objects r objects' key sealed,
    ensure_uploads_settled objects = (r, objects') → get_blob objects key = Some sealed →
    get_blob objects' key = Some sealed;
  put_manifests_keeps : ∀ uploads objects r objects' key sealed,
    put_manifests uploads objects = (r, objects') → get_blob objects key = Some sealed →
    get_blob objects' key = Some sealed;
}.

(** ** Triples: from [P], a run that returns ends in [Q] and one that fails in [R] *)

Definition triple {S E A} (P : S → Prop) (m : M S E A) (Q : A → S → Prop) (R : S → Prop) : Prop :=
  ∀ s, P s → match m s with (Ok a, s') => Q a s' | (Err _, s') => R s' end.

Section Triple.
Context {S E : Type} (R : S → Prop).

Lemma triple_ret {A} (P : S → Prop) (a : A) (Q : A → S → Prop) :
  (∀ s, P s → Q a s) → triple P (mret a : M S E A) Q R.
Proof. intros HQ s Hs. by apply HQ. Qed.

Lemma triple_throw {A} (P : S → Prop) (e : E) (Q : A → S → Prop) :
  (∀ s, P s → R s) → triple P (throw e) Q R.
Proof. intros HR s Hs. by apply HR. Qed.

Lemma triple_bind {A B} (P : S → Prop) (m : M S E A) (f : A → M S E B) (Q' : A → S → Prop) Q :
  triple P m Q' R → (∀ a, triple (Q' a) (f a) Q R) → triple P (m ≫= f) Q R.
Proof.
  intros Hm Hf s Hs. rewrite bind_run. specialize (Hm s Hs). destruct (m s) as [[a|e] s']; [|done].
  by apply Hf.
Qed.

Lemma triple_keeps {A} (P : S → Prop) (m : M S E A) :
  keeps P m → (∀ s, P s → R s) → triple P m (λ _, P) R.
Proof. intros Hm HR s Hs. specialize (Hm s Hs). destruct (m s) as [[]]; cbn in *; auto. Qed.

(** A step whose result does not matter to [P]. *)
Lemma triple_then {A B} (P : S → Prop) (m : M S E A) (f : A → M S E B) Q :
  keeps P m → (∀ s, P s → R s) → (∀ a, triple P (f a) Q R) → triple P (m ≫= f) Q R.
Proof. intros Hm HR Hf. eapply triple_bind; [by apply triple_keeps|done]. Qed.

(** A pure step: its answer is known. *)
Lemma triple_ok_or {A B} (P : S → Prop) (e : E) (o : option A) (f : A → M S E B) Q :
  (∀ s, P s → R s) → (∀ a, o = Some a → triple P (f a) Q R) → triple P (ok_or e o ≫= f) Q R.
Proof. intros HR Hf s Hs. rewrite bind_run. destruct o as [a|]; [by apply Hf|by apply HR]. Qed.

Lemma triple_of_result {A B} (P : S → Prop) (r : Result A E) (f : A → M S E B) Q :
  (∀ s, P s → R s) → (∀ a, r = Ok a → triple P (f a) Q R) → triple P (of_result r ≫= f) Q R.
Proof. intros HR Hf s Hs. rewrite bind_run. destruct r as [a|]; [by apply Hf|by apply HR]. Qed.

Lemma triple_conseq {A} (P P' : S → Prop) (m : M S E A) (Q Q' : A → S → Prop) :
  triple P' m Q' R → (∀ s, P s → P' s) → (∀ a s, Q' a s → Q a s) → triple P m Q R.
Proof. intros Hm HP HQ s Hs. specialize (Hm s (HP s Hs)). destruct (m s) as [[]]; auto. Qed.

Lemma triple_pure {A} (P : S → Prop) (φ : Prop) (m : M S E A) Q :
  (φ → triple P m Q R) → triple (λ s, P s ∧ φ) m Q R.
Proof. intros Hm s [HP Hφ]. by apply Hm. Qed.

Lemma triple_run {A} (P : S → Prop) (m : M S E A) Q s a s' :
  triple P m Q R → P s → m s = (Ok a, s') → Q a s'.
Proof. intros Hm Hs Hr. specialize (Hm s Hs). by rewrite Hr in Hm. Qed.

End Triple.

(** ** Claims *)

Section Content.
Context {Obj : Type} `{ContentHash} `{Blake3} `{NodeCodec} `{Sealing} `{SegmentedSealing} `{Envelope}.
Context `{Ho : RemoteObjects Obj} `{Hb : RemoteBlobs Obj} `{!RemoteBlobsLaws Obj}.
Context (deps : PushDeps).

(** A spool file reads back what was written to it. *)
Context (spool_faithful : ∀ id sealed spooled,
  sp_read_back (ps_spool deps id) sealed = Ok spooled → spooled = sealed).

Local Abbreviation PM := (M (Pushing Obj) PushError).
Local Abbreviation key_epoch := (cr_write_epoch (ps_crypto deps)).

(** [sealed] is a sealing of content of identity [id] under the key of [epoch]. *)
Definition seals (epoch : KeyEpoch) (id : ContentId) (sealed : bytes) : Prop :=
  ∃ key plaintext, cr_keys (ps_crypto deps) !! epoch = Some key ∧ content_id_of key plaintext = id ∧
    let context := file_context id epoch ENVELOPE_FORMAT_VERSION in
    (seal plaintext key context = Ok sealed ∨ seal_segmented plaintext key context = Ok sealed).

(** The claim is true: the hosted store holds, under [blob_key], content of that identity. *)
Definition holds_content (objects : Obj) (epoch : KeyEpoch) (id : ContentId) (blob_key : BlobKey) : Prop :=
  ∃ sealed, get_blob objects blob_key = Some sealed ∧ blob_key = physical_blob_key sealed ∧ seals epoch id sealed.

Definition ledger_true (objects : Obj) (blobs : gmap string SealedBlob) : Prop :=
  ∀ id blob, blobs !! id = Some blob → holds_content objects (sb_key_epoch blob) id (sb_blob_key blob).

Definition rows_true (objects : Obj) (files : gmap string FileRow) : Prop :=
  ∀ path row epoch id key, files !! path = Some row → row_key_epoch row = Some epoch →
    row_content_id row = Some id → row_blob_key row = Some key → holds_content objects epoch id key.

(** Every claim of the store is true of the hosted objects. *)
Definition claims_true (s : Pushing Obj) : Prop :=
  ledger_true (pu_objects s) (ms_blobs (pu_store s)) ∧ rows_true (pu_objects s) (ms_files (pu_store s)).

(** During the scan a claim may rest on an upload that is accepted and not yet settled. *)
Definition pending_claim (s : Pushing Obj) (epoch : KeyEpoch) (id : ContentId) (blob_key : BlobKey) : Prop :=
  holds_content (pu_objects s) epoch id blob_key ∨
  (pu_fresh s ≠ ∅ ∧ ∃ sealed, accepted (pu_objects s) blob_key sealed ∧
     blob_key = physical_blob_key sealed ∧ seals epoch id sealed).

Definition fresh_claimed (s : Pushing Obj) : Prop :=
  ∀ id blob, pu_fresh s !! id = Some blob →
    sb_key_epoch blob = key_epoch ∧ pending_claim s key_epoch id (sb_blob_key blob).

(** The state of a scan that has made the claims [claims]. *)
Definition scanning (claims : KeyEpoch → ContentId → BlobKey → Prop) (s : Pushing Obj) : Prop :=
  claims_true s ∧ fresh_claimed s ∧ ∀ epoch id key, claims epoch id key → pending_claim s epoch id key.

(** The claim a row makes. *)
Definition row_claims (record : FileRecord) (epoch : KeyEpoch) (id : ContentId) (key : BlobKey) : Prop :=
  fr_key_epoch record = Some epoch ∧ fr_content_id record = Some id ∧ fr_blob_key record = Some key.

Lemma scanning_claims claims s : scanning claims s → claims_true s.
Proof. by intros [? _]. Qed.

Lemma scanning_also claims (more : KeyEpoch → ContentId → BlobKey → Prop) s :
  scanning claims s → (∀ epoch id key, more epoch id key → pending_claim s epoch id key) →
  scanning (λ epoch id key, claims epoch id key ∨ more epoch id key) s.
Proof. intros (Ht & Hf & Hc) Hm. split; [done|]. split; [done|].
  intros epoch id key [Hk|Hk]; auto. Qed.

Lemma scanning_weaken claims (less : KeyEpoch → ContentId → BlobKey → Prop) s :
  scanning claims s → (∀ epoch id key, less epoch id key → claims epoch id key) → scanning less s.
Proof. intros (Ht & Hf & Hc) Hm. split; [done|]. split; [done|]. eauto. Qed.

(** ** Steps that keep claims *)

Record grows (s s' : Pushing Obj) : Prop := {
  grows_stored : ∀ key sealed, get_blob (pu_objects s) key = Some sealed → get_blob (pu_objects s') key = Some sealed;
  grows_accepted : ∀ key sealed, accepted (pu_objects s) key sealed → accepted (pu_objects s') key sealed;
  grows_fresh : pu_fresh s ≠ ∅ → pu_fresh s' ≠ ∅;
  grows_blobs : ms_blobs (pu_store s') = ms_blobs (pu_store s);
  grows_files : ms_files (pu_store s') = ms_files (pu_store s);
}.

Lemma holds_kept (objects objects' : Obj) epoch id key :
  (∀ key sealed, get_blob objects key = Some sealed → get_blob objects' key = Some sealed) →
  holds_content objects epoch id key → holds_content objects' epoch id key.
Proof. intros Hk (sealed & Hg & Hkey & Hs). exists sealed. eauto. Qed.

Lemma pending_grows s s' epoch id key : grows s s' → pending_claim s epoch id key → pending_claim s' epoch id key.
Proof.
  intros [Hst Hac Hfr _ _] [Hh|(Hne & sealed & Ha & Hk & Hs)].
  - left. by eapply holds_kept.
  - right. split; [auto|]. exists sealed. auto.
Qed.

Lemma claims_grows s s' : grows s s' → claims_true s → claims_true s'.
Proof.
  intros [Hst _ _ Hb' Hf] [Hl Hr]. unfold claims_true, ledger_true, rows_true. rewrite Hb', Hf. split.
  - intros id blob Hid. eapply holds_kept; [done|]. by apply Hl.
  - intros path row epoch id key Hp He Hi Hk. eapply holds_kept; [done|]. by eapply Hr.
Qed.

Lemma scanning_grows claims s s' :
  grows s s' → pu_fresh s' = pu_fresh s → scanning claims s → scanning claims s'.
Proof.
  intros Hg Hf (Ht & Hfr & Hc). split; [by eapply claims_grows|]. split.
  - intros id blob. rewrite Hf. intros Hid. destruct (Hfr id blob Hid) as [? ?]. split; [done|].
    by eapply pending_grows.
  - intros epoch id key Hk. eapply pending_grows; [done|]. by apply Hc.
Qed.

Lemma scanning_look claims : keeps (scanning claims) (look deps : PM Os).
Proof. intros s Hs. by eapply scanning_grows; [|..|exact Hs]. Qed.

Lemma scanning_io {A} claims (r : Result A IoError) : keeps (scanning claims) (io_result r : PM A).
Proof. by destruct r; intros s. Qed.

Lemma sealed_blob_tables id epoch s :
  ms_blobs (snd (sealed_blob id epoch s)) = ms_blobs s ∧ ms_files (snd (sealed_blob id epoch s)) = ms_files s.
Proof.
  unfold sealed_blob. rewrite bind_run. unfold statement. destruct (ms_faults s) as [|[]]; done.
Qed.

Definition with_claim (claims : KeyEpoch → ContentId → BlobKey → Prop) (epoch : KeyEpoch) (id : ContentId)
    (key : BlobKey) (e : KeyEpoch) (i : ContentId) (k : BlobKey) : Prop :=
  claims e i k ∨ (e = epoch ∧ i = id ∧ k = key).

Lemma scanning_with claims epoch id key s :
  scanning claims s → pending_claim s epoch id key → scanning (with_claim claims epoch id key) s.
Proof. intros Hs Hp. apply scanning_also; [done|]. by intros ? ? ? (-> & -> & ->). Qed.

(** What the ledger answers is a claim that was made. *)
Lemma blob_known_triple claims id :
  triple (scanning claims) (blob_known deps id : PM _)
    (λ known s, match known with
                | Some key => scanning (with_claim claims key_epoch id key) s
                | None => scanning claims s
                end) claims_true.
Proof.
  intros s Hs. unfold blob_known. rewrite bind_run. unfold get. cbn beta iota.
  destruct (pu_fresh s !! id) as [blob|] eqn:Hfr.
  { cbn. apply scanning_with; [done|]. destruct Hs as (_ & Hf & _). by destruct (Hf id blob Hfr). }
  rewrite bind_run. unfold push_store. pose proof (sealed_blob_tables id key_epoch (pu_store s)) as [Hbl Hfi].
  assert (sealed_blob id key_epoch (pu_store s) =
    (match ms_faults (pu_store s) with true :: _ => Err Sqlite
     | _ => Ok (option_filter (λ blob, sb_key_epoch blob =? key_epoch) (ms_blobs (pu_store s) !! id)) end,
     snd (sealed_blob id key_epoch (pu_store s)))) as Heq.
  { unfold sealed_blob. rewrite bind_run. unfold statement. by destruct (ms_faults (pu_store s)) as [|[]]. }
  set (t := snd (sealed_blob id key_epoch (pu_store s))) in *. rewrite Heq.
  assert (grows s (s <| pu_store := t |>)) as Hg by done.
  destruct (ms_faults (pu_store s)) as [|[]]; [|by eapply claims_grows, scanning_claims|].
  all: cbn; destruct (ms_blobs (pu_store s) !! id) as [blob|] eqn:Hid; cbn; [|by eapply scanning_grows].
  all: destruct (Z.eqb_spec (sb_key_epoch blob) key_epoch) as [He|]; cbn; [|by eapply scanning_grows].
  all: apply scanning_with; [by eapply scanning_grows|]; left; destruct Hs as ([Hl _] & _);
    rewrite <- He; by apply Hl.
Qed.

Lemma put_blob_triple claims key sealed :
  triple (scanning claims) (push_objects (put_blob key sealed) : PM _)
    (λ _ s, scanning claims s ∧ accepted (pu_objects s) key sealed) claims_true.
Proof.
  intros s Hs. unfold push_objects. destruct (put_blob key sealed (pu_objects s)) as [r objects] eqn:Ep.
  assert (grows s (s <| pu_objects := objects |>)) as Hg.
  { split; cbn; try done; intros ? ? ?; [by eapply put_blob_keeps|by eapply put_blob_keeps_accepted]. }
  destruct r as [[]|e].
  - split; [by eapply scanning_grows|]. cbn. by eapply put_blob_accepts.
  - by eapply claims_grows, scanning_claims.
Qed.

Lemma blob_record_triple claims id key sealed len :
  key = physical_blob_key sealed → seals key_epoch id sealed →
  triple (λ s, scanning claims s ∧ accepted (pu_objects s) key sealed) (blob_record deps id key len : PM _)
    (λ _ s, scanning (with_claim claims key_epoch id key) s) claims_true.
Proof.
  intros Hkey Hseals s [Hs Ha]. unfold blob_record, modify. cbn beta iota.
  set (s' := s <| pu_fresh := _ |>).
  assert (pu_fresh s' ≠ ∅) as Hne by apply insert_non_empty.
  assert (grows s s') as Hg by done.
  assert (pending_claim s' key_epoch id key) as Hp.
  { right. split; [done|]. by exists sealed. }
  destruct Hs as (Ht & Hf & Hc). apply scanning_with; [|done]. split; [by eapply claims_grows|]. split.
  - intros i blob. unfold s'. cbn. rewrite lookup_insert_Some. intros [[<- <-]|[_ Hi]]; [done|].
    destruct (Hf i blob Hi). split; [done|]. by eapply pending_grows.
  - intros e i k Hk. eapply pending_grows; [done|]. by apply Hc.
Qed.

Local Abbreviation claimed claims id := (λ key s, scanning (with_claim claims key_epoch id key) s).

Lemma seal_file_triple claims id plaintext : crypto_content_id (ps_crypto deps) plaintext = Some id →
  triple (scanning claims) (seal_file deps id plaintext : PM _)
    (λ sealed s, scanning claims s ∧ seals key_epoch id sealed) claims_true.
Proof.
  intros Hid. unfold seal_file. apply triple_ok_or; [apply scanning_claims|]. intros key Hkey.
  destruct (seal plaintext key _) as [sealed|] eqn:Es; [|by apply triple_throw, scanning_claims].
  apply triple_ret. intros s Hs. split; [done|]. exists key, plaintext. split; [done|].
  split; [|by left]. unfold crypto_content_id, content_id_at in Hid. rewrite Hkey in Hid. by injection Hid.
Qed.

Lemma upload_triple claims id plaintext : crypto_content_id (ps_crypto deps) plaintext = Some id →
  triple (scanning claims) (upload_file_blob deps id plaintext : PM _) (claimed claims id) claims_true.
Proof.
  intros Hid. unfold upload_file_blob. eapply triple_bind; [apply blob_known_triple|].
  intros [existing|]; [by apply triple_ret|]. eapply triple_bind; [by apply seal_file_triple|].
  intros sealed. apply triple_pure. intros Hs. eapply triple_bind; [apply put_blob_triple|]. intros [].
  eapply triple_bind; [by apply (blob_record_triple claims id _ sealed)|]. intros []. by apply triple_ret.
Qed.

Lemma seal_segmented_seals id content sealed :
  seal_file_segmented deps id content = Ok sealed → seals key_epoch id sealed.
Proof.
  unfold seal_file_segmented. destruct (cr_keys _ !! _) as [key|] eqn:Hkey; [|done].
  destruct content as [plaintext|]; [|done]. destruct (seal_segmented _ _ _) as [out|] eqn:Es; [|done].
  destruct (String.eqb_spec (content_id_of key plaintext) id) as [Hid|]; [|done]. intros [= <-].
  exists key, plaintext. split; [done|]. split; [done|by right].
Qed.

Lemma visit_value {T} os path max expected (visitor : Handle → Z → Result T PushError) value :
  visit_file_bounded os path max expected visitor = Ok (VisitValue value) →
  ∃ file len, visitor file len = Ok value.
Proof.
  unfold visit_file_bounded. destruct (prepare_parent_chain _ _ _); [|done].
  destruct (open_nofollow os path) as [file|errno]; [|by destruct (errno_diverges errno)].
  destruct (h_metadata file) as [metadata|]; [|done]. destruct (matches_expected _ _); [|done]. cbn.
  destruct (max <? _); [done|]. destruct (visitor _ _) as [v|] eqn:Ev; [|done]. cbn.
  destruct (h_final_metadata file) as [final|]; [|done]. destruct (matches_expected _ _); [|done].
  intros [= <-]. eauto.
Qed.

Lemma triple_io {A B} (P : Pushing Obj → Prop) (r : Result A IoError) (f : A → PM B) Q R :
  (∀ s, P s → R s) → (∀ a, r = Ok a → triple P (f a) Q R) → triple P (io_result r ≫= f) Q R.
Proof. intros HR Hf s Hs. rewrite bind_run. destruct r as [a|]; [by apply Hf|by apply HR]. Qed.

Lemma upload_segmented_triple claims path expected id :
  triple (scanning claims) (upload_file_blob_segmented deps path expected id : PM _)
    (λ key s, match key with
              | Some key => scanning (with_claim claims key_epoch id key) s
              | None => scanning claims s
              end) claims_true.
Proof.
  unfold upload_file_blob_segmented. eapply triple_bind; [apply blob_known_triple|].
  intros [existing|]; [by apply triple_ret|].
  apply triple_then; [unfold create_segmented_spool; keeps_step; apply scanning_io|apply scanning_claims|].
  intros []. apply triple_then; [apply scanning_look|apply scanning_claims|]. intros os.
  apply triple_of_result; [apply scanning_claims|]. intros [sealed|] Hv; [|by apply triple_ret].
  apply visit_value in Hv as (file & len & Hv).
  destruct (seal_file_segmented deps id (h_content file)) as [out|] eqn:Es; [|done]. cbn in Hv.
  destruct (sp_sync _); [|done]. injection Hv as ->. apply seal_segmented_seals in Es.
  apply triple_io; [apply scanning_claims|]. intros spooled ->%spool_faithful.
  apply triple_then; [apply keeps_bail_if|apply scanning_claims|]. intros [].
  eapply triple_bind; [apply put_blob_triple|]. intros [].
  eapply triple_bind; [by apply (blob_record_triple claims id _ sealed)|]. intros []. by apply triple_ret.
Qed.

(** ** The claims of a scan *)

Definition also (claims more : KeyEpoch → ContentId → BlobKey → Prop) (e : KeyEpoch) (i : ContentId)
    (k : BlobKey) : Prop := claims e i k ∨ more e i k.

Definition result_claims (result : ScanResult) : KeyEpoch → ContentId → BlobKey → Prop :=
  match result with
  | SrEntry record _ | SrLocalRefresh record => row_claims record
  | _ => λ _ _ _, False
  end.

Lemma scanning_nothing claims result s : result_claims result = (λ _ _ _, False) →
  scanning claims s → scanning (also claims (result_claims result)) s.
Proof. intros Hr Hs. eapply scanning_weaken; [done|]. rewrite Hr. by intros ? ? ? [?|[]]. Qed.

Lemma scanning_entry claims observed id key s :
  scanning (with_claim claims key_epoch id key) s →
  scanning (also claims (result_claims (file_entry deps observed id key))) s.
Proof.
  intros Hs. eapply scanning_weaken; [done|]. intros e i k [?|(He & Hi & Hk)]; [by left|].
  cbn in He, Hi, Hk. right. by simplify_eq.
Qed.

Lemma file_content_triple claims path observed segmented :
  triple (scanning claims) (file_content deps path observed segmented : PM _)
    (λ content s, scanning claims s ∧
       match content with
       | Ok (id, plaintext) =>
           segmented = false → ∃ bytes, plaintext = Some bytes ∧ crypto_content_id (ps_crypto deps) bytes = Some id
       | Err answer => result_claims answer = (λ _ _ _, False)
       end) claims_true.
Proof.
  unfold file_content. apply triple_then; [apply scanning_look|apply scanning_claims|]. intros os.
  assert (∀ error, triple (scanning claims)
    (record ← of_result (read_rejection (ps_now deps) error);
     mret (Err (SrUnsyncable record)) : PM (Result (ContentId * option bytes) ScanResult))
    (λ content s, scanning claims s ∧
       match content with
       | Ok (id, plaintext) =>
           segmented = false → ∃ bytes, plaintext = Some bytes ∧ crypto_content_id (ps_crypto deps) bytes = Some id
       | Err answer => result_claims answer = (λ _ _ _, False)
       end) claims_true) as Hrej.
  { intros error. apply triple_of_result; [apply scanning_claims|]. intros record _. by apply triple_ret. }
  destruct segmented.
  - destruct (visit_file_bounded _ _ _ _ _) as [[[id len]|]|error]; [|by apply triple_ret|apply Hrej].
    destruct (len =? _); by apply triple_ret.
  - destruct (read_file_bounded _ _ _ _) as [[plaintext|]|error]; [|by apply triple_ret|apply Hrej].
    apply triple_ok_or; [apply scanning_claims|]. intros id Hid. apply triple_ret. intros s Hs.
    split; [done|]. intros _. by exists plaintext.
Qed.

Lemma upload_content_triple claims path observed id plaintext segmented :
  (segmented = false → ∃ bytes, plaintext = Some bytes ∧ crypto_content_id (ps_crypto deps) bytes = Some id) →
  triple (scanning claims) (upload_content deps path observed id plaintext segmented : PM _)
    (λ result s, scanning (also claims (result_claims result)) s) claims_true.
Proof.
  intros Hid. unfold upload_content. destruct segmented.
  - eapply triple_bind; [apply upload_segmented_triple|]. intros [key|].
    + apply triple_ret. intros s. apply scanning_entry.
    + apply triple_ret. intros s. by apply scanning_nothing.
  - destruct (Hid eq_refl) as (bytes & -> & Hb'). apply triple_ok_or; [apply scanning_claims|].
    intros ? [= <-]. eapply triple_bind; [by apply upload_triple|]. intros key.
    apply triple_ret. intros s. apply scanning_entry.
Qed.

Section Rows.
Context (claims : KeyEpoch → ContentId → BlobKey → Prop).

(** The rows of the ancestor are among the claims. *)
Definition row_known (row : FileRecord) : Prop := ∀ e i k, row_claims row e i k → claims e i k.

Lemma file_candidate_triple path observed row trust :
  (∀ ancestor_row, row = Some ancestor_row → row_known ancestor_row) →
  triple (scanning claims) (file_candidate deps path observed row trust : PM _)
    (λ result s, scanning (also claims (result_claims result)) s) claims_true.
Proof.
  intros Hrow. unfold file_candidate.
  destruct (is_some_and _ row); [apply triple_ret; intros s; by apply scanning_nothing|].
  eapply triple_bind; [apply file_content_triple|]. intros [[id plaintext]|answer]; apply triple_pure; intros Hid.
  2:{ apply triple_ret. intros s. by apply scanning_nothing. }
  destruct row as [row|]; [|by apply upload_content_triple].
  destruct (bool_decide_reflect (fr_content_id row = Some id)) as [Hi|]; cbn [andb];
    rewrite ?andb_false_r; cbn [andb]; [|by apply upload_content_triple].
  destruct (bool_decide_reflect (fr_key_epoch row = Some key_epoch)) as [He|]; cbn [andb];
    rewrite ?andb_false_r; cbn [andb]; [|by apply upload_content_triple].
  case_match.
  - apply triple_ret. intros s Hs. eapply scanning_weaken; [done|].
    intros e i k [?|Hk]; [done|]. by apply (Hrow row).
  - apply triple_ok_or; [apply scanning_claims|]. intros key Hkey. apply triple_ret. intros s Hs.
    apply scanning_entry, scanning_with; [done|]. destruct Hs as (_ & _ & Hc). by apply Hc, (Hrow row).
Qed.

Definition scan_claims (scan : PathScan) : KeyEpoch → ContentId → BlobKey → Prop :=
  match scan with
  | ScanUpsert record _ | ScanLocalRefresh record => row_claims record
  | _ => λ _ _ _, False
  end.

Lemma scan_observed_triple path observed row trust :
  (∀ ancestor_row, row = Some ancestor_row → row_known ancestor_row) →
  triple (scanning claims) (scan_observed deps path observed row trust : PM _)
    (λ result s, scanning (also claims (result_claims result)) s) claims_true.
Proof.
  intros Hrow. unfold scan_observed. destruct (ob_kind observed); [by apply file_candidate_triple|..];
    apply triple_ret; intros s Hs.
  - unfold directory_scan. destruct (is_some_and _ _); [by apply scanning_nothing|].
    eapply scanning_weaken; [done|]. by intros e i k [?|(? & _)].
  - unfold symlink_scan. destruct (negb _); [by apply scanning_nothing|].
    destruct (is_some_and _ _); [by apply scanning_nothing|].
    eapply scanning_weaken; [done|]. by intros e i k [?|(? & _)].
Qed.

Lemma scan_attempts_triple attempts ancestor path trust :
  (∀ row, ancestor !! path = Some row → row_known row) →
  triple (scanning claims) (scan_attempts deps attempts ancestor path trust : PM _)
    (λ scan s, scanning (also claims (scan_claims scan)) s) claims_true.
Proof.
  intros Hrow. induction attempts as [|attempts IH]; cbn [scan_attempts].
  { apply triple_ret. intros s Hs. eapply scanning_weaken; [done|]. by intros ? ? ? [?|[]]. }
  apply triple_then; [apply scanning_look|apply scanning_claims|]. intros os.
  assert (∀ scan, scan_claims scan = (λ _ _ _, False) →
    triple (scanning claims) (mret scan : PM _) (λ scan s, scanning (also claims (scan_claims scan)) s)
      claims_true) as Hnone.
  { intros scan Hs. apply triple_ret. intros s Hc. eapply scanning_weaken; [done|]. rewrite Hs.
    by intros ? ? ? [?|[]]. }
  destruct (observe_classified os path); [by apply Hnone| |by apply Hnone].
  eapply triple_bind; [by apply scan_observed_triple|]. intros [| | | |record']; cbn [result_claims].
  - by apply triple_ret.
  - by apply triple_ret.
  - apply triple_ret. by intros s.
  - eapply triple_conseq; [apply IH| |done]. intros s Hs. eapply scanning_weaken; [done|]. by left.
  - apply triple_ret. by intros s.
Qed.

End Rows.

(** ** The candidate *)

(** The claims a candidate's rows make. *)
Definition candidate_claims (c : Candidate) (e : KeyEpoch) (i : ContentId) (k : BlobKey) : Prop :=
  ∃ path record,
    ((fst <$> cd_upserts c) !! path = Some record ∨ cd_local_refreshes c !! path = Some record) ∧
    row_claims record e i k.

Lemma note_scan_claims path scan c e i k :
  candidate_claims (note_scan path scan c) e i k → candidate_claims c e i k ∨ scan_claims scan e i k.
Proof.
  destruct scan as [record entry| |record| | |record]; cbn; try (by left); intros (q & record' & Hq & Hr); cbn in Hq.
  - rewrite fmap_insert in Hq. destruct Hq as [[[<- <-]|[_ Hq]]%lookup_insert_Some|Hq]; [by right|..];
      left; exists q, record'; auto.
  - destruct Hq as [Hq|[[<- <-]|[_ Hq]]%lookup_insert_Some]; [|by right|]; left; exists q, record'; auto.
Qed.

Definition ancestor_claims (ancestor : gmap WorkspacePath FileRecord) (e : KeyEpoch) (i : ContentId)
    (k : BlobKey) : Prop := ∃ path record, ancestor !! path = Some record ∧ row_claims record e i k.

Lemma scan_all_triple ancestor trust paths c :
  triple (scanning (also (ancestor_claims ancestor) (candidate_claims c)))
    (scan_all deps ancestor trust paths c : PM _)
    (λ c s, scanning (also (ancestor_claims ancestor) (candidate_claims c)) s) claims_true.
Proof.
  revert c. induction paths as [|path paths IH]; intros c; cbn [scan_all]; [by apply triple_ret|].
  eapply (triple_bind _ _ _ _ (λ scan s,
    scanning (also (also (ancestor_claims ancestor) (candidate_claims c)) (scan_claims scan)) s)).
  - unfold scan_publishable. case_match.
    + apply scan_attempts_triple. intros row Hrow e i k Hk. left. by exists path, row.
    + apply triple_ret. intros s Hs. eapply scanning_weaken; [done|]. by intros ? ? ? [?|[]].
  - intros scan. eapply triple_conseq; [apply IH| |done]. intros s Hs. eapply scanning_weaken; [done|].
    intros e i k [Hk|[Hk|Hk]%note_scan_claims]; [by left; left|by left; right|by right].
Qed.

Lemma expand_claims c ancestor e i k :
  candidate_claims (expand_subtree_removals c ancestor) e i k → candidate_claims c e i k.
Proof.
  unfold expand_subtree_removals. case_bool_decide; [done|]. intros (path & record & Hp & Hk).
  exists path, record. split; [|done]. cbn in Hp. destruct Hp as [Hp|Hp].
  - left. apply lookup_fmap_Some in Hp as ([? entry] & <- & Hp). apply map_lookup_filter_Some in Hp as [Hp _].
    apply lookup_fmap_Some. by exists (f, entry).
  - right. by apply map_lookup_filter_Some in Hp as [Hp _].
Qed.

(** Stamping a row does not change what it claims. *)
Lemma prove_rows_claims os sampled granularity crypto max rows path record e i k :
  prove_rows os sampled granularity crypto max rows !! path = Some record → row_claims record e i k →
  ∃ record', rows !! path = Some record' ∧ row_claims record' e i k.
Proof.
  unfold prove_rows. destruct sampled as [sampled|]; [|by eauto]. rewrite map_lookup_imap.
  destruct (rows !! path) as [record'|]; [|done]. intros [= <-] Hk. by exists record'.
Qed.

Lemma prove_candidate_claims os c e i k :
  candidate_claims (prove_candidate deps os c) e i k → candidate_claims c e i k.
Proof.
  intros (path & record & [Hp|Hp] & Hk); cbn in Hp.
  - apply lookup_fmap_Some in Hp as ([record' entry] & <- & Hp). cbn in Hk.
    apply map_lookup_zip_with_Some in Hp as (r & e' & [= -> ->] & Hr & _).
    destruct (prove_rows_claims _ _ _ _ _ _ _ _ _ _ _ Hr Hk) as (record' & Hr' & Hk').
    exists path, record'. auto.
  - destruct (prove_rows_claims _ _ _ _ _ _ _ _ _ _ _ Hp Hk) as (record' & Hr' & Hk').
    exists path, record'. auto.
Qed.

Lemma build_candidate_triple ancestor dirty trust :
  triple (scanning (ancestor_claims ancestor)) (build_candidate deps ancestor dirty trust : PM _)
    (λ c s, scanning (candidate_claims c) s) claims_true.
Proof.
  unfold build_candidate. eapply triple_bind.
  - eapply triple_conseq; [apply scan_all_triple| |done]. intros s Hs. eapply scanning_weaken; [done|].
    intros e i k [?|(path & record & [Hp|Hp] & _)]; [done|..]; cbn in Hp; by rewrite ?fmap_empty, lookup_empty in Hp.
  - intros c. apply triple_then; [apply scanning_look|apply scanning_claims|]. intros os.
    apply triple_ret. intros s Hs. eapply scanning_weaken; [done|].
    intros e i k Hk. right. apply prove_candidate_claims in Hk.
    apply (expand_claims c ancestor). exact Hk.
Qed.

(** ** The store *)

Definition store_true (objects : Obj) (s : ManifestStore) : Prop :=
  ledger_true objects (ms_blobs s) ∧ rows_true objects (ms_files s).

Lemma store_true_blind objects : fault_blind (store_true objects).
Proof. by intros s faults. Qed.

Lemma blind_for_each_in {A} (P : ManifestStore → Prop) (l : list A) f :
  (∀ a, a ∈ l → keeps P (f a)) → keeps P (for_each l f).
Proof.
  induction l as [|a l IH]; intros Hf; cbn [for_each]; [apply keeps_ret|].
  keeps_step; [apply Hf; by left|]. apply IH. intros b Hb'. apply Hf. by right.
Qed.

(** The claims [claims] are all true. *)
Definition all_hold (claims : KeyEpoch → ContentId → BlobKey → Prop) (objects : Obj) : Prop :=
  ∀ e i k, claims e i k → holds_content objects e i k.

Lemma apply_ancestor_true objects commit :
  (∀ path record, ac_upserts commit !! path = Some record → all_hold (row_claims record) objects) →
  keeps (store_true objects) (apply_ancestor commit).
Proof.
  intros Hup. unfold apply_ancestor. keeps_step; apply blind_for_each_in.
  - intros path _. apply blind_execute; [apply store_true_blind|]. intros s [Hl Hr]. split; [done|]. cbn.
    intros q row e i k Hq. apply lookup_delete_Some in Hq as [_ Hq]. by apply (Hr q).
  - intros [path record] Hin%elem_of_map_to_list. intros s Hs. rewrite bind_run. unfold of_result.
    destruct (file_to_row record) as [row|] eqn:Erow; [|done]. revert s Hs.
    apply blind_execute; [apply store_true_blind|]. intros s [Hl Hr]. split; [done|]. cbn.
    intros q row' e i k. rewrite lookup_insert_Some. intros [[<- <-]|[_ Hq]]; [|by apply (Hr q)].
    intros He Hi Hk. apply (Hup path record Hin). unfold file_to_row in Erow.
    destruct (to_i64 _); [|done]. cbn in Erow. injection Erow as <-. done.
Qed.

Lemma store_keeps {A} (m : SM A) : (∀ objects, keeps (store_true objects) m) → keeps claims_true (push_store m : PM A).
Proof.
  intros Hm s Hs. specialize (Hm (pu_objects s) (pu_store s) Hs). unfold push_store.
  by destruct (m (pu_store s)) as [[]].
Qed.

Lemma objects_keep (s : Pushing Obj) objects :
  (∀ key sealed, get_blob (pu_objects s) key = Some sealed → get_blob objects key = Some sealed) →
  claims_true s → claims_true (s <| pu_objects := objects |>).
Proof.
  intros Hk [Hl Hr]. split; cbn.
  - intros id blob Hid. eapply holds_kept; [done|]. by apply Hl.
  - intros path row e i k Hp He Hi Hkey. eapply holds_kept; [done|]. by eapply Hr.
Qed.

(** After the uploads settle, every pending claim is true. *)
Lemma settle_triple claims :
  triple (scanning claims) (settle_uploads : PM unit)
    (λ _ s, claims_true s ∧ all_hold claims (pu_objects s)) claims_true.
Proof.
  intros s Hs. pose proof Hs as (Ht & Hf & Hc). unfold settle_uploads. rewrite bind_run. unfold get. cbn beta iota.
  case_bool_decide as Hne.
  { cbn. split; [done|]. intros e i k Hk. by destruct (Hc e i k Hk) as [?|[? _]]. }
  rewrite bind_run. unfold push_objects.
  destruct (ensure_uploads_settled (pu_objects s)) as [r objects] eqn:Es.
  assert (claims_true (s <| pu_objects := objects |>)) as Ht'.
  { apply objects_keep; [|done]. intros key sealed. by eapply settle_keeps. }
  destruct r as [[]|e]; [|done].
  assert (∀ e i k, pending_claim s e i k → holds_content objects e i k) as Hall.
  { intros e i k [Hh|(_ & sealed & Ha & Hk & Hs')].
    - eapply holds_kept; [|done]. intros key sealed. by eapply settle_keeps.
    - exists sealed. split; [by eapply settle_stores|done]. }
  pose proof (store_keeps (record_sealed_blobs (pu_fresh s))) as Hrec.
  assert (keeps (store_true objects) (record_sealed_blobs (pu_fresh s))) as Hst.
  { unfold record_sealed_blobs. case_bool_decide; [apply keeps_ret|].
    apply blind_in_transaction; [apply store_true_blind|]. apply blind_for_each_in.
    intros [id blob] Hin%elem_of_map_to_list. keeps_step; [apply keeps_of_result|].
    apply blind_execute; [apply store_true_blind|]. intros t [Hl Hr]. split; [|done]. cbn.
    intros i b. rewrite lookup_insert_Some. intros [[<- <-]|[_ Hi]]; [|by apply Hl]. cbn.
    destruct (Hf id blob Hin) as [He Hp]. rewrite He. by apply Hall. }
  specialize (Hst (pu_store s) Ht'). unfold push_store. cbn.
  destruct (record_sealed_blobs _ _) as [[[]|e] t]; cbn in *; [|exact Hst].
  split; [exact Hst|]. intros e i k Hk. by apply Hall, Hc.
Qed.

Lemma claims_queries :
  (∀ scopes, keeps claims_true (push_store (files_in_scopes scopes) : PM _)) ∧
  keeps claims_true (push_store file_count : PM _) ∧ keeps claims_true (push_store engine_state : PM _) ∧
  keeps claims_true (push_store pending_push_paths : PM _) ∧ keeps claims_true (push_store all_files : PM _) ∧
  (∀ epoch, keeps claims_true (push_store (has_files_outside_key_epoch epoch) : PM _)) ∧
  (∀ key, keeps claims_true (push_store (tree_node_key_epoch key) : PM _)) ∧
  (∀ observed resolved, keeps claims_true (push_store (record_unsyncable observed resolved) : PM _)) ∧
  (∀ nodes epoch, keeps claims_true (push_store (record_tree_nodes nodes epoch) : PM _)) ∧
  (∀ key epoch, keeps claims_true (push_store (record_tree_node_epoch key epoch) : PM _)).
Proof.
  split_and!; intros; apply store_keeps; intros objects;
    unfold files_in_scopes, file_count, engine_state, pending_push_paths, all_files, has_files_outside_key_epoch,
      tree_node_key_epoch, record_unsyncable, record_tree_nodes, record_tree_node_epoch, record_tree_node_epochs;
    settled_rows.
Qed.

(** ** Publishing and committing *)

Section Holding.
Context (claims : KeyEpoch → ContentId → BlobKey → Prop).

Definition holding (s : Pushing Obj) : Prop := claims_true s ∧ all_hold claims (pu_objects s).

Lemma holding_claims s : holding s → claims_true s.
Proof. by intros [? _]. Qed.

Lemma holding_store {A} (m : SM A) : keeps claims_true (push_store m : PM A) → keeps holding (push_store m : PM A).
Proof.
  intros Hm s [Ht Ha]. specialize (Hm s Ht). split; [done|]. unfold push_store in *.
  by destruct (m (pu_store s)) as [[]].
Qed.

Lemma holding_objects s objects :
  (∀ key sealed, get_blob (pu_objects s) key = Some sealed → get_blob objects key = Some sealed) →
  holding s → holding (s <| pu_objects := objects |>).
Proof.
  intros Hk [Ht Ha]. split; [by apply objects_keep|]. intros e i k Hc. eapply holds_kept; [done|]. by apply Ha.
Qed.

Lemma holding_upload_manifest snapshot : keeps holding (upload_manifest deps snapshot : PM _).
Proof.
  apply keeps_get_bind. intros s Hs. destruct (publish_tree _ _ _ _) as [r [objects ledger]] eqn:Ep.
  destruct (publish_tree_run _ _ (store_true_blind (pu_objects s)) snapshot (pu_objects s) objects
    (store_ledger_new (pu_store s) key_epoch) ledger r (proj1 Hs) Ep) as [Hl Hobj].
  assert (∀ key sealed, get_blob (pu_objects s) key = Some sealed → get_blob objects key = Some sealed) as Hk.
  { destruct Hobj as [->|(uploads & r' & Hput)]; [done|]. intros key sealed. by eapply put_manifests_keeps. }
  assert (holding (s <| pu_objects := objects |> <| pu_store := sl_store ledger |>)) as Hs'.
  { destruct Hs as [_ Ha]. split; [|intros e i k Hc; eapply holds_kept; [exact Hk|]; by apply Ha].
    exact (objects_keep {| pu_store := sl_store ledger; pu_objects := pu_objects s; pu_fresh := pu_fresh s;
                           pu_tick := pu_tick s |} objects Hk Hl). }
  rewrite bind_run. unfold modify. cbn beta iota. revert Hs'. generalize (s <| pu_objects := objects |> <| pu_store := sl_store ledger |>).
  match goal with |- ∀ p, holding p → holding (snd (?m p)) => change (keeps holding m) end.
  destruct r as [key|]; [|apply keeps_throw]. keeps_step; [|apply keeps_ret].
  case_match; [apply keeps_ret|]. apply holding_store. apply claims_queries.
Qed.

Lemma patch_tree_objects (objects objects' : Obj) root changes r :
  patch_tree objects (ps_crypto deps) root changes = (r, objects') →
  objects' = objects ∨ ∃ uploads r, put_manifests uploads objects = (r, objects').
Proof.
  unfold patch_tree. destruct (mbind (M := M (list ManifestBatchUpload) TreeError) _ _ []) as [[key|] pending];
    [|intros [= _ <-]; by left].
  destruct (put_manifests pending objects) as [[] stored] eqn:Ep; intros [= _ <-]; right; by eexists _, _.
Qed.

Lemma holding_upload_delta root c : keeps holding (upload_manifest_delta deps root c : PM _).
Proof.
  apply keeps_get_bind. intros s Hs. destruct (patch_tree _ _ _ _) as [r objects] eqn:Ep.
  apply patch_tree_objects in Ep as Hobj.
  assert (holding (s <| pu_objects := objects |>)) as Hs'.
  { apply holding_objects; [|done]. destruct Hobj as [->|(uploads & r' & Hput)]; [done|].
    intros key sealed. by eapply put_manifests_keeps. }
  rewrite bind_run. unfold modify. cbn beta iota. revert Hs'. generalize (s <| pu_objects := objects |>).
  match goal with |- ∀ p, holding p → holding (snd (?m p)) => change (keeps holding m) end.
  destruct r as [key|]; [|apply keeps_throw]. keeps_step; [|apply keeps_ret]. apply holding_store, claims_queries.
Qed.

Lemma holding_publish state ancestor rebuild c :
  keeps holding (publish_candidate deps state ancestor rebuild c : PM _).
Proof.
  unfold publish_candidate.
  assert (keeps holding (complete_ancestor ← (if rebuild then push_store all_files else mret ancestor);
     snapshot ← of_result (build_manifest complete_ancestor c key_epoch);
     upload_manifest deps snapshot : PM _)) as Hfull.
  { keeps_step. { destruct rebuild; [apply holding_store, claims_queries|apply keeps_ret]. }
    keeps_step; [apply keeps_of_result|apply holding_upload_manifest]. }
  destruct (es_applied_manifest_key state), rebuild; try done. apply holding_upload_delta.
Qed.

End Holding.

(** A commit of rows whose claims hold. *)
Lemma commit_claims c (m : SM unit) :
  (∀ objects, (∀ path record, ac_upserts (ancestor_commit c) !! path = Some record →
                 all_hold (row_claims record) objects) → keeps (store_true objects) m) →
  ∀ s, holding (candidate_claims c) s → claims_true (snd ((push_store m : PM unit) s)).
Proof.
  intros Hm s [Ht Ha]. assert (keeps (store_true (pu_objects s)) m) as Hk.
  { apply Hm. intros path record Hp e i k Hc. apply Ha. exists path, record. split; [|done].
    unfold ancestor_commit in Hp. cbn in Hp. apply lookup_union_Some_raw in Hp as [Hp|[_ Hp]]; auto. }
  specialize (Hk (pu_store s) Ht). unfold push_store. by destruct (m (pu_store s)) as [[]].
Qed.

Lemma no_change_claims c s : holding (candidate_claims c) s → claims_true (snd ((no_change c : PM _) s)).
Proof.
  intros Hs. unfold no_change. rewrite bind_run.
  pose proof (commit_claims c (commit_push_no_change (ancestor_commit c) (settled_paths c))) as Hc.
  specialize (Hc ltac:(intros objects Hup; apply blind_in_transaction; [apply store_true_blind|];
    keeps_step; [by apply apply_ancestor_true|unfold delete_pending_push_paths; settled_rows]) s Hs).
  by destruct (push_store _ s) as [[[]|] s'].
Qed.

Lemma advance_claims c key version s :
  holding (candidate_claims c) s → claims_true (snd ((commit_advance c key version : PM _) s)).
Proof.
  intros Hs. unfold commit_advance. rewrite bind_run.
  pose proof (commit_claims c (commit_push_success (ancestor_commit c) key version (settled_paths c))) as Hc.
  specialize (Hc ltac:(intros objects Hup; unfold commit_push_success; keeps_step; [apply keeps_of_result|];
    apply blind_in_transaction; [apply store_true_blind|]; keeps_step; [by apply apply_ancestor_true|];
    unfold set_applied, next_materialization_revision, advance_verified_ratchet, delete_pending_push_paths;
    settled_rows) s Hs).
  by destruct (push_store _ s) as [[[]|] s'].
Qed.

(** ** The theorem *)

Lemma resolve_cas_claims c key outcome s :
  holding (candidate_claims c) s → claims_true (snd ((resolve_cas deps c key outcome : PM _) s)).
Proof.
  intros Hs. destruct outcome as [observed|current|]; cbn [resolve_cas].
  - by apply advance_claims.
  - by eapply holding_claims.
  - rewrite bind_run. destruct (ps_read_ref deps) as [[current|]|]; [|by eapply holding_claims..].
    unfold ok_or, m_ret. cbn beta iota zeta. case_match; [by apply advance_claims|by eapply holding_claims].
Qed.

(** From the candidate to the end of a push. *)
Lemma push_tail_claims c state ancestor rebuild (guard : Result unit PushError) :
  triple (holding (candidate_claims c))
    (record_unsyncable_outcome c ;;
     if candidate_is_empty c && negb rebuild then no_change c else
     of_result guard ;;
     manifest_key ← publish_candidate deps state ancestor rebuild c;
     if bool_decide (es_applied_manifest_key state = Some manifest_key) then no_change c else
     outcome ← ok_or PushTransportErr (ps_compare_and_swap deps (es_last_ref_version state) manifest_key);
     resolve_cas deps c manifest_key outcome : PM _) (λ _ s, claims_true s) claims_true.
Proof.
  assert (triple (holding (candidate_claims c)) (no_change c : PM _) (λ _ s, claims_true s) claims_true) as Hnc.
  { intros s Hs. pose proof (no_change_claims c s Hs). by destruct (no_change c s) as [[]]. }
  apply triple_then; [apply holding_store, claims_queries|apply holding_claims|]. intros [].
  destruct (candidate_is_empty c && negb rebuild); [done|].
  apply triple_then; [apply keeps_of_result|apply holding_claims|]. intros [].
  apply triple_then; [apply holding_publish|apply holding_claims|]. intros key.
  case_bool_decide; [done|]. apply triple_ok_or; [apply holding_claims|]. intros outcome _ s Hs.
  pose proof (resolve_cas_claims c key outcome s Hs). by destruct (resolve_cas deps c key outcome s) as [[]].
Qed.

(** The rows a push reads make true claims. *)
Lemma ancestor_rows_true objects files scopes ancestor :
  rows_true objects files →
  table_of (filter (λ '(path, _), existsb (λ scope, in_scope scope path) scopes = true) files) ancestor →
  all_hold (ancestor_claims ancestor) objects.
Proof.
  intros Hr Ht e i k (path & record & Hp & He & Hi & Hk). specialize (Ht path). rewrite Hp in Ht.
  destruct (filter _ files !! path) as [row|] eqn:Hf; [|done]. cbn in Ht. injection Ht as Ht.
  apply map_lookup_filter_Some in Hf as [Hf _]. unfold row_to_file in Ht.
  destruct (entry_kind_from_i64 _); [|done]. cbn in Ht. destruct (from_i64 _); [|done]. cbn in Ht.
  destruct (u32_from_i64 (row_mode row) _); [|done]. cbn in Ht.
  destruct (row_key_epoch row) as [epoch|] eqn:Hepoch; cbn in Ht; [|by injection Ht as <-].
  unfold u32_from_i64 in Ht. destruct (_ && _); [|done]. cbn in Ht. injection Ht as <-. cbn in *.
  simplify_eq. by eapply Hr.
Qed.

Lemma push_scanned_claims dirty trust deletions s r s' : claims_true s →
  push_scanned deps dirty trust deletions s = (r, s') → claims_true s'.
Proof.
  intros Hs. unfold push_scanned.
  destruct claims_queries as (Qscopes & Qcount & Qstate & Qpending & Qall & Qoutside & Qepoch & _).
  intros [(e & Hr & ->)|(ancestor & s1 & Ha & Hr)]%bind_inv; [by eapply keeps_run in Hr|].
  assert (claims_true s1) as H1' by by eapply (keeps_run _ _ _ _ _ (Qscopes _)).
  assert (all_hold (ancestor_claims ancestor) (pu_objects s1)) as Hanc.
  { apply query_run in Ha as (t & Ht & Hq & Hu & Hobj); [|by intros ? ?]. injection Ht as Ht _ _. cbn in Hq.
    apply read_rows_Ok in Hq. eapply ancestor_rows_true; [|exact Hq]. rewrite Ht, Hobj. apply Hs. }
  clear Ha.
  match type of Hr with ?m s1 = _ =>
    enough (triple (holding (ancestor_claims ancestor)) m (λ _ s, claims_true s) claims_true) as Htr end.
  { specialize (Htr s1 (conj H1' Hanc)). rewrite Hr in Htr. by destruct r. }
  clear Hr Hs.
  apply triple_then; [apply holding_store, Qcount|apply holding_claims|]. intros count.
  apply triple_then; [apply holding_store, Qstate|apply holding_claims|]. intros state.
  apply triple_then; [apply holding_store, Qpending|apply holding_claims|]. intros pending.
  apply triple_then; [|apply holding_claims|intros rebuild].
  { unfold needs_epoch_rebuild. keeps_step; [apply holding_store, Qoutside|].
    destruct a; [apply keeps_ret|]. destruct (es_applied_manifest_key state); [|apply keeps_ret].
    keeps_step; [apply holding_store, Qepoch|apply keeps_ret]. }
  apply (triple_bind _ _ _ _ (λ _ s, scanning (ancestor_claims ancestor) s)).
  { intros t [Ht Hall]. cbn. split; [exact Ht|]. split; [intros id blob; cbn; by rewrite lookup_empty|].
    intros e i k Hk. left. by apply Hall. }
  intros []. eapply triple_bind; [apply build_candidate_triple|]. intros c.
  eapply triple_bind; [apply settle_triple|]. intros [].
  apply push_tail_claims.
Qed.

(** C3: A claim is never made before it is true.  If every row of the blob ledger and
    every file row of the ancestor names an object the hosted store holds — sealed
    content of that very identity, under the key of that epoch — then so they do after a
    push, however it ends: uploads may be queued and fail to drain, SQLite may fail at
    any statement, files may change under the scan and the swap may be lost.  So no
    retry skips an upload it still owes, and no row names a blob no peer can fetch. *)
Theorem push_claims_true dirty deletions evidence s r s' : claims_true s →
  push_dirty_paths_authorized deps dirty deletions evidence s = (r, s') → claims_true s'.
Proof. apply push_scanned_claims. Qed.

End Content.
