(* ===== verification/PushSettled.v ===== *)
(** * What a settled push leaves

    A push that ends without losing the ref answers for every dirty path it was handed and did
    not skip: the ancestor has a row that says what some look at the disk showed, or no row and
    a reason, or the path is noted as unsyncable.  Only the paths of the first two kinds leave
    the pending table. *)

From S2P Require Import Prelude.
From S2P Require Import MergeMatrix.
From S2P Require Import Paths.
From S2P Require Import ManifestTypes.
From S2P Require Import FsGuard.
From S2P Require Import Disk.
From S2P Require Import Materialize.
From S2P Require Import Endpoint.
From S2P Require Import Store.
From S2P Require Import Ordered.
From S2P Require Import Tree.
From S2P Require Import TreeTransport.
From S2P Require Import TreePatch.
From S2P Require Import Push.
From S2P Require Import DiskLemmas.
From S2P Require Import Reported.
From S2P Require Import StoreTheorems.
From S2P Require Import PushTheorems.
Local Open Scope string_scope.
Open Scope Z_scope.

Section Settled.
Context {Obj : Type} `{ContentHash} `{Blake3} `{NodeCodec} `{Sealing} `{SegmentedSealing} `{Envelope}.
Context `{RemoteObjects Obj} `{RemoteBlobs Obj}.
Context (deps : PushDeps).

Local Abbreviation PM := (M (Pushing Obj) PushError).

(** ** Reading a file *)

(** [read] is the content, cut where a length no longer fits in 64 bits. *)
Definition whole (content read : bytes) : Prop :=
  read = content ∨ (u64_max < str_len content ∧ read = take_bytes u64_max content).

(** At some look the engine opened the file, found it as observed, read it to its end and
    found it as observed again; its content has the identity [id]. *)
Definition content_read (path : WorkspacePath) (observed : Observed) (id : ContentId) : Prop :=
  ∃ look file before content read after, open_nofollow (ps_disk deps look) path = Ok file ∧
    h_metadata file = Ok before ∧ matches_expected before (expected_file observed) = true ∧
    h_content file = Ok content ∧ whole content read ∧ crypto_content_id (ps_crypto deps) read = Some id ∧
    h_final_metadata file = Ok after ∧ matches_expected after (expected_file observed) = true.

Lemma visit_opened {T} os path max expected (visitor : Handle → Z → Result T PushError) value :
  visit_file_bounded os path max expected visitor = Ok (VisitValue value) →
  ∃ file before after, open_nofollow os path = Ok file ∧ h_metadata file = Ok before ∧
    matches_expected before expected = true ∧ visitor file (md_len before) = Ok value ∧
    h_final_metadata file = Ok after ∧ matches_expected after expected = true.
Proof.
  unfold visit_file_bounded. destruct (prepare_parent_chain _ _ _); [|done].
  destruct (open_nofollow os path) as [file|errno]; [|by destruct (errno_diverges errno)].
  destruct (h_metadata file) as [before|] eqn:Eb; [|done]. destruct (matches_expected before _) eqn:Mb; [|done]. cbn.
  destruct (max <? _); [done|]. destruct (visitor _ _) as [v|] eqn:Ev; [|done]. cbn.
  destruct (h_final_metadata file) as [after|] eqn:Ea; [|done]. destruct (matches_expected after _) eqn:Ma; [|done].
  intros [= <-]. by exists file, before, after.
Qed.

Lemma substring_len n s : (n ≤ String.length s)%nat → String.length (String.substring 0 n s) = n.
Proof.
  revert n. induction s as [|c s IH]; intros [|n] Hn; cbn in *; try lia. by rewrite IH by lia.
Qed.

Lemma bounded_whole max content : str_len (take_bytes (u64_saturating_add max 1) content) <= max →
  whole content (take_bytes (u64_saturating_add max 1) content).
Proof.
  unfold take_bytes at 1. destruct (Z.leb_spec (str_len content) (u64_saturating_add max 1)) as [Hl|Hl].
  { intros _. left. unfold take_bytes. by rewrite (proj2 (Z.leb_le _ _) Hl). }
  unfold str_len in *. rewrite substring_len by lia. unfold u64_saturating_add in *. intros Hn. right.
  assert (Z.min (max + 1) u64_max = u64_max) as -> by lia. unfold str_len. split; [lia|done].
Qed.

(** The stat of the row vouches for the file: the watcher missed nothing, the stat is the
    row's on the endpoint's clock, and the row was proven after its last change. *)
Definition stat_vouches (evidence : WatcherEvidence) (record : FileRecord) (observed : Observed) : Prop :=
  evidence = Continuous ∧ ∃ verified, fr_verified_at record = Some verified ∧
  let recorded := fr_fingerprint record in
  let seen := ob_fingerprint observed in
  let granule := bucket (ps_timestamps deps) in
  fp_inode recorded = fp_inode seen ∧ fp_dev recorded = fp_dev seen ∧
  granule (fp_mtime_ns recorded) = granule (fp_mtime_ns seen) ∧
  granule (fp_ctime_ns recorded) = granule (fp_ctime_ns seen) ∧
  granule (fp_ctime_ns seen) < granule verified.

(** The trust a push gives a stat. *)
Definition trust_of (evidence : WatcherEvidence) : StatTrust :=
  match evidence with Continuous => OutsideRacyWindow (ps_timestamps deps) | Gapped => NeverTrust end.

Lemma settles_vouched evidence record observed :
  settles (trust_of evidence) record observed = true → stat_vouches evidence record observed.
Proof.
  destruct evidence; [|done]. unfold trust_of, settles, same_stat, indistinguishable.
  destruct (fr_verified_at record) as [verified|] eqn:Ev; [|done].
  intros [[[[Hi Hd]%andb_true_iff Hm]%andb_true_iff Hc]%andb_true_iff Hv]%andb_true_iff.
  apply Z.eqb_eq in Hi, Hd, Hm, Hc. apply Z.ltb_lt in Hv. split; [done|]. exists verified. cbv zeta. by split_and!.
Qed.

(** ** What one scan tells *)

(** The record says what was observed; of a file, its content was read, or what [vouched]
    says stood in for reading it. *)
Definition record_matches (vouched : FileRecord → Observed → Prop) (path : WorkspacePath) (record : FileRecord)
    (observed : Observed) : Prop :=
  fr_kind record = ob_kind observed ∧ fr_mode record = ob_mode observed ∧
  match ob_kind observed with
  | File => fr_size record = ob_size observed ∧
      ((∃ id, fr_content_id record = Some id ∧ content_read path observed id) ∨ vouched record observed)
  | Symlink => fr_symlink_target record = Some (default "" (ob_symlink_target observed))
  | Directory => True
  end.

(** Some look of the engine showed what the record says. *)
Definition seen_record (vouched : FileRecord → Observed → Prop) (path : WorkspacePath) (record : FileRecord) : Prop :=
  ∃ look observed, observe_classified (ps_disk deps look) path = ObPresent observed ∧
    record_matches vouched path record observed.

(** Nothing but reading. *)
Definition unvouched (_ : FileRecord) (_ : Observed) : Prop := False.

Lemma seen_weaken (vouched vouched' : FileRecord → Observed → Prop) path record :
  (∀ observed, vouched record observed → vouched' record observed) →
  seen_record vouched path record → seen_record vouched' path record.
Proof.
  intros Hv (look & observed & Ho & Hk & Hm & Hr). exists look, observed. split; [done|]. split; [done|]. split; [done|].
  destruct (ob_kind observed); [|done..]. destruct Hr as [Hs [Hr|Hr]]; auto.
Qed.

Definition result_tells (evidence : WatcherEvidence) (path : WorkspacePath) (row : option FileRecord) (observed : Observed)
    (result : ScanResult) : Prop :=
  match result with
  | SrEntry record _ | SrLocalRefresh record => record_matches unvouched path record observed
  | SrUnchanged => ∃ record, row = Some record ∧ record_matches (stat_vouches evidence) path record observed
  | SrDiverged | SrUnsyncable _ => True
  end.

Lemma unchanged_row (f : FileRecord → bool) (P : FileRecord → Prop) row : is_some_and f row = true →
  (∀ record, f record = true → P record) → ∃ record, row = Some record ∧ P record.
Proof. destruct row as [record|]; [|done]. cbn. intros Hf Hm. exists record. auto. Qed.

Lemma directory_tells evidence path observed row : ob_kind observed = Directory →
  result_tells evidence path row observed (directory_scan observed row).
Proof.
  intros Hk. unfold directory_scan. destruct (is_some_and _ row) eqn:E; cbn.
  - apply (unchanged_row _ _ _ E). intros record [Hd%bool_decide_eq_true Hm%Z.eqb_eq]%andb_true_iff.
    unfold record_matches. by rewrite Hk.
  - unfold record_matches. by rewrite Hk.
Qed.

Lemma symlink_tells evidence now path observed row : ob_kind observed = Symlink →
  result_tells evidence path row observed (symlink_scan now path observed row).
Proof.
  intros Hk. unfold symlink_scan. destruct (negb _); [done|]. destruct (is_some_and _ row) eqn:E; cbn.
  - apply (unchanged_row _ _ _ E). intros record [[Hd%bool_decide_eq_true Hm%Z.eqb_eq]%andb_true_iff Ht%bool_decide_eq_true]%andb_true_iff.
    unfold record_matches. by rewrite Hk.
  - unfold record_matches. by rewrite Hk.
Qed.

(** The identity a scan gives a file is that of its content. *)
Lemma content_tells path observed segmented :
  ensures (λ _, True) (file_content deps path observed segmented : PM _)
    (λ content _, match content with
                  | Ok (id, _) => content_read path observed id
                  | Err (SrDiverged | SrUnsyncable _) => True
                  | Err _ => False
                  end).
Proof.
  unfold file_content. apply (ensures_bind _ _ _ (λ os _, ∃ look, os = ps_disk deps look)); [intros s _; cbn; eauto|].
  intros os s [look ->]. revert s.
  match goal with |- ∀ s, match ?m s with _ => _ end => cut (ensures (λ _, True) m (λ content _, match content with
    | Ok (id, _) => content_read path observed id | Err (SrDiverged | SrUnsyncable _) => True | Err _ => False end));
    [intros Hc s; exact (Hc s I)|] end.
  destruct segmented; cbv zeta.
  - destruct (visit_file_bounded _ _ _ _ _) as [[[id len]|]|error] eqn:Ev.
    + destruct (len =? ob_size observed); [|by apply ensures_ret]. apply ensures_ret. intros _ _.
      apply visit_opened in Ev as (file & before & after & Ho & Hb & Mb & Hv & Ha & Ma).
      destruct (h_content file) as [content|] eqn:Ec; [|done]. destruct (crypto_content_id _ content) as [id'|] eqn:Ei; [|done].
      injection Hv as <- <-. exists look, file, before, content, content, after. split_and!; auto. by left.
    + by apply ensures_ret.
    + apply ensures_then; [apply keeps_of_result|]. intros record. by apply ensures_ret.
  - destruct (read_file_bounded _ _ _ _) as [[read|]|error] eqn:Ev.
    + destruct (crypto_content_id _ read) as [id|] eqn:Ei; [|by intros s _]. apply ensures_ret. intros _ _.
      unfold read_file_bounded in Ev. destruct (visit_file_bounded _ _ _ _ _) as [[got|]|] eqn:Evv; [|done..].
      cbn in Ev. injection Ev as ->.
      apply visit_opened in Evv as (file & before & after & Ho & Hb & Mb & Hv & Ha & Ma).
      destruct (h_content file) as [content|] eqn:Ec; [|done]. cbv zeta in Hv.
      match type of Hv with (if ?x <? ?y then _ else _) = _ => destruct (Z.ltb_spec x y) as [|Hle]; [done|] end.
      injection Hv as <-. exists look, file, before, content, (take_bytes (u64_saturating_add (ps_max_seal_bytes deps) 1) content), after.
      split_and!; auto. by apply bounded_whole.
    + by apply ensures_ret.
    + apply ensures_then; [apply keeps_of_result|]. intros record. by apply ensures_ret.
Qed.

Lemma ensures_pure {S E A} (φ : Prop) (m : M S E A) (Q : A → S → Prop) :
  (φ → ensures (λ _, True) m Q) → ensures (λ _, φ) m Q.
Proof. intros Hm s Hφ. by apply Hm. Qed.

Lemma file_tells evidence path observed row : ob_kind observed = File →
  ensures (λ _, True) (file_candidate deps path observed row (trust_of evidence) : PM _)
    (λ result _, result_tells evidence path row observed result).
Proof.
  intros Hk. pose proof (settles_vouched evidence) as Htrust. generalize dependent (trust_of evidence). intros trust Htrust.
  unfold file_candidate. destruct (is_some_and _ row) eqn:E.
  { apply ensures_ret. intros _ _. apply (unchanged_row _ _ _ E).
    intros record [[[Hd%bool_decide_eq_true Hs%Z.eqb_eq]%andb_true_iff Hm%Z.eqb_eq]%andb_true_iff Hv%Htrust]%andb_true_iff.
    unfold record_matches. rewrite Hk. auto. }
  eapply ensures_bind; [apply content_tells|].
  intros [[id plaintext]|[]]; [|by intros ? []|by intros ? []|by intros ? []|by apply ensures_ret..].
  apply ensures_pure. intros Hid.
  assert (∀ key, result_tells evidence path row observed (file_entry deps observed id key)) as Hentry
    by (intros key; unfold file_entry; cbn; unfold record_matches; rewrite Hk; cbn; split_and!; [done..|left; by exists id]).
  assert (ensures (λ s : Pushing Obj, True) (upload_content deps path observed id plaintext
            (ps_large_file_threshold deps <=? ob_size observed) : PM _)
            (λ result _, result_tells evidence path row observed result)) as Hup.
  { unfold upload_content. case_match;
      repeat first [apply ensures_then; [apply keeps_any|]; intros ? | case_match | by apply ensures_ret]. }
  destruct row as [row|]; [|done]. case_match.
  - apply ensures_ret. intros _ _. unfold result_tells, record_matches. rewrite Hk. cbn.
    match goal with Hb : _ = true |- _ => apply andb_true_iff in Hb as [[Hd%bool_decide_eq_true [Hc%bool_decide_eq_true _]%andb_true_iff]%andb_true_iff Hm%Z.eqb_eq] end.
    split_and!; [done..|left; by exists id].
  - case_match; [|done]. apply ensures_then; [apply keeps_any|]. intros key. by apply ensures_ret.
Qed.

(** The verdict on a path. *)
Definition scan_tells (evidence : WatcherEvidence) (ancestor : gmap WorkspacePath FileRecord) (path : WorkspacePath)
    (scan : PathScan) : Prop :=
  match scan with
  | ScanUpsert record _ | ScanLocalRefresh record => seen_record unvouched path record
  | ScanSettled => ∃ record, ancestor !! path = Some record ∧ seen_record (stat_vouches evidence) path record
  | ScanRemove => seen_gone deps path
  | ScanRetry | ScanUnsyncable _ => True
  end.

Lemma scan_attempts_tells evidence attempts ancestor path :
  ensures (λ _, True) (scan_attempts deps attempts ancestor path (trust_of evidence) : PM _)
    (λ scan _, scan_tells evidence ancestor path scan).
Proof.
  induction attempts as [|attempts IH]; cbn [scan_attempts]; [by apply ensures_ret|].
  apply (ensures_bind _ _ _ (λ os _, ∃ look, os = ps_disk deps look)).
  { intros s _. cbn. eauto. }
  intros os s [look Hos]. destruct (observe_classified os path) as [|observed|reason] eqn:Eo.
  - cbn. exists look. by rewrite <- Hos.
  - assert (ensures (λ _, True) (scan_observed deps path observed (ancestor !! path) (trust_of evidence) : PM _)
              (λ result _, result_tells evidence path (ancestor !! path) observed result)) as Hr.
    { unfold scan_observed. destruct (ob_kind observed) eqn:Hk; [by apply file_tells
        |apply ensures_ret; intros _ _; by apply directory_tells|apply ensures_ret; intros _ _; by apply symlink_tells]. }
    rewrite bind_run. specialize (Hr s I). destruct (scan_observed _ _ _ _ _ s) as [[result|e] s']; [|done].
    assert (∀ vouched record, record_matches vouched path record observed → seen_record vouched path record) as Hseen
      by (intros vouched record Hm; exists look, observed; by rewrite <- Hos).
    destruct result; cbn in *; auto.
    + destruct Hr as (record & Hrow & Hm). eauto.
    + by apply IH.
  - done.
Qed.

(** ** What the candidate tells *)

(** The rows of the candidate were seen. *)
Definition candidate_tells (c : Candidate) : Prop :=
  (∀ path record entry, cd_upserts c !! path = Some (record, entry) → seen_record unvouched path record) ∧
  (∀ path record, cd_local_refreshes c !! path = Some record → seen_record unvouched path record).

(** The candidate has a row for the path. *)
Definition claimed (c : Candidate) (path : WorkspacePath) : Prop :=
  is_Some (cd_upserts c !! path) ∨ is_Some (cd_local_refreshes c !! path).

(** What the candidate does about a scanned path. *)
Definition answered (evidence : WatcherEvidence) (ancestor : gmap WorkspacePath FileRecord) (c : Candidate) (path : WorkspacePath) : Prop :=
  path ∈ cd_skipped c ∨ is_Some (cd_unsyncable c !! path) ∨ claimed c path ∨ path ∈ cd_removals c ∨
  (∃ record, ancestor !! path = Some record ∧ seen_record (stat_vouches evidence) path record).

Lemma note_scan_tells evidence ancestor path scan c : scan_tells evidence ancestor path scan → candidate_tells c →
  candidate_tells (note_scan path scan c).
Proof.
  intros Hs [Hu Hl]. destruct scan as [r e| |r| | |]; cbn in Hs; try done; (split; [|try done]); cbn; try done.
  - intros q record entry [[<- [= <- <-]]|[_ Hq]]%lookup_insert_Some; [done|by eapply Hu].
  - intros q record [[<- <-]|[_ Hq]]%lookup_insert_Some; [done|by apply Hl].
Qed.

Lemma insert_is_Some {A} (m : gmap WorkspacePath A) p a q : is_Some (m !! q) → is_Some (<[p := a]> m !! q).
Proof. rewrite lookup_insert_is_Some'. auto. Qed.

Lemma insert_self {A} (m : gmap WorkspacePath A) p a : is_Some (<[p := a]> m !! p).
Proof. rewrite lookup_insert_is_Some'. auto. Qed.

#[local] Hint Resolve insert_is_Some insert_self : core.

Lemma note_scan_answers evidence ancestor path scan c : scan_tells evidence ancestor path scan → answered evidence ancestor (note_scan path scan c) path.
Proof. intros Hs. unfold answered, claimed. destruct scan; cbn in *; rewrite ?elem_of_union, ?elem_of_singleton; auto 7. Qed.

Lemma note_scan_keeps_answers evidence ancestor path scan c q : answered evidence ancestor c q → answered evidence ancestor (note_scan path scan c) q.
Proof.
  unfold answered, claimed. destruct scan; cbn; rewrite ?elem_of_union; intros [?|[?|[[?|?]|[?|?]]]]; auto 7.
Qed.

Lemma scan_all_tells evidence ancestor l c : candidate_tells c →
  ensures (λ _, True) (scan_all deps ancestor (trust_of evidence) l c : PM _) (λ c' _, candidate_tells c' ∧
    ∀ path, path ∈ l ∨ answered evidence ancestor c path → answered evidence ancestor c' path).
Proof.
  revert c. induction l as [|path l IH]; intros c Hc; cbn [scan_all].
  { apply ensures_ret. intros _ _. split; [done|]. by intros q [?%not_elem_of_nil|?]. }
  apply (ensures_bind _ _ _ (λ scan _, scan_tells evidence ancestor path scan)).
  { unfold scan_publishable. case_match; [apply scan_attempts_tells|by apply ensures_ret]. }
  intros scan s Hscan. pose proof (IH _ (note_scan_tells _ _ _ _ _ Hscan Hc) s I) as Hr.
  destruct (scan_all _ _ _ _ _ s) as [[c'|] s']; [|done]. destruct Hr as [Ht Ha]. split; [done|].
  intros q [[->|Hq]%elem_of_cons|Hq]; apply Ha; [right; by apply note_scan_answers|by left|].
  right. by apply note_scan_keeps_answers.
Qed.

(** The rows a candidate commits, once expanded and stamped. *)
Lemma prove_rows_tells os sampled granularity crypto max rows path record :
  prove_rows os sampled granularity crypto max rows !! path = Some record →
  ∃ record', rows !! path = Some record' ∧ (seen_record unvouched path record' → seen_record unvouched path record).
Proof.
  unfold prove_rows. destruct sampled as [sampled|]; [|by eauto]. rewrite map_lookup_imap.
  destruct (rows !! path) as [record'|]; [|done]. intros [= <-]. by exists record'.
Qed.

Lemma prove_rows_is_Some os sampled granularity crypto max rows path :
  is_Some (rows !! path) → is_Some (prove_rows os sampled granularity crypto max rows !! path).
Proof. unfold prove_rows. destruct sampled; [|done]. intros [record Hr]. rewrite map_lookup_imap, Hr. cbn. eauto. Qed.

Lemma expand_tells c ancestor : candidate_tells c → candidate_tells (expand_subtree_removals c ancestor).
Proof.
  intros [Hu Hl]. unfold expand_subtree_removals. case_bool_decide; [done|]. split; cbn.
  - intros path record entry [Hp _]%map_lookup_filter_Some. by eapply Hu.
  - intros path record [Hp _]%map_lookup_filter_Some. by eapply Hl.
Qed.

Lemma commits_seen os c path record : candidate_tells c →
  ac_upserts (ancestor_commit (prove_candidate deps os c)) !! path = Some record → seen_record unvouched path record.
Proof.
  intros [Hu Hl]. cbn. intros [Hp|[_ Hp]]%lookup_union_Some_raw.
  - apply lookup_fmap_Some in Hp as ([record' entry] & <- & Hp). cbn.
    apply map_lookup_zip_with_Some in Hp as (r & e' & [= -> ->] & Hr & _).
    apply prove_rows_tells in Hr as (r' & [[r'' e''] [Hr'' Hp]]%lookup_fmap_Some & Hseen). cbn in Hr''. subst r''. eauto.
  - apply prove_rows_tells in Hp as (r' & Hp & Hseen). eauto.
Qed.

Lemma commits_claimed os c path : claimed c path → is_Some (ac_upserts (ancestor_commit (prove_candidate deps os c)) !! path).
Proof.
  intros Hc. cbn. apply lookup_union_is_Some. destruct Hc as [[[record entry] Hp]|Hp]; [left|right; by apply prove_rows_is_Some].
  rewrite lookup_fmap, fmap_is_Some.
  pose proof (prove_rows_is_Some os (ps_endpoint_clock deps) (ps_timestamps deps) (ps_crypto deps)
    (ps_max_seal_bytes deps) (fst <$> cd_upserts c) path) as [record' Hr]; [rewrite lookup_fmap, Hp; eauto|].
  exists (record', entry). apply map_lookup_zip_with_Some. eexists _, _. split; [done|]. by rewrite lookup_fmap, Hp.
Qed.

(** What the built candidate does about a dirty path. *)
Definition settles_path (evidence : WatcherEvidence) (ancestor : gmap WorkspacePath FileRecord) (c : Candidate) (paths : gset WorkspacePath)
    (path : WorkspacePath) : Prop :=
  path ∈ cd_skipped c ∨ is_Some (cd_unsyncable c !! path) ∨ is_Some (ac_upserts (ancestor_commit c) !! path) ∨
  path ∈ cd_removals c ∨ ((path ∉ dom ancestor) ∧ removal_justified deps paths path) ∨
  (∃ record, ancestor !! path = Some record ∧ seen_record (stat_vouches evidence) path record).

Lemma expand_settles evidence paths ancestor raw os path : candidate_seen deps paths raw → answered evidence ancestor raw path →
  settles_path evidence ancestor
    (prove_candidate deps os ((expand_subtree_removals raw ancestor) <| cd_scanned := paths |>)) paths path.
Proof.
  intros Hraw Ha. unfold settles_path. set (c := (expand_subtree_removals raw ancestor) <| cd_scanned := paths |>).
  assert (cd_skipped c = cd_skipped raw ∧ cd_unsyncable c = cd_unsyncable raw ∧ cd_removals raw ⊆ cd_removals c)
    as (Hs & Hn & Hr) by (subst c; unfold expand_subtree_removals; case_bool_decide; cbn; set_solver).
  change (cd_skipped (prove_candidate deps os c)) with (cd_skipped c).
  change (cd_unsyncable (prove_candidate deps os c)) with (cd_unsyncable c).
  change (cd_removals (prove_candidate deps os c)) with (cd_removals c). rewrite Hs, Hn.
  destruct Ha as [?|[?|[Hc|[?%Hr|?]]]]; [auto 7..| |auto 7|auto 7].
  assert (claimed c path ∨ below_destructive_root (destructive_roots raw ancestor) path = true) as [Hk|Hb].
  { subst c. unfold expand_subtree_removals. case_bool_decide; [by left|].
    destruct (below_destructive_root _ path) eqn:Eb; [by right|]. left. unfold claimed. cbn.
    destruct Hc as [[v Hv]|[v Hv]]; [left|right]; exists v; by apply map_lookup_filter_Some. }
  { right. right. left. by apply commits_claimed. }
  destruct (decide (path ∈ dom ancestor)) as [Hd|Hd].
  - do 3 right. left. subst c. unfold expand_subtree_removals. case_bool_decide as He.
    + rewrite He in Hb. done.
    + cbn. rewrite elem_of_union, elem_of_filter. by right.
  - do 4 right. left. split; [done|]. by eapply below_root_justified.
Qed.

Lemma build_candidate_settles evidence ancestor dirty s c s' :
  (build_candidate deps ancestor dirty (trust_of evidence) : PM _) s = (Ok c, s') →
  (∀ path record, ac_upserts (ancestor_commit c) !! path = Some record → seen_record unvouched path record) ∧
  (∀ path, path ∈ canonical_paths deps dirty → settles_path evidence ancestor c (canonical_paths deps dirty) path).
Proof.
  intros (raw & s1 & os & Es & Hseen & ->)%build_candidate_raw.
  pose proof (scan_all_tells evidence ancestor (merge_sort str_le (elements (canonical_paths deps dirty))) Candidate_default
    ltac:(split; intros ? ?; cbn; by rewrite lookup_empty) s I) as Hr.
  rewrite Es in Hr. destruct Hr as [Ht Ha]. split.
  - intros path record. apply commits_seen. by apply (expand_tells raw ancestor) in Ht.
  - intros path Hp. apply expand_settles; [done|]. apply Ha. left. rewrite merge_sort_Permutation. by apply elem_of_elements.
Qed.

(** ** The theorem *)

(** The row of the table holds the record. *)
Definition row_holds (row : FileRow) (record : FileRecord) : Prop :=
  file_to_row record = Ok row ∨ row_to_file row = Ok record.

(** The ancestor says about a path what a look at the disk showed. *)
Definition row_settled (evidence : WatcherEvidence) (paths : gset WorkspacePath) (s : ManifestStore) (path : WorkspacePath) : Prop :=
  (∃ row record, ms_files s !! path = Some row ∧ row_holds row record ∧ seen_record (stat_vouches evidence) path record) ∨
  (ms_files s !! path = None ∧ removal_justified deps paths path).

(** What the store says about a dirty path once a push answered for it. *)
Definition path_settled (evidence : WatcherEvidence) (paths : gset WorkspacePath) (s : ManifestStore) (path : WorkspacePath) : Prop :=
  noted path s ∨ row_settled evidence paths s path.

Definition outcome_skipped (outcome : PushOutcome) : option (gset WorkspacePath) :=
  match outcome with
  | PushAdvanced _ _ skipped | PushNoChange skipped => Some skipped
  | PushRefLost _ => None
  end.

Lemma committed_settled evidence dirty (s : Pushing Obj) (start : Start deps s dirty) c s0 s1 (t t' : ManifestStore) path :
  build_candidate deps (st_ancestor deps s dirty start) dirty (trust_of evidence) s0 = (Ok c, s1) →
  ms_files t = ms_files (pu_store s) → rows_committed c t t' →
  path ∈ canonical_paths deps dirty → path ∉ cd_skipped c →
  is_Some (cd_unsyncable c !! path) ∨ row_settled evidence (canonical_paths deps dirty) t' path.
Proof.
  intros Hb Ht [Hup Hout] Hp Hs. pose proof (build_candidate_settles evidence _ _ _ _ _ Hb) as [Hseen Hset].
  pose proof (build_candidate_seen _ _ _ _ _ _ _ Hb path) as Hrem.
  destruct (ac_upserts (ancestor_commit c) !! path) as [record|] eqn:Ec.
  { destruct (Hup path record Ec) as (row & Hrow & Hfile). right. left. exists row, record.
    split; [done|]. split; [by left|]. by apply (seen_weaken unvouched), Hseen. }
  specialize (Hout path Ec). rewrite Ht in Hout.
  destruct (decide (path ∈ cd_removals c)) as [Hr|Hr].
  { right. right. split; [done|]. by apply Hrem. }
  pose proof (st_ancestor_rows deps _ _ start path) as Hrow.
  assert (filter (λ '(path, _), existsb (λ scope, in_scope scope path) (elements (canonical_paths deps dirty)) = true)
            (ms_files (pu_store s)) !! path = ms_files (pu_store s) !! path) as Hscope.
  { destruct (ms_files (pu_store s) !! path) as [row|] eqn:E; [|apply map_lookup_filter_None; by left].
    apply map_lookup_filter_Some_2; [done|]. apply existsb_exists. exists path. split; [|apply in_scope_self].
    by apply list_elem_of_In, elem_of_elements. }
  rewrite Hscope in Hrow.
  destruct (Hset path Hp) as [?|[?|[Hc|[?|[[Hd Hj]|(record & Ha & Hrec)]]]]]; [done|by left| |done| |].
  - rewrite Ec in Hc. by destruct Hc.
  - right. right. split; [|done]. rewrite Hout. apply not_elem_of_dom in Hd. rewrite Hd in Hrow.
    by destruct (ms_files (pu_store s) !! path).
  - right. left. rewrite Ha in Hrow. destruct (ms_files (pu_store s) !! path) as [row|]; [|done].
    injection Hrow as Hrow. exists row, record. split; [done|]. split; [by right|done].
Qed.

Lemma commit_notes path x c (s s' : Pushing Obj) r : notes_as path x (pu_store s) →
  no_change c s = (r, s') ∨ (∃ key version, commit_advance c key version s = (r, s')) → notes_as path x (pu_store s').
Proof.
  intros Hn Hend. assert (∀ (m : SM unit) (k : PushOutcome), keeps (notes_as path x) m →
    keeps (λ s : Pushing Obj, notes_as path x (pu_store s)) (push_store m ;; mret k : PM _)) as Hk.
  { intros m k Hm. keeps_step; [by apply notes_store|apply keeps_ret]. }
  destruct Hend as [Hend|(key & version & Hend)]; refine (keeps_run _ _ _ _ _ (Hk _ _ _) Hn Hend);
    [apply notes_no_change|apply notes_success].
Qed.

(** A push either leaves the tables it settles as they were, and then reports a failure or a
    lost ref, or commits the candidate it built from what it saw. *)
Inductive concluded (dirty : gset WorkspacePath) (evidence : WatcherEvidence) (s : Pushing Obj)
    (r : Result PushOutcome PushError) (s' : Pushing Obj) : Prop :=
| concluded_without : untouched s s' → (∀ outcome, r = Ok outcome → outcome_skipped outcome = None) →
    concluded dirty evidence s r s'
| concluded_commit (start : Start deps s dirty) c s0 s1 s2 :
    build_candidate deps (st_ancestor deps s dirty start) dirty (trust_of evidence) s0 = (Ok c, s1) →
    cd_scanned c = canonical_paths deps dirty → untouched s s2 →
    rows_committed c (pu_store s2) (pu_store s') →
    (∀ path, examined c path → notes_as path (cd_unsyncable c !! path) (pu_store s')) →
    no_change c s2 = (r, s') ∨ (∃ key version, commit_advance c key version s2 = (r, s')) →
    (∀ outcome, r = Ok outcome → outcome_skipped outcome = Some (cd_skipped c)) →
    concluded dirty evidence s r s'.

Lemma push_concluded dirty deletions evidence (s s' : Pushing Obj) r :
  push_dirty_paths_authorized deps dirty deletions evidence s = (r, s') → concluded dirty evidence s r s'.
Proof.
  intros Hp. apply push_ended in Hp as [Hu Hr|start c s0 s1 s2 _ _ _ Hb Hu Hn _ Hend].
  { apply concluded_without; [done|]. intros outcome ->. by destruct Hr as [[e [=]]|[current [= ->]]]. }
  assert (no_change c s2 = (r, s') ∨ ∃ key version, commit_advance c key version s2 = (r, s')) as Hcommit
    by (destruct Hend as [Hend|(key & version & s3 & _ & _ & _ & Hend)]; eauto).
  assert (cd_scanned c = canonical_paths deps dirty) as Hscan
    by (apply build_candidate_raw in Hb as (raw & t & os & _ & _ & ->); done).
  assert ((untouched s2 s' ∧ ∃ e, r = Err e) ∨ (rows_committed c (pu_store s2) (pu_store s') ∧
    (∀ outcome, r = Ok outcome → outcome_skipped outcome = Some (cd_skipped c)))) as [[Hw [e ->]]|[Hrows Hsk]].
  { destruct Hcommit as [Hc|(key & version & Hc)].
    - apply no_change_run in Hc as [[Hw He]|(-> & Hrows & _)]; [by left|right]. split; [done|]. by intros outcome [= <-].
    - apply advance_run in Hc as [[Hw He]|(-> & Hrows & _)]; [by left|right]. split; [done|]. by intros outcome [= <-]. }
  - apply concluded_without; [|done]. unfold untouched in *. congruence.
  - eapply concluded_commit; try done. intros path Hc. eapply commit_notes; [by apply Hn|done].
Qed.

Lemma push_settles_path dirty deletions evidence (s s' : Pushing Obj) outcome skipped path :
  push_dirty_paths_authorized deps dirty deletions evidence s = (Ok outcome, s') →
  outcome_skipped outcome = Some skipped →
  path ∈ canonical_paths deps dirty → path ∉ skipped →
  path_settled evidence (canonical_paths deps dirty) (pu_store s') path.
Proof.
  intros Hp Hskip Hin Hout.
  apply push_concluded in Hp as [_ Hr|start c s0 s1 s2 Hb Hscan Hu Hrows Hn _ Hr]; [by rewrite (Hr _ eq_refl) in Hskip|].
  injection Hu as Hf _ _. rewrite (Hr _ eq_refl) in Hskip. injection Hskip as <-.
  destruct (committed_settled evidence _ _ _ _ _ _ _ _ path Hb Hf Hrows Hin Hout) as [Hc|Hs]; [left|by right].
  unfold noted. specialize (Hn path (or_intror Hc)). unfold notes_as in Hn. by rewrite Hn.
Qed.

(** A pending path that is not settled stays. *)
Lemma pending_stays path settled : path ∉ settled →
  keeps (λ s, path ∈ ms_pending_push s) (delete_pending_push_paths settled).
Proof.
  intros Hp. unfold delete_pending_push_paths.
  assert (∀ l, (∀ q, q ∈ l → q ≠ path) → keeps (λ s, path ∈ ms_pending_push s)
    (for_each l (λ q, execute (λ s, s <| ms_pending_push := ms_pending_push s ∖ {[q]} |>)))) as Hl.
  { induction l as [|q l IH]; intros Hne; cbn [for_each]; [apply keeps_ret|]. keeps_step.
    - apply blind_execute; [by intros ? ?|]. intros s Hs. cbn. specialize (Hne q ltac:(left)). set_solver.
    - apply IH. intros q' Hq'. apply Hne. by right. }
  apply Hl. intros q ?%elem_of_elements. by intros ->.
Qed.

Ltac pending_rows :=
  repeat first
    [ apply keeps_ret | apply keeps_of_result | apply keeps_get | by apply pending_stays
    | apply blind_in_transaction; [by intros ? ?|] | apply blind_for_each; intros ?
    | apply blind_execute; [by intros ? ?|by intros ?] | apply blind_statement; by intros ? ?
    | keeps_step; [|] | case_match ].

Lemma commit_pending path c (s s' : Pushing Obj) r : path ∉ settled_paths c → path ∈ ms_pending_push (pu_store s) →
  no_change c s = (r, s') ∨ (∃ key version, commit_advance c key version s = (r, s')) → path ∈ ms_pending_push (pu_store s').
Proof.
  intros Hp Hs Hend. assert (∀ (m : SM unit) (k : PushOutcome), keeps (λ s, path ∈ ms_pending_push s) m →
    keeps (λ s : Pushing Obj, path ∈ ms_pending_push (pu_store s)) (push_store m ;; mret k : PM _)) as Hk.
  { intros m k Hm. keeps_step; [|apply keeps_ret]. intros t Ht. specialize (Hm (pu_store t) Ht). unfold push_store.
    by destruct (m (pu_store t)) as [[]]. }
  destruct Hend as [Hend|(key & version & Hend)]; refine (keeps_run _ _ _ _ _ (Hk _ _ _) Hs Hend).
  - unfold commit_push_no_change, apply_ancestor. pending_rows.
  - unfold commit_push_success, apply_ancestor, set_applied, next_materialization_revision. pending_rows.
Qed.

(** C5: A durable pending path is forgotten only when it is settled.  However a push ends, a
    path that was pending and no longer is was one of the dirty paths; it is not noted as
    unsyncable and the push does not report it as skipped, so unsyncable and churning paths
    stay pending.  And the ancestor now answers for it: it has a row whose kind, mode, size or
    link target is what some look at the disk showed, and for a file the content of that
    identity was read to its end between two equal stats, or, while the watcher missed nothing,
    the stat is the row's and the row was proven after the file's last change; or it has no row
    and the path, or a directory above it, was seen gone or replaced.  So no edit that a restart
    replays from the pending paths is lost by a push. *)
Theorem pending_forgotten_settled dirty deletions evidence (s s' : Pushing Obj) r path :
  push_dirty_paths_authorized deps dirty deletions evidence s = (r, s') →
  path ∈ ms_pending_push (pu_store s) → path ∉ ms_pending_push (pu_store s') →
  path ∈ canonical_paths deps dirty ∧ ¬ noted path (pu_store s') ∧
  (∀ outcome skipped, r = Ok outcome → outcome_skipped outcome = Some skipped → path ∉ skipped) ∧
  row_settled evidence (canonical_paths deps dirty) (pu_store s') path.
Proof.
  intros Hp Hin Hout. apply push_concluded in Hp as [Hu _|start c s0 s1 s2 Hb Hscan Hu Hrows Hn Hcommit Hr].
  { injection Hu as _ _ Hu. congruence. }
  injection Hu as Hf _ Hpend. rewrite <- Hpend in Hin.
  destruct (decide (path ∈ settled_paths c)) as [Hset|Hset]; [|by destruct Hout; eapply commit_pending].
  apply elem_of_filter in Hset as [[Hskip Hsync] Hscanned]. pose proof (Hn path (or_introl Hscanned)) as Hnote.
  rewrite Hscan in Hscanned. split; [done|]. split; [|split].
  - unfold notes_as in Hnote. unfold noted. rewrite Hnote, Hsync. by intros [? [=]].
  - intros outcome skipped Ho. rewrite (Hr _ Ho). by intros [= <-].
  - destruct (committed_settled evidence _ _ _ _ _ _ _ _ path Hb Hf Hrows Hscanned Hskip) as [Hc|Hs]; [|done].
    rewrite Hsync in Hc. by destruct Hc.
Qed.

End Settled.
