(* ===== verification/Forest.v ===== *)
(** * The directory trees manifests denote

    The specification side of the tree transport: a [forest] is what one directory
    holds, in name order, with the key of the node that carries each subdirectory.
    [entries_of] is the node that lists it, [flat] the manifest rows below it,
    [shape] the forest without its node keys.  [backed] says that every node key of a
    forest opens to the node it stands for. *)

From S2P Require Import Prelude.
From S2P Require Import ManifestTypes.
From S2P Require Import MergeMatrix.
From S2P Require Import Ordered.
From S2P Require Import Materialize.
From S2P Require Import Paths.
From S2P Require Import Tree.
From S2P Require Import TreeTransport.
Local Open Scope string_scope.
Open Scope Z_scope.

(** ** Names and paths *)

Lemma dir_child_join l n : Forall segment l → dir_child (join l) n = join (l ++ [n])%list.
Proof.
  intros Hl. unfold dir_child. destruct (String.eqb_spec (join l) "") as [He|Hne].
  - by rewrite (join_nil l).
  - rewrite join_below by (by intros ->). done.
Qed.

Lemma segments_snoc l n : Forall segment l → segment n → Forall segment (l ++ [n])%list.
Proof. intros Hl Hn. by rewrite Forall_app, Forall_singleton. Qed.

(** ** Forests *)

Inductive forest :=
| FNil
| FLeaf (name : string) (entry : ManifestEntry) (rest : forest)
| FDir (name : string) (mode : option FileMode) (key : ManifestKey) (below rest : forest).

(** The payload of a subdirectory: with a mode, the manifest has an entry for it. *)
Definition dir_payload (mode : option FileMode) (key : ManifestKey) : TreeEntryPayload :=
  match mode with Some mode => TreeDirectory mode key | None => TreeSubtree key end.

Definition leaf_entry (name : string) (entry : ManifestEntry) : TreeEntry :=
  {| te_name := name;
     te_payload := match entry with
                   | FileEntry size mode content_id blob_key key_epoch =>
                       TreeFile size mode content_id blob_key key_epoch
                   | SymlinkEntry mode target => TreeSymlink mode target
                   | DirectoryEntry mode => TreeDirectory mode ""
                   end |}.

Definition is_leaf (entry : ManifestEntry) : Prop := entry_kind entry ≠ Directory.

Lemma leaf_payload_leaf name entry : is_leaf entry →
  leaf_payload entry = Ok (te_payload (leaf_entry name entry)).
Proof. by destruct entry. Qed.

(** The node that lists a directory. *)
Fixpoint entries_of (f : forest) : list TreeEntry :=
  match f with
  | FNil => []
  | FLeaf name entry rest => leaf_entry name entry :: entries_of rest
  | FDir name mode key _ rest =>
      {| te_name := name; te_payload := dir_payload mode key |} :: entries_of rest
  end.

Fixpoint names (f : forest) : list string :=
  match f with
  | FNil => []
  | FLeaf name _ rest | FDir name _ _ _ rest => name :: names rest
  end.

Fixpoint shape (f : forest) : forest :=
  match f with
  | FNil => FNil
  | FLeaf name entry rest => FLeaf name entry (shape rest)
  | FDir name mode _ below rest => FDir name mode "" (shape below) (shape rest)
  end.

(** The manifest entry of a subdirectory, if it has one. *)
Definition dir_rows (path : WorkspacePath) (mode : option FileMode)
    : list (WorkspacePath * ManifestEntry) :=
  match mode with Some mode => [(path, DirectoryEntry mode)] | None => [] end.

(** The manifest rows below the directory with the components [l], in walking
    order. *)
Fixpoint flat (l : list string) (f : forest) : list (WorkspacePath * ManifestEntry) :=
  match f with
  | FNil => []
  | FLeaf name entry rest => (join (l ++ [name])%list, entry) :: flat l rest
  | FDir name mode _ below rest =>
      (dir_rows (join (l ++ [name])%list) mode ++ flat (l ++ [name])%list below ++ flat l rest)%list
  end.

(** Every path the directory mentions. *)
Fixpoint paths (l : list string) (f : forest) : list WorkspacePath :=
  match f with
  | FNil => []
  | FLeaf name _ rest => join (l ++ [name])%list :: paths l rest
  | FDir name _ _ below rest =>
      join (l ++ [name])%list :: (paths (l ++ [name]) below ++ paths l rest)%list
  end.

(** The node key of every subdirectory. *)
Fixpoint dir_keys (l : list string) (f : forest) : list (DirPath * ManifestKey) :=
  match f with
  | FNil => []
  | FLeaf _ _ rest => dir_keys l rest
  | FDir name _ key below rest =>
      (join (l ++ [name])%list, key) :: (dir_keys (l ++ [name]) below ++ dir_keys l rest)%list
  end.

Fixpoint height (f : forest) : nat :=
  match f with
  | FNil => 0
  | FLeaf _ _ rest => height rest
  | FDir _ _ _ below rest => Datatypes.S (height below) `max` height rest
  end.

(** Entries of nodes, and subdirectories. *)
Fixpoint records (f : forest) : Z :=
  match f with
  | FNil => 0
  | FLeaf _ _ rest => 1 + records rest
  | FDir _ _ _ below rest => 1 + records below + records rest
  end.

Definition declared_size (entry : ManifestEntry) : Z :=
  match entry with FileEntry size _ _ _ _ => size | _ => 0 end.

Fixpoint declared (f : forest) : Z :=
  match f with
  | FNil => 0
  | FLeaf _ entry rest => declared_size entry + declared rest
  | FDir _ _ _ below rest => declared below + declared rest
  end.

(** The total of a per-node quantity over the subdirectories. *)
Fixpoint total_nodes (weight : ManifestKey → Z) (f : forest) : Z :=
  match f with
  | FNil => 0
  | FLeaf _ _ rest => total_nodes weight rest
  | FDir _ _ key below rest => weight key + total_nodes weight below + total_nodes weight rest
  end.

(** Names ascend and are components, and only files and symlinks are leaves. *)
Fixpoint wf (f : forest) : Prop :=
  match f with
  | FNil => True
  | FLeaf name entry rest =>
      segment name ∧ Forall (str_lt name) (names rest) ∧ is_leaf entry ∧ wf rest
  | FDir name _ _ below rest =>
      segment name ∧ Forall (str_lt name) (names rest) ∧ wf below ∧ wf rest
  end.

(** [stores key node]: the object named [key] opens to [node]. *)
Fixpoint backed (stores : ManifestKey → TreeNode → Prop) (f : forest) : Prop :=
  match f with
  | FNil => True
  | FLeaf _ _ rest => backed stores rest
  | FDir _ _ key below rest =>
      (∃ node, stores key node ∧ tn_entries node = entries_of below) ∧
      backed stores below ∧ backed stores rest
  end.

(** The object named [key] carries the directory [f]. *)
Definition carries (stores : ManifestKey → TreeNode → Prop) (key : ManifestKey) (f : forest)
    : Prop :=
  (∃ node, stores key node ∧ tn_entries node = entries_of f) ∧ backed stores f.

(** ** Erasing the keys *)

Lemma shape_shape f : shape (shape f) = shape f.
Proof. induction f; cbn; congruence. Qed.

Lemma names_shape f : names (shape f) = names f.
Proof. induction f; cbn; congruence. Qed.

Lemma flat_shape l f : flat l (shape f) = flat l f.
Proof. revert l. induction f; intros l; cbn; congruence. Qed.

Lemma paths_shape l f : paths l (shape f) = paths l f.
Proof. revert l. induction f; intros l; cbn; congruence. Qed.

Lemma height_shape f : height (shape f) = height f.
Proof. induction f; cbn; congruence. Qed.

Lemma records_shape f : records (shape f) = records f.
Proof. induction f; cbn; congruence. Qed.

Lemma declared_shape f : declared (shape f) = declared f.
Proof. induction f; cbn; congruence. Qed.

Lemma wf_shape f : wf (shape f) ↔ wf f.
Proof. induction f as [| |????? IHr]; cbn; rewrite ?names_shape; naive_solver. Qed.

(** What depends on the shape alone agrees on forests of one shape. *)
Ltac by_shape lem :=
  match goal with H : shape ?f = shape ?g |- _ => rewrite <-(lem f), <-(lem g), H; done end.

Lemma wf_of_shape f g : shape f = shape g → wf f ↔ wf g.
Proof. intros He. by rewrite <-(wf_shape f), <-(wf_shape g), He. Qed.

Lemma backed_mono (S S' : ManifestKey → TreeNode → Prop) f :
  (∀ key node, S key node → S' key node) → backed S f → backed S' f.
Proof. intros Hm. induction f; cbn; naive_solver. Qed.

Lemma carries_mono (S S' : ManifestKey → TreeNode → Prop) key f :
  (∀ key node, S key node → S' key node) → carries S key f → carries S' key f.
Proof. intros Hm [(node & Hs & He) Hb]. split; [by eauto|by eapply backed_mono]. Qed.

(** One key carries one directory. *)
Lemma entries_of_inj (S : ManifestKey → TreeNode → Prop) f g :
  (∀ key n1 n2, S key n1 → S key n2 → n1 = n2) →
  wf f → wf g → backed S f → backed S g → entries_of f = entries_of g → f = g.
Proof.
  intros Hfun. revert g.
  induction f as [|n e r IHr|n mode key b IHb r IHr]; intros [|n' e' r'|n' mode' key' b' r'];
    cbn; intros Hwf Hwg Hbf Hbg He; try done; injection He as He0 He; subst.
  - destruct e, e'; cbn in *; try done; try (by destruct Hwf as (_ & _ & [] & _));
      try (by destruct Hwg as (_ & _ & [] & _)); simplify_eq; f_equal; naive_solver.
  - exfalso. destruct e, mode'; try done. by destruct Hwf as (_ & _ & [] & _).
  - exfalso. destruct e', mode; try done. by destruct Hwg as (_ & _ & [] & _).
  - destruct mode, mode'; simplify_eq/=;
      destruct Hbf as ((nd & Hn & Hen) & Hb & Hr), Hbg as ((nd' & Hn' & Hen') & Hb' & Hr');
      pose proof (Hfun _ _ _ Hn Hn') as ->; f_equal; naive_solver congruence.
Qed.

Lemma carries_inj (S : ManifestKey → TreeNode → Prop) key f g :
  (∀ key n1 n2, S key n1 → S key n2 → n1 = n2) →
  wf f → wf g → carries S key f → carries S key g → f = g.
Proof.
  intros Hfun Hf Hg [(n & Hn & He) Hb] [(n' & Hn' & He') Hb'].
  apply (entries_of_inj S); [done..|]. by rewrite <-He, <-He', (Hfun _ _ _ Hn Hn').
Qed.

(** ** The rows of a directory *)

Lemma flat_below l f p e : wf f → (p, e) ∈ flat l f →
  ∃ n l', n ∈ names f ∧ Forall segment (n :: l') ∧ p = join (l ++ n :: l')%list.
Proof.
  revert l. induction f as [|n e' r IHr|n mode key b IHb r IHr]; intros l; cbn.
  - by intros _ ?%not_elem_of_nil.
  - intros (Hn & _ & _ & Hr) [[= -> ->]|Hin]%elem_of_cons.
    + exists n, []. split_and!; [by left|by apply Forall_singleton|done].
    + destruct (IHr l Hr Hin) as (n' & l' & ? & ? & ?). exists n', l'. split_and!; [by right|done..].
  - intros (Hn & _ & Hb & Hr) [Hin|[Hin|Hin]%elem_of_app]%elem_of_app.
    + destruct mode; cbn in Hin; [|by apply not_elem_of_nil in Hin].
      apply list_elem_of_singleton in Hin as [= -> _].
      exists n, []. split_and!; [by left|by apply Forall_singleton|done].
    + destruct (IHb _ Hb Hin) as (n' & l' & _ & Hl' & ->). exists n, (n' :: l').
      split_and!; [by left|by constructor|by rewrite <-(assoc_L (++))].
    + destruct (IHr l Hr Hin) as (n' & l' & ? & ? & ?). exists n', l'. split_and!; [by right|done..].
Qed.

Lemma segments_app_inj l l1 l2 : Forall segment l → Forall segment l1 → Forall segment l2 →
  join (l ++ l1)%list = join (l ++ l2)%list → l1 = l2.
Proof. intros Hl H1 H2 He%join_inj; [|by apply Forall_app..]. by simplify_list_eq. Qed.

Lemma flat_NoDup l f : wf f → Forall segment l → NoDup (flat l f).*1.
Proof.
  revert l. induction f as [|n e' r IHr|n mode key b IHb r IHr]; intros l; cbn; [constructor|..].
  - intros (Hn & Hlt & _ & Hr) Hl. constructor; [|by apply IHr].
    intros ([p e] & Hp & Hin)%list_elem_of_fmap. cbn in Hp. subst p.
    apply flat_below in Hin as (n' & l' & Hn' & Hs & He); [|done].
    apply segments_app_inj in He; [|done|by apply Forall_singleton|done]. simplify_eq.
    rewrite Forall_forall in Hlt. by destruct (irreflexivity str_lt n' (Hlt _ Hn')).
  - intros (Hn & Hlt & Hb & Hr) Hl. rewrite !fmap_app.
    assert (∀ p, p ∈ (flat (l ++ [n])%list b).*1 →
      ∃ n' l', Forall segment (n :: n' :: l') ∧ p = join (l ++ n :: n' :: l')%list) as Hbelow.
    { intros p ([p' e] & -> & Hin)%list_elem_of_fmap.
      apply flat_below in Hin as (n' & l' & _ & Hs & ->); [|done].
      exists n', l'. split; [by constructor|]. by rewrite <-(assoc_L (++)). }
    assert (∀ p, p ∈ (flat l r).*1 →
      ∃ n' l', n' ≠ n ∧ Forall segment (n' :: l') ∧ p = join (l ++ n' :: l')%list) as Hrest.
    { intros p ([p' e] & -> & Hin)%list_elem_of_fmap.
      apply flat_below in Hin as (n' & l' & Hn' & Hs & ->); [|done].
      exists n', l'. split_and!; [|done..]. intros ->.
      rewrite Forall_forall in Hlt. by destruct (irreflexivity str_lt n (Hlt _ Hn')). }
    apply NoDup_app. split_and!.
    + destruct mode; cbn; [apply NoDup_singleton|constructor].
    + intros p Hp. assert (p = join (l ++ [n])%list) as ->.
      { destruct mode; cbn in Hp; [by apply list_elem_of_singleton in Hp|by apply not_elem_of_nil in Hp]. }
      rewrite elem_of_app. intros [(n' & l' & Hs & He)%Hbelow|(n' & l' & Hne & Hs & He)%Hrest].
      * apply segments_app_inj in He; [done|done|by apply Forall_singleton|done].
      * apply segments_app_inj in He; [by simplify_eq|done|by apply Forall_singleton|done].
    + apply NoDup_app. split_and!; [apply IHb; [done|by apply segments_snoc]| |by apply IHr].
      intros p (n1 & l1 & Hs1 & ->)%Hbelow (n2 & l2 & Hne & Hs2 & He)%Hrest.
      apply segments_app_inj in He; [by simplify_eq|done..].
Qed.

(** The rows as a manifest. *)
Definition rows (l : list string) (f : forest) : gmap WorkspacePath ManifestEntry :=
  list_to_map (flat l f).

Lemma rows_lookup l f p e : wf f → Forall segment l →
  rows l f !! p = Some e ↔ (p, e) ∈ flat l f.
Proof. intros Hf Hl. symmetry. by apply elem_of_list_to_map, flat_NoDup. Qed.

(** Inserting a list of pairs one by one. *)
Definition insert_all {A} (m : gmap string A) (l : list (string * A)) : gmap string A :=
  foldl (λ m '(k, v), <[k := v]> m) m l.

Lemma insert_all_lookup {A} (m : gmap string A) l k : NoDup l.*1 →
  insert_all m l !! k = match (list_to_map l : gmap string A) !! k with
                        | Some v => Some v
                        | None => m !! k
                        end.
Proof.
  revert m. induction l as [|[k' v] l IH]; intros m; cbn; [by rewrite lookup_empty|].
  intros [Hni Hn]%NoDup_cons. fold (insert_all (<[k' := v]> m) l). rewrite IH by done.
  destruct (decide (k' = k)) as [->|Hne].
  - rewrite lookup_insert_eq. apply not_elem_of_list_to_map_1 in Hni. by rewrite Hni, lookup_insert_eq.
  - by rewrite !lookup_insert_ne.
Qed.

Lemma insert_all_empty {A} (l : list (string * A)) : NoDup l.*1 → insert_all ∅ l = list_to_map l.
Proof.
  intros Hn. apply map_eq. intros k. rewrite insert_all_lookup by done.
  by destruct (list_to_map l !! k) eqn:E; rewrite ?lookup_empty.
Qed.

Lemma insert_all_app {A} (m : gmap string A) l1 l2 :
  insert_all m (l1 ++ l2)%list = insert_all (insert_all m l1) l2.
Proof. apply foldl_app. Qed.
