(* ===== verification/FetchTheorems.v ===== *)
(** * Fetching is flattening

    A walk without pruning succeeds exactly on the directories whose nodes open and
    whose totals fit the limits, and what it collects is the rows of the directory:
    [walk_complete] and [walk_sound].  The theorems on publishing, pruning and
    comparing read the fetched manifest off these two lemmas. *)

From Stdlib Require Import Ascii.
From S2P Require Import Prelude.
From S2P Require Import ManifestTypes.
From S2P Require Import MergeMatrix.
From S2P Require Import Ordered.
From S2P Require Import Materialize.
From S2P Require Import DiskLemmas.
From S2P Require Import Paths.
From S2P Require Import Tree.
From S2P Require Import TreeTransport.
From S2P Require Import Forest.
Local Open Scope string_scope.
Open Scope Z_scope.

Lemma str_len_nonneg s : 0 ≤ str_len s.
Proof. unfold str_len. lia. Qed.

Lemma saturating_exact a b : a + b ≤ u64_max → u64_saturating_add a b = a + b.
Proof. unfold u64_saturating_add. lia. Qed.

Section Opened.
Context {Obj : Type} `{Blake3} `{NodeCodec} `{Envelope} `{RemoteObjects Obj}.
Context (objects : Obj) (crypto : WorkspaceCrypto) (limits : DecodeLimits).

(** What opening one node yields, and the bytes it charges, outside of any budget. *)
Definition opened (key : ManifestKey) : Result (TreeNode * Z) TreeError :=
  match get_manifest objects key with
  | Err error => Err (TreeTransportFailed error)
  | Ok sealed =>
      if negb (physical_manifest_key sealed =? key)%string then Err NodeKeyMismatch else
      match open_tree_node crypto sealed limits with
      | Err error => Err (TreeManifest error)
      | Ok (plaintext, key_epoch) =>
          match decode_node plaintext key_epoch limits with
          | Err error => Err (TreeManifest error)
          | Ok node => Ok (node, str_len plaintext)
          end
      end
  end.

Definition opens (key : ManifestKey) (node : TreeNode) : Prop := ∃ n, opened key = Ok (node, n).

(** The bytes a node charges. *)
Definition node_bytes (key : ManifestKey) : Z :=
  match opened key with Ok (_, n) => n | Err _ => 0 end.

Lemma opens_fun key n1 n2 : opens key n1 → opens key n2 → n1 = n2.
Proof. unfold opens. naive_solver congruence. Qed.

Lemma node_bytes_nonneg key : 0 ≤ node_bytes key.
Proof. unfold node_bytes, opened. split_cases; apply str_len_nonneg. Qed.

Lemma total_bytes_nonneg f : 0 ≤ total_nodes node_bytes f.
Proof. induction f; cbn; pose proof node_bytes_nonneg; try lia. specialize (H3 key). lia. Qed.

(** Opening never yields a node the decoder would refuse. *)
Lemma opens_decoded key node : opens key node → validate_entries limits None (tn_entries node) = Ok tt.
Proof.
  unfold opens, opened. intros [n Hn]. destruct (get_manifest _ _) as [sealed|]; [|done].
  destruct (negb _); [done|]. destruct (open_tree_node _ _ _) as [[plaintext epoch]|]; [|done].
  destruct (decode_node _ _ _) as [node'|] eqn:Hd; [|done]. injection Hn as -> _.
  revert Hd. unfold decode_node, result_bind. destruct (result_ok_or _ _) as [nd|]; [|done].
  destruct (negb _); [done|]. destruct (negb _); [done|]. destruct (_ <? _); [done|].
  destruct (validate_entries _ _ _) as [[]|] eqn:Hv; [|done]. by intros [= ->].
Qed.

End Opened.

(** ** The decoder's checks *)

Lemma validate_name_ok name limits : validate_name name limits = Ok tt → segment name.
Proof.
  unfold validate_name, segment, nonempty. destruct (name =? "")%string eqn:E; [done|].
  destruct (_ <? _); [done|]. destruct (contains "/" name) eqn:Hc; [done|]. intros _.
  split; [|done]. clear E. unfold contains in Hc. induction name as [|c s IH]; [done|].
  cbn [split_once strip_prefix] in Hc. unfold no_char. cbn [all_bytes].
  destruct (Ascii.eqb_spec c "/"%char) as [->|Hne]; [done|]. apply IH.
  destruct (Ascii.eqb_spec "/"%char c) as [|_]; [done|]. by destruct (split_once "/" s).
Qed.

Lemma validate_entries_sorted limits entries previous :
  validate_entries limits previous entries = Ok tt →
  StronglySorted str_lt (te_name <$> entries) ∧
  Forall segment (te_name <$> entries) ∧
  (∀ p, previous = Some p → Forall (str_lt p) (te_name <$> entries)).
Proof.
  revert previous. induction entries as [|e es IH]; intros previous; cbn;
    [intros _; split_and!; by constructor|].
  unfold result_bind. destruct (validate_name _ _) as [[]|] eqn:Hn; [|done].
  destruct (is_some_and _ previous) eqn:Hp; [done|].
  destruct (validate_payload _ _) as [[]|]; [|done]. intros (Hs & Hf & Hall)%IH.
  specialize (Hall _ eq_refl). apply validate_name_ok in Hn. split_and!; [by constructor..|].
  intros p ->. cbn in Hp. constructor; [done|].
  eapply Forall_impl; [exact Hall|]. intros x Hx. by etrans.
Qed.

Lemma te_names f : te_name <$> entries_of f = names f.
Proof. induction f; cbn; congruence. Qed.

(** ** Exact walks *)

Section Walk.
Context {Obj L : Type} `{Blake3} `{NodeCodec} `{Envelope} `{RemoteObjects Obj} `{TreeNodeLookup L}.
Context (objects : Obj) (crypto : WorkspaceCrypto) (limits : DecodeLimits).
Context (fold : string → string).
Implicit Types w : TreeWalk L.

Local Abbreviation stores := (opens objects crypto limits).
Local Abbreviation bytes_of := (node_bytes objects crypto limits).
Local Abbreviation down := (descend (L := L) objects crypto limits fold None).

Definition push_all (m : gmap string (list WorkspacePath)) (l : list WorkspacePath)
    : gmap string (list WorkspacePath) :=
  foldl (λ m p, push_folded (fold p) p m) m l.

(** The walk after the directory [f] at [l]. *)
Definition walked (l : list string) (f : forest) (w : TreeWalk L) : TreeWalk L :=
  {| tw_ledger := tw_ledger w;
     tw_entries := insert_all (tw_entries w) (flat l f);
     tw_folded := push_all (tw_folded w) (flat l f).*1;
     tw_node_keys := insert_all (tw_node_keys w) (dir_keys l f);
     tw_records := tw_records w + records f;
     tw_aggregate := tw_aggregate w + declared f;
     tw_decoded := tw_decoded w + total_nodes bytes_of f |}.

Definition entered (l : list string) (key : ManifestKey) (w : TreeWalk L) : TreeWalk L :=
  w <| tw_node_keys := <[join l := key]> (tw_node_keys w) |>
    <| tw_decoded := tw_decoded w + bytes_of key |>.

(** The rest of the directory fits what the limits still admit. *)
Record room_for (l : list string) (f : forest) (w : TreeWalk L) : Prop := {
  rf_paths : Forall (λ p, validate_manifest_path p limits = Ok tt) (paths l f);
  rf_records : tw_records w + records f ≤ max_records limits;
  rf_sizes : Forall (λ row, 0 ≤ declared_size row.2) (flat l f);
  rf_declared : 0 ≤ tw_aggregate w ∧ tw_aggregate w + declared f ≤ max_aggregate_declared_bytes limits;
  rf_decoded : 0 ≤ tw_decoded w ∧
    tw_decoded w + total_nodes bytes_of f ≤ max_aggregate_decoded_bytes limits;
}.

Hypothesis caps_fit : max_aggregate_declared_bytes limits ≤ u64_max.
Hypothesis decoded_cap_fits : max_aggregate_decoded_bytes limits ≤ u64_max.

Lemma records_nonneg f : 0 ≤ records f.
Proof. induction f; cbn; lia. Qed.

Lemma declared_nonneg l f : Forall (λ row : _ * _, 0 ≤ declared_size row.2) (flat l f) → 0 ≤ declared f.
Proof.
  revert l. induction f as [| |n mode]; intros l; cbn; [done|..].
  - rewrite Forall_cons. cbn. intros [? ?%IHf]. lia.
  - rewrite !Forall_app. intros (_ & ?%IHf1 & ?%IHf2). lia.
Qed.

Lemma open_node_run key node w : stores key node → 0 ≤ tw_decoded w →
  tw_decoded w + bytes_of key ≤ max_aggregate_decoded_bytes limits →
  open_node objects crypto limits key w
  = (Ok node, w <| tw_decoded := tw_decoded w + bytes_of key |>).
Proof.
  unfold node_bytes, open_node. intros [n Hn] Hpos Hle. rewrite Hn in Hle. rewrite Hn.
  unfold opened in Hn. rewrite bind_run.
  destruct (get_manifest objects key) as [sealed|]; [|done]. cbn.
  destruct (negb _); [done|]. cbn.
  destruct (open_tree_node _ _ _) as [[plaintext epoch]|]; [|done]. cbn.
  destruct (decode_node _ _ _) eqn:Hd; [|done]. injection Hn as -> <-.
  unfold manifest_result. unfold_M. cbn -[u64_saturating_add].
  rewrite saturating_exact by lia.
  destruct (Z.ltb_spec (max_aggregate_decoded_bytes limits) (tw_decoded w + str_len plaintext)); [lia|].
  by rewrite Hd.
Qed.

Lemma count_record_run w : tw_records w + 1 ≤ max_records limits →
  count_record limits w = (Ok tt, w <| tw_records := tw_records w + 1 |>).
Proof.
  intros Hle. unfold count_record. unfold_M. cbn.
  destruct (Z.ltb_spec (max_records limits) (tw_records w + 1)); [lia|done].
Qed.

Lemma emit_path_run path entry w :
  validate_manifest_path path limits = Ok tt → 0 ≤ declared_size entry →
  0 ≤ tw_aggregate w →
  tw_aggregate w + declared_size entry ≤ max_aggregate_declared_bytes limits →
  emit_path limits fold path entry w
  = (Ok tt, w <| tw_aggregate := tw_aggregate w + declared_size entry |>
              <| tw_folded := push_folded (fold path) path (tw_folded w) |>
              <| tw_entries := <[path := entry]> (tw_entries w) |>).
Proof.
  intros Hv Hpos Ha Hle. unfold emit_path, validate_dir, manifest_result. unfold_M.
  rewrite Hv. destruct w. destruct entry as [size ????|?|??]; cbn in *; rewrite ?Z.add_0_r; [|done..].
  unfold u64_checked_add. destruct (Z.leb_spec (tw_aggregate + size) u64_max); [|lia].
  cbn. destruct (Z.leb_spec (tw_aggregate + size) (max_aggregate_declared_bytes limits)); [done|lia].
Qed.
(** One emitted row. *)
Lemma emit_step l name entry w : Forall segment l →
  validate_manifest_path (join (l ++ [name])%list) limits = Ok tt → 0 ≤ declared_size entry →
  tw_records w + 1 ≤ max_records limits →
  0 ≤ tw_aggregate w →
  tw_aggregate w + declared_size entry ≤ max_aggregate_declared_bytes limits →
  (count_record limits ;; emit_path limits fold (dir_child (join l) name) entry) w
  = (Ok tt, walked l (FLeaf name entry FNil) w).
Proof.
  intros Hl Hv Hs Hr Ha Hd. rewrite bind_run, count_record_run by done.
  rewrite dir_child_join by done. rewrite emit_path_run by done.
  unfold walked. cbn. by rewrite !Z.add_0_r.
Qed.

Lemma descend_run room l key f w :
  Forall segment l → carries stores key f → 0 ≤ tw_decoded w →
  tw_decoded w + bytes_of key ≤ max_aggregate_decoded_bytes limits →
  down (Datatypes.S room) (join l) key w
  = each (entries_of f) (walk_entry limits fold (down room) (join l)) (entered l key w).
Proof.
  intros Hl [(node & Hn & He) Hb] H1' H2'. cbn [descend]. rewrite bind_run. cbn.
  unfold prune_subtree. rewrite bind_run. cbn.
  rewrite bind_run, (open_node_run key node) by done. by rewrite He.
Qed.

Lemma walked_app_leaf l name entry r w :
  walked l r (walked l (FLeaf name entry FNil) w) = walked l (FLeaf name entry r) w.
Proof. unfold walked. cbn. f_equal; lia. Qed.

Lemma walked_app_dir l name mode key b r w :
  walked l r (walked (l ++ [name])%list b (entered (l ++ [name])%list key
    (w <| tw_records := tw_records w + 1 |>
       <| tw_folded := push_all (tw_folded w) (dir_rows (join (l ++ [name])%list) mode).*1 |>
       <| tw_entries := insert_all (tw_entries w) (dir_rows (join (l ++ [name])%list) mode) |>)))
  = walked l (FDir name mode key b r) w.
Proof.
  unfold walked, entered, push_all, insert_all. cbn. rewrite !fmap_app, !foldl_app.
  f_equal; lia.
Qed.

(** The step before a walk enters a subdirectory. *)
Lemma enter_step (go : DirPath → ManifestKey → M (TreeWalk L) TreeError unit) l name mode key w :
  Forall segment l →
  validate_manifest_path (join (l ++ [name])%list) limits = Ok tt →
  tw_records w + 1 ≤ max_records limits →
  0 ≤ tw_aggregate w → tw_aggregate w ≤ max_aggregate_declared_bytes limits →
  walk_entry limits fold go (join l) {| te_name := name; te_payload := dir_payload mode key |} w
  = go (join (l ++ [name])%list) key
      (w <| tw_records := tw_records w + 1 |>
         <| tw_folded := push_all (tw_folded w) (dir_rows (join (l ++ [name])%list) mode).*1 |>
         <| tw_entries := insert_all (tw_entries w) (dir_rows (join (l ++ [name])%list) mode) |>).
Proof.
  intros Hl Hv Hr Ha Hd. unfold walk_entry. cbn [te_name te_payload].
  rewrite bind_run, count_record_run by done. rewrite dir_child_join by done.
  destruct mode as [mode|]; cbn [dir_payload dir_rows]; rewrite bind_run.
  - rewrite emit_path_run by (done || cbn; lia). destruct w. cbn. by rewrite Z.add_0_r.
  - unfold validate_dir. rewrite Hv. by destruct w.
Qed.

Lemma walk_entries_run f : ∀ room l w,
  (height f ≤ room)%nat → wf f → Forall segment l → backed stores f → room_for l f w →
  each (entries_of f) (walk_entry limits fold (down room) (join l)) w = (Ok tt, walked l f w).
Proof.
  induction f as [|name entry r IHr|name mode key b IHb r IHr]; intros room l w Hh Hwf Hl Hb Hfit.
  - unfold walked. cbn. rewrite !Z.add_0_r. by destruct w.
  - destruct Hwf as (Hn & _ & Hleaf & Hr). destruct Hfit as [Hp Hrec Hsz [Ha Hd] Hdec].
    cbn in Hp, Hrec, Hsz, Hd, Hdec. apply Forall_cons in Hp as [Hp Hps].
    apply Forall_cons in Hsz as [Hs Hss]. cbn in Hs.
    pose proof (records_nonneg r). pose proof (declared_nonneg _ _ Hss). pose proof (total_bytes_nonneg objects crypto limits r).
    cbn [entries_of each]. rewrite bind_run.
    assert (walk_entry limits fold (down room) (join l) (leaf_entry name entry) w
            = (Ok tt, walked l (FLeaf name entry FNil) w)) as ->.
    { rewrite <-emit_step by (done || lia). by destruct entry. }
    rewrite IHr; [by rewrite walked_app_leaf|done..|].
    constructor; cbn; [done|lia|done|lia|lia].
  - destruct Hwf as (Hn & _ & Hwb & Hwr). destruct Hfit as [Hp Hrec Hsz [Ha Hd] [Hd0 Hdec]].
    cbn in Hp, Hrec, Hsz, Hd, Hdec. apply Forall_cons in Hp as [Hp [Hpb Hpr]%Forall_app].
    apply Forall_app in Hsz as [_ [Hsb Hsr]%Forall_app]. destruct Hb as (Hk & Hbb & Hbr).
    pose proof (records_nonneg b). pose proof (records_nonneg r).
    pose proof (declared_nonneg _ _ Hsb). pose proof (declared_nonneg _ _ Hsr).
    pose proof (total_bytes_nonneg objects crypto limits b).
    pose proof (total_bytes_nonneg objects crypto limits r).
    pose proof (node_bytes_nonneg objects crypto limits key).
    cbn [height] in Hh. destruct room as [|room]; [lia|].
    cbn [entries_of each]. rewrite bind_run, enter_step by (done || lia).
    rewrite (descend_run _ _ _ b); [|by apply segments_snoc|done|cbn; lia..].
    rewrite IHb; [|lia|done|by apply segments_snoc|done|constructor; cbn; try done; lia].
    rewrite IHr; [by rewrite walked_app_dir|lia|done..|constructor; cbn; try done; lia].
Qed.

(** ** What a successful walk has seen *)

Lemma open_node_inv key node w w' :
  open_node objects crypto limits key w = (Ok node, w') →
  stores key node ∧ tw_ledger w' = tw_ledger w ∧ tw_entries w' = tw_entries w ∧
  tw_folded w' = tw_folded w ∧ tw_node_keys w' = tw_node_keys w.
Proof.
  unfold open_node, opens, opened, manifest_result. do 2 unfold_M. intros Ho.
  destruct (get_manifest objects key) as [sealed|]; [|done].
  destruct (negb _); [done|].
  destruct (open_tree_node _ _ _) as [[plaintext epoch]|]; [|done].
  destruct (max_aggregate_decoded_bytes limits <? _); [done|].
  destruct (decode_node _ _ _); [|done]. injection Ho as -> <-. split; [by eexists|done].
Qed.

Lemma count_record_inv w w' : count_record limits w = (Ok tt, w') →
  w' = w <| tw_records := tw_records w + 1 |>.
Proof. unfold count_record. do 2 unfold_M. destruct (max_records limits <? _); [done|]. by intros [= <-]. Qed.

Lemma emit_path_inv path entry w w' : emit_path limits fold path entry w = (Ok tt, w') →
  validate_manifest_path path limits = Ok tt ∧ tw_ledger w' = tw_ledger w ∧
  tw_entries w' = <[path := entry]> (tw_entries w) ∧
  tw_folded w' = push_folded (fold path) path (tw_folded w) ∧
  tw_node_keys w' = tw_node_keys w.
Proof.
  unfold emit_path, validate_dir, manifest_result. do 2 unfold_M.
  destruct (validate_manifest_path path limits) as [[]|]; [|done].
  destruct entry as [size ????|?|??]; [|by intros [= <-]..].
  destruct (option_filter _ _); [|done]. by intros [= <-].
Qed.

(** The collected part of a walk, as the walk of [f] leaves it. *)
Definition saw (l : list string) (f : forest) (w w' : TreeWalk L) : Prop :=
  tw_ledger w' = tw_ledger w ∧
  tw_entries w' = insert_all (tw_entries w) (flat l f) ∧
  tw_folded w' = push_all (tw_folded w) (flat l f).*1 ∧
  tw_node_keys w' = insert_all (tw_node_keys w) (dir_keys l f).

(** A directory the walk accepted. *)
Record accepted (room : nat) (l : list string) (f : forest) : Prop := {
  acc_wf : wf f;
  acc_backed : backed stores f;
  acc_height : (height f ≤ room)%nat;
  acc_paths : Forall (λ p, validate_manifest_path p limits = Ok tt) (paths l f);
}.

Lemma saw_trans_leaf l name entry f w w1 w2 :
  saw l (FLeaf name entry FNil) w w1 → saw l f w1 w2 → saw l (FLeaf name entry f) w w2.
Proof. intros (E1 & E2 & E3 & E4) (F1 & F2 & F3 & F4). unfold saw. rewrite F1, F2, F3, F4, E1, E2, E3, E4. done. Qed.

Lemma saw_trans_dir l name mode key b r w w1 w2 w3 :
  tw_ledger w1 = tw_ledger w →
  tw_entries w1 = insert_all (tw_entries w) (dir_rows (join (l ++ [name])%list) mode) →
  tw_folded w1 = push_all (tw_folded w) (dir_rows (join (l ++ [name])%list) mode).*1 →
  tw_node_keys w1 = <[join (l ++ [name])%list := key]> (tw_node_keys w) →
  saw (l ++ [name])%list b w1 w2 → saw l r w2 w3 → saw l (FDir name mode key b r) w w3.
Proof.
  intros D1 D2 D3 D4 (E1 & E2 & E3 & E4) (F1 & F2 & F3 & F4). unfold saw.
  rewrite F1, F2, F3, F4, E1, E2, E3, E4, D1, D2, D3, D4. unfold insert_all, push_all.
  split_and!; [done|..]; cbn; by rewrite ?fmap_app, !foldl_app.
Qed.

(** [descend] after its depth guard, without a prune basis. *)
Lemma descend_inv room l key w w' :
  down (Datatypes.S room) (join l) key w = (Ok tt, w') →
  ∃ node w1, stores key node ∧ tw_ledger w1 = tw_ledger w ∧ tw_entries w1 = tw_entries w ∧
    tw_folded w1 = tw_folded w ∧ tw_node_keys w1 = <[join l := key]> (tw_node_keys w) ∧
    each (tn_entries node) (walk_entry limits fold (down room) (join l)) w1 = (Ok tt, w').
Proof.
  cbn [descend]. rewrite bind_run. cbn. unfold prune_subtree. rewrite bind_run. cbn.
  rewrite bind_run. destruct (open_node _ _ _ _ _) as [[node|] w1] eqn:Ho; [|done].
  apply open_node_inv in Ho as (Hs & E1 & E2 & E3 & E4). intros Hw. exists node, w1. done.
Qed.

Lemma walk_entry_inv go l entry w w' : Forall segment l →
  walk_entry limits fold go (join l) entry w = (Ok tt, w') →
  validate_manifest_path (join (l ++ [te_name entry])%list) limits = Ok tt ∧
  ((∃ e, is_leaf e ∧ entry = leaf_entry (te_name entry) e ∧ saw l (FLeaf (te_name entry) e FNil) w w') ∨
   (∃ mode key w1, te_payload entry = dir_payload mode key ∧
      tw_ledger w1 = tw_ledger w ∧
      tw_entries w1 = insert_all (tw_entries w) (dir_rows (join (l ++ [te_name entry])%list) mode) ∧
      tw_folded w1 = push_all (tw_folded w) (dir_rows (join (l ++ [te_name entry])%list) mode).*1 ∧
      tw_node_keys w1 = tw_node_keys w ∧
      go (join (l ++ [te_name entry])%list) key w1 = (Ok tt, w'))).
Proof.
  intros Hl. unfold walk_entry. rewrite bind_run, dir_child_join by done.
  destruct (count_record limits w) as [[[]|] w0] eqn:Hc; [|done].
  apply count_record_inv in Hc as ->. destruct entry as [name payload]. cbn [te_name te_payload].
  destruct payload as [size mode cid bk ke|mode key|key|mode target].
  - intros (Hv & E1 & E2 & E3 & E4)%emit_path_inv. split; [done|]. left.
    by exists (FileEntry size mode cid bk ke).
  - rewrite bind_run. destruct (emit_path _ _ _ _ _) as [[[]|] w1] eqn:He; [|done].
    apply emit_path_inv in He as (Hv & E1 & E2 & E3 & E4). intros Hg. split; [done|]. right.
    by exists (Some mode), key, w1.
  - rewrite bind_run. unfold validate_dir.
    destruct (validate_manifest_path _ _) as [[]|]; [|done]. cbn. intros Hg. split; [done|]. right.
    eexists None, key, _. split_and!; [..|exact Hg]; done.
  - intros (Hv & E1 & E2 & E3 & E4)%emit_path_inv. split; [done|]. left.
    by exists (SymlinkEntry mode target).
Qed.

Lemma walk_entries_inv room : ∀ es l w w' previous,
  Forall segment l → validate_entries limits previous es = Ok tt →
  each es (walk_entry limits fold (down room) (join l)) w = (Ok tt, w') →
  ∃ f, entries_of f = es ∧ accepted room l f ∧ saw l f w w'.
Proof.
  induction room as [room IHroom] using (well_founded_induction lt_wf).
  intros es. induction es as [|e es IH]; intros l w w' previous Hl Hv.
  { intros [= <-]. exists FNil. split_and!; [done|by constructor; cbn; try lia|done]. }
  pose proof (validate_entries_sorted _ _ _ Hv) as (Hs & Hf & _). cbn in Hs, Hf.
  apply StronglySorted_cons in Hs as [Hlt _]. apply Forall_cons in Hf as [Hseg _].
  assert (∃ previous', validate_entries limits previous' es = Ok tt) as [previous' Hv'].
  { revert Hv. cbn. unfold result_bind. destruct (validate_name _ _); [|done].
    destruct (is_some_and _ _); [done|]. destruct (validate_payload _ _); [|done]. by eexists. }
  cbn [each]. rewrite bind_run.
  destruct (walk_entry _ _ _ _ _ _) as [[[]|] w1] eqn:He; [|done]. intros Hes.
  destruct (IH _ _ _ _ Hl Hv' Hes) as (r & Hr & [Rw Rb Rh Rp] & Hsr).
  apply walk_entry_inv in He as [Hp [(en & Hleaf & Hen & Hsaw)|(mode & key & w2 & Hpl & D1 & D2 & D3 & D4 & Hg)]]; [..|done].
  - exists (FLeaf (te_name e) en r). split_and!.
    + cbn. by rewrite Hr, <-Hen.
    + constructor; cbn; [|done|done|by constructor].
      split_and!; [done|by rewrite <-te_names, Hr|done..].
    + by eapply saw_trans_leaf.
  - destruct room as [|room]; [done|].
    apply descend_inv in Hg as (node & w3 & Hn & E1 & E2 & E3 & E4 & Hg).
    destruct (IHroom room (ltac:(lia)) _ _ _ _ _ (segments_snoc _ _ Hl Hseg)
                (opens_decoded _ _ _ _ _ Hn) Hg) as (b & Hb & [Bw Bb Bh Bp] & Hsb).
    exists (FDir (te_name e) mode key b r). split_and!.
    + cbn. rewrite Hr, <-Hpl. by destruct e.
    + constructor; cbn; [|split_and!; [by exists node|done..]|lia|].
      * split_and!; [done|by rewrite <-te_names, Hr|done..].
      * constructor; [done|]. by apply Forall_app.
    + eapply saw_trans_dir; [..|exact Hsb|exact Hsr]; congruence.
Qed.

End Walk.
