(* ===== verification/Decompose.v ===== *)
(** * Decomposition

    What [DirectoryTree::decompose] builds, read off the manifest: a directory exists
    for the root, for every directory entry and for whatever has something below it,
    and a child is a leaf, a directory or a bare subtree accordingly ([tree_of]).
    [forest_at] reads a decomposed tree as a [forest]; its rows are the manifest's. *)

From S2P Require Import Prelude.
From S2P Require Import ManifestTypes.
From S2P Require Import MergeMatrix.
From S2P Require Import Ordered.
From S2P Require Import Materialize.
From S2P Require Import Paths.
From S2P Require Import Tree.
From S2P Require Import TreeTransport.
From S2P Require Import Forest.
Open Scope Z_scope.

Implicit Types nodes : DirectoryTree.
Implicit Types m : gmap WorkspacePath ManifestEntry.

(** ** Reading a tree *)

Definition child (nodes : DirectoryTree) (l : list string) (n : string) : option ChildSpec :=
  nodes !! join l ≫= (.!! n).

(** Something of the manifest lies strictly below [l]. *)
Definition below (m : gmap WorkspacePath ManifestEntry) (l : list string) : Prop :=
  ∃ l', l' ≠ [] ∧ Forall segment l' ∧ is_Some (m !! join (l ++ l')).

(** What the manifest makes of the name at [l]. *)
Definition spec_at (m : gmap WorkspacePath ManifestEntry) (l : list string) (o : option ChildSpec)
    : Prop :=
  match o with
  | None => m !! join l = None ∧ ¬ below m l
  | Some ChildSubtree => m !! join l = None ∧ below m l
  | Some (ChildDirectory mode) => m !! join l = Some (DirectoryEntry mode)
  | Some (Leaf e) => is_leaf e ∧ m !! join l = Some e ∧ ¬ below m l
  end.

Record tree_of (m : gmap WorkspacePath ManifestEntry) (nodes : DirectoryTree) : Prop := {
  to_child l n : Forall segment l → segment n → spec_at m (l ++ [n]) (child nodes l n);
  to_dir l : Forall segment l →
    is_Some (nodes !! join l) ↔
    l = [] ∨ (∃ mode, m !! join l = Some (DirectoryEntry mode)) ∨ below m l;
  to_key d : is_Some (nodes !! d) → ∃ l, Forall segment l ∧ d = join l;
  to_name d children n : nodes !! d = Some children → is_Some (children !! n) → segment n;
  to_path p : is_Some (m !! p) → ∃ l, l ≠ [] ∧ Forall segment l ∧ p = join l;
}.

(** ** Claiming a name *)

(** The slot after a claim. *)
Definition merged (old : option ChildSpec) (incoming : ChildSpec) : ChildSpec :=
  match old, incoming with
  | Some (ChildDirectory mode), ChildSubtree => ChildDirectory mode
  | _, _ => incoming
  end.

(** The claims that are not refused. *)
Definition compatible (old : option ChildSpec) (incoming : ChildSpec) : Prop :=
  match old, incoming with
  | None, _ | Some ChildSubtree, ChildDirectory _ | Some ChildSubtree, ChildSubtree
  | Some (ChildDirectory _), ChildSubtree => True
  | _, _ => False
  end.

Definition segmented (nodes : DirectoryTree) : Prop :=
  (∀ d, is_Some (nodes !! d) → ∃ l, Forall segment l ∧ d = join l) ∧
  (∀ d children n, nodes !! d = Some children → is_Some (children !! n) → segment n).

Lemma child_insert nodes pre children l n : Forall segment pre → Forall segment l →
  child (<[join pre := children]> nodes) l n = if decide (l = pre) then children !! n else child nodes l n.
Proof.
  intros Hp Hl. unfold child. destruct (decide (l = pre)) as [->|Hne].
  - by rewrite lookup_insert_eq.
  - rewrite lookup_insert_ne; [done|]. by intros He%join_inj.
Qed.

Lemma child_default nodes pre n : default ∅ (nodes !! join pre) !! n = child nodes pre n.
Proof. unfold child. by destruct (nodes !! join pre). Qed.

Lemma dir_insert nodes pre (children : gmap string ChildSpec) l : Forall segment pre → Forall segment l →
  is_Some (<[join pre := children]> nodes !! join l) ↔ is_Some (nodes !! join l) ∨ l = pre.
Proof.
  intros Hp Hl. destruct (decide (l = pre)) as [->|Hne].
  - rewrite lookup_insert_eq. split; [by right|done].
  - rewrite lookup_insert_ne by (by intros ?%join_inj). naive_solver.
Qed.

Lemma segmented_insert nodes pre c spec : Forall segment pre → segment c → segmented nodes →
  segmented (<[join pre := <[c := spec]> (default ∅ (nodes !! join pre))]> nodes).
Proof.
  intros Hp Hc [Hk Hn]. split.
  - intros d. destruct (decide (d = join pre)) as [->|Hne]; [by exists pre|].
    rewrite lookup_insert_ne by done. apply Hk.
  - intros d children n. destruct (decide (d = join pre)) as [->|Hne].
    + rewrite lookup_insert_eq. intros [= <-]. destruct (decide (n = c)) as [->|Hnc]; [done|].
      rewrite lookup_insert_ne by done. destruct (nodes !! join pre) eqn:E; cbn.
      * by apply Hn with (join pre).
      * intros Hs. rewrite lookup_empty in Hs. by destruct Hs.
    + rewrite lookup_insert_ne by done. apply Hn.
Qed.

Lemma segmented_default nodes pre : Forall segment pre → segmented nodes →
  segmented (<[join pre := default ∅ (nodes !! join pre)]> nodes).
Proof.
  intros Hp [Hk Hn]. split.
  - intros d. destruct (decide (d = join pre)) as [->|Hne]; [by exists pre|].
    rewrite lookup_insert_ne by done. apply Hk.
  - intros d children n. destruct (decide (d = join pre)) as [->|Hne].
    + rewrite lookup_insert_eq. intros [= <-]. destruct (nodes !! join pre) eqn:E; cbn.
      * by apply Hn with (join pre).
      * intros Hs. rewrite lookup_empty in Hs. by destruct Hs.
    + rewrite lookup_insert_ne by done. apply Hn.
Qed.

Lemma claim_child_spec nodes pre c incoming nodes' :
  Forall segment pre → segment c → claim_child nodes (join pre) c incoming = Ok nodes' →
  compatible (child nodes pre c) incoming ∧
  (∀ l n, Forall segment l →
     child nodes' l n = if decide (l = pre ∧ n = c) then Some (merged (child nodes pre c) incoming)
                        else child nodes l n) ∧
  (∀ l, Forall segment l → is_Some (nodes' !! join l) ↔ is_Some (nodes !! join l) ∨ l = pre) ∧
  (segmented nodes → segmented nodes').
Proof.
  intros Hp Hc. unfold claim_child. rewrite child_default.
  set (inserted := <[join pre := <[c := incoming]> (default ∅ (nodes !! join pre))]> nodes).
  set (kept := <[join pre := default ∅ (nodes !! join pre)]> nodes).
  assert (∀ l n, Forall segment l → child inserted l n
            = if decide (l = pre ∧ n = c) then Some incoming else child nodes l n) as Hi.
  { intros l n Hl. unfold inserted. rewrite child_insert by done.
    destruct (decide (l = pre)) as [->|]; [|by rewrite decide_False by naive_solver].
    destruct (decide (n = c)) as [->|].
    - rewrite lookup_insert_eq. by rewrite decide_True.
    - rewrite lookup_insert_ne by done. by rewrite child_default, decide_False by naive_solver. }
  assert (∀ l n, Forall segment l → child kept l n = child nodes l n) as Hk.
  { intros l n Hl. unfold kept. rewrite child_insert, child_default by done.
    by destruct (decide (l = pre)) as [->|]. }
  assert (∀ l n o, o = child nodes pre c → (if decide (l = pre ∧ n = c) then o else child nodes l n)
            = child nodes l n) as Hsame.
  { intros l n o ->. by destruct (decide _) as [[-> ->]|]. }
  pose proof (λ l, dir_insert nodes pre (<[c := incoming]> (default ∅ (nodes !! join pre))) l Hp) as Di.
  pose proof (λ l, dir_insert nodes pre (default ∅ (nodes !! join pre)) l Hp) as Dk.
  pose proof (segmented_insert nodes pre c incoming Hp Hc) as Si.
  pose proof (segmented_default nodes pre Hp) as Sk.
  destruct (child nodes pre c) as [[e|mode|]|] eqn:Ho, incoming as [e'|mode'|]; try done;
    intros [= <-]; split_and!; try done; cbn [merged]; intros l n Hl;
    first [by apply Hi|rewrite Hk by done; symmetry; by apply Hsame].
Qed.

Lemma or_default_spec nodes pre : Forall segment pre →
  (∀ l n, Forall segment l → child (or_default (join pre) nodes) l n = child nodes l n) ∧
  (∀ l, Forall segment l →
     is_Some (or_default (join pre) nodes !! join l) ↔ is_Some (nodes !! join l) ∨ l = pre) ∧
  (segmented nodes → segmented (or_default (join pre) nodes)).
Proof.
  intros Hp. unfold or_default. destruct (nodes !! join pre) as [children|] eqn:E.
  - split_and!; [done| |done]. intros l Hl. split; [by left|]. intros [?| ->]; [done|by eexists].
  - pose proof (segmented_default nodes pre Hp) as Hs. rewrite E in Hs. split_and!; [|by intros; apply dir_insert|done].
    intros l n Hl. rewrite child_insert by done. destruct (decide (l = pre)) as [->|]; [|done].
    unfold child. by rewrite E, lookup_empty.
Qed.

(** ** Inserting a path *)

Definition strictly_in (l full : list string) : Prop := l `prefix_of` full ∧ l ≠ full.

(** What an insertion of [e] at [full], entered at [pre], leaves at the name [n] of
    the directory [l]. *)
Definition inserted_child (nodes nodes' : DirectoryTree) (pre full : list string) (e : ManifestEntry)
    (l : list string) (n : string) : Prop :=
  (l ++ [n] = full ∧ compatible (child nodes l n) (child_spec e) ∧
     child nodes' l n = Some (child_spec e)) ∨
  (pre `prefix_of` l ∧ strictly_in (l ++ [n]) full ∧ compatible (child nodes l n) ChildSubtree ∧
     child nodes' l n = Some (merged (child nodes l n) ChildSubtree)) ∨
  (¬ (pre `prefix_of` l ∧ (l ++ [n]) `prefix_of` full) ∧ child nodes' l n = child nodes l n).

Definition inserted_dir (nodes nodes' : DirectoryTree) (pre full : list string) (e : ManifestEntry)
    (l : list string) : Prop :=
  is_Some (nodes' !! join l) ↔
  is_Some (nodes !! join l) ∨ (pre `prefix_of` l ∧ strictly_in l full) ∨
  (l = full ∧ entry_kind e = Directory).

Lemma merged_child_spec old e : merged old (child_spec e) = child_spec e.
Proof. by destruct old as [[]|], e. Qed.

Lemma prefix_step (pre l full : list string) (c n : string) rest :
  full = pre ++ c :: rest → pre `prefix_of` l → (l ++ [n]) `prefix_of` full →
  (l = pre ∧ n = c) ∨ (pre ++ [c]) `prefix_of` l.
Proof.
  intros -> [k ->] Hp. rewrite <-(assoc_L (++)) in Hp. apply prefix_app_inv in Hp.
  destruct k as [|x k]; cbn in Hp.
  - left. apply prefix_cons_inv_1 in Hp. by rewrite app_nil_r.
  - right. apply prefix_cons_inv_1 in Hp as ->. exists k. by rewrite <-(assoc_L (++)).
Qed.

Lemma prefix_longer (l l' : list string) : l `prefix_of` l' → (length l ≤ length l')%nat.
Proof. apply prefix_length. Qed.

Lemma strictly_in_pre (pre : list string) c rest : strictly_in pre (pre ++ c :: rest).
Proof. split; [by apply prefix_app_r|]. intros He. apply (f_equal length) in He. rewrite length_app in He. cbn in He. lia. Qed.

Lemma strictly_in_snoc (pre : list string) c c' rest : strictly_in (pre ++ [c]) (pre ++ c :: c' :: rest).
Proof.
  change (c :: c' :: rest) with ([c] ++ c' :: rest). rewrite (assoc_L (++)). apply strictly_in_pre.
Qed.

Lemma insert_components_spec e comps : ∀ nodes pre nodes',
  comps ≠ [] → Forall segment pre → Forall segment comps →
  insert_components nodes (join pre) comps e = Ok nodes' →
  (∀ l n, Forall segment l → segment n → inserted_child nodes nodes' pre (pre ++ comps) e l n) ∧
  (∀ l, Forall segment l → inserted_dir nodes nodes' pre (pre ++ comps) e l) ∧
  (segmented nodes → segmented nodes').
Proof.
  induction comps as [|c rest IH]; intros nodes pre nodes' Hne Hp Hc; [done|].
  apply Forall_cons in Hc as [Hc Hrest]. cbn [insert_components].
  destruct (String.eqb_spec c "") as [->|_]; [by destruct Hc as [_ ?]|].
  pose proof (segments_snoc pre c Hp Hc) as Hpc.
  destruct rest as [|c' rest].
  - unfold result_bind. destruct (claim_child _ _ _ _) as [nodes1|] eqn:Hcl; [|done].
    apply claim_child_spec in Hcl as (Hcompat & Hch & Hd & Hs); [|done..]. rewrite merged_child_spec in Hch.
    destruct (or_default_spec nodes1 (pre ++ [c]) Hpc) as (Och & Od & Os).
    rewrite dir_child_join by done. intros Hn'.
    assert ((∀ l n, Forall segment l → child nodes' l n = child nodes1 l n) ∧
            (∀ l, Forall segment l → is_Some (nodes' !! join l) ↔
               is_Some (nodes1 !! join l) ∨ l = pre ++ [c] ∧ entry_kind e = Directory) ∧
            (segmented nodes1 → segmented nodes')) as (Ech & Ed & Es).
    { destruct e; cbn in Hn'; injection Hn' as <-; split_and!; try done; intros l Hl; naive_solver. }
    split_and!; [..|by auto].
    + intros l n Hl Hn. unfold inserted_child. rewrite Ech, Hch by done.
      destruct (decide (l = pre ∧ n = c)) as [[-> ->]|Hno]; [by left|]. right. right. split; [|done].
      intros [Hpre Hfull]. destruct (prefix_step pre l (pre ++ [c]) c n [] eq_refl Hpre Hfull) as [?|Hx]; [done|].
      apply prefix_longer in Hfull, Hx. rewrite !length_app in *. cbn in *. lia.
    + intros l Hl. unfold inserted_dir. rewrite Ed, Hd by done. split.
      * intros [[?| ->]|?]; [by left| |by right; right]. right. left. split; [done|apply strictly_in_pre].
      * intros [?|[[[k ->] [[k' Hk'] Hne']]|?]]; [by left; left| |by right].
        rewrite <-(assoc_L (++)) in Hk'. apply app_inv_head in Hk'.
        destruct k as [|x k]; [left; right; by rewrite app_nil_r|].
        cbn in Hk'. injection Hk' as <- Hk'. symmetry in Hk'. apply app_eq_nil in Hk' as [-> _]. done.
  - unfold result_bind. destruct (claim_child _ _ _ _) as [nodes1|] eqn:Hcl; [|done].
    apply claim_child_spec in Hcl as (Hcompat & Hch & Hd & Hs); [|done..].
    rewrite dir_child_join by done.
    destruct (or_default_spec nodes1 (pre ++ [c]) Hpc) as (Och & Od & Os).
    intros Hins. apply IH in Hins as (Ich & Id & Is); [|done..].
    rewrite <-(assoc_L (++)) in Ich, Id. cbn [app] in Ich, Id.
    split_and!; [..|by auto].
    + intros l n Hl Hn. specialize (Ich l n Hl Hn). unfold inserted_child in *.
      rewrite Och, Hch in Ich by done.
      destruct (decide (l = pre ∧ n = c)) as [[-> ->]|Hno].
      * right. left. destruct Ich as [[He _]|[[Hx _]|[_ Hsame]]].
        -- apply app_inv_head in He. done.
        -- apply prefix_longer in Hx. rewrite length_app in Hx. cbn in Hx. lia.
        -- split; [done|]. split; [apply strictly_in_snoc|by split].
      * destruct Ich as [?|[(Hx & Hst & ?)|[Hx ?]]]; [by left| |].
        -- right. left. split; [|by split]. etrans; [|exact Hx]. by apply prefix_app_r.
        -- right. right. split; [|done]. intros [Hpre Hfull].
           destruct (prefix_step pre l _ c n _ eq_refl Hpre Hfull); [done|by apply Hx].
    + intros l Hl. specialize (Id l Hl). unfold inserted_dir in *. rewrite Od, Hd in Id by done.
      rewrite Id. split.
      * intros [[[?| ->]| ->]|[[Hx ?]|?]]; [by left|..].
        -- right. left. split; [done|apply strictly_in_pre].
        -- right. left. split; [by apply prefix_app_r|apply strictly_in_snoc].
        -- right. left. split; [|done]. etrans; [|exact Hx]. by apply prefix_app_r.
        -- by right; right.
      * intros [?|[[[k ->] Hst]|?]]; [by left; left; left| |by right; right].
        destruct k as [|x k]; [left; left; right; by rewrite app_nil_r|].
        destruct Hst as [[k' Hk'] Hne']. rewrite <-(assoc_L (++)) in Hk'.
        pose proof Hk' as Hk. apply app_inv_head in Hk. cbn in Hk. injection Hk as <- Hk.
        right. left. split; [exists k; by rewrite <-(assoc_L (++))|]. split; [|done].
        exists k'. rewrite <-(assoc_L (++)). cbn. by rewrite <-Hk.
Qed.

Lemma insert_components_nonempty e comps nodes parent nodes' :
  insert_components nodes parent comps e = Ok nodes' → Forall (λ c, nonempty c = true) comps.
Proof.
  revert nodes parent. induction comps as [|c rest IH]; intros nodes parent; cbn [insert_components]; [constructor|].
  destruct (String.eqb_spec c "") as [|Hne]; [done|]. intros Hi. constructor.
  - unfold nonempty. by destruct (String.eqb_spec c "").
  - destruct rest as [|c' rest]; [constructor|]. unfold result_bind in Hi.
    destruct (claim_child _ _ _ _); [|done]. by eapply IH.
Qed.

Lemma below_insert m full e l : Forall segment l → Forall segment full →
  below (<[join full := e]> m) l ↔ below m l ∨ strictly_in l full.
Proof.
  intros Hl Hf. unfold below, strictly_in. split.
  - intros (l' & Hne & Hs & Hin). destruct (decide (join (l ++ l') = join full)) as [He|Hno].
    + right. apply join_inj in He as <-; [|by apply Forall_app|done]. split; [by apply prefix_app_r|].
      intros He. apply (f_equal length) in He. rewrite length_app in He. destruct l'; [done|cbn in He; lia].
    + left. exists l'. by rewrite lookup_insert_ne in Hin.
  - intros [(l' & Hne & Hs & Hin)|[[k ->] Hne]].
    + exists l'. split_and!; [done..|]. destruct (decide (join (l ++ l') = join full)) as [->|Hno].
      * by rewrite lookup_insert_eq.
      * by rewrite lookup_insert_ne.
    + apply Forall_app in Hf as [_ Hk]. exists k. split_and!; [|done|by rewrite lookup_insert_eq].
      intros ->. by rewrite app_nil_r in Hne.
Qed.

Lemma not_strictly_in (l : list string) : ¬ strictly_in l l.
Proof. by intros [_ ?]. Qed.

Lemma insert_path_tree_of m nodes path e nodes' :
  tree_of m nodes → m !! path = None → insert_path nodes path e = Ok nodes' →
  tree_of (<[path := e]> m) nodes'.
Proof.
  intros [Tc Td Tk Tn Tp] Hfresh Hins. unfold insert_path in Hins.
  assert (∃ full, full ≠ [] ∧ Forall segment full ∧ path = join full ∧ split slash path = full)
    as (full & Hne0 & Hfull & -> & Hsp).
  { exists (split slash path). split_and!; [apply split_nil| |by rewrite join_split|done].
    apply insert_components_nonempty in Hins. apply Forall_and. split; [apply split_no_char|done]. }
  rewrite Hsp in Hins. change "" with (join []) in Hins.
  apply insert_components_spec in Hins as (Ic & Id & Is); [|done..]. cbn [app] in Ic, Id.
  destruct (Is (conj Tk Tn)) as [Tk' Tn']. constructor; [..|done|done|].
  - intros l n Hl Hn. specialize (Tc l n Hl Hn). pose proof (segments_snoc l n Hl Hn) as Hln.
    pose proof (below_insert m full e (l ++ [n]) Hln Hfull) as Hb.
    destruct (Ic l n Hl Hn) as [(He & Hcompat & ->)|[(_ & Hst & Hcompat & ->)|[Hno ->]]].
    + rewrite He in *. unfold spec_at. rewrite lookup_insert_eq.
      destruct e as [size mode cid bk ke|mode|mode target]; cbn; [|done|];
        (split_and!; [done|done|]; rewrite Hb; intros [Hx|Hx%not_strictly_in]; [|done];
         destruct (child nodes l n) as [[]|]; cbn in *; naive_solver).
    + assert (join (l ++ [n]) ≠ join full) as Hne by (by destruct Hst as [_ Hne]; intros ?%join_inj).
      destruct (child nodes l n) as [[]|]; cbn in *; rewrite ?lookup_insert_ne by done; naive_solver.
    + assert (¬ (l ++ [n]) `prefix_of` full) as Hnp by (intros Hp; apply Hno; split; [apply prefix_nil|done]).
      assert (join (l ++ [n]) ≠ join full) as Hne by (intros He%join_inj; [by rewrite He in Hnp|done..]).
      assert (below (<[join full := e]> m) (l ++ [n]) ↔ below m (l ++ [n])) as Hb'
        by (rewrite Hb; split; [intros [?|[? _]]; done|by left]).
      destruct (child nodes l n) as [[]|]; cbn in *; rewrite ?lookup_insert_ne by done; naive_solver.
  - intros l Hl. pose proof (Id l Hl) as Hdir. unfold inserted_dir in Hdir.
    rewrite Hdir, (Td l Hl), below_insert by done.
    destruct (decide (l = full)) as [->|Hne].
    + rewrite lookup_insert_eq, Hfresh. split.
      * intros [[?|[[mode ?]|?]]|[[_ []]|[_ Hk]]]; [done|done|by right; right; left|done|].
        destruct e; try done. right. left. by eexists.
      * intros [?|[[mode [= ->]]|[?|[]]]]; [done|by right; right|by left; right; right|done].
    + rewrite lookup_insert_ne by (intros ?%join_inj; done). pose proof (prefix_nil l).
      split.
      * intros [[?|[?|?]]|[[_ ?]|[? _]]]; [by left|by right; left|by right; right; left
          |by right; right; right|done].
      * intros [?|[?|[?|?]]]; [by left; left|by left; right; left|by left; right; right
          |by right; left].
  - intros p. destruct (decide (p = join full)) as [->|Hne]; [by exists full|].
    rewrite lookup_insert_ne by done. apply Tp.
Qed.

Lemma tree_of_empty : tree_of ∅ {[ "" := ∅ ]}.
Proof.
  constructor.
  - intros l n Hl Hn. assert (child {[ "" := ∅ ]} l n = None) as ->.
    { unfold child. destruct (decide (join l = "")) as [->|Hne].
      - rewrite lookup_singleton_eq. cbn. apply lookup_empty.
      - by rewrite lookup_singleton_ne. }
    cbn. split; [apply lookup_empty|]. intros (l' & _ & _ & Hx). rewrite lookup_empty in Hx. by destruct Hx.
  - intros l Hl. split.
    + intros Hx. left. apply join_nil; [done|]. destruct (decide (join l = "")) as [|Hne]; [done|].
      rewrite lookup_singleton_ne in Hx by done. by destruct Hx.
    + intros [->|[[mode Hx]|(l' & _ & _ & Hx)]].
      * rewrite lookup_singleton_eq. by eexists.
      * by rewrite lookup_empty in Hx.
      * rewrite lookup_empty in Hx. by destruct Hx.
  - intros d Hd. exists []. split; [done|]. destruct (decide (d = "")) as [->|Hne]; [done|].
    rewrite lookup_singleton_ne in Hd by done. by destruct Hd.
  - intros d children n Hd Hn. apply lookup_singleton_Some in Hd as [_ <-].
    rewrite lookup_empty in Hn. by destruct Hn.
  - intros p Hp. rewrite lookup_empty in Hp. by destruct Hp.
Qed.

Lemma decompose_tree_of m nodes : decompose m = Ok nodes → tree_of m nodes.
Proof.
  unfold decompose. intros Hd.
  assert (∀ l m0 nodes0, tree_of m0 nodes0 → NoDup l.*1 → (∀ p, p ∈ l.*1 → m0 !! p = None) →
    try_fold (λ nodes '(path, entry), insert_path nodes path entry) nodes0 l = Ok nodes →
    tree_of (insert_all m0 l) nodes) as Hfold.
  { clear. induction l as [|[p e] l IH]; cbn; intros m0 nodes0 Ht Hn Hfr; [by intros [= <-]|].
    unfold result_bind. destruct (insert_path nodes0 p e) as [nodes1|] eqn:Hi; [|done].
    apply NoDup_cons in Hn as [Hp Hn]. intros Hf. apply (IH (<[p := e]> m0) nodes1); [|done| |done].
    - apply (insert_path_tree_of _ nodes0); [done|apply Hfr; by left|done].
    - intros p' Hp'. rewrite lookup_insert_ne; [apply Hfr; by right|]. by intros ->. }
  apply (Hfold _ ∅) in Hd; [|apply tree_of_empty|apply btree_iter_NoDup|intros; apply lookup_empty].
  rewrite insert_all_empty, list_to_map_btree_iter in Hd by apply btree_iter_NoDup. done.
Qed.

(** ** A decomposed tree as a forest *)

Fixpoint plant (sub : DirPath → option forest) (dir : DirPath) (l : list (string * ChildSpec))
    : option forest :=
  match l with
  | [] => Some FNil
  | (name, Leaf entry) :: l => FLeaf name entry <$> plant sub dir l
  | (name, ChildDirectory mode) :: l =>
      b ← sub (dir_child dir name); r ← plant sub dir l; Some (FDir name (Some mode) "" b r)
  | (name, ChildSubtree) :: l =>
      b ← sub (dir_child dir name); r ← plant sub dir l; Some (FDir name None "" b r)
  end.

Fixpoint forest_at (nodes : DirectoryTree) (room : nat) (dir : DirPath) : option forest :=
  match room with
  | O => None
  | Datatypes.S room =>
      children ← nodes !! dir; plant (forest_at nodes room) dir (btree_iter children)
  end.

(** Induction on a successful [plant]. *)
Ltac plant_cases :=
  repeat match goal with
  | H : _ <$> _ = Some _ |- _ => apply fmap_Some in H as (? & ? & ->)
  | H : _ ≫= _ = Some _ |- _ => apply bind_Some in H as (? & ? & H)
  end; simplify_eq.

Lemma plant_names sub dir cs f : plant sub dir cs = Some f → names f = cs.*1.
Proof.
  revert f. induction cs as [|[n [e|mode|]] cs IH]; intros f; cbn; intros Hf; plant_cases;
    cbn; f_equal; auto.
Qed.

Lemma plant_wf sub dir cs f :
  plant sub dir cs = Some f → StronglySorted str_lt cs.*1 → Forall segment cs.*1 →
  (∀ n e, (n, Leaf e) ∈ cs → is_leaf e) → (∀ d b, sub d = Some b → wf b) → wf f.
Proof.
  revert f. induction cs as [|[n spec] cs IH]; intros f Hf Hs Hseg Hl Hsub; [by injection Hf as <-|].
  cbn in Hs, Hseg. apply StronglySorted_cons in Hs as [Hlt Hs]. apply Forall_cons in Hseg as [Hn Hseg].
  destruct spec as [e|mode|]; cbn in Hf; plant_cases; cbn;
    (erewrite plant_names by done); split_and!; try done; try (by eapply Hsub);
    try (eapply IH; [done..|intros ???; eapply Hl; by right|done]).
  eapply Hl. by left.
Qed.

(** Where a row of a planted directory comes from. *)
Definition row_from (sub : DirPath → option forest) (dir : DirPath) (l : list string) (n : string)
    (spec : ChildSpec) (p : WorkspacePath) (e : ManifestEntry) : Prop :=
  let within := ∃ b, sub (dir_child dir n) = Some b ∧ (p, e) ∈ flat (l ++ [n]) b in
  match spec with
  | Leaf e' => p = join (l ++ [n]) ∧ e = e'
  | ChildDirectory mode => (p = join (l ++ [n]) ∧ e = DirectoryEntry mode) ∨ within
  | ChildSubtree => within
  end.

Lemma plant_flat sub dir cs f l p e : plant sub dir cs = Some f →
  (p, e) ∈ flat l f ↔ ∃ n spec, (n, spec) ∈ cs ∧ row_from sub dir l n spec p e.
Proof.
  revert f. induction cs as [|[n spec] cs IH]; intros f Hf.
  { injection Hf as <-. cbn. split; [by intros ?%not_elem_of_nil|].
    by intros (n & spec & ?%not_elem_of_nil & _). }
  assert (∀ r, plant sub dir cs = Some r →
    (∃ n' spec', (n', spec') ∈ (n, spec) :: cs ∧ row_from sub dir l n' spec' p e) ↔
    row_from sub dir l n spec p e ∨ (p, e) ∈ flat l r) as Hcons.
  { intros r Hr. rewrite (IH r Hr). set_unfold. naive_solver. }
  destruct spec as [e'|mode|]; cbn in Hf; plant_cases; rewrite (Hcons _ ltac:(eassumption)); cbn;
    rewrite ?elem_of_cons, ?elem_of_app, ?elem_of_cons, ?not_elem_of_nil; naive_solver.
Qed.

Lemma forest_at_wf m nodes room l f : tree_of m nodes → Forall segment l →
  forest_at nodes room (join l) = Some f → wf f.
Proof.
  intros Ht. revert l f. induction room as [|room IH]; intros l f Hl; cbn; [done|].
  intros (children & Hc & Hp)%bind_Some. revert Hp.
  assert (∀ n spec, (n, spec) ∈ btree_iter children → segment n ∧ spec_at m (l ++ [n]) (Some spec)) as Hcs.
  { intros n spec Hin%elem_of_btree_iter. assert (segment n) as Hn by (eapply to_name; [done..|by eexists]).
    split; [done|]. pose proof (to_child m nodes Ht l n Hl Hn) as Hs. unfold child in Hs. rewrite Hc in Hs.
    cbn in Hs. by rewrite Hin in Hs. }
  intros Hp. eapply plant_wf; [exact Hp|apply btree_iter_sorted| | |].
  - apply Forall_forall. intros n ([n' spec] & -> & Hin)%list_elem_of_fmap. by eapply Hcs.
  - intros n e Hin. by apply Hcs in Hin as [_ [? _]].
  - intros d b Hd. destruct room as [|room]; [done|].
    assert (∃ l', Forall segment l' ∧ d = join l') as (l' & Hl' & ->).
    { cbn in Hd. apply bind_Some in Hd as (ch & Hch & _). eapply to_key; [done|by eexists]. }
    by eapply IH.
Qed.

(** The child of a directory that a tree of [m] lists. *)
Lemma tree_child m nodes l children n : tree_of m nodes → Forall segment l → segment n →
  nodes !! join l = Some children → spec_at m (l ++ [n]) (children !! n).
Proof.
  intros Ht Hl Hn Hc. pose proof (to_child m nodes Ht l n Hl Hn) as Hs. unfold child in Hs.
  by rewrite Hc in Hs.
Qed.

Lemma tree_name m nodes l children n spec : tree_of m nodes → nodes !! join l = Some children →
  (n, spec) ∈ btree_iter children → segment n.
Proof. intros Ht Hc Hin%elem_of_btree_iter. eapply to_name; [done..|by eexists]. Qed.

(** The rows of a decomposed directory are the manifest's rows below it. *)
Lemma forest_at_flat m nodes room l f l' e : tree_of m nodes → Forall segment l → Forall segment l' →
  forest_at nodes room (join l) = Some f →
  (join (l ++ l'), e) ∈ flat l f ↔ l' ≠ [] ∧ m !! join (l ++ l') = Some e.
Proof.
  intros Ht. revert l l' f. induction room as [|room IH]; intros l l' f Hl Hl' Hf; [done|].
  pose proof (forest_at_wf m nodes (Datatypes.S room) l f Ht Hl Hf) as Hwf.
  cbn in Hf. apply bind_Some in Hf as (children & Hc & Hp).
  rewrite (plant_flat _ _ _ _ l _ _ Hp). split.
  - intros (n & spec & Hin & Hfrom). pose proof (tree_name _ _ _ _ _ _ Ht Hc Hin) as Hn.
    pose proof (tree_child m nodes l children n Ht Hl Hn Hc) as Hs.
    rewrite (proj1 (elem_of_btree_iter _ _ _) Hin) in Hs.
    pose proof (segments_snoc l n Hl Hn) as Hln.
    assert (∀ b, forest_at nodes room (dir_child (join l) n) = Some b →
      (join (l ++ l'), e) ∈ flat (l ++ [n]) b → l' ≠ [] ∧ m !! join (l ++ l') = Some e) as Hdown.
    { intros b Hb Hin'. rewrite dir_child_join in Hb by done.
      pose proof (forest_at_wf m nodes room _ b Ht Hln Hb) as Hwb.
      destruct (flat_below _ _ _ _ Hwb Hin') as (n' & l'' & _ & Hs' & Heq).
      rewrite <-(assoc_L (++)) in Heq.
      apply segments_app_inj in Heq as ->; [|done..|by apply Forall_cons].
      rewrite (assoc_L (++)) in Hin' |- *. apply (IH (l ++ [n])) in Hin'; [|done..]. naive_solver. }
    destruct spec as [e'|mode|]; cbn in Hfrom, Hs.
    + destruct Hfrom as [Heq ->]. apply segments_app_inj in Heq as ->; [|done..|by apply Forall_singleton].
      naive_solver.
    + destruct Hfrom as [[Heq ->]|(b & Hb & Hin')]; [|by eapply Hdown].
      apply segments_app_inj in Heq as ->; [|done..|by apply Forall_singleton]. naive_solver.
    + destruct Hfrom as (b & Hb & Hin'). by eapply Hdown.
  - intros [Hne Hm]. destruct l' as [|n l']; [done|]. apply Forall_cons in Hl' as [Hn Hl'].
    pose proof (tree_child m nodes l children n Ht Hl Hn Hc) as Hs.
    pose proof (segments_snoc l n Hl Hn) as Hln.
    assert (l' ≠ [] → below m (l ++ [n])) as Hbelow.
    { intros Hne'. exists l'. split_and!; [done..|]. rewrite <-(assoc_L (++)). by eexists. }
    assert (∀ spec, (n, spec) ∈ btree_iter children → l' ≠ [] →
      (∀ e', spec ≠ Leaf e') →
      ∃ b, forest_at nodes room (dir_child (join l) n) = Some b ∧
           (join (l ++ n :: l'), e) ∈ flat (l ++ [n]) b) as Hdown.
    { intros spec Hin Hne' Hnl.
      assert (∃ b, forest_at nodes room (dir_child (join l) n) = Some b) as [b Hb].
      { clear -Hp Hin Hnl. revert f Hp. induction (btree_iter children) as [|[n' s'] cs IHc];
          intros f Hp; [by apply not_elem_of_nil in Hin|].
        apply elem_of_cons in Hin as [[= -> ->]|Hin].
        - destruct s' as [e'| |]; [by destruct (Hnl e')|..]; cbn in Hp; plant_cases; eauto.
        - destruct s'; cbn in Hp; plant_cases; eauto. }
      exists b. split; [done|]. rewrite dir_child_join in Hb by done.
      change (n :: l') with ([n] ++ l'). rewrite (assoc_L (++)).
      apply (IH (l ++ [n])); [done..|]. split; [done|]. by rewrite <-(assoc_L (++)). }
    destruct (children !! n) as [spec|] eqn:Hcn.
    + exists n, spec. assert ((n, spec) ∈ btree_iter children) as Hin by (by apply elem_of_btree_iter).
      split; [done|]. destruct spec as [e'|mode|]; cbn in Hs |- *.
      * destruct Hs as (_ & Hme & Hnb). destruct l' as [|n' l']; [by simplify_eq|]. destruct Hnb. by apply Hbelow.
      * destruct l' as [|n' l']; [left; by simplify_eq|]. right. by eapply Hdown.
      * destruct l' as [|n' l']; [naive_solver|]. by eapply Hdown.
    + exfalso. cbn in Hs. destruct l' as [|n' l']; [naive_solver|]. apply (proj2 Hs). by apply Hbelow.
Qed.

(** Every path of the manifest has at most [depth] components. *)
Definition depth_within (depth : nat) (m : gmap WorkspacePath ManifestEntry) : Prop :=
  ∀ l, Forall segment l → is_Some (m !! join l) → (length l ≤ depth)%nat.

Lemma forest_at_exists m nodes depth room l : tree_of m nodes → depth_within depth m →
  Forall segment l → is_Some (nodes !! join l) → (depth < room + length l)%nat →
  ∃ f, forest_at nodes room (join l) = Some f ∧ (Datatypes.S (height f) ≤ room)%nat.
Proof.
  intros Ht Hdepth. revert l. induction room as [|room IH]; intros l Hl Hd Hroom.
  { exfalso. apply (to_dir m nodes Ht l Hl) in Hd as [->|[[mode Hm]|(l' & Hne & Hs & Hm)]].
    - cbn in Hroom. lia.
    - pose proof (Hdepth l Hl (ltac:(by eexists))). lia.
    - pose proof (Hdepth (l ++ l') (ltac:(by apply Forall_app)) Hm) as Hlen. rewrite length_app in Hlen. lia. }
  cbn. destruct Hd as [children Hc]. rewrite Hc. cbn.
  assert (∀ n spec, (n, spec) ∈ btree_iter children → (∀ e, spec ≠ Leaf e) →
    ∃ b, forest_at nodes room (dir_child (join l) n) = Some b ∧ (Datatypes.S (height b) ≤ room)%nat) as Hsub.
  { intros n spec Hin Hnl. pose proof (tree_name _ _ _ _ _ _ Ht Hc Hin) as Hn.
    pose proof (tree_child m nodes l children n Ht Hl Hn Hc) as Hs.
    rewrite (proj1 (elem_of_btree_iter _ _ _) Hin) in Hs.
    pose proof (segments_snoc l n Hl Hn) as Hln. rewrite dir_child_join by done.
    apply IH; [done| |rewrite length_app; cbn; lia]. apply (to_dir m nodes Ht _ Hln). right.
    destruct spec as [e| |]; [by destruct (Hnl e)|left; by eexists|right; by destruct Hs]. }
  clear Hc. induction (btree_iter children) as [|[n spec] cs IHc]; [exists FNil; cbn; split; [done|lia]|].
  destruct IHc as (r & Hr & Hhr); [intros n' spec' Hin; apply (Hsub n' spec'); by right|].
  destruct spec as [e|mode|]; cbn; rewrite Hr.
  - by exists (FLeaf n e r).
  - destruct (Hsub n (ChildDirectory mode)) as (b & -> & Hb); [by left|done|].
    cbn. eexists. split; [done|]. cbn. lia.
  - destruct (Hsub n ChildSubtree) as (b & -> & Hb); [by left|done|].
    cbn. eexists. split; [done|]. cbn. lia.
Qed.

(** The whole manifest. *)
Lemma forest_rows m nodes room f : tree_of m nodes → forest_at nodes room "" = Some f → rows [] f = m.
Proof.
  intros Ht Hf. change "" with (join []) in Hf.
  pose proof (forest_at_wf m nodes room [] f Ht (Forall_nil_2 _) Hf) as Hwf.
  apply map_eq. intros p. apply option_eq. intros e. rewrite rows_lookup by done. split.
  - intros Hin. destruct (flat_below _ _ _ _ Hwf Hin) as (n & l' & _ & Hs & ->).
    by apply (forest_at_flat m nodes room [] f) in Hin as [_ ?].
  - intros Hm. destruct (to_path m nodes Ht p) as (l & Hne & Hs & ->); [by eexists|].
    by apply (forest_at_flat m nodes room [] f).
Qed.
