(* ===== verification/SubtreeHashes.v ===== *)
(** * Subtree hashes

    The text a directory is hashed over, as a function of the directory
    ([directory_text]); that [subtree_hashes] computes the hash of this text for every
    directory of a decomposed manifest and cannot fail on one; and that the text
    determines the directory: no field can forge a boundary. *)

From Stdlib Require Import Ascii.
From S2P Require Import Prelude.
From S2P Require Import ManifestTypes.
From S2P Require Import MergeMatrix.
From S2P Require Import Ordered.
From S2P Require Import Materialize.
From S2P Require Import Asides.
From S2P Require Import Paths.
From S2P Require Import Tree.
From S2P Require Import TreeTransport.
From S2P Require Import Forest.
From S2P Require Import Decompose.
Local Open Scope string_scope.
Open Scope Z_scope.

Lemma str_app_nil (s : string) : s +:+ "" = s.
Proof. induction s as [|c s IH]; [done|]. by rewrite str_app_cons, IH. Qed.

(** ** The hashed text *)

Definition leaf_text (entry : ManifestEntry) : bytes :=
  match entry with
  | FileEntry size mode content_id blob_key key_epoch =>
      byte 0 +:+ le_bytes 8 size +:+ le_bytes 8 mode +:+ write_bytes content_id
        +:+ write_bytes blob_key +:+ le_bytes 8 key_epoch
  | SymlinkEntry mode target => byte 1 +:+ le_bytes 8 mode +:+ write_bytes target
  | DirectoryEntry _ => ""
  end.

Definition dir_text (mode : option FileMode) (hash : SubtreeHash) : bytes :=
  match mode with
  | Some mode => byte 2 +:+ le_bytes 8 mode +:+ write_bytes hash
  | None => byte 3 +:+ write_bytes hash
  end.

Section Hash.
Context `{Blake3} (key_epoch : KeyEpoch).

Fixpoint children_text (f : forest) : bytes :=
  match f with
  | FNil => ""
  | FLeaf name entry rest => write_bytes name +:+ leaf_text entry +:+ children_text rest
  | FDir name mode _ below rest =>
      write_bytes name
        +:+ dir_text mode ("st_" +:+ blake3_hex (directory_header key_epoch (length (names below))
                                                   +:+ children_text below))
        +:+ children_text rest
  end.

Definition directory_text (f : forest) : bytes :=
  directory_header key_epoch (length (names f)) +:+ children_text f.

Definition forest_hash (f : forest) : SubtreeHash := "st_" +:+ blake3_hex (directory_text f).

Lemma children_text_shape f : children_text (shape f) = children_text f.
Proof.
  induction f as [|n e r IHr|n mode key b IHb r IHr]; cbn -[directory_header]; [done|by rewrite IHr|].
  by rewrite names_shape, IHb, IHr.
Qed.

Lemma forest_hash_shape f : forest_hash (shape f) = forest_hash f.
Proof. unfold forest_hash, directory_text. by rewrite names_shape, children_text_shape. Qed.

(** ** [subtree_hashes] computes it *)

(** The loop of [hash_directory] over the children. *)
Definition hash_step (dir : DirPath) (hashes : gmap DirPath SubtreeHash) (written : bytes)
    (named : string * ChildSpec) : Result bytes ManifestError :=
  let '(name, spec) := named in
  result_map (λ child, written +:+ write_bytes name +:+ child) (write_child dir name spec hashes).

Lemma hash_children_ok dir hashes sub cs f written :
  plant sub dir cs = Some f → (∀ n e, (n, Leaf e) ∈ cs → is_leaf e) →
  (∀ n spec b, (n, spec) ∈ cs → sub (dir_child dir n) = Some b →
     (∀ e, spec ≠ Leaf e) → hashes !! dir_child dir n = Some (forest_hash b)) →
  try_fold (hash_step dir hashes) written cs = Ok (written +:+ children_text f).
Proof.
  revert f written. induction cs as [|[n spec] cs IH]; intros f written Hf Hleaf Hsub.
  { injection Hf as <-. cbn. f_equal. by rewrite str_app_nil. }
  assert (∀ r w, plant sub dir cs = Some r →
    try_fold (hash_step dir hashes) w cs = Ok (w +:+ children_text r)) as Hrest.
  { intros r w Hr. apply IH; [done|intros n' e' Hin; eapply Hleaf; by right|].
    intros n' s' b Hin. eapply Hsub. by right. }
  destruct spec as [e|mode|]; cbn in Hf; plant_cases; cbn [try_fold hash_step].
  - assert (is_leaf e) as Hl by (eapply Hleaf; by left).
    assert (write_child dir n (Leaf e) hashes = Ok (leaf_text e)) as -> by (by destruct e).
    cbn [result_map result_bind]. rewrite (Hrest _ _ ltac:(eassumption)). cbn [children_text].
    by rewrite !str_app_assoc.
  - cbn [write_child]. unfold child_hash.
    erewrite Hsub; [|by left|done|done]. cbn [result_map result_bind result_ok_or].
    rewrite (Hrest _ _ ltac:(eassumption)). cbn [children_text dir_text].
    unfold forest_hash, directory_text. by rewrite !str_app_assoc.
  - cbn [write_child]. unfold child_hash.
    erewrite Hsub; [|by left|done|done]. cbn [result_map result_bind result_ok_or].
    rewrite (Hrest _ _ ltac:(eassumption)). cbn [children_text dir_text].
    unfold forest_hash, directory_text. by rewrite !str_app_assoc.
Qed.

Lemma hash_directory_ok m nodes room l children f hashes :
  tree_of m nodes → Forall segment l → nodes !! join l = Some children →
  forest_at nodes (Datatypes.S room) (join l) = Some f →
  (∀ n b, (∃ spec, (n, spec) ∈ btree_iter children ∧ ∀ e, spec ≠ Leaf e) →
     forest_at nodes room (dir_child (join l) n) = Some b →
     hashes !! dir_child (join l) n = Some (forest_hash b)) →
  hash_directory (join l) children key_epoch hashes = Ok (forest_hash f).
Proof.
  intros Ht Hl Hc Hf Hsub. cbn in Hf. rewrite Hc in Hf. cbn in Hf. unfold hash_directory.
  change (λ (written : bytes) '(name, spec), _) with (hash_step (join l) hashes).
  rewrite (hash_children_ok _ _ _ _ _ _ Hf).
  - cbn [result_bind]. unfold forest_hash, directory_text.
    by rewrite (plant_names _ _ _ _ Hf), length_fmap, btree_iter_length.
  - intros n e Hin. pose proof (tree_name _ _ _ _ _ _ Ht Hc Hin) as Hn.
    pose proof (tree_child m nodes l children n Ht Hl Hn Hc) as Hs.
    rewrite (proj1 (elem_of_btree_iter _ _ _) Hin) in Hs. by destruct Hs.
  - intros n spec b Hin Hb Hnl. apply Hsub; [by exists spec|done].
Qed.

Lemma try_fold_app {A B E} (f : B → A → Result B E) acc l1 l2 :
  try_fold f acc (l1 ++ l2)%list = result_bind (try_fold f acc l1) (λ acc, try_fold f acc l2).
Proof.
  revert acc. induction l1 as [|a l1 IH]; intros acc; cbn; [done|].
  destruct (f acc a); cbn; [apply IH|done].
Qed.

Lemma dir_child_after l n : Forall segment l → segment n → str_lt (join l) (dir_child (join l) n).
Proof.
  intros Hl [_ Hn]. unfold dir_child. destruct (String.eqb_spec (join l) "") as [->|Hne].
  - by destruct n.
  - by apply str_lt_app.
Qed.

(** What the pass has computed once it has visited the directories [L]. *)
Definition hashed (nodes : DirectoryTree) (L : list DirPath) (hashes : gmap DirPath SubtreeHash) : Prop :=
  (∀ l room f, Forall segment l → join l ∈ L → forest_at nodes room (join l) = Some f →
     hashes !! join l = Some (forest_hash f)) ∧
  (∀ d, is_Some (hashes !! d) → d ∈ L).

(** A child directory is visited before its parent. *)
Lemma child_visited (nodes : DirectoryTree) L0 d children L c :
  btree_iter nodes = (L0 ++ (d, children) :: L)%list → str_lt d c → is_Some (nodes !! c) → c ∈ L.*1.
Proof.
  intros Hsplit Hlt [cc Hc%elem_of_btree_iter]. rewrite Hsplit in Hc.
  pose proof (btree_iter_sorted nodes) as Hs. rewrite Hsplit, fmap_app in Hs. cbn in Hs.
  apply elem_of_app in Hc as [Hc|[[= -> _]|Hc]%elem_of_cons].
  - exfalso. apply StronglySorted_app in Hs as (Hs & _ & _).
    apply (irreflexivity str_lt c). etrans; [|exact Hlt]. apply Hs; [|by left].
    apply list_elem_of_fmap. by exists (c, cc).
  - by destruct (irreflexivity str_lt d).
  - apply list_elem_of_fmap. by exists (c, cc).
Qed.

Lemma subtree_hashes_ok m nodes depth : tree_of m nodes → depth_within depth m →
  ∃ hashes, subtree_hashes nodes key_epoch = Ok hashes ∧ hashed nodes (btree_iter nodes).*1 hashes.
Proof.
  intros Ht Hdepth. unfold subtree_hashes. set (step := λ hashes '(dir, children), _).
  assert (∀ L, (∃ L0, btree_iter nodes = (L0 ++ L)%list) →
    ∃ hashes, try_fold step ∅ (reverse L) = Ok hashes ∧ hashed nodes L.*1 hashes) as Hgo.
  2:{ apply Hgo. by exists []. }
  induction L as [|[d children] L IH]; intros [L0 HL0].
  { exists ∅. split; [done|]. split; [by intros l room f _ ?%not_elem_of_nil|].
    intros d Hd. rewrite lookup_empty in Hd. by destruct Hd. }
  destruct IH as (hashes & Hfold & Hh & Hdom); [exists (L0 ++ [(d, children)])%list; by rewrite HL0, <-(assoc_L (++))|].
  assert (nodes !! d = Some children) as Hc.
  { apply elem_of_btree_iter. rewrite HL0. apply elem_of_app. right. by left. }
  destruct (to_key m nodes Ht d) as (l & Hl & ->); [by eexists|].
  destruct (forest_at_exists m nodes depth (Datatypes.S depth) l) as (f & Hf & _); [done..|by eexists|lia|].
  assert (∀ room f, forest_at nodes (Datatypes.S room) (join l) = Some f →
    hash_directory (join l) children key_epoch hashes = Ok (forest_hash f)) as Hall.
  { intros room f' Hf'. eapply hash_directory_ok; [done..|].
    intros n b (spec & Hin & _) Hb. pose proof (tree_name _ _ _ _ _ _ Ht Hc Hin) as Hn.
    pose proof (segments_snoc l n Hl Hn). rewrite dir_child_join in Hb |- * by done.
    eapply Hh; [done| |exact Hb]. rewrite <-dir_child_join by done.
    apply (child_visited nodes L0 (join l) children L); [done|by apply dir_child_after|].
    rewrite dir_child_join by done. destruct room; [done|]. cbn in Hb.
    apply bind_Some in Hb as (ch & Hch & _). by eexists. }
  exists (<[join l := forest_hash f]> hashes). split.
  - rewrite reverse_cons, try_fold_app, Hfold. cbn. by rewrite (Hall _ _ Hf).
  - split.
    + intros l' room f' Hl' Hin Hf'. destruct (decide (join l' = join l)) as [He|Hne].
      * rewrite He, lookup_insert_eq in *. destruct room as [|room]; [done|].
        pose proof (Hall _ _ Hf') as H1'. rewrite (Hall _ _ Hf) in H1'. congruence.
      * rewrite lookup_insert_ne by done. apply elem_of_cons in Hin as [?|Hin]; [done|].
        by eapply Hh.
    + intros d. destruct (decide (d = join l)) as [->|Hne]; [by left|].
      rewrite lookup_insert_ne by done. intros Hd%Hdom. by right.
Qed.

End Hash.

(** ** The text determines the directory *)

Lemma str_app_cut (a b s t : string) : String.length a = String.length b →
  a +:+ s = b +:+ t → a = b ∧ s = t.
Proof.
  revert b. induction a as [|c a IH]; intros [|d b]; cbn; try done. intros [= Hl].
  rewrite !str_app_cons. intros [= -> He]. by destruct (IH b Hl He) as [-> ->].
Qed.

Lemma le_bytes_length n z : String.length (le_bytes n z) = n.
Proof. revert z. induction n as [|n IH]; intros z; cbn; [done|by rewrite IH]. Qed.

Lemma le_bytes_inj n a b : 0 ≤ a < 256 ^ Z.of_nat n → 0 ≤ b < 256 ^ Z.of_nat n →
  le_bytes n a = le_bytes n b → a = b.
Proof.
  revert a b. induction n as [|n IH]; intros a b Ha Hb; [cbn in *; lia|].
  cbn [le_bytes]. intros [= Hd Hr].
  assert (∀ z, N_of_ascii (ascii_of_N (Z.to_N (z mod 256))) = Z.to_N (z mod 256)) as Hbyte.
  { intros z. apply N_ascii_embedding. pose proof (Z.mod_pos_bound z 256). lia. }
  apply (f_equal N_of_ascii) in Hd. rewrite !Hbyte in Hd.
  rewrite Nat2Z.inj_succ, Z.pow_succ_r in Ha, Hb by lia.
  assert (a / 256 = b / 256) as Hq.
  { apply IH; [split; [apply Z.div_pos; lia|apply Z.div_lt_upper_bound; lia]..|done]. }
  pose proof (Z.mod_pos_bound a 256). pose proof (Z.mod_pos_bound b 256).
  rewrite (Z.div_mod a 256), (Z.div_mod b 256), Hq by lia. lia.
Qed.

Lemma le_cut a b s t : is_u64 a → is_u64 b →
  le_bytes 8 a +:+ s = le_bytes 8 b +:+ t → a = b ∧ s = t.
Proof.
  unfold is_u64, u64_max. intros Ha Hb He. apply str_app_cut in He as [He ->]; [|by rewrite !le_bytes_length].
  split; [|done]. apply (le_bytes_inj 8); [cbn; lia..|done].
Qed.

(** A text whose length fits its prefix. *)
Definition short (s : string) : Prop := str_len s ≤ u64_max.

Lemma short_u64 s : short s → is_u64 (str_len s).
Proof. unfold short, is_u64, str_len. lia. Qed.

Lemma write_cut a b s t : short a → short b →
  write_bytes a +:+ s = write_bytes b +:+ t → a = b ∧ s = t.
Proof.
  unfold write_bytes. rewrite !str_app_assoc. intros Ha%short_u64 Hb%short_u64 [Hl He]%le_cut; [|done..].
  apply str_app_cut in He; [done|]. unfold str_len in Hl. lia.
Qed.

(** Values within their Rust types. *)
Definition entry_typed (e : ManifestEntry) : Prop :=
  match e with
  | FileEntry size mode content_id blob_key key_epoch =>
      is_u64 size ∧ is_u64 mode ∧ short content_id ∧ short blob_key ∧ is_u64 key_epoch
  | DirectoryEntry mode => is_u64 mode
  | SymlinkEntry mode target => is_u64 mode ∧ short target
  end.

Fixpoint typed (f : forest) : Prop :=
  match f with
  | FNil => True
  | FLeaf name entry rest => short name ∧ is_leaf entry ∧ entry_typed entry ∧ typed rest
  | FDir name mode _ below rest =>
      short name ∧ is_u64 (default 0 mode) ∧ is_u64 (Z.of_nat (length (names below))) ∧
      typed below ∧ typed rest
  end.

Ltac cut_text :=
  repeat first
    [ progress rewrite ?str_app_assoc in *
    | match goal with
      | H : le_bytes 8 _ +:+ _ = le_bytes 8 _ +:+ _ |- _ => apply le_cut in H as [? H]; [|done..]; subst
      | H : write_bytes _ +:+ _ = write_bytes _ +:+ _ |- _ => apply write_cut in H as [? H]; [|done..]; subst
      | H : byte ?m +:+ _ = byte ?m +:+ _ |- _ => apply str_app_cut in H as [_ H]; [|done]
      end ].

Lemma leaf_cut e e' s t : is_leaf e → is_leaf e' → entry_typed e → entry_typed e' →
  leaf_text e +:+ s = leaf_text e' +:+ t → e = e' ∧ s = t.
Proof.
  destruct e, e'; cbn [leaf_text entry_typed]; try (by intros []); try (by intros _ []);
    intros _ _ T1 T2 He; destruct_and?; try (by rewrite !str_app_assoc in He; discriminate He);
    cut_text; done.
Qed.

Lemma leaf_dir_differ e mode hash s t : is_leaf e →
  leaf_text e +:+ s = dir_text mode hash +:+ t → False.
Proof.
  destruct e, mode; cbn [leaf_text dir_text]; try (by intros []); intros _ He;
    rewrite !str_app_assoc in He; discriminate He.
Qed.

Lemma dir_cut mode mode' hash hash' s t : is_u64 (default 0 mode) → is_u64 (default 0 mode') →
  short hash → short hash' →
  dir_text mode hash +:+ s = dir_text mode' hash' +:+ t → mode = mode' ∧ hash = hash' ∧ s = t.
Proof.
  destruct mode, mode'; cbn [dir_text default]; intros H1 H2 H3 H4 He;
    try (by rewrite !str_app_assoc in He; discriminate He); unfold id in *; cut_text; done.
Qed.

(** The directories below a directory. *)
Fixpoint subdirs (f : forest) : list forest :=
  match f with
  | FNil => []
  | FLeaf _ _ rest => subdirs rest
  | FDir _ _ _ below rest => (below :: subdirs below ++ subdirs rest)%list
  end.

Section Injective.
Context `{Blake3} (key_epoch : KeyEpoch).

(** No two of the directories [U] have colliding texts. *)
Definition collision_free (U : forest → Prop) : Prop :=
  ∀ f g, U f → U g →
    blake3_hex (directory_text key_epoch f) = blake3_hex (directory_text key_epoch g) →
    directory_text key_epoch f = directory_text key_epoch g.

(** The digest in hexadecimal. *)
Definition digests : Prop := ∀ content, String.length (blake3_hex content) = 64%nat.

Context (U : forest → Prop).
Hypothesis hex_digests : digests.
Hypothesis free : collision_free U.

Lemma hash_short f : short (forest_hash key_epoch f).
Proof. unfold short, forest_hash, str_len. rewrite str_length_app, hex_digests. vm_compute. done. Qed.

Lemma forest_hash_text f g : U f → U g →
  forest_hash key_epoch f = forest_hash key_epoch g →
  directory_text key_epoch f = directory_text key_epoch g.
Proof. intros Hf Hg He. apply free; [done..|]. by apply str_app_cut in He as [_ ?]. Qed.

Lemma directory_text_cut f g :
  is_u64 (Z.of_nat (length (names f))) → is_u64 (Z.of_nat (length (names g))) →
  directory_text key_epoch f = directory_text key_epoch g →
  length (names f) = length (names g) ∧ children_text key_epoch f = children_text key_epoch g.
Proof.
  unfold directory_text, directory_header. rewrite !str_app_assoc. intros Hf Hg He.
  do 3 (apply str_app_cut in He as [_ He]; [|done]).
  apply le_cut in He as [Hn He]; [|done..]. split; [lia|done].
Qed.

Lemma children_text_inj f : ∀ g s t, typed f → typed g → Forall U (subdirs f) → Forall U (subdirs g) →
  length (names f) = length (names g) →
  children_text key_epoch f +:+ s = children_text key_epoch g +:+ t → shape f = shape g ∧ s = t.
Proof.
  induction f as [|n e r IHr|n mode key b IHb r IHr]; intros [|n' e' r'|n' mode' key' b' r'] s t;
    cbn [names length children_text]; try done; cbn [typed subdirs];
    intros Tf Tg Uf Ug Hlen He; try done; rewrite !str_app_assoc in He; destruct_and?.
  - apply write_cut in He as [-> He]; [|done..]. apply leaf_cut in He as [-> He]; [|done..].
    destruct (IHr r' s t) as [Hs ->]; [done..|lia|done|]. cbn. by rewrite Hs.
  - apply write_cut in He as [-> He]; [|done..]. by apply leaf_dir_differ in He.
  - apply write_cut in He as [-> He]; [|done..]. symmetry in He. by apply leaf_dir_differ in He.
  - apply Forall_cons in Uf as [Ub [Ubs Urs]%Forall_app].
    apply Forall_cons in Ug as [Ub' [Ubs' Urs']%Forall_app].
    fold (directory_text key_epoch b) (directory_text key_epoch b') in He.
    fold (forest_hash key_epoch b) (forest_hash key_epoch b') in He.
    apply write_cut in He as [-> He]; [|done..].
    apply dir_cut in He as (-> & Hh & He); [|done|done|apply hash_short..].
    apply forest_hash_text in Hh; [|done..]. apply directory_text_cut in Hh as [Hlb Hcb]; [|done..].
    destruct (IHb b' "" "") as [Hsb _]; [done..|by rewrite Hcb|].
    destruct (IHr r' s t) as [Hs ->]; [done..|lia|done|]. cbn. by rewrite Hs, Hsb.
Qed.

Lemma forest_hash_inj f g : typed f → typed g → U f → U g →
  Forall U (subdirs f) → Forall U (subdirs g) →
  is_u64 (Z.of_nat (length (names f))) → is_u64 (Z.of_nat (length (names g))) →
  forest_hash key_epoch f = forest_hash key_epoch g → shape f = shape g.
Proof.
  intros Tf Tg Uf Ug Usf Usg Lf Lg Hh%forest_hash_text; [|done..].
  apply directory_text_cut in Hh as [Hl Hc]; [|done..].
  by destruct (children_text_inj f g "" "") as [? _]; rewrite ?Hc.
Qed.

End Injective.
