(* ===== verification/PublishLemmas.v ===== *)
(** * Publishing

    What a publish leaves in the object store: the key it returns carries the
    directory it was asked to publish, whatever the ledger let it skip, and the rows
    it adds to the ledger are as sound as the rows it was given. *)

From S2P Require Import Prelude.
From S2P Require Import ManifestTypes.
From S2P Require Import MergeMatrix.
From S2P Require Import Ordered.
From S2P Require Import Materialize.
From S2P Require Import DiskLemmas.
From S2P Require Import Store.
From S2P Require Import Paths.
From S2P Require Import Tree.
From S2P Require Import TreeTransport.
From S2P Require Import Forest.
From S2P Require Import Decompose.
From S2P Require Import SubtreeHashes.
From S2P Require Import FetchTheorems.
Local Open Scope string_scope.
Open Scope Z_scope.

(** ** Opening what was sealed *)

Lemma elem_of_epochs_descending crypto epoch key :
  (epoch, key) ∈ epochs_descending crypto ↔ cr_keys crypto !! epoch = Some key.
Proof.
  unfold epochs_descending. rewrite list_elem_of_omap. split.
  - intros (e & _ & He). destruct (cr_keys crypto !! e) eqn:E; naive_solver.
  - intros He. exists epoch. rewrite elem_of_reverse, merge_sort_Permutation, elem_of_elements, elem_of_dom, He.
    naive_solver.
Qed.

Section Sealed.
Context `{Sealing} `{Envelope} `{!EnvelopeLaws}.

Lemma open_at_epochs_ok (epochs : list (KeyEpoch * string)) write_epoch plaintext key epoch sealed limits last :
  seal plaintext key (tree_node_context epoch ENVELOPE_FORMAT_VERSION) = Ok sealed →
  (∀ key', (epoch, key') ∈ epochs → key' = key) → (epoch, key) ∈ epochs →
  str_len plaintext ≤ max_decoded_bytes limits →
  open_at_epochs epochs write_epoch sealed limits last = Ok (plaintext, epoch).
Proof.
  intros Hseal Hfun Hin Hlen. revert last. induction epochs as [|[e k] epochs IH]; intros last.
  { by apply not_elem_of_nil in Hin. }
  cbn [open_at_epochs]. destruct (decide (e = epoch)) as [->|Hne].
  - assert (k = key) as -> by (apply Hfun; by left).
    rewrite (open_sealed _ _ _ _ _ Hseal). by destruct (Z.ltb_spec (max_decoded_bytes limits) (str_len plaintext)); [lia|].
  - rewrite (open_other _ _ _ _ _ _ _ Hseal) by (intros [= _ He]; done).
    apply IH; [intros k' Hk'; apply Hfun; by right|]. apply elem_of_cons in Hin as [[= <- <-]|Hin]; done.
Qed.

Lemma open_tree_node_ok crypto plaintext key sealed limits :
  cr_keys crypto !! cr_write_epoch crypto = Some key →
  seal plaintext key (tree_node_context (cr_write_epoch crypto) ENVELOPE_FORMAT_VERSION) = Ok sealed →
  str_len sealed ≤ max_sealed_bytes limits → str_len plaintext ≤ max_decoded_bytes limits →
  open_tree_node crypto sealed limits = Ok (plaintext, cr_write_epoch crypto).
Proof.
  intros Hkey Hseal Hs Hp. unfold open_tree_node.
  destruct (Z.ltb_spec (max_sealed_bytes limits) (str_len sealed)); [lia|].
  eapply open_at_epochs_ok; [done| |by apply elem_of_epochs_descending|done].
  intros k' Hk'%elem_of_epochs_descending. congruence.
Qed.

End Sealed.

(** ** The decoder accepts the nodes of an ordinary directory *)

Definition decodable (limits : DecodeLimits) (f : forest) : Prop :=
  validate_entries limits None (entries_of f) = Ok tt ∧
  Z.of_nat (length (names f)) ≤ max_node_entries limits.

Lemma validate_entries_shape limits f previous :
  validate_entries limits previous (entries_of (shape f)) = validate_entries limits previous (entries_of f).
Proof.
  revert previous. induction f as [|n e r IHr|n mode key b _ r IHr]; intros previous;
    cbn [shape entries_of validate_entries te_name te_payload leaf_entry]; [done|by rewrite IHr|].
  assert (∀ k, validate_payload (dir_payload mode k) limits = Ok tt) as Hp by (by destruct mode).
  by rewrite !Hp, IHr.
Qed.

Lemma decodable_shape limits f : decodable limits (shape f) ↔ decodable limits f.
Proof. unfold decodable. by rewrite validate_entries_shape, names_shape. Qed.

Lemma decodable_of_shape limits f g : shape f = shape g → decodable limits f ↔ decodable limits g.
Proof. intros He. by rewrite <-(decodable_shape _ f), <-(decodable_shape _ g), He. Qed.

Lemma length_entries_of f : length (entries_of f) = length (names f).
Proof. induction f; cbn; congruence. Qed.

(** ** Ledgers *)

(** The rows of a ledger, as the operations of the trait present them. *)
Class LedgerRows (L : Type) `{TreeNodeLedger L} := {
  row : L → SubtreeHash → ManifestKey → Prop;
  known_row hash ledger key ledger' :
    known hash ledger = (Ok (Some key), ledger') → row ledger hash key;
  known_rows hash ledger r ledger' hash' key' :
    known hash ledger = (r, ledger') → row ledger' hash' key' → row ledger hash' key';
  known_error hash ledger e ledger' :
    known hash ledger = (Err e, ledger') → ∃ error, e = TreeStore error;
  record_row hash key ledger hash' key' :
    row (record hash key ledger) hash' key' → (hash' = hash ∧ key' = key) ∨ row ledger hash' key';
}.

#[export, refine] Instance unledgered_rows : LedgerRows UnledgeredNodes := {| row _ _ _ := False |}.
Proof. all: unfold known, record, unledgered_lookup, unledgered_ledger; by intros; simplify_eq. Defined.

Lemma tree_node_run hash epoch store r store' :
  tree_node hash epoch store = (r, store') →
  ms_tree_nodes store' = ms_tree_nodes store ∧
  (∀ key, r = Ok (Some key) → ms_tree_nodes store !! hash = Some (key, epoch)).
Proof.
  unfold tree_node, statement. rewrite bind_run. cbn. destruct (ms_faults store) as [|[] faults]; cbn.
  2:{ by intros [= <- <-]. }
  all: intros [= <- <-]; split; [done|]; intros key; destruct (ms_tree_nodes store !! hash) as [[k e]|]; cbn;
    [|done]; destruct (Z.eqb_spec e epoch) as [->|]; naive_solver.
Qed.

#[export, refine] Instance store_rows : LedgerRows StoreNodeLedger :=
  {| row l hash key :=
       sl_fresh l !! hash = Some key ∨ ms_tree_nodes (sl_store l) !! hash = Some (key, sl_key_epoch l) |}.
Proof.
  all: unfold known, record, store_lookup, store_ledger, store_known.
  - intros hash l key l'. destruct (sl_fresh l !! hash) eqn:E; [intros; left; congruence|].
    destruct (tree_node hash _ _) as [[r|] st] eqn:Ht; [|done]. intros [= -> <-].
    right. by apply tree_node_run in Ht as [_ Ht]; apply Ht.
  - intros hash l r l' hash' key'. destruct (sl_fresh l !! hash) eqn:E; [by intros [= _ <-]|].
    destruct (tree_node hash _ _) as [[r'|] st] eqn:Ht; intros [= _ <-]; cbn;
      apply tree_node_run in Ht as [Ht _]; by rewrite Ht.
  - intros hash l e l'. destruct (sl_fresh l !! hash); [done|].
    destruct (tree_node hash _ _) as [[]]; [done|]. intros [= <- _]. by eexists.
  - intros hash key l hash' key'. cbn. destruct (decide (hash' = hash)) as [->|Hne].
    + rewrite lookup_insert_eq. naive_solver.
    + rewrite lookup_insert_ne by done. naive_solver.
Defined.

(** ** The walk of the publisher *)

Section Publish.
Context {Obj L : Type} `{Blake3} `{NodeCodec} `{!NodeCodecLaws} `{Sealing} `{Envelope} `{!EnvelopeLaws}.
Context `{RemoteObjects Obj} `{!RemoteObjectsLaws Obj} `{TreeNodeLedger L} `{!LedgerRows L}.
Context (crypto : WorkspaceCrypto) (limits : DecodeLimits).

Local Abbreviation epoch := (cr_write_epoch crypto).
Local Abbreviation opens_in objects := (opens objects crypto limits).

(** A set of directories, closed downwards, that the limits admit and whose hashed
    texts do not collide. *)
Record universe (U : forest → Prop) : Prop := {
  un_typed s : U s → typed s;
  un_names s : U s → is_u64 (Z.of_nat (length (names s)));
  un_sub s : U s → Forall U (subdirs s);
  un_decodable s : U s → decodable limits s;
  un_free : collision_free epoch U;
}.

Context (U : forest → Prop) (HU : universe U).

(** Every row of the ledger names an object that carries the directory of its hash. *)
Definition sound (objects : Obj) (ledger : L) : Prop :=
  ∀ hash key, row ledger hash key → ∀ s, U s → forest_hash epoch s = hash →
    ∃ f, shape f = shape s ∧ carries (opens_in objects) key f.

(** A node sealed for upload. *)
Definition made (uploads : list ManifestBatchUpload) (key : ManifestKey) (node : TreeNode) : Prop :=
  ∃ upload plaintext storage_key,
    upload ∈ uploads ∧ mu_key upload = key ∧ physical_manifest_key (mu_sealed upload) = key ∧
    cr_keys crypto !! epoch = Some storage_key ∧ to_allocvec node = Some plaintext ∧
    seal plaintext storage_key (tree_node_context epoch ENVELOPE_FORMAT_VERSION) = Ok (mu_sealed upload) ∧
    tn_format_version node = TREE_FORMAT_VERSION ∧ tn_key_epoch node = epoch ∧
    validate_entries limits None (tn_entries node) = Ok tt ∧
    Z.of_nat (length (tn_entries node)) ≤ max_node_entries limits.

Definition available (p : NodePublisher Obj L) (key : ManifestKey) (node : TreeNode) : Prop :=
  opens_in (np_objects p) key node ∨ made (np_pending_uploads p) key node.

(** The key is that of an available directory of the shape of [s]. *)
Definition delivers (p : NodePublisher Obj L) (key : ManifestKey) (s : forest) : Prop :=
  ∃ f, shape f = shape s ∧ carries (available p) key f.

Definition grows (p p' : NodePublisher Obj L) : Prop :=
  np_objects p' = np_objects p ∧
  (∀ upload, upload ∈ np_pending_uploads p → upload ∈ np_pending_uploads p') ∧
  (∀ hash key, row (np_ledger p') hash key → row (np_ledger p) hash key).

(** The rows waiting for the upload. *)
Definition promised (p : NodePublisher Obj L) : Prop :=
  ∀ hash key, (hash, key) ∈ np_pending_ledger p → ∃ s, U s ∧ forest_hash epoch s = hash ∧ delivers p key s.

(** Errors that come from the environment: the store, the encoder, the envelope. *)
Definition environmental (e : TreeError) : Prop :=
  match e with
  | TreeStore _ | TreeManifest (Serialization _) | TreeManifest (EnvelopeFailed _) => True
  | _ => False
  end.

Lemma grows_refl p : grows p p.
Proof. done. Qed.

Lemma grows_trans p1 p2 p3 : grows p1 p2 → grows p2 p3 → grows p1 p3.
Proof. intros (E1 & E2 & E3) (F1 & F2 & F3). split_and!; [congruence|auto..]. Qed.

Lemma available_mono p p' key node : grows p p' → available p key node → available p' key node.
Proof.
  intros (Ho & Hu & _) [Hop|(u & pt & k & Hin & Hrest)]; [left; by rewrite Ho|].
  right. exists u, pt, k. split; [by apply Hu|done].
Qed.

Lemma backed_grows p p' f : grows p p' → backed (available p) f → backed (available p') f.
Proof. intros Hg. apply backed_mono. intros. by eapply available_mono. Qed.

Lemma delivers_mono p p' key s : grows p p' → delivers p key s → delivers p' key s.
Proof.
  intros Hg (f & Hf & Hc). exists f. split; [done|]. eapply carries_mono; [|done].
  intros. by eapply available_mono.
Qed.

Lemma sound_grows p p' : grows p p' → sound (np_objects p) (np_ledger p) → sound (np_objects p') (np_ledger p').
Proof. intros (-> & _ & Hr) Hs hash key Hrow. by apply Hs, Hr. Qed.

Lemma promised_grows p p' : grows p p' → np_pending_ledger p' = np_pending_ledger p → promised p → promised p'.
Proof.
  intros Hg He Hp hash key. rewrite He. intros (s & HUs & Hh & Hd)%Hp. exists s.
  split_and!; [done..|by eapply delivers_mono].
Qed.

(** The state a step of the publisher may leave. *)
Definition steps (p p' : NodePublisher Obj L) : Prop :=
  grows p p' ∧ (promised p → promised p').

Lemma steps_trans p1 p2 p3 : steps p1 p2 → steps p2 p3 → steps p1 p3.
Proof. intros [? ?] [? ?]. split; [by eapply grows_trans|auto]. Qed.

Hypothesis held : is_Some (cr_keys crypto !! epoch).

Lemma seal_node_spec f p :
  decodable limits f → backed (available p) f →
  wp (seal_node crypto epoch (tree_node_new epoch (entries_of f))) (λ r p',
    steps p p' ∧
    match r with Ok key => carries (available p') key f | Err e => environmental e end) p.
Proof.
  intros [Hv Hn] Hb. destruct held as [k Hk]. unfold seal_node, to_canonical_bytes, sealed_upload, wp.
  unfold tree_node_content_id, seal_tree_node, manifest_result, result_ok_or. do 2 unfold_M.
  rewrite Hk. destruct (to_allocvec _) as [plaintext|] eqn:Hpt; cbn; [|done].
  destruct (seal plaintext k _) as [sealed|error] eqn:Hs; cbn; [|done].
  set (upload := {| mu_key := _ |}). set (p' := p <| np_pending_uploads := _ |>).
  assert (grows p p') as Hg by (split_and!; [done| |done]; intros u Hu; apply elem_of_app; by left).
  split; [split; [done|by apply promised_grows]|]. split.
  - exists (tree_node_new epoch (entries_of f)). split; [|done]. right. exists upload, plaintext, k.
    split_and!; try done; [apply elem_of_app; right; by left|]. cbn. by rewrite length_entries_of.
  - by eapply backed_grows.
Qed.

Context (tree : DirectoryTree) (hashes : gmap DirPath SubtreeHash).
Hypothesis hashes_ok : ∀ l room f, Forall segment l →
  forest_at tree room (join l) = Some f → hashes !! join l = Some (forest_hash epoch f).

(** What the publication of the directory [s] must do. *)
Definition publishes (go : DirPath → M (NodePublisher Obj L) TreeError ManifestKey) (d : DirPath) (s : forest) : Prop :=
  ∀ p, sound (np_objects p) (np_ledger p) →
    wp (go d) (λ r p', steps p p' ∧
      match r with Ok key => delivers p' key s | Err e => environmental e end) p.

Lemma build_children_spec go sub l cs s :
  Forall segment l → plant sub (join l) cs = Some s → (∀ n e, (n, Leaf e) ∈ cs → is_leaf e) →
  (∀ n spec b, (n, spec) ∈ cs → (∀ e, spec ≠ Leaf e) → sub (dir_child (join l) n) = Some b →
     publishes go (dir_child (join l) n) b) →
  ∀ p, sound (np_objects p) (np_ledger p) →
  wp (mapM (λ '(name, spec),
        payload ← build_payload go (join l) name spec;
        mret {| te_name := name; te_payload := payload |}) cs) (λ r p',
    steps p p' ∧
    match r with
    | Ok es => ∃ f, shape f = shape s ∧ entries_of f = es ∧ backed (available p') f
    | Err e => environmental e
    end) p.
Proof.
  intros Hl. revert s. induction cs as [|[n spec] cs IH]; intros s Hs Hleaf Hsub p Hsound.
  { injection Hs as <-. split; [by split|]. by exists FNil. }
  cbn [mapM]. apply wp_bind.
  assert (∀ r, plant sub (join l) cs = Some r → ∀ p, sound (np_objects p) (np_ledger p) →
    wp (mapM (λ '(name, spec), payload ← build_payload go (join l) name spec;
          mret {| te_name := name; te_payload := payload |}) cs) (λ r' p',
      steps p p' ∧ match r' with
                   | Ok es => ∃ f, shape f = shape r ∧ entries_of f = es ∧ backed (available p') f
                   | Err e => environmental e
                   end) p) as Hrest.
  { intros r Hr. apply (IH r Hr); [intros n' e Hin; eapply Hleaf; by right|].
    intros n' s' b Hin. apply (Hsub n' s'); by right. }
  clear IH. destruct spec as [e|mode|]; cbn in Hs; plant_cases.
  - assert (is_leaf e) as Hle by (eapply Hleaf; by left). cbn [build_payload].
    rewrite (leaf_payload_leaf n) by done. unfold wp at 1. cbn. apply wp_bind.
    eapply wp_conseq; [by apply Hrest|]. intros [es|err] p' [Hst Hes]; [|done].
    split; [done|]. destruct Hes as (f & Hf & He & Hb). exists (FLeaf n e f). cbn.
    split_and!; [by rewrite Hf|by rewrite He|done].
  - cbn [build_payload]. apply wp_bind, wp_bind.
    eapply wp_conseq; [eapply (Hsub n (ChildDirectory mode)); [by left|done..]|].
    intros [key|err] p1 [Hst1 Hd1]; [|done]. apply wp_ret. cbn. apply wp_bind.
    eapply wp_conseq; [apply Hrest; [done|by eapply sound_grows; [apply Hst1|]]|].
    intros [es|err] p2 [Hst2 Hes]; [|by split; [eapply steps_trans|]].
    split; [by eapply steps_trans|]. destruct Hes as (f & Hf & He & Hb).
    eapply delivers_mono in Hd1 as (fb & Hfb & Hnode & Hbb); [|apply Hst2].
    exists (FDir n (Some mode) key fb f). cbn. split_and!; [by rewrite Hf, Hfb|by rewrite He|done..].
  - cbn [build_payload]. apply wp_bind, wp_bind.
    eapply wp_conseq; [eapply (Hsub n ChildSubtree); [by left|done..]|].
    intros [key|err] p1 [Hst1 Hd1]; [|done]. apply wp_ret. cbn. apply wp_bind.
    eapply wp_conseq; [apply Hrest; [done|by eapply sound_grows; [apply Hst1|]]|].
    intros [es|err] p2 [Hst2 Hes]; [|by split; [eapply steps_trans|]].
    split; [by eapply steps_trans|]. destruct Hes as (f & Hf & He & Hb).
    eapply delivers_mono in Hd1 as (fb & Hfb & Hnode & Hbb); [|apply Hst2].
    exists (FDir n None key fb f). cbn. split_and!; [by rewrite Hf, Hfb|by rewrite He|done..].
Qed.

Context (m : gmap WorkspacePath ManifestEntry).
Hypothesis tree_ok : tree_of m tree.

Lemma planted_sub sub dir cs s n spec b : plant sub dir cs = Some s → (n, spec) ∈ cs →
  (∀ e, spec ≠ Leaf e) → sub (dir_child dir n) = Some b → b ∈ subdirs s.
Proof.
  revert s. induction cs as [|[n' s'] cs IH]; intros s Hs Hin Hnl Hb; [by apply not_elem_of_nil in Hin|].
  apply elem_of_cons in Hin as [[= <- <-]|Hin].
  - destruct spec as [e| |]; [by destruct (Hnl e)|..]; cbn in Hs; plant_cases; by left.
  - destruct s'; cbn in Hs; plant_cases; cbn; [by eapply IH|..]; right; apply elem_of_app; right;
      by eapply IH.
Qed.

Lemma publish_spec room : ∀ l s, Forall segment l → forest_at tree room (join l) = Some s → U s →
  publishes (publish crypto epoch tree hashes room) (join l) s.
Proof.
  induction room as [|room IH]; intros l s Hl Hs HUs p Hsound; [done|].
  cbn [publish]. apply wp_bind. unfold subtree_hash. rewrite (hashes_ok _ _ _ Hl Hs).
  unfold wp at 1. cbn. apply wp_bind. unfold wp at 1, ledger_known.
  destruct (known _ _) as [r ledger'] eqn:Hkn.
  set (p1 := p <| np_ledger := ledger' |>).
  assert (grows p p1) as Hg1.
  { split_and!; [done..|]. intros h k. by apply (known_rows _ _ _ _ _ _ Hkn). }
  assert (steps p p1) as Hst1 by (split; [done|by apply promised_grows]).
  destruct r as [[key|]|e].
  - apply wp_ret. split; [done|]. apply known_row in Hkn.
    destruct (Hsound _ _ Hkn s HUs eq_refl) as (f & Hf & Hc). exists f. split; [done|].
    eapply carries_mono; [|exact Hc]. intros. by left.
  - pose proof Hs as Hs'. cbn in Hs. apply bind_Some in Hs as (children & Hch & Hpl).
    apply wp_bind. unfold build_entries. apply wp_bind. rewrite Hch. unfold wp at 1. cbn.
    eapply wp_conseq; [eapply build_children_spec; [done|exact Hpl|..]|].
    + intros n e Hin. pose proof (tree_name _ _ _ _ _ _ tree_ok Hch Hin) as Hn.
      pose proof (tree_child _ _ _ _ n tree_ok Hl Hn Hch) as Hsp.
      rewrite (proj1 (elem_of_btree_iter _ _ _) Hin) in Hsp. by destruct Hsp.
    + intros n spec b Hin Hnl Hb. pose proof (tree_name _ _ _ _ _ _ tree_ok Hch Hin) as Hn.
      assert (U b) as HUb.
      { pose proof (un_sub U HU s HUs) as Hall. rewrite Forall_forall in Hall.
        apply Hall. by eapply planted_sub. }
      rewrite dir_child_join in Hb |- * by done. apply IH; [by apply segments_snoc|done..].
    + by eapply sound_grows.
    + intros [es|e] p2 [Hst2 Hes]; [|by split; [eapply steps_trans|]].
      destruct Hes as (f & Hf & <- & Hb). apply wp_bind.
      eapply wp_conseq; [apply (seal_node_spec f p2); [|done]|].
      { eapply decodable_of_shape; [exact Hf|]. by apply (un_decodable U HU). }
      intros [key|e] p3 [Hst3 Hkey].
      2:{ split; [|done]. by do 2 (eapply steps_trans; [done|]). }
      unfold wp. rewrite bind_run. cbn. set (p4 := p3 <| np_pending_ledger := _ |>).
      assert (grows p3 p4) as Hg4 by done.
      assert (delivers p4 key s) as Hd by (exists f; done).
      split; [|done]. do 3 (eapply steps_trans; [done|]). split; [done|].
      intros Hp hash k [Hin|Hin]%elem_of_app.
      * destruct (Hp _ _ Hin) as (s' & ? & ? & ?). by exists s'.
      * apply list_elem_of_singleton in Hin as [= -> ->]. by exists s.
  - split; [done|]. destruct (known_error _ _ _ _ Hkn) as [error ->]. done.
Qed.

(** ** The upload *)

(** Every node object of the store is within the per-node size caps. *)
Definition sized (objects : Obj) : Prop := ∀ key sealed,
  get_manifest objects key = Ok sealed →
  str_len sealed ≤ max_sealed_bytes limits ∧
  ∀ plaintext storage_key context,
    seal plaintext storage_key context = Ok sealed → str_len plaintext ≤ max_decoded_bytes limits.

Lemma available_stored p objects' key node :
  put_manifests (np_pending_uploads p) (np_objects p) = (Ok tt, objects') → sized objects' →
  available p key node → opens_in objects' key node.
Proof.
  intros Hput Hsize [Hop|(u & pt & k & Hin & <- & Hphys & Hk & Hpt & Hs & Hv & He & Hval & Hlen)].
  - destruct Hop as [n Hop]. exists n. revert Hop. unfold opened.
    destruct (get_manifest (np_objects p) key) as [sealed|] eqn:Hget; [|done].
    by rewrite (put_keeps _ _ _ _ _ _ Hput Hget).
  - exists (str_len pt). unfold opened. rewrite (put_stores _ _ _ _ Hput Hin), Hphys, String.eqb_refl. cbn.
    destruct (Hsize _ _ (put_stores _ _ _ _ Hput Hin)) as [Hls Hlp].
    rewrite (open_tree_node_ok crypto pt k) by eauto.
    unfold decode_node. rewrite (from_to_bytes _ _ Hpt). cbn.
    rewrite Hv, He, !Z.eqb_refl. cbn.
    destruct (Z.ltb_spec (max_node_entries limits) (Z.of_nat (length (tn_entries node)))); [lia|].
    by rewrite Hval.
Qed.

Lemma opens_kept (p : NodePublisher Obj L) objects' r key node :
  put_manifests (np_pending_uploads p) (np_objects p) = (r, objects') →
  opens_in (np_objects p) key node → opens_in objects' key node.
Proof.
  intros Hput [n Hop]. exists n. revert Hop. unfold opened.
  destruct (get_manifest (np_objects p) key) as [sealed|] eqn:Hget; [|done].
  by rewrite (put_keeps _ _ _ _ _ _ Hput Hget).
Qed.

Lemma recorded_rows (rows : list (SubtreeHash * ManifestKey)) ledger hash key :
  row (foldl (λ ledger '(hash, key), record hash key ledger) ledger rows) hash key →
  (hash, key) ∈ rows ∨ row ledger hash key.
Proof.
  revert ledger. induction rows as [|[h k] rows IH]; intros ledger; cbn; [by right|].
  intros [?|Hr]%IH; [left; by right|]. apply record_row in Hr as [[-> ->]|?]; [left; by left|by right].
Qed.

Hypothesis hex_digests : digests.

Lemma commit_spec p : sound (np_objects p) (np_ledger p) → promised p →
  wp commit_pending (λ r p',
    match r with
    | Ok _ =>
        sized (np_objects p') →
        sound (np_objects p') (np_ledger p') ∧
        (∀ key node, available p key node → opens_in (np_objects p') key node)
    | Err e => sound (np_objects p') (np_ledger p') ∧ e = TreeTransportFailed TransportFailed
    end) p.
Proof.
  intros Hsound Hprom. unfold wp, commit_pending.
  destruct (put_manifests _ _) as [[[]|[]] objects'] eqn:Hput; cbn.
  - intros Hsize. pose proof (λ key node, available_stored p objects' key node Hput Hsize) as Hav.
    split; [|done]. intros hash key [Hin|Hrow]%recorded_rows s HUs Hh.
    + destruct (Hprom _ _ Hin) as (s' & HUs' & Hh' & f & Hf & Hc).
      exists f. split; [|by eapply carries_mono].
      rewrite Hf. eapply (forest_hash_inj epoch U hex_digests (un_free U HU)); eauto using un_typed, un_sub, un_names.
      congruence.
    + destruct (Hsound _ _ Hrow s HUs Hh) as (f & Hf & Hc). exists f. split; [done|].
      eapply carries_mono; [|exact Hc]. intros key' node' Hop. by eapply opens_kept.
  - split; [|done]. intros hash key Hrow s HUs Hh.
    destruct (Hsound _ _ Hrow s HUs Hh) as (f & Hf & Hc). exists f. split; [done|].
    eapply carries_mono; [|exact Hc]. intros key' node' Hop. by eapply opens_kept.
Qed.

End Publish.
