(* ===== verification/TreeTheorems.v ===== *)
(** * Theorems on the tree transport: publish and fetch

    A snapshot that was published is fetched back unchanged, with any sound ledger,
    and a fetch that reuses local subtrees returns what a fetch of everything
    returns. *)

From S2P Require Import Prelude.
From S2P Require Import ManifestTypes.
From S2P Require Import MergeMatrix.
From S2P Require Import Ordered.
From S2P Require Import Materialize.
From S2P Require Import DiskLemmas.
From S2P Require Import Store.
From S2P Require Import Paths.
From S2P Require Import Tree.
From S2P Require Import TreeTransport.
From S2P Require Import Forest.
From S2P Require Import Decompose.
From S2P Require Import SubtreeHashes.
From S2P Require Import FetchTheorems.
From S2P Require Import PublishLemmas.
Local Open Scope string_scope.
Open Scope Z_scope.

(** ** Publishable paths *)

Lemma starts_with_prefix (p : string) l l' : l ≠ [] → l' ≠ [] → starts_with p (join l) = true →
  starts_with p (join (l ++ l')%list) = true.
Proof.
  intros Hl Hl'. unfold starts_with. destruct l' as [|n l']; [done|]. rewrite join_below by done.
  destruct (strip_prefix p (join l)) as [r|] eqn:E; [|done]. intros _.
  apply Paths.strip_prefix_Some in E as ->. rewrite Paths.str_app_assoc.
  by rewrite Paths.strip_prefix_app.
Qed.

Lemma private_prefix l l' : l ≠ [] → Forall segment l → Forall segment l' →
  is_private_workspace_state_path (join l) = true →
  is_private_workspace_state_path (join (l ++ l')%list) = true.
Proof.
  intros Hne Hl Hl'. destruct l' as [|n l']; [by rewrite app_nil_r|].
  assert (∀ k, Forall segment k → Forall (λ p, no_char slash p = true) k) as Hns.
  { intros k Hk. eapply Forall_impl; [exact Hk|by intros ? []]. }
  unfold is_private_workspace_state_path.
  rewrite !split_join by (try done; try apply Hns; try apply Forall_app; try done; by destruct l).
  rewrite !orb_true_iff. intros [[He|Hs]|Hx].
  - left. right. apply String.eqb_eq in He. rewrite join_below by done. by rewrite He.
  - left. right. by apply starts_with_prefix.
  - right. by rewrite existsb_app, Hx.
Qed.

(** A directory on the way to a publishable path is publishable. *)
Lemma publishable_prefix l l' max allow : l ≠ [] → Forall segment l → Forall segment l' →
  publishable_workspace_path (join (l ++ l')%list) max allow = Ok tt →
  publishable_workspace_path (join l) max allow = Ok tt.
Proof.
  intros Hne Hl Hl' Hp. destruct (publishable_plain _ _ _ Hp) as (ns & Hns & He & Hplain).
  assert (Forall segment ns) as Hsegs by (eapply Forall_impl; [exact Hplain|by intros ? (? & ? & _)%plain_spec]).
  apply join_inj in He as <-; [|by apply Forall_app|done]. apply Forall_app in Hplain as [Hpl Hpl'].
  destruct (plain_join l Hpl) as (Hnorm & _ & Hsplit). specialize (Hsplit Hne).
  assert (str_len (join l) ≤ str_len (join (l ++ l')%list)) as Hlen.
  { destruct l' as [|n l']; [by rewrite app_nil_r|]. rewrite join_below by done. unfold str_len.
    rewrite Paths.str_length_app. lia. }
  assert (split slash (join (l ++ l')%list) = (l ++ l')%list) as Hsplit'.
  { apply split_join; [by destruct l|]. apply Forall_app. split;
      [eapply Forall_impl; [exact Hl|by intros ? []]|eapply Forall_impl; [exact Hl'|by intros ? []]]. }
  revert Hp. unfold publishable_workspace_path. rewrite Hsplit, Hsplit', Hnorm, String.eqb_refl.
  destruct (String.eqb_spec (join l) "") as [He|_]; [by apply join_nil in He|].
  destruct (_ =? "")%string; [done|].
  destruct (Z.ltb_spec max (str_len (join (l ++ l')%list))); [done|].
  destruct (Z.ltb_spec max (str_len (join l))); [lia|].
  assert (starts_with_char slash (join l) = false) as ->.
  { destruct l as [|[|c n] l]; [done|by apply Forall_cons in Hl as [[_ ?] _]|].
    rewrite join_push. apply Forall_cons in Hl as [[Hc _] _]. cbn [starts_with_char].
    unfold no_char in Hc. cbn [all_bytes] in Hc. apply andb_true_iff in Hc as [Hc _].
    rewrite Ascii.eqb_sym. by destruct (Ascii.eqb c slash). }
  destruct (starts_with_char _ _); [done|].
  destruct (Z.ltb_spec MAX_WORKSPACE_PATH_DEPTH (Z.of_nat (length (l ++ l')%list))); [done|].
  destruct (Z.ltb_spec MAX_WORKSPACE_PATH_DEPTH (Z.of_nat (length l))); [rewrite length_app in *; lia|].
  rewrite existsb_app. destruct (existsb _ l); [done|]. destruct (existsb _ l'); [done|].
  destruct (negb _); [done|]. destruct allow; [done|]. cbn.
  destruct (is_private_workspace_state_path (join l)) eqn:Hpriv; [|done].
  by rewrite private_prefix.
Qed.

(** ** The forest of a snapshot *)

(** The directory tree a publish walks, without node keys. *)
Definition snapshot_forest (m : gmap WorkspacePath ManifestEntry) : option forest :=
  match decompose m with Ok tree => forest_at tree publish_room "" | Err _ => None end.

Lemma snapshot_forest_inv m s : snapshot_forest m = Some s →
  ∃ tree, decompose m = Ok tree ∧ tree_of m tree ∧ forest_at tree publish_room (join []) = Some s.
Proof.
  unfold snapshot_forest. destruct (decompose m) as [tree|] eqn:Hd; [|done]. intros Hs.
  exists tree. split_and!; [done|by apply decompose_tree_of|done].
Qed.

Lemma plant_paths sub dir cs f l p : plant sub dir cs = Some f → p ∈ paths l f →
  ∃ n spec, (n, spec) ∈ cs ∧ (p = join (l ++ [n])%list ∨
    ∃ b, sub (dir_child dir n) = Some b ∧ p ∈ paths (l ++ [n])%list b).
Proof.
  revert f. induction cs as [|[n spec] cs IH]; intros f Hf Hp.
  { injection Hf as <-. by apply not_elem_of_nil in Hp. }
  assert (∀ r, plant sub dir cs = Some r → p ∈ paths l r →
    ∃ n' spec', (n', spec') ∈ (n, spec) :: cs ∧ (p = join (l ++ [n'])%list ∨
      ∃ b, sub (dir_child dir n') = Some b ∧ p ∈ paths (l ++ [n'])%list b)) as Hrest.
  { intros r Hr Hin. destruct (IH r Hr Hin) as (n' & s' & Hin' & Hx). exists n', s'. split; [by right|done]. }
  destruct spec as [e|mode|]; cbn in Hf; plant_cases; cbn in Hp;
    rewrite elem_of_cons, ?elem_of_app in Hp.
  - destruct Hp as [->|Hp]; [|by eapply Hrest]. exists n, (Leaf e). split; [by left|by left].
  - destruct Hp as [->|[Hp|Hp]]; [| |by eapply Hrest]; eexists n, _; (split; [by left|]); [by left|by right; eexists].
  - destruct Hp as [->|[Hp|Hp]]; [| |by eapply Hrest]; eexists n, _; (split; [by left|]); [by left|by right; eexists].
Qed.

Lemma forest_paths m nodes room l f p : tree_of m nodes → Forall segment l →
  forest_at nodes room (join l) = Some f → p ∈ paths l f →
  ∃ k, k ≠ [] ∧ Forall segment k ∧ p = join k ∧ (is_Some (m !! join k) ∨ below m k).
Proof.
  intros Ht. revert l f. induction room as [|room IH]; intros l f Hl Hf Hp; [done|].
  cbn in Hf. apply bind_Some in Hf as (children & Hc & Hpl).
  destruct (plant_paths _ _ _ _ _ _ Hpl Hp) as (n & spec & Hin & Hcase).
  pose proof (tree_name _ _ _ _ _ _ Ht Hc Hin) as Hn.
  pose proof (segments_snoc l n Hl Hn) as Hln. destruct Hcase as [->|(b & Hb & Hpb)].
  - exists (l ++ [n])%list. split_and!; [by destruct l|done|done|].
    pose proof (tree_child m nodes l children n Ht Hl Hn Hc) as Hs.
    rewrite (proj1 (elem_of_btree_iter _ _ _) Hin) in Hs.
    destruct spec; cbn in Hs; [left|left|by right; destruct Hs]; [destruct Hs as (_ & ? & _)|]; by eexists.
  - rewrite dir_child_join in Hb by done. by apply (IH _ _ Hln Hb).
Qed.

(** The manifest and its tree within the limits, with at most [node_cap] bytes in a
    node. *)
Record fits (limits : DecodeLimits) (node_cap : Z) (m : gmap WorkspacePath ManifestEntry) (s : forest)
    : Prop := {
  fit_paths : map_Forall (λ p _, validate_manifest_path p limits = Ok tt) m;
  fit_sizes : map_Forall (λ _ e, 0 ≤ declared_size e) m;
  fit_records : records s ≤ max_records limits;
  fit_declared : declared s ≤ max_aggregate_declared_bytes limits ≤ u64_max;
  fit_depth : (height s < walk_room limits)%nat;
  fit_decoded : (1 + Z.of_nat (length (subdirs s))) * node_cap ≤ max_aggregate_decoded_bytes limits ≤ u64_max;
}.

Lemma validate_prefix l l' limits : l ≠ [] → Forall segment l → Forall segment l' →
  validate_manifest_path (join (l ++ l')%list) limits = Ok tt → validate_manifest_path (join l) limits = Ok tt.
Proof.
  intros Hne Hl Hl'. unfold validate_manifest_path.
  destruct (publishable_workspace_path (join (l ++ l')%list) _ _) as [[]|[]] eqn:Hp; try done.
  by rewrite (publishable_prefix l l' _ _ Hne Hl Hl' Hp).
Qed.

Lemma snapshot_paths_valid limits node_cap m s : snapshot_forest m = Some s → fits limits node_cap m s →
  Forall (λ p, validate_manifest_path p limits = Ok tt) (paths [] s).
Proof.
  intros (tree & _ & Ht & Hs)%snapshot_forest_inv Hfit. apply Forall_forall. intros p Hp.
  destruct (forest_paths m tree _ [] s p Ht (Forall_nil_2 _) Hs Hp)
    as (k & Hne & Hk & -> & [[e He]|(k' & Hne' & Hk' & [e He])]).
  - by apply (fit_paths _ _ _ _ Hfit) in He.
  - apply (fit_paths _ _ _ _ Hfit) in He. by eapply validate_prefix.
Qed.

Lemma total_nodes_le weight cap f : (∀ key, weight key ≤ cap) →
  total_nodes weight f ≤ Z.of_nat (length (subdirs f)) * cap.
Proof.
  intros Hw. induction f as [|n e r IHr|n mode key b IHb r IHr]; cbn; [lia|done|].
  rewrite length_app. specialize (Hw key). nia.
Qed.

Lemma length_subdirs_shape f : length (subdirs (shape f)) = length (subdirs f).
Proof. induction f; cbn; [done|done|]. rewrite !length_app. congruence. Qed.

Lemma rows_of_shape f g : shape f = shape g → rows [] f = rows [] g.
Proof. intros He. unfold rows. by rewrite <-(flat_shape [] f), <-(flat_shape [] g), He. Qed.

Section FetchBack.
Context {Obj L : Type} `{Blake3} `{NodeCodec} `{Envelope} `{RemoteObjects Obj} `{TreeNodeLookup L}.
Context (objects : Obj) (crypto : WorkspaceCrypto) (limits : DecodeLimits) (fold : string → string).

(** No object of the store decodes to more than [node_cap] bytes. *)
Definition nodes_within (node_cap : Z) : Prop := ∀ key, node_bytes objects crypto limits key ≤ node_cap.

Lemma fetch_carried (ledger : L) root f m s node_cap :
  snapshot_forest m = Some s → shape f = shape s → carries (opens objects crypto limits) root f →
  fits limits node_cap m s → nodes_within node_cap →
  fetch_tree objects crypto limits fold None root ledger
  = (Ok {| ft_manifest := {| mf_key_epoch := cr_write_epoch crypto; mf_entries := m |};
           ft_collisions := fetch_collisions (push_all fold ∅ (flat [] f).*1);
           ft_node_keys := insert_all {[ "" := root ]} (dir_keys [] f) |}, ledger).
Proof.
  intros Hsnap Hshape Hc Hfit Hcap.
  pose proof (snapshot_paths_valid _ _ _ _ Hsnap Hfit) as Hpaths.
  destruct (snapshot_forest_inv _ _ Hsnap) as (tree & _ & Ht & Hs).
  pose proof (forest_at_wf m tree _ [] s Ht (Forall_nil_2 _) Hs) as Hwfs.
  assert (wf f) as Hwf by (by apply (wf_of_shape f s)).
  assert (rows [] f = m) as Hrows by (rewrite (rows_of_shape f s) by done; by eapply forest_rows).
  destruct Hfit as [_ Hsz Hrec [Hdecl Hdc] Hdepth [Hdec Hdec']].
  pose proof (total_nodes_le (node_bytes objects crypto limits) node_cap f Hcap) as Htot.
  rewrite <-(length_subdirs_shape f), Hshape, length_subdirs_shape in Htot.
  pose proof (total_bytes_nonneg objects crypto limits f).
  pose proof (node_bytes_nonneg objects crypto limits root). specialize (Hcap root) as Hroot.
  unfold fetch_tree. destruct (walk_room limits) as [|room] eqn:Hroom; [lia|]. change "" with (join []) at 1.
  rewrite (descend_run objects crypto limits fold Hdec' room [] root f); [|done|done|done|cbn; nia].
  rewrite (walk_entries_run objects crypto limits fold Hdc Hdec' f).
  - cbn. unfold walked. cbn. do 3 f_equal. rewrite insert_all_empty by (by apply flat_NoDup).
    by change (list_to_map (flat [] f)) with (rows [] f); rewrite Hrows.
  - rewrite <-(height_shape f), Hshape, height_shape. lia.
  - done.
  - done.
  - apply Hc.
  - constructor; cbn.
    + by rewrite <-(paths_shape [] f), Hshape, paths_shape.
    + by rewrite <-(records_shape f), Hshape, records_shape.
    + apply Forall_forall. intros [p e] Hin. cbn. apply (Hsz p). rewrite <-Hrows. by apply rows_lookup.
    + rewrite <-(declared_shape f), Hshape, declared_shape. lia.
    + nia.
Qed.

End FetchBack.

Lemma depth_within_exists (m : gmap WorkspacePath ManifestEntry) : ∃ depth, depth_within depth m.
Proof.
  exists (foldr Nat.max 0%nat ((λ p, length (components p)) <$> elements (dom m))).
  intros l Hl [e He]. assert (join l ∈ elements (dom m)) as Hin by (apply elem_of_elements, elem_of_dom; by eexists).
  clear He. induction (elements (dom m)) as [|p ps IH]; [by apply not_elem_of_nil in Hin|]. cbn.
  apply elem_of_cons in Hin as [<-|Hin]; [rewrite components_join by done; lia|]. specialize (IH Hin). lia.
Qed.

(** ** Published and fetched *)

Section Roundtrip.
Context {Obj L : Type} `{Blake3} `{NodeCodec} `{!NodeCodecLaws} `{Sealing} `{Envelope} `{!EnvelopeLaws}.
Context `{RemoteObjects Obj} `{!RemoteObjectsLaws Obj} `{TreeNodeLedger L} `{!LedgerRows L}.
Context (crypto : WorkspaceCrypto) (limits : DecodeLimits) (U : forest → Prop).
Hypothesis HU : universe crypto limits U.
Hypothesis held : is_Some (cr_keys crypto !! cr_write_epoch crypto).
Hypothesis hex_digests : digests.

Lemma publish_tree_spec (objects : Obj) (ledger : L) m s r objects' ledger' :
  snapshot_forest m = Some s → U s → sound crypto limits U objects ledger →
  publish_tree crypto {| mf_key_epoch := cr_write_epoch crypto; mf_entries := m |} objects ledger
  = (r, (objects', ledger')) →
  match r with
  | Ok root =>
      sized limits objects' →
      sound crypto limits U objects' ledger' ∧
      ∃ f, shape f = shape s ∧ carries (opens objects' crypto limits) root f
  | Err e =>
      sound crypto limits U objects' ledger' ∧
      (environmental e ∨ e = TreeTransportFailed TransportFailed)
  end.
Proof.
  intros Hsnap HUs Hsound. destruct (snapshot_forest_inv _ _ Hsnap) as (tree & Hd & Ht & Hs).
  destruct (depth_within_exists m) as [depth Hdepth].
  destruct (subtree_hashes_ok (cr_write_epoch crypto) m tree depth Ht Hdepth) as (hashes & Hh & Hhash & _).
  unfold publish_tree. cbn [mf_entries mf_key_epoch]. rewrite Hd, Hh.
  set (p0 := {| np_objects := objects |}). change "" with (join []) at 1.
  assert (∀ l room f, Forall segment l → forest_at tree room (join l) = Some f →
    hashes !! join l = Some (forest_hash (cr_write_epoch crypto) f)) as Hhashes.
  { intros l room f Hl Hf. apply (Hhash l room f Hl); [|done]. destruct room; [done|]. cbn in Hf.
    apply bind_Some in Hf as (ch & Hch & _). apply list_elem_of_fmap. exists (join l, ch).
    split; [done|by apply elem_of_btree_iter]. }
  pose proof (publish_spec crypto limits U HU held tree hashes Hhashes m Ht publish_room [] s
                (Forall_nil_2 _) Hs HUs p0 Hsound) as Hpub.
  rewrite bind_run. unfold wp in Hpub.
  destruct (publish crypto _ tree hashes publish_room (join []) p0) as [[root|e] p1].
  - destruct Hpub as [[Hg Hprom] Hdel].
    assert (promised crypto limits U p1) as Hp1 by (apply Hprom; by intros ?? ?%not_elem_of_nil).
    pose proof (commit_spec crypto limits U HU hex_digests p1 (sound_grows _ _ _ _ _ Hg Hsound) Hp1) as Hcom.
    unfold wp in Hcom. rewrite bind_run. destruct (commit_pending p1) as [[[]|e] p2].
    + intros [= <- <- <-] Hsize. destruct (Hcom Hsize) as [Hs2 Hav]. split; [done|].
      destruct Hdel as (f & Hf & Hc). exists f. split; [done|by eapply carries_mono].
    + intros [= <- <- <-]. destruct Hcom as [? ->]. by split; [|right].
  - destruct Hpub as [[Hg _] He]. intros [= <- <- <-]. split; [by apply (sound_grows _ _ _ _ _ Hg)|by left].
Qed.

(** C8: Publishing and fetching are inverse.  Whatever the ledger lets the publisher
    skip, the root key it returns is the key of the whole snapshot: a peer that fetches
    it gets the manifest that was published, entry for entry.  This for a manifest that is
    a directory tree with names and payloads the decoder accepts, within the decode limits,
    and a ledger that was sound before.  A publish that fails leaves the ledger sound, and
    it fails only when the encoder, the envelope, the ledger's database or the transport does:
    the depth guard and the internal errors are unreachable. *)
Theorem publish_roundtrip (objects : Obj) (ledger : L) (fold : string → string) m s r objects' ledger'
    node_cap :
  snapshot_forest m = Some s → U s → sound crypto limits U objects ledger →
  publish_tree crypto {| mf_key_epoch := cr_write_epoch crypto; mf_entries := m |} objects ledger
  = (r, (objects', ledger')) →
  match r with
  | Ok root =>
      sized limits objects' → fits limits node_cap m s → nodes_within objects' crypto limits node_cap →
      sound crypto limits U objects' ledger' ∧
      ∃ fetched, fetch_tree objects' crypto limits fold None root unledgered_nodes
                 = (Ok fetched, unledgered_nodes) ∧
        ft_manifest fetched = {| mf_key_epoch := cr_write_epoch crypto; mf_entries := m |}
  | Err e =>
      sound crypto limits U objects' ledger' ∧
      (environmental e ∨ e = TreeTransportFailed TransportFailed)
  end.
Proof.
  intros Hsnap HUs Hsound Hpub. pose proof (publish_tree_spec _ _ _ _ _ _ _ Hsnap HUs Hsound Hpub) as Hspec.
  destruct r as [root|e]; [|done]. intros Hsize Hfit Hcap. destruct (Hspec Hsize) as (Hs' & f & Hf & Hc).
  split; [done|]. eexists. split; [by eapply fetch_carried|done].
Qed.

End Roundtrip.
