(* ===== verification/PruneTheorems.v ===== *)
(** * Pruned fetches

    A fetch that fills the subtrees its ledger recognises from the local manifest
    returns what the root carries: the rows of the remote tree, and the collisions a
    fetch of everything would report. *)

From S2P Require Import Prelude.
From S2P Require Import ManifestTypes.
From S2P Require Import MergeMatrix.
From S2P Require Import Ordered.
From S2P Require Import Materialize.
From S2P Require Import DiskLemmas.
From S2P Require Import Store.
From S2P Require Import Paths.
From S2P Require Import Tree.
From S2P Require Import TreeTransport.
From S2P Require Import Forest.
From S2P Require Import Decompose.
From S2P Require Import SubtreeHashes.
From S2P Require Import FetchTheorems.
From S2P Require Import PublishLemmas.
From S2P Require Import TreeTheorems.
Local Open Scope string_scope.
Open Scope Z_scope.

(** ** The directories of a decomposed manifest *)

Lemma plant_mono (sub sub' : DirPath → option forest) dir cs f :
  (∀ d b, sub d = Some b → sub' d = Some b) → plant sub dir cs = Some f → plant sub' dir cs = Some f.
Proof.
  intros Hm. revert f. induction cs as [|[n [e|mode|]] cs IH]; intros f; cbn; [done|..];
    intros Hf; plant_cases; erewrite ?Hm, ?IH by done; done.
Qed.

Lemma forest_at_mono nodes room d f : forest_at nodes room d = Some f →
  forest_at nodes (Datatypes.S room) d = Some f.
Proof.
  revert d f. induction room as [|room IH]; intros d f; [done|].
  intros Hf. cbn in Hf. apply bind_Some in Hf as (children & Hc & Hp).
  change (nodes !! d ≫= (λ children, plant (forest_at nodes (Datatypes.S room)) d (btree_iter children)) = Some f).
  rewrite Hc. cbn [mbind option_bind]. by eapply plant_mono.
Qed.

(** Every directory of the tree is the snapshot or one of its subdirectories. *)
Lemma tree_directories m nodes room s l : tree_of m nodes → Forall segment l →
  forest_at nodes room (join []) = Some s → is_Some (nodes !! join l) →
  ∃ room' b, forest_at nodes room' (join l) = Some b ∧ (b = s ∨ b ∈ subdirs s).
Proof.
  intros Ht Hl Hs. induction l as [|n l IH] using rev_ind.
  { intros _. exists room, s. by split; [|left]. }
  apply Forall_app in Hl as [Hl Hn]. rewrite Forall_singleton in Hn. intros Hd.
  pose proof (segments_snoc l n Hl Hn) as Hln.
  apply (to_dir m nodes Ht _ Hln) in Hd.
  assert (below m l) as Hbl.
  { destruct Hd as [He|[[mode Hm]|(l' & Hne & Hs' & Hm)]]; [by destruct l| |].
    - exists [n]. split_and!; [done|by apply Forall_singleton|by eexists].
    - exists (n :: l'). split_and!; [done|by constructor|]. by rewrite <-(assoc_L (++)) in Hm. }
  destruct IH as (room' & f & Hf & Hin); [done|apply (to_dir m nodes Ht _ Hl); by right; right|].
  destruct room' as [|room']; [done|]. cbn in Hf. apply bind_Some in Hf as (children & Hc & Hp).
  pose proof (tree_child m nodes l children n Ht Hl Hn Hc) as Hspec.
  assert (∃ spec, (n, spec) ∈ btree_iter children ∧ ∀ e, spec ≠ Leaf e) as (spec & Hcs & Hnl).
  { destruct (children !! n) as [[e|mode|]|] eqn:Hcn; cbn in Hspec.
    - exfalso. destruct Hspec as (Hleaf & Hme & Hnb).
      destruct Hd as [He|[[mode Hm]|Hb]]; [by destruct l| |done]. by simplify_eq.
    - exists (ChildDirectory mode). split; [by apply elem_of_btree_iter|done].
    - exists ChildSubtree. split; [by apply elem_of_btree_iter|done].
    - exfalso. destruct Hspec as [Hno Hnb].
      destruct Hd as [He|[[mode Hm]|Hb]]; [by destruct l| |done]. by simplify_eq. }
  assert (∃ b, forest_at nodes room' (dir_child (join l) n) = Some b) as [b Hb].
  { clear -Hp Hcs Hnl. revert f Hp. induction (btree_iter children) as [|[n' s'] cs IHc]; intros f Hp;
      [by apply not_elem_of_nil in Hcs|].
    apply elem_of_cons in Hcs as [[= -> ->]|Hcs].
    - destruct s' as [e'| |]; [by destruct (Hnl e')|..]; cbn in Hp; plant_cases; eauto.
    - destruct s'; cbn in Hp; plant_cases; eauto. }
  pose proof (planted_sub _ _ _ _ _ _ _ Hp Hcs Hnl Hb) as Hbf.
  rewrite dir_child_join in Hb by done. exists room', b. split; [done|]. right.
  destruct Hin as [->|Hin]; [done|]. clear -Hbf Hin.
  induction s as [|n' e r IHr|n' mode key b' IHb r IHr]; cbn in Hin |- *; [by apply not_elem_of_nil in Hin|auto|].
  rewrite elem_of_cons, elem_of_app in *. destruct Hin as [->|[Hin|Hin]]; [by right; left|by right; left; auto|by right; right; auto].
Qed.

(** ** The descendants of a directory *)

Definition dir_prefix (dir : DirPath) : string := if (dir =? "")%string then "" else dir +:+ "/".

Lemma starts_with_dir l k : Forall segment l → Forall segment k → k ≠ [] →
  starts_with (dir_prefix (join l)) (join k) = true ↔ ∃ l', l' ≠ [] ∧ k = (l ++ l')%list.
Proof.
  intros Hl Hk Hne. unfold dir_prefix. destruct (String.eqb_spec (join l) "") as [He|Hnl].
  - apply join_nil in He as ->; [|done]. split; [by exists k|done].
  - assert (l ≠ []) by (by intros ->). split.
    + unfold starts_with. destruct (strip_prefix _ (join k)) as [r|] eqn:E; [|done]. intros _.
      apply Paths.strip_prefix_Some in E. exists (split slash r). split; [apply split_nil|].
      rewrite <-(split_join k) at 1; [|done|eapply Forall_impl; [exact Hk|by intros ? []]].
      rewrite E, Paths.str_app_assoc. by apply split_join_app.
    + intros ([|n l'] & Hl' & ->); [done|]. rewrite join_below by done. unfold starts_with.
      by rewrite <-Paths.str_app_assoc, Paths.strip_prefix_app.
Qed.

Lemma descendants_perm m nodes room l f : tree_of m nodes → Forall segment l →
  forest_at nodes room (join l) = Some f → descendants m (join l) ≡ₚ flat l f.
Proof.
  intros Ht Hl Hf. pose proof (forest_at_wf m nodes room l f Ht Hl Hf) as Hwf.
  apply NoDup_Permutation.
  - unfold descendants. apply NoDup_ListNoDup, List.NoDup_filter, NoDup_ListNoDup.
    eapply NoDup_fmap_1, btree_iter_NoDup.
  - eapply NoDup_fmap_1. by apply flat_NoDup.
  - intros [p e]. unfold descendants. fold (dir_prefix (join l)).
    rewrite list_elem_of_In, filter_In, <-list_elem_of_In, elem_of_btree_iter. split.
    + intros [Hm Hpre]. destruct (to_path m nodes Ht p) as (k & Hne & Hk & ->); [by eexists|].
      apply starts_with_dir in Hpre as (l' & Hl' & ->); [|done..].
      apply Forall_app in Hk as [_ Hsl']. by eapply forest_at_flat.
    + intros Hin. destruct (flat_below _ _ _ _ Hwf Hin) as (n & l' & _ & Hs & ->).
      apply (forest_at_flat m nodes room l f) in Hin as [_ Hm]; [|done..].
      split; [done|]. apply starts_with_dir; [done|by apply Forall_app|by destruct l|by exists (n :: l')].
Qed.

(** ** Groups of folded paths *)

Lemma insert_all_perm {A} (m : gmap string A) l1 l2 : l1 ≡ₚ l2 → NoDup l1.*1 →
  insert_all m l1 = insert_all m l2.
Proof.
  intros Hp Hn. apply map_eq. intros k.
  assert (NoDup l2.*1) by (by rewrite <-Hp). rewrite !insert_all_lookup by done.
  by rewrite (list_to_map_proper l1 l2).
Qed.

(** The same paths in every group, in some order. *)
Definition same_groups (a b : gmap string (list WorkspacePath)) : Prop :=
  ∀ k, default [] (a !! k) ≡ₚ default [] (b !! k).

#[export] Instance same_groups_equiv : Equivalence same_groups.
Proof.
  split; [by intros a k|by intros a b Hab k; symmetry; apply Hab|].
  intros a b c Hab Hbc k. etrans; [apply Hab|apply Hbc].
Qed.

Section Groups.
Context (fold : string → string).

Lemma push_folded_group p m k : default [] (push_folded (fold p) p m !! k)
  = (default [] (m !! k) ++ if decide (fold p = k) then [p] else [])%list.
Proof.
  unfold push_folded. destruct (decide (fold p = k)) as [<-|Hne].
  - by rewrite lookup_insert_eq.
  - by rewrite lookup_insert_ne, app_nil_r.
Qed.

Lemma push_all_group ps m k : default [] (push_all fold m ps !! k)
  = (default [] (m !! k) ++ filter (λ p, fold p = k) ps)%list.
Proof.
  revert m. induction ps as [|p ps IH]; intros m; [by rewrite app_nil_r|].
  change (push_all fold m (p :: ps)) with (push_all fold (push_folded (fold p) p m) ps). rewrite IH, push_folded_group, filter_cons.
  destruct (decide (fold p = k)); by rewrite <-(assoc_L (++)).
Qed.

Lemma push_all_groups m m' ps ps' : same_groups m m' → ps ≡ₚ ps' →
  same_groups (push_all fold m ps) (push_all fold m' ps').
Proof. intros Hm Hp k. rewrite !push_all_group, (Hm k). by rewrite Hp. Qed.

Lemma push_all_app m ps ps' : push_all fold m (ps ++ ps')%list = push_all fold (push_all fold m ps) ps'.
Proof. apply foldl_app. Qed.

End Groups.

Lemma merge_sort_perm (l1 l2 : list string) : l1 ≡ₚ l2 → merge_sort str_le l1 = merge_sort str_le l2.
Proof.
  intros Hp. apply (StronglySorted_unique str_le).
  - apply Sorted_StronglySorted; [apply _|apply Sorted_merge_sort, _].
  - apply Sorted_StronglySorted; [apply _|apply Sorted_merge_sort, _].
  - by rewrite !merge_sort_Permutation.
Qed.

Lemma sorted_filter {A} (R : relation A) (f : A → bool) l :
  StronglySorted R l → StronglySorted R (List.filter f l).
Proof.
  induction 1 as [|x l _ IH Hx]; cbn; [constructor|]. destruct (f x); [|done]. constructor; [done|].
  rewrite Forall_forall in *. intros y Hy. apply Hx. apply list_elem_of_In, filter_In in Hy as [Hy _].
  by apply list_elem_of_In.
Qed.

(** The collisions depend on the groups alone. *)
Lemma fetch_collisions_groups a b : same_groups a b → fetch_collisions a = fetch_collisions b.
Proof.
  intros Hg. unfold fetch_collisions.
  set (big := λ '((_, paths) : string * list WorkspacePath), (1 <? length paths)%nat).
  assert (∀ k (g : list WorkspacePath) (m : gmap string (list WorkspacePath)),
    (1 < length g)%nat → m !! k = Some g ↔ default [] (m !! k) = g) as Hdef.
  { intros k g m Hlen. destruct (m !! k); cbn; [naive_solver|]. split; [done|]. intros <-. cbn in Hlen. lia. }
  assert (∀ (m : gmap string (list WorkspacePath)),
    (λ '(key, paths), {| pc_folded := key; pc_paths := merge_sort str_le paths |}) <$> List.filter big (btree_iter m)
    = (λ '(key, paths), {| pc_folded := key; pc_paths := paths |})
        <$> List.filter big (btree_iter (merge_sort str_le <$> m))) as Hsort.
  { intros m. assert (btree_iter (merge_sort str_le <$> m) = prod_map id (merge_sort str_le) <$> btree_iter m) as ->.
    { unfold btree_iter. rewrite dom_fmap_L. induction (merge_sort str_le (elements (dom m))) as [|k l IH]; [done|].
      cbn. rewrite lookup_fmap. destruct (m !! k); cbn; by rewrite IH. }
    induction (btree_iter m) as [|[k g] l IH]; [done|].
    assert (big (prod_map id (merge_sort str_le) (k, g)) = big (k, g)) as Hbig
      by (cbn; by rewrite merge_sort_Permutation).
    rewrite fmap_cons. cbn [List.filter]. rewrite Hbig.
    destruct (big (k, g)); by rewrite ?fmap_cons, IH. }
  rewrite !Hsort. f_equal.
  apply (StronglySorted_unique_strong (λ x y : string * _, str_lt x.1 y.1)).
  - intros x y _ _ H1 H2. destruct (irreflexivity str_lt x.1). by etrans.
  - apply sorted_filter, sorted_keys, btree_iter_sorted.
  - apply sorted_filter, sorted_keys, btree_iter_sorted.
  - apply NoDup_Permutation.
    + apply NoDup_ListNoDup, List.NoDup_filter, NoDup_ListNoDup. eapply NoDup_fmap_1, btree_iter_NoDup.
    + apply NoDup_ListNoDup, List.NoDup_filter, NoDup_ListNoDup. eapply NoDup_fmap_1, btree_iter_NoDup.
    + intros [k g]. rewrite !list_elem_of_In, !filter_In, <-!list_elem_of_In, !elem_of_btree_iter.
      split; intros [Hk Hb]; (split; [|done]); apply Nat.ltb_lt in Hb; revert Hk; rewrite !lookup_fmap;
        specialize (Hg k);
        (destruct (a !! k) as [ga|], (b !! k) as [gb|]; cbn in *; intros [= <-];
         rewrite ?merge_sort_Permutation in Hb;
         [f_equal; by apply merge_sort_perm
         |exfalso; apply Permutation_length in Hg; cbn in Hg; lia]).
Qed.

(** ** Walks with a prune basis *)

(** The directories below a directory, with their components. *)
Fixpoint dirs_of (l : list string) (f : forest) : list (list string * forest) :=
  match f with
  | FNil => []
  | FLeaf _ _ rest => dirs_of l rest
  | FDir name _ _ below rest =>
      ((l ++ [name])%list, below) :: (dirs_of (l ++ [name]) below ++ dirs_of l rest)%list
  end.

Section Prune.
Context {Obj L : Type} `{Blake3} `{NodeCodec} `{Envelope} `{RemoteObjects Obj} `{TreeNodeLedger L}.
Context `{!LedgerRows L}.
Context (objects : Obj) (crypto : WorkspaceCrypto) (limits : DecodeLimits) (fold : string → string).
Context (U : forest → Prop) (m : gmap WorkspacePath ManifestEntry) (tree : DirectoryTree) (s : forest).
Context (hashes : gmap DirPath SubtreeHash).

Local Abbreviation epoch := (cr_write_epoch crypto).
Local Abbreviation stores := (opens objects crypto limits).
Local Abbreviation basis := (Some {| pb_entries := m; pb_hashes := hashes |}).
Local Abbreviation down := (descend (L := L) objects crypto limits fold basis).
Implicit Types w : TreeWalk L.

Hypothesis tree_ok : tree_of m tree.
Hypothesis snapshot : forest_at tree publish_room (join []) = Some s.
Hypothesis in_universe : U s ∧ Forall U (subdirs s).
Hypothesis hashes_ok : hashed epoch tree (btree_iter tree).*1 hashes.

(** What the walk of [f] at [l] has added. *)
Record gathered (l : list string) (f : forest) (w w' : TreeWalk L) : Prop := {
  ga_rows hash key : row (tw_ledger w') hash key → row (tw_ledger w) hash key;
  ga_entries : tw_entries w' = insert_all (tw_entries w) (flat l f);
  ga_folded : same_groups (tw_folded w') (push_all fold (tw_folded w) (flat l f).*1);
  ga_valid : Forall (λ p, validate_manifest_path p limits = Ok tt) (flat l f).*1;
  ga_keys d key : tw_node_keys w' !! d = Some key →
    tw_node_keys w !! d = Some key ∨
    ∃ l' b, d = join l' ∧ (l', b) ∈ dirs_of l f ∧ carries stores key b;
}.

(** What entering the directory [f] at [l] under [key] adds. *)
Record entered_dir (l : list string) (key : ManifestKey) (f : forest) (w w' : TreeWalk L) : Prop := {
  ed_rows hash k : row (tw_ledger w') hash k → row (tw_ledger w) hash k;
  ed_entries : tw_entries w' = insert_all (tw_entries w) (flat l f);
  ed_folded : same_groups (tw_folded w') (push_all fold (tw_folded w) (flat l f).*1);
  ed_valid : Forall (λ p, validate_manifest_path p limits = Ok tt) (flat l f).*1;
  ed_keys d k : tw_node_keys w' !! d = Some k →
    tw_node_keys w !! d = Some k ∨ (d = join l ∧ k = key) ∨
    ∃ l' b, d = join l' ∧ (l', b) ∈ dirs_of l f ∧ carries stores k b;
}.

Lemma each_emit_inv rows w w' :
  each rows (λ '(path, entry), count_record limits ;; emit_path limits fold path entry) w = (Ok tt, w') →
  tw_ledger w' = tw_ledger w ∧ tw_entries w' = insert_all (tw_entries w) rows ∧
  tw_folded w' = push_all fold (tw_folded w) rows.*1 ∧ tw_node_keys w' = tw_node_keys w ∧
  Forall (λ p, validate_manifest_path p limits = Ok tt) rows.*1.
Proof.
  revert w. induction rows as [|[p e] rows IH]; intros w; [by intros [= <-]|]. cbn [each].
  rewrite !bind_run. destruct (count_record limits w) as [[[]|] w0] eqn:Hc; [|done].
  apply count_record_inv in Hc as ->.
  destruct (emit_path _ _ _ _ _) as [[[]|] w1] eqn:He; [|done].
  apply emit_path_inv in He as (Hv & E1 & E2 & E3 & E4).
  intros (F1 & F2 & F3 & F4 & F5)%IH. rewrite F1, F2, F3, F4, E1, E2, E3, E4.
  split_and!; try done. cbn. by constructor.
Qed.

(** The subtree the ledger recognised. *)
Lemma recognised l hash key w : Forall segment l → sound crypto limits U objects (tw_ledger w) →
  hashes !! join l = Some hash → row (tw_ledger w) hash key →
  ∃ f, wf f ∧ carries stores key f ∧ descendants m (join l) ≡ₚ flat l f.
Proof.
  intros Hl Hsound Hh Hrow. destruct hashes_ok as [Hall Hdom].
  assert (join l ∈ (btree_iter tree).*1) as Hin by (apply Hdom; by eexists).
  assert (is_Some (tree !! join l)) as Hd.
  { pose proof Hin as ([d c] & Heq & Hc%elem_of_btree_iter)%list_elem_of_fmap. cbn in Heq. subst d. by eexists. }
  destruct (tree_directories m tree publish_room s l tree_ok Hl snapshot Hd) as (room & b & Hb & Hbs).
  assert (U b) as HUb.
  { destruct in_universe as [Hus Hss]. destruct Hbs as [->|Hbs]; [done|]. rewrite Forall_forall in Hss. auto. }
  rewrite (Hall _ _ _ Hl Hin Hb) in Hh. injection Hh as <-.
  destruct (Hsound _ _ Hrow b HUb eq_refl) as (f & Hf & Hc). exists f.
  split_and!; [|done|].
  - apply (wf_of_shape f b); [done|]. by eapply forest_at_wf.
  - rewrite (descendants_perm m tree room l b) by done.
    by rewrite <-(flat_shape l f), Hf, flat_shape.
Qed.

(** Entering a directory: recognised, or opened. *)
Lemma descend_pruned_inv room l key w w' : Forall segment l →
  sound crypto limits U objects (tw_ledger w) →
  down (Datatypes.S room) (join l) key w = (Ok tt, w') →
  (∃ f, wf f ∧ carries stores key f ∧ entered_dir l key f w w') ∨
  (∃ node w1, stores key node ∧
     (∀ hash k, row (tw_ledger w1) hash k → row (tw_ledger w) hash k) ∧
     tw_entries w1 = tw_entries w ∧ tw_folded w1 = tw_folded w ∧
     tw_node_keys w1 = <[join l := key]> (tw_node_keys w) ∧
     each (tn_entries node) (walk_entry limits fold (down room) (join l)) w1 = (Ok tt, w')).
Proof.
  intros Hl Hsound. cbn [descend]. rewrite bind_run. cbn. rewrite bind_run.
  set (w0 := w <| tw_node_keys := _ |>).
  assert (∀ (w1 : TreeWalk L),
    (∀ hash k, row (tw_ledger w1) hash k → row (tw_ledger w) hash k) →
    tw_entries w1 = tw_entries w → tw_folded w1 = tw_folded w →
    tw_node_keys w1 = <[join l := key]> (tw_node_keys w) →
    (node ← open_node objects crypto limits key; each (tn_entries node) (walk_entry limits fold (down room) (join l))) w1
    = (Ok tt, w') →
    (∃ f, wf f ∧ carries stores key f ∧ entered_dir l key f w w') ∨
    (∃ node w1, stores key node ∧
       (∀ hash k, row (tw_ledger w1) hash k → row (tw_ledger w) hash k) ∧
       tw_entries w1 = tw_entries w ∧ tw_folded w1 = tw_folded w ∧
       tw_node_keys w1 = <[join l := key]> (tw_node_keys w) ∧
       each (tn_entries node) (walk_entry limits fold (down room) (join l)) w1 = (Ok tt, w'))) as Hopen.
  { intros w1 D1 D2 D3 D4. rewrite bind_run. destruct (open_node _ _ _ _ _) as [[node|] w2] eqn:Ho; [|done].
    apply open_node_inv in Ho as (Hs & E1 & E2 & E3 & E4). intros Hw. right. exists node, w2.
    rewrite E1, E2, E3, E4. done. }
  unfold prune_subtree. cbn. destruct (hashes !! join l) as [hash|] eqn:Hh; [|by apply Hopen].
  rewrite bind_run. unfold walk_known. destruct (known hash _) as [[found|e] ledger'] eqn:Hk; [|done].
  pose proof (λ h k, known_rows _ _ _ _ h k Hk) as Hrows.
  destruct (bool_decide (found ≠ Some key)) eqn:Hd; [by apply Hopen|].
  apply bool_decide_eq_false_1, dec_stable in Hd as ->.
  rewrite bind_run. destruct (each _ _ _) as [[[]|] w1] eqn:He; [|done]. cbn. intros [= <-].
  apply each_emit_inv in He as (E1 & E2 & E3 & E4 & E5). left.
  apply known_row in Hk.
  destruct (recognised l hash key w Hl Hsound Hh Hk) as (f & Hwf & Hc & Hp).
  exists f. split_and!; [done..|]. pose proof (flat_NoDup l f Hwf Hl) as Hn. constructor.
  - rewrite E1. apply Hrows.
  - rewrite E2. apply insert_all_perm; [done|]. by rewrite Hp.
  - rewrite E3. apply push_all_groups; [done|]. by rewrite Hp.
  - by rewrite <-Hp.
  - rewrite E4. cbn. intros d k. destruct (decide (d = join l)) as [->|Hne].
    + rewrite lookup_insert_eq. intros [= <-]. by right; left.
    + rewrite lookup_insert_ne by done. by left.
Qed.

Lemma sound_rows w w' : (∀ hash k, row (tw_ledger w') hash k → row (tw_ledger w) hash k) →
  sound crypto limits U objects (tw_ledger w) → sound crypto limits U objects (tw_ledger w').
Proof. intros Hr Hs hash key Hrow. by apply Hs, Hr. Qed.

Lemma gathered_leaf l name e f w w1 w2 :
  validate_manifest_path (join (l ++ [name])%list) limits = Ok tt →
  saw fold l (FLeaf name e FNil) w w1 → gathered l f w1 w2 → gathered l (FLeaf name e f) w w2.
Proof.
  intros Hv (E1 & E2 & E3 & E4) [G1 G2 G3 G5 G4]. cbn in E4. constructor.
  - intros h k Hr. rewrite <-E1. by apply G1.
  - by rewrite G2, E2.
  - by rewrite E3 in G3.
  - cbn. by constructor.
  - intros d k [Hk|Hk]%G4; [|by right]. left. by rewrite <-E4.
Qed.

Lemma gathered_dir l name mode key b r w w1 w2 w3 :
  tw_ledger w1 = tw_ledger w →
  tw_entries w1 = insert_all (tw_entries w) (dir_rows (join (l ++ [name])%list) mode) →
  tw_folded w1 = push_all fold (tw_folded w) (dir_rows (join (l ++ [name])%list) mode).*1 →
  tw_node_keys w1 = tw_node_keys w → carries stores key b →
  validate_manifest_path (join (l ++ [name])%list) limits = Ok tt →
  entered_dir (l ++ [name])%list key b w1 w2 → gathered l r w2 w3 →
  gathered l (FDir name mode key b r) w w3.
Proof.
  intros D1 D2 D3 D4 Hc Hv [E1 E2 E3 E5 E4] [G1 G2 G3 G5 G4]. constructor.
  - intros h k Hr. rewrite <-D1. by apply E1, G1.
  - rewrite G2, E2, D2. cbn [flat]. by rewrite !insert_all_app.
  - cbn [flat]. rewrite !fmap_app, !push_all_app, <-D3. etrans; [exact G3|]. by apply push_all_groups.
  - cbn [flat]. rewrite !fmap_app, !Forall_app. split_and!; [|done..].
    destruct mode; cbn; [by apply Forall_singleton|done].
  - intros d k [Hk|(l' & b' & -> & Hin & Hc')]%G4.
    + apply E4 in Hk as [Hk|[[-> ->]|(l' & b' & -> & Hin & Hc')]].
      * left. by rewrite <-D4.
      * right. exists (l ++ [name])%list, b. split_and!; [done|by left|done].
      * right. exists l', b'. split_and!; [done| |done]. cbn. right. apply elem_of_app. by left.
    + right. exists l', b'. split_and!; [done| |done]. cbn. right. apply elem_of_app. by right.
Qed.

Lemma pruned_entries_inv room : ∀ es l w w' previous,
  Forall segment l → sound crypto limits U objects (tw_ledger w) →
  validate_entries limits previous es = Ok tt →
  each es (walk_entry limits fold (down room) (join l)) w = (Ok tt, w') →
  ∃ f, entries_of f = es ∧ wf f ∧ backed stores f ∧ gathered l f w w'.
Proof.
  induction room as [room IHroom] using (well_founded_induction lt_wf).
  intros es. induction es as [|e es IH]; intros l w w' previous Hl Hsound Hv.
  { intros [= <-]. exists FNil. split_and!; [done..|]. constructor; try done. by left. }
  pose proof (validate_entries_sorted _ _ _ Hv) as (Hs & Hf & _). cbn in Hs, Hf.
  apply StronglySorted_cons in Hs as [Hlt _]. apply Forall_cons in Hf as [Hseg _].
  assert (∃ previous', validate_entries limits previous' es = Ok tt) as [previous' Hv'].
  { revert Hv. cbn. unfold result_bind. destruct (validate_name _ _); [|done].
    destruct (is_some_and _ _); [done|]. destruct (validate_payload _ _); [|done]. by eexists. }
  cbn [each]. rewrite bind_run.
  destruct (walk_entry _ _ _ _ _ _) as [[[]|] w1] eqn:He; [|done]. intros Hes.
  apply walk_entry_inv in He as [Hpv [(en & Hleaf & Hen & Hsaw)|(mode & key & w2 & Hpl & D1 & D2 & D3 & D4 & Hg)]]; [..|done].
  - assert (sound crypto limits U objects (tw_ledger w1)) as Hs1 by (destruct Hsaw as (-> & _); done).
    destruct (IH _ _ _ _ Hl Hs1 Hv' Hes) as (r & Hr & Rw & Rb & Hgr).
    exists (FLeaf (te_name e) en r). split_and!.
    + cbn. by rewrite Hr, <-Hen.
    + cbn. split_and!; [done|by rewrite <-te_names, Hr|done..].
    + done.
    + by eapply gathered_leaf.
  - destruct room as [|room]; [done|]. pose proof (segments_snoc _ _ Hl Hseg) as Hln.
    assert (sound crypto limits U objects (tw_ledger w2)) as Hs2 by (by rewrite D1).
    assert (∃ b, wf b ∧ carries stores key b ∧ entered_dir (l ++ [te_name e])%list key b w2 w1) as (b & Bw & Bc & Be).
    { apply descend_pruned_inv in Hg as [?|(node & w3 & Hn & F1 & F2 & F3 & F4 & Hg)]; [done| |done..].
      destruct (IHroom room (ltac:(lia)) _ _ _ _ _ Hln (sound_rows _ _ F1 Hs2)
                  (opens_decoded _ _ _ _ _ Hn) Hg) as (b & Hb & Bw & Bb & [G1 G2 G3 G5 G4]).
      exists b. split_and!; [done|split; [by exists node|done]|]. constructor.
      - intros h k Hr. by apply F1, G1.
      - by rewrite G2, F2.
      - by rewrite F3 in G3.
      - done.
      - intros d k [Hk|Hk]%G4; [|by right; right]. rewrite F4 in Hk.
        destruct (decide (d = join (l ++ [te_name e])%list)) as [->|Hne].
        + rewrite lookup_insert_eq in Hk. injection Hk as <-. by right; left.
        + rewrite lookup_insert_ne in Hk by done. by left. }
    destruct (IH _ _ _ _ Hl (sound_rows _ _ (ed_rows _ _ _ _ _ Be) Hs2) Hv' Hes) as (r & Hr & Rw & Rb & Hgr).
    exists (FDir (te_name e) mode key b r). split_and!.
    + cbn. rewrite Hr, <-Hpl. by destruct e.
    + cbn. split_and!; [done|by rewrite <-te_names, Hr|done..].
    + cbn. destruct Bc as [Bn Bb]. done.
    + by eapply gathered_dir.
Qed.

End Prune.

(** ** The theorem *)

(** The walk's result for a tree, and what its node keys name. *)
Definition fetched_as {Obj} `{Blake3} `{NodeCodec} `{Envelope} `{RemoteObjects Obj} (objects : Obj)
    (crypto : WorkspaceCrypto) (limits : DecodeLimits) (fold : string → string) (root : ManifestKey)
    (f : forest) (fetched : FetchedTree) : Prop :=
  ft_manifest fetched = {| mf_key_epoch := cr_write_epoch crypto; mf_entries := rows [] f |} ∧
  ft_collisions fetched = fetch_collisions (push_all fold ∅ (flat [] f).*1) ∧
  Forall (λ p, validate_manifest_path p limits = Ok tt) (flat [] f).*1 ∧
  (∀ d key, ft_node_keys fetched !! d = Some key →
     ∃ l b, d = join l ∧ (l, b) ∈ ([], f) :: dirs_of [] f ∧ carries (opens objects crypto limits) key b).

Section PruneTheorem.
Context {Obj L : Type} `{Blake3} `{NodeCodec} `{Envelope} `{RemoteObjects Obj} `{TreeNodeLedger L}.
Context `{!LedgerRows L}.
Context (objects : Obj) (crypto : WorkspaceCrypto) (limits : DecodeLimits) (fold : string → string).
Context (U : forest → Prop).

Lemma fetch_pruned_spec m tree hashes s root (ledger : L) fetched ledger' :
  decompose m = Ok tree → subtree_hashes tree (cr_write_epoch crypto) = Ok hashes →
  forest_at tree publish_room "" = Some s → U s ∧ Forall U (subdirs s) →
  sound crypto limits U objects ledger →
  fetch_tree objects crypto limits fold (Some {| pb_entries := m; pb_hashes := hashes |}) root ledger
  = (Ok fetched, ledger') →
  ∃ f, wf f ∧ carries (opens objects crypto limits) root f ∧
       fetched_as objects crypto limits fold root f fetched.
Proof.
  intros Hd Hh Hs HU Hsound. pose proof (decompose_tree_of _ _ Hd) as Ht.
  destruct (depth_within_exists m) as [depth Hdepth].
  destruct (subtree_hashes_ok (cr_write_epoch crypto) m tree depth Ht Hdepth) as (hashes' & Hh' & Hhash).
  rewrite Hh in Hh'. injection Hh' as <-.
  unfold fetch_tree. set (w0 := {| tw_ledger := ledger |}).
  destruct (descend _ _ _ _ _ _ _ _ w0) as [[[]|] w'] eqn:Hw; [|done]. intros [= <- <-].
  destruct (walk_room limits) as [|room]; [done|]. change "" with (join []) in Hw, Hs.
  assert (∃ f, wf f ∧ carries (opens objects crypto limits) root f ∧
    entered_dir objects crypto limits fold [] root f w0 w') as (f & Hwf & Hc & [_ E2 E3 E5 E4]).
  { eapply descend_pruned_inv in Hw as [?|(node & w1 & Hn & F1 & F2 & F3 & F4 & Hg)]; [done| |done..].
    eapply pruned_entries_inv in Hg as (f & Hf & Fw & Fb & [G1 G2 G3 G5 G4]); [|done..| | ];
      [|by intros h k Hr; apply Hsound, F1|by eapply opens_decoded].
    exists f. split_and!; [done|split; [by exists node|done]|]. constructor.
    - intros h k Hr. by apply F1, G1.
    - by rewrite G2, F2.
    - by rewrite F3 in G3.
    - done.
    - intros d k [Hk|Hk]%G4; [|by right; right]. rewrite F4 in Hk.
      destruct (decide (d = join [])) as [->|Hne].
      + rewrite lookup_insert_eq in Hk. injection Hk as <-. by right; left.
      + rewrite lookup_insert_ne in Hk by done. by left. }
  exists f. split_and!; [done..|]. split_and!.
  - cbn. rewrite E2. cbn. by rewrite insert_all_empty by (by apply flat_NoDup).
  - cbn. by apply fetch_collisions_groups.
  - done.
  - cbn. intros d k [Hk|[[-> ->]|(l' & b & -> & Hin & Hb)]]%E4.
    + cbn in Hk. by rewrite lookup_empty in Hk.
    + exists [], f. split_and!; [done|by left|done].
    + exists l', b. split_and!; [done|by right|done].
Qed.

Lemma flat_paths l f : Forall (λ p, validate_manifest_path p limits = Ok tt) (paths l f) →
  Forall (λ p, validate_manifest_path p limits = Ok tt) (flat l f).*1.
Proof.
  revert l. induction f as [|n e r IHr|n mode key b IHb r IHr]; intros l; cbn; [done|..].
  - intros [? ?]%Forall_cons. constructor; auto.
  - intros [? [? ?]%Forall_app]%Forall_cons. rewrite !fmap_app, !Forall_app. split_and!; [|by auto..].
    destruct mode; cbn; [by apply Forall_singleton|done].
Qed.

Lemma dir_keys_dirs l f d key : backed (opens objects crypto limits) f → (d, key) ∈ dir_keys l f →
  ∃ l' b, d = join l' ∧ (l', b) ∈ dirs_of l f ∧ carries (opens objects crypto limits) key b.
Proof.
  revert l. induction f as [|n e r IHr|n mode k b IHb r IHr]; intros l; cbn;
    [by intros _ ?%not_elem_of_nil|by auto|].
  intros (Hn & Hb & Hr) [[= -> ->]|[Hin|Hin]%elem_of_app]%elem_of_cons.
  - exists (l ++ [n])%list, b. split_and!; [done|by left|done].
  - destruct (IHb _ Hb Hin) as (l' & b' & ? & ? & ?). exists l', b'. split_and!; [done| |done].
    right. apply elem_of_app. by left.
  - destruct (IHr _ Hr Hin) as (l' & b' & ? & ? & ?). exists l', b'. split_and!; [done| |done].
    right. apply elem_of_app. by right.
Qed.

Lemma insert_all_cases {A} (m : gmap string A) l k v : insert_all m l !! k = Some v →
  m !! k = Some v ∨ (k, v) ∈ l.
Proof.
  revert m. induction l as [|[k' v'] l IH]; intros m; cbn; [by left|].
  intros [Hm|Hin]%IH; [|right; by right]. destruct (decide (k' = k)) as [->|Hne].
  - rewrite lookup_insert_eq in Hm. injection Hm as ->. right. by left.
  - rewrite lookup_insert_ne in Hm by done. by left.
Qed.

Lemma fetch_unpruned_spec root (ledger : L) fetched ledger' :
  fetch_tree objects crypto limits fold None root ledger = (Ok fetched, ledger') →
  ∃ f, wf f ∧ carries (opens objects crypto limits) root f ∧
       fetched_as objects crypto limits fold root f fetched.
Proof.
  unfold fetch_tree. set (w0 := {| tw_ledger := ledger |}).
  destruct (descend _ _ _ _ _ _ _ _ w0) as [[[]|] w'] eqn:Hw; [|done]. intros [= <- <-].
  destruct (walk_room limits) as [|room]; [done|]. change "" with (join []) in Hw.
  apply descend_inv in Hw as (node & w1 & Hn & D1 & D2 & D3 & D4 & Hw).
  apply (walk_entries_inv objects crypto limits fold room _ [] _ _ None) in Hw
    as (f & Hf & [Fw Fb _ Fp] & E1 & E2 & E3 & E4); [|done|by eapply opens_decoded].
  rewrite D2 in E2. rewrite D3 in E3. rewrite D4 in E4.
  exists f. split_and!; [done|split; [by exists node|done]|]. split_and!.
  - cbn. rewrite E2. cbn. by rewrite insert_all_empty by (by apply flat_NoDup).
  - cbn. by rewrite E3.
  - by apply flat_paths.
  - cbn. rewrite E4. intros d k [Hk|Hk]%insert_all_cases.
    + cbn in Hk. destruct (decide (d = "")) as [->|Hne].
      * rewrite lookup_insert_eq in Hk. injection Hk as <-. exists [], f.
        split_and!; [done|by left|split; [by exists node|done]].
      * by rewrite lookup_insert_ne, lookup_empty in Hk.
    + destruct (dir_keys_dirs [] f d k Fb Hk) as (l' & b & ? & ? & ?). exists l', b. split_and!; [done|by right|done].
Qed.

(** C11: Pruning does not change what a pull sees.  When the node ledger is sound, a
    fetch that fills recognised subtrees from the local manifest, without downloading
    them, returns exactly the tree its root names: the entries and the name collisions
    of a fetch that downloads everything, every path cleared by the reader's predicate. *)
Theorem pruned_fetch_exact m tree hashes s root (ledger : L) fetched ledger' :
  decompose m = Ok tree → subtree_hashes tree (cr_write_epoch crypto) = Ok hashes →
  forest_at tree publish_room "" = Some s → U s ∧ Forall U (subdirs s) →
  sound crypto limits U objects ledger →
  fetch_tree objects crypto limits fold (Some {| pb_entries := m; pb_hashes := hashes |}) root ledger
  = (Ok fetched, ledger') →
  map_Forall (λ p _, validate_manifest_path p limits = Ok tt) (mf_entries (ft_manifest fetched)) ∧
  (∃ f, carries (opens objects crypto limits) root f ∧ mf_entries (ft_manifest fetched) = rows [] f) ∧
  ∀ (ledger2 : L) complete ledger2',
    fetch_tree objects crypto limits fold None root ledger2 = (Ok complete, ledger2') →
    ft_manifest fetched = ft_manifest complete ∧ ft_collisions fetched = ft_collisions complete.
Proof.
  intros Hd Hh Hs HU Hsound Hf.
  destruct (fetch_pruned_spec _ _ _ _ _ _ _ _ Hd Hh Hs HU Hsound Hf) as (f & Hwf & Hc & Hm & Hcol & Hv & _).
  split_and!.
  - rewrite Hm. cbn. intros p e Hp. apply rows_lookup in Hp; [|done..]. rewrite Forall_forall in Hv.
    apply Hv, list_elem_of_fmap. by exists (p, e).
  - exists f. by rewrite Hm.
  - intros ledger2 complete ledger2' Hf2.
    destruct (fetch_unpruned_spec _ _ _ _ Hf2) as (f2 & Hwf2 & Hc2 & Hm2 & Hcol2 & _ & _).
    assert (f = f2) as <- by (eapply carries_inj; [apply opens_fun|done..]).
    by rewrite Hm, Hm2, Hcol, Hcol2.
Qed.

End PruneTheorem.
