(* ===== verification/DiffTheorems.v ===== *)
(** * The delta of two roots is their difference

    [diff_tree] skips every pair of equal node keys and opens the rest; what it
    returns is nevertheless determined by the two manifests alone: the paths whose
    entry differs, together with the dirty paths and the reported collisions, each
    with its entry in the new manifest. *)

From S2P Require Import Prelude.
From S2P Require Import ManifestTypes.
From S2P Require Import MergeMatrix.
From S2P Require Import Ordered.
From S2P Require Import Materialize.
From S2P Require Import DiskLemmas.
From S2P Require Import Paths.
From S2P Require Import Tree.
From S2P Require Import TreeTransport.
From S2P Require Import TreeDiff.
From S2P Require Import Forest.
From S2P Require Import FetchTheorems.
Local Open Scope string_scope.
Open Scope Z_scope.

(** ** Directories by name *)

Inductive item :=
| ILeaf (entry : ManifestEntry)
| IDir (mode : option FileMode) (key : ManifestKey) (below : forest).

Fixpoint pick (n : string) (f : forest) : option item :=
  match f with
  | FNil => None
  | FLeaf name entry rest => if (name =? n)%string then Some (ILeaf entry) else pick n rest
  | FDir name mode key below rest =>
      if (name =? n)%string then Some (IDir mode key below) else pick n rest
  end.

(** The node entry of an item. *)
Definition item_entry (n : string) (it : item) : TreeEntry :=
  match it with
  | ILeaf entry => leaf_entry n entry
  | IDir mode key _ => {| te_name := n; te_payload := dir_payload mode key |}
  end.

(** The rows of an item at the components [l]. *)
Definition item_rows (l : list string) (it : item) : list (WorkspacePath * ManifestEntry) :=
  match it with
  | ILeaf entry => [(join l, entry)]
  | IDir mode _ below => (dir_rows (join l) mode ++ flat l below)%list
  end.

Definition item_wf (it : item) : Prop :=
  match it with ILeaf entry => is_leaf entry | IDir _ _ below => wf below end.

Definition item_backed (stores : ManifestKey → TreeNode → Prop) (it : item) : Prop :=
  match it with ILeaf _ => True | IDir _ key below => carries stores key below end.

Lemma pick_names n f it : pick n f = Some it → n ∈ names f.
Proof.
  induction f as [|n' e r IHr|n' mode key b _ r IHr]; cbn; [done|..];
    destruct (String.eqb_spec n' n) as [->|]; [by left| |by left|]; intros ?; right; auto.
Qed.

Lemma pick_segment n f it : wf f → pick n f = Some it → segment n.
Proof.
  induction f as [|n' e r IHr|n' mode key b _ r IHr]; cbn; [done|..];
    intros (Hn & _ & _ & Hr); destruct (String.eqb_spec n' n) as [->|]; auto.
Qed.

Lemma pick_wf n f it : wf f → pick n f = Some it → item_wf it.
Proof.
  induction f as [|n' e r IHr|n' mode key b _ r IHr]; cbn; [done|..];
    intros (_ & _ & Hx & Hr); destruct (String.eqb_spec n' n) as [->|]; auto; by intros [= <-].
Qed.

Lemma pick_backed stores n f it : backed stores f → pick n f = Some it → item_backed stores it.
Proof.
  induction f as [|n' e r IHr|n' mode key b _ r IHr]; cbn; [done|..].
  - intros Hb. destruct (String.eqb_spec n' n); auto. by intros [= <-].
  - intros (Hk & Hb & Hr). destruct (String.eqb_spec n' n); auto. by intros [= <-].
Qed.

Lemma names_not_pick n f : n ∉ names f → pick n f = None.
Proof. intros Hn. destruct (pick n f) eqn:E; [by apply pick_names in E|done]. Qed.

Lemma flat_pick l f p e : wf f →
  (p, e) ∈ flat l f ↔ ∃ n it, pick n f = Some it ∧ (p, e) ∈ item_rows (l ++ [n])%list it.
Proof.
  induction f as [|n e' r IHr|n mode key b _ r IHr]; cbn [wf flat].
  - intros _. split; [by intros ?%not_elem_of_nil|by intros (n & it & ? & _)].
  - intros (Hn & Hlt & _ & Hr). rewrite elem_of_cons, (IHr Hr). split.
    + intros [[= -> ->]|(n' & it & Hp & Hin)].
      * exists n, (ILeaf e'). cbn. rewrite String.eqb_refl. split; [done|by left].
      * exists n', it. split; [|done]. cbn. destruct (String.eqb_spec n n') as [<-|]; [|done].
        apply pick_names in Hp. rewrite Forall_forall in Hlt. by destruct (irreflexivity str_lt n (Hlt _ Hp)).
    + intros (n' & it & Hp & Hin). cbn in Hp. destruct (String.eqb_spec n n') as [<-|].
      * injection Hp as <-. left. by apply list_elem_of_singleton in Hin.
      * right. by exists n', it.
  - intros (Hn & Hlt & _ & Hr). rewrite (assoc_L (++)), elem_of_app, (IHr Hr). split.
    + intros [Hin|(n' & it & Hp & Hin)].
      * exists n, (IDir mode key b). cbn. by rewrite String.eqb_refl.
      * exists n', it. split; [|done]. cbn. destruct (String.eqb_spec n n') as [<-|]; [|done].
        apply pick_names in Hp. rewrite Forall_forall in Hlt. by destruct (irreflexivity str_lt n (Hlt _ Hp)).
    + intros (n' & it & Hp & Hin). cbn in Hp. destruct (String.eqb_spec n n') as [<-|].
      * injection Hp as <-. by left.
      * right. by exists n', it.
Qed.

Lemma entries_by_name_pick node f n : wf f → tn_entries node = entries_of f →
  entries_by_name node !! n = item_entry n <$> pick n f.
Proof.
  intros Hwf He. unfold entries_by_name. rewrite He. clear He node.
  assert (∀ m : gmap string TreeEntry, foldl (λ m entry, <[te_name entry := entry]> m) m (entries_of f) !! n
    = match pick n f with Some it => Some (item_entry n it) | None => m !! n end) as Hgen.
  2:{ rewrite Hgen. by destruct (pick n f). }
  induction f as [|n' e r IHr|n' mode key b _ r IHr]; intros m; [done|..];
    cbn [entries_of foldl wf pick] in *; destruct Hwf as (_ & Hlt & _ & Hr); rewrite (IHr Hr); cbn [te_name leaf_entry];
    (destruct (String.eqb_spec n' n) as [->|Hne];
     [rewrite names_not_pick, lookup_insert_eq;
        [done|intros Hin; rewrite Forall_forall in Hlt; by destruct (irreflexivity str_lt n (Hlt _ Hin))]
     |destruct (pick n r); [done|by rewrite lookup_insert_ne]]).
Qed.

Lemma visible_item n it : item_wf it →
  visible_entry (te_payload (item_entry n it))
  = match it with ILeaf e => Some e | IDir mode _ _ => DirectoryEntry <$> mode end.
Proof. by destruct it as [[]|[]]; cbn; intros Hw; try done; destruct Hw. Qed.

Lemma child_item n it : item_wf it →
  payload_child (te_payload (item_entry n it))
  = match it with ILeaf _ => None | IDir _ key _ => Some key end.
Proof. by destruct it as [[]|[]]; cbn; intros Hw; try done; destruct Hw. Qed.

Implicit Types m N : gmap WorkspacePath ManifestEntry.

(** ** Restrictions of a manifest *)

(** The entries of [m] at the paths [C]. *)
Definition on (m : gmap WorkspacePath ManifestEntry) (C : gset WorkspacePath)
    : gmap WorkspacePath ManifestEntry := filter (λ row, row.1 ∈ C) m.

Lemma on_lookup m C p : on m C !! p = if decide (p ∈ C) then m !! p else None.
Proof.
  unfold on. destruct (decide (p ∈ C)) as [Hin|Hni].
  - destruct (m !! p) as [e|] eqn:E; [by apply map_lookup_filter_Some_2|].
    apply map_lookup_filter_None_2. by left.
  - apply map_lookup_filter_None_2. right. by intros e _.
Qed.

Lemma on_union m C D : on m (C ∪ D) = on m C ∪ on m D.
Proof.
  apply map_eq. intros p. rewrite lookup_union, !on_lookup.
  destruct (decide (p ∈ C)), (decide (p ∈ D)); rewrite ?decide_True, ?decide_False by set_solver;
    by destruct (m !! p).
Qed.

Lemma on_empty m : on m ∅ = ∅.
Proof. apply map_eq. intros p. by rewrite on_lookup, decide_False, lookup_empty by set_solver. Qed.

Lemma on_subseteq m C : on m C ⊆ m.
Proof. apply map_filter_subseteq. Qed.

(** Adding the entry of [m] at [p]. *)
Lemma insert_on m E p e : E ⊆ m → m !! p = Some e → <[p := e]> E = E ∪ on m {[p]}.
Proof.
  intros Hsub Hp. apply map_eq. intros q. rewrite lookup_union, on_lookup.
  destruct (decide (q = p)) as [->|Hne].
  - rewrite lookup_insert_eq, decide_True by set_solver. rewrite Hp.
    destruct (E !! p) as [e'|] eqn:He; [|done]. cbn.
    rewrite (lookup_weaken _ _ _ _ He Hsub) in Hp. by injection Hp as <-.
  - rewrite lookup_insert_ne, decide_False by set_solver. by destruct (E !! q).
Qed.

Lemma on_absent m p : m !! p = None → on m {[p]} = ∅.
Proof.
  intros Hp. apply map_eq. intros q. rewrite on_lookup, lookup_empty. destruct (decide _) as [->%elem_of_singleton|]; done.
Qed.

(** ** Rows under a name *)

Lemma item_rows_below l n it p e : item_wf it → segment n →
  (p, e) ∈ item_rows (l ++ [n])%list it → ∃ l', Forall segment (n :: l') ∧ p = join (l ++ n :: l')%list.
Proof.
  intros Hw Hn. destruct it as [en|mode key b]; cbn.
  - intros Hin%list_elem_of_singleton. simplify_eq. exists []. split; [by apply Forall_singleton|done].
  - intros [Hin|Hin]%elem_of_app.
    + destruct mode; cbn in Hin; [|by apply not_elem_of_nil in Hin].
      apply list_elem_of_singleton in Hin as [= -> _]. exists []. split; [by apply Forall_singleton|done].
    + destruct (flat_below _ _ _ _ Hw Hin) as (n' & l' & _ & Hs & ->). exists (n' :: l').
      split; [by constructor|by rewrite <-(assoc_L (++))].
Qed.

Lemma item_rows_NoDup l n it : Forall segment l → segment n → item_wf it →
  NoDup (item_rows (l ++ [n])%list it).*1.
Proof.
  intros Hl Hn. destruct it as [en|mode key b]; cbn; intros Hw; [apply NoDup_singleton|].
  pose proof (flat_NoDup l (FDir n mode key b FNil) (ltac:(split_and!; try done; constructor)) Hl) as Hnd.
  cbn in Hnd. by rewrite app_nil_r in Hnd.
Qed.

Definition item_map (l : list string) (o : option item) : gmap WorkspacePath ManifestEntry :=
  match o with Some it => list_to_map (item_rows l it) | None => ∅ end.

Lemma item_map_lookup l n it p e : Forall segment l → segment n → item_wf it →
  item_map (l ++ [n])%list (Some it) !! p = Some e ↔ (p, e) ∈ item_rows (l ++ [n])%list it.
Proof. intros Hl Hn Hw. symmetry. by apply elem_of_list_to_map, item_rows_NoDup. Qed.

Lemma rows_under l f n l' : wf f → Forall segment l → Forall segment (n :: l') →
  rows l f !! join (l ++ n :: l')%list = item_map (l ++ [n])%list (pick n f) !! join (l ++ n :: l')%list.
Proof.
  intros Hwf Hl Hs. apply option_eq. intros e. rewrite rows_lookup, flat_pick by done.
  apply Forall_cons in Hs as [Hn Hl']. split.
  - intros (n' & it & Hp & Hin).
    pose proof (pick_wf _ _ _ Hwf Hp) as Hw. pose proof (pick_segment _ _ _ Hwf Hp) as Hn'.
    destruct (item_rows_below _ _ _ _ _ Hw Hn' Hin) as (k & Hk & He).
    apply segments_app_inj in He; [|done|by constructor|done]. injection He as -> ->.
    rewrite Hp. by apply item_map_lookup.
  - destruct (pick n f) as [it|] eqn:Hp; [|cbn; by rewrite lookup_empty].
    intros Hin. exists n, it. split; [done|]. apply item_map_lookup in Hin; [done..|by eapply pick_wf].
Qed.

(** ** Differences *)

Definition changed (a b : gmap WorkspacePath ManifestEntry) : gset WorkspacePath :=
  filter (λ p, a !! p ≠ b !! p) (dom a ∪ dom b).

Lemma elem_of_changed a b p : p ∈ changed a b ↔ a !! p ≠ b !! p.
Proof.
  unfold changed. rewrite elem_of_filter, elem_of_union, !elem_of_dom. split; [by intros [? _]|].
  intros Hne. split; [done|]. destruct (a !! p); [by left; eexists|]. destruct (b !! p); [by right; eexists|done].
Qed.

Lemma changed_refl a : changed a a = ∅.
Proof. apply set_eq. intros p. rewrite elem_of_changed. set_solver. Qed.

(** The difference of two directories, name by name. *)
Definition changed_at (l : list string) (fo fn : forest) (n : string) : gset WorkspacePath :=
  changed (item_map (l ++ [n])%list (pick n fo)) (item_map (l ++ [n])%list (pick n fn)).

Lemma changed_names l fo fn p : wf fo → wf fn → Forall segment l →
  p ∈ changed (rows l fo) (rows l fn) ↔
  ∃ n, (n ∈ names fo ∨ n ∈ names fn) ∧ p ∈ changed_at l fo fn n.
Proof.
  intros Ho Hn Hl. rewrite elem_of_changed.
  assert (∀ n it f e, wf f → pick n f = Some it → item_map (l ++ [n])%list (Some it) !! p = Some e →
    ∃ l', Forall segment (n :: l') ∧ p = join (l ++ n :: l')%list) as Hbelow.
  { intros n it f e Hf Hp Hin. pose proof (pick_wf _ _ _ Hf Hp). pose proof (pick_segment _ _ _ Hf Hp).
    apply item_map_lookup in Hin; [|done..]. by eapply item_rows_below. }
  assert (∀ n l', Forall segment (n :: l') → p = join (l ++ n :: l')%list →
    (rows l fo !! p ≠ rows l fn !! p ↔ p ∈ changed_at l fo fn n)) as Hat.
  { intros n l' Hs ->. unfold changed_at. by rewrite elem_of_changed, !rows_under. }
  split.
  - intros Hne.
    assert (∃ n l', Forall segment (n :: l') ∧ p = join (l ++ n :: l')%list) as (n & l' & Hs & Hp).
    { destruct (rows l fo !! p) as [e|] eqn:Eo.
      - apply rows_lookup in Eo; [|done..]. destruct (flat_below _ _ _ _ Ho Eo) as (n & l' & _ & ? & ?). eauto.
      - destruct (rows l fn !! p) as [e|] eqn:En; [|done].
        apply rows_lookup in En; [|done..]. destruct (flat_below _ _ _ _ Hn En) as (n & l' & _ & ? & ?). eauto. }
    pose proof (proj1 (Hat n l' Hs Hp) Hne) as Hc. exists n. split; [|done].
    unfold changed_at in Hc. rewrite elem_of_changed in Hc.
    destruct (pick n fo) eqn:Eo; [left; by eapply pick_names|].
    destruct (pick n fn) eqn:En; [right; by eapply pick_names|]. done.
  - intros (n & _ & Hc). pose proof Hc as Hc'. unfold changed_at in Hc'. rewrite elem_of_changed in Hc'.
    assert (∃ l', Forall segment (n :: l') ∧ p = join (l ++ n :: l')%list) as (l' & Hs & Hp).
    { destruct (item_map _ (pick n fo) !! p) as [e|] eqn:Eo.
      - destruct (pick n fo) as [it|] eqn:Ep; [by eapply (Hbelow n it fo)|]. cbn in Eo. by rewrite lookup_empty in Eo.
      - destruct (item_map _ (pick n fn) !! p) as [e|] eqn:En; [|done].
        destruct (pick n fn) as [it|] eqn:Ep; [by eapply (Hbelow n it fn)|]. cbn in En. by rewrite lookup_empty in En. }
    by apply (Hat n l').
Qed.

(** The paths of a directory and of an item. *)
Definition row_set (l : list (WorkspacePath * ManifestEntry)) : gset WorkspacePath := list_to_set l.*1.

Lemma row_set_app l1 l2 : row_set (l1 ++ l2)%list = row_set l1 ∪ row_set l2.
Proof. unfold row_set. by rewrite fmap_app, list_to_set_app_L. Qed.

Lemma elem_of_row_set l p : p ∈ row_set l ↔ ∃ e, (p, e) ∈ l.
Proof.
  unfold row_set. rewrite elem_of_list_to_set, list_elem_of_fmap. split.
  - intros ([q e] & -> & Hin). by exists e.
  - intros (e & Hin). by exists (p, e).
Qed.

(** A directory's item: its own entry, and the rows below. *)
Lemma rows_self l b : wf b → Forall segment l → rows l b !! join l = None.
Proof.
  intros Hw Hl. destruct (rows l b !! join l) as [e|] eqn:E; [|done]. exfalso.
  apply rows_lookup in E; [|done..]. destruct (flat_below _ _ _ _ Hw E) as (n & l' & _ & Hs & He).
  rewrite <-(app_nil_r l) in He at 1. by apply segments_app_inj in He.
Qed.

Lemma item_map_dir l n mode key b q : Forall segment l → segment n → wf b →
  item_map (l ++ [n])%list (Some (IDir mode key b)) !! q
  = if decide (q = join (l ++ [n])%list) then DirectoryEntry <$> mode else rows (l ++ [n])%list b !! q.
Proof.
  intros Hl Hn Hw. pose proof (segments_snoc l n Hl Hn) as Hln. apply option_eq. intros e.
  rewrite item_map_lookup by done. cbn. rewrite elem_of_app, <-rows_lookup by done.
  assert ((q, e) ∈ dir_rows (join (l ++ [n])%list) mode ↔ q = join (l ++ [n])%list ∧ DirectoryEntry <$> mode = Some e) as ->.
  { destruct mode; cbn; [rewrite list_elem_of_singleton|rewrite elem_of_nil]; naive_solver. }
  destruct (decide _) as [->|Hne]; [|naive_solver]. rewrite rows_self by done. naive_solver.
Qed.

Lemma item_map_leaf l e q :
  item_map l (Some (ILeaf e)) !! q = if decide (q = join l) then Some e else None.
Proof.
  cbn. destruct (decide (q = join l)) as [->|Hne]; [by rewrite lookup_insert_eq|].
  by rewrite lookup_insert_ne, lookup_empty by congruence.
Qed.

Lemma changed_dirs l n mo ko bo mn kn bn : Forall segment l → segment n → wf bo → wf bn →
  changed (item_map (l ++ [n])%list (Some (IDir mo ko bo))) (item_map (l ++ [n])%list (Some (IDir mn kn bn)))
  = (if decide (mo = mn) then ∅ else {[join (l ++ [n])%list]})
    ∪ changed (rows (l ++ [n])%list bo) (rows (l ++ [n])%list bn).
Proof.
  intros Hl Hn Ho Hw. pose proof (segments_snoc l n Hl Hn) as Hln. apply set_eq. intros q.
  rewrite elem_of_union, !elem_of_changed, !item_map_dir by done. destruct (decide (q = _)) as [->|Hne].
  - rewrite !rows_self by done. destruct (decide (mo = mn)) as [->|Hne]; [set_solver|].
    rewrite elem_of_singleton. split; [by left|]. intros _. destruct mo, mn; cbn; congruence.
  - destruct (decide (mo = mn)); set_solver.
Qed.

Lemma changed_sym a b : changed a b = changed b a.
Proof. apply set_eq. intros p. rewrite !elem_of_changed. naive_solver. Qed.

Lemma changed_gone l n it : Forall segment l → segment n → item_wf it →
  changed (item_map (l ++ [n])%list (Some it)) (item_map (l ++ [n])%list None)
  = row_set (item_rows (l ++ [n])%list it).
Proof.
  intros Hl Hn Hw. apply set_eq. intros q. rewrite elem_of_changed, elem_of_row_set.
  setoid_rewrite <-(item_map_lookup l n); [|done..]. cbn [item_map]. rewrite lookup_empty.
  destruct (list_to_map _ !! q) as [e|]; [|naive_solver]. split; [by exists e|done].
Qed.

Lemma item_entry_inj (S : ManifestKey → TreeNode → Prop) n io jn :
  (∀ key n1 n2, S key n1 → S key n2 → n1 = n2) →
  item_wf io → item_wf jn → item_backed S io → item_backed S jn →
  te_payload (item_entry n io) = te_payload (item_entry n jn) → io = jn.
Proof.
  intros Hfun Ho Hn Hbo Hbn.
  destruct io as [[]|[] ko bo], jn as [[]|[] kn bn]; cbn in *; try done; try (by destruct Ho); try (by destruct Hn);
    intros He; injection He as <-; subst; f_equal; by eapply carries_inj.
Qed.

(** Items that are not two directories share no row. *)
Lemma changed_kinds l n io jn : Forall segment l → segment n → item_wf io → item_wf jn →
  te_payload (item_entry n io) ≠ te_payload (item_entry n jn) →
  (∀ mo ko bo mn kn bn, io = IDir mo ko bo → jn = IDir mn kn bn → False) →
  changed (item_map (l ++ [n])%list (Some io)) (item_map (l ++ [n])%list (Some jn))
  = row_set (item_rows (l ++ [n])%list io) ∪ row_set (item_rows (l ++ [n])%list jn).
Proof.
  intros Hl Hn Ho Hw Hpay Hdirs. pose proof (segments_snoc l n Hl Hn) as Hln. apply set_eq. intros q.
  rewrite elem_of_changed, elem_of_union, !elem_of_row_set.
  setoid_rewrite <-(item_map_lookup l n); [|done..]. split.
  - intros Hne. destruct (item_map _ (Some io) !! q) as [e|]; [left; by exists e|].
    destruct (item_map _ (Some jn) !! q) as [e|]; [right; by exists e|done].
  - destruct io as [e|mo ko bo], jn as [e'|mn kn bn]; [| | |by destruct (Hdirs mo ko bo mn kn bn)];
      rewrite ?item_map_leaf, ?item_map_dir by done; destruct (decide (q = _)) as [->|Hne].
    + intros _ [= ->]. done.
    + intros [[? ?]|[? ?]]; done.
    + intros _. destruct mn; cbn; [|done]. intros [= ->]. done.
    + intros [[? ?]|[? ->]]; done.
    + intros _. destruct mo; cbn; [|done]. intros [= <-]. done.
    + intros [[? ->]|[? ?]]; done.
Qed.

(** ** Effects of the differ *)

Section Effects.
Context {Obj : Type} `{Blake3} `{NodeCodec} `{Envelope} `{RemoteObjects Obj}.
Context (objects : Obj) (crypto : WorkspaceCrypto) (limits : DecodeLimits) (fold : string → string).
(** The new manifest. *)
Context (N : gmap WorkspacePath ManifestEntry).

Local Abbreviation stores := (opens objects crypto limits).

(** The cache holds opened nodes, and everything collected is of the new manifest. *)
Record fine (d : TreeDiffer) : Prop := {
  fi_opened key o : di_opened d !! key = Some o → stores key (ot_node o);
  fi_entries : di_entries d ⊆ N;
  fi_collisions : di_collision_entries d ⊆ N;
  fi_folded k p : p ∈ default [] (di_folded d !! k) → di_collision_entries d !! p = N !! p;
  fi_fold k p : p ∈ default [] (di_folded d !! k) → fold p = k;
}.

(** A computation that touches [T] and takes the new entries at [E]. *)
Definition effect {A} (c : DM A) (P : A → Prop) (T E : gset WorkspacePath) : Prop :=
  ∀ d a d', fine d → c d = (Ok a, d') →
    P a ∧ fine d' ∧ di_touched d' = di_touched d ∪ T ∧ di_entries d' = di_entries d ∪ on N E.

Lemma effect_ret {A} (a : A) (P : A → Prop) : P a → effect (mret a) P ∅ ∅.
Proof.
  intros Hp d a' d' Hf [= <- <-]. rewrite on_empty. split_and!; [done..|set_solver|by rewrite (right_id_L ∅ _)].
Qed.

Lemma effect_bind {A B} (c : DM A) (f : A → DM B) P Q T1 E1 T2 E2 :
  effect c P T1 E1 → (∀ a, P a → effect (f a) Q T2 E2) → effect (c ≫= f) Q (T1 ∪ T2) (E1 ∪ E2).
Proof.
  intros Hc Hf d b d' Hd. rewrite bind_run. destruct (c d) as [[a|] d1] eqn:E; [|done].
  destruct (Hc _ _ _ Hd E) as (Pa & Hd1 & T1' & E1'). intros Hb.
  destruct (Hf a Pa _ _ _ Hd1 Hb) as (Qb & Hd2 & T2' & E2'). split_and!; [done..| |].
  - rewrite T2', T1'. set_solver.
  - rewrite E2', E1', on_union. by rewrite (assoc_L (∪)).
Qed.

Lemma effect_eq {A} (c : DM A) P T E T' E' :
  effect c P T E → T = T' → on N E = on N E' → effect c P T' E'.
Proof. intros Hc -> HE d a d' Hd Hr. destruct (Hc _ _ _ Hd Hr) as (? & ? & ? & ?). by rewrite <-HE. Qed.

Lemma effect_seq {A} (c : DM unit) (f : DM A) P Q T1 E1 T2 E2 :
  effect c P T1 E1 → effect f Q T2 E2 → effect (c ;; f) Q (T1 ∪ T2) (E1 ∪ E2).
Proof. intros Hc Hf. by eapply effect_bind; [done|intros a _]. Qed.

Lemma effect_quiet {A B} (c : DM A) (f : A → DM B) P Q T E :
  effect c P ∅ ∅ → (∀ a, P a → effect (f a) Q T E) → effect (c ≫= f) Q T E.
Proof.
  intros Hc Hf. eapply effect_eq; [by eapply effect_bind|by rewrite (left_id_L ∅ (∪))|by rewrite (left_id_L ∅ (∪))].
Qed.

(** Computations that change neither the collected paths nor the collisions. *)
Definition frame (d d' : TreeDiffer) : Prop :=
  di_entries d' = di_entries d ∧ di_touched d' = di_touched d ∧ di_folded d' = di_folded d ∧
  di_collision_entries d' = di_collision_entries d.

Lemma effect_frame {A} (c : DM A) (P : A → Prop) :
  (∀ d a d', fine d → c d = (Ok a, d') → P a ∧ frame d d' ∧
     (∀ key o, di_opened d' !! key = Some o → stores key (ot_node o))) →
  effect c P ∅ ∅.
Proof.
  intros Hc d a d' Hd Hr. destruct (Hc _ _ _ Hd Hr) as (Pa & (E1 & E2 & E3 & E4) & Ho).
  destruct Hd as [F1 F2 F3 F4 F5]. rewrite E1, E2, on_empty. split_and!; [done| |set_solver|by rewrite (right_id_L ∅ _)].
  constructor; [done|by rewrite E1|by rewrite E4|intros k p; rewrite E3, E4; apply F4|by rewrite E3].
Qed.

Lemma charge_side_frame side n d d' : charge_side limits side n d = (Ok tt, d') →
  frame d d' ∧ di_opened d' = di_opened d.
Proof. unfold charge_side. destruct (charge _ _ _ _) as [[[]|] b]; [|done]. by intros [= <-]. Qed.

Lemma open_effect key side cached : effect (diff_open_node objects crypto limits key side cached) (stores key) ∅ ∅.
Proof.
  apply effect_frame. intros d node d' Hd. unfold diff_open_node. rewrite bind_run. cbn.
  destruct (di_opened d !! key) as [o|] eqn:Eo.
  - pose proof (fi_opened d Hd key o Eo) as Hs. rewrite bind_run. destruct cached.
    + destruct (charge_side _ _ _ _) as [[[]|] d1] eqn:Ec; [|done]. intros [= <- <-].
      apply charge_side_frame in Ec as [Hf Ho]. split_and!; [done|done|]. rewrite Ho. apply (fi_opened d Hd).
    + intros [= <- <-]. split_and!; [done|done|]. apply (fi_opened d Hd).
  - rewrite bind_run. unfold opens, opened.
    destruct (get_manifest objects key) as [sealed|] eqn:Eg; [|done]. cbn. rewrite bind_run. unfold bail_if.
    destruct (negb _) eqn:Eneg; [done|]. cbn. rewrite bind_run.
    destruct (open_tree_node crypto sealed limits) as [[plaintext epoch]|] eqn:Et; [|done]. cbn. rewrite bind_run.
    destruct (charge_side _ _ _ _) as [[[]|] d1] eqn:Ec; [|done]. rewrite bind_run.
    destruct (decode_node plaintext epoch limits) as [nd|] eqn:En; [|done]. cbn. intros [= <- <-].
    apply charge_side_frame in Ec as [Hf Ho]. split_and!; [by eexists|done|].
    cbn. rewrite Ho. intros key' o'. destruct (decide (key' = key)) as [->|Hne].
    + rewrite lookup_insert_eq. intros [= <-]. cbn. exists (str_len plaintext). by rewrite Eg, Eneg, Et, En.
    + rewrite lookup_insert_ne by done. apply (fi_opened d Hd).
Qed.

Lemma each_effect {A} (l : list A) (f : A → DM unit) (T E : A → gset WorkspacePath) :
  (∀ a, a ∈ l → effect (f a) (λ _, True) (T a) (E a)) →
  effect (each l f) (λ _, True) (⋃ (T <$> l)) (⋃ (E <$> l)).
Proof.
  induction l as [|a l IH]; intros Hf; [by apply effect_ret|]. cbn [each fmap list_fmap union_list].
  eapply effect_seq; [apply Hf; by left|apply IH]. intros b Hb. apply Hf. by right.
Qed.

Lemma each_empty {A} (l : list A) (f : A → DM unit) :
  (∀ a, a ∈ l → effect (f a) (λ _, True) ∅ ∅) → effect (each l f) (λ _, True) ∅ ∅.
Proof.
  intros Hf. eapply effect_eq; [by apply (each_effect l f (λ _, ∅) (λ _, ∅))|..];
    [|f_equal]; clear; induction l; cbn; set_solver.
Qed.

Lemma count_node_effect node new_tree : effect (count_node limits node new_tree) (λ _, True) ∅ ∅.
Proof.
  unfold count_node. eapply effect_quiet with (P := λ _, True); [|intros _ _].
  { apply effect_frame. intros d a d' Hd [= <- <-]. split_and!; [done..|apply (fi_opened d Hd)]. }
  eapply effect_quiet with (P := λ _, True); [|intros d0 _].
  { apply effect_frame. intros d a d' Hd [= <- <-]. split_and!; [done..|apply (fi_opened d Hd)]. }
  eapply effect_quiet with (P := λ _, True); [|intros _ _].
  { apply effect_frame. intros d a d' Hd. unfold bail_if. destruct (_ <? _); [done|]. intros [= <- <-].
    split_and!; [done..|apply (fi_opened d Hd)]. }
  destruct new_tree; [|by apply effect_ret]. apply each_empty. intros entry _.
  unfold count_file. destruct (te_payload entry); try by apply effect_ret.
  apply effect_frame. intros d a d' Hd. rewrite bind_run. cbn. rewrite bind_run. unfold ok_or.
  destruct (option_filter _ _); [|done]. intros [= <- <-]. split_and!; [done..|apply (fi_opened d Hd)].
Qed.

Lemma touch_effect p : effect (touch p) (λ _, True) {[p]} ∅.
Proof.
  intros d a d' [F1 F2 F3 F4 F5] [= <- <-]. rewrite on_empty. split_and!; [done|by constructor|cbn; set_solver|].
  by rewrite (right_id_L ∅ _).
Qed.

Lemma emit_effect p e : N !! p = Some e → effect (diff_emit limits p e) (λ _, True) {[p]} {[p]}.
Proof.
  intros Hp d a d' [F1 F2 F3 F4 F5]. unfold diff_emit. rewrite bind_run.
  destruct (validate_manifest_path p limits) as [[]|]; [|done]. cbn. intros [= <- <-]. cbn.
  rewrite <-(insert_on N _ p e) by done. split_and!; [done| |set_solver|done].
  constructor; cbn; [done| |done..]. by apply insert_subseteq_l.
Qed.

(** ** The walks *)

(** Below [l], the new manifest is the directory [f]. *)
Definition sees (l : list string) (f : forest) : Prop :=
  ∀ l', l' ≠ [] → Forall segment l' → N !! join (l ++ l')%list = rows l f !! join (l ++ l')%list.

(** The new manifest at an item: its own entry, and what is below. *)
Lemma sees_item l f n it : wf f → Forall segment l → sees l f → pick n f = Some it →
  N !! join (l ++ [n])%list = visible_entry (te_payload (item_entry n it)) ∧
  match it with ILeaf _ => True | IDir _ _ b => sees (l ++ [n])%list b end.
Proof.
  intros Hwf Hl Hsee Hp. pose proof (pick_wf _ _ _ Hwf Hp) as Hw.
  pose proof (pick_segment _ _ _ Hwf Hp) as Hn. pose proof (segments_snoc l n Hl Hn) as Hln.
  rewrite visible_item by done. split.
  - rewrite (Hsee [n]); [|done|by apply Forall_singleton]. rewrite rows_under by (done || by apply Forall_singleton).
    rewrite Hp. apply option_eq. intros e. rewrite item_map_lookup by done.
    destruct it as [en|mode key b]; cbn.
    + rewrite list_elem_of_singleton. naive_solver.
    + rewrite elem_of_app. split.
      * intros [Hin|Hin].
        -- destruct mode; cbn in Hin; [|by apply not_elem_of_nil in Hin].
           by apply list_elem_of_singleton in Hin as [= ->].
        -- exfalso. destruct (flat_below _ _ _ _ Hw Hin) as (n' & l' & _ & Hs & He).
           rewrite <-(app_nil_r (l ++ [n])%list) in He at 1. by apply segments_app_inj in He.
      * destruct mode; [|done]. intros [= <-]. left. by left.
  - destruct it as [en|mode key b]; [done|]. intros l' Hne Hs.
    replace ((l ++ [n]) ++ l')%list with (l ++ n :: l')%list by (by rewrite <-(assoc_L (++))).
    rewrite (Hsee (n :: l')); [|done|by constructor].
    rewrite rows_under by (done || by constructor). rewrite Hp. apply option_eq. intros e.
    rewrite item_map_lookup, rows_lookup by done. cbn. rewrite elem_of_app. split; [|by right].
    intros [Hin|]; [|done]. exfalso. destruct mode; cbn in Hin; [|by apply not_elem_of_nil in Hin].
    apply list_elem_of_singleton in Hin as [= He _]. apply segments_app_inj in He;
      [|done|by constructor|by apply Forall_singleton]. by injection He as ->.
Qed.

Lemma collision_effect l f entries : wf f → Forall segment l → sees l f →
  (∀ entry, entry ∈ entries → ∃ it, pick (te_name entry) f = Some it ∧ entry = item_entry (te_name entry) it) →
  effect (record_collisions limits fold (join l) entries) (λ _, True) ∅ ∅.
Proof.
  intros Hwf Hl Hsee Hes. apply each_empty. intros entry Hin.
  destruct (Hes entry Hin) as (it & Hp & He). rewrite dir_child_join by done.
  destruct (sees_item _ _ _ _ Hwf Hl Hsee Hp) as [HN _]. rewrite <-He in HN.
  set (p := join (l ++ [te_name entry])%list) in *. intros d a d' [F1 F2 F3 F4 F5]. rewrite bind_run.
  destruct (validate_manifest_path p limits) as [[]|]; [|done]. cbn. rewrite bind_run. cbn.
  assert (∀ ce : gmap WorkspacePath ManifestEntry, ce !! p = N !! p → (∀ q, q ≠ p → ce !! q = di_collision_entries d !! q) →
    ∀ k q, q ∈ default [] (push_folded (fold p) p (di_folded d) !! k) → ce !! q = N !! q) as Hfold.
  { intros ce Hcp Hcq k q. unfold push_folded. destruct (decide (q = p)) as [->|Hne]; [done|].
    destruct (decide (k = fold p)) as [->|Hk].
    - rewrite lookup_insert_eq. cbn. rewrite elem_of_app, list_elem_of_singleton.
      intros [Hq|]; [|done]. rewrite Hcq by done. by eapply F4.
    - rewrite lookup_insert_ne by done. intros Hq. rewrite Hcq by done. by eapply F4. }
  assert (∀ k q, q ∈ default [] (push_folded (fold p) p (di_folded d) !! k) → fold q = k) as Hkey.
  { intros k q. unfold push_folded. destruct (decide (k = fold p)) as [->|Hk].
    - rewrite lookup_insert_eq. cbn. rewrite elem_of_app, list_elem_of_singleton. intros [Hq| ->]; [by apply F5|done].
    - rewrite lookup_insert_ne by done. apply F5. }
  rewrite on_empty. destruct (visible_entry (te_payload entry)) as [e|] eqn:Ev.
  - intros [= <- <-]. destruct (di_collision_entries d !! p) as [e'|] eqn:Ec; cbn.
    + split_and!; [done| |cbn; set_solver|by rewrite (right_id_L ∅ _)].
      constructor; cbn; [done..| |done]. apply Hfold; [|done]. rewrite HN, Ec. f_equal.
      pose proof (lookup_weaken _ _ _ _ Ec F3) as Hx. rewrite HN in Hx. by injection Hx.
    + split_and!; [done| |cbn; set_solver|by rewrite (right_id_L ∅ _)].
      constructor; cbn; [done|done|by apply insert_subseteq_l| |done].
      apply Hfold; [by rewrite lookup_insert_eq|intros q Hq; by rewrite lookup_insert_ne].
  - intros [= <- <-]. split_and!; [done| |cbn; set_solver|by rewrite (right_id_L ∅ _)].
    constructor; cbn; [done..| |done]. apply Hfold; [|done]. rewrite HN.
    destruct (di_collision_entries d !! p) as [e'|] eqn:Ec; [|done].
    pose proof (lookup_weaken _ _ _ _ Ec F3). congruence.
Qed.

Definition taken (adding : bool) (T : gset WorkspacePath) : gset WorkspacePath :=
  if adding then T else ∅.

(** The items of a directory, as its node lists them. *)
Lemma entries_pick f entry : wf f → entry ∈ entries_of f →
  ∃ it, pick (te_name entry) f = Some it ∧ entry = item_entry (te_name entry) it.
Proof.
  induction f as [|n e r IHr|n mode key b _ r IHr]; cbn [wf entries_of]; [by intros _ ?%not_elem_of_nil|..];
    intros (_ & Hlt & _ & Hr) [->|Hin]%elem_of_cons; cbn [te_name leaf_entry pick].
  - rewrite String.eqb_refl. by eexists.
  - destruct (IHr Hr Hin) as (it & Hp & He). exists it. split; [|done].
    destruct (String.eqb_spec n (te_name entry)) as [->|]; [|done].
    apply pick_names in Hp. rewrite Forall_forall in Hlt. by destruct (irreflexivity str_lt _ (Hlt _ Hp)).
  - rewrite String.eqb_refl. by eexists.
  - destruct (IHr Hr Hin) as (it & Hp & He). exists it. split; [|done].
    destruct (String.eqb_spec n (te_name entry)) as [->|]; [|done].
    apply pick_names in Hp. rewrite Forall_forall in Hlt. by destruct (irreflexivity str_lt _ (Hlt _ Hp)).
Qed.

(** The paths of the item of a name. *)
Definition item_set (l : list string) (f : forest) (n : string) : gset WorkspacePath :=
  match pick n f with Some it => row_set (item_rows (l ++ [n])%list it) | None => ∅ end.

Lemma row_set_items l f : wf f →
  ⋃ (item_set l f ∘ te_name <$> entries_of f) = row_set (flat l f).
Proof.
  intros Hwf. apply set_eq. intros p. rewrite elem_of_union_list, elem_of_row_set. split.
  - intros (X & (entry & -> & Hin)%list_elem_of_fmap & Hp). unfold item_set in Hp. cbn in Hp.
    destruct (entries_pick _ _ Hwf Hin) as (it & Hpick & _). rewrite Hpick in Hp.
    apply elem_of_row_set in Hp as [e He]. exists e. apply flat_pick; [done|]. by exists (te_name entry), it.
  - intros (e & (n & it & Hpick & He)%flat_pick); [|done]. exists (item_set l f n). split.
    + apply list_elem_of_fmap. pose proof (pick_names _ _ _ Hpick) as Hn.
      rewrite <-te_names in Hn. apply list_elem_of_fmap in Hn as (entry & -> & Hin). by exists entry.
    + unfold item_set. rewrite Hpick. apply elem_of_row_set. by exists e.
Qed.

Lemma taken_items l f adding : wf f →
  ⋃ (taken adding ∘ item_set l f ∘ te_name <$> entries_of f) = taken adding (row_set (flat l f)).
Proof.
  intros Hwf. destruct adding; [by rewrite <-row_set_items|].
  clear Hwf. cbn. induction (entries_of f); cbn; set_solver.
Qed.

(** Visiting one item: its own path, and what is below. *)
Lemma visit_effect (adding : bool) l n it (go : DirPath → ManifestKey → DM unit) :
  item_wf it → (adding = true → N !! join (l ++ [n])%list = visible_entry (te_payload (item_entry n it))) →
  (∀ mode key b, it = IDir mode key b →
     effect (go (join (l ++ [n])%list) key) (λ _, True) (row_set (flat (l ++ [n])%list b))
       (taken adding (row_set (flat (l ++ [n])%list b)))) →
  effect ((if adding then
             match visible_entry (te_payload (item_entry n it)) with
             | Some visible => diff_emit limits (join (l ++ [n])%list) visible
             | None => mret tt
             end
           else if is_some (visible_entry (te_payload (item_entry n it))) then touch (join (l ++ [n])%list)
                else mret tt) ;;
          match payload_child (te_payload (item_entry n it)) with
          | Some node => go (join (l ++ [n])%list) node
          | None => mret tt
          end) (λ _, True) (row_set (item_rows (l ++ [n])%list it))
    (taken adding (row_set (item_rows (l ++ [n])%list it))).
Proof.
  intros Hw HN Hgo. rewrite visible_item, child_item by done. rewrite visible_item in HN by done.
  assert (∀ p T, taken adding ({[p]} ∪ T) = taken adding {[p]} ∪ taken adding T) as Htk
    by (intros; destruct adding; cbn; set_solver).
  assert (∀ e, (adding = true → N !! join (l ++ [n])%list = Some e) →
    effect (if adding then diff_emit limits (join (l ++ [n])%list) e else touch (join (l ++ [n])%list))
      (λ _, True) {[join (l ++ [n])%list]} (taken adding {[join (l ++ [n])%list]})) as Hown.
  { intros e He. destruct adding; [by apply emit_effect, He|apply touch_effect]. }
  destruct it as [e|mode key b].
  - eapply effect_eq; [eapply effect_seq; [|by apply effect_ret]|..].
    + cbn. specialize (Hown e HN). destruct adding; exact Hown.
    + unfold row_set. cbn. set_solver.
    + f_equal. unfold row_set, taken. destruct adding; cbn; set_solver.
  - destruct mode as [mode|]; cbn [item_rows dir_rows app].
    + eapply effect_eq; [eapply effect_seq; [|by eapply Hgo]|..].
      * specialize (Hown _ HN). destruct adding; exact Hown.
      * unfold row_set. cbn. done.
      * f_equal. unfold row_set, taken. destruct adding; cbn; set_solver.
    + eapply effect_quiet with (P := λ _, True); [|intros _ _; by eapply Hgo].
      destruct adding; by apply effect_ret.
Qed.

Lemma enumerate_effect adding room l key f :
  carries stores key f → wf f → Forall segment l → (adding = true → sees l f) →
  effect (enumerate objects crypto limits fold adding room (join l) key) (λ _, True)
    (row_set (flat l f)) (taken adding (row_set (flat l f))).
Proof.
  revert l key f. induction room as [|room IH]; intros l key f Hc Hwf Hl Hsee; [by intros d a d' _|].
  destruct Hc as [(node & Hs & He) Hb]. cbn [enumerate].
  eapply effect_quiet; [apply open_effect|intros node' Hs'].
  assert (node' = node) as -> by (by eapply (opens_fun objects crypto limits key)). clear Hs'. rewrite He.
  eapply effect_quiet; [apply count_node_effect|intros _ _].
  eapply effect_quiet with (P := λ _, True); [|intros _ _].
  { destruct adding; [|by apply effect_ret]. eapply collision_effect; [done..|by apply Hsee|].
    intros entry. by apply entries_pick. }
  eapply effect_eq;
    [apply (each_effect _ _ (item_set l f ∘ te_name) (taken adding ∘ item_set l f ∘ te_name))
    |by apply row_set_items|by rewrite taken_items].
  intros entry Hin. destruct (entries_pick _ _ Hwf Hin) as (it & Hp & Hen).
  pose proof (pick_segment _ _ _ Hwf Hp) as Hn. pose proof (pick_wf _ _ _ Hwf Hp) as Hw.
  pose proof (pick_backed _ _ _ _ Hb Hp) as Hbk.
  cbn. unfold item_set. rewrite Hp. unfold enumerate_entry. rewrite dir_child_join, Hen by done. cbn [te_name].
  replace (te_name (item_entry (te_name entry) it)) with (te_name entry) by (by rewrite <-Hen).
  apply visit_effect; [done|intros Ha; apply (sees_item _ _ _ _ Hwf Hl (Hsee Ha) Hp)|].
  intros mode key' b ->. apply IH; [done..|by apply segments_snoc|].
  intros Ha. apply (sees_item _ _ _ _ Hwf Hl (Hsee Ha) Hp).
Qed.

Lemma add_effect room l n f it : wf f → Forall segment l → sees l f → backed stores f → pick n f = Some it →
  effect (add_entry objects crypto limits fold room (join (l ++ [n])%list) (item_entry n it)) (λ _, True)
    (row_set (item_rows (l ++ [n])%list it)) (row_set (item_rows (l ++ [n])%list it)).
Proof.
  intros Hwf Hl Hsee Hb Hp. pose proof (pick_segment _ _ _ Hwf Hp). pose proof (pick_wf _ _ _ Hwf Hp).
  pose proof (pick_backed _ _ _ _ Hb Hp) as Hbk. destruct (sees_item _ _ _ _ Hwf Hl Hsee Hp) as [HN Hbelow].
  apply (visit_effect true l n it (enumerate objects crypto limits fold true room)); [done..|].
  intros mode key b ->. apply (enumerate_effect true); [done..|by apply segments_snoc|done].
Qed.

Lemma remove_effect room l n f it : wf f → Forall segment l → backed stores f → pick n f = Some it →
  effect (remove_entry objects crypto limits fold room (join (l ++ [n])%list) (item_entry n it)) (λ _, True)
    (row_set (item_rows (l ++ [n])%list it)) ∅.
Proof.
  intros Hwf Hl Hb Hp. pose proof (pick_segment _ _ _ Hwf Hp). pose proof (pick_wf _ _ _ Hwf Hp).
  pose proof (pick_backed _ _ _ _ Hb Hp) as Hbk.
  apply (visit_effect false l n it (enumerate objects crypto limits fold false room)); [done..|].
  intros mode key b ->. apply (enumerate_effect false); [done..|by apply segments_snoc|done].
Qed.

(** Under a name, the new manifest is the item of that name. *)
Lemma sees_under l f n l' : wf f → Forall segment l → sees l f → Forall segment (n :: l') →
  N !! join (l ++ n :: l')%list = item_map (l ++ [n])%list (pick n f) !! join (l ++ n :: l')%list.
Proof. intros Hwf Hl Hsee Hs. rewrite Hsee by done. by apply rows_under. Qed.

(** Removed rows have no entry to take. *)
Lemma on_removed l fo fn n io : wf fo → wf fn → Forall segment l → sees l fn → pick n fo = Some io →
  on N (row_set (item_rows (l ++ [n])%list io) ∪ item_set l fn n) = on N (item_set l fn n).
Proof.
  intros Ho Hf Hl Hsee Hp. pose proof (pick_segment _ _ _ Ho Hp) as Hn.
  apply map_eq. intros q. rewrite !on_lookup.
  destruct (decide (q ∈ item_set l fn n)) as [Hin|Hni]; [by rewrite decide_True by set_solver|].
  destruct (decide _) as [Hq|]; [|done]. assert (q ∈ row_set (item_rows (l ++ [n])%list io)) as Hq' by set_solver.
  apply elem_of_row_set in Hq' as [e He].
  destruct (item_rows_below _ _ _ _ _ (pick_wf _ _ _ Ho Hp) Hn He) as (l' & Hs & ->).
  rewrite (sees_under l fn) by done. unfold item_set in Hni. destruct (pick n fn) as [it|] eqn:Hpn; [|done].
  destruct (item_map _ _ !! _) as [e'|] eqn:E; [|done]. exfalso. apply Hni.
  apply item_map_lookup in E; [|done..|by eapply pick_wf]. apply elem_of_row_set. by exists e'.
Qed.

(** The recursive call on two directories below [l]. *)
Definition compares (go : DirPath → ManifestKey → ManifestKey → DM unit) (l : list string) : Prop :=
  ∀ ko bo kn bn, carries stores ko bo → carries stores kn bn → wf bo → wf bn → sees l bn →
    effect (go (join l) ko kn) (λ _, True) (changed (rows l bo) (rows l bn)) (changed (rows l bo) (rows l bn)).

Lemma compare_dirs_effect go l n fn mo ko bo mn kn bn : wf fn → Forall segment l → sees l fn → backed stores fn →
  carries stores ko bo → wf bo → pick n fn = Some (IDir mn kn bn) → compares go (l ++ [n])%list →
  effect ((if bool_decide (mo = mn) then mret tt
           else match mn with Some m => diff_emit limits (join (l ++ [n])%list) (DirectoryEntry m)
                            | None => touch (join (l ++ [n])%list) end) ;;
          go (join (l ++ [n])%list) ko kn) (λ _, True)
    (changed (item_map (l ++ [n])%list (Some (IDir mo ko bo))) (item_map (l ++ [n])%list (Some (IDir mn kn bn))))
    (changed (item_map (l ++ [n])%list (Some (IDir mo ko bo))) (item_map (l ++ [n])%list (Some (IDir mn kn bn)))).
Proof.
  intros Hf Hl Hsee Hb Hco Hwo Hp Hgo.
  pose proof (pick_segment _ _ _ Hf Hp) as Hn. pose proof (pick_wf _ _ _ Hf Hp) as Hwn.
  pose proof (pick_backed _ _ _ _ Hb Hp) as Hcn. destruct (sees_item _ _ _ _ Hf Hl Hsee Hp) as [HN Hbelow].
  rewrite changed_dirs by done. eapply effect_eq; [eapply effect_seq with (P := λ _, True); [|by apply (Hgo ko bo kn bn)]|reflexivity|reflexivity].
  case_bool_decide as Hm; [rewrite decide_True by done; by apply effect_ret|rewrite decide_False by done].
  rewrite visible_item in HN by done. destruct mn as [m|]; [by apply emit_effect|].
  eapply effect_eq; [apply touch_effect|done|]. by rewrite on_empty, on_absent.
Qed.

Lemma compare_entry_effect go room l n fo fn io jn : wf fo → wf fn → Forall segment l → sees l fn →
  backed stores fo → backed stores fn → pick n fo = Some io → pick n fn = Some jn →
  te_payload (item_entry n io) ≠ te_payload (item_entry n jn) → compares go (l ++ [n])%list →
  effect (compare_entry objects crypto limits fold go room (join (l ++ [n])%list) (item_entry n io) (item_entry n jn))
    (λ _, True) (changed (item_map (l ++ [n])%list (Some io)) (item_map (l ++ [n])%list (Some jn)))
    (changed (item_map (l ++ [n])%list (Some io)) (item_map (l ++ [n])%list (Some jn))).
Proof.
  intros Ho Hf Hl Hsee Hbo Hbn Hpo Hpn Hpay Hgo.
  pose proof (pick_segment _ _ _ Ho Hpo) as Hn. pose proof (pick_wf _ _ _ Ho Hpo) as Hwo.
  pose proof (pick_wf _ _ _ Hf Hpn) as Hwn. pose proof (pick_backed _ _ _ _ Hbo Hpo) as Hco.
  assert ((∃ mo ko bo mn kn bn, io = IDir mo ko bo ∧ jn = IDir mn kn bn) ∨
          (∀ mo ko bo mn kn bn, io = IDir mo ko bo → jn = IDir mn kn bn → False)) as [Hd|Hd]
    by (destruct io, jn; naive_solver).
  - destruct Hd as (mo & ko & bo & mn & kn & bn & -> & ->).
    pose proof (compare_dirs_effect go l n fn mo ko bo mn kn bn Hf Hl Hsee Hbn Hco Hwo Hpn Hgo) as He.
    destruct mo as [m|], mn as [m'|]; cbn in He |- *; try exact He.
    case_bool_decide; [replace (m =? m') with true by (symmetry; apply Z.eqb_eq; congruence); exact He|].
    replace (m =? m') with false by (symmetry; apply Z.eqb_neq; congruence). exact He.
  - rewrite changed_kinds by done.
    assert (compare_entry objects crypto limits fold go room (join (l ++ [n])%list) (item_entry n io) (item_entry n jn)
      = (remove_entry objects crypto limits fold room (join (l ++ [n])%list) (item_entry n io) ;;
         add_entry objects crypto limits fold room (join (l ++ [n])%list) (item_entry n jn))) as ->.
    { destruct io as [[]|[]], jn as [[]|[]]; try done; try (by destruct Hwo); try (by destruct Hwn);
        exfalso; by eapply Hd. }
    eapply effect_eq; [eapply effect_seq; [by apply (remove_effect room l n fo io)|by apply (add_effect room l n fn jn)]|done|].
    pose proof (on_removed l fo fn n io Ho Hf Hl Hsee Hpo) as Hr. unfold item_set in Hr. rewrite Hpn in Hr.
    by rewrite Hr, (left_id_L ∅ (∪)).
Qed.

(** One name of two directories; [go] is the recursive call. *)
Lemma compare_name_effect (go : DirPath → ManifestKey → ManifestKey → DM unit) room l n fo fn nodeo noden :
  wf fo → wf fn → Forall segment l → sees l fn → backed stores fo → backed stores fn →
  tn_entries nodeo = entries_of fo → tn_entries noden = entries_of fn →
  (segment n → compares go (l ++ [n])%list) →
  effect (compare_name objects crypto limits fold go room (join l) (entries_by_name nodeo) (entries_by_name noden) n)
    (λ _, True) (changed_at l fo fn n) (changed_at l fo fn n).
Proof.
  intros Ho Hf Hl Hsee Hbo Hbn Heo Hen Hgo. unfold compare_name, changed_at.
  rewrite (entries_by_name_pick nodeo fo), (entries_by_name_pick noden fn), dir_child_join by done.
  destruct (pick n fo) as [io|] eqn:Hpo, (pick n fn) as [jn|] eqn:Hpn; cbn [fmap option_fmap option_map].
  - case_bool_decide as Hpay.
    + assert (io = jn) as <-.
      { pose proof (pick_wf _ _ _ Ho Hpo) as Hwo. pose proof (pick_wf _ _ _ Hf Hpn) as Hwn.
        pose proof (pick_backed _ _ _ _ Hbo Hpo) as Hco. pose proof (pick_backed _ _ _ _ Hbn Hpn) as Hcn.
        by apply (item_entry_inj stores n); [apply opens_fun|..]. }
      rewrite changed_refl. by apply effect_ret.
    + apply (compare_entry_effect go room l n fo fn); try done. by eapply Hgo, pick_segment.
  - rewrite changed_gone by (done || apply (pick_segment n fo io Ho Hpo) || apply (pick_wf n fo io Ho Hpo)).
    eapply effect_eq; [by apply (remove_effect room l n fo io)|done|].
    pose proof (on_removed l fo fn n io Ho Hf Hl Hsee Hpo) as Hr. unfold item_set in Hr. rewrite Hpn in Hr.
    by rewrite (right_id_L ∅ (∪)) in Hr.
  - rewrite changed_sym, changed_gone by (done || apply (pick_segment n fn jn Hf Hpn) || apply (pick_wf n fn jn Hf Hpn)).
    by apply (add_effect room l n fn jn).
  - rewrite changed_refl. by apply effect_ret.
Qed.

Lemma pick_of_name n f : n ∈ names f → is_Some (pick n f).
Proof.
  induction f as [|n' e r IHr|n' mode key b _ r IHr]; cbn; [by intros ?%not_elem_of_nil|..];
    intros [->|Hin]%elem_of_cons; rewrite ?String.eqb_refl; try (by eexists);
    destruct (n' =? n)%string; eauto.
Qed.

(** The names of two directories, as the comparison visits them. *)
Lemma changed_union l fo fn nodeo noden : wf fo → wf fn → Forall segment l →
  tn_entries nodeo = entries_of fo → tn_entries noden = entries_of fn →
  ⋃ (changed_at l fo fn <$>
       merge_sort str_le (elements (dom (entries_by_name nodeo) ∪ dom (entries_by_name noden))))
  = changed (rows l fo) (rows l fn).
Proof.
  intros Ho Hf Hl Heo Hen. apply set_eq. intros p. rewrite elem_of_union_list, changed_names by done.
  assert (∀ n, n ∈ merge_sort str_le (elements (dom (entries_by_name nodeo) ∪ dom (entries_by_name noden))) ↔
    n ∈ names fo ∨ n ∈ names fn) as Hin.
  { intros n. rewrite merge_sort_Permutation, elem_of_elements, elem_of_union, !elem_of_dom.
    rewrite (entries_by_name_pick nodeo fo), (entries_by_name_pick noden fn), !fmap_is_Some by done.
    split; (intros [[? ?]|[? ?]] || intros [?|?]); eauto using pick_names, pick_of_name. }
  split.
  - intros (X & (n & -> & Hn%Hin)%list_elem_of_fmap & Hp). by exists n.
  - intros (n & Hn%Hin & Hp). exists (changed_at l fo fn n). split; [|done]. by apply list_elem_of_fmap_2.
Qed.

Lemma compare_effect room l : Forall segment l → compares (compare objects crypto limits fold room) l.
Proof.
  revert l. induction room as [|room IH]; intros l Hl ko fo kn fn Hco Hcn Ho Hf Hsee; cbn [compare];
    (destruct (String.eqb_spec ko kn) as [<-|Hne];
     [assert (fo = fn) as -> by (by eapply (carries_inj stores ko); [apply opens_fun|..]);
      rewrite changed_refl; by apply effect_ret|]); [by intros d a d' _|].
  destruct Hco as [(nodeo & Hso & Heo) Hbo], Hcn as [(noden & Hsn & Hen) Hbn].
  eapply effect_quiet; [apply open_effect|intros no Hno].
  assert (no = nodeo) as -> by (by eapply (opens_fun objects crypto limits ko)). clear Hno.
  eapply effect_quiet; [apply count_node_effect|intros _ _].
  eapply effect_quiet; [apply open_effect|intros nn Hnn].
  assert (nn = noden) as -> by (by eapply (opens_fun objects crypto limits kn)). clear Hnn.
  eapply effect_quiet; [apply count_node_effect|intros _ _]. cbv zeta.
  eapply effect_quiet; [eapply (collision_effect l fn); [done..|]|intros _ _].
  { intros entry ([n e] & -> & Hin%elem_of_btree_iter)%list_elem_of_fmap. cbn.
    rewrite (entries_by_name_pick noden fn) in Hin by done.
    apply fmap_Some in Hin as (it & Hp & ->). exists it. by destruct it. }
  eapply effect_eq; [apply (each_effect _ _ (changed_at l fo fn) (changed_at l fo fn))|apply changed_union|
    f_equal; apply changed_union]; try done.
  intros n _. apply compare_name_effect; try done. intros Hn. by apply IH, segments_snoc.
Qed.

(** *** Resolving one path *)

Lemma find_pick f c : wf f →
  List.find (λ entry, (te_name entry =? c)%string) (entries_of f) = item_entry c <$> pick c f.
Proof.
  induction f as [|n' e r IHr|n' mode key b _ r IHr]; cbn [wf]; [done|..]; intros (_ & _ & _ & Hr);
    cbn [entries_of List.find te_name leaf_entry pick]; (destruct (String.eqb_spec n' c) as [->|]; [done|by apply IHr]).
Qed.

Lemma effect_none {A} (a : A) p : N !! p = None → effect (mret a) (λ _, True) ∅ {[p]}.
Proof. intros Hp. eapply effect_eq; [by apply effect_ret|done|by rewrite on_empty, on_absent]. Qed.

Lemma resolve_effect comps l key f p : comps ≠ [] → carries stores key f → wf f → Forall segment l → sees l f →
  p = join (l ++ comps)%list → N !! p = None ∨ Forall segment comps →
  effect (resolve_from objects crypto limits key comps p) (λ _, True) ∅ {[p]}.
Proof.
  revert l key f. induction comps as [|c rest IH]; [done|].
  intros l key f _ [(node & Hs & He) Hb] Hwf Hl Hsee Hp Hseg. cbn [resolve_from].
  eapply effect_quiet; [apply open_effect|intros node' Hs'].
  assert (node' = node) as -> by (by eapply (opens_fun objects crypto limits key)). clear Hs'.
  rewrite He, find_pick by done.
  assert (∀ e, N !! p = Some e → item_map (l ++ [c])%list (pick c f) !! p = Some e) as Hunder.
  { intros e HNp. destruct Hseg as [Hseg|Hseg]; [congruence|]. rewrite <-HNp, Hp. symmetry. by apply sees_under. }
  destruct (pick c f) as [it|] eqn:Hpick; cbn [fmap option_fmap option_map].
  2:{ apply effect_none. destruct (N !! p) as [e|] eqn:E; [|done]. by specialize (Hunder e eq_refl). }
  pose proof (pick_wf _ _ _ Hwf Hpick) as Hw. pose proof (pick_segment _ _ _ Hwf Hpick) as Hc.
  pose proof (pick_backed _ _ _ _ Hb Hpick) as Hbk.
  destruct (sees_item _ _ _ _ Hwf Hl Hsee Hpick) as [HN Hbelow].
  destruct rest as [|c' rest].
  - rewrite <-Hp in HN. destruct (visible_entry _) as [e|]; [|by apply effect_none].
    intros d a d' [F1 F2 F3 F4 F5] [= <- <-]. cbn. rewrite <-(insert_on N _ p e) by done.
    split_and!; [done| |set_solver|done]. constructor; cbn; [done|by apply insert_subseteq_l|done..].
  - rewrite child_item by done. destruct it as [e|mode key' b].
    + apply effect_none. destruct (N !! p) as [e'|] eqn:E; [|done]. exfalso.
      pose proof (Hunder _ eq_refl) as Hx. rewrite item_map_leaf in Hx. destruct (decide _) as [Heq|]; [|done].
      destruct Hseg as [Hseg|Hseg]; [congruence|]. rewrite Hp in Heq.
      apply segments_app_inj in Heq; [done|done|done|by apply Forall_singleton].
    + apply (IH (l ++ [c])%list key' b); [done..|by apply segments_snoc|done| |].
      * by rewrite Hp, <-(assoc_L (++)).
      * destruct Hseg as [?|Hseg]; [by left|right]. by apply Forall_cons in Hseg as [_ ?].
Qed.

End Effects.

(** ** The delta *)

Lemma elem_of_dedup l x : x ∈ dedup l ↔ x ∈ l.
Proof.
  induction l as [|y l IH]; [done|]. cbn. destruct (dedup l) as [|z l']; [|destruct (String.eqb_spec y z) as [->|]];
    rewrite ?elem_of_cons; rewrite ?elem_of_cons in IH; rewrite <-IH; naive_solver.
Qed.

Lemma diff_collisions_inv folded c : c ∈ diff_collisions folded →
  (1 < length (pc_paths c))%nat ∧
  ∀ p, p ∈ pc_paths c → p ∈ default [] (folded !! pc_folded c).
Proof.
  unfold diff_collisions. rewrite list_elem_of_In, filter_In, <-list_elem_of_In.
  intros [([k g] & -> & Hin)%list_elem_of_fmap Hlen]. cbn in *. split; [by apply Nat.ltb_lt|].
  apply list_elem_of_In, filter_In in Hin as [Hin _]. apply list_elem_of_In, elem_of_btree_iter in Hin.
  intros p Hp. rewrite elem_of_dedup, merge_sort_Permutation in Hp. by rewrite Hin.
Qed.

Lemma add_collisions_run (N : gmap WorkspacePath ManifestEntry) ps d :
  di_entries d ⊆ N → (∀ p, p ∈ ps → di_collision_entries d !! p = N !! p) →
  let d' := foldl (λ d path, add_collision path d) d ps in
  di_touched d' = di_touched d ∪ list_to_set ps ∧ di_entries d' = di_entries d ∪ on N (list_to_set ps).
Proof.
  revert d. induction ps as [|p ps IH]; intros d Hsub Hce; cbn [foldl list_to_set].
  - rewrite on_empty, !(right_id_L ∅ _). done.
  - assert (di_entries (add_collision p d) = di_entries d ∪ on N {[p]} ∧
      di_touched (add_collision p d) = {[p]} ∪ di_touched d ∧
      di_collision_entries (add_collision p d) = di_collision_entries d) as (E1 & E2 & E3).
    { unfold add_collision. cbn. rewrite Hce by by left. destruct (N !! p) as [e|] eqn:E; cbn.
      - by rewrite <-(insert_on N _ p e).
      - by rewrite on_absent, (right_id_L ∅ _). }
    destruct (IH (add_collision p d)) as [-> ->].
    + rewrite E1. apply map_union_least; [done|apply on_subseteq].
    + intros q Hq. rewrite E3. apply Hce. by right.
    + rewrite E1, E2, on_union, (assoc_L (∪) (di_entries d)). split; [set_solver|done].
Qed.


Section Delta.
Context {Obj : Type} `{Blake3} `{NodeCodec} `{Envelope} `{RemoteObjects Obj}.
Context (objects : Obj) (crypto : WorkspaceCrypto) (limits : DecodeLimits) (fold : string → string).

(** C10: Two roots that carry well-formed trees; whatever equal keys let the walk skip,
    the delta touches exactly the paths whose entry differs in the two manifests, the
    dirty paths it was asked for and the paths of the collisions it reports, and has
    the new manifest's entry, present or absent, at each of them; each reported
    collision is of at least two paths with the reported folding. *)
Theorem diff_exact old_root new_root fo fn dirty delta :
  carries (opens objects crypto limits) old_root fo → carries (opens objects crypto limits) new_root fn →
  wf fo → wf fn →
  diff_tree objects crypto limits fold old_root new_root dirty = Ok delta →
  td_touched delta = changed (rows [] fo) (rows [] fn) ∪ dirty ∪ collision_set (td_collisions delta) ∧
  td_entries delta = on (rows [] fn) (td_touched delta) ∧
  Forall (λ c, (1 < length (pc_paths c))%nat ∧ ∀ p, p ∈ pc_paths c → fold p = pc_folded c) (td_collisions delta).
Proof.
  intros Hco Hcn Ho Hf. unfold diff_tree. set (N := rows [] fn).
  assert (sees N [] fn) as Hsee by done.
  assert (∀ p, effect objects crypto limits fold N (resolve objects crypto limits new_root p ;; touch p)
    (λ _, True) {[p]} {[p]}) as Hdirty.
  { intros p. eapply effect_eq;
      [eapply effect_seq with (T1 := (∅ : gset WorkspacePath)) (E1 := {[p]}) (P := λ _, True); [|apply touch_effect]
      |set_solver|f_equal; apply (right_id_L (∅ : gset WorkspacePath) (∪))].
    apply (resolve_effect _ _ _ _ _ _ [] _ fn); [apply split_nil|done..|symmetry; apply join_split|].
    destruct (N !! p) as [e|] eqn:E; [right|by left]. apply rows_lookup in E; [|done..].
    destruct (flat_below _ _ _ _ Hf E) as (n & l' & _ & Hs & ->). cbn [app].
    rewrite split_join; [done|done|by eapply Forall_impl; [exact Hs|intros ? []]]. }
  assert (effect objects crypto limits fold N
    (compare objects crypto limits fold (walk_room limits) "" old_root new_root ;;
     each (merge_sort str_le (elements dirty)) (λ path, resolve objects crypto limits new_root path ;; touch path))
    (λ _, True) (changed (rows [] fo) N ∪ dirty) (changed (rows [] fo) N ∪ dirty)) as Hrun.
  { assert (⋃ (singleton <$> merge_sort str_le (elements dirty)) = dirty) as Hu.
    { apply set_eq. intros p. rewrite elem_of_union_list. split.
      - intros (X & (q & -> & Hq)%list_elem_of_fmap & ->%elem_of_singleton).
        by rewrite merge_sort_Permutation, elem_of_elements in Hq.
      - intros Hp. exists {[p]}. split; [|by apply elem_of_singleton]. apply list_elem_of_fmap_2.
        by rewrite merge_sort_Permutation, elem_of_elements. }
    replace (changed (rows [] fo) N ∪ dirty)
      with (changed (rows [] fo) N ∪ ⋃ (singleton <$> merge_sort str_le (elements dirty))) by (by rewrite Hu).
    eapply effect_seq.
    - by apply (compare_effect objects crypto limits fold N (walk_room limits) []).
    - apply (each_effect objects crypto limits fold N _ _ singleton singleton). intros p _. apply Hdirty. }
  cbv zeta. match type of Hrun with effect _ _ _ _ _ ?c _ _ _ => set (run := c) in * end.
  destruct (run TreeDiffer_new) as [[[]|error] d] eqn:E; [|done]. intros [= <-].
  apply Hrun in E as (_ & [F1 F2 F3 F4 F5] & ET & EE).
  2:{ constructor; cbn; try (intros k p; rewrite lookup_empty; by intros ?%not_elem_of_nil || done);
        apply map_empty_subseteq. }
  cbn [td_touched td_entries td_collisions].
  destruct (add_collisions_run N (diff_collisions (di_folded d) ≫= pc_paths) d F2) as [-> ->].
  { intros p (c & Hp & Hc)%list_elem_of_bind. eapply F4, diff_collisions_inv; done. }
  split_and!.
  - rewrite ET. cbn. unfold collision_set. set_solver.
  - rewrite EE, ET. cbn. rewrite !(left_id_L ∅ (∪)). by rewrite <-on_union.
  - apply Forall_forall. intros c Hc. destruct (diff_collisions_inv _ _ Hc) as [Hlen Hin]. split; [done|].
    intros p Hp. by eapply F5, Hin.
Qed.

End Delta.
