(* ===== verification/PatchTree.v ===== *)
(** * Directories as lists of items

    A forest seen as the ordered list of what each name stands for, the entry at a path,
    and the forests that carry no empty implicit directory: such a forest is determined
    by its rows.  [PatchTheorems] works on this view, which is the one an editable node
    has of a directory. *)

From stdpp Require Import sorting.
From S2P Require Import Prelude.
From S2P Require Import ManifestTypes.
From S2P Require Import MergeMatrix.
From S2P Require Import Ordered.
From S2P Require Import Materialize.
From S2P Require Import Paths.
From S2P Require Import Tree.
From S2P Require Import TreeTransport.
From S2P Require Import TreePatch.
From S2P Require Import Forest.
From S2P Require Import Decompose.
From S2P Require Import SubtreeHashes.
From S2P Require Import TreeTheorems.
Local Open Scope string_scope.
Open Scope Z_scope.

(** ** Ordered association lists *)

Section Assoc.
Context {A : Type}.
Implicit Types l : list (string * A).

Lemma entry_get_insert m n (a : A) l :
  entry_get m (entry_insert n a l) = if decide (m = n) then Some a else entry_get m l.
Proof.
  induction l as [|[k b] l IH]; cbn.
  - destruct (String.eqb_spec n m), (decide (m = n)); congruence.
  - destruct (String.eqb_spec k n) as [->|Hkn]; cbn.
    + destruct (String.eqb_spec n m), (decide (m = n)); congruence.
    + destruct (String.leb k n); cbn.
      * rewrite IH. destruct (String.eqb_spec k m), (decide (m = n)); congruence.
      * destruct (String.eqb_spec n m), (decide (m = n)); congruence.
Qed.

Lemma entry_get_Some n a l : entry_get n l = Some a → (n, a) ∈ l.
Proof.
  induction l as [|[k b] l IH]; cbn; [done|]. destruct (String.eqb_spec k n) as [->|].
  - intros [= ->]. by left.
  - intros Hg. right. by apply IH.
Qed.

Lemma entry_get_elem n a l : NoDup l.*1 → (n, a) ∈ l → entry_get n l = Some a.
Proof.
  induction l as [|[k b] l IH]; cbn; [by intros _ ?%not_elem_of_nil|].
  intros [Hk Hnd]%NoDup_cons [[= -> ->]|Hin]%elem_of_cons; [by rewrite String.eqb_refl|].
  destruct (String.eqb_spec k n) as [->|]; [|by apply IH]. exfalso. apply Hk.
  apply list_elem_of_fmap. by exists (n, a).
Qed.

Lemma entry_get_None n l : entry_get n l = None ↔ n ∉ l.*1.
Proof.
  induction l as [|[k b] l IH]; cbn; [split; [by intros _ ?%not_elem_of_nil|done]|].
  rewrite not_elem_of_cons. destruct (String.eqb_spec k n) as [->|Hne]; [by split; [|intros [[] _]]|].
  rewrite IH. split; [|by intros [_ ?]]. intros Hn. split; [|done]. by intros ->.
Qed.

Lemma entry_get_remove m n l : NoDup l.*1 →
  entry_get m (entry_remove n l) = if decide (m = n) then None else entry_get m l.
Proof.
  induction l as [|[k b] l IH]; cbn; [by intros _; case_decide|]. intros [Hk Hnd]%NoDup_cons.
  destruct (String.eqb_spec k n) as [->|Hkn]; cbn.
  - destruct (decide (m = n)) as [->|Hm]; [by apply entry_get_None|].
    by destruct (String.eqb_spec n m) as [->|].
  - rewrite IH by done. destruct (String.eqb_spec k m), (decide (m = n)); congruence.
Qed.

Lemma elem_entry_remove x n l : x ∈ entry_remove n l → x ∈ l.
Proof.
  induction l as [|[k b] l IH]; cbn; [done|]. destruct (k =? n)%string; [by right|].
  rewrite !elem_of_cons. intros [->|Hx]; [by left|right; by apply IH].
Qed.

Lemma elem_entry_insert x n a l : x ∈ entry_insert n a l → x = (n, a) ∨ x ∈ l.
Proof.
  induction l as [|[k b] l IH]; cbn; [by intros ->%list_elem_of_singleton; left|].
  destruct (k =? n)%string; [|destruct (String.leb k n)]; rewrite !elem_of_cons; [tauto| |tauto].
  intros [->|Hx]; [by right; left|]. destruct (IH Hx); tauto.
Qed.

Lemma Forall_entry_remove (P : string * A → Prop) n l : Forall P l → Forall P (entry_remove n l).
Proof. rewrite !Forall_forall. intros Hl x Hx. by eapply Hl, elem_entry_remove. Qed.

Lemma Forall_entry_insert (P : string * A → Prop) n a l :
  P (n, a) → Forall P l → Forall P (entry_insert n a l).
Proof. rewrite !Forall_forall. intros Ha Hl x [->|Hx]%elem_entry_insert; auto. Qed.

Definition ascending l : Prop := StronglySorted str_lt l.*1.

Lemma ascending_NoDup l : ascending l → NoDup l.*1.
Proof.
  unfold ascending. induction l as [|[k b] l IH]; cbn; [constructor|].
  intros [Hlt Hs]%StronglySorted_cons. constructor; [|by apply IH]. intros Hin.
  rewrite Forall_forall in Hlt. by destruct (irreflexivity str_lt k (Hlt _ Hin)).
Qed.

Lemma ascending_remove n l : ascending l → ascending (entry_remove n l).
Proof.
  unfold ascending. induction l as [|[k b] l IH]; cbn; [done|]. intros [Hlt Hs]%StronglySorted_cons.
  destruct (k =? n)%string; [done|]. cbn. apply StronglySorted_cons. split; [|by apply IH].
  rewrite Forall_forall in *. intros m ([m' a] & -> & Hin)%list_elem_of_fmap. apply Hlt.
  apply list_elem_of_fmap. exists (m', a). split; [done|]. by eapply elem_entry_remove.
Qed.

Lemma ascending_insert n a l : ascending l → ascending (entry_insert n a l).
Proof.
  unfold ascending. induction l as [|[k b] l IH]; cbn; [repeat constructor|].
  intros [Hlt Hs]%StronglySorted_cons. destruct (String.eqb_spec k n) as [->|Hkn]; [cbn; by apply StronglySorted_cons|].
  destruct (String.leb k n) eqn:Hle; cbn; apply StronglySorted_cons.
  - split; [|by apply IH]. rewrite Forall_forall in *.
    intros m ([m' c] & -> & [[= -> ->]|Hin]%elem_entry_insert)%list_elem_of_fmap; cbn.
    + by apply str_lt_le.
    + apply Hlt, list_elem_of_fmap. by exists (m', c).
  - split; [|by apply StronglySorted_cons]. constructor; [done|].
    eapply Forall_impl; [exact Hlt|]. intros m Hm. by transitivity k.
Qed.

(** Putting back what is there. *)
Lemma entry_insert_same n a l : ascending l → entry_get n l = Some a → entry_insert n a l = l.
Proof.
  unfold ascending. induction l as [|[k b] l IH]; cbn; [done|]. intros [Hlt Hs]%StronglySorted_cons.
  destruct (String.eqb_spec k n) as [->|Hkn]; [by intros [= ->]|]. intros Hg.
  assert (str_lt k n) as Hkl.
  { rewrite Forall_forall in Hlt. apply Hlt, list_elem_of_fmap. exists (n, a). split; [done|].
    by apply entry_get_Some. }
  apply str_lt_le in Hkl as [Hkl _]. unfold str_le in Hkl. rewrite Hkl. by rewrite IH.
Qed.

Lemma entry_remove_absent n l : entry_get n l = None → entry_remove n l = l.
Proof.
  induction l as [|[k b] l IH]; cbn; [done|]. destruct (k =? n)%string; [done|]. intros Hg. by rewrite IH.
Qed.

Lemma entry_insert_remove n a l : ascending l → entry_insert n a (entry_remove n l) = entry_insert n a l.
Proof.
  unfold ascending. induction l as [|[k b] l IH]; cbn; [done|]. intros [Hlt Hs]%StronglySorted_cons.
  destruct (String.eqb_spec k n) as [->|Hkn].
  - destruct l as [|[k' b'] l]; cbn; [done|]. apply Forall_cons in Hlt as [Hk' _].
    destruct (String.eqb_spec k' n) as [->|]; [by destruct (irreflexivity str_lt n Hk')|].
    unfold str_lt in Hk'. cbn in Hk'. by rewrite Hk'.
  - cbn. destruct (String.eqb_spec k n); [done|]. destruct (String.leb k n) eqn:Hle; [by rewrite IH|].
    f_equal. f_equal. apply entry_remove_absent, entry_get_None. intros Hin.
    rewrite Forall_forall in Hlt. specialize (Hlt n Hin). apply str_lt_le in Hlt as [Hlt _].
    unfold str_le in Hlt. congruence.
Qed.

Lemma entry_insert_insert n a b l : entry_insert n a (entry_insert n b l) = entry_insert n a l.
Proof.
  induction l as [|[k c] l IH]; cbn; [by rewrite String.eqb_refl|].
  destruct (k =? n)%string eqn:Hk; cbn; [by rewrite String.eqb_refl|].
  destruct (String.leb k n) eqn:Hle; cbn; [by rewrite Hk, Hle, IH|by rewrite String.eqb_refl].
Qed.

Lemma entry_remove_insert n a l : ascending l → entry_remove n (entry_insert n a l) = entry_remove n l.
Proof.
  unfold ascending. induction l as [|[k b] l IH]; cbn; [by rewrite String.eqb_refl|].
  intros [Hlt Hs]%StronglySorted_cons.
  destruct (String.eqb_spec k n) as [->|Hkn]; cbn; [by rewrite String.eqb_refl|].
  destruct (String.leb k n) eqn:Hle; cbn.
  - destruct (String.eqb_spec k n); [done|]. by rewrite IH.
  - rewrite String.eqb_refl. f_equal. symmetry. apply entry_remove_absent, entry_get_None. intros Hin.
    rewrite Forall_forall in Hlt. specialize (Hlt n Hin). apply str_lt_le in Hlt as [Hlt _].
    unfold str_le in Hlt. congruence.
Qed.

Lemma entry_insert_ne n a l : entry_insert n a l ≠ [].
Proof. destruct l as [|[k b] l]; cbn; [done|]. by destruct (k =? n)%string, (String.leb k n). Qed.

End Assoc.

(** The same change on both sides of a pointwise relation. *)
Section Pairs.
Context {A B : Type} (R : A → B → Prop).

Definition related (l : list (string * A)) (k : list (string * B)) : Prop :=
  Forall2 (λ x y, x.1 = y.1 ∧ R x.2 y.2) l k.

Lemma related_keys l k : related l k → l.*1 = k.*1.
Proof. induction 1 as [|[] [] ? ? [He _] _ IH]; cbn in *; congruence. Qed.

Lemma related_get n l k : related l k →
  match entry_get n l, entry_get n k with Some a, Some b => R a b | None, None => True | _, _ => False end.
Proof.
  induction 1 as [|[m a] [m' b] l k [He HR] _ IH]; cbn in *; [done|]. subst m'. by destruct (m =? n)%string.
Qed.

Lemma related_insert n a b l k : R a b → related l k → related (entry_insert n a l) (entry_insert n b k).
Proof.
  intros HR. induction 1 as [|[m c] [m' d] l k [He Hcd] Hl IH]; cbn in *; [by repeat constructor|]. subst m'.
  destruct (m =? n)%string; [by constructor|]. destruct (String.leb m n); [by constructor|].
  constructor; [done|]. by constructor.
Qed.

Lemma related_remove n l k : related l k → related (entry_remove n l) (entry_remove n k).
Proof.
  induction 1 as [|[m c] [m' d] l k [He Hcd] Hl IH]; cbn in *; [by constructor|]. subst m'.
  destruct (m =? n)%string; [done|by constructor].
Qed.

End Pairs.

(** ** Items *)

Inductive item :=
| ILeaf (entry : ManifestEntry)
| IDir (mode : option FileMode) (key : ManifestKey) (below : forest).

Fixpoint items (f : forest) : list (string * item) :=
  match f with
  | FNil => []
  | FLeaf name entry rest => (name, ILeaf entry) :: items rest
  | FDir name mode key below rest => (name, IDir mode key below) :: items rest
  end.

Fixpoint of_items (l : list (string * item)) : forest :=
  match l with
  | [] => FNil
  | (name, ILeaf entry) :: l => FLeaf name entry (of_items l)
  | (name, IDir mode key below) :: l => FDir name mode key below (of_items l)
  end.

Lemma items_of_items l : items (of_items l) = l.
Proof. induction l as [|[n []] l IH]; cbn; congruence. Qed.

Lemma of_items_items f : of_items (items f) = f.
Proof. induction f; cbn; congruence. Qed.

Lemma names_items f : names f = (items f).*1.
Proof. induction f; cbn; congruence. Qed.

Definition item_wf (x : string * item) : Prop :=
  segment x.1 ∧ match x.2 with ILeaf entry => is_leaf entry | IDir _ _ below => wf below end.

Lemma wf_items f : wf f ↔ ascending (items f) ∧ Forall item_wf (items f).
Proof.
  unfold ascending. induction f as [|n e r IH|n mode key b _ r IH]; cbn.
  - split; [repeat constructor|done].
  - rewrite StronglySorted_cons, Forall_cons, IH, names_items.
    change (item_wf (n, ILeaf e)) with (segment n ∧ is_leaf e). tauto.
  - rewrite StronglySorted_cons, Forall_cons, IH, names_items.
    change (item_wf (n, IDir mode key b)) with (segment n ∧ wf b). tauto.
Qed.

(** No implicit directory is empty. *)
Fixpoint full (f : forest) : Prop :=
  match f with
  | FNil => True
  | FLeaf _ _ rest => full rest
  | FDir _ mode _ below rest => (mode = None → below ≠ FNil) ∧ full below ∧ full rest
  end.

Lemma full_shape f : full (shape f) ↔ full f.
Proof.
  induction f as [|n e r IHr|n mode key b IHb r IHr]; cbn; [done|done|]. rewrite IHb, IHr.
  assert (shape b = FNil ↔ b = FNil) as -> by by destruct b. done.
Qed.

Definition item_full (x : string * item) : Prop :=
  match x.2 with ILeaf _ => True | IDir mode _ below => (mode = None → below ≠ FNil) ∧ full below end.

Lemma full_items f : full f ↔ Forall item_full (items f).
Proof.
  induction f as [|n e r IH|n mode key b _ r IH]; cbn; [by split|..]; rewrite Forall_cons, IH.
  - change (item_full (n, ILeaf e)) with True. tauto.
  - change (item_full (n, IDir mode key b)) with ((mode = None → b ≠ FNil) ∧ full b). tauto.
Qed.

(** ** The entry at a path *)

Definition item_at (rest : list string) (below_at : list string → option ManifestEntry) (entry : option ManifestEntry)
    : option ManifestEntry := match rest with [] => entry | _ => below_at rest end.

Fixpoint entry_at (f : forest) (l : list string) : option ManifestEntry :=
  match l with
  | [] => None
  | n :: rest =>
      match f with
      | FNil => None
      | FLeaf name entry r => if (name =? n)%string then item_at rest (λ _, None) (Some entry) else entry_at r l
      | FDir name mode _ below r =>
          if (name =? n)%string then item_at rest (entry_at below) (DirectoryEntry <$> mode) else entry_at r l
      end
  end.

Lemma entry_at_nil f : entry_at f [] = None.
Proof. by destruct f. Qed.

Lemma entry_at_items f n rest :
  entry_at f (n :: rest) =
  match entry_get n (items f) with
  | None => None
  | Some (ILeaf entry) => item_at rest (λ _, None) (Some entry)
  | Some (IDir mode _ below) => item_at rest (entry_at below) (DirectoryEntry <$> mode)
  end.
Proof.
  induction f as [|name e r IH|name mode key b _ r IH]; cbn [entry_at items entry_get]; [done|..];
    by destruct (name =? n)%string.
Qed.

Lemma entry_at_flat f : wf f → ∀ pre l e, Forall segment pre → Forall segment l → l ≠ [] →
  (join (pre ++ l)%list, e) ∈ flat pre f ↔ entry_at f l = Some e.
Proof.
  induction f as [|name e0 r IHr|name mode key b IHb r IHr]; intros Hwf pre l e Hpre Hl Hne;
    (destruct l as [|n rest]; [done|]); pose proof Hl as Hl0; apply Forall_cons in Hl as [Hn Hrest].
  - cbn. split; [by intros ?%not_elem_of_nil|done].
  - destruct Hwf as (Hname & Hlt & _ & Hwr). cbn [flat entry_at]. rewrite elem_of_cons.
    destruct (String.eqb_spec name n) as [->|Hnn].
    + split.
      * intros [[= Hj ->]|Hin].
        -- apply segments_app_inj in Hj; [|done|done|by apply Forall_singleton]. by injection Hj as ->.
        -- apply flat_below in Hin as (n' & l' & Hn' & Hs & Hj); [|done].
           apply segments_app_inj in Hj; [|done..]. injection Hj as <- <-.
           rewrite Forall_forall in Hlt. by destruct (irreflexivity str_lt n (Hlt _ Hn')).
      * destruct rest as [|m rest]; cbn; [|done]. intros [= ->]. by left.
    + rewrite <- (IHr Hwr pre (n :: rest) e) by done. split; [|by right]. intros [[= Hj ->]|Hin]; [|done].
      apply segments_app_inj in Hj; [|done|done|by apply Forall_singleton]. by injection Hj as <- _.
  - destruct Hwf as (Hname & Hlt & Hwb & Hwr). cbn [flat entry_at]. rewrite !elem_of_app.
    assert ((join (pre ++ n :: rest)%list, e) ∈ dir_rows (join (pre ++ [name])%list) mode ↔
            n = name ∧ rest = [] ∧ DirectoryEntry <$> mode = Some e) as Hdir.
    { destruct mode as [mode|]; cbn; [|split; [by intros ?%not_elem_of_nil|by intros (_ & _ & ?)]].
      rewrite list_elem_of_singleton. split.
      - intros [= Hj ->]. apply segments_app_inj in Hj; [|done|done|by apply Forall_singleton]. by simplify_eq.
      - intros (-> & -> & [= <-]). done. }
    assert ((join (pre ++ n :: rest)%list, e) ∈ flat (pre ++ [name])%list b ↔
            n = name ∧ rest ≠ [] ∧ entry_at b rest = Some e) as Hbelow.
    { split.
      - intros Hin. pose proof Hin as Hin'. apply flat_below in Hin as (n' & l' & Hn' & Hs & Hj); [|done].
        rewrite <- (assoc_L (++)) in Hj. cbn [app] in Hj.
        apply segments_app_inj in Hj; [|done|done|by constructor]. injection Hj as -> ->.
        split; [done|]. split; [done|]. apply (IHb Hwb (pre ++ [name])%list); [by apply segments_snoc|done|done|].
        by rewrite <- (assoc_L (++)).
      - intros (-> & Hr & He). apply (IHb Hwb (pre ++ [name])%list) in He; [|by apply segments_snoc|done|done].
        by rewrite <- (assoc_L (++)) in He. }
    rewrite Hdir, Hbelow. destruct (String.eqb_spec name n) as [->|Hnn].
    + assert ((join (pre ++ n :: rest)%list, e) ∉ flat pre r) as Hout.
      { intros Hin. apply flat_below in Hin as (n' & l' & Hn' & Hs & Hj); [|done].
        apply segments_app_inj in Hj; [|done..]. injection Hj as <- <-.
        rewrite Forall_forall in Hlt. by destruct (irreflexivity str_lt n (Hlt _ Hn')). }
      destruct rest as [|m rest]; cbn [item_at]; [split; [by intros [(_ & _ & ?)|[(_ & [] & _)|?]]|by left]|]. split; [by intros [(_ & ? & _)|[(_ & _ & ?)|?]]|by right; left].
    + rewrite <- (IHr Hwr pre (n :: rest) e) by done. split; [by intros [(? & _)|[(? & _)|?]]|by right; right].
Qed.

Lemma rows_entry_at f l : wf f → Forall segment l → l ≠ [] → rows [] f !! join l = entry_at f l.
Proof.
  intros Hwf Hl Hne. apply option_eq. intros e. rewrite rows_lookup by done.
  by apply (entry_at_flat f Hwf []).
Qed.

(** Nothing is below a leaf. *)
Lemma entry_at_leaf f l r e : entry_at f l = Some e → is_leaf e → r ≠ [] → entry_at f (l ++ r)%list = None.
Proof.
  intros He Hle Hr. revert f He. induction l as [|n l IH]; intros f He; [by rewrite entry_at_nil in He|].
  cbn [app]. rewrite entry_at_items in He |- *. destruct (entry_get n (items f)) as [[e'|mode key b]|]; [| |done].
  - by destruct l, r.
  - destruct l as [|m l]; cbn in *; [destruct mode; [|done]; injection He as <-; by destruct Hle|]. by apply IH.
Qed.

(** ** Rows determine a full forest *)

Lemma entry_at_absent f n rest : n ∉ names f → entry_at f (n :: rest) = None.
Proof. intros Hn. rewrite entry_at_items, (proj2 (entry_get_None _ _)); [done|]. by rewrite <- names_items. Qed.

Lemma full_entry f : wf f → full f → f ≠ FNil → ∃ l e, Forall segment l ∧ entry_at f l = Some e.
Proof.
  induction f as [|n e r _|n mode key b IHb r _]; intros Hwf Hfull Hne; [done|..].
  - exists [n], e. destruct Hwf as (Hn & _). cbn. rewrite String.eqb_refl. by split; [apply Forall_singleton|].
  - destruct Hwf as (Hn & _ & Hwb & _), Hfull as (Hm & Hfb & _). destruct mode as [mode|].
    + exists [n], (DirectoryEntry mode). cbn. rewrite String.eqb_refl. by split; [apply Forall_singleton|].
    + destruct (IHb Hwb Hfb (Hm eq_refl)) as (l & e & Hl & He). exists (n :: l), e.
      split; [by constructor|]. cbn. rewrite String.eqb_refl.
      destruct l; [by rewrite entry_at_nil in He|done].
Qed.

(** The first name of a full directory has an entry at or below it. *)
Lemma first_entry f n : wf f → full f → head (names f) = Some n →
  ∃ rest e, Forall segment (n :: rest) ∧ entry_at f (n :: rest) = Some e.
Proof.
  destruct f as [|n' e r|n' mode key b r]; cbn [names head]; [done|..]; intros Hwf Hfull [= ->].
  - exists [], e. destruct Hwf as (Hn & _). cbn. rewrite String.eqb_refl. by split; [apply Forall_singleton|].
  - destruct Hwf as (Hn & _ & Hwb & _), Hfull as (Hm & Hfb & _). destruct mode as [mode|].
    + exists [], (DirectoryEntry mode). cbn. rewrite String.eqb_refl. by split; [apply Forall_singleton|].
    + destruct (full_entry b Hwb Hfb (Hm eq_refl)) as (l & e & Hl & He). exists l, e.
      split; [by constructor|]. cbn. rewrite String.eqb_refl.
      destruct l; [by rewrite entry_at_nil in He|done].
Qed.

Definition same_entries (f g : forest) : Prop := ∀ l, Forall segment l → entry_at f l = entry_at g l.

Lemma first_not_below f g n : wf f → full f → wf g → same_entries f g → head (names f) = Some n → n ∈ names g.
Proof.
  intros Hf Hfull Hg Hs Hn. destruct (first_entry f n Hf Hfull Hn) as (rest & e & Hseg & He).
  destruct (decide (n ∈ names g)) as [|Hout]; [done|]. rewrite Hs, entry_at_absent in He; done.
Qed.

Lemma ascending_head_le f n m : wf f → head (names f) = Some n → m ∈ names f → str_le n m.
Proof.
  rewrite wf_items, names_items. intros [Ha _]. unfold ascending in Ha. destruct (items f).*1 as [|k ks]; [done|].
  cbn. intros [= ->] [->|Hin]%elem_of_cons; [unfold str_le; apply leb_refl|].
  apply StronglySorted_cons in Ha as [Hlt _]. rewrite Forall_forall in Hlt. by apply str_lt_le, Hlt.
Qed.

Lemma same_first f g : wf f → full f → wf g → full g → same_entries f g → head (names f) = head (names g).
Proof.
  intros Hf Hff Hg Hfg Hs. assert (same_entries g f) as Hs' by (intros l Hl; by rewrite Hs).
  destruct (head (names f)) as [n|] eqn:Hn.
  - pose proof (first_not_below f g n Hf Hff Hg Hs Hn) as Hin. destruct (head (names g)) as [m|] eqn:Hm.
    + pose proof (first_not_below g f m Hg Hfg Hf Hs' Hm) as Hin'. f_equal.
      apply (anti_symm str_le); [by apply (ascending_head_le f)|by apply (ascending_head_le g)].
    + destruct (names g); [by apply not_elem_of_nil in Hin|done].
  - destruct (head (names g)) as [m|] eqn:Hm; [|done].
    pose proof (first_not_below g f m Hg Hfg Hf Hs' Hm) as Hin.
    destruct (names f); [by apply not_elem_of_nil in Hin|done].
Qed.

(** The rows but those at or below the first name. *)
Lemma same_rest n f g r r' : Forall (str_lt n) (names r) → Forall (str_lt n) (names r') →
  (∀ m rest, m ≠ n → entry_at f (m :: rest) = entry_at r (m :: rest)) →
  (∀ m rest, m ≠ n → entry_at g (m :: rest) = entry_at r' (m :: rest)) →
  same_entries f g → same_entries r r'.
Proof.
  intros Hr Hr' Hf Hg Hs l Hl. destruct l as [|m rest]; [by destruct r, r'|].
  destruct (decide (m = n)) as [->|Hm]; [|by rewrite <- Hf, <- Hg, Hs].
  assert (∀ x, Forall (str_lt n) (names x) → n ∉ names x) as Hout.
  { intros x Hx Hin. rewrite Forall_forall in Hx. by destruct (irreflexivity str_lt n (Hx _ Hin)). }
  by rewrite !entry_at_absent by auto.
Qed.

Lemma shape_unique f g : wf f → full f → wf g → full g → same_entries f g → shape f = shape g.
Proof.
  revert g. induction f as [|n e r IHr|n mode key b IHb r IHr]; intros g Hf Hff Hg Hfg Hs;
    pose proof (same_first _ _ Hf Hff Hg Hfg Hs) as Hhead.
  - by destruct g.
  - destruct g as [|n' e' r'|n' mode' key' b' r']; cbn in Hhead; [done|..]; injection Hhead as <-;
      destruct Hf as (Hn & Hlt & Hle & Hwr), Hg as (_ & Hlt' & Hg3 & Hwr'); cbn in Hff, Hfg;
      pose proof (Hs [n] (proj2 (Forall_singleton _ _) Hn)) as H1; cbn in H1; rewrite !String.eqb_refl in H1; cbn in H1.
    + injection H1 as ->. cbn. f_equal. apply IHr; [done..|].
      eapply (same_rest n); [exact Hlt|exact Hlt'| | |exact Hs]; intros m rest Hm; cbn;
        by destruct (String.eqb_spec n m) as [->|].
    + destruct mode'; [|done]. injection H1 as ->. by destruct Hle.
  - destruct g as [|n' e' r'|n' mode' key' b' r']; cbn in Hhead; [done|..]; injection Hhead as <-;
      destruct Hf as (Hn & Hlt & Hwb & Hwr), Hg as (_ & Hlt' & Hg3 & Hwr'); destruct Hff as (_ & Hfb & Hfr);
      pose proof (Hs [n] (proj2 (Forall_singleton _ _) Hn)) as H1; cbn in H1; rewrite !String.eqb_refl in H1; cbn in H1.
    + destruct mode; [|done]. injection H1 as <-. by destruct Hg3.
    + destruct Hfg as (_ & Hfb' & Hfr'). assert (mode = mode') as <- by (destruct mode, mode'; cbn in H1; congruence).
      cbn. f_equal.
      * apply IHb; [done..|]. intros l Hl. destruct l as [|m l]; [by destruct b, b'|].
        pose proof (Hs (n :: m :: l) (Forall_cons_2 _ _ _ Hn Hl)) as H2. cbn in H2.
        by rewrite !String.eqb_refl in H2.
      * apply IHr; [done..|].
        eapply (same_rest n); [exact Hlt|exact Hlt'| | |exact Hs]; intros m rest Hm; cbn;
          by destruct (String.eqb_spec n m) as [->|].
Qed.

(** ** The tree a publish walks is full *)

Lemma plant_full sub dir cs f : plant sub dir cs = Some f →
  (∀ n spec b, (n, spec) ∈ cs → (∀ e, spec ≠ Leaf e) → sub (dir_child dir n) = Some b →
     full b ∧ (spec = ChildSubtree → b ≠ FNil)) → full f.
Proof.
  revert f. induction cs as [|[n spec] cs IH]; intros f Hf Hsub; [by injection Hf as <-|].
  assert (∀ r, plant sub dir cs = Some r → full r) as Hrest.
  { intros r Hr. apply (IH r Hr). intros n' spec' b Hin. apply Hsub. by right. }
  destruct spec as [e|mode|]; cbn in Hf; plant_cases; cbn; [by apply Hrest|..].
  - match goal with Hs : sub _ = Some ?b |- _ => destruct (Hsub n (ChildDirectory mode) b) as [Hb _]; [by left|done|exact Hs|] end.
    split; [done|]. split; [exact Hb|by apply Hrest].
  - match goal with Hs : sub _ = Some ?b |- _ => destruct (Hsub n ChildSubtree b) as [Hb Hne]; [by left|done|exact Hs|] end.
    split; [by intros _; apply Hne|]. split; [exact Hb|by apply Hrest].
Qed.

Lemma forest_at_full m nodes room l f : tree_of m nodes → Forall segment l →
  forest_at nodes room (join l) = Some f → full f.
Proof.
  intros Ht. revert l f. induction room as [|room IH]; intros l f Hl; cbn; [done|].
  intros (children & Hc & Hp)%bind_Some. eapply plant_full; [exact Hp|]. intros n spec b Hin Hnl Hb.
  pose proof (tree_name _ _ _ _ _ _ Ht Hc Hin) as Hn. pose proof (segments_snoc l n Hl Hn) as Hln.
  rewrite dir_child_join in Hb by done. split; [by eapply IH|]. intros ->.
  pose proof (tree_child m nodes l children n Ht Hl Hn Hc) as Hs.
  rewrite (proj1 (elem_of_btree_iter _ _ _) Hin) in Hs. destruct Hs as [_ (l' & Hne & Hl' & [e He])]. intros ->.
  assert ((join ((l ++ [n]) ++ l'), e) ∈ flat (l ++ [n])%list FNil) as Hrow.
  { by apply (forest_at_flat m nodes room (l ++ [n])%list FNil l' e Ht Hln Hl' Hb). }
  by apply not_elem_of_nil in Hrow.
Qed.

(** A full forest with the rows of a manifest has the shape of its snapshot. *)
Lemma snapshot_shape m s f : snapshot_forest m = Some s → wf f → full f → rows [] f = m → shape f = shape s.
Proof.
  intros (tree & _ & Ht & Hs)%snapshot_forest_inv Hf Hfull Hrows.
  pose proof (forest_at_wf m tree _ [] s Ht (Forall_nil_2 _) Hs) as Hwfs.
  apply shape_unique; [done..|by eapply (forest_at_full m tree _ [])|]. intros l Hl.
  destruct l as [|n l]; [by rewrite !entry_at_nil|].
  rewrite <- !rows_entry_at by done. by rewrite Hrows, (forest_rows m tree publish_room s Ht Hs).
Qed.
