(* ===== verification/PatchNodes.v ===== *)
(** * Editable nodes

    The editable copy of a tree denotes a forest: a child that is stored stands for the
    forest its node carries, one that is loaded for the forest it lists.  A node that is
    not dirty still lists the entries of the node it was read from. *)

From stdpp Require Import sorting.
From S2P Require Import Prelude.
From S2P Require Import ManifestTypes.
From S2P Require Import MergeMatrix.
From S2P Require Import Ordered.
From S2P Require Import Materialize.
From S2P Require Import Paths.
From S2P Require Import Store.
From S2P Require Import Tree.
From S2P Require Import TreeTransport.
From S2P Require Import TreePatch.
From S2P Require Import DiskLemmas.
From S2P Require Import Forest.
From S2P Require Import FetchTheorems.
From S2P Require Import Decompose.
From S2P Require Import SubtreeHashes.
From S2P Require Import PublishLemmas.
From S2P Require Import TreeTheorems.
From S2P Require Import PatchTree.
Local Open Scope string_scope.
Open Scope Z_scope.

(** ** What an editable node lists *)

Definition leaf_edit (entry : ManifestEntry) : option EditablePayload :=
  match entry with
  | FileEntry size mode content_id blob_key key_epoch => Some (EditFile size mode content_id blob_key key_epoch)
  | SymlinkEntry mode target => Some (EditSymlink mode target)
  | DirectoryEntry _ => None
  end.

Definition edit_dir (mode : option FileMode) (child : EditableChild) : EditablePayload :=
  match mode with Some mode => EditDirectory mode child | None => EditSubtree child end.

(** The key a child had when it was read. *)
Definition child_key (child : EditableChild) : option ManifestKey :=
  match child with Stored key => Some key | Loaded node => ed_original_key node end.

(** The payload with the keys of its children as they were read. *)
Definition shallow (payload : EditablePayload) : option TreeEntryPayload :=
  match payload with
  | EditFile size mode content_id blob_key key_epoch => Some (TreeFile size mode content_id blob_key key_epoch)
  | EditSymlink mode target => Some (TreeSymlink mode target)
  | EditDirectory mode child => TreeDirectory mode <$> child_key child
  | EditSubtree child => TreeSubtree <$> child_key child
  end.

Definition shallow_entry (x : string * EditablePayload) : option TreeEntry :=
  (λ payload, {| te_name := x.1; te_payload := payload |}) <$> shallow x.2.

Section Denotes.
Context {Obj : Type} `{Blake3} `{NodeCodec} `{Sealing} `{Envelope} `{RemoteObjects Obj}.
Context (objects : Obj) (crypto : WorkspaceCrypto).

Local Abbreviation limits := DecodeLimits_default.
Local Abbreviation epoch := (cr_write_epoch crypto).

(** A node of the tree, sealed under the key that writes. *)
Definition holds_node (key : ManifestKey) (node : TreeNode) : Prop :=
  opens objects crypto limits key node ∧ tn_key_epoch node = epoch.

(** The part of a node that is not its entries; a clean node is still the one read. *)
Definition header (node : EditableNode) : Prop :=
  match node with
  | Editable original_key format_version key_epoch entries dirty =>
      format_version = TREE_FORMAT_VERSION ∧ key_epoch = epoch ∧
      (dirty = false → ∀ key, original_key = Some key →
         ∃ node, holds_node key node ∧ mapM shallow_entry entries = Some (tn_entries node))
  end.

Fixpoint denotes (f : forest) (entries : list (string * EditablePayload)) : Prop :=
  match f, entries with
  | FNil, [] => True
  | FLeaf name entry rest, (n, payload) :: entries =>
      n = name ∧ leaf_edit entry = Some payload ∧ denotes rest entries
  | FDir name mode key below rest, (n, payload) :: entries =>
      n = name ∧
      (∃ child, payload = edit_dir mode child ∧
         match child with
         | Stored k => k = key ∧ carries holds_node k below
         | Loaded node => header node ∧ denotes below (ed_entries node)
         end) ∧
      denotes rest entries
  | _, _ => False
  end.

Definition denotes_child (child : EditableChild) (key : ManifestKey) (below : forest) : Prop :=
  match child with
  | Stored k => k = key ∧ carries holds_node k below
  | Loaded node => header node ∧ denotes below (ed_entries node)
  end.

Definition denotes_item (payload : EditablePayload) (i : item) : Prop :=
  match i with
  | ILeaf entry => leaf_edit entry = Some payload
  | IDir mode key below => ∃ child, payload = edit_dir mode child ∧ denotes_child child key below
  end.

Lemma denotes_items f entries : denotes f entries ↔ related denotes_item entries (items f).
Proof.
  unfold related. revert entries.
  induction f as [|n e r IH|n mode key b _ r IH]; intros [|[n' p] entries]; cbn [denotes items].
  - by split.
  - split; [done|by inversion 1].
  - split; [done|by inversion 1].
  - rewrite IH. split; [intros (-> & He & Hr); by constructor|by inversion 1; cbn in *; simplify_eq; intuition].
  - split; [done|by inversion 1].
  - rewrite IH. split; [intros (-> & He & Hr); by constructor|by inversion 1; cbn in *; simplify_eq; intuition].
Qed.

Lemma denotes_empty f entries : denotes f entries → f = FNil ↔ entries = [].
Proof. by destruct f, entries as [|[]]. Qed.

(** ** Updating one name *)

Definition item_entry (i : item) (rest : list string) : option ManifestEntry :=
  match i with
  | ILeaf entry => item_at rest (λ _, None) (Some entry)
  | IDir mode _ below => item_at rest (entry_at below) (DirectoryEntry <$> mode)
  end.

Lemma put_item f entries n payload i :
  denotes f entries → wf f → full f → denotes_item payload i → item_wf (n, i) → item_full (n, i) →
  ∃ f', denotes f' (entry_insert n payload entries) ∧ wf f' ∧ full f' ∧
    ∀ m rest, entry_at f' (m :: rest) = if decide (m = n) then item_entry i rest else entry_at f (m :: rest).
Proof.
  intros Hd Hwf Hfull Hp Hi Hif. exists (of_items (entry_insert n i (items f))).
  rewrite denotes_items in *. rewrite wf_items, full_items, items_of_items in *. destruct Hwf as [Ha Hall].
  split; [by apply related_insert|]. split.
  { split; [by apply ascending_insert|by apply Forall_entry_insert]. }
  split; [by apply Forall_entry_insert|]. intros m rest.
  rewrite !entry_at_items, items_of_items, entry_get_insert. case_decide; [by destruct i|done].
Qed.

Lemma drop_item f entries n : denotes f entries → wf f → full f →
  ∃ f', denotes f' (entry_remove n entries) ∧ wf f' ∧ full f' ∧
    ∀ m rest, entry_at f' (m :: rest) = if decide (m = n) then None else entry_at f (m :: rest).
Proof.
  intros Hd Hwf Hfull. exists (of_items (entry_remove n (items f))).
  rewrite denotes_items in *. rewrite wf_items, full_items, items_of_items in *. destruct Hwf as [Ha Hall].
  split; [by apply related_remove|]. split.
  { split; [by apply ascending_remove|by apply Forall_entry_remove]. }
  split; [by apply Forall_entry_remove|]. intros m rest.
  rewrite !entry_at_items, items_of_items, entry_get_remove by by apply ascending_NoDup. by case_decide.
Qed.

(** What an entry of a denoting node is. *)
Lemma denotes_get f entries n : denotes f entries → wf f → full f →
  match entry_get n entries with
  | None => ∀ rest, entry_at f (n :: rest) = None
  | Some payload =>
      ∃ i, denotes_item payload i ∧ item_wf (n, i) ∧ item_full (n, i) ∧
        ∀ rest, entry_at f (n :: rest) = item_entry i rest
  end.
Proof.
  intros Hd%denotes_items Hwf Hfull. pose proof (related_get _ n _ _ Hd) as Hg.
  rewrite wf_items, full_items in *. destruct Hwf as [_ Hwf].
  destruct (entry_get n entries) as [payload|], (entry_get n (items f)) as [i|] eqn:Ei; try done.
  - exists i. split; [done|]. apply entry_get_Some in Ei as Hin. rewrite Forall_forall in Hwf, Hfull.
    split; [by apply Hwf|]. split; [by apply Hfull|]. intros rest. rewrite entry_at_items, Ei. by destruct i.
  - intros rest. by rewrite entry_at_items, Ei.
Qed.

Lemma denotes_ascending f entries : denotes f entries → wf f → ascending entries.
Proof.
  intros Hd%denotes_items Hwf. unfold ascending. rewrite (related_keys _ _ _ Hd).
  by apply wf_items in Hwf as [Ha _].
Qed.

(** ** Clean nodes *)

(** Replacing a payload by one that was read from the same keys. *)
Lemma shallow_insert n payload payload' entries :
  ascending entries → entry_get n entries = Some payload → shallow payload' = shallow payload →
  mapM shallow_entry (entry_insert n payload' entries) = mapM shallow_entry entries.
Proof.
  intros Ha. induction entries as [|[m p] entries IH]; cbn [entry_get entry_insert]; [done|].
  pose proof Ha as Ha0. unfold ascending in Ha. cbn in Ha. apply StronglySorted_cons in Ha as [Hlt Ha].
  destruct (String.eqb_spec m n) as [->|Hne].
  - intros [= ->] Hs. cbn [mapM]. unfold shallow_entry. cbn. by rewrite Hs.
  - intros Hg Hs. assert (str_lt m n) as Hmn.
    { rewrite Forall_forall in Hlt. apply Hlt, list_elem_of_fmap. exists (n, payload). split; [done|].
      by apply entry_get_Some. }
    apply str_lt_le in Hmn as [Hmn _]. unfold str_le in Hmn. rewrite Hmn. cbn [mapM]. by rewrite (IH Ha Hg Hs).
Qed.

Lemma header_update node entries changed : header node →
  (changed = false → mapM shallow_entry entries = mapM shallow_entry (ed_entries node)) →
  header (ed_update node entries changed).
Proof.
  destruct node as [original fv ke old dirty]. cbn. intros (-> & -> & Hclean) Hs. split; [done|]. split; [done|].
  intros [Hd Hc]%orb_false_iff key Hkey. destruct (Hclean Hd key Hkey) as (node & Hn & He).
  exists node. split; [done|]. by rewrite (Hs Hc).
Qed.

Lemma header_dirty node entries changed entries' : header node →
  header (ed_update (ed_update node entries true) entries' changed).
Proof. destruct node as [original fv ke old dirty]. cbn. rewrite orb_true_r. by intros (-> & -> & _). Qed.

Lemma ed_update_key node entries changed : ed_original_key (ed_update node entries changed) = ed_original_key node.
Proof. by destruct node. Qed.

Lemma ed_update_entries node entries changed : ed_entries (ed_update node entries changed) = entries.
Proof. by destruct node. Qed.

Lemma header_empty : header (editable_empty crypto).
Proof. by split_and!. Qed.

(** ** Loading a node *)

Lemma entry_insert_last {A} n (a : A) l : Forall (λ m, str_lt m n) l.*1 → entry_insert n a l = (l ++ [(n, a)])%list.
Proof.
  induction l as [|[m b] l IH]; cbn; [done|]. intros [Hm Hl]%Forall_cons. pose proof Hm as Hlt.
  apply str_lt_le in Hm as [Hle Hne]. unfold str_le in Hle. rewrite Hle.
  destruct (String.eqb_spec m n); [done|]. by rewrite IH.
Qed.

Lemma from_tree_entries acc es :
  StronglySorted str_lt (acc.*1 ++ (te_name <$> es))%list →
  foldl (λ entries entry, entry_insert (te_name entry) (from_tree (te_payload entry)) entries) acc es
  = (acc ++ ((λ e, (te_name e, from_tree (te_payload e))) <$> es))%list.
Proof.
  revert acc. induction es as [|e es IH]; intros acc Hs; cbn; [by rewrite app_nil_r|].
  rewrite entry_insert_last.
  - rewrite IH; [by rewrite <- (assoc_L (++))|]. rewrite fmap_app. cbn. by rewrite <- (assoc_L (++)).
  - apply Forall_forall. intros m Hm. clear IH. induction acc as [|[k a] acc IHa]; [by apply not_elem_of_nil in Hm|].
    cbn in Hs, Hm. apply StronglySorted_cons in Hs as [Hlt Hs]. apply elem_of_cons in Hm as [->|Hm]; [|by apply IHa].
    rewrite Forall_forall in Hlt. apply Hlt, elem_of_app. right. by left.
Qed.

Lemma denotes_read f : wf f → backed holds_node f →
  denotes f ((λ e, (te_name e, from_tree (te_payload e))) <$> entries_of f).
Proof.
  induction f as [|n e r IH|n mode key b _ r IH]; cbn; [done|..].
  - intros (_ & _ & Hle & Hwr) Hb. split; [done|]. split; [|by apply IH]. by destruct e; [|destruct Hle|].
  - intros (_ & _ & Hwb & Hwr) (Hnode & Hbb & Hbr). split; [done|]. split; [|by apply IH].
    exists (Stored key). split; [by destruct mode|]. done.
Qed.

Lemma shallow_read es :
  mapM shallow_entry ((λ e, (te_name e, from_tree (te_payload e))) <$> es) = Some es.
Proof.
  induction es as [|[n p] es IH]; [done|]. rewrite fmap_cons. cbn [mapM]. rewrite IH.
  by destruct p.
Qed.

(** [node] is the editable copy of a directory that denotes [f]. *)
Definition edits (node : EditableNode) (f : forest) : Prop :=
  header node ∧ denotes f (ed_entries node) ∧ wf f ∧ full f.

Lemma opens_format key node : opens objects crypto limits key node → tn_format_version node = TREE_FORMAT_VERSION.
Proof.
  unfold opens, opened. intros [n Hn]. destruct (get_manifest _ _) as [sealed|]; [|done].
  destruct (negb _); [done|]. destruct (open_tree_node _ _ _) as [[plaintext e]|]; [|done].
  destruct (decode_node _ _ _) as [node'|] eqn:Hd; [|done]. injection Hn as -> _.
  revert Hd. unfold decode_node, result_bind. destruct (result_ok_or _ _) as [nd|]; [|done].
  destruct (Z.eqb_spec (tn_format_version nd) TREE_FORMAT_VERSION) as [Hv|]; [|done]. cbn.
  destruct (negb _); [done|]. destruct (_ <? _); [done|].
  destruct (validate_entries _ _ _) as [[]|]; [|done]. by intros [= <-].
Qed.

Lemma edits_read key node f : holds_node key node → tn_entries node = entries_of f → backed holds_node f →
  wf f → full f → edits (from_tree_node node (Some key)) f.
Proof.
  intros Hn He Hb Hwf Hfull. unfold edits, from_tree_node. cbn [ed_entries].
  assert (foldl (λ entries entry, entry_insert (te_name entry) (from_tree (te_payload entry)) entries) []
            (tn_entries node) = ((λ e, (te_name e, from_tree (te_payload e))) <$> entries_of f)) as Hfold.
  { rewrite He, from_tree_entries; [done|]. cbn. rewrite te_names, names_items.
    by apply wf_items in Hwf as [Ha _]. }
  rewrite Hfold. split_and!; [|by apply denotes_read|done|done].
  destruct Hn as [Ho Hep]. split; [by eapply opens_format|]. split; [done|].
  intros _ k [= <-]. exists node. split; [done|]. by rewrite shallow_read, He.
Qed.

Lemma open_run key node pending : opens objects crypto limits key node →
  editable_open objects crypto key pending = (Ok (from_tree_node node (Some key)), pending).
Proof.
  intros [n Ho]. unfold editable_open, patch_open_node, opened in *. rewrite bind_run, bind_run.
  destruct (get_manifest objects key) as [sealed|]; [|done]. cbn. rewrite bind_run.
  destruct (negb _); [done|]. cbn. rewrite bind_run.
  destruct (open_tree_node _ _ _) as [[plaintext e]|]; [|done]. cbn.
  destruct (decode_node _ _ _); [|done]. by injection Ho as -> _.
Qed.

Lemma load_run child key below pending : denotes_child child key below → wf below → full below →
  ∃ node, child_load objects crypto child pending = (Ok node, pending) ∧ edits node below ∧
    ed_original_key node = child_key child.
Proof.
  destruct child as [k|node]; cbn.
  - intros [-> [(tn & Hn & He) Hb]] Hwf Hfull. eexists. split; [by apply open_run; apply Hn|].
    split; [by apply edits_read|done].
  - intros [Hh Hd] Hwf Hfull. by exists node.
Qed.

(** ** One key *)

Lemma open_at_epochs_epoch epochs write_epoch sealed last plaintext e :
  open_at_epochs epochs write_epoch sealed limits last = Ok (plaintext, e) → ∃ key, (e, key) ∈ epochs.
Proof.
  revert last. induction epochs as [|[e' k] epochs IH]; intros last; cbn [open_at_epochs]; [done|].
  destruct (open_bounded _ _ _ _) as [pt|err].
  - intros [= _ <-]. exists k. by left.
  - destruct err; try done; intros Ho%IH; destruct Ho as [key Hin]; exists key; by right.
Qed.

(** In a keyring that holds the writing key alone, every node is sealed under it. *)
Lemma opens_holds key node : (∀ e k, cr_keys crypto !! e = Some k → e = epoch) →
  opens objects crypto limits key node → holds_node key node.
Proof.
  intros Hone Ho. split; [done|]. revert Ho. unfold opens, opened. intros [n Hn].
  destruct (get_manifest _ _) as [sealed|]; [|done]. destruct (negb _); [done|].
  destruct (open_tree_node _ _ _) as [[plaintext e]|] eqn:Hopen; [|done].
  assert (e = epoch) as ->.
  { unfold open_tree_node in Hopen. destruct (_ <? _); [done|].
    apply open_at_epochs_epoch in Hopen as [k Hk]. eapply Hone. by apply elem_of_epochs_descending. }
  destruct (decode_node _ _ _) as [node'|] eqn:Hd; [|done]. injection Hn as -> _.
  revert Hd. unfold decode_node, result_bind. destruct (result_ok_or _ _) as [nd|]; [|done].
  destruct (negb _); [done|]. destruct (Z.eqb_spec (tn_key_epoch nd) epoch) as [Hv|]; [|done]. cbn.
  destruct (_ <? _); [done|]. destruct (validate_entries _ _ _) as [[]|]; [|done]. by intros [= <-].
Qed.

End Denotes.
