(* ===== verification/PatchApply.v ===== *)
(** * Applying changes to an editable tree

    Applying one change moves the entries the tree denotes exactly at the changed path,
    dropping what lay under a path that is removed or becomes a leaf; applying a grouped
    delta leaves the entries of the changed manifest. *)

From stdpp Require Import sorting.
From S2P Require Import Prelude.
From S2P Require Import ManifestTypes.
From S2P Require Import MergeMatrix.
From S2P Require Import Ordered.
From S2P Require Import Materialize.
From S2P Require Import Paths.
From S2P Require Import Store.
From S2P Require Import Tree.
From S2P Require Import TreeTransport.
From S2P Require Import TreePatch.
From S2P Require Import DiskLemmas.
From S2P Require Import Forest.
From S2P Require Import FetchTheorems.
From S2P Require Import Decompose.
From S2P Require Import TreeTheorems.
From S2P Require Import PatchTree.
From S2P Require Import PatchNodes.
Local Open Scope string_scope.
Open Scope Z_scope.

(** ** One change *)

(** What a change leaves below its path. *)
Definition under (change : option ManifestEntry) (existing : option ManifestEntry) : option ManifestEntry :=
  match change with Some (DirectoryEntry _) => existing | _ => None end.

(** The entry at [q] once [change] is made at [l]. *)
Fixpoint change_at (entry : list string → option ManifestEntry) (l : list string) (change : option ManifestEntry)
    (q : list string) : option ManifestEntry :=
  match l, q with
  | [], [] => change
  | [], _ :: _ => under change (entry q)
  | _ :: _, [] => entry []
  | n :: l, m :: rest => if decide (m = n) then change_at (λ r, entry (n :: r)) l change rest else entry q
  end.

Lemma change_at_proper e1 e2 l change q : (∀ r, e1 r = e2 r) → change_at e1 l change q = change_at e2 l change q.
Proof.
  revert e1 e2 q. induction l as [|n l IH]; intros e1 e2 [|m q] He; cbn; [done|by rewrite He..|].
  case_decide; [|done]. by apply IH.
Qed.

Lemma change_at_ext e1 e2 l change q : (∀ n r, e1 (n :: r) = e2 (n :: r)) → q ≠ [] →
  change_at e1 l change q = change_at e2 l change q.
Proof.
  intros He Hq. destruct q as [|m q]; [done|]. destruct l as [|n l]; cbn; [by rewrite He|].
  case_decide; [|done]. by apply change_at_proper.
Qed.

Lemma change_at_here entry l change : change_at entry l change l = change.
Proof. revert entry. induction l as [|n l IH]; intros entry; cbn; [done|]. by rewrite decide_True. Qed.

Lemma change_at_below entry l change r : r ≠ [] →
  change_at entry l change (l ++ r)%list = under change (entry (l ++ r)%list).
Proof.
  revert entry. induction l as [|n l IH]; intros entry Hr; cbn; [by destruct r|].
  rewrite decide_True by done. by rewrite IH.
Qed.

Lemma change_at_other entry l change q : ¬ l `prefix_of` q → change_at entry l change q = entry q.
Proof.
  revert entry q. induction l as [|n l IH]; intros entry q Hp; [destruct Hp; apply prefix_nil|].
  destruct q as [|m q]; cbn; [done|]. case_decide; subst; [|done]. rewrite IH; [done|].
  intros Hl. by apply Hp, prefix_cons.
Qed.

(** Removing where nothing is. *)
Lemma change_at_none entry l q : (∀ r, entry r = None) → change_at entry l None q = None.
Proof.
  revert entry q. induction l as [|n l IH]; intros entry [|m q] He; cbn; [done..|apply He|].
  case_decide; [|apply He]. by apply IH.
Qed.

(** The manifest once the delta is made. *)
Definition patched (m : gmap WorkspacePath ManifestEntry) (changes : gmap WorkspacePath (option ManifestEntry))
    : gmap WorkspacePath ManifestEntry :=
  merge (λ old change, match change with Some change => change | None => old end) m changes.

#[export] Instance replacement_le_trans : Transitive replacement_le.
Proof.
  intros a b c [Hab|[Hab Hs]] [Hbc|[Hbc Ht]]; unfold replacement_le; [left; lia..|].
  right. split; [lia|]. by etrans.
Qed.

#[export] Instance replacement_le_total : Total replacement_le.
Proof.
  intros a b. unfold replacement_le. destruct (total str_le a.1 b.1), (lt_eq_lt_dec (path_depth a.1) (path_depth b.1)) as [[]|];
    eauto with lia.
Qed.

Section Apply.
Context {Obj : Type} `{Blake3} `{NodeCodec} `{Sealing} `{Envelope} `{RemoteObjects Obj}.
Context (objects : Obj) (crypto : WorkspaceCrypto).

Local Abbreviation header := (header objects crypto).
Local Abbreviation denotes := (denotes objects crypto).
Local Abbreviation denotes_item := (denotes_item objects crypto).
Local Abbreviation edits := (edits objects crypto).

(** The outcome of applying [change] at [l] to the node of [f]. *)
Definition applied (node : EditableNode) (f : forest) (l : list string) (change : option ManifestEntry)
    (changed : bool) (node' : EditableNode) : Prop :=
  ed_original_key node' = ed_original_key node ∧
  (changed = false → ed_entries node' = [] → ed_entries node = []) ∧
  ∃ f', edits node' f' ∧ ∀ q, entry_at f' q = change_at (entry_at f) l change q.

Lemma applied_unchanged node f l change : edits node f →
  (∀ q, entry_at f q = change_at (entry_at f) l change q) → applied node f l change false node.
Proof. intros He Hq. split_and!; [done|done|]. by exists f. Qed.

(** ** The last component *)

(** What [denotes_get] says of one name: [entry] is the entry at and below it. *)
Definition presents (n : string) (existing : option EditablePayload)
    (entry : list string → option ManifestEntry) : Prop :=
  match existing with
  | None => ∀ rest, entry rest = None
  | Some payload =>
      ∃ i, denotes_item payload i ∧ item_wf (n, i) ∧ item_full (n, i) ∧ ∀ rest, entry rest = item_entry i rest
  end.

Lemma payload_dir payload mode child n entry : payload = edit_dir mode child → presents n (Some payload) entry →
  ∃ key below, denotes_child objects crypto child key below ∧ segment n ∧ wf below ∧ full below ∧
    (mode = None → below ≠ FNil) ∧ entry [] = DirectoryEntry <$> mode ∧
    ∀ m r, entry (m :: r) = entry_at below (m :: r).
Proof.
  intros -> ([e|mode' key below] & Hi & [Hn Hwf] & Hfull & He); cbn in Hi.
  - by destruct mode, e.
  - destruct Hi as (child' & Hc & Hd). exists key, below. destruct Hfull as [Hne Hfull].
    assert (mode = mode' ∧ child = child') as [-> ->] by (destruct mode, mode'; naive_solver).
    split_and!; [done..|by rewrite He|]. intros m r. by rewrite He.
Qed.

Lemma payload_leaf payload e n entry : leaf_edit e = Some payload → presents n (Some payload) entry →
  (∃ e', is_leaf e' ∧ entry [] = Some e') ∧ ∀ m r, entry (m :: r) = None.
Proof.
  intros Hp ([e'|mode key below] & Hi & [_ Hwf] & _ & He); cbn in Hi.
  - split; [exists e'; by rewrite He|]. intros m r. by rewrite He.
  - destruct Hi as (child & -> & _). by destruct e, mode.
Qed.

Lemma new_directory n mode entry : segment n → (∀ m r, entry (m :: r) = None) →
  ∃ i, denotes_item (EditDirectory mode (Loaded (editable_empty crypto))) i ∧ item_wf (n, i) ∧ item_full (n, i) ∧
    ∀ rest, item_entry i rest = change_at entry [] (Some (DirectoryEntry mode)) rest.
Proof.
  intros Hn He. exists (IDir (Some mode) "" FNil). cbn. split_and!; try done.
  - eexists. split; [by instantiate (1 := Loaded _)|]. split; [apply header_empty|done].
  - intros [|m r]; cbn; [done|]. by rewrite He.
Qed.

Lemma replacement_spec n entry existing e :
  segment n → presents n existing entry →
  ∃ i, denotes_item (replacement crypto e existing).1 i ∧ item_wf (n, i) ∧ item_full (n, i) ∧
    (∀ rest, item_entry i rest = change_at entry [] (Some e) rest) ∧
    ((replacement crypto e existing).2 = false → existing = Some (replacement crypto e existing).1).
Proof.
  intros Hn Hp. destruct e as [size mode content_id blob_key key_epoch|mode|mode target]; cbn [replacement].
  - exists (ILeaf (FileEntry size mode content_id blob_key key_epoch)). split_and!; try done.
    destruct existing as [[]|]; cbn; try done. rewrite negb_false_iff, !andb_true_iff, !Z.eqb_eq, !String.eqb_eq.
    naive_solver.
  - destruct existing as [[s md c bk ke|old child|child|md target]|].
    + destruct (payload_leaf _ (FileEntry s md c bk ke) _ _ eq_refl Hp) as [_ Hnone].
      destruct (new_directory n mode entry Hn Hnone) as (i & ? & ? & ? & ?). by exists i.
    + destruct (payload_dir _ (Some old) child _ _ eq_refl Hp) as (key & below & Hd & _ & Hwf & Hfull & _ & _ & He).
      exists (IDir (Some mode) key below). split_and!; try done; [by exists child| |].
      * intros [|m r]; cbn; [done|]. by rewrite He.
      * cbn. rewrite negb_false_iff, Z.eqb_eq. by intros ->.
    + destruct (payload_dir _ None child _ _ eq_refl Hp) as (key & below & Hd & _ & Hwf & Hfull & _ & _ & He).
      exists (IDir (Some mode) key below). split_and!; try done; [by exists child|].
      intros [|m r]; cbn; [done|]. by rewrite He.
    + destruct (payload_leaf _ (SymlinkEntry md target) _ _ eq_refl Hp) as [_ Hnone].
      destruct (new_directory n mode entry Hn Hnone) as (i & ? & ? & ? & ?). by exists i.
    + destruct (new_directory n mode entry Hn) as (i & ? & ? & ? & ?); [intros; apply Hp|]. by exists i.
  - exists (ILeaf (SymlinkEntry mode target)). split_and!; try done.
    destruct existing as [[]|]; cbn; try done. rewrite negb_false_iff, !andb_true_iff, !Z.eqb_eq, !String.eqb_eq.
    naive_solver.
Qed.

Lemma change_at_name entry n l change m rest :
  change_at entry (n :: l) change (m :: rest) =
  if decide (m = n) then change_at (λ r, entry (n :: r)) l change rest else entry (m :: rest).
Proof. done. Qed.

Lemma apply_leaf_spec node f n change : edits node f → segment n →
  applied node f [n] change (apply_leaf crypto node n change).1 (apply_leaf crypto node n change).2.
Proof.
  intros (Hh & Hd & Hwf & Hfull) Hn. pose proof (denotes_get objects crypto f _ n Hd Hwf Hfull) as Hget.
  pose proof (denotes_ascending objects crypto f _ Hd Hwf) as Ha. unfold apply_leaf. destruct change as [e|].
  - destruct (replacement_spec n _ _ e Hn Hget) as (i & Hi & Hiw & Hif & Hie & Hsame).
    destruct (replacement _ _ _) as [payload changed]. cbn in *.
    destruct (put_item objects crypto f _ n payload i Hd Hwf Hfull Hi Hiw Hif) as (f' & Hd' & Hwf' & Hfull' & He).
    rewrite entry_insert_remove by done. unfold applied. rewrite ed_update_key, ed_update_entries.
    split_and!; [done|intros _ Hnil; by apply entry_insert_ne in Hnil|]. exists f'. split.
    + unfold PatchNodes.edits. rewrite ed_update_entries. split_and!; try done. apply header_update; [done|].
      intros Hc. by eapply shallow_insert; [|apply Hsame|].
    + intros [|m rest]; [by cbn [change_at]; rewrite !entry_at_nil|]. rewrite He, change_at_name. by case_decide; subst.
  - destruct (drop_item objects crypto f _ n Hd Hwf Hfull) as (f' & Hd' & Hwf' & Hfull' & He). cbn [fst snd].
    unfold applied. rewrite ed_update_key, ed_update_entries.
    assert (is_some (entry_get n (ed_entries node)) = false → entry_remove n (ed_entries node) = ed_entries node) as Hrm.
    { intros Hs. apply entry_remove_absent. by destruct (entry_get _ _). }
    split_and!; [done|by intros Hs; rewrite Hrm|]. exists f'. split.
    + unfold PatchNodes.edits. rewrite ed_update_entries. split_and!; try done. apply header_update; [done|].
      intros Hs. by rewrite Hrm.
    + intros [|m rest]; [by cbn [change_at]; rewrite !entry_at_nil|]. rewrite He, change_at_name. case_decide; [|done]. by destruct rest.
Qed.

(** ** The components before it *)

(** A leaf stands on the way to [l]. *)
Definition blocked (f : forest) (l : list string) : Prop :=
  ∃ l1 l2 e, l = (l1 ++ l2)%list ∧ l1 ≠ [] ∧ l2 ≠ [] ∧ entry_at f l1 = Some e ∧ is_leaf e.

(** The change as the directory [n] sees it. *)
Lemma change_at_dir f f' below below' n l change :
  (∀ m rest, entry_at f' (m :: rest) =
     if decide (m = n) then item_at rest (entry_at below') (entry_at f [n]) else entry_at f (m :: rest)) →
  (∀ m r, entry_at f (n :: m :: r) = entry_at below (m :: r)) → l ≠ [] →
  (∀ q, entry_at below' q = change_at (entry_at below) l change q) →
  ∀ q, entry_at f' q = change_at (entry_at f) (n :: l) change q.
Proof.
  intros Hf' Hbelow Hl Hb [|m rest]; [by cbn [change_at]; rewrite !entry_at_nil|].
  rewrite Hf', change_at_name. case_decide; [|done]. subst. destruct rest as [|m' r]; cbn [item_at].
  - by destruct l.
  - rewrite Hb. by apply change_at_ext.
Qed.

Lemma shallow_dir mode child : shallow (edit_dir mode child) = dir_payload mode <$> child_key child.
Proof. by destruct mode. Qed.

(** Putting an edited child back under its name. *)
Lemma put_child node f n l change changed payload mode child below child' below' :
  edits node f → entry_get n (ed_entries node) = Some payload → payload = edit_dir mode child → segment n → l ≠ [] →
  entry_at f [n] = DirectoryEntry <$> mode → (∀ m r, entry_at f (n :: m :: r) = entry_at below (m :: r)) →
  edits child' below' → ed_original_key child' = child_key child →
  (∀ q, entry_at below' q = change_at (entry_at below) l change q) →
  (mode = None → ed_entries child' ≠ []) →
  applied node f (n :: l) change changed
    (ed_update node (entry_insert n (edit_dir mode (Loaded child')) (ed_entries node)) changed).
Proof.
  intros (Hh & Hd & Hwf & Hfull) Hget Hp Hn Hl Hhere Hbelow (Hh' & Hd' & Hwf' & Hfull') Hkey Hq Hne.
  assert (below' = FNil ↔ ed_entries child' = []) as Hnil by by eapply denotes_empty.
  destruct (put_item objects crypto f _ n (edit_dir mode (Loaded child')) (IDir mode "" below') Hd Hwf Hfull)
    as (f' & Hd2 & Hwf2 & Hfull2 & He).
  { by exists (Loaded child'). } { done. } { split; [|done]. intros Hm Hb. by apply (Hne Hm), Hnil. }
  unfold applied. rewrite ed_update_key, ed_update_entries.
  split_and!; [done|intros _ Hx; by apply entry_insert_ne in Hx|]. exists f'. split.
  - unfold PatchNodes.edits. rewrite ed_update_entries. split_and!; try done. apply header_update; [done|]. intros _.
    apply shallow_insert with payload; [by eapply denotes_ascending|done|]. subst payload.
    rewrite !shallow_dir. cbn. by rewrite Hkey.
  - eapply (change_at_dir f f' below below'); [|done..]. intros m rest. rewrite He. by rewrite Hhere.
Qed.

(** Dropping an implicit directory that became empty. *)
Lemma prune_child node f n l change changed below child' below' :
  edits node f → l ≠ [] → changed = true →
  entry_at f [n] = None → (∀ m r, entry_at f (n :: m :: r) = entry_at below (m :: r)) →
  edits child' below' → ed_entries child' = [] →
  (∀ q, entry_at below' q = change_at (entry_at below) l change q) →
  applied node f (n :: l) change changed (ed_update node (entry_remove n (ed_entries node)) changed).
Proof.
  intros (Hh & Hd & Hwf & Hfull) Hl -> Hhere Hbelow (Hh' & Hd' & _) Hnil Hq.
  assert (below' = FNil) as -> by by apply (denotes_empty objects crypto _ _ Hd').
  destruct (drop_item objects crypto f _ n Hd Hwf Hfull) as (f' & Hd2 & Hwf2 & Hfull2 & He).
  unfold applied. rewrite ed_update_key, ed_update_entries. split_and!; [done..|]. exists f'. split.
  - unfold PatchNodes.edits. rewrite ed_update_entries. split_and!; try done. by apply header_update.
  - eapply (change_at_dir f f' below FNil); [|done..]. intros m rest. rewrite He, Hhere.
    case_decide; [|done]. by destruct rest.
Qed.

(** Growing a new implicit directory. *)
Lemma plant_child node f n l change changed child' below' :
  edits node f → segment n → l ≠ [] → (∀ rest, entry_at f (n :: rest) = None) →
  edits child' below' → (∀ q, entry_at below' q = change_at (entry_at FNil) l change q) →
  ed_entries child' ≠ [] →
  applied node f (n :: l) change changed
    (ed_update (ed_update node (entry_insert n (EditSubtree (Loaded (editable_empty crypto))) (ed_entries node)) true)
       (entry_insert n (EditSubtree (Loaded child')) (ed_entries node)) changed).
Proof.
  intros (Hh & Hd & Hwf & Hfull) Hn Hl Hnone (Hh' & Hd' & Hwf' & Hfull') Hq Hne.
  destruct (put_item objects crypto f _ n (EditSubtree (Loaded child')) (IDir None "" below') Hd Hwf Hfull)
    as (f' & Hd2 & Hwf2 & Hfull2 & He).
  { by exists (Loaded child'). } { done. } { split; [|done]. intros _ Hb. by apply Hne, (denotes_empty objects crypto _ _ Hd'). }
  unfold applied. rewrite !ed_update_key, !ed_update_entries.
  split_and!; [done|intros _ Hx; by apply entry_insert_ne in Hx|]. exists f'. split.
  - unfold PatchNodes.edits. rewrite ed_update_entries. split_and!; try done. by apply header_dirty.
  - eapply (change_at_dir f f' FNil below'); [|by intros; rewrite Hnone|done..]. intros m rest. by rewrite He, Hnone.
Qed.

(** The child of a payload, opened. *)
Lemma child_mut_spec n payload entry pending : presents n (Some payload) entry →
  wp (child_mut objects crypto payload) (λ r pending', pending' = pending ∧
    match r with
    | Ok None => (∃ e, is_leaf e ∧ entry [] = Some e) ∧ ∀ m r, entry (m :: r) = None
    | Ok (Some (node, put)) => ∃ mode child below,
        payload = edit_dir mode child ∧ (∀ node', put node' = edit_dir mode (Loaded node')) ∧
        edits node below ∧ ed_original_key node = child_key child ∧ (mode = None → ed_entries node ≠ []) ∧
        entry [] = DirectoryEntry <$> mode ∧ ∀ m r, entry (m :: r) = entry_at below (m :: r)
    | Err _ => False
    end) pending.
Proof.
  intros Hp. assert (∀ mode child (put : EditableNode → EditablePayload), payload = edit_dir mode child →
    (∀ node', put node' = edit_dir mode (Loaded node')) →
    wp (node ← child_load objects crypto child; mret (Some (node, put))) (λ r pending', pending' = pending ∧
      match r with
      | Ok None => False
      | Ok (Some (node, put)) => ∃ mode child below,
          payload = edit_dir mode child ∧ (∀ node', put node' = edit_dir mode (Loaded node')) ∧
          edits node below ∧ ed_original_key node = child_key child ∧ (mode = None → ed_entries node ≠ []) ∧
          entry [] = DirectoryEntry <$> mode ∧ ∀ m r, entry (m :: r) = entry_at below (m :: r)
      | Err _ => False
      end) pending) as Hdir.
  { intros mode child put He Hput.
    destruct (payload_dir _ _ _ _ _ He Hp) as (key & below & Hd & Hn & Hwf & Hfull & Hne & Hhere & Hbelow).
    destruct (load_run objects crypto child key below pending Hd Hwf Hfull) as (node & Hrun & Hed & Hkey).
    apply wp_bind. unfold wp. rewrite Hrun. cbn. split; [done|]. exists mode, child, below. split_and!; try done.
    intros Hm Hnil. apply (Hne Hm). by eapply denotes_empty; [apply Hed|]. }
  destruct payload as [size mode c bk ke|mode child|child|mode target]; cbn [child_mut].
  - apply wp_ret. split; [done|]. by eapply (payload_leaf _ (FileEntry size mode c bk ke)).
  - eapply wp_conseq; [by apply (Hdir (Some mode) child)|]. by intros [[[]|]|] ? [-> ?].
  - eapply wp_conseq; [by apply (Hdir None child)|]. by intros [[[]|]|] ? [-> ?].
  - apply wp_ret. split; [done|]. by eapply (payload_leaf _ (SymlinkEntry mode target)).
Qed.

(** What applying [change] at [l] must do, from any node. *)
Definition applies (go : EditableNode → M (list ManifestBatchUpload) TreeError (bool * EditableNode))
    (l : list string) (change : option ManifestEntry) : Prop :=
  ∀ node f pending, edits node f →
    wp (go node) (λ r pending', pending' = pending ∧
      match r with
      | Ok x => applied node f l change x.1 x.2
      | Err _ => is_Some change ∧ blocked f l
      end) pending.

Lemma applied_nonempty node f l e changed node' : applied node f l (Some e) changed node' → ed_entries node' ≠ [].
Proof.
  intros (_ & _ & f' & (_ & Hd & _) & Hq) Hnil. pose proof (Hq l) as Hl. rewrite change_at_here in Hl.
  apply (denotes_empty objects crypto _ _ Hd) in Hnil as ->. by destruct l.
Qed.

Lemma blocked_below f below n l : (∀ m r, entry_at f (n :: m :: r) = entry_at below (m :: r)) →
  blocked below l → blocked f (n :: l).
Proof.
  intros Hb (l1 & l2 & e & -> & Hl1 & Hl2 & He & Hle). exists (n :: l1), l2, e. split_and!; try done.
  destruct l1 as [|m l1]; [done|]. by rewrite Hb.
Qed.

Lemma descend_spec go n l change : segment n → l ≠ [] → applies go l change →
  applies (λ node, apply_descendant objects crypto go node n change) (n :: l) change.
Proof.
  intros Hn Hl Hgo node f pending Hed. pose proof Hed as (Hh & Hd & Hwf & Hfull).
  pose proof (denotes_get objects crypto f _ n Hd Hwf Hfull) as Hget. unfold apply_descendant.
  destruct (entry_get n (ed_entries node)) as [payload|] eqn:Eg; cbn [is_some negb andb].
  - rewrite Eg. cbn [ok_or]. apply wp_bind, wp_ret. apply wp_bind.
    eapply wp_conseq; [by apply (child_mut_spec n payload (λ rest, entry_at f (n :: rest)))|].
    intros [[[child put]|]|] pending' [-> Hc]; [| |done].
    + destruct Hc as (mode & ch & below & Hp & Hput & Hedc & Hkey & Hne & Hhere & Hbelow). apply wp_bind.
      eapply wp_conseq; [by apply (Hgo child below)|]. intros [[changed child']|] pending' [-> Ha].
      2:{ split; [done|]. destruct Ha as [Hs Hb]. split; [done|]. by eapply blocked_below. }
      apply wp_ret. split; [done|]. cbn [fst snd] in *. destruct Ha as (Hk' & Hempty & below' & Hedc' & Hq).
      rewrite Hput. destruct (changed && is_implicit payload && bool_decide (ed_entries child' = [])) eqn:Hprune.
      * apply andb_true_iff in Hprune as [[Hch Himp]%andb_true_iff Hnil%bool_decide_eq_true].
        assert (mode = None) as -> by (subst payload; by destruct mode).
        rewrite entry_remove_insert by by eapply denotes_ascending. by eapply prune_child.
      * eapply put_child; try done; [by rewrite Hk'|]. intros ->. subst payload. cbn in Hprune.
        rewrite andb_true_r in Hprune. destruct changed; cbn in Hprune; [by apply bool_decide_eq_false in Hprune|].
        intros Hnil. by apply (Hne eq_refl), Hempty.
    + destruct Hc as [(e & Hle & Hhere) Hbelow]. destruct change as [c|].
      * apply wp_throw. split; [done|]. split; [done|]. exists [n], l, e. by split_and!.
      * apply wp_ret. split; [done|]. apply applied_unchanged; [done|]. intros [|m rest]; [done|].
        rewrite change_at_name. case_decide as Hm; [|done]. subst m. destruct rest as [|m r]; [by destruct l|].
        rewrite Hbelow, (change_at_ext _ (λ _, None)) by done. by rewrite change_at_none.
  - destruct change as [c|]; cbn [is_some negb andb].
    + rewrite ed_update_entries, entry_get_insert, decide_True by done. cbn [ok_or]. apply wp_bind, wp_ret.
      cbn [child_mut child_load]. apply wp_bind, wp_bind, wp_ret. apply wp_ret. apply wp_bind.
      eapply wp_conseq; [apply (Hgo (editable_empty crypto) FNil); by split; [apply header_empty|]|].
      intros [[changed child']|] pending' [-> Ha]; cbn [fst snd] in *.
      * apply wp_ret. split; [done|]. pose proof (applied_nonempty _ _ _ _ _ _ Ha) as Hne.
        destruct Ha as (_ & _ & below' & Hedc & Hq). cbn [is_implicit].
        rewrite bool_decide_eq_false_2, andb_false_r by done. rewrite entry_insert_insert. by eapply plant_child.
      * destruct Ha as [_ (l1 & l2 & e0 & _ & Hl1 & _ & He & _)]. by destruct l1.
    + apply wp_ret. split; [done|]. apply applied_unchanged; [done|]. intros [|m rest]; [done|].
      rewrite change_at_name. case_decide as Hm; [|done]. subst m. by rewrite Hget, change_at_none.
Qed.

Lemma apply_path_spec l change : l ≠ [] → Forall segment l → applies (apply_path objects crypto l change) l change.
Proof.
  induction l as [|n l IH]; intros Hne Hl; [done|]. apply Forall_cons in Hl as [Hn Hl]. destruct l as [|m l].
  - intros node f pending Hed. cbn [apply_path]. apply wp_ret. split; [done|]. by apply apply_leaf_spec.
  - apply descend_spec; [done..|]. by apply IH.
Qed.

(** ** A list of changes *)

Definition components_ok (path : WorkspacePath) : Prop := Forall segment (split slash path).

Lemma removals_spec paths node f pending : edits node f → Forall components_ok paths →
  wp (apply_changes objects crypto ((λ path, (path, None)) <$> paths) node) (λ r pending', pending' = pending ∧
    ∃ node' f', r = Ok node' ∧ edits node' f' ∧
      (∀ p r, p ∈ paths → entry_at f' (split slash p ++ r)%list = None) ∧
      (∀ q, (∀ p, p ∈ paths → ¬ split slash p `prefix_of` q) → entry_at f' q = entry_at f q)) pending.
Proof.
  intros Hed Hall. revert node f pending Hed. induction Hall as [|p paths Hp _ IH]; intros node f pending Hed.
  - apply wp_ret. split; [done|]. exists node, f. split_and!; [done..| |done]. by intros ?? ?%not_elem_of_nil.
  - cbn [fmap list_fmap apply_changes]. apply wp_bind.
    eapply wp_conseq; [by apply (apply_path_spec _ _ (split_nil _ _) Hp node f)|].
    intros [[changed node1]|] ? [-> Ha]; [|by destruct Ha as [[] _]].
    destruct Ha as (_ & _ & f1 & Hed1 & Hq1). cbn [fst snd] in *.
    eapply wp_conseq; [by apply (IH node1 f1)|]. intros r ? [-> (node' & f' & -> & Hed' & Hin & Hout)].
    split; [done|]. exists node', f'. split_and!; [done..| |].
    + intros p' rr [->|Hp']%elem_of_cons; [|by apply Hin].
      destruct (decide (Exists (λ p', split slash p' `prefix_of` (split slash p ++ rr)%list) paths)) as [Hex|Hno].
      * apply Exists_exists in Hex as (p' & Hp' & [k ->]). by apply Hin.
      * rewrite Hout.
        2:{ intros p' Hp' Hpre. apply Hno, Exists_exists. by exists p'. }
        rewrite Hq1. destruct rr as [|c rr]; [by rewrite app_nil_r, change_at_here|by rewrite change_at_below].
    + intros q Hq. rewrite Hout by (intros p' Hp'; apply Hq; by right). rewrite Hq1. apply change_at_other.
      apply Hq. by left.
Qed.

(** Nothing is below a leaf. *)
Definition leaves_closed (target : list string → option ManifestEntry) : Prop :=
  ∀ l r e, Forall segment (l ++ r)%list → target l = Some e → is_leaf e → r ≠ [] → target (l ++ r)%list = None.

Lemma replacements_spec target changes node f pending :
  leaves_closed target → edits node f → Forall (λ x, components_ok x.1) changes → StronglySorted replacement_le changes →
  (∀ p e, (p, e) ∈ changes → target (split slash p) = Some e) →
  (∀ q, Forall segment q → q ∉ split slash <$> changes.*1 → entry_at f q = target q) →
  wp (apply_changes objects crypto ((λ '(path, entry), (path, Some entry)) <$> changes) node) (λ r pending',
    pending' = pending ∧
    ∃ node' f', r = Ok node' ∧ edits node' f' ∧ ∀ q, Forall segment q → entry_at f' q = target q) pending.
Proof.
  intros Hcl Hed Hall. revert node f pending Hed.
  induction Hall as [|[p e] changes Hp _ IH]; intros node f pending Hed Hsort Hin Hout.
  - apply wp_ret. split; [done|]. exists node, f. split_and!; [done..|]. intros q Hq.
    apply Hout; [done|]. apply not_elem_of_nil.
  - apply StronglySorted_cons in Hsort as [Hle Hsort]. cbn in Hp. assert (target (split slash p) = Some e) as Hpe.
    { apply Hin. by left. }
    cbn [fmap list_fmap apply_changes]. apply wp_bind.
    eapply wp_conseq; [by apply (apply_path_spec _ _ (split_nil _ _) Hp node f)|].
    intros [[changed node1]|] ? [-> Ha]; cbn [fst snd] in *.
    + destruct Ha as (_ & _ & f1 & Hed1 & Hq1). apply (IH node1 f1); [done..| |].
      { intros p' e' Hx. apply Hin. by right. }
      intros q Hq Hnot. rewrite Hq1. destruct (decide (split slash p `prefix_of` q)) as [[r ->]|Hno].
      * destruct r as [|c r]; [by rewrite app_nil_r, change_at_here|]. rewrite change_at_below by done.
        assert (entry_at f (split slash p ++ c :: r)%list = target (split slash p ++ c :: r)%list) as Hsame.
        { apply Hout; [done|]. cbn. rewrite not_elem_of_cons. split; [|done]. intros Heq.
          apply (f_equal length) in Heq. rewrite length_app in Heq. cbn in Heq. lia. }
        destruct e; cbn [under]; [symmetry; by eapply Hcl|done|symmetry; by eapply Hcl].
      * rewrite change_at_other by done. apply Hout; [done|]. cbn. rewrite not_elem_of_cons. split; [|done].
        intros ->. by apply Hno.
    + exfalso. destruct Ha as [_ (l1 & l2 & e1 & Heq & Hl1 & Hl2 & He1 & Hleaf)].
      assert (Forall segment (l1 ++ l2)%list) as Hseg by by rewrite <- Heq.
      assert (target l1 = Some e1) as Ht1.
      { rewrite <- He1. symmetry. apply Hout; [by apply Forall_app in Hseg as [? _]|].
        assert (length l1 < path_depth p)%nat as Hlen.
        { unfold path_depth. rewrite Heq, length_app. destruct l2; [done|]. cbn. lia. }
        cbn. rewrite not_elem_of_cons. split.
        - intros ->. unfold path_depth in Hlen. lia.
        - intros (p' & -> & ([p2 e2] & -> & Hx)%list_elem_of_fmap)%list_elem_of_fmap.
          rewrite Forall_forall in Hle. specialize (Hle _ Hx). unfold replacement_le, path_depth in *. cbn in *. lia. }
      pose proof (Hcl l1 l2 e1 Hseg Ht1 Hleaf Hl2) as Hnone. rewrite <- Heq in Hnone. congruence.
Qed.

(** ** A grouped delta *)

Context (m : gmap WorkspacePath ManifestEntry) (changes : gmap WorkspacePath (option ManifestEntry)).

(** A delta that fits the manifest: its paths are canonical, and a removal is
    accompanied by a change to every path below it. *)
Record grouped : Prop := {
  gr_paths p : is_Some (changes !! p) → components_ok p;
  gr_closed p q : changes !! p = Some None → is_Some (m !! q) →
    split slash p `prefix_of` split slash q → is_Some (changes !! q);
}.

Lemma elem_of_removals p : p ∈ removals_of changes ↔ changes !! p = Some None.
Proof.
  unfold removals_of. rewrite merge_sort_Permutation, list_elem_of_omap. split.
  - intros ([p' [e|]] & Hin%elem_of_btree_iter & Hx); [done|]. by injection Hx as ->.
  - intros Hp. exists (p, None). split; [by apply elem_of_btree_iter|done].
Qed.

Lemma elem_of_replacements p e : (p, e) ∈ replacements_of changes ↔ changes !! p = Some (Some e).
Proof.
  unfold replacements_of. rewrite merge_sort_Permutation, list_elem_of_omap. split.
  - intros ([p' [e'|]] & Hin%elem_of_btree_iter & Hx); [|done]. by injection Hx as -> ->.
  - intros Hp. exists (p, Some e). split; [by apply elem_of_btree_iter|done].
Qed.

Lemma lookup_patched p : patched m changes !! p = default (m !! p) (changes !! p).
Proof. unfold patched. rewrite lookup_merge. by destruct (m !! p), (changes !! p) as [[]|]. Qed.

Lemma split_segments l : l ≠ [] → Forall segment l → split slash (join l) = l.
Proof. intros Hne Hl. apply split_join; [done|]. eapply Forall_impl; [exact Hl|by intros ? []]. Qed.

Lemma delta_spec node f s' pending : edits node f → rows [] f = m → grouped →
  snapshot_forest (patched m changes) = Some s' →
  wp (apply_changes objects crypto ((λ path, (path, None)) <$> removals_of changes) node) (λ r1 pending1,
    ∃ node1, r1 = Ok node1 ∧
      wp (apply_changes objects crypto ((λ '(path, entry), (path, Some entry)) <$> replacements_of changes) node1)
        (λ r pending', pending' = pending ∧ ∃ node' f', r = Ok node' ∧ edits node' f' ∧ shape f' = shape s') pending1) pending.
Proof.
  intros Hed Hrows Hgr Hsnap. pose proof Hsnap as (tree & _ & Ht & Hs)%snapshot_forest_inv.
  pose proof (forest_at_wf _ tree _ [] s' Ht (Forall_nil_2 _) Hs) as Hwfs.
  pose proof (forest_rows _ tree publish_room s' Ht Hs) as Hrs. pose proof Hed as (_ & _ & Hwf & _).
  eapply wp_conseq; [apply (removals_spec (removals_of changes) node f); [done|]|].
  { apply Forall_forall. intros p Hp%elem_of_removals. by apply (gr_paths Hgr p); rewrite Hp. }
  intros r ? [-> (node1 & f1 & -> & Hed1 & Hin & Hout)]. exists node1. split; [done|].
  eapply wp_conseq; [apply (replacements_spec (entry_at s') (replacements_of changes) node1 f1); [|done|..]|].
  - intros l r e _. apply entry_at_leaf.
  - apply Forall_forall. intros [p e] Hp%elem_of_replacements. by apply (gr_paths Hgr p); rewrite Hp.
  - apply (StronglySorted_merge_sort replacement_le).
  - intros p e Hp%elem_of_replacements. rewrite <- rows_entry_at; [|done|by apply (gr_paths Hgr p); rewrite Hp|apply split_nil].
    rewrite Hrs, join_split, lookup_patched, Hp. done.
  - intros q Hq Hnot. destruct q as [|c q]; [by rewrite !entry_at_nil|].
    rewrite <- (rows_entry_at s') by done. rewrite Hrs, lookup_patched.
    destruct (changes !! join (c :: q)) as [[e|]|] eqn:Ec; cbn.
    + destruct Hnot. apply list_elem_of_fmap. exists (join (c :: q)). split; [by rewrite split_segments|].
      apply list_elem_of_fmap. exists (join (c :: q), e). split; [done|]. by apply elem_of_replacements.
    + rewrite <- (app_nil_r (c :: q)). rewrite <- (split_segments (c :: q)) at 1 by done. apply Hin. by apply elem_of_removals.
    + destruct (decide (Exists (λ p, split slash p `prefix_of` c :: q) (removals_of changes))) as [Hex|Hno].
      * apply Exists_exists in Hex as (p & Hp & [k Hk]). rewrite Hk at 1. rewrite Hin by done. symmetry.
        apply elem_of_removals in Hp. destruct (m !! join (c :: q)) as [e|] eqn:Em; [|done].
        destruct (gr_closed Hgr p (join (c :: q)) Hp) as [x Hx]; [by rewrite Em| |congruence].
        rewrite split_segments by done. by exists k.
      * rewrite Hout by (intros p Hp Hpre; apply Hno, Exists_exists; by exists p).
        rewrite <- (rows_entry_at f (c :: q)) by done. by rewrite Hrows.
  - intros r ? [-> (node' & f' & -> & Hed' & Heq)]. split; [done|]. exists node', f'. split_and!; [done..|].
    destruct Hed' as (_ & _ & Hwf' & Hfull'). apply shape_unique; [done..|by eapply (forest_at_full _ tree _ [])|done].
Qed.

End Apply.
