(* ===== verification/PatchTheorems.v ===== *)
(** * Patching is publishing the new manifest

    Sealing an edited tree bottom-up stores the forest it denotes, so that the root a
    patch returns is the root of the changed manifest: fetching it gives that manifest,
    whatever nodes were left as they were. *)

From S2P Require Import Prelude.
From S2P Require Import ManifestTypes.
From S2P Require Import MergeMatrix.
From S2P Require Import Ordered.
From S2P Require Import Materialize.
From S2P Require Import Paths.
From S2P Require Import Store.
From S2P Require Import Tree.
From S2P Require Import TreeTransport.
From S2P Require Import TreePatch.
From S2P Require Import DiskLemmas.
From S2P Require Import Forest.
From S2P Require Import FetchTheorems.
From S2P Require Import Decompose.
From S2P Require Import SubtreeHashes.
From S2P Require Import PublishLemmas.
From S2P Require Import TreeTheorems.
From S2P Require Import PatchTree.
From S2P Require Import PatchNodes.
From S2P Require Import PatchApply.
Local Open Scope string_scope.
Open Scope Z_scope.

Section Persist.
Context {Obj : Type} `{Blake3} `{NodeCodec} `{!NodeCodecLaws} `{Sealing} `{Envelope} `{!EnvelopeLaws}.
Context `{RemoteObjects Obj} `{!RemoteObjectsLaws Obj}.
Context (objects : Obj) (crypto : WorkspaceCrypto).

Local Abbreviation limits := DecodeLimits_default.
Local Abbreviation epoch := (cr_write_epoch crypto).
Local Abbreviation header := (header objects crypto).
Local Abbreviation denotes := (denotes objects crypto).
Local Abbreviation edits := (edits objects crypto).
Local Abbreviation holds_node := (holds_node objects crypto).
Local Abbreviation PM := (M (list ManifestBatchUpload) TreeError).

(** A node of the tree, or one waiting for the upload. *)
Definition ready (pending : list ManifestBatchUpload) (key : ManifestKey) (node : TreeNode) : Prop :=
  holds_node key node ∨ made crypto limits pending key node.

Definition extends (pending pending' : list ManifestBatchUpload) : Prop :=
  ∀ upload, upload ∈ pending → upload ∈ pending'.

Lemma ready_mono pending pending' key node : extends pending pending' → ready pending key node → ready pending' key node.
Proof.
  intros He [?|(u & pt & k & Hin & Hrest)]; [by left|]. right. exists u, pt, k. split; [by apply He|done].
Qed.

(** Sealing the forest's node stores it under the returned key. *)
Definition seals (pending pending' : list ManifestBatchUpload) (f : forest) (r : Result ManifestKey TreeError) : Prop :=
  extends pending pending' ∧
  match r with
  | Ok key => ∃ f', shape f' = shape f ∧ carries (ready pending') key f'
  | Err e => environmental e
  end.

Hypothesis held : is_Some (cr_keys crypto !! epoch).

Lemma upload_node_spec f f' pending :
  shape f' = shape f → decodable limits f → backed (ready pending) f' →
  wp (upload_node crypto {| tn_format_version := TREE_FORMAT_VERSION; tn_key_epoch := epoch; tn_entries := entries_of f' |})
    (λ r pending', seals pending pending' f r) pending.
Proof.
  intros Hshape Hdec Hb. apply (decodable_of_shape _ _ _ Hshape) in Hdec as [Hv Hn]. destruct held as [k Hk].
  unfold upload_node, to_canonical_bytes, wp, tree_node_content_id, seal_tree_node, manifest_result, result_ok_or.
  do 2 unfold_M. rewrite Hk. destruct (to_allocvec _) as [plaintext|] eqn:Hpt; cbn; [|done].
  destruct (seal plaintext k _) as [sealed|error] eqn:Hs; cbn; [|done].
  set (upload := {| mu_key := _ |}).
  assert (extends pending (pending ++ [upload])%list) as Hext by (intros u Hu; apply elem_of_app; by left).
  split; [done|]. exists f'. split; [done|]. split.
  - eexists. split; [|by instantiate (1 := {| tn_entries := _ |})]. right. exists upload, plaintext, k.
    split_and!; try done; [apply elem_of_app; right; by left|]. cbn. by rewrite length_entries_of.
  - eapply backed_mono; [|exact Hb]. intros. by eapply ready_mono.
Qed.

(** ** Sealing bottom-up *)

Definition persist_entry : string * EditablePayload → PM (TreeEntry * bool) := λ '(name, payload),
  '(payload, changed) ← persist_payload crypto payload;
  mret ({| te_name := name; te_payload := payload |}, changed).

Lemma persist_node_eq original_key format_version key_epoch entries dirty :
  persist_node crypto (Editable original_key format_version key_epoch entries dirty) =
  (persisted ← mapM persist_entry entries;
   let upload := upload_node crypto {| tn_format_version := format_version; tn_key_epoch := key_epoch;
                                       tn_entries := persisted.*1 |} in
   match original_key with
   | Some key => if negb dirty && negb (existsb snd persisted) then mret key else upload
   | None => upload
   end).
Proof. done. Qed.

(** What persisting the entries of the directory [f] must do. *)
Definition persists (f : forest) (entries : list (string * EditablePayload)) : Prop := ∀ pending,
  wp (mapM persist_entry entries) (λ r pending', extends pending pending' ∧
    match r with
    | Ok es => ∃ f', shape f' = shape f ∧ entries_of f' = es.*1 ∧ backed (ready pending') f' ∧
        (existsb snd es = false → mapM shallow_entry entries = Some es.*1)
    | Err e => environmental e
    end) pending.

Lemma persist_node_spec node f pending : header node → persists f (ed_entries node) → decodable limits f →
  wp (persist_node crypto node) (λ r pending', seals pending pending' f r) pending.
Proof.
  destruct node as [original fv ke entries dirty]. intros (-> & -> & Hclean) Hp Hdec. rewrite persist_node_eq.
  apply wp_bind. eapply wp_conseq; [apply Hp|]. intros [es|e] pending1 [Hext Hes]; [|done].
  destruct Hes as (f' & Hf & He & Hb & Hsame). cbn zeta.
  assert (wp (upload_node crypto {| tn_format_version := TREE_FORMAT_VERSION; tn_key_epoch := epoch; tn_entries := es.*1 |})
            (λ r pending', seals pending pending' f r) pending1) as Hup.
  { rewrite <- He. eapply wp_conseq; [by apply (upload_node_spec f f')|]. intros r pending2 [Hext2 Hr].
    split; [|done]. intros u Hu. by apply Hext2, Hext. }
  destruct original as [key|]; [|done]. destruct (negb dirty && _) eqn:Hk; [|done].
  apply andb_true_iff in Hk as [->%negb_true_iff Hex%negb_true_iff]. apply wp_ret. split; [done|].
  destruct (Hclean eq_refl key eq_refl) as (node & Hn & Hsh). exists f'. split; [done|]. split; [|done].
  exists node. split; [by left|]. rewrite He. pose proof (Hsame Hex) as Hs2. cbn in Hs2. congruence.
Qed.

(** A child, stored or loaded. *)
Definition persistable (child : EditableChild) (below : forest) : Prop :=
  match child with
  | Stored key => carries holds_node key below
  | Loaded node => header node ∧ persists below (ed_entries node) ∧ decodable limits below
  end.

Lemma persist_child_spec child below pending : persistable child below →
  wp (persist_child crypto child) (λ r pending', extends pending pending' ∧
    match r with
    | Ok (key, changed) =>
        (∃ below', shape below' = shape below ∧ carries (ready pending') key below') ∧
        (changed = false → child_key child = Some key)
    | Err e => environmental e
    end) pending.
Proof.
  destruct child as [key|node]; cbn [persist_child persistable].
  - intros Hc. apply wp_ret. split; [done|]. split; [|done]. exists below. split; [done|].
    eapply carries_mono; [|exact Hc]. by left.
  - intros (Hh & Hp & Hdec). apply wp_bind. eapply wp_conseq; [by apply (persist_node_spec node below)|].
    intros [key|e] pending' [Hext Hr]; [|done]. apply wp_ret. split; [done|]. split; [done|].
    rewrite bool_decide_eq_false. cbn. intros Hk. by apply dec_stable.
Qed.

Lemma persists_nil : persists FNil [].
Proof. intros pending. apply wp_ret. split; [done|]. by exists FNil. Qed.

Lemma persists_leaf n e payload f entries : leaf_edit e = Some payload → persists f entries →
  persists (FLeaf n e f) ((n, payload) :: entries).
Proof.
  intros He Hp pending. cbn [mapM].
  assert (∃ tp, persist_payload crypto payload = mret (tp, false) ∧ leaf_entry n e = {| te_name := n; te_payload := tp |} ∧
            shallow_entry (n, payload) = Some {| te_name := n; te_payload := tp |}) as (tp & Hrun & Hentry & Hsh).
  { destruct e; cbn in He; [injection He as <-|done|injection He as <-]; eexists; by split_and!. }
  apply wp_bind. unfold persist_entry at 1. rewrite Hrun. apply wp_bind, wp_ret, wp_ret. apply wp_bind.
  eapply wp_conseq; [apply Hp|]. intros [es|err] pending' [Hext Hes]; [|done]. apply wp_ret. split; [done|].
  destruct Hes as (f' & Hf & Hent & Hb & Hsame). exists (FLeaf n e f'). cbn.
  split_and!; [by rewrite Hf|by rewrite Hent, Hentry|done|]. intros Hex.
  rewrite Hsh, (Hsame Hex). done.
Qed.

Lemma persists_dir n mode key child below f entries : persistable child below → persists f entries →
  persists (FDir n mode key below f) ((n, edit_dir mode child) :: entries).
Proof.
  intros Hc Hp pending. cbn [mapM].
  assert (persist_payload crypto (edit_dir mode child) =
            ('(key, changed) ← persist_child crypto child; mret (dir_payload mode key, changed))) as Hrun
    by (by destruct mode).
  apply wp_bind. unfold persist_entry at 1. rewrite Hrun. apply wp_bind, wp_bind.
  eapply wp_conseq; [by apply (persist_child_spec child below)|]. intros [[k changed]|e] pending1 [Hext1 Hr]; [|done].
  apply wp_ret, wp_ret. apply wp_bind. eapply wp_conseq; [apply Hp|].
  intros [es|err] pending2 [Hext2 Hes]; [apply wp_ret|]; (split; [intros u Hu; by apply Hext2, Hext1|]); [|done].
  destruct Hr as [(below' & Hbs & Hbc) Hk], Hes as (f' & Hf & Hent & Hb & Hsame). exists (FDir n mode k below' f').
  assert (carries (ready pending2) k below') as [Hnode Hbb].
  { eapply carries_mono; [|exact Hbc]. intros. by eapply ready_mono. }
  cbn. split_and!; [by rewrite Hf, Hbs|by rewrite Hent|done..|]. intros [-> Hex]%orb_false_iff.
  rewrite (Hsame Hex). destruct mode; cbn; by rewrite (Hk eq_refl).
Qed.

Lemma persist_spec f entries : denotes f entries → Forall (decodable limits) (subdirs f) → persists f entries.
Proof.
  revert entries. induction f as [|n e r IHr|n mode key b IHb r IHr]; intros [|[n' payload] entries] Hd Hdec; try done.
  - apply persists_nil.
  - destruct Hd as (-> & He & Hd). apply persists_leaf; [done|by apply IHr].
  - destruct Hd as (-> & (child & -> & Hc) & Hd). cbn in Hdec. apply Forall_cons in Hdec as [Hb [Hbs Hrs]%Forall_app].
    apply persists_dir; [|by apply IHr]. destruct child as [k|node]; [by destruct Hc|].
    destruct Hc as [Hh Hden]. split_and!; [done|by apply IHb|done].
Qed.

(** ** The patch *)

Lemma ready_stored pending objects' key node :
  put_manifests pending objects = (Ok tt, objects') → sized limits objects' →
  ready pending key node → PatchNodes.holds_node objects' crypto key node.
Proof.
  intros Hput Hsize Hr.
  set (p := {| np_objects := objects; np_ledger := unledgered_nodes; np_pending_uploads := pending; np_pending_ledger := [] |}).
  split.
  - apply (available_stored crypto limits p objects' key node Hput Hsize).
    destruct Hr as [[Ho _]|Hm]; [by left|by right].
  - destruct Hr as [[_ He]|(u & pt & k & Hm)]; [done|]. naive_solver.
Qed.

Lemma subdirs_shape g : subdirs (shape g) = shape <$> subdirs g.
Proof. induction g as [|? ? ? IH|? ? ? ? IHb ? IHr]; cbn; [done|done|]. by rewrite fmap_app, IHb, IHr. Qed.

Lemma decodable_tree g g' : shape g = shape g' → Forall (decodable limits) (g' :: subdirs g') →
  Forall (decodable limits) (g :: subdirs g).
Proof.
  intros Hs. assert (∀ x, Forall (decodable limits) (x :: subdirs x) ↔
                          Forall (decodable limits) (shape x :: subdirs (shape x))) as Hx.
  { intros x. rewrite !Forall_cons, subdirs_shape, Forall_fmap, decodable_shape. f_equiv. apply Forall_iff.
    intros y. symmetry. apply decodable_shape. }
  by rewrite (Hx g), (Hx g'), Hs.
Qed.

(** The root opens to an editable copy of the manifest's tree. *)
Lemma open_root root m s f : snapshot_forest m = Some s → shape f = shape s → carries holds_node root f →
  ∃ node, rows [] f = m ∧ edits node f ∧ ∀ pending, editable_open objects crypto root pending = (Ok node, pending).
Proof.
  intros Hsnap Hshape [(tn & Hn & He) Hb]. pose proof Hsnap as (tree & _ & Ht & Hs)%snapshot_forest_inv.
  pose proof (forest_at_wf _ tree _ [] s Ht (Forall_nil_2 _) Hs) as Hwfs.
  pose proof (forest_at_full _ tree _ [] s Ht (Forall_nil_2 _) Hs) as Hfulls.
  exists (from_tree_node tn (Some root)). split_and!.
  - rewrite (rows_of_shape f s) by done. by eapply forest_rows.
  - apply edits_read; [done..|by apply (wf_of_shape _ _ Hshape)|].
    by rewrite <- full_shape, Hshape, full_shape.
  - intros pending. by apply open_run, Hn.
Qed.

(** The whole run of a patch, before the upload. *)
Lemma patch_run root changes m s f s' :
  snapshot_forest m = Some s → shape f = shape s → carries holds_node root f →
  grouped m changes → snapshot_forest (patched m changes) = Some s' → Forall (decodable limits) (s' :: subdirs s') →
  wp (node ← editable_open objects crypto root;
      node ← apply_changes objects crypto ((λ path, (path, None)) <$> removals_of changes) node;
      node ← apply_changes objects crypto ((λ '(path, entry), (path, Some entry)) <$> replacements_of changes) node;
      persist_node crypto node) (λ r pending', seals [] pending' s' r) [].
Proof.
  intros Hsnap Hshape Hc Hgr Hsnap' Hdec.
  destruct (open_root root m s f Hsnap Hshape Hc) as (node & Hrows & Hed & Hopen).
  apply wp_bind. unfold wp at 1. rewrite Hopen. apply wp_bind.
  eapply wp_conseq; [by apply (delta_spec objects crypto m changes node f s')|].
  intros ? pending1 (node1 & -> & Hd). apply wp_bind. eapply wp_conseq; [exact Hd|].
  intros ? ? [-> (node' & f' & -> & (Hh & Hden & _) & Hf')].
  pose proof (decodable_tree f' s' Hf' Hdec) as [Hd1 Hd2]%Forall_cons.
  eapply wp_conseq; [by apply (persist_node_spec node' f' [] Hh (persist_spec f' _ Hden Hd2))|].
  intros [key|e] pending3 Hp; [|done]. destruct Hp as [Hext (f2 & Hf2 & Hc2)].
  split; [done|]. exists f2. split; [by rewrite Hf2|done].
Qed.

(** C9: Patching a root is publishing the changed manifest.  Take a root that carries the
    manifest [m] with every node listed and sealed under the epoch that writes (after a
    rotation a push publishes the whole manifest instead, and [patch_across_rotation] shows
    why), and a grouped delta after which the entries are again a directory tree whose names
    and payloads the decoder accepts.  Then the root the patch returns carries the manifest
    with the delta made: whatever nodes were left as they were, a peer that fetches it gets
    exactly those entries, and the root can be patched again under this epoch.  And such a
    patch fails only when the encoder, the envelope or the transport does: it never descends
    through a leaf, and the internal errors are unreachable. *)
Theorem patch_exact root changes m s f s' r objects' (fold : string → string) node_cap :
  snapshot_forest m = Some s → shape f = shape s → carries holds_node root f →
  grouped m changes → snapshot_forest (patched m changes) = Some s' → Forall (decodable limits) (s' :: subdirs s') →
  patch_tree objects crypto root changes = (r, objects') →
  match r with
  | Ok root' =>
      sized limits objects' →
      (∃ f', shape f' = shape s' ∧ carries (PatchNodes.holds_node objects' crypto) root' f') ∧
      (fits limits node_cap (patched m changes) s' → nodes_within objects' crypto limits node_cap →
       ∃ fetched, fetch_tree objects' crypto limits fold None root' unledgered_nodes = (Ok fetched, unledgered_nodes) ∧
         ft_manifest fetched = {| mf_key_epoch := epoch; mf_entries := patched m changes |})
  | Err e => environmental e ∨ e = TreeTransportFailed TransportFailed
  end.
Proof.
  intros Hsnap Hshape Hc Hgr Hsnap' Hdec. unfold patch_tree. cbn zeta.
  pose proof (patch_run root changes m s f s' Hsnap Hshape Hc Hgr Hsnap' Hdec) as Hrun. unfold wp in Hrun.
  destruct (mbind (M := PM) _ _ []) as [[key|e] pending]; destruct Hrun as [_ Hr].
  2:{ intros [= <- <-]. by left. }
  destruct (put_manifests pending objects) as [[[]|[]] objects2] eqn:Hput; intros [= <- <-]; [|by right].
  intros Hsize. destruct Hr as (f' & Hf' & Hc').
  assert (carries (PatchNodes.holds_node objects2 crypto) key f') as Hc2.
  { eapply carries_mono; [|exact Hc']. intros. by eapply ready_stored. }
  split; [by exists f'|]. intros Hfit Hcap.
  assert (carries (opens objects2 crypto limits) key f') as Hc3 by (eapply carries_mono; [|exact Hc2]; by intros ? ? []).
  eexists. split; [by eapply fetch_carried|done].
Qed.

End Persist.
