(* ===== verification/TreeWitnesses.v ===== *)
(** * The tree transport on a concrete store

    Concrete instances of the libraries the tree transport relies on, small enough to
    evaluate: a digest of fixed length, an injective encoding of nodes, an envelope that
    opens under the key and context it was sealed with, and a create-only object store.
    Their laws hold, so the hypotheses of the transport's theorems can be met; the
    theorems are applied to a manifest of two files in two directories. *)

From Stdlib Require Import Ascii.
From stdpp Require Import countable.
From S2P Require Import Prelude.
From S2P Require Import ManifestTypes.
From S2P Require Import MergeMatrix.
From S2P Require Import Ordered.
From S2P Require Import Materialize.
From S2P Require Import Paths.
From S2P Require Import Asides.
From S2P Require Import Store.
From S2P Require Import DiskLemmas.
From S2P Require Import Tree.
From S2P Require Import TreeTransport.
From S2P Require Import TreeDiff.
From S2P Require Import Forest.
From S2P Require Import FetchTheorems.
From S2P Require Import Decompose.
From S2P Require Import SubtreeHashes.
From S2P Require Import PublishLemmas.
From S2P Require Import TreeTheorems.
From S2P Require Import PruneTheorems.
From S2P Require Import DiffTheorems.
Local Open Scope string_scope.
Open Scope Z_scope.

(** ** A digest *)

Fixpoint checksum (acc : Z) (content : bytes) : Z :=
  match content with
  | EmptyString => acc
  | String c content => checksum (Z.land (acc * 257 + Z.of_N (N_of_ascii c) + 1) 2305843009213693951) content
  end.

#[export] Instance w_blake3 : Blake3 :=
  {| blake3_hex content := le_bytes 64 (checksum 7 content);
     blake3_keyed_hex key content := le_bytes 64 (checksum 11 (key +:+ content)) |}.

Lemma w_digests : digests.
Proof. intros content. apply le_bytes_length. Qed.

(** ** Self-delimiting encodings *)

Fixpoint ones (n : nat) : string := match n with O => "2" | Datatypes.S n => String "1" (ones n) end.

Definition put_str (s : string) : string := ones (String.length s) +:+ s.

Fixpoint take_ones (s : string) : option (nat * string) :=
  match s with
  | EmptyString => None
  | String c s =>
      if (c =? "1")%char then (λ '(n, rest), (Datatypes.S n, rest)) <$> take_ones s
      else if (c =? "2")%char then Some (0%nat, s) else None
  end.

Fixpoint take_chars (n : nat) (s : string) : option (string * string) :=
  match n, s with
  | O, _ => Some ("", s)
  | Datatypes.S n, String c s => (λ '(a, rest), (String c a, rest)) <$> take_chars n s
  | Datatypes.S _, EmptyString => None
  end.

Definition take_str (s : string) : option (string * string) :=
  '(n, s) ← take_ones s; take_chars n s.

Lemma take_put_str s rest : take_str (put_str s +:+ rest) = Some (s, rest).
Proof.
  unfold take_str, put_str. rewrite str_app_assoc.
  assert (∀ n t, take_ones (ones n +:+ t) = Some (n, t)) as ->.
  { intros n t. induction n as [|n IH]; cbn [ones]; rewrite str_app_cons; cbn [take_ones]; [done|by rewrite IH]. }
  cbn. induction s as [|c s IH]; cbn [String.length take_chars]; [done|]. rewrite str_app_cons. by rewrite IH.
Qed.

Lemma put_str_inj a b s t : put_str a +:+ s = put_str b +:+ t → a = b ∧ s = t.
Proof. intros He%(f_equal take_str). rewrite !take_put_str in He. by simplify_eq. Qed.

Fixpoint bits (p : positive) : string :=
  match p with
  | xH => ""
  | xO p => String "0" (bits p)
  | xI p => String "1" (bits p)
  end.

Fixpoint from_bits (s : string) : positive :=
  match s with
  | EmptyString => xH
  | String c s => if (c =? "0")%char then xO (from_bits s) else xI (from_bits s)
  end.

Lemma from_bits_bits p : from_bits (bits p) = p.
Proof. induction p as [p IH|p IH|]; cbn [bits from_bits]; [| |done]; by rewrite IH. Qed.

Definition put_int (z : Z) : string := put_str (bits (encode z)).

Definition take_int (s : string) : option (Z * string) :=
  '(digits, rest) ← take_str s; (λ z, (z, rest)) <$> decode (from_bits digits).

Lemma take_put_int z rest : take_int (put_int z +:+ rest) = Some (z, rest).
Proof. unfold take_int, put_int. rewrite take_put_str. cbn. by rewrite from_bits_bits, decode_encode. Qed.

Lemma put_int_inj y z s t : put_int y +:+ s = put_int z +:+ t → y = z ∧ s = t.
Proof. intros He%(f_equal take_int). rewrite !take_put_int in He. by simplify_eq. Qed.

(** ** An encoding of nodes *)

Definition put_payload (payload : TreeEntryPayload) : string :=
  match payload with
  | TreeFile size mode content_id blob_key key_epoch =>
      put_int 0 +:+ put_int size +:+ put_int mode +:+ put_str content_id +:+ put_str blob_key +:+ put_int key_epoch
  | TreeDirectory mode child => put_int 1 +:+ put_int mode +:+ put_str child
  | TreeSubtree child => put_int 2 +:+ put_str child
  | TreeSymlink mode target => put_int 3 +:+ put_int mode +:+ put_str target
  end.

Definition take_payload (s : string) : option (TreeEntryPayload * string) :=
  '(tag, s) ← take_int s;
  if tag =? 0 then
    '(size, s) ← take_int s; '(mode, s) ← take_int s; '(content_id, s) ← take_str s;
    '(blob_key, s) ← take_str s; '(key_epoch, s) ← take_int s;
    Some (TreeFile size mode content_id blob_key key_epoch, s)
  else if tag =? 1 then '(mode, s) ← take_int s; '(child, s) ← take_str s; Some (TreeDirectory mode child, s)
  else if tag =? 2 then '(child, s) ← take_str s; Some (TreeSubtree child, s)
  else '(mode, s) ← take_int s; '(target, s) ← take_str s; Some (TreeSymlink mode target, s).

Lemma take_put_payload payload rest : take_payload (put_payload payload +:+ rest) = Some (payload, rest).
Proof.
  unfold take_payload. destruct payload; cbn [put_payload]; rewrite !str_app_assoc;
    repeat (rewrite ?take_put_int, ?take_put_str; cbn [mbind option_bind Z.eqb Pos.eqb]); done.
Qed.

Fixpoint put_entries (entries : list TreeEntry) : string :=
  match entries with
  | [] => ""
  | entry :: entries => put_str (te_name entry) +:+ put_payload (te_payload entry) +:+ put_entries entries
  end.

Fixpoint take_entries (n : nat) (s : string) : option (list TreeEntry) :=
  match n with
  | O => Some []
  | Datatypes.S n =>
      '(name, s) ← take_str s; '(payload, s) ← take_payload s;
      entries ← take_entries n s; Some ({| te_name := name; te_payload := payload |} :: entries)
  end.

#[export] Instance w_codec : NodeCodec :=
  {| to_allocvec node :=
       Some (put_int (tn_format_version node) +:+ put_int (tn_key_epoch node)
               +:+ put_int (Z.of_nat (length (tn_entries node))) +:+ put_entries (tn_entries node));
     from_bytes s :=
       '(version, s) ← take_int s; '(epoch, s) ← take_int s; '(count, s) ← take_int s;
       entries ← take_entries (Z.to_nat count) s;
       Some {| tn_format_version := version; tn_key_epoch := epoch; tn_entries := entries |} |}.

#[export] Instance w_codec_laws : NodeCodecLaws.
Proof.
  intros [version epoch entries] plaintext [= <-]. cbn -[take_int put_int put_entries take_entries Z.of_nat Z.to_nat].
  repeat (rewrite take_put_int; cbn [mbind option_bind]). rewrite Nat2Z.id.
  assert (take_entries (length entries) (put_entries entries) = Some entries) as ->; [|done].
  induction entries as [|[name payload] entries IH]; [done|].
  cbn [length take_entries put_entries te_name te_payload]. rewrite take_put_str. cbn [mbind option_bind].
  rewrite take_put_payload. cbn [mbind option_bind]. by rewrite IH.
Qed.

(** ** An envelope *)

(** What an envelope is bound to, self-delimiting. *)
Definition w_bound (key : string) (context : EnvelopeContext) : string :=
  put_str key +:+ put_str (ec_object_id context) +:+ put_str (ec_record_id context)
    +:+ put_int (ec_key_epoch context) +:+ put_int (ec_format_version context).

#[export] Instance w_sealing : Sealing := λ plaintext key context, Ok (w_bound key context +:+ plaintext).

#[export] Instance w_opening : Envelope :=
  {| physical_blob_key sealed := "b_" +:+ sealed;
     is_segmented_envelope _ := false;
     open_bounded sealed key context cap :=
       match strip_prefix (w_bound key context) sealed with
       | Some plaintext => if cap <? str_len plaintext then Err DecodedSizeExceeded else Ok plaintext
       | None => Err EnvelopeRefused
       end;
     open_segmented _ _ _ _ := Err EnvelopeRefused |}.

#[export] Instance w_envelope_laws : EnvelopeLaws.
Proof.
  constructor.
  - intros plaintext key context sealed cap [= <-]. cbn. by rewrite strip_prefix_app.
  - intros plaintext key context sealed key' context' cap [= <-] Hne. cbn.
    destruct (strip_prefix _ _) as [rest|] eqn:E; [|done]. exfalso. apply Hne.
    apply strip_prefix_Some in E. unfold w_bound in E. rewrite !str_app_assoc in E.
    apply put_str_inj in E as [-> E]. apply put_str_inj in E as [E1 E]. apply put_str_inj in E as [E2 E].
    apply put_int_inj in E as [E3 E]. apply put_int_inj in E as [E4 _].
    destruct context, context'. cbn in *. by subst.
Qed.

(** ** A create-only object store *)

Abbreviation w_objects := (gmap ManifestKey bytes).

Definition w_put (upload : ManifestBatchUpload) : M w_objects TransportError unit := λ objects,
  match objects !! mu_key upload with
  | Some sealed => (if (sealed =? mu_sealed upload)%string then Ok tt else Err TransportFailed, objects)
  | None => (Ok tt, <[mu_key upload := mu_sealed upload]> objects)
  end.

#[export] Instance w_remote_objects : RemoteObjects w_objects :=
  {| get_manifest objects key := match objects !! key with Some sealed => Ok sealed | None => Err TransportFailed end;
     put_manifests uploads := each uploads w_put |}.

Lemma w_put_keeps upload objects r objects' :
  w_put upload objects = (r, objects') → objects ⊆ objects'.
Proof.
  unfold w_put. destruct (objects !! mu_key upload) eqn:E; intros [= _ <-]; [done|by apply insert_subseteq].
Qed.

Lemma w_put_all_keeps uploads objects r objects' :
  each uploads w_put objects = (r, objects') → objects ⊆ objects'.
Proof.
  revert objects. induction uploads as [|u uploads IH]; intros objects; cbn [each]; [by intros [= _ <-]|].
  rewrite bind_run. destruct (w_put u objects) as [[[]|] objects1] eqn:E; apply w_put_keeps in E.
  - intros Hr%IH. by transitivity objects1.
  - by intros [= _ <-].
Qed.

#[export] Instance w_remote_laws : RemoteObjectsLaws w_objects.
Proof.
  constructor.
  - intros uploads. cbn. induction uploads as [|u uploads IH]; intros objects objects' upload; cbn [each];
      [by intros _ ?%not_elem_of_nil|].
    rewrite bind_run. destruct (w_put u objects) as [[[]|] objects1] eqn:E; [|done].
    intros Hr [->|Hin]%elem_of_cons; [|by eapply IH].
    assert (objects1 !! mu_key u = Some (mu_sealed u)) as Hu.
    { revert E. unfold w_put. destruct (objects !! mu_key u) as [sealed|] eqn:Eu.
      - destruct (String.eqb_spec sealed (mu_sealed u)) as [->|]; [|done]. by intros [= <-].
      - intros [= <-]. apply lookup_insert_eq. }
    by rewrite (lookup_weaken _ _ _ _ Hu (w_put_all_keeps _ _ _ _ Hr)).
  - intros uploads objects r objects' key sealed Hr. cbn.
    destruct (objects !! key) as [s|] eqn:E; [|done]. intros [= <-].
    by rewrite (lookup_weaken _ _ _ _ E (w_put_all_keeps _ _ _ _ Hr)).
Qed.

(** ** A manifest *)

Definition w_crypto : WorkspaceCrypto := crypto_new "workspace key" 3.

Definition w_manifest (content : string) : gmap WorkspacePath ManifestEntry :=
  {[ "d" := DirectoryEntry 493; "d/f" := FileEntry 5 420 "cid_f" content 3;
     "e/g" := FileEntry 6 420 "cid_g" "b_g" 3 ]}.

Definition w_snapshot (content : string) : forest :=
  FDir "d" (Some 493) "" (FLeaf "f" (FileEntry 5 420 "cid_f" content 3) FNil)
    (FDir "e" None "" (FLeaf "g" (FileEntry 6 420 "cid_g" "b_g" 3) FNil) FNil).

(** The directories of the manifest. *)
Definition w_directories (content : string) : list forest :=
  w_snapshot content :: subdirs (w_snapshot content).

Definition w_universe (f : forest) : Prop := f ∈ (w_directories "b_f" ++ w_directories "b_g")%list.

Lemma w_universe_cases f : w_universe f →
  f = w_snapshot "b_f" ∨ f = w_snapshot "b_g" ∨
  f = FLeaf "f" (FileEntry 5 420 "cid_f" "b_f" 3) FNil ∨ f = FLeaf "f" (FileEntry 5 420 "cid_f" "b_g" 3) FNil ∨
  f = FLeaf "g" (FileEntry 6 420 "cid_g" "b_g" 3) FNil.
Proof. unfold w_universe, w_directories. cbn. rewrite !elem_of_cons, elem_of_nil. naive_solver. Qed.

Ltac by_directory :=
  repeat match goal with H : w_universe _ |- _ => apply w_universe_cases in H as [->|[->|[->|[->| ->]]]] end.

Lemma w_universe_ok : universe w_crypto DecodeLimits_default w_universe.
Proof.
  constructor.
  - intros f Hf. by_directory; cbn; unfold short, is_u64, is_leaf; by vm_compute.
  - intros f Hf. by_directory; by vm_compute.
  - intros f Hf. by_directory; [| |by constructor..]; cbn;
      repeat (apply Forall_cons; split); try apply Forall_nil; try done;
      unfold w_universe, w_directories; cbn; rewrite !elem_of_cons; naive_solver.
  - intros f Hf. by_directory; by vm_compute.
  - intros f g Hf Hg. by_directory;
      (intros _; match goal with |- ?x = ?x => exact eq_refl end) || (intros He; vm_compute in He; discriminate He).
Qed.

(** ** Sizes *)

Definition w_within (cap : Z) (objects : w_objects) : bool :=
  forallb (λ '(_, sealed), str_len sealed <=? cap) (map_to_list objects).

Lemma w_within_lookup cap objects key sealed :
  w_within cap objects = true → objects !! key = Some sealed → str_len sealed ≤ cap.
Proof.
  unfold w_within. rewrite forallb_forall. intros Hall Hk%elem_of_map_to_list%list_elem_of_In.
  specialize (Hall _ Hk). cbn in Hall. lia.
Qed.

Lemma w_sized limits objects : max_sealed_bytes limits ≤ max_decoded_bytes limits →
  w_within (max_sealed_bytes limits) objects = true → sized limits objects.
Proof.
  intros Hcap Hw key sealed. cbn. destruct (objects !! key) as [s|] eqn:E; [|done]. intros [= <-].
  pose proof (w_within_lookup _ _ _ _ Hw E) as Hs. split; [done|].
  intros plaintext storage_key context [= <-]. unfold str_len in *. rewrite str_length_app in Hs. lia.
Qed.

Lemma w_open_shorter epochs write_epoch sealed limits last plaintext epoch :
  open_at_epochs epochs write_epoch sealed limits last = Ok (plaintext, epoch) →
  str_len plaintext ≤ str_len sealed.
Proof.
  revert last. induction epochs as [|[e key] epochs IH]; intros last; [done|]. cbn [open_at_epochs].
  destruct (open_bounded _ _ _ _) as [p|[]] eqn:E; try (by apply IH); [|done]. intros [= <- _].
  cbn in E. destruct (strip_prefix _ _) as [rest|] eqn:Ep; [|done]. destruct (_ <? _); [done|].
  injection E as <-. apply strip_prefix_Some in Ep as ->. unfold str_len. rewrite str_length_app. lia.
Qed.

Lemma w_nodes_within crypto limits cap objects :
  0 ≤ cap → w_within cap objects = true → nodes_within objects crypto limits cap.
Proof.
  intros Hcap Hw key. unfold node_bytes, opened. cbn.
  destruct (objects !! key) as [sealed|] eqn:E; [|done]. destruct (negb _); [done|].
  destruct (open_tree_node crypto sealed limits) as [[plaintext epoch]|] eqn:Eo; [|done].
  destruct (decode_node _ _ _); [|done]. unfold open_tree_node in Eo. destruct (_ <? _); [done|].
  apply w_open_shorter in Eo. pose proof (w_within_lookup _ _ _ _ Hw E). lia.
Qed.

(** ** Publishing and fetching it *)

Definition w_ledger : StoreNodeLedger :=
  store_ledger_new {| ms_files := ∅; ms_engine_state := None; ms_intents := ∅; ms_unsyncable := ∅;
                      ms_pending_push := ∅; ms_blobs := ∅; ms_tree_nodes := ∅;
                      ms_tree_node_epochs := ∅; ms_faults := [] |} 3.

Definition w_publish (content : string) (objects : w_objects) (ledger : StoreNodeLedger) :=
  publish_tree w_crypto {| mf_key_epoch := cr_write_epoch w_crypto; mf_entries := w_manifest content |}
    objects ledger.

(** The objects after the manifest with [content], in a store that holds [objects]. *)
Definition w_stored (content : string) (objects : w_objects) : w_objects := (w_publish content objects w_ledger).2.1.

Definition w_root (content : string) (objects : w_objects) : ManifestKey :=
  match (w_publish content objects w_ledger).1 with Ok root => root | Err _ => "" end.

Definition w_recorded (content : string) (objects : w_objects) : StoreNodeLedger :=
  (w_publish content objects w_ledger).2.2.

Lemma w_published content objects : is_ok (w_publish content objects w_ledger).1 = true →
  publish_tree w_crypto {| mf_key_epoch := cr_write_epoch w_crypto; mf_entries := w_manifest content |}
    objects w_ledger
  = (Ok (w_root content objects), (w_stored content objects, w_recorded content objects)).
Proof.
  fold (w_publish content objects w_ledger). unfold w_root, w_stored, w_recorded.
  by destruct (w_publish content objects w_ledger) as [[root|error] [objects' ledger]].
Qed.

Lemma w_empty_sound objects : sound w_crypto DecodeLimits_default w_universe objects w_ledger.
Proof. by intros hash key [Hr|Hr]. Qed.

Lemma w_held : is_Some (cr_keys w_crypto !! cr_write_epoch w_crypto).
Proof. by eexists. Qed.

Lemma w_fits : fits DecodeLimits_default 100000 (w_manifest "b_f") (w_snapshot "b_f").
Proof.
  constructor.
  - apply map_Forall_to_list. vm_compute. by repeat constructor.
  - apply map_Forall_to_list. vm_compute. by repeat constructor.
  - by vm_compute.
  - by split; vm_compute.
  - apply Nat.ltb_lt. by vm_compute.
  - by split; vm_compute.
Qed.

(** The manifest of two files in two directories survives the trip. *)
Lemma publish_roundtrip_witness :
  ∃ fetched, fetch_tree (w_stored "b_f" ∅) w_crypto DecodeLimits_default id None (w_root "b_f" ∅)
               unledgered_nodes = (Ok fetched, unledgered_nodes) ∧
    mf_entries (ft_manifest fetched) = w_manifest "b_f".
Proof.
  destruct (publish_roundtrip w_crypto DecodeLimits_default w_universe w_universe_ok w_held w_digests ∅ w_ledger id
              (w_manifest "b_f") (w_snapshot "b_f") (Ok (w_root "b_f" ∅)) (w_stored "b_f" ∅) (w_recorded "b_f" ∅)
              100000) as (_ & fetched & Hf & Hm).
  - by vm_compute.
  - by left.
  - apply w_empty_sound.
  - refine (w_published "b_f" ∅ _). by vm_compute.
  - apply w_sized; by vm_compute.
  - apply w_fits.
  - apply w_nodes_within; by vm_compute.
  - exists fetched. split; [exact Hf|exact (f_equal mf_entries Hm)].
Defined.

(** ** Two snapshots in one store *)

Definition w_one : w_objects := w_stored "b_g" ∅.
Definition w_both : w_objects := w_stored "b_f" w_one.

Lemma w_delivered content objects s : is_ok (w_publish content objects w_ledger).1 = true →
  snapshot_forest (w_manifest content) = Some s → w_universe s →
  w_within (max_sealed_bytes DecodeLimits_default) (w_stored content objects) = true →
  sound w_crypto DecodeLimits_default w_universe (w_stored content objects) (w_recorded content objects) ∧
  ∃ f, shape f = shape s ∧
    carries (opens (w_stored content objects) w_crypto DecodeLimits_default) (w_root content objects) f.
Proof.
  intros Hok Hs Hu Hw. pose proof (w_published content objects Hok) as Hp.
  pose proof (publish_tree_spec w_crypto DecodeLimits_default w_universe w_universe_ok w_held w_digests
    objects w_ledger _ _ _ _ _ Hs Hu (w_empty_sound objects) Hp) as Hspec.
  cbn in Hspec. apply Hspec, w_sized; [by vm_compute|done].
Qed.

Lemma w_old :
  sound w_crypto DecodeLimits_default w_universe w_both (w_recorded "b_f" w_one) ∧
  ∃ f, shape f = shape (w_snapshot "b_f") ∧ carries (opens w_both w_crypto DecodeLimits_default) (w_root "b_f" w_one) f.
Proof. apply w_delivered; [by vm_compute|by vm_compute|by left|by vm_compute]. Qed.

Lemma w_opens_mono (objects objects' : w_objects) key node : objects ⊆ objects' →
  opens objects w_crypto DecodeLimits_default key node → opens objects' w_crypto DecodeLimits_default key node.
Proof.
  intros Hsub [n Hop]. exists n. revert Hop. unfold opened. cbn.
  destruct (objects !! key) as [sealed|] eqn:E; [|done]. by rewrite (lookup_weaken _ _ _ _ E Hsub).
Qed.

Definition w_included (objects objects' : w_objects) : bool :=
  forallb (λ '(key, sealed), bool_decide (objects' !! key = Some sealed)) (map_to_list objects).

Lemma w_included_subseteq objects objects' : w_included objects objects' = true → objects ⊆ objects'.
Proof.
  unfold w_included. rewrite forallb_forall. intros Hall. apply map_subseteq_spec. intros key sealed Hk.
  apply elem_of_map_to_list, list_elem_of_In, Hall, bool_decide_eq_true in Hk. done.
Qed.

Lemma w_new :
  ∃ f, shape f = shape (w_snapshot "b_g") ∧ carries (opens w_both w_crypto DecodeLimits_default) (w_root "b_g" ∅) f.
Proof.
  destruct (w_delivered "b_g" ∅ (w_snapshot "b_g")) as (_ & f & Hf & Hc);
    [by vm_compute|by vm_compute| |by vm_compute|].
  { unfold w_universe. apply elem_of_app. right. by left. }
  exists f. split; [done|]. eapply carries_mono; [|exact Hc]. intros key node. apply w_opens_mono.
  apply w_included_subseteq. by vm_compute.
Qed.

(** ** Pruning and comparing them *)

Definition w_hashes : gmap DirPath SubtreeHash :=
  match decompose (w_manifest "b_f") with
  | Ok tree => match subtree_hashes tree (cr_write_epoch w_crypto) with Ok hashes => hashes | Err _ => ∅ end
  | Err _ => ∅
  end.

Definition w_tree : DirectoryTree :=
  match decompose (w_manifest "b_f") with Ok tree => tree | Err _ => ∅ end.

Definition w_basis : PruneBasis := {| pb_entries := w_manifest "b_f"; pb_hashes := w_hashes |}.

Definition w_fetch (prune : option PruneBasis) : Result FetchedTree TreeError * StoreNodeLedger :=
  fetch_tree w_both w_crypto DecodeLimits_default id prune (w_root "b_g" ∅) (w_recorded "b_f" w_one).

Definition w_fetched (prune : option PruneBasis) : FetchedTree :=
  match (w_fetch prune).1 with
  | Ok fetched => fetched
  | Err _ => {| ft_manifest := {| mf_key_epoch := 0; mf_entries := ∅ |}; ft_collisions := []; ft_node_keys := ∅ |}
  end.

Lemma w_fetched_ok prune : is_ok (w_fetch prune).1 = true →
  fetch_tree w_both w_crypto DecodeLimits_default id prune (w_root "b_g" ∅) (w_recorded "b_f" w_one)
  = (Ok (w_fetched prune), (w_fetch prune).2).
Proof. fold (w_fetch prune). unfold w_fetched. by destruct (w_fetch prune) as [[fetched|error] ledger]. Qed.

(** The directory [e] did not change: its node is not opened, and nothing is lost. *)
Lemma pruned_fetch_exact_witness :
  ft_manifest (w_fetched (Some w_basis)) = ft_manifest (w_fetched None) ∧
  ft_collisions (w_fetched (Some w_basis)) = ft_collisions (w_fetched None).
Proof.
  refine (proj2 (proj2 (pruned_fetch_exact w_both w_crypto DecodeLimits_default id w_universe (w_manifest "b_f")
    w_tree w_hashes (w_snapshot "b_f") (w_root "b_g" ∅) (w_recorded "b_f" w_one) (w_fetched (Some w_basis))
    (w_fetch (Some w_basis)).2 _ _ _ _ _ _)) (w_recorded "b_f" w_one) (w_fetched None) (w_fetch None).2 _).
  - vm_compute. reflexivity.
  - vm_compute. reflexivity.
  - vm_compute. reflexivity.
  - split; [by left|]. by apply (un_sub _ _ _ w_universe_ok); left.
  - apply w_old.
  - refine (w_fetched_ok (Some w_basis) _). by vm_compute.
  - refine (w_fetched_ok None _). by vm_compute.
Defined.

Definition w_compare : Result TreeDelta TreeError :=
  diff_tree w_both w_crypto DecodeLimits_default id (w_root "b_f" w_one) (w_root "b_g" ∅) {["e/g"]}.

Definition w_delta_of (r : Result TreeDelta TreeError) : TreeDelta :=
  match r with Ok delta => delta | Err _ => {| td_entries := ∅; td_touched := ∅; td_collisions := [] |} end.

Definition w_delta : TreeDelta := w_delta_of w_compare.

Lemma w_compared : is_ok w_compare = true →
  diff_tree w_both w_crypto DecodeLimits_default id (w_root "b_f" w_one) (w_root "b_g" ∅) {["e/g"]} = Ok w_delta.
Proof. fold w_compare. unfold w_delta, w_delta_of. by destruct w_compare. Qed.

(** One file changed, and one more path is asked for. *)
Lemma diff_exact_witness :
  td_touched w_delta
  = changed (rows [] (w_snapshot "b_f")) (rows [] (w_snapshot "b_g")) ∪ {["e/g"]}
    ∪ collision_set (td_collisions w_delta) ∧
  td_entries w_delta = on (rows [] (w_snapshot "b_g")) (td_touched w_delta).
Proof.
  destruct w_old as (_ & fo & Ho & Hco), w_new as (fn & Hn & Hcn).
  rewrite <-(rows_of_shape _ _ Ho), <-(rows_of_shape _ _ Hn).
  destruct (diff_exact w_both w_crypto DecodeLimits_default id (w_root "b_f" w_one) (w_root "b_g" ∅) fo fn {["e/g"]}
              w_delta Hco Hcn) as (Ht & He & _).
  - apply (wf_of_shape _ _ Ho). cbn. repeat split; try done; by repeat constructor.
  - apply (wf_of_shape _ _ Hn). cbn. repeat split; try done; by repeat constructor.
  - refine (w_compared _). by vm_compute.
  - split; [exact Ht|exact He].
Defined.

(** ** A collision below directories that fold together *)

Definition lower (c : ascii) : ascii :=
  let n := N_of_ascii c in if ((65 <=? n) && (n <=? 90))%N then ascii_of_N (n + 32) else c.

Fixpoint lowercase (s : string) : string :=
  match s with EmptyString => EmptyString | String c s => String (lower c) (lowercase s) end.

(** Two directories whose names differ by case, each with a file [f]. *)
Definition w_twins (content : string) : Manifest :=
  {| mf_key_epoch := 3;
     mf_entries := {[ "D/f" := FileEntry 5 420 "cid_f" content 3; "d/f" := FileEntry 6 420 "cid_g" "b_g" 3 ]} |}.

Definition w_twins_old := publish_tree w_crypto (w_twins "b_f") (∅ : w_objects) unledgered_nodes.
Definition w_twins_new := publish_tree w_crypto (w_twins "b_h") w_twins_old.2.1 unledgered_nodes.

Definition key_of (r : Result ManifestKey TreeError) : ManifestKey := match r with Ok key => key | Err _ => "" end.

Definition w_twins_fetched : Result FetchedTree TreeError :=
  (fetch_tree w_twins_new.2.1 w_crypto DecodeLimits_default lowercase None (key_of w_twins_new.1) unledgered_nodes).1.

Definition w_twins_delta : Result TreeDelta TreeError :=
  diff_tree w_twins_new.2.1 w_crypto DecodeLimits_default lowercase (key_of w_twins_old.1) (key_of w_twins_new.1) ∅.

(** A collision the comparison of two roots does not report.  A peer changes one
    of two files whose paths this volume cannot tell apart, in directories whose names
    differ by case.  Fetching the new head reports the two files as colliding; the
    comparison with the head applied before opens only the changed directory, and
    reports the changed file as touched but not as colliding. *)
Example diff_misses_collision :
  result_map (λ fetched, ft_collisions fetched) w_twins_fetched
  = Ok [ {| pc_folded := "d/f"; pc_paths := ["D/f"; "d/f"] |} ] ∧
  result_map (λ delta, (td_touched delta, td_collisions delta)) w_twins_delta
  = Ok ({[ "D"; "D/f"; "d" ]}, [ {| pc_folded := "d"; pc_paths := ["D"; "d"] |} ]).
Proof. split; vm_compute; reflexivity. Qed.
