(* ===== verification/PatchWitnesses.v ===== *)
(** * Patching a concrete tree

    The patch of the store of [TreeWitnesses]: a file is removed from a directory that
    stays, an implicit directory empties and disappears, and a file appears two
    directories deep.  The last example shows why the nodes must be sealed under the
    key that writes. *)

From S2P Require Import Prelude.
From S2P Require Import ManifestTypes.
From S2P Require Import MergeMatrix.
From S2P Require Import Ordered.
From S2P Require Import Materialize.
From S2P Require Import Paths.
From S2P Require Import Store.
From S2P Require Import DiskLemmas.
From S2P Require Import Tree.
From S2P Require Import TreeTransport.
From S2P Require Import TreePatch.
From S2P Require Import Forest.
From S2P Require Import FetchTheorems.
From S2P Require Import Decompose.
From S2P Require Import SubtreeHashes.
From S2P Require Import PublishLemmas.
From S2P Require Import TreeTheorems.
From S2P Require Import PatchTree.
From S2P Require Import PatchNodes.
From S2P Require Import PatchApply.
From S2P Require Import PatchTheorems.
From S2P Require Import TreeWitnesses.
Local Open Scope string_scope.
Open Scope Z_scope.

Definition w_delta : gmap WorkspacePath (option ManifestEntry) :=
  {[ "d/f" := None; "e/g" := None; "n/m/x" := Some (FileEntry 7 420 "cid_x" "b_x" 3) ]}.

Definition w_after : gmap WorkspacePath ManifestEntry :=
  {[ "d" := DirectoryEntry 493; "n/m/x" := FileEntry 7 420 "cid_x" "b_x" 3 ]}.

Definition w_after_snapshot : forest :=
  FDir "d" (Some 493) "" FNil
    (FDir "n" None "" (FDir "m" None "" (FLeaf "x" (FileEntry 7 420 "cid_x" "b_x" 3) FNil) FNil) FNil).

Lemma w_after_ok : patched (w_manifest "b_f") w_delta = w_after.
Proof. by vm_compute. Qed.

(** The two conditions of [grouped], evaluated. *)
Definition grouped_b (m : gmap WorkspacePath ManifestEntry) (changes : gmap WorkspacePath (option ManifestEntry)) : bool :=
  forallb (λ '(p, c),
    forallb (λ n, no_char slash n && nonempty n) (split slash p) &&
    match c with
    | Some _ => true
    | None =>
        forallb (λ '(q, _), negb (bool_decide (split slash p `prefix_of` split slash q)) || is_some (changes !! q))
          (map_to_list m)
    end) (map_to_list changes).

Lemma grouped_b_ok m changes : grouped_b m changes = true → grouped m changes.
Proof.
  unfold grouped_b. rewrite forallb_forall. intros Hb.
  assert (∀ p c, changes !! p = Some c → (p, c) ∈ map_to_list changes) as Hin by (intros; by apply elem_of_map_to_list).
  constructor.
  - intros p [c Hc]. apply Hin, list_elem_of_In, Hb, andb_true_iff in Hc as [Hp _].
    rewrite forallb_forall in Hp. apply Forall_forall. intros n Hn%list_elem_of_In.
    specialize (Hp n Hn). by apply andb_true_iff in Hp.
  - intros p q Hp [e He] Hpre. apply Hin, list_elem_of_In, Hb, andb_true_iff in Hp as [_ Hq].
    rewrite forallb_forall in Hq. apply elem_of_map_to_list, list_elem_of_In in He. specialize (Hq _ He). cbn in Hq.
    rewrite bool_decide_eq_true_2 in Hq by done. destruct (changes !! q); [by eexists|done].
Qed.

Lemma w_grouped : grouped (w_manifest "b_f") w_delta.
Proof. apply grouped_b_ok. by vm_compute. Qed.

Definition w_patch : Result ManifestKey TreeError * w_objects :=
  patch_tree (w_stored "b_f" ∅) w_crypto (w_root "b_f" ∅) w_delta.

Definition w_patched_root : ManifestKey := match w_patch.1 with Ok root => root | Err _ => "" end.

Lemma w_patch_run : patch_tree (w_stored "b_f" ∅) w_crypto (w_root "b_f" ∅) w_delta = (Ok w_patched_root, w_patch.2).
Proof.
  assert (is_ok w_patch.1 = true) as Hok by by vm_compute. fold w_patch. unfold w_patched_root.
  by destruct w_patch as [[root|error] objects].
Qed.

Lemma w_carried : ∃ f, shape f = shape (w_snapshot "b_f") ∧
  carries (holds_node (w_stored "b_f" ∅) w_crypto) (w_root "b_f" ∅) f.
Proof.
  destruct (w_delivered "b_f" ∅ (w_snapshot "b_f")) as (_ & f & Hf & Hc); [by vm_compute|by vm_compute|by left|by vm_compute|].
  exists f. split; [done|]. eapply carries_mono; [|exact Hc]. intros key node. apply opens_holds.
  intros e k He. unfold w_crypto, crypto_new in He. cbn in He. by apply lookup_singleton_Some in He as [<- _].
Qed.

Lemma w_after_decodable : Forall (decodable DecodeLimits_default) (w_after_snapshot :: subdirs w_after_snapshot).
Proof. repeat (apply Forall_cons; split); try apply Forall_nil; by vm_compute. Qed.

Lemma w_after_fits : fits DecodeLimits_default 100000 (patched (w_manifest "b_f") w_delta) w_after_snapshot.
Proof.
  rewrite w_after_ok. constructor.
  - apply map_Forall_to_list. vm_compute. by repeat constructor.
  - apply map_Forall_to_list. vm_compute. by repeat constructor.
  - by vm_compute.
  - by split; vm_compute.
  - apply Nat.ltb_lt. by vm_compute.
  - by split; vm_compute.
Qed.

(** The patched root is the root of the manifest after the delta. *)
Lemma patch_exact_witness :
  ∃ fetched, fetch_tree w_patch.2 w_crypto DecodeLimits_default id None w_patched_root unledgered_nodes
             = (Ok fetched, unledgered_nodes) ∧
    mf_entries (ft_manifest fetched) = w_after.
Proof.
  destruct w_carried as (f & Hf & Hc).
  destruct (patch_exact (w_stored "b_f" ∅) w_crypto w_held (w_root "b_f" ∅) w_delta (w_manifest "b_f") (w_snapshot "b_f")
              f w_after_snapshot (Ok w_patched_root) w_patch.2 id 100000) as (_ & Hfetch).
  - vm_compute. reflexivity.
  - exact Hf.
  - exact Hc.
  - exact w_grouped.
  - rewrite w_after_ok. vm_compute. reflexivity.
  - exact w_after_decodable.
  - exact w_patch_run.
  - apply w_sized; by vm_compute.
  - destruct (Hfetch w_after_fits) as (fetched & Hrun & Hm); [apply w_nodes_within; by vm_compute|].
    exists fetched. split; [exact Hrun|]. exact (eq_trans (f_equal mf_entries Hm) w_after_ok).
Defined.

(** ** After a rotation *)

(** The keyring once the workspace writes under epoch 4; epoch 3 can still be read. *)
Definition w_rotated : WorkspaceCrypto :=
  {| cr_write_epoch := 4; cr_keys := <[4 := "next key"]> (cr_keys w_crypto) |}.

(** A patch keeps the epoch a node lists and seals it under the writing key: the root it
    returns for a tree of the previous epoch is one no reader accepts. *)
Example patch_across_rotation :
  match patch_tree (w_stored "b_f" ∅) w_rotated (w_root "b_f" ∅) w_delta with
  | (Ok root, objects) =>
      (fetch_tree objects w_rotated DecodeLimits_default id None root unledgered_nodes).1
      = Err (TreeManifest KeyEpochMismatch)
  | _ => False
  end.
Proof. by vm_compute. Qed.
