(* ===== verification/PushWitnesses.v ===== *)
(** * A push on a concrete workspace

    A host that queues blobs and stores them when asked to settle, and a workspace in
    which one path appeared and one went away: the theorems on a push applied to a run
    that evaluates. *)

From S2P Require Import Prelude.
From S2P Require Import MergeMatrix.
From S2P Require Import Paths.
From S2P Require Import ManifestTypes.
From S2P Require Import FsGuard.
From S2P Require Import Disk.
From S2P Require Import Materialize.
From S2P Require Import Endpoint.
From S2P Require Import Store.
From S2P Require Import Ordered.
From S2P Require Import Tree.
From S2P Require Import TreeTransport.
From S2P Require Import TreePatch.
From S2P Require Import Push.
From S2P Require Import DiskLemmas.
From S2P Require Import PushTheorems.
From S2P Require Import PushContent.
From S2P Require Import TreeWitnesses.
Local Open Scope string_scope.
Open Scope Z_scope.

(** ** A host with an upload queue *)

Record w_host := {
  wh_manifests : w_objects;
  wh_queue : gmap BlobKey bytes;
  wh_blobs : gmap BlobKey bytes;
}.

Definition w_accepted (host : w_host) (key : BlobKey) (sealed : bytes) : Prop :=
  (wh_blobs host ∪ wh_queue host) !! key = Some sealed.

#[export] Instance w_host_objects : RemoteObjects w_host :=
  {| get_manifest host key := get_manifest (wh_manifests host) key;
     put_manifests uploads := λ host,
       let '(r, manifests) := put_manifests uploads (wh_manifests host) in
       (r, {| wh_manifests := manifests; wh_queue := wh_queue host; wh_blobs := wh_blobs host |}) |}.

#[export] Instance w_host_blobs : RemoteBlobs w_host :=
  {| put_blob key sealed := λ host,
       match (wh_blobs host ∪ wh_queue host) !! key with
       | Some held => (if (held =? sealed)%string then Ok tt else Err TransportFailed, host)
       | None => (Ok tt, {| wh_manifests := wh_manifests host; wh_queue := <[key := sealed]> (wh_queue host);
                            wh_blobs := wh_blobs host |})
       end;
     ensure_uploads_settled := λ host,
       (Ok tt, {| wh_manifests := wh_manifests host; wh_queue := ∅; wh_blobs := wh_blobs host ∪ wh_queue host |});
     get_blob host key := wh_blobs host !! key |}.

Lemma w_put_blob_run key sealed host r host' :
  put_blob key sealed host = (r, host') →
  (host' = host ∧ (r = Ok tt → w_accepted host key sealed)) ∨
  ((wh_blobs host ∪ wh_queue host) !! key = None ∧
   host' = {| wh_manifests := wh_manifests host; wh_queue := <[key := sealed]> (wh_queue host);
              wh_blobs := wh_blobs host |}).
Proof.
  cbn. unfold w_accepted. destruct (_ !! key) as [held|] eqn:E; intros [= <- <-]; [|by right].
  left. split; [done|]. by destruct (String.eqb_spec held sealed) as [->|].
Qed.

Lemma w_put_blob_mono key sealed host r host' key' sealed' :
  put_blob key sealed host = (r, host') → w_accepted host key' sealed' → w_accepted host' key' sealed'.
Proof.
  intros [[-> _]|[Hn ->]]%w_put_blob_run; [done|]. unfold w_accepted. cbn. intros Ha.
  destruct (wh_blobs host !! key') as [held|] eqn:Eb.
  { rewrite (lookup_union_Some_l _ _ _ _ Eb) in Ha. by rewrite (lookup_union_Some_l _ _ _ _ Eb). }
  rewrite lookup_union_r in Ha by done. rewrite lookup_union_r by done. rewrite lookup_insert_ne; [done|]. intros <-.
  rewrite lookup_union_r in Hn by done. congruence.
Qed.

#[export] Instance w_host_laws : RemoteBlobsLaws w_host.
Proof.
  refine {| accepted := w_accepted |}.
  - intros key sealed host host' Hp. pose proof Hp as [[-> Ha]|[Hn ->]]%w_put_blob_run; [by apply Ha|].
    unfold w_accepted. cbn. apply lookup_union_None in Hn as [Hn _]. by rewrite lookup_union_r, lookup_insert_eq.
  - apply w_put_blob_mono.
  - by intros host host' key sealed [= <-] Ha.
  - intros key sealed host r host' key' sealed' [[-> _]|[Hn ->]]%w_put_blob_run; done.
  - intros host r host' key sealed [= _ <-] Ha. cbn in *. by apply lookup_union_Some_l.
  - intros uploads host r host' key sealed. cbn. destruct (each _ _ _) as [? manifests]. by intros [= _ <-].
Defined.

(** ** A workspace *)

#[export] Instance w_content_hash : ContentHash := λ key content, "cid_" +:+ key +:+ content.
#[export] Instance w_segmented : SegmentedSealing := w_sealing.

Definition w_gone : IoError := {| io_kind := NotFound; io_raw_os_error := Some 2 |}.

Definition w_stat : Metadata :=
  {| md_type := TypeFile; md_mode := 420; md_len := 5; md_mtime := 1; md_mtime_nsec := 0; md_ctime := 1;
     md_ctime_nsec := 0; md_ino := 9; md_dev := 1 |}.

(** Only [new] is there. *)
Definition w_look : Os :=
  {| symlink_metadata := λ p, if (p =? "new")%string then Ok w_stat else Err w_gone;
     read_link := λ _, Err w_gone;
     create_dir := λ _, Ok tt;
     metadata_after_create := λ _, Err w_gone;
     open_nofollow := λ p,
       if (p =? "new")%string
       then Ok {| h_metadata := Ok w_stat; h_content := Ok "hello"; h_final_metadata := Ok w_stat |}
       else Err NOENT |}.

Definition w_spool : Spool :=
  {| sp_create_dir := Ok tt; sp_open := λ _, Ok tt; sp_sync := Ok tt; sp_read_back := λ sealed, Ok sealed |}.

Definition w_push_deps : PushDeps :=
  {| ps_disk := λ _, w_look; ps_crypto := w_crypto; ps_max_seal_bytes := 1000;
     ps_large_file_threshold := 1000; ps_project_view := false; ps_canonical := λ path, path;
     ps_timestamps := 1; ps_endpoint_clock := None; ps_now := 77; ps_spool := λ _, w_spool;
     ps_compare_and_swap := λ _ _, Some Ambiguous; ps_read_ref := None |}.

(** The swap answers with the version it installed. *)
Definition w_swap (deps : PushDeps) : PushDeps :=
  {| ps_disk := ps_disk deps; ps_crypto := ps_crypto deps; ps_max_seal_bytes := ps_max_seal_bytes deps;
     ps_large_file_threshold := ps_large_file_threshold deps; ps_project_view := ps_project_view deps;
     ps_canonical := ps_canonical deps; ps_timestamps := ps_timestamps deps;
     ps_endpoint_clock := ps_endpoint_clock deps; ps_now := ps_now deps; ps_spool := ps_spool deps;
     ps_compare_and_swap := λ _ key, Some (Advanced {| ro_version := 1; ro_manifest_key := key |});
     ps_read_ref := ps_read_ref deps |}.

(** The ancestor has the directory [old]. *)
Definition w_push_store : ManifestStore :=
  {| ms_files := {["old" := {| row_kind := 1; row_size := 0; row_mode := 493; row_symlink_target := None;
                               row_content_id := None; row_blob_key := None; row_key_epoch := None;
                               row_mtime_ns := 1; row_ctime_ns := 1; row_inode := 4; row_dev := 1;
                               row_hashed_at := None; row_verified_at := None |}]};
     ms_engine_state := None; ms_intents := ∅; ms_unsyncable := ∅; ms_pending_push := {["new"]};
     ms_blobs := ∅; ms_tree_nodes := ∅; ms_tree_node_epochs := ∅; ms_faults := [] |}.

Definition w_pushing : Pushing w_host :=
  {| pu_store := w_push_store; pu_objects := {| wh_manifests := ∅; wh_queue := ∅; wh_blobs := ∅ |};
     pu_fresh := ∅; pu_tick := 0 |}.

Definition w_dirty : gset WorkspacePath := {["new"; "old"]}.

Definition w_push (deps : PushDeps) : Result PushOutcome PushError * Pushing w_host :=
  push_dirty_paths_authorized deps w_dirty Enforce Continuous w_pushing.

Definition w_pushed_key : ManifestKey :=
  match (w_push (w_swap w_push_deps)).1 with Ok (PushAdvanced key _ _) => key | _ => "" end.

Lemma w_push_advances : (w_push (w_swap w_push_deps)).1 = Ok (PushAdvanced w_pushed_key 1 ∅).
Proof. vm_compute. reflexivity. Qed.

Lemma push_ancestor_sacred_witness :
  ref_holds (w_swap w_push_deps) None w_pushed_key 1 ∧
  applied_row w_pushed_key 1 (pu_store (w_push (w_swap w_push_deps)).2).
Proof.
  exact (push_ancestor_sacred (w_swap w_push_deps) w_dirty Enforce Continuous w_pushing
    (w_push (w_swap w_push_deps)).2 (Ok (PushAdvanced w_pushed_key 1 ∅))
    (eq_trans (surjective_pairing (w_push (w_swap w_push_deps)))
       (f_equal (λ r, (r, (w_push (w_swap w_push_deps)).2)) w_push_advances))).
Defined.

Definition w_is_removed (path : WorkspacePath) : bool :=
  bool_decide (path ∈ removed_rows w_push_store (pu_store (w_push (w_swap w_push_deps)).2)).

Lemma w_old_removed : w_is_removed "old" = true.
Proof. vm_compute. reflexivity. Qed.

Lemma push_removes_only_gone_witness :
  removal_justified (w_swap w_push_deps) (canonical_paths (w_swap w_push_deps) w_dirty) "old".
Proof.
  exact (push_removes_only_gone (w_swap w_push_deps) w_dirty Enforce Continuous w_pushing
    (w_push (w_swap w_push_deps)).2 _ "old" (surjective_pairing _) (bool_decide_eq_true_1 _ w_old_removed)).
Defined.

Lemma push_removals_bounded_witness :
  Z.of_nat (size (removed_rows w_push_store (pu_store (w_push (w_swap w_push_deps)).2))) <= 64 `max` (1 / 4).
Proof.
  destruct (push_removals_bounded (w_swap w_push_deps) w_dirty Enforce Continuous w_pushing
    (w_push (w_swap w_push_deps)).2 _ (surjective_pairing _)) as [Hle|[Hx|(confirmed & Hx & _)]];
    [exact Hle|discriminate Hx..].
Defined.

Lemma w_claims : claims_true w_push_deps w_pushing.
Proof.
  split.
  - intros id blob. cbn. by rewrite lookup_empty.
  - intros path row epoch id key. cbn. rewrite lookup_singleton_Some. by intros [<- <-].
Qed.

Lemma push_claims_true_witness : claims_true w_push_deps (w_push w_push_deps).2.
Proof.
  exact (push_claims_true w_push_deps (λ _ sealed spooled Hr, match Hr in _ = r return
           match r with Ok s => s = sealed | Err _ => True end with eq_refl => eq_refl end)
    w_dirty Enforce Continuous w_pushing _ _ w_claims (surjective_pairing _)).
Defined.
