(* ===== verification/StatWalk.v ===== *)
(** * The stat walk

    Models [stat_walk.rs]: the pass over the workspace that finds, without opening a file,
    the paths that differ from the committed ancestor.  The policy of the user and the
    answers of the operating system are parameters; a path is looked at once in a walk, so
    fixed answers cover every way the disk may change while it runs. *)

From S2P Require Import Prelude.
From S2P Require Import ManifestTypes.
From S2P Require Import FsGuard.
From S2P Require Import MergeMatrix.
From S2P Require Import Ordered.
From S2P Require Import Paths.
Local Open Scope string_scope.
Open Scope Z_scope.

Record StatWalk := {
  sk_dirty : gset WorkspacePath;
  sk_unsyncable : gmap WorkspacePath UnsyncableRecord;
  sk_scanned : Z;
  sk_hashes : Z;
}.

#[export] Instance StatWalk_eta : Eta StatWalk :=
  λ w, Build_StatWalk (sk_dirty w) (sk_unsyncable w) (sk_scanned w) (sk_hashes w).

Definition StatWalk_default : StatWalk :=
  {| sk_dirty := ∅; sk_unsyncable := ∅; sk_scanned := 0; sk_hashes := 0 |}.

(** The name of a directory entry: as text, or its lossy form where it is not UTF-8. *)
Inductive EntryName := Utf8Name (name : string) | LossyName (lossy : string).

(** What the walk reads of the machine. *)
Record WalkFs := {
  wf_os : Os;
  (** [fs::metadata(root).is_ok_and(|m| m.is_dir())] *)
  wf_root_is_dir : bool;
  (** [fs::read_dir]; each entry may fail on its own *)
  wf_read_dir : string → Result (list (Result EntryName IoError)) IoError;
  wf_now : Z;
}.

(** [UserPolicy], through the functions of [crate::policy] the walk calls: the path, whether
    it is a directory, its size, and whether the walk is that of a project view. *)
Record WalkPolicy := {
  wp_syncs : bool → string → bool → option Z → bool;
  wp_recurse : bool → string → bool → option Z → bool;
}.

Record WalkDecision := { de_syncs : bool; de_recurse : bool }.

Definition join_child (relative name : string) : string :=
  if (relative =? "")%string then name else relative +:+ "/" +:+ name.

Definition path_is_at_or_below (path root : string) : bool :=
  (path =? root)%string
  || match strip_prefix root path with Some suffix => starts_with_char slash suffix | None => false end.

(** [classify] *)
Definition walk_decision (policy : WalkPolicy) (path : string) (observed : Observed) (project_view : bool)
    : WalkDecision :=
  let is_dir := bool_decide (ob_kind observed = Directory) in
  {| de_syncs := wp_syncs policy project_view path is_dir (Some (ob_size observed));
     de_recurse := (is_dir && is_git_directory_path path)
                   || wp_recurse policy project_view path is_dir (Some (ob_size observed)) |}.

Definition policy_syncs (policy : WalkPolicy) (path : string) (ancestor : option FileRecord)
    (project_view : bool) : bool :=
  wp_syncs policy project_view path
    (match ancestor with Some row => bool_decide (fr_kind row = Directory) | None => false end)
    (fr_size <$> ancestor).

Definition is_dirty (observed : Observed) (ancestor : option FileRecord) : bool :=
  match ancestor with
  | None => true
  | Some row =>
      bool_decide (fr_kind row ≠ ob_kind observed)
      || match ob_kind observed with
         | Directory => negb (fr_mode row =? ob_mode observed)
         | File | Symlink =>
             bool_decide (fr_fingerprint row ≠ ob_fingerprint observed)
             || negb (fr_size row =? ob_size observed)
             || negb (fr_mode row =? ob_mode observed)
         end
  end.

Definition add_dirty (paths : gset WorkspacePath) (walk : StatWalk) : StatWalk :=
  walk <| sk_dirty := paths ∪ sk_dirty walk |>.

(** The walk and the paths it saw. *)
Record Walking := { wk_walk : StatWalk; wk_seen : gset WorkspacePath }.

Definition on_walk (f : StatWalk → StatWalk) (w : Walking) : Walking :=
  {| wk_walk := f (wk_walk w); wk_seen := wk_seen w |}.

Section Walk.
Context (fs : WalkFs) (policy : WalkPolicy) (ancestor : gmap WorkspacePath FileRecord) (project_view : bool).

(** [StatWalk::reject] *)
Definition reject (path : WorkspacePath) (reason : UnsyncableReason) (errno : option Z) (w : Walking) : Walking :=
  on_walk (λ walk, walk
    <| sk_unsyncable := <[path := {| ur_reason := reason; ur_errno := errno; ur_observed_at := wf_now fs |}]>
                          (sk_unsyncable walk) |>) w.

(** [seen.insert(path); if is_dirty(..) { walk.dirty.insert(path) }], when the path syncs. *)
Definition note_seen (path : WorkspacePath) (observed : Observed) (syncs : bool) (w : Walking) : Walking :=
  if syncs then
    on_walk (λ walk, if is_dirty observed (ancestor !! path) then add_dirty {[path]} walk else walk)
      {| wk_walk := wk_walk w; wk_seen := {[path]} ∪ wk_seen w |}
  else w.

Definition count_scanned (w : Walking) : Walking :=
  on_walk (λ walk, walk <| sk_scanned := sk_scanned walk + 1 |>) w.

(** The loop over the entries of a directory: the names, and the walk with what could not be
    named or read. *)
Fixpoint read_names (relative : string) (entries : list (Result EntryName IoError)) (w : Walking)
    : list string * Walking :=
  match entries with
  | [] => ([], w)
  | Err error :: entries =>
      read_names relative entries (reject relative (path_scoped_reason error) (io_raw_os_error error) w)
  | Ok (LossyName lossy) :: entries =>
      read_names relative entries (reject (join_child relative lossy) NonUtf8Name None w)
  | Ok (Utf8Name name) :: entries =>
      let '(names, w) := read_names relative entries w in (name :: names, w)
  end.

(** One turn of the loop over the sorted names. *)
Definition visit_child (descend : string → Walking → Walking) (relative name : string) (w : Walking) : Walking :=
  let child := join_child relative name in
  if negb project_view && is_private_workspace_state_path child then w else
  match publishable_workspace_path child MAX_WORKSPACE_PATH_LEN project_view with
  | Err _ => reject child UnrepresentablePath None w
  | Ok _ =>
      match observe_classified (wf_os fs) child with
      | ObAbsent => w
      | ObUnsyncable reason => reject child reason None w
      | ObPresent observed =>
          let decision := walk_decision policy child observed project_view in
          let w := note_seen child observed (de_syncs decision) (count_scanned w) in
          match ob_kind observed with
          | Directory => if de_recurse decision then descend child w else w
          | File | Symlink => w
          end
      end
  end.

Fixpoint walk_dir (fuel : nat) (relative : string) (w : Walking) : Walking :=
  match fuel with
  | O => w
  | Datatypes.S fuel =>
      match wf_read_dir fs relative with
      | Err error =>
          match io_kind error with
          | NotFound => w
          | _ => reject relative (path_scoped_reason error) (io_raw_os_error error) w
          end
      | Ok entries =>
          let '(names, w) := read_names relative entries w in
          foldl (λ w name, visit_child (walk_dir fuel) relative name w) w (merge_sort str_le names)
      end
  end.

(** Enough for every path a peer would accept: each level of the walk adds a component. *)
Definition walk_levels : nat := Z.to_nat (MAX_WORKSPACE_PATH_DEPTH + 1).

(** The rows a walk of [below] did not see. *)
Definition missing_rows (below : WorkspacePath → bool) (seen : gset WorkspacePath) : gset WorkspacePath :=
  dom (filter (λ '(path, row),
         below path = true ∧ path ∉ seen
         ∧ negb project_view && is_private_workspace_state_path path = false
         ∧ policy_syncs policy path (Some row) project_view = true) ancestor).

Definition not_a_root : IoError := {| io_kind := NotFound; io_raw_os_error := None |}.

Definition stat_walk_with_scope : Result StatWalk IoError :=
  if negb (wf_root_is_dir fs) then Err not_a_root else
  let w := walk_dir walk_levels "" {| wk_walk := StatWalk_default; wk_seen := ∅ |} in
  Ok (add_dirty (missing_rows (λ _, true) (wk_seen w)) (wk_walk w)).

End Walk.

Definition stat_walk fs policy ancestor : Result StatWalk IoError := stat_walk_with_scope fs policy ancestor false.

Definition stat_walk_project_view fs policy ancestor : Result StatWalk IoError :=
  stat_walk_with_scope fs policy ancestor true.

Definition project_view_verification_paths (policy : WalkPolicy) (ancestor : gmap WorkspacePath FileRecord)
    : gset WorkspacePath :=
  dom (filter (λ '(path, row), policy_syncs policy path (Some row) true = true) ancestor).

Definition outermost_roots (roots : gset WorkspacePath) : list WorkspacePath :=
  foldl (λ outermost root,
    if existsb (λ parent, path_is_at_or_below root parent) outermost then outermost
    else (outermost ++ [root])%list) [] (merge_sort str_le (elements roots)).

(** One turn of the loop of [stat_walk_subtrees]. *)
Definition walk_subtree fs policy ancestor (w : Walking) (subtree : WorkspacePath) : Walking :=
  if is_private_workspace_state_path subtree then w else
  let w :=
    match observe_classified (wf_os fs) subtree with
    | ObPresent observed =>
        let decision := walk_decision policy subtree observed false in
        let w := note_seen ancestor subtree observed (de_syncs decision) (count_scanned w) in
        if bool_decide (ob_kind observed = Directory) && de_recurse decision
        then walk_dir fs policy ancestor false walk_levels subtree w else w
    | ObAbsent => w
    | ObUnsyncable reason => reject fs subtree reason None w
    end in
  on_walk (add_dirty (missing_rows policy ancestor false (λ path, path_is_at_or_below path subtree) (wk_seen w))) w.

Definition stat_walk_subtrees fs policy ancestor (roots : gset WorkspacePath) : Result StatWalk IoError :=
  if negb (wf_root_is_dir fs) then Err not_a_root else
  Ok (wk_walk (foldl (walk_subtree fs policy ancestor) {| wk_walk := StatWalk_default; wk_seen := ∅ |}
                 (outermost_roots roots))).
