(* ===== verification/StatWalkTheorems.v ===== *)
(** * What a stat walk finds

    The walk is given one level of room more than the deepest path a peer accepts, and
    never uses more; it reports exactly the synced paths that differ from their row and
    the synced rows it did not see. *)

From Stdlib Require Import Ascii.
From S2P Require Import Prelude.
From S2P Require Import ManifestTypes.
From S2P Require Import FsGuard.
From S2P Require Import MergeMatrix.
From S2P Require Import MergePlans.
From S2P Require Import MergeDisk.
From S2P Require Import MergeTheorems.
From S2P Require Import Ordered.
From S2P Require Import DiskLemmas.
From S2P Require Import Paths.
From S2P Require Import StatWalk.
Local Open Scope string_scope.
Open Scope Z_scope.

(** ** Depth *)

Definition level (relative : string) : nat :=
  if (relative =? "")%string then 0 else length (split slash relative).

Lemma publishable_nonempty path max allow : publishable_workspace_path path max allow = Ok tt →
  path ≠ "" ∧ (Z.of_nat (length (split slash path)) ≤ MAX_WORKSPACE_PATH_DEPTH).
Proof.
  unfold publishable_workspace_path. destruct (String.eqb_spec path "") as [|Hne]; [done|].
  destruct (_ <? _); [done|]. destruct (starts_with_char _ _); [done|].
  destruct (Z.ltb_spec MAX_WORKSPACE_PATH_DEPTH (Z.of_nat (length (split slash path)))); [done|]. done.
Qed.

Lemma split_child a b : split slash (a +:+ "/" +:+ b) = (split slash a ++ split slash b)%list.
Proof.
  induction a as [|d a IH].
  - change ("" +:+ "/" +:+ b) with (String slash b). rewrite split_cons_char. by rewrite Ascii.eqb_refl.
  - change (String d a +:+ "/" +:+ b) with (String d (a +:+ "/" +:+ b)). rewrite !split_cons_char, IH.
    destruct (d =? slash)%char; [done|]. pose proof (split_nil slash a). by destruct (split slash a).
Qed.

Lemma level_child relative name max allow :
  publishable_workspace_path (join_child relative name) max allow = Ok tt →
  (level relative < level (join_child relative name) ≤ Z.to_nat MAX_WORKSPACE_PATH_DEPTH)%nat.
Proof.
  intros [Hne Hd]%publishable_nonempty. pose proof (split_nil slash name) as Hn. split.
  - unfold level at 2. destruct (String.eqb_spec (join_child relative name) ""); [done|].
    unfold level, join_child. destruct (String.eqb_spec relative "") as [->|Hr].
    + destruct (split slash name); [done|cbn; lia].
    + rewrite split_child, length_app. destruct (split slash name); [done|cbn; lia].
  - unfold level. destruct (_ =? _)%string; lia.
Qed.

Section Walk.
Context (fs : WalkFs) (policy : WalkPolicy) (ancestor : gmap WorkspacePath FileRecord) (project_view : bool).

Local Abbreviation walk_dir := (walk_dir fs policy ancestor project_view).
Local Abbreviation visit_child := (visit_child fs policy ancestor project_view).
Local Abbreviation decision := (λ path observed, walk_decision policy path observed project_view).

(** [name] is listed in [relative] and the walk looks at it, finding [observed]. *)
Definition walk_looks (relative name : string) (observed : Observed) : Prop :=
  (∃ entries, wf_read_dir fs relative = Ok entries ∧ Ok (Utf8Name name) ∈ entries) ∧
  negb project_view && is_private_workspace_state_path (join_child relative name) = false ∧
  publishable_workspace_path (join_child relative name) MAX_WORKSPACE_PATH_LEN project_view = Ok tt ∧
  observe_classified (wf_os fs) (join_child relative name) = ObPresent observed.

(** A walk of [relative] comes to [path]. *)
Inductive visited : string → WorkspacePath → Observed → Prop :=
| visited_here relative name observed :
    walk_looks relative name observed → visited relative (join_child relative name) observed
| visited_below relative name above path observed :
    walk_looks relative name above → ob_kind above = Directory →
    de_recurse (decision (join_child relative name) above) = true →
    visited (join_child relative name) path observed → visited relative path observed.

(** The descent depends on [descend] only where it is called. *)
Lemma visit_child_ext d1 d2 relative name w :
  (∀ w, publishable_workspace_path (join_child relative name) MAX_WORKSPACE_PATH_LEN project_view = Ok tt →
     d1 (join_child relative name) w = d2 (join_child relative name) w) →
  visit_child d1 relative name w = visit_child d2 relative name w.
Proof.
  intros Hd. unfold StatWalk.visit_child. destruct (negb project_view && _); [done|].
  destruct (publishable_workspace_path _ _ _) as [[]|]; [|done].
  destruct (observe_classified _ _) as [|observed|]; [done| |done].
  destruct (ob_kind observed); [done| |done]. destruct (de_recurse _); [by apply Hd|done].
Qed.

Lemma foldl_ext_in {A B} (f g : A → B → A) a l : (∀ a b, b ∈ l → f a b = g a b) → foldl f a l = foldl g a l.
Proof.
  revert a. induction l as [|b l IH]; intros a Hfg; cbn; [done|]. rewrite Hfg by by left.
  apply IH. intros a' b' Hb. apply Hfg. by right.
Qed.

(** Room for the levels below [relative]. *)
Definition roomy (fuel : nat) (relative : string) : Prop :=
  (level relative ≤ Z.to_nat MAX_WORKSPACE_PATH_DEPTH < level relative + fuel)%nat.

Lemma roomy_top : roomy walk_levels "".
Proof. unfold roomy, walk_levels, level, MAX_WORKSPACE_PATH_DEPTH. rewrite String.eqb_refl. lia. Qed.

Lemma roomy_child fuel relative name : roomy (Datatypes.S fuel) relative →
  publishable_workspace_path (join_child relative name) MAX_WORKSPACE_PATH_LEN project_view = Ok tt →
  roomy fuel (join_child relative name).
Proof. intros Hr Hp%level_child. unfold roomy in *. lia. Qed.

Lemma walk_dir_more fuel extra relative w : roomy fuel relative →
  walk_dir (fuel + extra) relative w = walk_dir fuel relative w.
Proof.
  revert relative w. induction fuel as [|fuel IH]; intros relative w Hr; [unfold roomy in Hr; lia|].
  cbn [Nat.add StatWalk.walk_dir]. destruct (wf_read_dir fs relative) as [entries|]; [|done].
  destruct (read_names _ _ _ _) as [names w']. apply foldl_ext_in. intros w1 name _.
  apply visit_child_ext. intros w2 Hp. apply IH. by eapply roomy_child.
Qed.

(** ** What a walk collects *)

Section Collect.
Context (proj : Walking → gset WorkspacePath) (test : WorkspacePath → Observed → bool).
Hypothesis proj_reject : ∀ path reason errno w, proj (reject fs path reason errno w) = proj w.
Hypothesis proj_note : ∀ path observed w,
  proj (note_seen ancestor path observed (de_syncs (decision path observed)) (count_scanned w)) =
  if test path observed then {[path]} ∪ proj w else proj w.

Definition collected (relative : string) (p : WorkspacePath) : Prop :=
  ∃ observed, visited relative p observed ∧ test p observed = true.

(** The contribution of one name. *)
Definition collected_at (relative name : string) (p : WorkspacePath) : Prop :=
  ∃ above, walk_looks relative name above ∧
    ((p = join_child relative name ∧ test p above = true) ∨
     (ob_kind above = Directory ∧ de_recurse (decision (join_child relative name) above) = true ∧
      collected (join_child relative name) p)).

Lemma collected_names relative p : collected relative p ↔ ∃ name, collected_at relative name p.
Proof.
  split.
  - intros (observed & Hv & Ht). inversion Hv as [? name ? Hs|? name above ? ? Hs Hk Hr Hb]; subst.
    + exists name, observed. split; [done|]. by left.
    + exists name, above. split; [done|]. right. split_and!; [done..|]. by exists observed.
  - intros (name & above & Hs & [[-> Ht]|(Hk & Hr & observed & Hv & Ht)]).
    + exists above. split; [by constructor|done].
    + exists observed. split; [by eapply visited_below|done].
Qed.

Lemma read_names_spec relative entries w :
  proj (read_names fs relative entries w).2 = proj w ∧
  ∀ name, name ∈ (read_names fs relative entries w).1 ↔ Ok (Utf8Name name) ∈ entries.
Proof.
  revert w. induction entries as [|[[name|lossy]|error] entries IH]; intros w; cbn [read_names].
  - split; [done|]. intros name. by rewrite !elem_of_nil.
  - destruct (IH w) as [Hp Hn]. destruct (read_names _ _ _ _) as [names w']. cbn in *. split; [done|].
    intros n. rewrite !elem_of_cons, Hn. naive_solver.
  - destruct (IH (reject fs (join_child relative lossy) NonUtf8Name None w)) as [Hp Hn].
    split; [by rewrite Hp|]. intros n. rewrite Hn, elem_of_cons. naive_solver.
  - destruct (IH (reject fs relative (path_scoped_reason error) (io_raw_os_error error) w)) as [Hp Hn].
    split; [by rewrite Hp|]. intros n. rewrite Hn, elem_of_cons. naive_solver.
Qed.

Lemma visit_child_collects descend relative name entries w p :
  wf_read_dir fs relative = Ok entries → Ok (Utf8Name name) ∈ entries →
  (publishable_workspace_path (join_child relative name) MAX_WORKSPACE_PATH_LEN project_view = Ok tt →
   ∀ w, p ∈ proj (descend (join_child relative name) w) ↔ p ∈ proj w ∨ collected (join_child relative name) p) →
  p ∈ proj (visit_child descend relative name w) ↔ p ∈ proj w ∨ collected_at relative name p.
Proof.
  intros Hdir Hin Hdesc. unfold StatWalk.visit_child.
  assert (∀ observed, walk_looks relative name observed ↔
    negb project_view && is_private_workspace_state_path (join_child relative name) = false ∧
    publishable_workspace_path (join_child relative name) MAX_WORKSPACE_PATH_LEN project_view = Ok tt ∧
    observe_classified (wf_os fs) (join_child relative name) = ObPresent observed) as Hsees.
  { intros observed. unfold walk_looks. split; [tauto|]. intros ?. split; [by exists entries|done]. }
  unfold collected_at. destruct (negb project_view && _).
  { split; [by left|]. intros [|(above & (Hp & _)%Hsees & _)]; done. }
  destruct (publishable_workspace_path _ _ _) as [[]|].
  2:{ rewrite proj_reject. split; [by left|]. intros [|(above & (_ & Hp & _)%Hsees & _)]; done. }
  destruct (observe_classified _ _) as [|observed|reason].
  { split; [by left|]. intros [|(above & (_ & _ & Hp)%Hsees & _)]; done. }
  2:{ rewrite proj_reject. split; [by left|]. intros [|(above & (_ & _ & Hp)%Hsees & _)]; done. }
  specialize (Hdesc eq_refl). set (d := decision (join_child relative name) observed).
  assert (∀ Q : Observed → Prop, (∃ above, walk_looks relative name above ∧ Q above) ↔ Q observed) as Hex.
  { intros Q. split; [intros (above & (_ & _ & [= ->])%Hsees & HQ); done|]. intros HQ. exists observed.
    split; [by apply Hsees|done]. }
  rewrite Hex. assert (p ∈ proj (note_seen ancestor (join_child relative name) observed (de_syncs d) (count_scanned w)) ↔
    p ∈ proj w ∨ p = join_child relative name ∧ test p observed = true) as Hnote.
  { rewrite proj_note. destruct (test (join_child relative name) observed) eqn:Et.
    - rewrite elem_of_union, elem_of_singleton. split; [intros [->|]; [by right|by left]|intros [|[-> _]]; [by right|by left]].
    - split; [by left|]. intros [|[-> Ht]]; [done|congruence]. }
  destruct (ob_kind observed) eqn:Ek; cbn [visit_child].
  1,3: rewrite Hnote; naive_solver.
  fold d. destruct (de_recurse d) eqn:Er.
  - rewrite Hdesc, Hnote. naive_solver.
  - rewrite Hnote. naive_solver.
Qed.

Lemma foldl_collects (f : Walking → string → Walking) (add : string → WorkspacePath → Prop) names w p :
  (∀ name w, name ∈ names → p ∈ proj (f w name) ↔ p ∈ proj w ∨ add name p) →
  p ∈ proj (foldl f w names) ↔ p ∈ proj w ∨ ∃ name, name ∈ names ∧ add name p.
Proof.
  revert w. induction names as [|name names IH]; intros w Hf; cbn [foldl].
  - split; [by left|]. intros [|(name & ?%not_elem_of_nil & _)]; done.
  - rewrite IH by (intros n w' Hn; apply Hf; by right). rewrite Hf by by left. setoid_rewrite elem_of_cons. naive_solver.
Qed.

Lemma walk_collects fuel relative w p : roomy fuel relative →
  p ∈ proj (walk_dir fuel relative w) ↔ p ∈ proj w ∨ collected relative p.
Proof.
  revert relative w. induction fuel as [|fuel IH]; intros relative w Hr; [unfold roomy in Hr; lia|].
  cbn [StatWalk.walk_dir]. rewrite collected_names. destruct (wf_read_dir fs relative) as [entries|error] eqn:Hdir.
  - pose proof (read_names_spec relative entries w) as [Hproj Hnames].
    destruct (read_names _ _ _ _) as [names w']. cbn in Hproj, Hnames.
    rewrite (foldl_collects _ (collected_at relative)), Hproj.
    + setoid_rewrite merge_sort_Permutation. setoid_rewrite Hnames. f_equiv. apply exist_proper. intros name.
      split; [tauto|]. intros Hc. split; [|done]. destruct Hc as (above & ((es & He & Hin) & _) & _). congruence.
    + intros name w1 Hn. rewrite merge_sort_Permutation, Hnames in Hn.
      apply (visit_child_collects _ _ _ entries); [done..|]. intros Hp w2. apply IH. by eapply roomy_child.
  - assert (¬ ∃ name, collected_at relative name p) as Hno.
    { intros (name & above & ((es & He & _) & _) & _). congruence. }
    destruct (io_kind error); rewrite ?proj_reject; tauto.
Qed.

End Collect.

(** ** The result *)

Lemma walk_seen w p : p ∈ wk_seen (walk_dir walk_levels "" w) ↔
  p ∈ wk_seen w ∨ ∃ observed, visited "" p observed ∧ de_syncs (decision p observed) = true.
Proof.
  apply (walk_collects wk_seen (λ p observed, de_syncs (decision p observed))); [done| |apply roomy_top].
  intros path observed w'. unfold note_seen. by destruct (de_syncs _).
Qed.

Lemma walk_dirty w p : p ∈ sk_dirty (wk_walk (walk_dir walk_levels "" w)) ↔
  p ∈ sk_dirty (wk_walk w) ∨ ∃ observed, visited "" p observed ∧
    de_syncs (decision p observed) && is_dirty observed (ancestor !! p) = true.
Proof.
  apply (walk_collects (λ w, sk_dirty (wk_walk w))
           (λ p observed, de_syncs (decision p observed) && is_dirty observed (ancestor !! p)));
    [done| |apply roomy_top].
  intros path observed w'. unfold note_seen. destruct (de_syncs _); [|done]. cbn. by destruct (is_dirty _ _).
Qed.

Lemma elem_of_missing below seen p : p ∈ missing_rows policy ancestor project_view below seen ↔
  ∃ row, ancestor !! p = Some row ∧ below p = true ∧ p ∉ seen ∧
    negb project_view && is_private_workspace_state_path p = false ∧
    policy_syncs policy p (Some row) project_view = true.
Proof.
  unfold missing_rows. rewrite elem_of_dom. split.
  - intros [row [Hr Hf]%map_lookup_filter_Some]. by exists row.
  - intros (row & Hr & Hf). exists row. by apply map_lookup_filter_Some.
Qed.

(** The path is on disk where the walk goes, and the policy syncs it. *)
Definition walk_reaches (p : WorkspacePath) (observed : Observed) : Prop :=
  visited "" p observed ∧ de_syncs (decision p observed) = true.

(** C39: The walk is bounded by the paths a peer accepts: whatever the disk holds, a cycle of
    mounts or a tree deeper than any path included, 257 levels of recursion are enough, and
    more do not change what the walk finds. *)
Theorem walk_terminates extra w : walk_dir (walk_levels + extra) "" w = walk_dir walk_levels "" w.
Proof. apply walk_dir_more, roomy_top. Qed.

Lemma sk_dirty_add paths walk : sk_dirty (add_dirty paths walk) = paths ∪ sk_dirty walk.
Proof. done. Qed.

Lemma walk_reports walk p : stat_walk_with_scope fs policy ancestor project_view = Ok walk →
  p ∈ sk_dirty walk ↔
    (∃ observed, walk_reaches p observed ∧ is_dirty observed (ancestor !! p) = true) ∨
    (∃ row, ancestor !! p = Some row ∧ (∀ observed, ¬ walk_reaches p observed) ∧
       negb project_view && is_private_workspace_state_path p = false ∧
       policy_syncs policy p (Some row) project_view = true).
Proof.
  unfold stat_walk_with_scope. destruct (negb (wf_root_is_dir fs)); [done|].
  intros Hw. assert (∀ a b : StatWalk, Ok (E := IoError) a = Ok b → b = a) as Hok by (by intros ?? [=]).
  apply Hok in Hw as ->. rewrite sk_dirty_add. rewrite elem_of_union, elem_of_missing, walk_dirty. cbn [sk_dirty wk_walk StatWalk_default].
  setoid_rewrite walk_seen. setoid_rewrite andb_true_iff. unfold walk_reaches. set_solver.
Qed.

(** C22: The stat walk finds every change and nothing else.  Whatever the disk answers, a walk
    that returns reports a path exactly if it came to it, the policy syncs it and its stat
    differs from its row (or it has none), or it has a synced row outside the private state
    and the walk did not come to it as a synced path. *)
Theorem stat_walk_exact walk : stat_walk_with_scope fs policy ancestor project_view = Ok walk →
  ∀ p, p ∈ sk_dirty walk ↔
    (∃ observed, walk_reaches p observed ∧ is_dirty observed (ancestor !! p) = true) ∨
    (∃ row, ancestor !! p = Some row ∧ (∀ observed, ¬ walk_reaches p observed) ∧
       negb project_view && is_private_workspace_state_path p = false ∧
       policy_syncs policy p (Some row) project_view = true).
Proof. intros Hwalk p. by apply walk_reports. Qed.

End Walk.

(** ** Pulling after a walk *)

Section WalkedPull.
Context `{ContentHash} (ctx : EngineContext) (ancestor : gmap WorkspacePath FileRecord).
Context (remote : gmap WorkspacePath ManifestEntry) (collisions : list PathCollision).
Context (fs : WalkFs) (policy : WalkPolicy).

(** The walk and the pull look at the same disk, and a link that kept its stat kept its
    target. *)
Record walkable : Prop := {
  wa_os : ctx_os ctx = wf_os fs;
  wa_links p row observed : ancestor !! p = Some row → observe_classified (wf_os fs) p = ObPresent observed →
    ob_kind observed = Symlink → ob_fingerprint observed = fr_fingerprint row →
    ob_symlink_target observed = fr_symlink_target row;
}.

Lemma visited_observed project_view relative p observed : visited fs policy project_view relative p observed →
  observe_classified (wf_os fs) p = ObPresent observed.
Proof. induction 1 as [? ? ? (_ & _ & _ & Ho)|]; done. Qed.

Lemma clean_unchanged p row observed : ancestor !! p = Some row → walkable →
  observe_classified (wf_os fs) p = ObPresent observed → is_dirty observed (Some row) = false →
  local_delta ctx p (Some row) false = Ok (LUnchanged row).
Proof.
  intros Hrow [Hos Hlinks] Hobs. unfold is_dirty, local_delta. rewrite Hos, Hobs. unfold local_vs_record.
  intros [Hk Hd]%orb_false_iff. apply bool_decide_eq_false in Hk. apply dec_stable in Hk.
  rewrite (bool_decide_eq_false_2 (ob_kind observed ≠ fr_kind row)) by (by intros []).
  unfold stat_unchanged. destruct (ob_kind observed) eqn:Ek; cbn [negb].
  - apply orb_false_iff in Hd as [[Hf%bool_decide_eq_false Hs%negb_false_iff]%orb_false_iff Hm%negb_false_iff].
    apply dec_stable in Hf. rewrite bool_decide_eq_true_2 by done. apply Z.eqb_eq in Hs, Hm.
    by rewrite Hs, Hm, !Z.eqb_refl.
  - apply negb_false_iff, Z.eqb_eq in Hd. by rewrite Hd, Z.eqb_refl.
  - apply orb_false_iff in Hd as [[Hf%bool_decide_eq_false Hs%negb_false_iff]%orb_false_iff Hm%negb_false_iff].
    apply dec_stable in Hf. apply Z.eqb_eq in Hm. rewrite Hm, Z.eqb_refl.
    by rewrite bool_decide_eq_true_2 by (by apply (Hlinks p row)).
Qed.

(** A row of a path the walk may report, and does not, is unchanged. *)
Definition reportable (p : WorkspacePath) (row : FileRecord) : Prop :=
  is_private_workspace_state_path p = false ∧ policy_syncs policy p (Some row) false = true.

Lemma walk_covers walk p row : walkable → stat_walk fs policy ancestor = Ok walk →
  ancestor !! p = Some row → reportable p row → p ∉ sk_dirty walk → local_delta ctx p (Some row) false = Ok (LUnchanged row).
Proof.
  intros Hw Hwalk Hrow [Hpriv Hsync] Hp. unfold stat_walk in Hwalk. rewrite (walk_reports _ _ _ _ _ _ Hwalk) in Hp.
  destruct (decide (p ∈ wk_seen (walk_dir fs policy ancestor false walk_levels "" {| wk_walk := StatWalk_default; wk_seen := ∅ |})))
    as [[?%elem_of_empty|(observed & Hv & Hs)]%walk_seen|Hno]; [done| |].
  - eapply clean_unchanged; [done..|by eapply visited_observed|]. apply not_true_iff_false. intros Hd. apply Hp. left.
    exists observed. by rewrite Hrow.
  - destruct Hp. right. exists row. split_and!; [done| |by rewrite Hpriv|done].
    intros observed [Hv Hs]. apply Hno, walk_seen. right. by exists observed.
Qed.

Local Abbreviation delta path := (remote_delta (remote !! path) (ancestor !! path)).

(** The paths the narrowed scope leaves out. *)
Definition left_out (scope : PullScope) (q : WorkspacePath) : bool :=
  negb (is_git_lock_path q) && negb (observes scope q (delta q)).

Lemma classify_path_excludes scope p plan found plan' :
  classify_path ctx ancestor remote collisions scope p plan = (Ok found, plan') →
  found = if left_out scope p then Some p else None.
Proof.
  unfold classify_path, left_out. destruct (is_git_lock_path p); [by intros [= <- _]|].
  destruct (observes scope p _); cbn [negb andb].
  2:{ by intros [= <- _]. }
  rewrite bind_run. destruct (of_result _ plan) as [[local|] plan1]; [|done].
  destruct (_ && is_some _).
  - rewrite bind_run. destruct (plan_push_again p plan1) as [[]]; [by intros [= <- _]|done].
  - rewrite bind_run. destruct (classify_one _ _ _ _ _ plan1) as [[]]; [by intros [= <- _]|done].
Qed.

Lemma classify_paths_excludes scope paths plan ex plan' :
  classify_paths ctx ancestor remote collisions scope paths plan = (Ok ex, plan') →
  ex = List.filter (left_out scope) paths.
Proof.
  revert plan ex plan'. induction paths as [|p paths IH]; intros plan ex plan'; cbn [classify_paths List.filter].
  { by intros [= <- _]. }
  rewrite bind_run. destruct (classify_path _ _ _ _ _ p plan) as [[found|] plan1] eqn:Ep; [|done].
  rewrite bind_run. destruct (classify_paths _ _ _ _ _ paths plan1) as [[rest|] plan2] eqn:Er; [|done].
  intros [= <- _]. apply IH in Er as ->. apply classify_path_excludes in Ep as ->. by destruct (left_out scope p).
Qed.

(** A local change of [q] that a pull narrowed to [dirty] does not look for. *)
Definition missed (dirty : gset WorkspacePath) (q : WorkspacePath) : Prop :=
  is_git_lock_path q = false ∧ delta q = RUnchanged ∧ q ∉ dirty ∧ ∃ local,
    local_delta ctx q (ancestor !! q) false = Ok local ∧
    match local with LUnchanged _ | LUnreadable => False | _ => True end.

Lemma missed_cases dirty q : crypto_ok (ctx_crypto ctx) →
  is_git_lock_path q = true ∨ delta q ≠ RUnchanged ∨ q ∈ dirty ∨ missed dirty q ∨
  ∃ local, local_delta ctx q (ancestor !! q) false = Ok local ∧
    match local with LUnchanged _ | LUnreadable => True | _ => False end.
Proof.
  intros Hc. destruct (is_git_lock_path q) eqn:Hlock; [by left|right].
  destruct (decide (q ∈ dirty)); [by right; left|].
  destruct (local_delta_ok ctx q (ancestor !! q) false Hc) as [local Hl].
  destruct (delta q) eqn:Hd; try (left; congruence).
  do 2 right. destruct local eqn:El; [left|right|left|right|left..]; try (by exists local; subst);
    (split; [done|]); (split; [done|]); (split; [done|]); exists local; by subst.
Qed.

Lemma left_out_missed dirty q : crypto_ok (ctx_crypto ctx) → ¬ missed dirty q → left_out (ChangedAndWalked dirty) q = true →
  ∃ local, local_delta ctx q (ancestor !! q) false = Ok local ∧
    match local with LUnchanged _ | LUnreadable => True | _ => False end.
Proof.
  unfold left_out. intros Hc Hm [Hlock%negb_true_iff Hobs%negb_true_iff]%andb_true_iff. cbn in Hobs.
  destruct (delta q) eqn:Hd; try done. apply bool_decide_eq_false in Hobs.
  by destruct (missed_cases dirty q Hc) as [?|[?|[?|[?|?]]]]; [congruence..| |].
Qed.

Lemma missed_left_out dirty q : missed dirty q → left_out (ChangedAndWalked dirty) q = true.
Proof.
  intros (Hlock & Hd & Hq & _). unfold left_out. rewrite Hlock. cbn. rewrite Hd. by rewrite bool_decide_eq_false_2.
Qed.

(** The check of a debug build finds the first change that was missed. *)
Lemma prove_excluded_finds dirty ex : crypto_ok (ctx_crypto ctx) →
  Forall (λ q, left_out (ChangedAndWalked dirty) q = true) ex →
  (prove_excluded ctx ancestor ex = Ok tt ∧ Forall (λ q, ¬ missed dirty q) ex) ∨
  ∃ q, missed dirty q ∧ prove_excluded ctx ancestor ex = Err (NarrowingMissedChange q).
Proof.
  intros Hc. induction 1 as [|q ex Hq _ IH]; cbn; [by left|].
  destruct (local_delta_ok ctx q (ancestor !! q) false Hc) as [local Hl]. rewrite Hl. cbn [result_bind].
  assert ((match local with LUnchanged _ | LUnreadable => True | _ => False end) ∨ missed dirty q) as [Hm|Hm].
  { unfold left_out in Hq. apply andb_true_iff in Hq as [Hlock%negb_true_iff Hobs%negb_true_iff]. cbn in Hobs.
    destruct (delta q) eqn:Hd; try done. apply bool_decide_eq_false in Hobs.
    destruct local eqn:El; [right|left|right|left|right..]; try done;
      (split; [done|]); (split; [done|]); (split; [done|]); exists local; by subst. }
  - assert (¬ missed dirty q) as Hno.
    { intros (_ & _ & _ & local' & Hl' & Hm'). assert (local' = local) as -> by congruence. by destruct local. }
    destruct IH as [[He Hf]|(q' & Hq' & He)].
    + left. split; [by destruct local|by constructor].
    + right. exists q'. split; [done|]. by destruct local.
  - right. exists q. split; [done|]. destruct Hm as (_ & _ & _ & local' & Hl' & Hm').
    assert (local' = local) as -> by congruence. by destruct local.
Qed.

(** What the narrowed pull of an unchanged disk misses, the walk could not report. *)
Lemma missed_unreportable walk dirty q : walkable → stat_walk fs policy ancestor = Ok walk → sk_dirty walk ⊆ dirty →
  missed dirty q → ∃ row, ancestor !! q = Some row ∧ ¬ reportable q row.
Proof.
  intros Hw Hwalk Hsub (_ & Hd & Hq & local & Hl & Hm). destruct (ancestor !! q) as [row|] eqn:Hrow.
  - exists row. split; [done|]. intros Hrep.
    assert (local_delta ctx q (Some row) false = Ok (LUnchanged row)) as Hu
      by (eapply walk_covers; [done..|set_solver]).
    rewrite Hu in Hl. injection Hl as <-. done.
  - unfold remote_delta in Hd. by destruct (remote !! q).
Qed.

Lemma contribution_unmissed dirty q : crypto_ok (ctx_crypto ctx) → ¬ missed dirty q →
  contribution ctx ancestor remote collisions (ChangedAndWalked dirty) q =
  contribution ctx ancestor remote collisions WholeAncestor q.
Proof.
  intros Hc Hm. destruct (is_git_lock_path q) eqn:Hlock.
  { unfold contribution, classify_path. by rewrite Hlock. }
  change (contribution ctx ancestor remote collisions (ChangedAndWalked dirty) q)
    with (contribution ctx ancestor remote collisions (ChangedAndDirty dirty) q).
  apply contribution_narrow; [done|]. intros Hd Hq.
  by destruct (missed_cases dirty q Hc) as [?|[?|[?|[?|?]]]]; [congruence..| |].
Qed.

Lemma narrowed_release dirty : crypto_ok (ctx_crypto ctx) → (∀ q, ¬ missed dirty q) →
  classify ctx false ancestor remote collisions (ChangedAndWalked dirty) =
  classify ctx false ancestor remote collisions WholeAncestor.
Proof.
  intros Hc Hm. rewrite !classify_release_total by done. do 2 f_equal. apply list_fmap_ext. intros i q _.
  by apply contribution_unmissed.
Qed.

Lemma narrowed_debug dirty : crypto_ok (ctx_crypto ctx) →
  (classify ctx true ancestor remote collisions (ChangedAndWalked dirty) =
     classify ctx false ancestor remote collisions (ChangedAndWalked dirty) ∧ ∀ q, ¬ missed dirty q) ∨
  ∃ q, missed dirty q ∧
    classify ctx true ancestor remote collisions (ChangedAndWalked dirty) = Err (NarrowingMissedChange q).
Proof.
  intros Hc. destruct (classify_paths_sum ctx ancestor remote collisions (ChangedAndWalked dirty)
    (merge_paths ancestor remote) Hc) as [ex Hex]. apply contributes_eq in Hex.
  unfold classify. rewrite Hex. pose proof Hex as ->%classify_paths_excludes. cbn [prove_narrowing].
  destruct (prove_excluded_finds dirty (List.filter (left_out (ChangedAndWalked dirty)) (merge_paths ancestor remote)) Hc)
    as [[-> Hf]|(q & Hq & ->)].
  - apply Forall_forall. by intros q [_ ?]%list_elem_of_In%filter_In.
  - left. split; [done|]. intros q Hq. rewrite Forall_forall in Hf. apply (Hf q); [|done].
    apply list_elem_of_In, filter_In. split; [|by apply missed_left_out]. apply list_elem_of_In, elem_merge_paths.
    destruct Hq as (_ & Hd & _). apply elem_of_union. unfold remote_delta in Hd. rewrite !elem_of_dom.
    destruct (ancestor !! q), (remote !! q); eauto; done.
  - right. by exists q.
Qed.

(** C23: What a pull after a walk observes.  Let the disk not change between the stat walk and
    the pull, and let a link that kept its stat have kept its target.  The pull plans from the
    paths the remote changed and from dirty paths that include those the walk reported.  A row
    whose local change it does not look for is one the walk may not report: the policy no
    longer syncs it, or it is private state.  If there is none, the plan is the one made from
    observing every row, in a debug and in a release build.  If there is one, the narrowing
    check of a debug build refuses the pull and names such a row.  And in every case the two
    plans of a release build agree at each path that is not such a row. *)
Theorem walked_pull_exact walk dirty :
  crypto_ok (ctx_crypto ctx) → walkable → stat_walk fs policy ancestor = Ok walk → sk_dirty walk ⊆ dirty →
  (∀ q, missed dirty q → ∃ row, ancestor !! q = Some row ∧ ¬ reportable q row) ∧
  ((∀ q, ¬ missed dirty q) → ∀ debug,
     classify ctx debug ancestor remote collisions (ChangedAndWalked dirty) =
     classify ctx debug ancestor remote collisions WholeAncestor) ∧
  (∀ q, missed dirty q → ∃ q', missed dirty q' ∧
     classify ctx true ancestor remote collisions (ChangedAndWalked dirty) = Err (NarrowingMissedChange q')) ∧
  (∀ q plan plan', ¬ missed dirty q →
     classify ctx false ancestor remote collisions (ChangedAndWalked dirty) = Ok plan →
     classify ctx false ancestor remote collisions WholeAncestor = Ok plan' → same_at q plan plan').
Proof.
  intros Hc Hw Hwalk Hsub. split; [intros q; by eapply missed_unreportable|]. split; [|split].
  - intros Hno debug. pose proof (narrowed_release dirty Hc Hno) as Hr. destruct debug; [|done].
    destruct (narrowed_debug dirty Hc) as [[-> _]|(q & Hq & _)]; [|by destruct (Hno q)]. by rewrite Hr.
  - intros q Hq. destruct (narrowed_debug dirty Hc) as [[_ Hno]|Hf]; [by destruct (Hno q)|done].
  - intros q plan plan' Hm Hp Hp'. destruct (decide (q ∈ dom ancestor ∪ dom remote)) as [Hq|Hq].
    + destruct (classify_at ctx ancestor remote collisions _ _ _ q Hc Hp Hq) as [Ha _].
      destruct (classify_at ctx ancestor remote collisions _ _ _ q Hc Hp' Hq) as [Ha' _].
      rewrite contribution_unmissed in Ha by done. by eapply agree_same.
    + by eapply agree_same; eapply classify_elsewhere.
Qed.

End WalkedPull.
