(* ===== verification/StatWalkWitnesses.v ===== *)
(** * Witnesses for the stat walk

    The workspace of the merge witnesses, listed by a walk: [kept] and [edited] have another
    stat than their rows, [gone] is missing and [odd] is a socket. *)

From S2P Require Import Prelude.
From S2P Require Import ManifestTypes.
From S2P Require Import FsGuard.
From S2P Require Import MergeMatrix.
From S2P Require Import MergePlans.
From S2P Require Import MergeDisk.
From S2P Require Import MergeTheorems.
From S2P Require Import Ordered.
From S2P Require Import Paths.
From S2P Require Import StatWalk.
From S2P Require Import StatWalkTheorems.
Local Open Scope string_scope.
Open Scope Z_scope.

#[local] Existing Instance w_hash.

Definition sw_fs : WalkFs :=
  {| wf_os := w_os; wf_root_is_dir := true;
     wf_read_dir := λ relative, if (relative =? "")%string
       then Ok [Ok (Utf8Name "kept"); Ok (Utf8Name "odd"); Ok (LossyName "bad"); Ok (Utf8Name "edited")]
       else Err w_enoent;
     wf_now := 9 |}.

Definition sw_policy : WalkPolicy := {| wp_syncs := λ _ _ _ _, true; wp_recurse := λ _ _ _ _, true |}.

Definition sw_walk : StatWalk :=
  match stat_walk sw_fs sw_policy w_ancestor with Ok walk => walk | Err _ => StatWalk_default end.

Example sw_found : sk_dirty sw_walk = {["kept"; "edited"; "odd"; "gone"]} ∧ dom (sk_unsyncable sw_walk) = {["odd"; "bad"]}.
Proof. split; vm_compute; reflexivity. Qed.

Lemma sw_walk_ok : stat_walk sw_fs sw_policy w_ancestor = Ok sw_walk.
Proof. vm_compute. reflexivity. Qed.

Lemma stat_walk_exact_witness : "gone" ∈ sk_dirty sw_walk ↔
  (∃ observed, walk_reaches sw_fs sw_policy false "gone" observed ∧ is_dirty observed (w_ancestor !! "gone") = true) ∨
  (∃ row, w_ancestor !! "gone" = Some row ∧ (∀ observed, ¬ walk_reaches sw_fs sw_policy false "gone" observed) ∧
     negb false && is_private_workspace_state_path "gone" = false ∧ policy_syncs sw_policy "gone" (Some row) false = true).
Proof. exact (stat_walk_exact sw_fs sw_policy w_ancestor false sw_walk sw_walk_ok "gone"). Defined.

Lemma w_os_no_links p observed : observe_classified w_os p = ObPresent observed → ob_kind observed ≠ Symlink.
Proof.
  unfold observe_classified, w_os, w_node. cbn. destruct (p =? "kept")%string; cbn; [by intros [= <-]|].
  destruct (p =? "edited")%string; cbn; [by intros [= <-]|]. by destruct (p =? "odd")%string.
Qed.

Lemma w_rows_synced : map_Forall (λ p row, is_private_workspace_state_path p = false) w_ancestor.
Proof. apply (bool_decide_unpack _). vm_compute. exact I. Qed.

Lemma w_walkable : walkable w_ctx w_ancestor sw_fs.
Proof. constructor; [done|]. intros p row observed _ Hobs Hlink. by apply w_os_no_links in Hobs. Qed.

Lemma walked_pull_exact_witness :
  classify w_ctx true w_ancestor w_remote [] (ChangedAndWalked (sk_dirty sw_walk)) =
  classify w_ctx true w_ancestor w_remote [] WholeAncestor.
Proof.
  destruct (walked_pull_exact w_ctx w_ancestor w_remote [] sw_fs sw_policy sw_walk (sk_dirty sw_walk)
              (crypto_new_ok "k" 1) w_walkable sw_walk_ok (reflexivity _)) as (Hmissed & Hsame & _).
  apply Hsame. intros q Hq. destruct (Hmissed q Hq) as (row & Hrow & Hno). apply Hno.
  split; [exact (w_rows_synced q row Hrow)|reflexivity].
Defined.

(** The policy came to leave [edited] out after it was synced, and [edited] was edited: the walk
    does not report it, and the narrowing check of a debug build refuses the pull. *)
Definition sw_leaving : WalkPolicy :=
  {| wp_syncs := λ _ p _ _, negb (p =? "edited")%string; wp_recurse := λ _ _ _ _, true |}.

Definition sw_left : gset WorkspacePath :=
  match stat_walk sw_fs sw_leaving w_ancestor with Ok walk => sk_dirty walk | Err _ => ∅ end.

Definition sw_narrowed : Result MergePlan PullError :=
  classify w_ctx true w_ancestor (<["edited" := FileEntry 4 33188 "k:base" "b_base" 1]> w_remote) []
    (ChangedAndWalked sw_left).

Example sw_narrowing_refused : sw_narrowed = Err (NarrowingMissedChange "edited").
Proof. vm_compute. reflexivity. Qed.

