(* ===== verification/Engine.v ===== *)
(** * The engine's state and schedule

    Models the state of [ManifestEngine] ([mod.rs], [state.rs], [dirty_set.rs],
    [events.rs], the enums of [workspace_root.rs]) and every transition of it that does no
    I/O: folding an event into the schedule, the deadlines, the backoff and its jitter, the
    degradation, the snapshot, its signature and the convergence receipt.

    Milliseconds are those since the engine started, so their sums do not overflow; the
    seeds of the jitter wrap at their width. *)

From Stdlib Require Import Ascii.
From S2P Require Import Prelude.
From S2P Require Import ManifestTypes.
From S2P Require Import MergeMatrix.
From S2P Require Import Store.
Local Open Scope string_scope.
Open Scope Z_scope.

(** ** [events.rs] *)

Inductive FullScanReason :=
| WatcherOverflow
| IngressDetailCollapsed
| WatcherDisconnected
| RootReplaced
| PeriodicAudit
| ConvergenceBarrier.

Inductive EngineEvent :=
| Paths (paths : gset WorkspacePath)
| RecursivePaths (paths : gset WorkspacePath)
| FullScanRequired (reason : FullScanReason)
| RefChanged
| RefObserved (observed : RefObservation)
| ConnectivityRestored
| EngineConvergenceBarrier (id endpoint_generation : Z)
| CancelEngineConvergenceBarrier (id endpoint_generation : Z)
| ConfirmMassDeletion
| Shutdown.

Inductive DeletionConfirmation := Authorized (removals entries : Z) | NotBlocked.

(** ** [workspace_root.rs] *)

Inductive RootFault :=
| RootMissing | RootNotADirectory | RootUnreadable | MarkerMissing | MarkerMismatch | MarkerUnreadable.

Inductive RootState := RootReady | RootFaulted (fault : RootFault).

(** ** [state.rs] *)

Inductive EnginePhase := Starting | Idle | Syncing | BackingOff | Stalled | Stopped.

Inductive Degradation :=
| Nominal
| ScanOwed (reason : FullScanReason)
| OfflineRetrying (attempt : Z)
| IntegrityStalled
| RootUnavailable (fault : RootFault)
| MassDeletionBlocked (removals entries : Z)
| StoreUnavailable.

#[export] Instance FullScanReason_eq_dec : EqDecision FullScanReason.
Proof. solve_decision. Defined.
#[export] Instance RootFault_eq_dec : EqDecision RootFault.
Proof. solve_decision. Defined.
#[export] Instance EnginePhase_eq_dec : EqDecision EnginePhase.
Proof. solve_decision. Defined.
#[export] Instance Degradation_eq_dec : EqDecision Degradation.
Proof. solve_decision. Defined.
#[export] Instance RefObservation_eq_dec : EqDecision RefObservation.
Proof. solve_decision. Defined.
#[export] Instance EngineRef_eq_dec : EqDecision EngineRef.
Proof. solve_decision. Defined.
#[export] Instance UnsyncableReason_eq_dec : EqDecision UnsyncableReason.
Proof. solve_decision. Defined.
#[export] Instance UnsyncableRecord_eq_dec : EqDecision UnsyncableRecord.
Proof. solve_decision. Defined.

(** [EngineRef::from_observation] *)
Definition from_observation (observation : option RefObservation) : EngineRef :=
  match observation with Some observed => Head observed | None => Genesis end.

Record EngineProcessIdentity := { pi_boot_id : string; pi_session_id : string; pi_started_at : string }.

Record EngineConvergenceReceipt := {
  cr_process_identity : EngineProcessIdentity;
  cr_workspace_identity : string;
  cr_endpoint_generation : Z;
  cr_barrier_id : Z;
  cr_engine_revision : Z;
  cr_observed_ref : EngineRef;
  cr_applied_ref : EngineRef;
  cr_materialization_revision : Z;
}.

Record EngineSnapshot := {
  sn_revision : Z;
  sn_phase : EnginePhase;
  sn_observed_ref : option RefObservation;
  sn_applied_ref : EngineRef;
  sn_materialization_revision : Z;
  sn_pending_intents : Z;
  sn_dirty : Z;
  sn_dirty_paths : gset WorkspacePath;
  sn_dirty_subtree_paths : gset WorkspacePath;
  sn_pending_intent_paths : gset WorkspacePath;
  sn_scan_required : bool;
  sn_unattributed_pull_pending : bool;
  sn_cycle_active : bool;
  sn_last_success_at : option Z;
  sn_degradation : Degradation;
  sn_unsyncable : gmap WorkspacePath UnsyncableRecord;
  sn_refused_removals : gset WorkspacePath;
}.

Definition is_work_drained (s : EngineSnapshot) : bool :=
  bool_decide (sn_phase s = Idle)
  && (sn_pending_intents s =? 0)
  && (sn_dirty s =? 0)
  && bool_decide (sn_dirty_paths s = ∅)
  && bool_decide (sn_dirty_subtree_paths s = ∅)
  && bool_decide (sn_pending_intent_paths s = ∅)
  && negb (sn_scan_required s)
  && negb (sn_unattributed_pull_pending s)
  && negb (sn_cycle_active s).

Definition is_exactly_converged (s : EngineSnapshot) : bool :=
  is_work_drained s
  && bool_decide (sn_degradation s = Nominal)
  && bool_decide (from_observation (sn_observed_ref s) = sn_applied_ref s)
  && bool_decide (sn_unsyncable s = ∅)
  && bool_decide (sn_refused_removals s = ∅).

Definition convergence_receipt (s : EngineSnapshot) (process_identity : EngineProcessIdentity)
    (workspace_identity : string) (endpoint_generation barrier_id : Z) : option EngineConvergenceReceipt :=
  if negb (is_exactly_converged s) then None else
  Some {| cr_process_identity := process_identity; cr_workspace_identity := workspace_identity;
          cr_endpoint_generation := endpoint_generation; cr_barrier_id := barrier_id;
          cr_engine_revision := sn_revision s; cr_observed_ref := from_observation (sn_observed_ref s);
          cr_applied_ref := sn_applied_ref s;
          cr_materialization_revision := sn_materialization_revision s |}.

Record StateSig := {
  sg_phase : EnginePhase;
  sg_degradation : Degradation;
  sg_applied_ref : EngineRef;
  sg_materialization_revision : Z;
  sg_observed_ref : EngineRef;
  sg_pending_intents : Z;
  sg_pending_intent_paths : gset WorkspacePath;
  sg_dirty_paths : gset WorkspacePath;
  sg_dirty_subtree_paths : gset WorkspacePath;
  sg_scan_required : bool;
  sg_unattributed_pull_pending : bool;
  sg_cycle_active : bool;
  sg_unsyncable : gmap WorkspacePath UnsyncableRecord;
  sg_refused_removals : gset WorkspacePath;
}.
#[export] Instance StateSig_eq_dec : EqDecision StateSig.
Proof. solve_decision. Defined.

(** ** The engine *)

(** [Cap] is what the endpoint measured of the volume: the folding of names and the
    granularity of timestamps. *)
Record ManifestEngine (Cap : Type) := {
  me_store : ManifestStore;
  me_capabilities : Cap;
  me_dirty : gset WorkspacePath;
  me_dirty_seen : gmap WorkspacePath Z;
  me_next_dirty_seq : Z;
  me_published_batch : gset WorkspacePath;
  me_dirty_subtrees : gset WorkspacePath;
  me_scan_required : bool;
  me_pull_needed : bool;
  me_pending_ref_hint : option RefObservation;
  me_force_ref_read : bool;
  me_unattributed_pull_pending : bool;
  me_startup_reconcile : bool;
  me_startup_pending : gset WorkspacePath;
  me_cycle_active : bool;
  me_authoritative_scan_active : bool;
  me_debounce_deadline : option Z;
  me_max_latency_deadline : option Z;
  me_backoff_deadline : option Z;
  me_backoff_attempt : Z;
  me_audit_deadline : option Z;
  me_audit_round : Z;
  me_stall_deadline : option Z;
  me_confirmed_removals : option (gset WorkspacePath);
  me_revision : Z;
  me_phase : EnginePhase;
  me_head_ref : option RefObservation;
  me_applied_ref : EngineRef;
  me_materialization_revision : Z;
  me_pending_intents : Z;
  me_pending_intent_paths : gset WorkspacePath;
  me_last_success_at : option Z;
  me_degradation : Degradation;
  me_unsyncable : gmap WorkspacePath UnsyncableRecord;
  me_refused_removals : gset WorkspacePath;
  me_last_sig : option StateSig;
  me_pending_barriers : gmap Z Z;
  me_completed_barriers : gmap Z EngineConvergenceReceipt;
}.
Arguments me_store {Cap} _.
Arguments me_capabilities {Cap} _.
Arguments me_dirty {Cap} _.
Arguments me_dirty_seen {Cap} _.
Arguments me_next_dirty_seq {Cap} _.
Arguments me_published_batch {Cap} _.
Arguments me_dirty_subtrees {Cap} _.
Arguments me_scan_required {Cap} _.
Arguments me_pull_needed {Cap} _.
Arguments me_pending_ref_hint {Cap} _.
Arguments me_force_ref_read {Cap} _.
Arguments me_unattributed_pull_pending {Cap} _.
Arguments me_startup_reconcile {Cap} _.
Arguments me_startup_pending {Cap} _.
Arguments me_cycle_active {Cap} _.
Arguments me_authoritative_scan_active {Cap} _.
Arguments me_debounce_deadline {Cap} _.
Arguments me_max_latency_deadline {Cap} _.
Arguments me_backoff_deadline {Cap} _.
Arguments me_backoff_attempt {Cap} _.
Arguments me_audit_deadline {Cap} _.
Arguments me_audit_round {Cap} _.
Arguments me_stall_deadline {Cap} _.
Arguments me_confirmed_removals {Cap} _.
Arguments me_revision {Cap} _.
Arguments me_phase {Cap} _.
Arguments me_head_ref {Cap} _.
Arguments me_applied_ref {Cap} _.
Arguments me_materialization_revision {Cap} _.
Arguments me_pending_intents {Cap} _.
Arguments me_pending_intent_paths {Cap} _.
Arguments me_last_success_at {Cap} _.
Arguments me_degradation {Cap} _.
Arguments me_unsyncable {Cap} _.
Arguments me_refused_removals {Cap} _.
Arguments me_last_sig {Cap} _.
Arguments me_pending_barriers {Cap} _.
Arguments me_completed_barriers {Cap} _.
#[export] Instance ManifestEngine_eta Cap : Eta (ManifestEngine Cap) :=
  λ e, Build_ManifestEngine Cap (me_store e) (me_capabilities e) (me_dirty e) (me_dirty_seen e) (me_next_dirty_seq e)
         (me_published_batch e) (me_dirty_subtrees e) (me_scan_required e) (me_pull_needed e)
         (me_pending_ref_hint e) (me_force_ref_read e) (me_unattributed_pull_pending e)
         (me_startup_reconcile e) (me_startup_pending e) (me_cycle_active e)
         (me_authoritative_scan_active e) (me_debounce_deadline e) (me_max_latency_deadline e)
         (me_backoff_deadline e) (me_backoff_attempt e) (me_audit_deadline e) (me_audit_round e)
         (me_stall_deadline e) (me_confirmed_removals e) (me_revision e) (me_phase e)
         (me_head_ref e) (me_applied_ref e) (me_materialization_revision e) (me_pending_intents e)
         (me_pending_intent_paths e) (me_last_success_at e) (me_degradation e) (me_unsyncable e)
         (me_refused_removals e) (me_last_sig e) (me_pending_barriers e) (me_completed_barriers e).

(** ** Constants *)

Definition DEBOUNCE_MS : Z := 250.
Definition MAX_LATENCY_MS : Z := 2000.
Definition BACKOFF_BASE_MS : Z := 250.
Definition BACKOFF_CAP_MS : Z := 5000.
Definition MAX_PUSH_ATTEMPTS : nat := 2.
Definition AUDIT_INTERVAL_MIN_MS : Z := 30 * 60 * 1000.
Definition AUDIT_INTERVAL_MAX_MS : Z := 60 * 60 * 1000.
Definition STALL_REPROBE_MS : Z := 30000.
Definition PUBLISH_BATCH_MAX : nat := 64.

Definition DirtySeq_INITIAL : Z := 0.
Definition dirty_seq_next (seq : Z) : Z := u64_saturating_add seq 1.

(** The loop [seed = seed.wrapping_mul(31).wrapping_add(byte)] over the device id. *)
Fixpoint fold_seed (seed : Z) (device_id : string) : Z :=
  match device_id with
  | EmptyString => seed
  | String byte rest => fold_seed (((seed * 31) mod 2 ^ 64 + Z.of_N (N_of_ascii byte)) mod 2 ^ 64) rest
  end.

Section Schedule.
Context {Cap : Type} (canonical_spelling : Cap → WorkspacePath → WorkspacePath) (device_id : string).
Implicit Types e : ManifestEngine Cap.

Definition engine_new (store : ManifestStore) (capabilities : Cap) : ManifestEngine Cap :=
  {| me_store := store; me_capabilities := capabilities; me_dirty := ∅; me_dirty_seen := ∅;
     me_next_dirty_seq := DirtySeq_INITIAL; me_published_batch := ∅; me_dirty_subtrees := ∅;
     me_scan_required := false; me_pull_needed := false; me_pending_ref_hint := None;
     me_force_ref_read := false; me_unattributed_pull_pending := false; me_startup_reconcile := true;
     me_startup_pending := ∅; me_cycle_active := false; me_authoritative_scan_active := false;
     me_debounce_deadline := None; me_max_latency_deadline := None; me_backoff_deadline := None;
     me_backoff_attempt := 0; me_audit_deadline := None; me_audit_round := 0; me_stall_deadline := None;
     me_confirmed_removals := None; me_revision := 0; me_phase := Starting; me_head_ref := None;
     me_applied_ref := Genesis; me_materialization_revision := 0; me_pending_intents := 0;
     me_pending_intent_paths := ∅; me_last_success_at := None; me_degradation := Nominal;
     me_unsyncable := ∅; me_refused_removals := ∅; me_last_sig := None; me_pending_barriers := ∅;
     me_completed_barriers := ∅ |}.

Definition engine_snapshot e : EngineSnapshot :=
  {| sn_revision := me_revision e; sn_phase := me_phase e; sn_observed_ref := me_head_ref e;
     sn_applied_ref := me_applied_ref e; sn_materialization_revision := me_materialization_revision e;
     sn_pending_intents := me_pending_intents e;
     sn_dirty := Z.of_nat (size (me_dirty e)) + Z.of_nat (size (me_dirty_subtrees e));
     sn_dirty_paths := me_dirty e; sn_dirty_subtree_paths := me_dirty_subtrees e;
     sn_pending_intent_paths := me_pending_intent_paths e; sn_scan_required := me_scan_required e;
     sn_unattributed_pull_pending := me_unattributed_pull_pending e; sn_cycle_active := me_cycle_active e;
     sn_last_success_at := me_last_success_at e; sn_degradation := me_degradation e;
     sn_unsyncable := me_unsyncable e; sn_refused_removals := me_refused_removals e |}.

(** *** Degradation and revision *)

Definition deletion_blocked (d : Degradation) : bool :=
  match d with MassDeletionBlocked _ _ => true | _ => false end.

Definition set_degradation (d : Degradation) e : ManifestEngine Cap :=
  let e := if negb (deletion_blocked d) && negb (bool_decide (me_refused_removals e = ∅))
           then e <| me_refused_removals := ∅ |> else e in
  e <| me_degradation := d |>.

Definition block_mass_deletion (removals : gset WorkspacePath) (entries : Z) e : ManifestEngine Cap :=
  (set_degradation (MassDeletionBlocked (Z.of_nat (size removals)) entries) e)
    <| me_refused_removals := removals |>.

Definition idle e : bool :=
  bool_decide (me_dirty e = ∅) && bool_decide (me_dirty_subtrees e = ∅)
  && negb (me_scan_required e) && negb (me_pull_needed e).

Definition degradation_is_transient e : bool :=
  match me_degradation e with
  | OfflineRetrying _ | ScanOwed _ | IntegrityStalled | MassDeletionBlocked _ _ => true
  | Nominal | RootUnavailable _ | StoreUnavailable => false
  end.

Definition state_sig e : StateSig :=
  {| sg_phase := me_phase e; sg_degradation := me_degradation e; sg_applied_ref := me_applied_ref e;
     sg_materialization_revision := me_materialization_revision e;
     sg_observed_ref := from_observation (me_head_ref e); sg_pending_intents := me_pending_intents e;
     sg_pending_intent_paths := me_pending_intent_paths e; sg_dirty_paths := me_dirty e;
     sg_dirty_subtree_paths := me_dirty_subtrees e; sg_scan_required := me_scan_required e;
     sg_unattributed_pull_pending := me_unattributed_pull_pending e; sg_cycle_active := me_cycle_active e;
     sg_unsyncable := me_unsyncable e; sg_refused_removals := me_refused_removals e |}.

Definition bump_revision_if_changed e : ManifestEngine Cap :=
  if bool_decide (me_last_sig e = Some (state_sig e)) then e
  else e <| me_revision := me_revision e + 1 |> <| me_last_sig := Some (state_sig e) |>.

(** *** The dirty set *)

Definition engine_canonical_paths e (paths : gset WorkspacePath) : gset WorkspacePath :=
  set_map (canonical_spelling (me_capabilities e)) paths.

(** The loop of [absorb_dirty] over the folded paths, in order. *)
Definition stamp_dirty (seen_seq : gmap WorkspacePath Z * Z) (path : WorkspacePath) : gmap WorkspacePath Z * Z :=
  let seq := dirty_seq_next seen_seq.2 in (<[path := seq]> seen_seq.1, seq).

Definition absorb_dirty (paths : gset WorkspacePath) e : ManifestEngine Cap :=
  let folded := engine_canonical_paths e paths in
  let '(seen, seq) := foldl stamp_dirty (me_dirty_seen e, me_next_dirty_seq e)
                        (merge_sort str_le (elements folded)) in
  e <| me_dirty_seen := seen |> <| me_next_dirty_seq := seq |> <| me_dirty := folded ∪ me_dirty e |>.

Definition absorb_authoritative_dirty (paths : gset WorkspacePath) (observation_seq : Z) e : ManifestEngine Cap :=
  let folded := engine_canonical_paths e paths in
  let seen := foldl (λ seen path,
                <[path := match seen !! path with
                          | Some current => if current <? observation_seq then observation_seq else current
                          | None => observation_seq
                          end]> seen) (me_dirty_seen e) (merge_sort str_le (elements folded)) in
  e <| me_dirty_seen := seen |> <| me_dirty := folded ∪ me_dirty e |>.

(** *** Deadlines *)

Definition min_deadline (a b : option Z) : option Z :=
  match a, b with
  | Some a, Some b => Some (Z.min a b)
  | Some a, None => Some a
  | None, b => b
  end.

Definition next_due e : option Z :=
  foldr min_deadline None
    [me_debounce_deadline e; me_max_latency_deadline e; me_backoff_deadline e; me_audit_deadline e;
     me_stall_deadline e].

Definition next_timeout e (now : Z) : option Z := (λ due, Z.max 0 (due - now)) <$> next_due e.

Definition is_due e (now : Z) : bool := match next_due e with Some due => due <=? now | None => false end.

Definition arm_audit (now : Z) e : ManifestEngine Cap :=
  let round := (me_audit_round e + 1) mod 2 ^ 32 in
  let span := AUDIT_INTERVAL_MAX_MS - AUDIT_INTERVAL_MIN_MS in
  e <| me_audit_round := round |>
    <| me_audit_deadline := Some (now + AUDIT_INTERVAL_MIN_MS + fold_seed round device_id mod (span + 1)) |>.

Definition arm_debounce (now : Z) e : ManifestEngine Cap :=
  let e := e <| me_debounce_deadline := Some (now + DEBOUNCE_MS) |> in
  match me_max_latency_deadline e with
  | None => e <| me_max_latency_deadline := Some (now + MAX_LATENCY_MS) |>
  | Some _ => e
  end.

Definition preempt_backoff e : ManifestEngine Cap :=
  e <| me_backoff_deadline := None |> <| me_backoff_attempt := 0 |>.

Definition backoff_delay (attempt : Z) : Z :=
  let exp := u64_saturating_mul BACKOFF_BASE_MS (Z.shiftl 1 (Z.min attempt 8)) in
  let base := Z.min exp BACKOFF_CAP_MS in
  let jitter_span := base / 4 in
  if jitter_span =? 0 then base
  else Z.max 0 (base - jitter_span) + fold_seed attempt device_id mod (jitter_span + 1).

Definition enter_backoff (now : Z) e : ManifestEngine Cap :=
  let attempt := u32_saturating_add (me_backoff_attempt e) 1 in
  (set_degradation (OfflineRetrying attempt)
    (e <| me_backoff_attempt := attempt |> <| me_backoff_deadline := Some (now + backoff_delay attempt) |>))
    <| me_phase := BackingOff |>.

(** *** Events *)

Definition confirm_mass_deletion (now : Z) e : DeletionConfirmation * ManifestEngine Cap :=
  match me_degradation e with
  | MassDeletionBlocked removals entries =>
      let e := e <| me_confirmed_removals := Some (me_refused_removals e) |> in
      let e := (set_degradation Nominal e) <| me_debounce_deadline := Some now |> in
      (Authorized removals entries, bump_revision_if_changed (preempt_backoff e))
  | _ => (NotBlocked, e)
  end.

(** A ref wakeup waits for the debounce of a watcher burst that is under way. *)
Definition arm_for_ref (now : Z) e : ManifestEngine Cap :=
  if bool_decide (me_dirty_subtrees e = ∅) || negb (is_some (me_debounce_deadline e))
  then e <| me_debounce_deadline := Some now |> else e.

(** [coalesce_ref_hint] of [ref_observation.rs] *)
Definition coalesce_ref_hint (observed : RefObservation) e : bool * ManifestEngine Cap :=
  if me_force_ref_read e then (true, e) else
  let stale head := (ro_version observed <? ro_version head)
                    || (ro_version observed =? ro_version head)
                       && (ro_manifest_key observed =? ro_manifest_key head)%string in
  let conflict e := e <| me_pending_ref_hint := None |> <| me_force_ref_read := true |> in
  let retain e :=
    match me_pending_ref_hint e with
    | None => e <| me_pending_ref_hint := Some observed |>
    | Some current =>
        if ro_version current <? ro_version observed then e <| me_pending_ref_hint := Some observed |>
        else if (ro_version observed =? ro_version current)
                && negb (ro_manifest_key observed =? ro_manifest_key current)%string then conflict e
        else e
    end in
  match me_head_ref e with
  | Some head =>
      if stale head then (false, e)
      else if ro_version observed =? ro_version head then (true, conflict e)
      else (true, retain e)
  | None => (true, retain e)
  end.

Definition owe_pull e : ManifestEngine Cap :=
  e <| me_pull_needed := true |> <| me_unattributed_pull_pending := true |>.

Definition force_read e : ManifestEngine Cap :=
  e <| me_pending_ref_hint := None |> <| me_force_ref_read := true |>.

(** The [match] of [on_event]. *)
Definition fold_event (event : EngineEvent) (now : Z) e : ManifestEngine Cap :=
  match event with
  | Paths paths => preempt_backoff (arm_debounce now (absorb_dirty paths e))
  | RecursivePaths paths =>
      let e := e <| me_dirty_subtrees := engine_canonical_paths e paths ∪ me_dirty_subtrees e |> in
      preempt_backoff (arm_debounce now e)
  | FullScanRequired reason =>
      let e := set_degradation (ScanOwed reason) (e <| me_scan_required := true |>) in
      preempt_backoff (e <| me_debounce_deadline := Some now |>)
  | RefChanged => preempt_backoff (arm_for_ref now (owe_pull (force_read e)))
  | RefObserved observed =>
      let '(useful, e) := coalesce_ref_hint observed e in
      if useful then preempt_backoff (arm_for_ref now (owe_pull e)) else e
  | ConnectivityRestored =>
      preempt_backoff ((owe_pull (force_read e)) <| me_debounce_deadline := Some now |>)
  | EngineConvergenceBarrier id endpoint_generation =>
      let e := (force_read e) <| me_pending_barriers := <[id := endpoint_generation]> (me_pending_barriers e) |>
                 <| me_scan_required := true |> in
      let e := set_degradation (ScanOwed ConvergenceBarrier) (owe_pull e) in
      preempt_backoff (e <| me_debounce_deadline := Some now |>)
  | CancelEngineConvergenceBarrier id endpoint_generation =>
      let e := if bool_decide (me_pending_barriers e !! id = Some endpoint_generation)
               then e <| me_pending_barriers := delete id (me_pending_barriers e) |> else e in
      match me_completed_barriers e !! id with
      | Some receipt =>
          if cr_endpoint_generation receipt =? endpoint_generation
          then e <| me_completed_barriers := delete id (me_completed_barriers e) |> else e
      | None => e
      end
  | ConfirmMassDeletion => (confirm_mass_deletion now e).2
  | Shutdown => e <| me_phase := Stopped |>
  end.

Definition on_event (event : EngineEvent) (now : Z) e : ManifestEngine Cap :=
  bump_revision_if_changed (fold_event event now e).

(** [announce_due_work] *)
Definition announce_due_work (now : Z) e : bool * ManifestEngine Cap :=
  if negb (is_due e now) then (false, e) else
  (true, bump_revision_if_changed
           (e <| me_phase := Syncing |> <| me_cycle_active := true |>
              <| me_unattributed_pull_pending := false |>)).

Definition take_completed_barriers e : list EngineConvergenceReceipt * ManifestEngine Cap :=
  (snd <$> map_to_list (me_completed_barriers e), e <| me_completed_barriers := ∅ |>).

Definition schedule_recovered_work (now : Z) e : ManifestEngine Cap :=
  if bool_decide (me_dirty e = ∅) then e
  else bump_revision_if_changed (e <| me_debounce_deadline := Some now |>).

End Schedule.
