(* ===== verification/EngineCycle.v ===== *)
(** * One cycle of the engine

    Models what the engine does when a deadline elapses: [run_due_work], [run_cycle] and
    [start] of [mod.rs], [cycle_outcome.rs], [scan_cycle.rs], [publish_cycle.rs],
    [ref_observation.rs] and the sentinel of [workspace_root.rs].

    The engine calls a pull, a push and the recovery of the journal through the class
    [EnginePorts], as functions that change the store and the machine around it.  Everything
    else is the engine's own: what it observes, when it stops, what stays dirty and when it
    wakes. *)

From S2P Require Import Prelude.
From S2P Require Import ManifestTypes.
From S2P Require Import FsGuard.
From S2P Require Import MergeMatrix.
From S2P Require Import Store.
From S2P Require Import Ordered.
From S2P Require Import Apply.
From S2P Require Import Push.
From S2P Require Import Paths.
From S2P Require Import StatWalk.
From S2P Require Import Engine.
Local Open Scope string_scope.
Open Scope Z_scope.

(** ** [cycle_outcome.rs] *)

Inductive TransportFailureClass := Retryable | Integrity.

Inductive EngineError :=
| EngineIo (error : IoError)
| EngineStore (error : ManifestStoreError)
| EnginePush (error : PushError)
| EnginePull (error : PullError)
| EngineInternal.

(** [CyclePanicked] is not a variant: it is a call that would unwind. *)
Inductive CycleError :=
| CycleTransport
| CycleIntegrity
| CycleRootUnavailable (fault : RootFault)
| CycleMassDeletionBlocked (removals : gset WorkspacePath) (entries : Z)
| CyclePathScoped
| CycleFatal (error : EngineError)
| CyclePanicked (reason : string).

Definition transport_cycle_error (class : TransportFailureClass) : CycleError :=
  match class with Retryable => CycleTransport | Integrity => CycleIntegrity end.

Definition push_cycle_error (class : TransportFailureClass) (error : PushError) : CycleError :=
  match error with
  | PushTransportErr => transport_cycle_error class
  | MassDeletionRefused removals entries _ => CycleMassDeletionBlocked removals entries
  | PushIo _ | PushStoreErr | PushManifestErr | AncestorRowMissing _ | StreamSealUnsupported _ _ =>
      CycleFatal (EnginePush error)
  | PushPanicked reason => CyclePanicked reason
  end.

Inductive PushFailureScope := ParksPublishing | StopsCycle.

Definition push_failure_scope (error : CycleError) : PushFailureScope :=
  match error with
  | CycleMassDeletionBlocked _ _ => ParksPublishing
  | _ => StopsCycle
  end.

Definition classify_pull_error (class : TransportFailureClass) (error : PullError) : CycleError :=
  match error with
  | TransportErr => transport_cycle_error class
  | RefRegressed _ _ | RefForked _ => CycleIntegrity
  | PathError _ => CyclePathScoped
  | PushErr (PushPanicked reason) | Panicked reason => CyclePanicked reason
  | EngineScratchIo _ | StoreError | ManifestErr | PushErr _ | ManifestKeyMismatch | BlobKeyMismatch
  | NarrowingMissedChange _ | Internal _ => CycleFatal EngineInternal
  end.

Definition map_fatal (error : CycleError) (replacement : EngineError) : CycleError :=
  match error with CycleFatal _ => CycleFatal replacement | other => other end.

Definition pull_cycle_error (class : TransportFailureClass) (error : PullError) : CycleError :=
  map_fatal (classify_pull_error class error) (EnginePull error).

(** ** What the engine is given *)

Class EnginePorts (W Cap : Type) := {
  now_millis : W → Z;
  device_id : string;
  process_identity : EngineProcessIdentity;
  workspace_identity : string;
  workspace_id_hash : string;
  ctx_project_view : bool;
  canonical_spelling : Cap → WorkspacePath → WorkspacePath;
  (** [fs::metadata(root)]: whether it is a directory *)
  root_metadata : W → Result bool IoError;
  (** [fs::read] of the marker and [serde_json] of its content *)
  read_marker : W → Result bytes IoError;
  parse_marker : bytes → option (Z * string);
  (** [adopt_root]: the marker's directory and its content *)
  adopt_root : M W IoError unit;
  (** [prepare_endpoint_probe_root] and [refresh_endpoint_capabilities] *)
  probe_endpoint : M W IoError Cap;
  load_policy : W → Result WalkPolicy IoError;
  load_scoped_policy : W → gset WorkspacePath → Result WalkPolicy IoError;
  (** what a walk of the workspace reads *)
  walk_fs : W → WalkFs;
  (** the class of the transport's last failure *)
  failure_class : W → TransportFailureClass;
  port_recover : Cap → M (ManifestStore * W) PullError unit;
  port_pull : Cap → PullScope → M (ManifestStore * W) PullError PullOutcome;
  port_push : Cap → gset WorkspacePath → DeletionAuthorization → WatcherEvidence →
    M (ManifestStore * W) PushError PushOutcome;
}.

(** The engine and the machine it runs on. *)
Record Running (W Cap : Type) := { rn_engine : ManifestEngine Cap; rn_world : W }.
Arguments rn_engine {W Cap} _.
Arguments rn_world {W Cap} _.

(** [SELECT path, reason, errno, observed_at FROM unsyncable] *)
Definition unsyncable_rows : SM (gmap WorkspacePath UnsyncableRecord) :=
  statement ;; s ← get; mret (ms_unsyncable s).

Definition MARKER_FORMAT_VERSION : Z := 1.

Definition root_fault_from_io (error : IoError) : RootFault :=
  match io_kind error with
  | NotFound => RootMissing
  | NotADirectory => RootNotADirectory
  | _ => RootUnreadable
  end.

Definition classify_root_directory (metadata : Result bool IoError) : option RootFault :=
  match metadata with
  | Ok true => None
  | Ok false => Some RootNotADirectory
  | Err error => Some (root_fault_from_io error)
  end.

Inductive LocalObservation := Reactive | FreshlyWalked.

Definition watcher_evidence (observation : LocalObservation) : WatcherEvidence :=
  match observation with Reactive => Continuous | FreshlyWalked => Gapped end.

Definition observation_scope (observation : LocalObservation) (dirty : gset WorkspacePath) : PullScope :=
  match observation with Reactive => ChangedAndDirty dirty | FreshlyWalked => ChangedAndWalked dirty end.

Inductive WalkScope := WholeWorkspace | DirtySubtrees.

(** The order of the tuples [(DirtySeq, WorkspacePath)]. *)
Definition dirty_le (a b : Z * WorkspacePath) : Prop :=
  a.1 < b.1 ∨ (a.1 = b.1 ∧ str_le a.2 b.2).
#[export] Instance dirty_le_dec a b : Decision (dirty_le a b) := _.

Record AuthoritativeScanPlan := {
  sp_policy : WalkPolicy;
  sp_ancestor : gmap WorkspacePath FileRecord;
  sp_observation_seq : Z;
}.

Record AuthoritativeScanResult := { sr_walk : Result StatWalk RootFault; sr_observation_seq : Z }.

Record AuthoritativeScanReceipt := { rc_revision : Z; rc_dirty_paths : Z }.

Inductive AuthoritativeScanError :=
| ScanCycleActive
| ScanRootUnavailable (fault : RootFault)
| ScanFatal (error : EngineError)
| ScanPanicked (reason : string).

Definition authoritative_cycle_error (error : CycleError) : AuthoritativeScanError :=
  match error with
  | CycleRootUnavailable fault => ScanRootUnavailable fault
  | CycleFatal error => ScanFatal error
  | CycleTransport | CycleIntegrity | CycleMassDeletionBlocked _ _ | CyclePathScoped => ScanFatal EngineInternal
  | CyclePanicked reason => ScanPanicked reason
  end.

(** [AuthoritativeScanPlan::execute] *)
Definition execute_scan (fs : WalkFs) (plan : AuthoritativeScanPlan) : AuthoritativeScanResult :=
  {| sr_walk := match stat_walk fs (sp_policy plan) (sp_ancestor plan) with
                | Ok walk => Ok walk
                | Err _ => Err RootMissing
                end;
     sr_observation_seq := sp_observation_seq plan |}.

Section Cycle.
Context {W Cap : Type} `{EnginePorts W Cap}.

Local Abbreviation CM := (M (Running W Cap) CycleError).

Definition on_engine {E} (f : ManifestEngine Cap → ManifestEngine Cap) : M (Running W Cap) E unit :=
  modify (λ s, {| rn_engine := f (rn_engine s); rn_world := rn_world s |}).

Definition engine_of {E} : M (Running W Cap) E (ManifestEngine Cap) := λ s, (Ok (rn_engine s), s).

Definition world_of {E} : M (Running W Cap) E W := λ s, (Ok (rn_world s), s).

(** A store call on the engine's thread. *)
Definition call_store {A} (m : SM A) : M (Running W Cap) ManifestStoreError A := λ s,
  let '(r, store) := m (me_store (rn_engine s)) in
  (r, {| rn_engine := (rn_engine s) <| me_store := store |>; rn_world := rn_world s |}).

(** [map_err(|error| CycleError::Fatal(EngineError::Store(error)))] *)
Definition engine_store {A} (m : SM A) : CM A := λ s,
  match call_store m s with
  | (Ok a, s) => (Ok a, s)
  | (Err error, s) => (Err (CycleFatal (EngineStore error)), s)
  end.

(** A call on the machine whose failure is [EngineError::Io]. *)
Definition world_call {A} (m : M W IoError A) : CM A := λ s,
  match m (rn_world s) with
  | (Ok a, w) => (Ok a, {| rn_engine := rn_engine s; rn_world := w |})
  | (Err error, w) => (Err (CycleFatal (EngineIo error)), {| rn_engine := rn_engine s; rn_world := w |})
  end.

Definition io_value {A} (r : Result A IoError) : CM A :=
  match r with Ok a => mret a | Err error => throw (CycleFatal (EngineIo error)) end.

(** A call through a port: it changes the store and the machine. *)
Definition through_port {A E F} (m : M (ManifestStore * W) E A) : M (Running W Cap) F (Result A E) := λ s,
  let '(r, (store, w)) := m (me_store (rn_engine s), rn_world s) in
  (Ok r, {| rn_engine := (rn_engine s) <| me_store := store |>; rn_world := w |}).

(** ** The sentinel *)

Definition verify_root (w : W) : RootState :=
  match classify_root_directory (root_metadata w) with
  | Some fault => RootFaulted fault
  | None =>
      if ctx_project_view then RootReady else
      match read_marker w with
      | Err error =>
          RootFaulted (match io_kind error with NotFound => MarkerMissing | _ => MarkerUnreadable end)
      | Ok raw =>
          match parse_marker raw with
          | Some (format_version, hash) =>
              if (format_version =? MARKER_FORMAT_VERSION) && (hash =? workspace_id_hash)%string
              then RootReady else RootFaulted MarkerMismatch
          | None => RootFaulted MarkerMismatch
          end
      end
  end.

Definition ancestor_is_empty : CM bool := count ← engine_store file_count; mret (count =? 0).

Definition guard_root : CM unit :=
  w ← world_of;
  state ← (match verify_root w with
           | RootFaulted MarkerMissing =>
               empty ← ancestor_is_empty;
               match empty with
               | true => world_call adopt_root ;; mret RootReady
               | false => mret (RootFaulted MarkerMissing)
               end
           | state => mret state
           end);
  match state with
  | RootFaulted fault => throw (CycleRootUnavailable fault)
  | RootReady =>
      e ← engine_of;
      match me_degradation e with
      | RootUnavailable _ =>
          capabilities ← world_call probe_endpoint;
          on_engine (λ e, (set_degradation (ScanOwed RootReplaced) (e <| me_capabilities := capabilities |>))
                            <| me_scan_required := true |>)
      | _ => mret tt
      end
  end.

(** ** Scanning *)

Definition walk_visited (scope : WalkScope) (subtrees : gset WorkspacePath) (path : WorkspacePath) : bool :=
  match scope with
  | WholeWorkspace => true
  | DirtySubtrees => existsb (λ root, path_is_at_or_below path root) (elements subtrees)
  end.

Definition record_walk_unsyncable (walk : StatWalk) (scope : WalkScope) : CM unit :=
  previous ← engine_store unsyncable_rows;
  e ← engine_of;
  let resolved := dom (filter (λ '(path, _), sk_unsyncable walk !! path = None
                                 ∧ walk_visited scope (me_dirty_subtrees e) path = true) previous) in
  engine_store (record_unsyncable (sk_unsyncable walk) resolved).

(** [walk_cycle_error] *)
Definition walk_result {A} (r : Result A IoError) : CM A :=
  match r with Ok walk => mret walk | Err _ => throw (CycleRootUnavailable RootMissing) end.

Definition full_scan : CM unit :=
  w ← world_of;
  policy ← io_value (load_policy w);
  ancestor ← engine_store all_files;
  walk ← walk_result (stat_walk (walk_fs w) policy ancestor);
  record_walk_unsyncable walk WholeWorkspace ;;
  on_engine (absorb_dirty canonical_spelling (sk_dirty walk)).

Definition scan_dirty_subtrees : CM unit :=
  w ← world_of;
  e ← engine_of;
  policy ← io_value (load_scoped_policy w (me_dirty_subtrees e));
  ancestor ← engine_store (files_in_scopes (me_dirty_subtrees e));
  walk ← walk_result (stat_walk_subtrees (walk_fs w) policy ancestor (me_dirty_subtrees e));
  record_walk_unsyncable walk DirtySubtrees ;;
  on_engine (λ e, (absorb_dirty canonical_spelling (sk_dirty walk) e) <| me_dirty_subtrees := ∅ |>).

(** ** Pulling *)

Definition pull_scope (e : ManifestEngine Cap) (observation : LocalObservation) : PullScope :=
  if me_startup_reconcile e then ReconcileAncestor (me_startup_pending e)
  else observation_scope observation (me_dirty e).

(** What a pull that returned [outcome] leaves in the engine, at the time [now]. *)
Definition pulled_engine (outcome : PullOutcome) (now : Z) (e : ManifestEngine Cap) : ManifestEngine Cap :=
  let head := match po_observed_ref outcome with Genesis => None | Head observed => Some observed end in
  let applied :=
    match po_ref_version outcome, po_applied_manifest_key outcome with
    | Some version, Some key => Head {| ro_version := version; ro_manifest_key := key |}
    | None, None => Genesis
    | _, _ => me_applied_ref e
    end in
  let e := e <| me_startup_reconcile := false |> <| me_startup_pending := ∅ |>
             <| me_head_ref := head |> <| me_applied_ref := applied |>
             <| me_dirty := po_conflict_asides outcome ∪ (po_push_again outcome ∪ me_dirty e) |> in
  if bool_decide (po_deferred outcome = ∅) then e
  else e <| me_pull_needed := true |> <| me_debounce_deadline := Some (now + DEBOUNCE_MS) |>.

Definition do_pull (observation : LocalObservation) : CM unit :=
  e ← engine_of;
  let scope := pull_scope e observation in
  on_engine (λ e, e <| me_pending_ref_hint := None |> <| me_force_ref_read := false |>) ;;
  r ← through_port (port_pull (me_capabilities e) scope);
  w ← world_of;
  match r with
  | Err error =>
      on_engine (λ e, e <| me_force_ref_read := true |>) ;;
      throw (pull_cycle_error (failure_class w) error)
  | Ok outcome => on_engine (pulled_engine outcome (now_millis w))
  end.

(** ** Publishing *)

Definition ordered_dirty (e : ManifestEngine Cap) : list WorkspacePath :=
  snd <$> merge_sort dirty_le
    ((λ path, (default DirtySeq_INITIAL (me_dirty_seen e !! path), path)) <$> elements (me_dirty e)).

Definition publish_batch (w : W) (e : ManifestEngine Cap) : gset WorkspacePath :=
  if (size (me_dirty e) <=? PUBLISH_BATCH_MAX)%nat then me_dirty e else
  if existsb (λ path, negb (is_ok (symlink_metadata (wf_os (walk_fs w)) path))) (elements (me_dirty e))
  then me_dirty e else
  let half := (PUBLISH_BATCH_MAX / 2)%nat in
  let ordered := ordered_dirty e in
  list_to_set (take half ordered) ∪ list_to_set (take (PUBLISH_BATCH_MAX - half) (reverse ordered)).

Definition retain_skipped (skipped : gset WorkspacePath) (e : ManifestEngine Cap) : ManifestEngine Cap :=
  let leftover := me_dirty e ∖ me_published_batch e in
  let retained := skipped ∪ leftover in
  e <| me_dirty_seen := filter (λ '(path, _), path ∈ retained) (me_dirty_seen e) |>
    <| me_dirty := retained |> <| me_published_batch := ∅ |>.

(** The loop of [publish_dirty], with the attempts that are left. *)
Fixpoint publish_attempts (attempts : nat) (observation : LocalObservation) (pulled : bool)
    (deletions : DeletionAuthorization) : CM unit :=
  match attempts with
  | O => mret tt
  | Datatypes.S attempts =>
      e ← engine_of;
      if bool_decide (me_dirty e = ∅) then mret tt else
      w ← world_of;
      let batch := publish_batch w e in
      on_engine (λ e, e <| me_published_batch := batch |>) ;;
      r ← through_port (port_push (me_capabilities e) batch deletions (watcher_evidence observation));
      w ← world_of;
      match r with
      | Err error =>
          let error := push_cycle_error (failure_class w) error in
          match push_failure_scope error, pulled with
          | ParksPublishing, false =>
              do_pull observation ;;
              publish_attempts attempts observation true deletions
          | _, _ => throw error
          end
      | Ok (PushAdvanced manifest_key ref_version skipped) =>
          let head := {| ro_version := ref_version; ro_manifest_key := manifest_key |} in
          on_engine (λ e, retain_skipped skipped (e <| me_head_ref := Some head |> <| me_applied_ref := Head head |>))
      | Ok (PushNoChange skipped) => on_engine (retain_skipped skipped)
      | Ok (PushRefLost current) =>
          on_engine (λ e, e <| me_head_ref := current |>) ;;
          do_pull observation ;;
          publish_attempts attempts observation true deletions
      end
  end.

Definition publish_dirty (observation : LocalObservation) (pulled : bool) (deletions : DeletionAuthorization) : CM unit :=
  publish_attempts MAX_PUSH_ATTEMPTS observation pulled deletions.

(** ** The cycle *)

Definition authorization (confirmed : option (gset WorkspacePath)) : DeletionAuthorization :=
  match confirmed with Some paths => ConfirmedPaths paths | None => Enforce end.

(** The full scan a cycle owes, and how it observed the disk. *)
Definition scan_step : CM LocalObservation :=
  e ← engine_of;
  match me_scan_required e && negb (me_authoritative_scan_active e) with
  | true =>
      full_scan ;;
      on_engine (λ e, e <| me_scan_required := false |> <| me_dirty_subtrees := ∅ |>) ;;
      mret FreshlyWalked
  | false => mret Reactive
  end.

Definition subtree_step : CM unit :=
  e ← engine_of;
  if bool_decide (me_dirty_subtrees e = ∅) then mret tt else scan_dirty_subtrees.

(** The pull a cycle owes, and whether it ran. *)
Definition pull_step (observation : LocalObservation) : CM bool :=
  e ← engine_of;
  match me_pull_needed e with
  | true => on_engine (λ e, e <| me_pull_needed := false |>) ;; do_pull observation ;; mret true
  | false => mret false
  end.

Definition reschedule_dirty : CM unit :=
  w ← world_of;
  on_engine (λ e, if bool_decide (me_dirty e = ∅) then e
                  else e <| me_pull_needed := true |> <| me_debounce_deadline := Some (now_millis w + DEBOUNCE_MS) |>).

Definition run_cycle : CM unit :=
  e ← engine_of;
  let deletions := authorization (me_confirmed_removals e) in
  on_engine (λ e, e <| me_confirmed_removals := None |>) ;;
  guard_root ;;
  observation ← scan_step;
  subtree_step ;;
  pulled ← pull_step observation;
  publish_dirty observation pulled deletions ;;
  reschedule_dirty.

(** [absorb_cycle_error]; a panic unwinds through it. *)
Definition absorb_cycle_error (error : CycleError) (now : Z) (e : ManifestEngine Cap)
    : Result unit CycleError * ManifestEngine Cap :=
  match error with
  | CycleTransport => (Ok tt, enter_backoff device_id now e)
  | CycleIntegrity =>
      (Ok tt, (set_degradation IntegrityStalled e) <| me_phase := Stalled |> <| me_pull_needed := true |>
                <| me_force_ref_read := true |> <| me_stall_deadline := Some (now + STALL_REPROBE_MS) |>)
  | CycleRootUnavailable fault =>
      (Ok tt, (set_degradation (RootUnavailable fault) e) <| me_phase := Stalled |> <| me_scan_required := true |>
                <| me_pull_needed := true |> <| me_stall_deadline := Some (now + STALL_REPROBE_MS) |>)
  | CycleMassDeletionBlocked removals entries =>
      (Ok tt, (block_mass_deletion removals entries e) <| me_phase := Stalled |> <| me_pull_needed := true |>)
  | CyclePathScoped =>
      (Ok tt, e <| me_scan_required := true |> <| me_pull_needed := true |> <| me_force_ref_read := true |>
                <| me_stall_deadline := Some (now + STALL_REPROBE_MS) |>)
  | CycleFatal _ | CyclePanicked _ => (Err error, e)
  end.

(** ** Durable facts *)

Definition with_engine (f : ManifestEngine Cap → ManifestEngine Cap) (s : Running W Cap) : Running W Cap :=
  {| rn_engine := f (rn_engine s); rn_world := rn_world s |}.

(** The three reads of [refresh_durable_state]; each says whether it failed. *)
Definition read_applied (s : Running W Cap) : bool * Running W Cap :=
  let '(state, s) := call_store engine_state s in
  match state with
  | Ok state =>
      match applied_ref state with
      | Ok applied =>
          (false, with_engine (λ e, e <| me_applied_ref := applied |>
                                      <| me_materialization_revision := es_materialization_revision state |>) s)
      | Err _ => (true, s)
      end
  | Err _ => (true, s)
  end.

Definition read_intents (s : Running W Cap) : bool * Running W Cap :=
  let '(intents, s) := call_store pending_intents s in
  match intents with
  | Ok intents =>
      (false, with_engine (λ e, e <| me_pending_intents := Z.of_nat (length intents) |>
                                  <| me_pending_intent_paths := list_to_set (in_path <$> intents) |>) s)
  | Err _ => (true, s)
  end.

Definition read_unsyncable (s : Running W Cap) : bool * Running W Cap :=
  let '(rows, s) := call_store unsyncable_rows s in
  match rows with
  | Ok entries => (false, with_engine (λ e, e <| me_unsyncable := entries |>) s)
  | Err _ => (true, s)
  end.

Definition refresh_durable_state (s : Running W Cap) : Running W Cap :=
  let '(failed1, s) := read_applied s in
  let '(failed2, s) := read_intents s in
  let '(failed3, s) := read_unsyncable s in
  if failed1 || failed2 || failed3 then with_engine (set_degradation StoreUnavailable) s
  else if bool_decide (me_degradation (rn_engine s) = StoreUnavailable)
       then with_engine (set_degradation Nominal) s else s.

Definition refresh_and_bump (s : Running W Cap) : Running W Cap :=
  with_engine bump_revision_if_changed (refresh_durable_state s).

(** ** Due work *)

(** The barriers a converged engine acknowledges. *)
Definition complete_barriers (e : ManifestEngine Cap) : ManifestEngine Cap :=
  let snapshot := engine_snapshot e in
  if negb (is_exactly_converged snapshot) then e else
  e <| me_pending_barriers := ∅ |>
    <| me_completed_barriers :=
         map_fold (λ id endpoint_generation completed,
           match convergence_receipt snapshot process_identity workspace_identity endpoint_generation id with
           | Some receipt => <[id := receipt]> completed
           | None => completed
           end) (me_completed_barriers e) (me_pending_barriers e) |>.

(** The part of [run_due_work] before the cycle. *)
Definition consume_deadlines (now : Z) (e : ManifestEngine Cap) : ManifestEngine Cap :=
  let e := e <| me_debounce_deadline := None |> <| me_max_latency_deadline := None |>
             <| me_stall_deadline := None |> in
  let audit_due := match me_audit_deadline e with Some due => due <=? now | None => false end in
  let e :=
    if audit_due then
      let e := (arm_audit device_id now e) <| me_scan_required := true |> <| me_pull_needed := true |> in
      if bool_decide (me_degradation e = Nominal) then set_degradation (ScanOwed PeriodicAudit) e else e
    else e in
  e <| me_phase := Syncing |> <| me_cycle_active := true |> <| me_unattributed_pull_pending := false |>.

(** What a successful cycle leaves. *)
Definition settle_success (now : Z) (e : ManifestEngine Cap) : ManifestEngine Cap :=
  let e := (preempt_backoff e) <| me_last_success_at := Some now |> in
  let e := if degradation_is_transient e then set_degradation Nominal e else e in
  e <| me_phase := if idle e then Idle else Syncing |>.

Definition run_due_work : CM unit := λ s,
  let now := now_millis (rn_world s) in
  if negb (is_due (rn_engine s) now) then (Ok tt, s) else
  let '(r, s) := run_cycle {| rn_engine := consume_deadlines now (rn_engine s); rn_world := rn_world s |} in
  let e := (rn_engine s) <| me_cycle_active := false |> in
  let '(absorbed, e) :=
    match r with
    | Ok _ => (Ok tt, settle_success now e)
    | Err error => absorb_cycle_error error now e
    end in
  let s := refresh_and_bump {| rn_engine := e; rn_world := rn_world s |} in
  match absorbed with
  | Err fatal => (Err fatal, s)
  | Ok _ => (Ok tt, {| rn_engine := complete_barriers (rn_engine s); rn_world := rn_world s |})
  end.

(** An error of the startup, absorbed and reported. *)
Definition absorb_at_start (error : CycleError) (s : Running W Cap) : Result unit CycleError * Running W Cap :=
  let '(absorbed, e) := absorb_cycle_error error (now_millis (rn_world s)) (rn_engine s) in
  (absorbed, refresh_and_bump {| rn_engine := e; rn_world := rn_world s |}).

Definition start : CM unit := λ s,
  let now := now_millis (rn_world s) in
  let e := arm_audit device_id now ((rn_engine s) <| me_phase := Starting |> <| me_unattributed_pull_pending := true |>) in
  match guard_root {| rn_engine := e; rn_world := rn_world s |} with
  | (Err error, s) => absorb_at_start error s
  | (Ok _, s) =>
      let '(r, (store, w)) := port_recover (me_capabilities (rn_engine s)) (me_store (rn_engine s), rn_world s) in
      let s := {| rn_engine := (rn_engine s) <| me_store := store |>; rn_world := w |} in
      match r with
      | Err error =>
          let classified := pull_cycle_error (failure_class w) error in
          let e := match classified with
                   | CycleTransport => (rn_engine s) <| me_pull_needed := true |>
                   | _ => rn_engine s
                   end in
          absorb_at_start classified {| rn_engine := e; rn_world := w |}
      | Ok _ =>
          match engine_store pending_push_paths s with
          | (Err error, s) => (Err error, s)
          | (Ok pending_push, s) =>
              let e := absorb_dirty canonical_spelling pending_push
                         ((rn_engine s) <| me_startup_pending := pending_push |>) in
              run_due_work {| rn_engine := e <| me_scan_required := true |> <| me_pull_needed := true |>
                                             <| me_debounce_deadline := Some (now_millis (rn_world s)) |>;
                              rn_world := rn_world s |}
          end
      end
  end.

(** ** The authoritative scan *)

Definition begin_authoritative_local_scan : M (Running W Cap) AuthoritativeScanError AuthoritativeScanPlan := λ s,
  let e := rn_engine s in
  if me_cycle_active e || me_authoritative_scan_active e then (Err ScanCycleActive, s) else
  let e := bump_revision_if_changed (e <| me_phase := Syncing |> <| me_authoritative_scan_active := true |>) in
  let inactive (e : ManifestEngine Cap) := e <| me_authoritative_scan_active := false |> in
  match guard_root {| rn_engine := e; rn_world := rn_world s |} with
  | (Err error, s) =>
      let e := inactive (rn_engine s) in
      match error with
      | CycleRootUnavailable fault =>
          let e := (set_degradation (RootUnavailable fault) e) <| me_scan_required := true |> <| me_phase := Stalled |> in
          (Err (ScanRootUnavailable fault), {| rn_engine := bump_revision_if_changed e; rn_world := rn_world s |})
      | other => (Err (authoritative_cycle_error other), {| rn_engine := e; rn_world := rn_world s |})
      end
  | (Ok _, s) =>
      let inputs := w ← world_of; policy ← io_value (load_policy w); ancestor ← engine_store all_files; mret (policy, ancestor) in
      match inputs s with
      | (Err error, s) =>
          (Err (authoritative_cycle_error error), {| rn_engine := inactive (rn_engine s); rn_world := rn_world s |})
      | (Ok (policy, ancestor), s) =>
          let e := (rn_engine s) <| me_scan_required := false |> <| me_dirty_subtrees := ∅ |> in
          (Ok {| sp_policy := policy; sp_ancestor := ancestor; sp_observation_seq := me_next_dirty_seq e |},
           {| rn_engine := e; rn_world := rn_world s |})
      end
  end.

Definition complete_authoritative_local_scan (result : AuthoritativeScanResult)
    : M (Running W Cap) AuthoritativeScanError AuthoritativeScanReceipt := λ s,
  let e := (rn_engine s) <| me_authoritative_scan_active := false |> in
  match sr_walk result with
  | Err fault =>
      let e := (set_degradation (RootUnavailable fault) e) <| me_scan_required := true |> <| me_phase := Stalled |> in
      (Err (ScanRootUnavailable fault), {| rn_engine := bump_revision_if_changed e; rn_world := rn_world s |})
  | Ok walk =>
      match record_walk_unsyncable walk WholeWorkspace {| rn_engine := e; rn_world := rn_world s |} with
      | (Err error, s) => (Err (authoritative_cycle_error error), s)
      | (Ok _, s) =>
          let e := absorb_authoritative_dirty canonical_spelling (sk_dirty walk) (sr_observation_seq result) (rn_engine s) in
          let e := match me_degradation e with ScanOwed _ => set_degradation Nominal e | _ => e end in
          let s := refresh_and_bump {| rn_engine := e <| me_phase := Syncing |>; rn_world := rn_world s |} in
          (Ok {| rc_revision := me_revision (rn_engine s); rc_dirty_paths := Z.of_nat (size (me_dirty (rn_engine s))) |}, s)
      end
  end.

(** ** The life of an engine

    A step is one call of the daemon's loop on the engine's thread, or a change of the
    machine between two calls. *)

Inductive engine_step : Running W Cap → Running W Cap → Prop :=
| step_start s r s' : start s = (r, s') → engine_step s s'
| step_event s event :
    engine_step s (with_engine (on_event canonical_spelling event (now_millis (rn_world s))) s)
| step_announce s : engine_step s (with_engine (λ e, (announce_due_work (now_millis (rn_world s)) e).2) s)
| step_due s r s' : run_due_work s = (r, s') → engine_step s s'
| step_barriers s : engine_step s (with_engine (λ e, (take_completed_barriers e).2) s)
| step_begin s r s' : begin_authoritative_local_scan s = (r, s') → engine_step s s'
| step_complete s result r s' : complete_authoritative_local_scan result s = (r, s') → engine_step s s'
| step_schedule s : engine_step s (with_engine (schedule_recovered_work (now_millis (rn_world s))) s)
| step_world s w : engine_step s {| rn_engine := rn_engine s; rn_world := w |}.

(** The states of an engine constructed over a store. *)
Inductive lives : Running W Cap → Prop :=
| lives_new store capabilities w : lives {| rn_engine := engine_new store capabilities; rn_world := w |}
| lives_step s s' : lives s → engine_step s s' → lives s'.

End Cycle.
