(* ===== verification/EngineLemmas.v ===== *)
(** * Carrying facts through a cycle

    A small logic for the computations of [EngineCycle]: [preserves I m] says that [m] preserves
    the fact [I] of the engine, whatever the store, the machine and the ports answer. *)

From S2P Require Import Prelude.
From S2P Require Import ManifestTypes.
From S2P Require Import FsGuard.
From S2P Require Import MergeMatrix.
From S2P Require Import Store.
From S2P Require Import Ordered.
From S2P Require Import Apply.
From S2P Require Import Push.
From S2P Require Import Paths.
From S2P Require Import StatWalk.
From S2P Require Import Engine.
From S2P Require Import EngineCycle.
Local Open Scope string_scope.
Open Scope Z_scope.

Create HintDb engine.

Section Keeps.
Context {W Cap : Type} `{EnginePorts W Cap}.
Implicit Types e : ManifestEngine Cap.

Definition preserves {A E} (I : ManifestEngine Cap → Prop) (m : M (Running W Cap) E A) : Prop :=
  ∀ s, I (rn_engine s) → I (rn_engine (m s).2).

(** The store is not a part of the fact. *)
Definition storeless (I : ManifestEngine Cap → Prop) : Prop := ∀ e store, I e → I (e <| me_store := store |>).

Context (I : ManifestEngine Cap → Prop).

Lemma preserves_ret {A E} (a : A) : preserves (E := E) I (mret a).
Proof. by intros s. Qed.

Lemma preserves_throw {A E} (error : E) : preserves (A := A) I (throw error).
Proof. by intros s. Qed.

Lemma preserves_engine_of {E} : preserves (E := E) I engine_of.
Proof. by intros s. Qed.

Lemma preserves_world_of {E} : preserves (E := E) I world_of.
Proof. by intros s. Qed.

Lemma preserves_bind {A B E} (m : M (Running W Cap) E A) (f : A → M (Running W Cap) E B) :
  preserves I m → (∀ a, preserves I (f a)) → preserves I (m ≫= f).
Proof.
  intros Hm Hf s Hs. specialize (Hm s Hs). change ((m ≫= f) s) with (m_bind f m s). unfold m_bind.
  destruct (m s) as [[a|error] s']; [by apply Hf|done].
Qed.

Lemma preserves_on_engine {E} f : (∀ e, I e → I (f e)) → preserves (E := E) I (on_engine f).
Proof. intros Hf s Hs. by apply Hf. Qed.

Lemma preserves_call_store {A} (m : SM A) : storeless I → preserves I (call_store m).
Proof. intros Hst s Hs. unfold call_store. destruct (m _) as [r store]. by apply Hst. Qed.

Lemma preserves_engine_store {A} (m : SM A) : storeless I → preserves I (engine_store m).
Proof.
  intros Hst s Hs. unfold engine_store. pose proof (preserves_call_store m Hst s Hs) as Hk.
  by destruct (call_store m s) as [[]].
Qed.

Lemma preserves_world_call {A} (m : M W IoError A) : preserves I (world_call m).
Proof. intros s Hs. unfold world_call. by destruct (m _) as [[]]. Qed.

Lemma preserves_io_value {A} (r : Result A IoError) : preserves I (io_value r).
Proof. destruct r; [apply preserves_ret|apply preserves_throw]. Qed.

Lemma preserves_walk_result {A} (r : Result A IoError) : preserves I (EngineCycle.walk_result r).
Proof. destruct r; [apply preserves_ret|apply preserves_throw]. Qed.

Lemma preserves_through_port {A E F} (m : M (ManifestStore * W) E A) : storeless I → preserves (E := F) I (through_port m).
Proof. intros Hst s Hs. unfold through_port. destruct (m _) as [r [store w]]. by apply Hst. Qed.

End Keeps.

#[export] Hint Resolve preserves_ret preserves_throw preserves_engine_of preserves_world_of preserves_bind preserves_on_engine
  preserves_engine_store preserves_world_call preserves_io_value preserves_walk_result preserves_through_port : engine.

(** ** Facts every mutation of a cycle preserves *)

Section Cyclic.
Context {W Cap : Type} `{EnginePorts W Cap}.

(** One clause per mutation of the engine before a cycle publishes. *)
Record early (I : ManifestEngine Cap → Prop) : Prop := {
  cy_store : storeless I;
  cy_spend e : I e → I (e <| me_confirmed_removals := None |>);
  cy_root e capabilities : I e →
    I ((set_degradation (ScanOwed RootReplaced) (e <| me_capabilities := capabilities |>)) <| me_scan_required := true |>);
  cy_absorb e paths : I e → I (absorb_dirty canonical_spelling paths e);
  cy_subtrees e : I e → I (e <| me_dirty_subtrees := ∅ |>);
  cy_scanned e : I e → I (e <| me_scan_required := false |> <| me_dirty_subtrees := ∅ |>);
  cy_owed e : I e → I (e <| me_pull_needed := false |>);
  cy_hint e : I e → I (e <| me_pending_ref_hint := None |> <| me_force_ref_read := false |>);
  cy_force e : I e → I (e <| me_force_ref_read := true |>);
  cy_pulled e outcome now : I e → I (pulled_engine outcome now e);
}.

(** One clause per mutation of the engine inside [run_cycle]. *)
Record cyclic (I : ManifestEngine Cap → Prop) : Prop := {
  cy_early : early I;
  cy_batch e batch : I e → I (e <| me_published_batch := batch |>);
  cy_head e head : I e → I (e <| me_head_ref := head |>);
  cy_advance e head : I e → I (e <| me_head_ref := Some head |> <| me_applied_ref := Head head |>);
  cy_retain e skipped : I e → I (retain_skipped skipped e);
  cy_reschedule e now : I e →
    I (e <| me_pull_needed := true |> <| me_debounce_deadline := Some (now + DEBOUNCE_MS) |>);
}.

Section Early.
Context (I : ManifestEngine Cap → Prop) (HI : early I).

Ltac preserves_step :=
  first
    [ apply preserves_bind; [|intros ?]
    | apply preserves_ret | apply preserves_throw | apply preserves_engine_of | apply preserves_world_of
    | apply preserves_engine_store, (cy_store I HI) | apply preserves_world_call | apply preserves_io_value
    | apply preserves_walk_result | apply preserves_through_port, (cy_store I HI)
    | apply preserves_on_engine; intros ? ? ].

Lemma guard_root_preserves : preserves (W := W) I guard_root.
Proof.
  unfold guard_root. preserves_step; [preserves_step|]. preserves_step.
  - destruct (verify_root _) as [|[]]; repeat preserves_step. match goal with |- context [if ?b then _ else _] => destruct b end; repeat preserves_step.
  - match goal with |- context [match ?b with RootReady => _ | _ => _ end] => destruct b end; [|preserves_step].
    preserves_step; [preserves_step|]. destruct (me_degradation _); try preserves_step; preserves_step.
    by apply (cy_root I HI).
Qed.

Lemma record_walk_preserves walk scope : preserves (W := W) I (record_walk_unsyncable walk scope).
Proof. unfold record_walk_unsyncable. repeat preserves_step. Qed.

Lemma full_scan_preserves : preserves (W := W) I full_scan.
Proof.
  unfold full_scan. do 4 (preserves_step; [preserves_step|]). preserves_step; [apply record_walk_preserves|].
  preserves_step. by apply (cy_absorb I HI).
Qed.

Lemma scan_dirty_subtrees_preserves : preserves (W := W) I scan_dirty_subtrees.
Proof.
  unfold scan_dirty_subtrees. do 5 (preserves_step; [preserves_step|]). preserves_step; [apply record_walk_preserves|].
  preserves_step. by apply (cy_subtrees I HI), (cy_absorb I HI).
Qed.

Lemma do_pull_preserves observation : preserves (W := W) I (do_pull observation).
Proof.
  unfold do_pull. preserves_step; [preserves_step|]. preserves_step; [preserves_step; by apply (cy_hint I HI)|].
  do 2 (preserves_step; [preserves_step|]). match goal with |- context [match ?b with Ok _ => _ | Err _ => _ end] => destruct b end.
  - preserves_step. by apply (cy_pulled I HI).
  - preserves_step; preserves_step. by apply (cy_force I HI).
Qed.

Lemma scan_step_preserves : preserves (W := W) I scan_step.
Proof.
  unfold scan_step. preserves_step; [preserves_step|]. destruct (_ && _); [|preserves_step].
  preserves_step; [apply full_scan_preserves|]. preserves_step; preserves_step. by apply (cy_scanned I HI).
Qed.

Lemma subtree_step_preserves : preserves (W := W) I subtree_step.
Proof.
  unfold subtree_step. preserves_step; [preserves_step|]. case_bool_decide; [preserves_step|apply scan_dirty_subtrees_preserves].
Qed.

Lemma pull_step_preserves observation : preserves (W := W) I (pull_step observation).
Proof.
  unfold pull_step. preserves_step; [preserves_step|]. destruct (me_pull_needed _); [|preserves_step].
  preserves_step; [preserves_step; by apply (cy_owed I HI)|]. preserves_step; [apply do_pull_preserves|preserves_step].
Qed.

End Early.

Context (I : ManifestEngine Cap → Prop) (HI : cyclic I).

Ltac preserves_step :=
  first
    [ apply preserves_bind; [|intros ?]
    | apply preserves_ret | apply preserves_throw | apply preserves_engine_of | apply preserves_world_of
    | apply preserves_through_port, (cy_store I (cy_early I HI))
    | apply preserves_on_engine; intros ? ? ].

Lemma publish_attempts_preserves attempts observation pulled deletions :
  preserves (W := W) I (publish_attempts attempts observation pulled deletions).
Proof.
  revert pulled. induction attempts as [|attempts IH]; intros pulled; cbn [publish_attempts]; [preserves_step|].
  preserves_step; [preserves_step|]. case_bool_decide; [preserves_step|]. preserves_step; [preserves_step|].
  preserves_step; [preserves_step; by apply (cy_batch I HI)|]. do 2 (preserves_step; [preserves_step|]).
  match goal with |- context [match ?b with Ok _ => _ | Err _ => _ end] => destruct b as [[key version skipped|skipped|current]|error] end.
  - preserves_step. by apply (cy_retain I HI), (cy_advance I HI).
  - preserves_step. by apply (cy_retain I HI).
  - preserves_step; [preserves_step; by apply (cy_head I HI)|]. preserves_step; [apply (do_pull_preserves I (cy_early I HI))|apply IH].
  - cbn zeta. destruct (push_failure_scope _), pulled; try preserves_step; [apply (do_pull_preserves I (cy_early I HI))|apply IH].
Qed.

Lemma run_cycle_preserves : preserves (W := W) I run_cycle.
Proof.
  pose proof (cy_early I HI) as HE. unfold run_cycle. preserves_step; [preserves_step|]. preserves_step; [preserves_step; by apply (cy_spend I HE)|].
  preserves_step; [by apply guard_root_preserves|]. preserves_step; [by apply scan_step_preserves|].
  preserves_step; [by apply subtree_step_preserves|]. preserves_step; [by apply pull_step_preserves|].
  preserves_step; [apply publish_attempts_preserves|]. unfold reschedule_dirty. preserves_step; [preserves_step|].
  preserves_step. case_bool_decide; [done|]. by apply (cy_reschedule I HI).
Qed.

End Cyclic.

(** ** What a cycle may fail with *)

Section Raises.
Context {W Cap : Type} `{EnginePorts W Cap}.

Local Abbreviation CM := (M (Running W Cap) CycleError).

Definition raises {A} (P : CycleError → Prop) (m : CM A) : Prop := ∀ s error s', m s = (Err error, s') → P error.

(** Every error a cycle may raise satisfies [P] if the machine's do, the refusals of a push do
    and those of a pull do. *)
Record permitted (P : CycleError → Prop) : Prop := {
  pe_store error : P (CycleFatal (EngineStore error));
  pe_io error : P (CycleFatal (EngineIo error));
  pe_root fault : P (CycleRootUnavailable fault);
  pe_pull class error : P (pull_cycle_error class error);
  pe_push cap batch deletions evidence st error st' class :
    port_push cap batch deletions evidence st = (Err error, st') → P (push_cycle_error class error);
}.

Context (P : CycleError → Prop) (HP : permitted P).

Lemma raises_bind {A B} (m : CM A) (f : A → CM B) : raises P m → (∀ a, raises P (f a)) → raises P (m ≫= f).
Proof.
  intros Hm Hf s error s'. change ((m ≫= f) s) with (m_bind f m s). unfold m_bind.
  destruct (m s) as [[a|e] s1] eqn:E; [apply Hf|]. intros [= <- <-]. by eapply Hm.
Qed.

Lemma raises_ret {A} (a : A) : raises P (mret a).
Proof. by intros s error s'. Qed.

Lemma raises_throw {A} error : P error → raises (A := A) P (throw error).
Proof. by intros Hp s error' s' [= <- _]. Qed.

Lemma raises_engine_of : raises P engine_of.
Proof. by intros s error s'. Qed.

Lemma raises_world_of : raises P world_of.
Proof. by intros s error s'. Qed.

Lemma raises_on_engine f : raises P (on_engine f).
Proof. by intros s error s'. Qed.

Lemma raises_engine_store {A} (m : SM A) : raises P (engine_store m).
Proof. intros s error s'. unfold engine_store. destruct (call_store m s) as [[]]; [done|]. intros [= <- _]. apply HP. Qed.

Lemma raises_world_call {A} (m : M W IoError A) : raises P (world_call m).
Proof. intros s error s'. unfold world_call. destruct (m _) as [[]]; [done|]. intros [= <- _]. apply HP. Qed.

Lemma raises_io_value {A} (r : Result A IoError) : raises P (io_value r).
Proof. destruct r; [apply raises_ret|apply raises_throw, HP]. Qed.

Lemma raises_walk_result {A} (r : Result A IoError) : raises P (EngineCycle.walk_result r).
Proof. destruct r; [apply raises_ret|apply raises_throw, HP]. Qed.

Ltac raises_step :=
  first
    [ apply raises_bind; [|intros ?]
    | apply raises_ret | apply raises_engine_of | apply raises_world_of | apply raises_engine_store
    | apply raises_world_call | apply raises_io_value | apply raises_walk_result | apply raises_on_engine ].

Lemma guard_root_raises : raises P guard_root.
Proof.
  unfold guard_root. raises_step; [raises_step|]. raises_step.
  - destruct (verify_root _) as [|[]]; repeat raises_step.
    match goal with |- context [if ?b then _ else _] => destruct b end; repeat raises_step.
  - match goal with |- context [match ?b with RootReady => _ | _ => _ end] => destruct b end; [|apply raises_throw, HP].
    raises_step; [raises_step|]. destruct (me_degradation _); repeat raises_step.
Qed.

Lemma record_walk_raises walk scope : raises P (record_walk_unsyncable walk scope).
Proof. unfold record_walk_unsyncable. repeat raises_step. Qed.

Lemma do_pull_raises observation : raises P (do_pull observation).
Proof.
  unfold do_pull. do 2 (raises_step; [raises_step|]).
  raises_step; [by intros s error s'; unfold through_port; destruct (port_pull _ _ _) as [? []]|].
  raises_step; [raises_step|]. match goal with |- context [match ?b with Ok _ => _ | Err _ => _ end] => destruct b end.
  - raises_step.
  - raises_step; [raises_step|apply raises_throw, HP].
Qed.

(** The result of a port is one the port gives. *)
Lemma raises_port {A B E} (m : M (ManifestStore * W) E A) (f : Result A E → CM B) :
  (∀ st r st', m st = (r, st') → raises P (f r)) → raises P (through_port m ≫= f).
Proof.
  intros Hf s error s'. change ((through_port m ≫= f) s) with (m_bind f (through_port m) s). unfold m_bind, through_port.
  destruct (m _) as [r [store w]] eqn:Em. by eapply Hf.
Qed.

Lemma publish_attempts_raises attempts observation pulled deletions :
  raises P (publish_attempts attempts observation pulled deletions).
Proof.
  revert pulled. induction attempts as [|attempts IH]; intros pulled; cbn [publish_attempts]; [raises_step|].
  raises_step; [raises_step|]. case_bool_decide; [raises_step|]. do 2 (raises_step; [raises_step|]).
  apply raises_port. intros st r st' Hpush. raises_step; [raises_step|].
  destruct r as [[key version skipped|skipped|current]|error].
  - raises_step.
  - raises_step.
  - raises_step; [raises_step|]. raises_step; [apply do_pull_raises|apply IH].
  - cbn zeta. destruct (push_failure_scope _), pulled; try (apply raises_throw; by eapply (pe_push P HP)).
    raises_step; [apply do_pull_raises|apply IH].
Qed.

Lemma run_cycle_raises : raises P run_cycle.
Proof.
  unfold run_cycle. do 2 (raises_step; [raises_step|]). raises_step; [apply guard_root_raises|]. raises_step.
  { unfold scan_step. raises_step; [raises_step|]. destruct (_ && _); [|raises_step]. raises_step; [|repeat raises_step].
    unfold full_scan. do 4 (raises_step; [raises_step|]). raises_step; [apply record_walk_raises|raises_step]. }
  raises_step.
  { unfold subtree_step. raises_step; [raises_step|]. case_bool_decide; [raises_step|]. unfold scan_dirty_subtrees.
    do 5 (raises_step; [raises_step|]). raises_step; [apply record_walk_raises|raises_step]. }
  raises_step.
  { unfold pull_step. raises_step; [raises_step|]. destruct (me_pull_needed _); [|raises_step].
    raises_step; [raises_step|]. raises_step; [apply do_pull_raises|raises_step]. }
  raises_step; [apply publish_attempts_raises|]. unfold reschedule_dirty. repeat raises_step.
Qed.

End Raises.
