(* ===== verification/EngineTheorems.v ===== *)
(** * What the engine's driver promises

    Facts of the schedule and of the degradation, for any pull and push the engine is given:
    a burst of edits is due within the latency cap, backoff stays within its bounds, and the
    paths an operator is offered for confirmation are those refused. *)

From S2P Require Import Prelude.
From S2P Require Import ManifestTypes.
From S2P Require Import FsGuard.
From S2P Require Import MergeMatrix.
From S2P Require Import Store.
From S2P Require Import Ordered.
From S2P Require Import Apply.
From S2P Require Import Push.
From S2P Require Import Paths.
From S2P Require Import DiskLemmas.
From S2P Require Import StatWalk.
From S2P Require Import Engine.
From S2P Require Import EngineCycle.
From S2P Require Import EngineLemmas.
Local Open Scope string_scope.
Open Scope Z_scope.

#[local] Arguments set_degradation : simpl never.
#[local] Arguments bump_revision_if_changed : simpl never.
#[local] Arguments absorb_dirty : simpl never.

(** ** Deadlines *)

Lemma fold_seed_range seed id : 0 ≤ seed → 0 ≤ fold_seed seed id.
Proof.
  revert seed. induction id as [|c id IH]; intros seed Hs; cbn; [done|]. apply IH.
  apply Z.mod_pos_bound. lia.
Qed.

Definition at_most (deadline : option Z) (bound : Z) : Prop := ∃ d, deadline = Some d ∧ d ≤ bound.

Lemma min_deadline_l a b bound : at_most a bound → at_most (min_deadline a b) bound.
Proof. intros (d & -> & Hd). destruct b as [b|]; cbn; eexists; (split; [done|]); lia. Qed.

Lemma min_deadline_r a b bound : at_most b bound → at_most (min_deadline a b) bound.
Proof. intros (d & -> & Hd). destruct a as [a|]; cbn; eexists; (split; [done|]); lia. Qed.

Section Deadlines.
Context {Cap : Type} (canonical_spelling : Cap → WorkspacePath → WorkspacePath) (device_id : string).
Implicit Types e : ManifestEngine Cap.

Lemma due_by_debounce e bound : at_most (me_debounce_deadline e) bound → at_most (next_due e) bound.
Proof. intros Hb. by apply min_deadline_l. Qed.

Lemma due_by_latency e bound : at_most (me_max_latency_deadline e) bound → at_most (next_due e) bound.
Proof. intros Hb. by apply min_deadline_r, min_deadline_l. Qed.

Lemma due_by_backoff e bound : at_most (me_backoff_deadline e) bound → at_most (next_due e) bound.
Proof. intros Hb. by do 2 apply min_deadline_r; apply min_deadline_l. Qed.

Lemma due_by_audit e bound : at_most (me_audit_deadline e) bound → at_most (next_due e) bound.
Proof. intros Hb. by do 3 apply min_deadline_r; apply min_deadline_l. Qed.

Lemma due_by_stall e bound : at_most (me_stall_deadline e) bound → at_most (next_due e) bound.
Proof. intros Hb. by do 4 apply min_deadline_r; apply min_deadline_l. Qed.

Lemma backoff_delay_bounds attempt : 0 ≤ attempt →
  BACKOFF_BASE_MS * 3 / 4 ≤ backoff_delay device_id attempt ≤ BACKOFF_CAP_MS.
Proof.
  intros Ha. unfold backoff_delay. set (base := Z.min _ BACKOFF_CAP_MS).
  assert (250 ≤ base ≤ 5000) as Hbase.
  { unfold base, BACKOFF_CAP_MS, BACKOFF_BASE_MS, u64_saturating_mul, u64_max. rewrite Z.shiftl_mul_pow2 by lia.
    assert (0 < 2 ^ Z.min attempt 8) by (apply Z.pow_pos_nonneg; lia). lia. }
  assert (base / 4 * 4 ≤ base < base / 4 * 4 + 4) as Hq.
  { pose proof (Z.div_mod base 4). pose proof (Z.mod_pos_bound base 4). lia. }
  destruct (Z.eqb_spec (base / 4) 0); [lia|].
  pose proof (Z.mod_pos_bound (fold_seed attempt device_id) (base / 4 + 1)).
  change (BACKOFF_BASE_MS * 3 / 4) with 187. unfold BACKOFF_CAP_MS. lia.
Qed.

(** *** Events do not move the latency cap *)

Lemma set_degradation_frame d e :
  me_max_latency_deadline (set_degradation d e) = me_max_latency_deadline e.
Proof. unfold set_degradation. by destruct (negb _ && _). Qed.

Lemma preempt_frame e : me_max_latency_deadline (preempt_backoff e) = me_max_latency_deadline e.
Proof. done. Qed.

Lemma debounce_frame e deadline :
  me_max_latency_deadline (e <| me_debounce_deadline := deadline |>) = me_max_latency_deadline e.
Proof. done. Qed.

Lemma owed_frame e : me_max_latency_deadline (owe_pull (force_read e)) = me_max_latency_deadline e.
Proof. done. Qed.

Lemma barrier_frame e barriers :
  me_max_latency_deadline
    (owe_pull ((force_read e) <| me_pending_barriers := barriers |> <| me_scan_required := true |>))
  = me_max_latency_deadline e.
Proof. done. Qed.

Lemma bump_frame e : me_max_latency_deadline (bump_revision_if_changed e) = me_max_latency_deadline e.
Proof. unfold bump_revision_if_changed. by case_bool_decide. Qed.

Lemma absorb_latency paths e :
  me_max_latency_deadline (absorb_dirty canonical_spelling paths e) = me_max_latency_deadline e.
Proof. unfold absorb_dirty. by destruct (foldl _ _ _). Qed.

Lemma arm_debounce_latency now e : me_max_latency_deadline (arm_debounce now e) =
  Some (default (now + MAX_LATENCY_MS) (me_max_latency_deadline e)).
Proof. unfold arm_debounce. cbn. by destruct (me_max_latency_deadline e) eqn:E. Qed.

Lemma coalesce_latency observed e :
  me_max_latency_deadline (coalesce_ref_hint observed e).2 = me_max_latency_deadline e.
Proof.
  unfold coalesce_ref_hint. destruct (me_force_ref_read e); [done|]. cbn zeta.
  assert (∀ e' : ManifestEngine Cap, me_max_latency_deadline
     (match me_pending_ref_hint e' with
      | None => e' <| me_pending_ref_hint := Some observed |>
      | Some current =>
          if ro_version current <? ro_version observed then e' <| me_pending_ref_hint := Some observed |>
          else if (ro_version observed =? ro_version current) && negb (ro_manifest_key observed =? ro_manifest_key current)%string
               then e' <| me_pending_ref_hint := None |> <| me_force_ref_read := true |> else e'
      end) = me_max_latency_deadline e') as Hr.
  { intros e'. destruct (me_pending_ref_hint e'); [|done]. destruct (_ <? _); [done|]. by destruct (_ && _). }
  destruct (me_head_ref e); [|apply Hr]. destruct (_ || _); [done|]. destruct (_ =? _); [done|apply Hr].
Qed.

(** Once armed, the cap stays where it is. *)
Lemma event_keeps_latency event now e d : me_max_latency_deadline e = Some d →
  me_max_latency_deadline (on_event canonical_spelling event now e) = Some d.
Proof.
  intros Hd. unfold on_event. rewrite bump_frame. destruct event; cbn [fold_event].
  - cbn. by rewrite arm_debounce_latency, absorb_latency, Hd.
  - cbn. rewrite arm_debounce_latency. cbn. by rewrite Hd.
  - cbn. by rewrite set_degradation_frame.
  - unfold arm_for_ref. cbn. by destruct (_ || _).
  - pose proof (coalesce_latency observed e) as Hc. destruct (coalesce_ref_hint observed e) as [[] e']; cbn in Hc; [|congruence].
    unfold arm_for_ref. cbn. destruct (_ || _); cbn; congruence.
  - by rewrite preempt_frame, debounce_frame, owed_frame.
  - cbv zeta. by rewrite preempt_frame, debounce_frame, set_degradation_frame, barrier_frame.
  - destruct (bool_decide _); cbn; destruct (me_completed_barriers e !! id) as [receipt|]; cbn; try done;
      by destruct (_ =? _).
  - unfold confirm_mass_deletion. destruct (me_degradation e); try done. cbn. rewrite bump_frame. cbn.
    by rewrite set_degradation_frame.
  - done.
Qed.

(** A watcher event: edits to publish. *)
Definition is_edit (event : EngineEvent) : bool :=
  match event with Paths _ | RecursivePaths _ => true | _ => false end.

Lemma edit_arms_latency event now e : is_edit event = true →
  me_max_latency_deadline (on_event canonical_spelling event now e) =
  Some (default (now + MAX_LATENCY_MS) (me_max_latency_deadline e)).
Proof.
  intros Hedit. unfold on_event. rewrite bump_frame. destruct event; try done; cbn [fold_event].
  - by rewrite preempt_frame, arm_debounce_latency, absorb_latency.
  - by rewrite preempt_frame, arm_debounce_latency.
Qed.

(** C36: Debouncing never starves publication.  Whatever events follow an edit, a continuous
    stream of edits included, the engine is due no later than the latency cap of 2000 ms
    after the first edit of the burst: the cap is armed once and never moved. *)
Theorem latency_capped e event t events : is_edit event = true →
  at_most (next_due (foldl (λ e '(event, now), on_event canonical_spelling event now e)
                       (on_event canonical_spelling event t e) events))
    (default (t + MAX_LATENCY_MS) (me_max_latency_deadline e)).
Proof.
  intros Hedit%(edit_arms_latency event t e). apply due_by_latency. eexists. split; [|done].
  revert Hedit. generalize (on_event canonical_spelling event t e). clear.
  induction events as [|[event' now] events IH]; intros e1 He1; cbn [foldl]; [done|].
  apply IH. by apply event_keeps_latency.
Qed.

End Deadlines.

(** ** The removals an operator is offered *)

(** The refused removals are listed exactly while the engine is blocked on them. *)
Definition block_ok {Cap} (e : ManifestEngine Cap) : Prop :=
  match me_degradation e with
  | MassDeletionBlocked removals _ =>
      removals = Z.of_nat (size (me_refused_removals e)) ∧ me_refused_removals e ≠ ∅
  | _ => me_refused_removals e = ∅
  end.

Section Blocked.
Context {W Cap : Type} `{EnginePorts W Cap}.
Implicit Types e : ManifestEngine Cap.

Lemma block_ok_same e e' : me_degradation e' = me_degradation e → me_refused_removals e' = me_refused_removals e →
  block_ok e → block_ok e'.
Proof. unfold block_ok. by intros -> ->. Qed.

Lemma set_degradation_sets d e : me_degradation (set_degradation d e) = d.
Proof. unfold set_degradation. by destruct (negb _ && _). Qed.

Lemma set_degradation_clears d e : deletion_blocked d = false → me_refused_removals (set_degradation d e) = ∅.
Proof.
  intros Hd. unfold set_degradation. rewrite Hd. cbn [negb andb].
  destruct (bool_decide_reflect (me_refused_removals e = ∅)) as [He|]; done.
Qed.

Lemma block_ok_set d e : deletion_blocked d = false → block_ok (set_degradation d e).
Proof.
  intros Hd. unfold block_ok. rewrite set_degradation_sets, set_degradation_clears by done. by destruct d.
Qed.

Lemma block_ok_block removals entries e : removals ≠ ∅ → block_ok (block_mass_deletion removals entries e).
Proof. intros Hne. unfold block_ok, block_mass_deletion. cbn. by rewrite set_degradation_sets. Qed.

Lemma block_ok_bump e : block_ok e → block_ok (bump_revision_if_changed e).
Proof. unfold bump_revision_if_changed. case_bool_decide; [done|]. by apply block_ok_same. Qed.

Lemma block_ok_absorb f paths e : block_ok e → block_ok (absorb_dirty f paths e).
Proof. unfold absorb_dirty. destruct (foldl _ _ _). by apply block_ok_same. Qed.

Lemma block_ok_cyclic : cyclic (W := W) block_ok.
Proof.
  constructor; [constructor|..]; unfold storeless; intros; try (by eapply block_ok_same; [..|eassumption]).
  - eapply block_ok_same; [..|by apply (block_ok_set (ScanOwed RootReplaced) e)]; cbn;
      [by rewrite !set_degradation_sets|by rewrite !set_degradation_clears].
  - by apply block_ok_absorb.
  - unfold pulled_engine. cbn zeta. case_bool_decide; by eapply block_ok_same; [..|eassumption].
Qed.

(** Setting fields other than the two of [block_ok]. *)
Ltac same_block := by eapply block_ok_same; [..|eassumption].

Lemma block_ok_event event now e : block_ok e → block_ok (on_event canonical_spelling event now e).
Proof.
  intros Hb. apply block_ok_bump. destruct event as [paths|paths|reason| |observed| |id g|id g| |]; cbn [fold_event].
  - pose proof (block_ok_absorb canonical_spelling paths e Hb) as Ha.
    unfold preempt_backoff, arm_debounce. cbn. destruct (me_max_latency_deadline _); same_block.
  - unfold preempt_backoff, arm_debounce. cbn. destruct (me_max_latency_deadline _); same_block.
  - pose proof (block_ok_set (ScanOwed reason) (e <| me_scan_required := true |>) eq_refl) as Hs. same_block.
  - unfold arm_for_ref. destruct (_ || _); same_block.
  - assert (block_ok (coalesce_ref_hint observed e).2) as Hc.
    { unfold coalesce_ref_hint. destruct (me_force_ref_read e); [done|]. cbn zeta.
      destruct (me_head_ref e); [destruct (_ || _); [done|]; destruct (_ =? _); [same_block|]|];
        (destruct (me_pending_ref_hint e); [destruct (_ <? _); [same_block|]; destruct (_ && _); same_block|same_block]). }
    destruct (coalesce_ref_hint observed e) as [[] e']; [|done]. cbn in Hc. unfold arm_for_ref.
    destruct (_ || _); same_block.
  - same_block.
  - cbv zeta. set (e1 := owe_pull _). pose proof (block_ok_set (ScanOwed ConvergenceBarrier) e1 eq_refl) as Hs. same_block.
  - set (e1 := if bool_decide _ then _ else _). assert (block_ok e1) as H1 by (unfold e1; case_bool_decide; same_block).
    destruct (me_completed_barriers e1 !! id); [|done]. destruct (_ =? _); [same_block|done].
  - unfold confirm_mass_deletion. destruct (me_degradation e) eqn:Ed; cbn [snd]; try done. apply block_ok_bump.
    pose proof (block_ok_set Nominal (e <| me_confirmed_removals := Some (me_refused_removals e) |>) eq_refl) as Hs.
    same_block.
  - same_block.
Qed.

Lemma block_ok_reads (s : Running W Cap) : block_ok (rn_engine s) →
  block_ok (rn_engine (read_applied s).2) ∧ block_ok (rn_engine (read_intents s).2) ∧
  block_ok (rn_engine (read_unsyncable s).2).
Proof.
  intros Hb. assert (∀ A (m : SM A), block_ok (rn_engine (call_store m s).2)) as Hstore.
  { intros A m. apply (preserves_call_store block_ok m); [by intros ? ?|done]. }
  split_and!.
  - unfold read_applied. pose proof (Hstore _ engine_state) as Hs. destruct (call_store engine_state s) as [[state|] s1]; [|done].
    destruct (applied_ref state); [cbn in *; same_block|done].
  - unfold read_intents. pose proof (Hstore _ pending_intents) as Hs. destruct (call_store pending_intents s) as [[|] s1]; [|done].
    cbn in *; same_block.
  - unfold read_unsyncable. pose proof (Hstore _ unsyncable_rows) as Hs. destruct (call_store unsyncable_rows s) as [[|] s1]; [|done].
    cbn in *; same_block.
Qed.

Lemma block_ok_refresh (s : Running W Cap) : block_ok (rn_engine s) → block_ok (rn_engine (refresh_and_bump s)).
Proof.
  intros Hb. apply block_ok_bump. unfold refresh_durable_state.
  destruct (block_ok_reads s Hb) as [Hb1 _]. destruct (read_applied s) as [failed1 s1]. cbn in Hb1.
  destruct (block_ok_reads s1 Hb1) as (_ & Hb2 & _). destruct (read_intents s1) as [failed2 s2]. cbn in Hb2.
  destruct (block_ok_reads s2 Hb2) as (_ & _ & Hb3). destruct (read_unsyncable s2) as [failed3 s3]. cbn in Hb3.
  destruct (_ || _); [by apply block_ok_set|]. case_bool_decide; [by apply block_ok_set|done].
Qed.

(** A refused batch names paths. *)
Definition names_paths (error : CycleError) : Prop :=
  match error with CycleMassDeletionBlocked removals _ => removals ≠ ∅ | _ => True end.

Lemma block_ok_absorbed error now e : block_ok e → names_paths error → block_ok (absorb_cycle_error error now e).2.
Proof.
  intros Hb Hn. destruct error as [| |fault|removals entries| |error|reason]; cbn [absorb_cycle_error snd].
  - unfold enter_backoff. cbv zeta. set (attempt := u32_saturating_add _ _).
    pose proof (block_ok_set (OfflineRetrying attempt) (e <| me_backoff_attempt := attempt |>
                  <| me_backoff_deadline := Some (now + backoff_delay device_id attempt) |>) eq_refl) as Hs.
    generalize dependent (set_degradation (Cap := Cap) (OfflineRetrying attempt)). intros f Hs.
    generalize dependent (f (e <| me_backoff_attempt := attempt |>
                  <| me_backoff_deadline := Some (now + backoff_delay device_id attempt) |>)).
    intros e1 Hs. same_block.
  - pose proof (block_ok_set IntegrityStalled e eq_refl) as Hs.
    generalize dependent (set_degradation IntegrityStalled e). intros e1 Hs. same_block.
  - pose proof (block_ok_set (RootUnavailable fault) e eq_refl) as Hs.
    generalize dependent (set_degradation (RootUnavailable fault) e). intros e1 Hs. same_block.
  - pose proof (block_ok_block removals entries e Hn) as Hs.
    generalize dependent (block_mass_deletion removals entries e). intros e1 Hs. same_block.
  - same_block.
  - exact Hb.
  - exact Hb.
Qed.

Lemma block_ok_complete e : block_ok e → block_ok (complete_barriers e).
Proof. intros Hb. unfold complete_barriers. destruct (negb _); [done|]. same_block. Qed.

Lemma block_ok_consume now e : block_ok e → block_ok (consume_deadlines now e).
Proof.
  intros Hb. unfold consume_deadlines. set (e1 := e <| me_debounce_deadline := None |> <| me_max_latency_deadline := None |> <| me_stall_deadline := None |>).
  assert (block_ok e1) as H1 by same_block. generalize dependent e1. intros e1 H1. cbv zeta.
  destruct (match me_audit_deadline e1 with Some due => due <=? now | None => false end); [|same_block].
  set (e2 := (arm_audit device_id now e1) <| me_scan_required := true |> <| me_pull_needed := true |>).
  assert (block_ok e2) as H2 by same_block. generalize dependent e2. intros e2 H2.
  case_bool_decide; [|same_block]. pose proof (block_ok_set (ScanOwed PeriodicAudit) e2 eq_refl) as Hs. same_block.
Qed.

Lemma block_ok_success now e : block_ok e → block_ok (settle_success now e).
Proof.
  intros Hb. unfold settle_success. set (e1 := (preempt_backoff e) <| me_last_success_at := Some now |>).
  assert (block_ok e1) as H1 by same_block. generalize dependent e1. intros e1 H1. cbv zeta.
  destruct (degradation_is_transient e1); [|same_block].
  pose proof (block_ok_set Nominal e1 eq_refl) as Hs. same_block.
Qed.

(** What the engine is promised: a refused removal batch is not empty. *)
Class RefusalLaw : Prop := refusal_names_paths cap batch deletions evidence st removals entries threshold st' :
  port_push cap batch deletions evidence st = (Err (MassDeletionRefused removals entries threshold), st') →
  removals ≠ ∅.

Context `{!RefusalLaw}.

Lemma cycle_names_paths : permitted (W := W) (Cap := Cap) names_paths.
Proof.
  constructor; try done.
  - intros class error. unfold pull_cycle_error. destruct error as [| | | |[]| | | | | | | |], class; done.
  - intros cap batch deletions evidence st error st' class Hp. destruct error, class; try done;
      by eapply refusal_names_paths.
Qed.

Lemma block_ok_due s r s' : block_ok (rn_engine s) → run_due_work (W := W) s = (r, s') → block_ok (rn_engine s').
Proof.
  intros Hb. unfold run_due_work. destruct (negb _); [by intros [= _ <-]|].
  set (now := now_millis (rn_world s)).
  pose proof (run_cycle_preserves block_ok block_ok_cyclic {| rn_engine := consume_deadlines now (rn_engine s); rn_world := rn_world s |}
                (block_ok_consume now _ Hb)) as Hc.
  pose proof (run_cycle_raises names_paths cycle_names_paths {| rn_engine := consume_deadlines now (rn_engine s); rn_world := rn_world s |}) as Hr.
  destruct (run_cycle _) as [result s1]. cbn in Hc.
  assert (block_ok ((rn_engine s1) <| me_cycle_active := false |>)) as Ha by same_block.
  generalize dependent ((rn_engine s1) <| me_cycle_active := false |>). intros e1 Ha.
  set (x := match result with Ok _ => _ | Err _ => _ end).
  assert (block_ok x.2) as Hx.
  { unfold x. destruct result as [[]|error]; [by apply block_ok_success|]. apply block_ok_absorbed; [done|by eapply Hr]. }
  destruct x as [absorbed e2]. cbn in Hx. pose proof (block_ok_refresh {| rn_engine := e2; rn_world := rn_world s1 |} Hx) as Hf.
  destruct absorbed; intros [= _ <-]; [by apply block_ok_complete|done].
Qed.

Lemma block_ok_guard s : block_ok (rn_engine s) → block_ok (rn_engine (guard_root (W := W) s).2).
Proof. apply (guard_root_preserves block_ok (cy_early _ block_ok_cyclic)). Qed.

Lemma block_ok_at_start error (s : Running W Cap) : block_ok (rn_engine s) → names_paths error →
  block_ok (rn_engine (absorb_at_start error s).2).
Proof.
  intros Hb Hn. unfold absorb_at_start. pose proof (block_ok_absorbed error (now_millis (rn_world s)) _ Hb Hn) as Ha.
  destruct (absorb_cycle_error _ _ _) as [absorbed e]. by apply block_ok_refresh.
Qed.

Lemma block_ok_start s r s' : block_ok (rn_engine s) → start (W := W) s = (r, s') → block_ok (rn_engine s').
Proof.
  intros Hb. unfold start. cbv zeta. set (e0 := arm_audit _ _ _). assert (block_ok e0) as Hb0 by same_block. clearbody e0.
  pose proof (block_ok_guard {| rn_engine := e0; rn_world := rn_world s |} Hb0) as Hg.
  pose proof (guard_root_raises names_paths cycle_names_paths {| rn_engine := e0; rn_world := rn_world s |}) as Hr.
  destruct (guard_root _) as [[[]|error] s1]; cbn in Hg.
  2:{ intros Hs. pose proof (block_ok_at_start error s1 Hg (Hr _ _ eq_refl)) as Ha. by rewrite Hs in Ha. }
  destruct (port_recover _ _) as [r1 [store w]].
  assert (block_ok ((rn_engine s1) <| me_store := store |>)) as Hb1 by same_block.
  cbn [rn_engine rn_world]. generalize dependent ((rn_engine s1) <| me_store := store |>). intros e1 Hb1.
  destruct r1 as [[]|error].
  - pose proof (preserves_engine_store (W := W) block_ok pending_push_paths (cy_store _ (cy_early _ block_ok_cyclic))
                  {| rn_engine := e1; rn_world := w |} Hb1) as Hp.
    destruct (engine_store _ _) as [[pending|error] s2]; cbn in Hp; [|by intros [= _ <-]].
    assert (block_ok ((rn_engine s2) <| me_startup_pending := pending |>)) as Hb2 by same_block.
    apply (block_ok_absorb canonical_spelling pending) in Hb2.
    generalize dependent (absorb_dirty canonical_spelling pending ((rn_engine s2) <| me_startup_pending := pending |>)).
    intros e2 Hb2. apply block_ok_due. cbn [rn_engine]. same_block.
  - set (classified := pull_cycle_error _ _). intros Hs.
    assert (names_paths classified) as Hn by apply (pe_pull _ cycle_names_paths).
    set (e2 := match classified with CycleTransport => _ | _ => _ end) in Hs.
    assert (block_ok e2) as Hb2 by (unfold e2; destruct classified; same_block).
    clearbody e2. pose proof (block_ok_at_start classified {| rn_engine := e2; rn_world := w |} Hb2 Hn) as Ha.
    by rewrite Hs in Ha.
Qed.

Lemma block_ok_faulted fault e :
  block_ok (bump_revision_if_changed
    ((set_degradation (RootUnavailable fault) e) <| me_scan_required := true |> <| me_phase := Stalled |>)).
Proof.
  apply block_ok_bump. pose proof (block_ok_set (RootUnavailable fault) e eq_refl) as Hs.
  generalize dependent (set_degradation (RootUnavailable fault) e). intros e1 Hs. same_block.
Qed.

Lemma block_ok_begin s r s' : block_ok (rn_engine s) → begin_authoritative_local_scan (W := W) s = (r, s') →
  block_ok (rn_engine s').
Proof.
  intros Hb. unfold begin_authoritative_local_scan. destruct (_ || _); [by intros [= _ <-]|]. cbv zeta.
  set (e0 := bump_revision_if_changed _). assert (block_ok e0) as Hb0 by (apply block_ok_bump; same_block). clearbody e0.
  pose proof (block_ok_guard {| rn_engine := e0; rn_world := rn_world s |} Hb0) as Hg.
  destruct (guard_root _) as [[[]|error] s1]; cbn [snd] in Hg.
  - set (inputs := mbind _ world_of). assert (preserves block_ok inputs) as Hk.
    { apply preserves_bind; [apply preserves_world_of|intros w]. apply preserves_bind; [apply preserves_io_value|intros policy].
      apply preserves_bind; [apply preserves_engine_store, (cy_store _ (cy_early _ block_ok_cyclic))|intros ancestor]. apply preserves_ret. }
    specialize (Hk s1 Hg). clearbody inputs. destruct (inputs s1) as [[[policy ancestor]|error] s2]; cbn [snd] in Hk;
      intros [= _ <-]; cbn [rn_engine]; same_block.
  - destruct error as [| |fault|removals entries| |error|reason]; intros [= _ <-]; cbn [rn_engine]; try same_block.
    apply block_ok_faulted.
Qed.

Lemma block_ok_authoritative paths seq e : block_ok e →
  block_ok (absorb_authoritative_dirty canonical_spelling paths seq e).
Proof. intros Hb. unfold absorb_authoritative_dirty. same_block. Qed.

Lemma block_ok_complete_scan result s r s' : block_ok (rn_engine s) →
  complete_authoritative_local_scan (W := W) result s = (r, s') → block_ok (rn_engine s').
Proof.
  intros Hb. unfold complete_authoritative_local_scan. cbv zeta.
  assert (block_ok ((rn_engine s) <| me_authoritative_scan_active := false |>)) as Hb0 by same_block.
  generalize dependent ((rn_engine s) <| me_authoritative_scan_active := false |>). intros e0 Hb0.
  destruct (sr_walk result) as [walk|fault]; [|intros [= _ <-]; apply block_ok_faulted].
  pose proof (record_walk_preserves block_ok (cy_early _ block_ok_cyclic) walk WholeWorkspace {| rn_engine := e0; rn_world := rn_world s |} Hb0) as Hk.
  destruct (record_walk_unsyncable _ _ _) as [[[]|error] s1]; cbn [snd] in Hk; intros [= _ <-]; [|done].
  apply (block_ok_authoritative (sk_dirty walk) (sr_observation_seq result)) in Hk.
  generalize dependent (absorb_authoritative_dirty canonical_spelling (sk_dirty walk) (sr_observation_seq result) (rn_engine s1)).
  intros e1 Hb1. apply block_ok_refresh. cbn [rn_engine].
  assert (∀ d, block_ok (match d with ScanOwed _ => set_degradation Nominal e1 | _ => e1 end)) as Hb2.
  { intros d. destruct d; try done. by apply block_ok_set. }
  specialize (Hb2 (me_degradation (rn_engine s1))).
  generalize dependent (match me_degradation (rn_engine s1) with ScanOwed _ => set_degradation Nominal e1 | _ => e1 end).
  intros e2 Hb2. by apply (block_ok_same e2).
Qed.

Lemma block_ok_step s s' : block_ok (rn_engine s) → engine_step (W := W) s s' → block_ok (rn_engine s').
Proof.
  intros Hb Hstep. destruct Hstep as [s r s' Hs|s event|s|s r s' Hs|s|s r s' Hs|s result r s' Hs|s|s w]; cbn [with_engine rn_engine].
  - by eapply block_ok_start.
  - by apply block_ok_event.
  - unfold announce_due_work. destruct (negb _); [done|]. apply block_ok_bump. same_block.
  - by eapply block_ok_due.
  - unfold take_completed_barriers. cbn [snd]. same_block.
  - by eapply block_ok_begin.
  - by eapply block_ok_complete_scan.
  - unfold schedule_recovered_work. case_bool_decide; [done|]. apply block_ok_bump. same_block.
  - done.
Qed.

(** The removals an operator is asked to confirm are those the engine refused.  Over the
    whole life of an engine, whatever the order of its calls and whatever the machine does,
    [refused_removals] holds exactly the paths of the refused batch, and as many as the
    degradation announces, while the engine is blocked, and is empty otherwise. *)
Theorem refused_listed s : lives (W := W) s → block_ok (rn_engine s).
Proof. induction 1 as [store capabilities w|s s' Hs IH Hstep]; [done|by eapply block_ok_step]. Qed.

End Blocked.
