(* ===== verification/EngineDue.v ===== *)
(** * What one due cycle of the engine leaves

    Facts of [run_due_work] for any pull and push the engine is given: nothing is touched
    under a root that is not proven, a convergence receipt describes the store, and work
    that is left is scheduled. *)

From S2P Require Import Prelude.
From S2P Require Import ManifestTypes.
From S2P Require Import FsGuard.
From S2P Require Import MergeMatrix.
From S2P Require Import Store.
From S2P Require Import StoreTheorems.
From S2P Require Import Ordered.
From S2P Require Import Apply.
From S2P Require Import Push.
From S2P Require Import Paths.
From S2P Require Import DiskLemmas.
From S2P Require Import StatWalk.
From S2P Require Import Engine.
From S2P Require Import EngineCycle.
From S2P Require Import EngineLemmas.
From S2P Require Import EngineTheorems.
Local Open Scope string_scope.
Open Scope Z_scope.

#[local] Arguments set_degradation : simpl never.
#[local] Arguments bump_revision_if_changed : simpl never.
#[local] Arguments absorb_dirty : simpl never.

(** ** Reads of the store *)

(** What a read finds in the tables when no statement fails. *)
Definition durable {A} (m : SM A) (st : ManifestStore) : Result A ManifestStoreError :=
  (m (st <| ms_faults := [] |>)).1.

(** A computation that only reads, and reads what is durable. *)
Definition reader {A} (m : SM A) : Prop :=
  ∀ st r st', m st = (r, st') → same_tables st' st ∧ ∀ a, r = Ok a → durable m st = Ok a.

Lemma durable_same {A} (m : SM A) st st' : same_tables st st' → durable m st = durable m st'.
Proof. unfold durable, same_tables. by intros ->. Qed.


(** A statement and then a function of the tables. *)
Lemma reader_statement {A} (m : SM A) (g : ManifestStore → Result A ManifestStoreError) :
  (∀ st, m st = match statement st with (Ok _, st') => (g st', st') | (Err error, st') => (Err error, st') end) →
  (∀ st faults, g (st <| ms_faults := faults |>) = g st) → reader m.
Proof.
  intros Hm Hg st r st'. unfold durable, same_tables. rewrite !Hm. unfold statement.
  destruct (ms_faults st) as [|[] faults]; cbn; intros [= <- <-]; (split; [done|]); intros a Ha; rewrite ?Hg in *; done.
Qed.

Lemma reader_engine_state : reader engine_state.
Proof.
  apply (reader_statement _ (λ st, match ms_engine_state st with Some row => row_to_engine_state row | None => Ok EngineState_default end)); [|done].
  intros st. unfold engine_state. rewrite bind_run. destruct (statement st) as [[[]|] st1]; [|done]. rewrite bind_run. cbn.
  destruct (ms_engine_state st1) as [row|]; [|done]. unfold of_result. by destruct (row_to_engine_state row).
Qed.

Lemma reader_pending_intents : reader pending_intents.
Proof.
  apply (reader_statement _ (λ st, Ok (omap (λ path, ms_intents st !! path) (merge_sort path_order (elements (dom (ms_intents st))))))); [|done].
  intros st. unfold pending_intents. rewrite bind_run. by destruct (statement st) as [[[]|] st1].
Qed.

Lemma reader_unsyncable : reader unsyncable_rows.
Proof.
  apply (reader_statement _ (λ st, Ok (ms_unsyncable st))); [|done].
  intros st. unfold unsyncable_rows. rewrite bind_run. by destruct (statement st) as [[[]|] st1].
Qed.

Lemma reader_file_count : reader file_count.
Proof.
  apply (reader_statement _ (λ st, Ok (Z.of_nat (size (ms_files st))))); [|done].
  intros st. unfold file_count. rewrite bind_run. by destruct (statement st) as [[[]|] st1].
Qed.

(** ** Refreshing the durable facts *)

Section Due.
Context {W Cap : Type} `{EnginePorts W Cap}.
Implicit Types e : ManifestEngine Cap.

(** What the engine shows of its store is what the store holds. *)
Definition describes (e : ManifestEngine Cap) : Prop :=
  ∃ state intents,
    durable engine_state (me_store e) = Ok state ∧ applied_ref state = Ok (me_applied_ref e)
    ∧ me_materialization_revision e = es_materialization_revision state
    ∧ durable pending_intents (me_store e) = Ok intents
    ∧ me_pending_intents e = Z.of_nat (length intents)
    ∧ durable unsyncable_rows (me_store e) = Ok (me_unsyncable e).

(** The part of the engine a refresh of the durable facts leaves alone. *)
Definition schedule_of (e : ManifestEngine Cap) :=
  (me_dirty e, me_dirty_subtrees e, me_scan_required e, me_pull_needed e, me_phase e, me_head_ref e,
   (me_debounce_deadline e, me_max_latency_deadline e, me_backoff_deadline e, me_audit_deadline e, me_stall_deadline e),
   (me_pending_barriers e, me_completed_barriers e, me_cycle_active e, me_last_success_at e)).

Record refreshed (s s' : Running W Cap) : Prop := {
  rf_tables : same_tables (me_store (rn_engine s')) (me_store (rn_engine s));
  rf_world : rn_world s' = rn_world s;
  rf_schedule : schedule_of (rn_engine s') = schedule_of (rn_engine s);
}.

Lemma refreshed_trans s1 s2 s3 : refreshed s1 s2 → refreshed s2 s3 → refreshed s1 s3.
Proof. intros [Ht1 Hw1 Hs1] [Ht2 Hw2 Hs2]. unfold same_tables in *. constructor; unfold same_tables; congruence. Qed.

Lemma refreshed_call {A} (m : SM A) (s : Running W Cap) r s' : reader m → call_store m s = (r, s') →
  refreshed s s' ∧ rn_engine s' = (rn_engine s) <| me_store := me_store (rn_engine s') |>
  ∧ ∀ a, r = Ok a → durable m (me_store (rn_engine s')) = Ok a.
Proof.
  intros Hm. unfold call_store. destruct (m _) as [r1 store] eqn:Em. intros [= <- <-].
  destruct (Hm _ _ _ Em) as [Ht Hd]. split_and!; [by constructor|done|].
  intros a ->. cbn. rewrite (durable_same m store _ Ht). by apply Hd.
Qed.

(** A read that did not fail left the facts it reads as the store has them. *)
Lemma read_applied_spec (s : Running W Cap) failed s' : read_applied s = (failed, s') →
  refreshed s s' ∧ (failed = false → ∃ state,
    durable engine_state (me_store (rn_engine s')) = Ok state ∧ applied_ref state = Ok (me_applied_ref (rn_engine s'))
    ∧ me_materialization_revision (rn_engine s') = es_materialization_revision state).
Proof.
  unfold read_applied. destruct (call_store engine_state s) as [r s1] eqn:Ec.
  destruct (refreshed_call _ _ _ _ reader_engine_state Ec) as ([Ht Hw Hs] & _ & Hd).
  destruct r as [state|]; [|by intros [= <- <-]]. destruct (applied_ref state) as [applied|] eqn:Ea; intros [= <- <-].
  - split; [by constructor|]. intros _. exists state. split_and!; [by apply Hd|done|done].
  - split; [by constructor|done].
Qed.

Lemma read_intents_spec (s : Running W Cap) failed s' : read_intents s = (failed, s') →
  refreshed s s' ∧ me_applied_ref (rn_engine s') = me_applied_ref (rn_engine s)
  ∧ me_materialization_revision (rn_engine s') = me_materialization_revision (rn_engine s)
  ∧ (failed = false → ∃ intents, durable pending_intents (me_store (rn_engine s')) = Ok intents
    ∧ me_pending_intents (rn_engine s') = Z.of_nat (length intents)).
Proof.
  unfold read_intents. destruct (call_store pending_intents s) as [r s1] eqn:Ec.
  destruct (refreshed_call _ _ _ _ reader_pending_intents Ec) as ([Ht Hw Hs] & He & Hd).
  destruct r as [intents|]; intros [= <- <-].
  - split_and!; [by constructor|by cbn; rewrite He..|]. intros _. exists intents. split; [by apply Hd|done].
  - split_and!; [by constructor|by cbn; rewrite He..|done].
Qed.

Lemma read_unsyncable_spec (s : Running W Cap) failed s' : read_unsyncable s = (failed, s') →
  refreshed s s' ∧ me_applied_ref (rn_engine s') = me_applied_ref (rn_engine s)
  ∧ me_materialization_revision (rn_engine s') = me_materialization_revision (rn_engine s)
  ∧ me_pending_intents (rn_engine s') = me_pending_intents (rn_engine s)
  ∧ (failed = false → durable unsyncable_rows (me_store (rn_engine s')) = Ok (me_unsyncable (rn_engine s'))).
Proof.
  unfold read_unsyncable. destruct (call_store unsyncable_rows s) as [r s1] eqn:Ec.
  destruct (refreshed_call _ _ _ _ reader_unsyncable Ec) as ([Ht Hw Hs] & He & Hd).
  destruct r as [rows|]; intros [= <- <-].
  - split_and!; [by constructor|by cbn; rewrite He..|]. intros _. by apply Hd.
  - split_and!; [by constructor|by cbn; rewrite He..|done].
Qed.

(** The degradation does not touch what the engine shows of its store, nor its schedule. *)
Lemma degraded_frame d e :
  me_store (set_degradation d e) = me_store e ∧ schedule_of (set_degradation d e) = schedule_of e
  ∧ (describes e → describes (set_degradation d e)).
Proof. unfold set_degradation. by destruct (negb _ && _). Qed.

Lemma bumped_frame e :
  me_store (bump_revision_if_changed e) = me_store e ∧ schedule_of (bump_revision_if_changed e) = schedule_of e
  ∧ me_degradation (bump_revision_if_changed e) = me_degradation e
  ∧ (describes e → describes (bump_revision_if_changed e)).
Proof. unfold bump_revision_if_changed. by case_bool_decide. Qed.

Lemma refresh_durable_spec (s : Running W Cap) :
  refreshed s (refresh_durable_state s)
  ∧ (me_degradation (rn_engine (refresh_durable_state s)) ≠ StoreUnavailable → describes (rn_engine (refresh_durable_state s))).
Proof.
  unfold refresh_durable_state.
  destruct (read_applied s) as [failed1 s1] eqn:E1. destruct (read_applied_spec _ _ _ E1) as [Hr1 Hd1].
  destruct (read_intents s1) as [failed2 s2] eqn:E2. destruct (read_intents_spec _ _ _ E2) as (Hr2 & Ha2 & Hm2 & Hd2).
  destruct (read_unsyncable s2) as [failed3 s3] eqn:E3. destruct (read_unsyncable_spec _ _ _ E3) as (Hr3 & Ha3 & Hm3 & Hi3 & Hd3).
  pose proof (refreshed_trans _ _ _ (refreshed_trans _ _ _ Hr1 Hr2) Hr3) as Hr.
  assert (∀ d, refreshed s (with_engine (set_degradation d) s3)) as Hset.
  { intros d. destruct (degraded_frame d (rn_engine s3)) as (Hst & Hsch & _). destruct Hr as [Ht Hw Hs].
    constructor; cbn [with_engine rn_engine rn_world]; [by rewrite Hst|done|by rewrite Hsch]. }
  destruct (failed1 || failed2 || failed3) eqn:Ef.
  { split; [done|]. cbn. by rewrite set_degradation_sets. }
  assert (describes (rn_engine s3)) as Hd.
  { destruct failed1, failed2, failed3; try done. destruct Hd1 as (state & Hst & Happ & Hmat); [done|].
    destruct Hd2 as (intents & Hin & Hn); [done|]. exists state, intents.
    rewrite (durable_same engine_state _ _ (rf_tables _ _ Hr3)), (durable_same engine_state _ _ (rf_tables _ _ Hr2)).
    rewrite (durable_same pending_intents _ _ (rf_tables _ _ Hr3)).
    split_and!; [done|congruence|congruence|done|congruence|by apply Hd3]. }
  case_bool_decide; [|done]. split; [done|]. intros _. by apply degraded_frame.
Qed.

Lemma refresh_spec (s : Running W Cap) :
  refreshed s (refresh_and_bump s)
  ∧ (me_degradation (rn_engine (refresh_and_bump s)) ≠ StoreUnavailable → describes (rn_engine (refresh_and_bump s))).
Proof.
  unfold refresh_and_bump. destruct (refresh_durable_spec s) as [[Ht Hw Hs] Hd].
  destruct (bumped_frame (rn_engine (refresh_durable_state s))) as (Hst & Hsch & Hdeg & Hdesc).
  split; [constructor; cbn [with_engine rn_engine rn_world]; [by rewrite Hst|done|by rewrite Hsch]|].
  cbn [with_engine rn_engine]. rewrite Hdeg. by intros Hne%Hd%Hdesc.
Qed.

Lemma call_store_degradation {A} (m : SM A) (s : Running W Cap) :
  me_degradation (rn_engine (call_store m s).2) = me_degradation (rn_engine s).
Proof. unfold call_store. by destruct (m _). Qed.

Lemma reads_degradation (s : Running W Cap) :
  me_degradation (rn_engine (read_applied s).2) = me_degradation (rn_engine s)
  ∧ me_degradation (rn_engine (read_intents s).2) = me_degradation (rn_engine s)
  ∧ me_degradation (rn_engine (read_unsyncable s).2) = me_degradation (rn_engine s).
Proof.
  unfold read_applied, read_intents, read_unsyncable. split_and!.
  - pose proof (call_store_degradation engine_state s) as Hd. destruct (call_store _ s) as [[state|] s1]; [|done].
    by destruct (applied_ref state).
  - pose proof (call_store_degradation pending_intents s) as Hd. by destruct (call_store _ s) as [[] s1].
  - pose proof (call_store_degradation unsyncable_rows s) as Hd. by destruct (call_store _ s) as [[] s1].
Qed.

Lemma refresh_degrades (s : Running W Cap) :
  me_degradation (rn_engine (refresh_and_bump s)) = StoreUnavailable
  ∨ (me_degradation (rn_engine (refresh_and_bump s)) = Nominal ∧ me_degradation (rn_engine s) = StoreUnavailable)
  ∨ me_degradation (rn_engine (refresh_and_bump s)) = me_degradation (rn_engine s).
Proof.
  unfold refresh_and_bump, refresh_durable_state.
  destruct (reads_degradation s) as [Hd1 _]. destruct (read_applied s) as [failed1 s1]. cbn in Hd1.
  destruct (reads_degradation s1) as (_ & Hd2 & _). destruct (read_intents s1) as [failed2 s2]. cbn in Hd2.
  destruct (reads_degradation s2) as (_ & _ & Hd3). destruct (read_unsyncable s2) as [failed3 s3]. cbn in Hd3.
  destruct (_ || _); [|case_bool_decide as Hst]; cbn [with_engine rn_engine];
    rewrite (proj1 (proj2 (proj2 (bumped_frame _)))), ?set_degradation_sets; [by left|right; left|right; right]; split_and?; congruence.
Qed.

(** ** Due work under a root that is not proven *)

Lemma guard_faulted (s : Running W Cap) fault : verify_root (rn_world s) = RootFaulted fault →
  (fault = MarkerMissing → ms_files (me_store (rn_engine s)) ≠ ∅) →
  ∃ error store, guard_root s = (Err error, {| rn_engine := (rn_engine s) <| me_store := store |>; rn_world := rn_world s |})
    ∧ same_tables store (me_store (rn_engine s))
    ∧ (error = CycleRootUnavailable fault ∨ ∃ inner, error = CycleFatal (EngineStore inner)).
Proof.
  intros Hv Hne. unfold guard_root. rewrite bind_run. cbn [world_of]. rewrite Hv.
  destruct fault; try (eexists _, (me_store (rn_engine s)); split_and!; [|done|by left];
    destruct s as [e w]; by destruct e).
  specialize (Hne eq_refl). rewrite bind_run. unfold ancestor_is_empty. rewrite !bind_run. unfold engine_store, call_store.
  destruct (file_count (me_store (rn_engine s))) as [r store] eqn:Ec.
  destruct (reader_file_count _ _ _ Ec) as [Ht Hd]. destruct r as [count|error].
  - assert (count =? 0 = false) as ->; [|by eexists _, store; split_and!; [|done|left]].
    apply Z.eqb_neq. intros ->. specialize (Hd _ eq_refl). unfold durable, file_count in Hd. cbn in Hd.
    injection Hd as Hd. apply Hne, map_size_empty_inv. lia.
  - eexists _, store. split_and!; [done|done|right; by eexists].
Qed.

(** [settled now r1 e] is what [run_due_work] makes of a cycle that ended with [r1] in [e]. *)
Definition settled (now : Z) (r1 : Result unit CycleError) (e : ManifestEngine Cap) : Result unit CycleError * ManifestEngine Cap :=
  match r1 with
  | Ok _ => (Ok tt, settle_success now (e <| me_cycle_active := false |>))
  | Err error => absorb_cycle_error error now (e <| me_cycle_active := false |>)
  end.

Lemma due_shape (s : Running W Cap) r s' :
  is_due (rn_engine s) (now_millis (rn_world s)) = true → run_due_work s = (r, s') →
  ∃ r1 s1, run_cycle {| rn_engine := consume_deadlines (now_millis (rn_world s)) (rn_engine s); rn_world := rn_world s |} = (r1, s1)
    ∧ let '(absorbed, e) := settled (now_millis (rn_world s)) r1 (rn_engine s1) in
      let s2 := refresh_and_bump {| rn_engine := e; rn_world := rn_world s1 |} in
      match absorbed with
      | Ok _ => r = Ok tt ∧ s' = {| rn_engine := complete_barriers (rn_engine s2); rn_world := rn_world s2 |}
      | Err fatal => r = Err fatal ∧ s' = s2
      end.
Proof.
  intros Hdue. unfold run_due_work. rewrite Hdue. cbn [negb]. destruct (run_cycle _) as [r1 s1] eqn:Er. intros Hs.
  exists r1, s1. split; [done|]. unfold settled. destruct r1 as [[]|error].
  - by simplify_eq.
  - destruct (absorb_cycle_error _ _ _) as [absorbed e]. destruct absorbed; by simplify_eq.
Qed.

(** The work an engine has noted, with the tables it works on. *)
Definition noted (e : ManifestEngine Cap) := (me_store e, me_dirty e, me_dirty_subtrees e).

Lemma noted_degraded d e : noted (set_degradation d e) = noted e.
Proof. unfold set_degradation. by destruct (negb _ && _). Qed.

Lemma consume_noted now e : noted (consume_deadlines now e) = noted e.
Proof.
  unfold consume_deadlines. set (e1 := e <| me_debounce_deadline := None |> <| me_max_latency_deadline := None |> <| me_stall_deadline := None |>).
  assert (noted e1 = noted e) as <- by done. clearbody e1. cbv zeta.
  destruct (match me_audit_deadline e1 with Some due => due <=? now | None => false end); [|done].
  set (e2 := (arm_audit device_id now e1) <| me_scan_required := true |> <| me_pull_needed := true |>).
  assert (noted e2 = noted e1) as <- by done. clearbody e2.
  case_bool_decide; [|done]. rewrite <- (noted_degraded (ScanOwed PeriodicAudit) e2).
  by generalize (set_degradation (ScanOwed PeriodicAudit) e2).
Qed.

Lemma cycle_faulted (s : Running W Cap) fault : verify_root (rn_world s) = RootFaulted fault →
  (fault = MarkerMissing → ms_files (me_store (rn_engine s)) ≠ ∅) →
  ∃ error s1, run_cycle s = (Err error, s1) ∧ rn_world s1 = rn_world s
    ∧ same_tables (me_store (rn_engine s1)) (me_store (rn_engine s))
    ∧ me_dirty (rn_engine s1) = me_dirty (rn_engine s) ∧ me_dirty_subtrees (rn_engine s1) = me_dirty_subtrees (rn_engine s)
    ∧ (error = CycleRootUnavailable fault ∨ ∃ inner, error = CycleFatal (EngineStore inner)).
Proof.
  intros Hv Hne. unfold run_cycle. rewrite bind_run. cbn [engine_of]. rewrite bind_run. unfold on_engine at 1, modify at 1.
  set (s0 := {| rn_engine := _ |}). destruct (guard_faulted s0 fault Hv Hne) as (error & store & Hg & Ht & He).
  rewrite bind_run, Hg. by eexists error, _.
Qed.

Lemma noted_fields e e' : noted e = noted e' →
  me_store e = me_store e' ∧ me_dirty e = me_dirty e' ∧ me_dirty_subtrees e = me_dirty_subtrees e'.
Proof. unfold noted. by intros [= -> -> ->]. Qed.

Lemma schedule_fields e e' : schedule_of e = schedule_of e' →
  me_dirty e = me_dirty e' ∧ me_dirty_subtrees e = me_dirty_subtrees e' ∧ me_scan_required e = me_scan_required e'
  ∧ me_pull_needed e = me_pull_needed e' ∧ next_due e = next_due e'.
Proof.
  unfold schedule_of, next_due. intros Hs. injection Hs as -> -> -> -> _ _ Hdeb Hlat Hback Haud Hstall _ _ _ _.
  by rewrite Hdeb, Hlat, Hback, Haud, Hstall.
Qed.

(** What a cycle stopped by the root leaves. *)
Record faulted (fault : RootFault) (now : Z) (e1 e2 : ManifestEngine Cap) : Prop := {
  fa_noted : noted e2 = noted e1;
  fa_scan : me_scan_required e2 = true;
  fa_pull : me_pull_needed e2 = true;
  fa_due : at_most (next_due e2) (now + STALL_REPROBE_MS);
  fa_degradation : me_degradation e2 = RootUnavailable fault;
}.

Lemma absorbed_root fault now e : ∃ e2, absorb_cycle_error (CycleRootUnavailable fault) now e = (Ok tt, e2) ∧ faulted fault now e e2.
Proof.
  eexists. split; [done|]. pose proof (noted_degraded (RootUnavailable fault) e) as Hn.
  pose proof (set_degradation_sets (RootUnavailable fault) e) as Hd.
  generalize dependent (set_degradation (RootUnavailable fault) e). intros e1 Hn Hd.
  constructor; [by rewrite <- Hn|done..|apply due_by_stall; by eexists|done].
Qed.

Lemma refreshed_fields (s : Running W Cap) : 
  rn_world (refresh_and_bump s) = rn_world s
  ∧ same_tables (me_store (rn_engine (refresh_and_bump s))) (me_store (rn_engine s))
  ∧ me_dirty (rn_engine (refresh_and_bump s)) = me_dirty (rn_engine s)
  ∧ me_dirty_subtrees (rn_engine (refresh_and_bump s)) = me_dirty_subtrees (rn_engine s)
  ∧ me_scan_required (rn_engine (refresh_and_bump s)) = me_scan_required (rn_engine s)
  ∧ me_pull_needed (rn_engine (refresh_and_bump s)) = me_pull_needed (rn_engine s)
  ∧ next_due (rn_engine (refresh_and_bump s)) = next_due (rn_engine s).
Proof. destruct (refresh_spec s) as [[Ht Hw Hs%schedule_fields] _]. naive_solver. Qed.

Lemma completed_fields e : 
  me_store (complete_barriers e) = me_store e ∧ me_dirty (complete_barriers e) = me_dirty e
  ∧ me_dirty_subtrees (complete_barriers e) = me_dirty_subtrees e ∧ me_scan_required (complete_barriers e) = me_scan_required e
  ∧ me_pull_needed (complete_barriers e) = me_pull_needed e ∧ me_degradation (complete_barriers e) = me_degradation e
  ∧ next_due (complete_barriers e) = next_due e.
Proof. unfold complete_barriers. by destruct (negb _). Qed.

(** C6: Nothing is touched under a root that is not proven to be the workspace.  When work
    falls due and the root is missing, unreadable, not a directory, or holds no marker of
    this workspace while the ancestor is not empty, the cycle changes nothing of the machine
    (no file, no object, no ref), no table of the store, and forgets no dirty path; unless
    the store failed it reports the fault and looks again within thirty seconds, owing a
    full scan and a pull. *)
Theorem unproven_root_inert (s : Running W Cap) r s' fault :
  is_due (rn_engine s) (now_millis (rn_world s)) = true →
  verify_root (rn_world s) = RootFaulted fault →
  (fault = MarkerMissing → ms_files (me_store (rn_engine s)) ≠ ∅) →
  run_due_work s = (r, s') →
  rn_world s' = rn_world s
  ∧ same_tables (me_store (rn_engine s')) (me_store (rn_engine s))
  ∧ me_dirty (rn_engine s') = me_dirty (rn_engine s)
  ∧ me_dirty_subtrees (rn_engine s') = me_dirty_subtrees (rn_engine s)
  ∧ (r = Ok tt →
     me_scan_required (rn_engine s') = true ∧ me_pull_needed (rn_engine s') = true
     ∧ at_most (next_due (rn_engine s')) (now_millis (rn_world s) + STALL_REPROBE_MS)
     ∧ (me_degradation (rn_engine s') = RootUnavailable fault ∨ me_degradation (rn_engine s') = StoreUnavailable)).
Proof.
  intros Hdue Hv Hne Hrun. destruct (due_shape _ _ _ Hdue Hrun) as (r1 & s1 & Hcycle & Hshape).
  set (now := now_millis (rn_world s)) in *.
  destruct (noted_fields _ _ (consume_noted now (rn_engine s))) as (Hst & Hdirty & Hsub).
  destruct (cycle_faulted {| rn_engine := consume_deadlines now (rn_engine s); rn_world := rn_world s |} fault Hv)
    as (error & s1' & Hcycle' & Hw1 & Ht1 & Hd1 & Hs1 & Herror); [cbn [rn_engine]; by rewrite Hst|].
  rewrite Hcycle in Hcycle'. injection Hcycle' as -> <-. cbn [rn_engine rn_world] in *. unfold settled in Hshape.
  rewrite Hst in Ht1. rewrite Hdirty in Hd1. rewrite Hsub in Hs1. clear Hcycle Hst Hdirty Hsub.
  destruct Herror as [->|[inner ->]].
  - destruct (absorbed_root fault now ((rn_engine s1) <| me_cycle_active := false |>)) as (e2 & He & [Hn Hscan Hpull Hd Hdeg]).
    rewrite He in Hshape. clear He Hrun. destruct Hshape as [-> ->]. cbn [rn_engine rn_world].
    destruct (noted_fields _ _ Hn) as (Hst2 & Hdirty2 & Hsub2). cbn in Hst2, Hdirty2, Hsub2.
    pose proof (refresh_degrades {| rn_engine := e2; rn_world := rn_world s1 |}) as Hrd.
    destruct (refreshed_fields {| rn_engine := e2; rn_world := rn_world s1 |}) as (Hw & Ht & Hf1 & Hf2 & Hf3 & Hf4 & Hf5).
    cbn [rn_engine rn_world] in *. generalize dependent (refresh_and_bump {| rn_engine := e2; rn_world := rn_world s1 |}). intros s2 Hrd Hw Ht Hf1 Hf2 Hf3 Hf4 Hf5.
    destruct (completed_fields (rn_engine s2)) as (-> & -> & -> & -> & -> & -> & ->). unfold same_tables in *.
    split_and!; [congruence..|]. intros _. rewrite Hf5. split_and!; [congruence|congruence|done|].
    destruct Hrd as [?|[[_ ?]|?]]; [by right|congruence|left; congruence].
  - destruct Hshape as [-> ->].
    destruct (refreshed_fields {| rn_engine := (rn_engine s1) <| me_cycle_active := false |>; rn_world := rn_world s1 |})
      as (Hw & Ht & Hf1 & Hf2 & _). unfold same_tables in *. cbn [rn_engine rn_world] in *.
    split_and!; [congruence|by rewrite Ht|by rewrite Hf1|by rewrite Hf2|done].
Qed.

(** ** Receipts *)

(** The barriers an engine waits for and has acknowledged. *)
Definition barriers_are (pending : gmap Z Z) (completed : gmap Z EngineConvergenceReceipt) (e : ManifestEngine Cap) : Prop :=
  me_pending_barriers e = pending ∧ me_completed_barriers e = completed.

Lemma degraded_pending d e : me_pending_barriers (set_degradation d e) = me_pending_barriers e.
Proof. unfold set_degradation. by destruct (negb _ && _). Qed.

Lemma degraded_completed d e : me_completed_barriers (set_degradation d e) = me_completed_barriers e.
Proof. unfold set_degradation. by destruct (negb _ && _). Qed.

Lemma barriers_degraded pending completed d e :
  barriers_are pending completed e → barriers_are pending completed (set_degradation d e).
Proof. unfold set_degradation. by destruct (negb _ && _). Qed.

Lemma barriers_cyclic pending completed : cyclic (W := W) (barriers_are pending completed).
Proof.
  constructor; [constructor|..]; try (by unfold storeless, retain_skipped).
  - intros e capabilities [Hp Hc]. split; cbn; by rewrite ?degraded_pending, ?degraded_completed.
  - intros e paths Hb. unfold absorb_dirty. by destruct (foldl _ _ _).
  - intros e outcome now Hb. unfold pulled_engine. cbv zeta. by case_bool_decide.
Qed.

Lemma barriers_settled pending completed now r1 e : barriers_are pending completed e →
  barriers_are pending completed (settled now r1 e).2.
Proof.
  intros Hb. unfold settled. assert (barriers_are pending completed (e <| me_cycle_active := false |>)) as Hb0 by done.
  generalize dependent (e <| me_cycle_active := false |>). clear Hb. intros e0 Hb.
  destruct r1 as [[]|error]; cbn [snd].
  - unfold settle_success. set (e1 := (preempt_backoff e0) <| me_last_success_at := Some now |>).
    assert (barriers_are pending completed e1) as Hb1 by done. clearbody e1. cbv zeta.
    destruct (degradation_is_transient e1); [|done]. apply (barriers_degraded _ _ Nominal) in Hb1.
    generalize dependent (set_degradation Nominal e1). by intros e2 Hb2.
  - destruct error as [| |fault|removals entries| |error|reason]; cbn [absorb_cycle_error snd]; try done.
    + unfold enter_backoff. cbv zeta. set (e1 := e0 <| me_backoff_attempt := _ |> <| me_backoff_deadline := _ |>).
      assert (barriers_are pending completed e1) as Hb1 by done. clearbody e1.
      apply (barriers_degraded _ _ (OfflineRetrying (u32_saturating_add (me_backoff_attempt e0) 1))) in Hb1.
      generalize dependent (set_degradation (OfflineRetrying (u32_saturating_add (me_backoff_attempt e0) 1)) e1). by intros e2 Hb2.
    + apply (barriers_degraded _ _ IntegrityStalled) in Hb. generalize dependent (set_degradation IntegrityStalled e0). by intros e2 Hb2.
    + apply (barriers_degraded _ _ (RootUnavailable fault)) in Hb.
      generalize dependent (set_degradation (RootUnavailable fault) e0). by intros e2 Hb2.
Qed.

Lemma barriers_consumed pending completed now e : barriers_are pending completed e →
  barriers_are pending completed (consume_deadlines now e).
Proof.
  intros Hb. unfold consume_deadlines. set (e1 := e <| me_debounce_deadline := None |> <| me_max_latency_deadline := None |> <| me_stall_deadline := None |>).
  assert (barriers_are pending completed e1) as Hb1 by done. clearbody e1. cbv zeta.
  destruct (match me_audit_deadline e1 with Some due => due <=? now | None => false end); [|done].
  set (e2 := (arm_audit device_id now e1) <| me_scan_required := true |> <| me_pull_needed := true |>).
  assert (barriers_are pending completed e2) as Hb2 by done. clearbody e2.
  case_bool_decide; [|done]. apply (barriers_degraded _ _ (ScanOwed PeriodicAudit)) in Hb2.
  generalize dependent (set_degradation (ScanOwed PeriodicAudit) e2). by intros e3 Hb3.
Qed.

(** A receipt that appears was issued for a pending barrier, on a converged snapshot. *)
Lemma completed_receipt e id receipt : me_completed_barriers (complete_barriers e) !! id = Some receipt →
  me_completed_barriers e !! id = Some receipt
  ∨ ∃ generation, me_pending_barriers e !! id = Some generation
      ∧ convergence_receipt (engine_snapshot e) process_identity workspace_identity generation id = Some receipt.
Proof.
  unfold complete_barriers. destruct (negb _); [by left|].
  cbn. generalize (engine_snapshot e). intros snapshot.
  revert receipt. apply (map_fold_weak_ind (λ completed pending, ∀ receipt, completed !! id = Some receipt →
    me_completed_barriers e !! id = Some receipt
    ∨ ∃ generation, pending !! id = Some generation
        ∧ convergence_receipt snapshot process_identity workspace_identity generation id = Some receipt)).
  - by left.
  - intros id' generation pending completed Hnone IH receipt. destruct (convergence_receipt _ _ _ _ _) as [receipt'|] eqn:Er.
    + rewrite lookup_insert_Some. intros [[-> ->]|[Hne Hl]]; [right; exists generation; by rewrite lookup_insert_eq|].
      destruct (IH _ Hl) as [?|(g & Hg & Hr)]; [by left|right; exists g]. by rewrite lookup_insert_ne.
    + intros Hl. destruct (IH _ Hl) as [?|(g & Hg & Hr)]; [by left|right; exists g]. rewrite lookup_insert_ne; [done|congruence].
Qed.

Lemma no_intents st : durable pending_intents st = Ok [] → ms_intents st = ∅.
Proof.
  unfold durable, pending_intents. cbn. intros [= Hnil]. apply map_empty. intros path.
  destruct (ms_intents st !! path) as [intent|] eqn:El; [|done]. exfalso.
  assert (intent ∈ omap (λ path, ms_intents st !! path) (merge_sort path_order (elements (dom (ms_intents st))))) as Hin.
  { apply list_elem_of_omap. exists path. split; [|done]. rewrite merge_sort_Permutation. apply elem_of_elements.
    by apply elem_of_dom. }
  rewrite Hnil in Hin. by apply elem_of_nil in Hin.
Qed.

(** What a receipt says, of the engine that issued it. *)
Lemma receipt_facts e generation id receipt : describes e →
  convergence_receipt (engine_snapshot e) process_identity workspace_identity generation id = Some receipt →
  cr_endpoint_generation receipt = generation ∧ cr_barrier_id receipt = id
  ∧ cr_observed_ref receipt = cr_applied_ref receipt
  ∧ (∃ state, durable engine_state (me_store e) = Ok state ∧ applied_ref state = Ok (cr_applied_ref receipt)
      ∧ es_materialization_revision state = cr_materialization_revision receipt)
  ∧ ms_intents (me_store e) = ∅ ∧ ms_unsyncable (me_store e) = ∅
  ∧ me_dirty e = ∅ ∧ me_dirty_subtrees e = ∅ ∧ me_scan_required e = false.
Proof.
  intros (state & intents & Hst & Happ & Hmat & Hint & Hn & Huns). unfold convergence_receipt.
  destruct (negb _) eqn:Econv; [done|]. intros [= <-]. cbn.
  apply negb_false_iff in Econv. unfold is_exactly_converged, is_work_drained in Econv. cbn in Econv.
  rewrite !andb_true_iff, !bool_decide_eq_true, !negb_true_iff, !Z.eqb_eq in Econv.
  destruct Econv as ((((((((((((_ & Hpi) & _) & Hdirty) & Hsub) & _) & Hscan) & _) & _) & _) & Href) & Hunsync) & _).
  split_and!; try done.
  - by exists state.
  - apply no_intents. rewrite Hint. f_equal. apply length_zero_iff_nil. lia.
  - rewrite <- Hunsync. by injection Huns.
Qed.

(** C20: A convergence receipt describes the durable state.  When a cycle acknowledges a
    barrier, the barrier was pending with that endpoint generation, the receipt's applied ref
    and materialization revision are those of the store, the observed ref is the applied one,
    and the store holds no unfinished operation and no unsyncable path, and the engine no
    dirty path and owes no scan: nothing the engine knows of is left to do. *)
Theorem receipt_exact (s : Running W Cap) r s' id receipt :
  run_due_work s = (r, s') →
  me_completed_barriers (rn_engine s) !! id = None →
  me_completed_barriers (rn_engine s') !! id = Some receipt →
  me_pending_barriers (rn_engine s) !! id = Some (cr_endpoint_generation receipt)
  ∧ cr_barrier_id receipt = id
  ∧ cr_observed_ref receipt = cr_applied_ref receipt
  ∧ (∃ state, durable engine_state (me_store (rn_engine s')) = Ok state ∧ applied_ref state = Ok (cr_applied_ref receipt)
      ∧ es_materialization_revision state = cr_materialization_revision receipt)
  ∧ ms_intents (me_store (rn_engine s')) = ∅ ∧ ms_unsyncable (me_store (rn_engine s')) = ∅
  ∧ me_dirty (rn_engine s') = ∅ ∧ me_dirty_subtrees (rn_engine s') = ∅ ∧ me_scan_required (rn_engine s') = false.
Proof.
  intros Hrun Hnone Hsome. destruct (is_due (rn_engine s) (now_millis (rn_world s))) eqn:Hdue.
  2:{ unfold run_due_work in Hrun. rewrite Hdue in Hrun. cbn in Hrun. congruence. }
  destruct (due_shape _ _ _ Hdue Hrun) as (r1 & s1 & Hcycle & Hshape). clear Hrun.
  set (now := now_millis (rn_world s)) in *.
  pose proof (run_cycle_preserves _ (barriers_cyclic (me_pending_barriers (rn_engine s)) (me_completed_barriers (rn_engine s)))
    {| rn_engine := consume_deadlines now (rn_engine s); rn_world := rn_world s |}
    (barriers_consumed _ _ now _ (conj eq_refl eq_refl))) as Hk.
  rewrite Hcycle in Hk. cbn [snd] in Hk. apply (barriers_settled _ _ now r1) in Hk.
  destruct (settled now r1 (rn_engine s1)) as [absorbed e]. cbn [snd] in Hk.
  destruct (refresh_spec {| rn_engine := e; rn_world := rn_world s1 |}) as [[_ _ Hsch] Hdesc].
  generalize dependent (refresh_and_bump {| rn_engine := e; rn_world := rn_world s1 |}). intros s2 Hshape Hsch Hdesc.
  assert (barriers_are (me_pending_barriers (rn_engine s)) (me_completed_barriers (rn_engine s)) (rn_engine s2)) as [Hp Hc].
  { destruct Hk as [Hp Hc]. cbn [rn_engine] in Hsch. unfold schedule_of in Hsch. split; congruence. }
  destruct absorbed as [[]|fatal]; destruct Hshape as [-> ->]; [|congruence]. cbn [rn_engine] in *.
  destruct (completed_receipt _ _ _ Hsome) as [Hold|(generation & Hpend & Hreceipt)]; [congruence|].
  assert (describes (rn_engine s2)) as Hd.
  { apply Hdesc. intros Hst. revert Hreceipt. unfold convergence_receipt, is_exactly_converged. cbn. rewrite Hst.
    rewrite (bool_decide_eq_false_2 (StoreUnavailable = Nominal)) by done. by rewrite andb_false_r. }
  destruct (receipt_facts _ _ _ _ Hd Hreceipt) as (Hgen & Hid & Href & Hst & Hfacts).
  destruct (completed_fields (rn_engine s2)) as (-> & -> & -> & -> & _). split_and!; try done; [|apply Hfacts..].
  by rewrite <- Hp, Hgen.
Qed.

End Due.
