(* ===== verification/EngineProgress.v ===== *)
(** * Work is neither lost nor left without a wakeup

    Two facts of [run_due_work], for any pull and push the engine is given: a path noted as
    dirty stays noted until a push that was handed it settled it, and an engine that still
    has work when a cycle ends wakes by itself within a bounded time. *)

From S2P Require Import Prelude.
From S2P Require Import ManifestTypes.
From S2P Require Import FsGuard.
From S2P Require Import MergeMatrix.
From S2P Require Import Store.
From S2P Require Import StoreTheorems.
From S2P Require Import Ordered.
From S2P Require Import Apply.
From S2P Require Import Push.
From S2P Require Import Paths.
From S2P Require Import DiskLemmas.
From S2P Require Import StatWalk.
From S2P Require Import Engine.
From S2P Require Import EngineCycle.
From S2P Require Import EngineLemmas.
From S2P Require Import EngineTheorems.
From S2P Require Import EngineDue.
Local Open Scope string_scope.
Open Scope Z_scope.

#[local] Arguments set_degradation : simpl never.
#[local] Arguments bump_revision_if_changed : simpl never.
#[local] Arguments absorb_dirty : simpl never.

(** ** Postconditions of computations that return *)

Section Yields.
Context {S E : Type}.

Definition yields {A} (P : S → Prop) (m : M S E A) (Q : A → S → Prop) : Prop :=
  ∀ s a s', P s → m s = (Ok a, s') → Q a s'.

Lemma yields_bind {A B} P Q R (m : M S E A) (f : A → M S E B) :
  yields P m Q → (∀ a, yields (Q a) (f a) R) → yields P (m ≫= f) R.
Proof.
  intros Hm Hf s b s' Hs. rewrite bind_run. destruct (m s) as [[a|] s1] eqn:Em; [|done]. apply Hf. by eapply Hm.
Qed.

Lemma yields_ret {A} (a : A) (Q : A → S → Prop) : yields (Q a) (mret a) Q.
Proof. by intros s a' s' Hs [= <- <-]. Qed.

Lemma yields_throw {A} error P (Q : A → S → Prop) : yields P (throw error) Q.
Proof. by intros s a' s' Hs. Qed.

End Yields.

Section Progress.
Context {W Cap : Type} `{EnginePorts W Cap}.
Implicit Types e : ManifestEngine Cap.
Local Abbreviation CM := (M (Running W Cap) CycleError).

(** ** Dirty paths *)

(** The paths a push was handed and settled. *)
Definition push_settled (outcome : PushOutcome) (path : WorkspacePath) : Prop :=
  match outcome with
  | PushAdvanced _ _ skipped | PushNoChange skipped => path ∉ skipped
  | PushRefLost _ => False
  end.

(** What a push promises of a path it settled, as a fact of the store and the machine. *)
Class PushSettles (published : WorkspacePath → ManifestStore * W → Prop) : Prop := {
  push_settles cap batch deletions evidence st outcome st' path :
    port_push cap batch deletions evidence st = (Ok outcome, st') → path ∈ batch → push_settled outcome path →
    published path st';
  published_tables path store store' w : same_tables store' store → published path (store, w) → published path (store', w);
}.

Context (published : WorkspacePath → ManifestStore * W → Prop) `{!PushSettles published} (path : WorkspacePath).

Definition is_noted (e : ManifestEngine Cap) : Prop := path ∈ me_dirty e.

Lemma noted_same e e' : me_dirty e' = me_dirty e → is_noted e → is_noted e'.
Proof. unfold is_noted. by intros ->. Qed.

Lemma dirty_degraded d e : me_dirty (set_degradation d e) = me_dirty e.
Proof. unfold set_degradation. by destruct (negb _ && _). Qed.

Lemma noted_early : early (W := W) is_noted.
Proof.
  constructor; unfold storeless; try (by intros; eapply noted_same).
  - intros e capabilities Hn. apply (noted_same e); [|done]. cbn. by rewrite dirty_degraded.
  - intros e paths Hn. unfold absorb_dirty, is_noted. destruct (foldl _ _ _). cbn. set_solver.
  - intros e outcome now Hn. unfold pulled_engine, is_noted. cbv zeta. case_bool_decide; cbn; set_solver.
Qed.

(** Still noted, or settled by the push that ended the cycle. *)
Definition kept (x : Result unit CycleError * Running W Cap) : Prop :=
  is_noted (rn_engine x.2) ∨ x.1 = Ok tt ∧ published path (me_store (rn_engine x.2), rn_world x.2).

Lemma retained skipped e : is_noted e → is_noted (retain_skipped skipped e) ∨ path ∈ me_published_batch e ∧ path ∉ skipped.
Proof.
  unfold is_noted. cbn. intros Hn. destruct (decide (path ∈ skipped)); [left; set_solver|].
  destruct (decide (path ∈ me_published_batch e)); [by right|left; set_solver].
Qed.

Lemma bind_kept {A} (m : CM A) (f : A → CM unit) s : preserves is_noted m → is_noted (rn_engine s) →
  (∀ a s1, is_noted (rn_engine s1) → kept (f a s1)) → kept ((m ≫= f) s).
Proof.
  intros Hm Hs Hf. specialize (Hm s Hs). change ((m ≫= f) s) with (m_bind f m s). unfold m_bind.
  destruct (m s) as [[a|error] s1]; [by apply Hf|by left].
Qed.

Lemma publish_kept attempts observation pulled deletions s : is_noted (rn_engine s) →
  kept (publish_attempts attempts observation pulled deletions s).
Proof.
  revert pulled s. induction attempts as [|attempts IH]; intros pulled s Hn; cbn [publish_attempts]; [by left|].
  apply bind_kept; [apply preserves_engine_of|done|]. intros e s1 Hn1.
  case_bool_decide; [by left|]. apply bind_kept; [apply preserves_world_of|done|]. intros w s2 Hn2. cbv zeta.
  rewrite bind_run. unfold on_engine at 1, modify at 1. cbv beta iota. rewrite bind_run. unfold through_port at 1.
  set (batch := publish_batch w e). cbn [rn_engine rn_world]. set (store0 := me_store _).
  destruct (port_push _ _ _ _ _) as [r [store w']] eqn:Ep. match goal with |- context [{| rn_engine := ?x; rn_world := w' |}] => set (e3 := x) end.
  assert (is_noted e3 ∧ me_published_batch e3 = batch ∧ me_store e3 = store) as (Hn3 & Hb3 & Hs3) by done. clearbody e3.
  rewrite bind_run. cbn [world_of]. destruct r as [[key version skipped|skipped|current]|error].
  - unfold on_engine, modify. cbn [fst snd rn_engine rn_world]. match goal with |- context [retain_skipped _ ?x] => set (e4 := x) end.
    destruct (retained skipped e4 Hn3) as [?|[Hin Hskip]]; [by left|right]. split; [done|].
    cbn [fst snd rn_engine rn_world]. change (published path (me_store e3, w')). rewrite Hs3.
    eapply push_settles; [done|by rewrite <- Hb3|done].
  - unfold on_engine, modify. cbn [fst snd]. destruct (retained skipped e3 Hn3) as [?|[Hin Hskip]]; [by left|right].
    split; [done|]. change (published path (me_store e3, w')). rewrite Hs3.
    eapply push_settles; [done|by rewrite <- Hb3|done].
  - apply bind_kept; [apply preserves_on_engine; by intros; eapply noted_same|done|]. intros _ s5 Hn5.
    apply bind_kept; [apply do_pull_preserves, noted_early|done|]. intros _ s6 Hn6. by apply IH.
  - cbv zeta. destruct (push_failure_scope _), pulled; try (by left).
    apply bind_kept; [apply do_pull_preserves, noted_early|done|]. intros _ s6 Hn6. by apply IH.
Qed.

Lemma cycle_kept s : is_noted (rn_engine s) → kept (run_cycle (W := W) s).
Proof.
  intros Hn. unfold run_cycle. apply bind_kept; [apply preserves_engine_of|done|]. intros e s1 Hn1. cbv zeta.
  apply bind_kept; [apply preserves_on_engine; by intros; eapply noted_same|done|]. intros _ s2 Hn2.
  apply bind_kept; [apply guard_root_preserves, noted_early|done|]. intros _ s3 Hn3.
  apply bind_kept; [apply scan_step_preserves, noted_early|done|]. intros observation s4 Hn4.
  apply bind_kept; [apply subtree_step_preserves, noted_early|done|]. intros _ s5 Hn5.
  apply bind_kept; [apply pull_step_preserves, noted_early|done|]. intros pulled s6 Hn6.
  rewrite bind_run. pose proof (publish_kept MAX_PUSH_ATTEMPTS observation pulled (authorization (me_confirmed_removals e)) s6 Hn6) as Hk.
  unfold publish_dirty. destruct (publish_attempts _ _ _ _ s6) as [[[]|error] s7]; [|done].
  unfold reschedule_dirty. rewrite bind_run. cbn [world_of]. unfold on_engine, modify. cbn [fst snd].
  destruct Hk as [Hk|[_ Hk]]; [left|right; split; [done|]]; cbn [rn_engine rn_world] in *; by case_bool_decide.
Qed.

Lemma settled_noted now r1 e : noted (settled now r1 e).2 = noted e.
Proof.
  unfold settled. transitivity (noted (e <| me_cycle_active := false |>)); [|done].
  generalize (e <| me_cycle_active := false |>). clear e. intros e0. destruct r1 as [[]|error]; cbn [snd].
  - unfold settle_success. set (e1 := (preempt_backoff e0) <| me_last_success_at := Some now |>).
    assert (noted e1 = noted e0) as <- by done. clearbody e1. cbv zeta.
    destruct (degradation_is_transient e1); [|done]. rewrite <- (noted_degraded Nominal e1).
    by generalize (set_degradation Nominal e1).
  - destruct error as [| |fault|removals entries| |error|reason]; cbn [absorb_cycle_error snd]; try done.
    + unfold enter_backoff. cbv zeta. set (attempt := u32_saturating_add _ _).
      transitivity (noted (e0 <| me_backoff_attempt := attempt |> <| me_backoff_deadline := Some (now + backoff_delay device_id attempt) |>)); [|done].
      generalize (e0 <| me_backoff_attempt := attempt |> <| me_backoff_deadline := Some (now + backoff_delay device_id attempt) |>).
      intros e1. rewrite <- (noted_degraded (OfflineRetrying attempt) e1). by generalize (set_degradation (OfflineRetrying attempt) e1).
    + rewrite <- (noted_degraded IntegrityStalled e0). by generalize (set_degradation IntegrityStalled e0).
    + rewrite <- (noted_degraded (RootUnavailable fault) e0). by generalize (set_degradation (RootUnavailable fault) e0).
Qed.

(** A dirty path is never forgotten.  A path the engine has noted as dirty when a cycle
    runs is noted as dirty after it, unless the cycle succeeded and its push was handed the
    path, did not skip it, and so left of it whatever such a push promises ([published]):
    faults, races on the ref, refused removals, failing stores and partial batches all leave
    it noted. *)
Theorem dirty_never_lost s r s' : run_due_work (W := W) s = (r, s') → path ∈ me_dirty (rn_engine s) →
  path ∈ me_dirty (rn_engine s') ∨ r = Ok tt ∧ published path (me_store (rn_engine s'), rn_world s').
Proof.
  intros Hrun Hn. destruct (is_due (rn_engine s) (now_millis (rn_world s))) eqn:Hdue.
  2:{ unfold run_due_work in Hrun. rewrite Hdue in Hrun. cbn in Hrun. left. congruence. }
  destruct (due_shape _ _ _ Hdue Hrun) as (r1 & s1 & Hcycle & Hshape). clear Hrun.
  set (now := now_millis (rn_world s)) in *.
  destruct (noted_fields _ _ (consume_noted now (rn_engine s))) as (_ & Hdirty & _).
  pose proof (cycle_kept {| rn_engine := consume_deadlines now (rn_engine s); rn_world := rn_world s |}) as Hk.
  unfold is_noted in Hk at 1. cbn [rn_engine] in Hk. rewrite Hdirty, Hcycle in Hk. specialize (Hk Hn).
  destruct (noted_fields _ _ (settled_noted now r1 (rn_engine s1))) as (Hst1 & Hd1 & _).
  assert (r1 = Ok tt → (settled now r1 (rn_engine s1)).1 = Ok tt) as Hok by (by intros ->).
  destruct (settled now r1 (rn_engine s1)) as [absorbed e2]. cbn [fst snd] in *.
  destruct (refreshed_fields {| rn_engine := e2; rn_world := rn_world s1 |}) as (Hw & Ht & Hd & _). cbn [rn_engine rn_world] in *.
  generalize dependent (refresh_and_bump {| rn_engine := e2; rn_world := rn_world s1 |}). intros s2 Hshape Hw Ht Hd.
  destruct (completed_fields (rn_engine s2)) as (Hst2 & Hd2 & _).
  unfold kept, is_noted in Hk. cbn [fst snd] in Hk. destruct Hk as [Hk|[-> Hk]].
  - left. destruct absorbed; destruct Hshape as [-> ->]; cbn [rn_engine]; congruence.
  - right. rewrite Hok in Hshape by done. destruct Hshape as [-> ->]. split; [done|]. cbn [rn_engine rn_world].
    rewrite Hst2, Hw. apply (published_tables _ (me_store e2)); [done|]. by rewrite Hst1.
Qed.

End Progress.

(** ** Wakeups *)

Section Wakes.
Context {W Cap : Type} `{EnginePorts W Cap}.
Implicit Types e : ManifestEngine Cap.
Local Abbreviation CM := (M (Running W Cap) CycleError).

(** A pull and a push take time. *)
Class ClockLaw : Prop := {
  clock_pull cap scope st r st' : port_pull cap scope st = (r, st') → now_millis st.2 ≤ now_millis st'.2;
  clock_push cap batch deletions evidence st r st' :
    port_push cap batch deletions evidence st = (r, st') → now_millis st.2 ≤ now_millis st'.2;
}.

Context `{!ClockLaw}.

Lemma at_most_le deadline bound bound' : bound ≤ bound' → at_most deadline bound → at_most deadline bound'.
Proof. intros Hle (d & -> & Hd). exists d. split; [done|lia]. Qed.

(** No scan is owed. *)
Definition scanned (s : Running W Cap) : Prop := me_scan_required (rn_engine s) = false.

(** No scan is owed, and a pull that is owed has a deadline. *)
Definition paced (s : Running W Cap) : Prop :=
  scanned s ∧ me_dirty_subtrees (rn_engine s) = ∅
  ∧ (me_pull_needed (rn_engine s) = true →
     at_most (me_debounce_deadline (rn_engine s)) (now_millis (rn_world s) + DEBOUNCE_MS)).

(** The fields of [paced] and the dirty set. *)
Definition pace (e : ManifestEngine Cap) :=
  (me_scan_required e, me_dirty_subtrees e, me_pull_needed e, me_debounce_deadline e).

Lemma paced_same e e' w w' : pace e' = pace e → now_millis w ≤ now_millis w' →
  paced {| rn_engine := e; rn_world := w |} → paced {| rn_engine := e'; rn_world := w' |}.
Proof.
  unfold pace, paced, scanned. cbn. intros [= -> -> -> ->] Hle (Hs & Hsub & Hp). split_and!; [done|done|].
  intros Ht. eapply at_most_le; [|by apply Hp]. lia.
Qed.

Lemma through_port_paced {A E} (m : M (ManifestStore * W) E A) s s' r :
  (∀ st r st', m st = (r, st') → now_millis st.2 ≤ now_millis st'.2) →
  paced s → through_port (F := CycleError) m s = (r, s') → paced s'.
Proof.
  intros Hm Hq. unfold through_port. destruct (m _) as [r1 [store w]] eqn:Em. intros [= _ <-].
  destruct s as [e w0]. cbn [rn_engine rn_world]. by eapply paced_same; [|apply (Hm _ _ _ Em)|].
Qed.

Lemma pulled_paced outcome w e : paced {| rn_engine := e; rn_world := w |} →
  paced {| rn_engine := pulled_engine outcome (now_millis w) e; rn_world := w |}.
Proof.
  intros Hq. unfold pulled_engine. cbv zeta. case_bool_decide.
  - by apply (paced_same e _ w w).
  - destruct Hq as (Hs & Hsub & _). split_and!; [done|done|]. intros _. by eexists.
Qed.

Lemma do_pull_paced observation : yields paced (do_pull (W := W) observation) (λ _, paced).
Proof.
  intros s [] s' Hq. unfold do_pull. rewrite bind_run. cbn [engine_of]. cbv zeta. rewrite bind_run.
  unfold on_engine at 1, modify at 1. rewrite bind_run. destruct s as [e w]. cbn [rn_engine rn_world].
  match goal with |- context [through_port ?m ?s] => destruct (through_port m s) as [[r|] s1] eqn:Ep end; [|done].
  apply through_port_paced in Ep; [|apply clock_pull|by apply (paced_same e _ w w)].
  rewrite bind_run. cbn [world_of]. destruct r as [outcome|error]; [|done].
  intros [= <-]. destruct s1 as [e1 w1]. by apply pulled_paced.
Qed.

Lemma publish_paced attempts observation pulled deletions :
  yields paced (publish_attempts (W := W) attempts observation pulled deletions) (λ _, paced).
Proof.
  revert pulled. induction attempts as [|attempts IH]; intros pulled s [] s' Hq; cbn [publish_attempts]; [by intros [= <-]|].
  rewrite bind_run. cbn [engine_of]. case_bool_decide; [by intros [= <-]|]. rewrite bind_run. cbn [world_of]. cbv zeta.
  rewrite bind_run. unfold on_engine at 1, modify at 1. rewrite bind_run. destruct s as [e w]. cbn [rn_engine rn_world].
  match goal with |- context [through_port ?m ?s] => destruct (through_port m s) as [[r|] s1] eqn:Ep end; [|done].
  apply through_port_paced in Ep; [|apply clock_push|by apply (paced_same e _ w w)].
  rewrite bind_run. cbn [world_of]. destruct r as [[key version skipped|skipped|current]|error].
  - intros [= <-]. destruct s1 as [e1 w1]. by apply (paced_same e1 _ w1 w1).
  - intros [= <-]. destruct s1 as [e1 w1]. by apply (paced_same e1 _ w1 w1).
  - rewrite bind_run. unfold on_engine at 1, modify at 1. rewrite bind_run. cbv zeta beta iota.
    destruct (do_pull _ _) as [[[]|] s2] eqn:Ed; [|done]. apply IH. eapply do_pull_paced; [|exact Ed].
    destruct s1 as [e1 w1]. by apply (paced_same e1 _ w1 w1).
  - destruct (push_failure_scope _), pulled; try done. rewrite bind_run.
    destruct (do_pull _ _) as [[[]|] s2] eqn:Ed; [|done]. apply IH. by eapply do_pull_paced.
Qed.

(** No authoritative scan is under way. *)
Definition unscanned (e : ManifestEngine Cap) : Prop := me_authoritative_scan_active e = false.

Lemma scanning_degraded d e : me_authoritative_scan_active (set_degradation d e) = me_authoritative_scan_active e.
Proof. unfold set_degradation. by destruct (negb _ && _). Qed.

Lemma unscanned_early : early (W := W) unscanned.
Proof.
  constructor; unfold storeless, unscanned; try done.
  - intros e capabilities Hu. cbn. by rewrite scanning_degraded.
  - intros e paths Hu. unfold absorb_dirty. by destruct (foldl _ _ _).
  - intros e outcome now Hu. unfold pulled_engine. cbv zeta. by case_bool_decide.
Qed.

Lemma consume_unscanned now e : unscanned e → unscanned (consume_deadlines now e).
Proof.
  intros Hu. unfold consume_deadlines. set (e1 := e <| me_debounce_deadline := None |> <| me_max_latency_deadline := None |> <| me_stall_deadline := None |>).
  assert (unscanned e1) as Hu1 by done. clearbody e1. cbv zeta.
  destruct (match me_audit_deadline e1 with Some due => due <=? now | None => false end); [|done].
  set (e2 := (arm_audit device_id now e1) <| me_scan_required := true |> <| me_pull_needed := true |>).
  assert (unscanned e2) as Hu2 by done. clearbody e2. case_bool_decide; [|done]. unfold unscanned in Hu2.
  rewrite <- (scanning_degraded (ScanOwed PeriodicAudit)) in Hu2.
  generalize dependent (set_degradation (ScanOwed PeriodicAudit) e2). by intros e3 Hu3.
Qed.

Lemma scan_step_scanned : yields (λ s, unscanned (rn_engine s)) (scan_step (W := W)) (λ _, scanned).
Proof.
  intros s observation s' Hu. unfold scan_step. rewrite bind_run. cbn [engine_of]. unfold unscanned in Hu. rewrite Hu.
  destruct (me_scan_required (rn_engine s)) eqn:Es; cbn [andb negb].
  - rewrite bind_run. destruct (full_scan s) as [[[]|] s1]; [|done]. rewrite bind_run. by intros [= _ <-].
  - by intros [= _ <-].
Qed.

Definition owes_no_scan (e : ManifestEngine Cap) : Prop := me_scan_required e = false.

Lemma record_walk_scanned walk scope (s : Running W Cap) : owes_no_scan (rn_engine s) →
  owes_no_scan (rn_engine (record_walk_unsyncable walk scope s).2).
Proof.
  intros Hs. unfold record_walk_unsyncable. apply preserves_bind; [apply preserves_engine_store; by intros ? ?| |done].
  intros previous. apply preserves_bind; [apply preserves_engine_of|]. intros e. cbv zeta. apply preserves_engine_store. by intros ? ?.
Qed.

Lemma subtree_step_paced :
  yields scanned (subtree_step (W := W)) (λ _ s, scanned s ∧ me_dirty_subtrees (rn_engine s) = ∅).
Proof.
  intros s [] s' Hs. unfold subtree_step. rewrite bind_run. cbn [engine_of]. case_bool_decide; [by intros [= <-]|].
  unfold scan_dirty_subtrees. rewrite bind_run. cbn [world_of]. rewrite bind_run. cbn [engine_of]. rewrite bind_run.
  destruct (load_scoped_policy _ _) as [policy|]; [|done].
  change (io_value (Ok policy) s) with (Ok (E := CycleError) policy, s). cbv beta iota. rewrite bind_run.
  pose proof (preserves_engine_store (W := W) owes_no_scan (files_in_scopes (me_dirty_subtrees (rn_engine s)))) as Hk.
  specialize (Hk ltac:(by intros ? ?) s Hs).
  destruct (engine_store _ s) as [[ancestor|] s1]; [|done]. cbn [snd] in Hk. rewrite bind_run.
  destruct (stat_walk_subtrees _ _ _ _) as [walk|]; [|done].
  change (EngineCycle.walk_result (Ok walk) s1) with (Ok (E := CycleError) walk, s1). cbv beta iota. rewrite bind_run.
  pose proof (record_walk_scanned walk DirtySubtrees s1 Hk) as Hk2.
  destruct (record_walk_unsyncable _ _ s1) as [[[]|] s2]; [|done]. cbn [snd] in Hk2. intros [= <-]. split; [|done].
  unfold scanned. cbn. unfold absorb_dirty. by destruct (foldl _ _ _).
Qed.

Lemma pull_step_paced observation :
  yields (λ s, scanned s ∧ me_dirty_subtrees (rn_engine s) = ∅) (pull_step (W := W) observation) (λ _, paced).
Proof.
  intros s pulled s' [Hs Hsub]. unfold pull_step. rewrite bind_run. cbn [engine_of].
  destruct (me_pull_needed (rn_engine s)) eqn:Ep.
  - rewrite bind_run. unfold on_engine at 1, modify at 1. rewrite bind_run. cbv beta iota.
    destruct (do_pull _ _) as [[[]|] s1] eqn:Ed; [|done]. intros [= _ <-]. by eapply do_pull_paced; [|exact Ed].
  - intros [= _ <-]. split_and!; [done|done|]. by rewrite Ep.
Qed.

(** When a cycle returns, whatever work is left has a deadline. *)
Lemma cycle_ends_paced : yields (λ s, unscanned (rn_engine s)) (run_cycle (W := W)) (λ _ s,
  paced s ∧ (me_dirty (rn_engine s) ≠ ∅ → at_most (me_debounce_deadline (rn_engine s)) (now_millis (rn_world s) + DEBOUNCE_MS))).
Proof.
  intros s [] s' Hu. unfold run_cycle. rewrite bind_run. cbn [engine_of]. cbv zeta. rewrite bind_run.
  unfold on_engine at 1, modify at 1. cbv beta iota.
  set (s0 := {| rn_engine := _ |}). pose proof (guard_root_preserves _ unscanned_early s0 Hu) as Hu1. clearbody s0.
  rewrite bind_run. destruct (guard_root s0) as [[[]|] s1]; [|done]. cbn [snd] in Hu1.
  rewrite bind_run. destruct (scan_step s1) as [[observation|] s2] eqn:E2; [|done].
  pose proof (scan_step_scanned _ _ _ Hu1 E2) as H2.
  rewrite bind_run. destruct (subtree_step s2) as [[[]|] s3] eqn:E3; [|done]. pose proof (subtree_step_paced _ _ _ H2 E3) as H3.
  rewrite bind_run. destruct (pull_step observation s3) as [[pulled|] s4] eqn:E4; [|done].
  pose proof (pull_step_paced _ _ _ _ H3 E4) as H4. rewrite bind_run. unfold publish_dirty.
  destruct (publish_attempts _ _ _ _ s4) as [[[]|] s5] eqn:E5; [|done]. pose proof (publish_paced _ _ _ _ _ _ _ H4 E5) as H5.
  unfold reschedule_dirty. rewrite bind_run. cbn [world_of]. intros [= <-]. cbn [rn_engine rn_world].
  destruct s5 as [e5 w5]. cbn [rn_engine rn_world]. case_bool_decide as Hd.
  - by split.
  - destruct H5 as (Hs & Hsub & _). split; [|intros _; by eexists]. split_and!; [done|done|]. intros _. by eexists.
Qed.

Lemma backoff_delay_capped attempt : backoff_delay device_id attempt ≤ BACKOFF_CAP_MS.
Proof.
  unfold backoff_delay. set (exp := u64_saturating_mul _ _). assert (0 ≤ exp) as Hexp.
  { unfold exp, u64_saturating_mul, u64_max, BACKOFF_BASE_MS. assert (0 ≤ Z.shiftl 1 (Z.min attempt 8)) by (by apply Z.shiftl_nonneg). lia. }
  set (base := Z.min exp BACKOFF_CAP_MS). assert (0 ≤ base ≤ 5000) as Hbase by (unfold base, BACKOFF_CAP_MS; lia).
  assert (0 ≤ base / 4 ≤ base) as Hq by (split; [apply Z.div_pos; lia|apply Z.div_le_upper_bound; lia]).
  destruct (Z.eqb_spec (base / 4) 0); [unfold BACKOFF_CAP_MS; lia|].
  pose proof (Z.mod_pos_bound (fold_seed attempt device_id) (base / 4 + 1)). unfold BACKOFF_CAP_MS. lia.
Qed.

(** Whether an engine is idle, and what it has armed for its edits. *)
Definition idle_pace (e : ManifestEngine Cap) := (me_dirty e, pace e).

Lemma idle_pace_degraded d e : idle_pace (set_degradation d e) = idle_pace e.
Proof. unfold set_degradation. by destruct (negb _ && _). Qed.

Lemma success_pace now e : idle_pace (settle_success now e) = idle_pace e.
Proof.
  unfold settle_success. set (e1 := (preempt_backoff e) <| me_last_success_at := Some now |>).
  assert (idle_pace e1 = idle_pace e) as <- by done. clearbody e1. cbv zeta.
  destruct (degradation_is_transient e1); [|done]. rewrite <- (idle_pace_degraded Nominal e1).
  by generalize (set_degradation Nominal e1).
Qed.

(** A failure that is not fatal and not a refusal arms a retry. *)
Lemma absorbed_due error now e e2 : absorb_cycle_error error now e = (Ok tt, e2) → deletion_blocked (me_degradation e2) = false →
  at_most (next_due e2) (now + STALL_REPROBE_MS).
Proof.
  destruct error as [| |fault|removals entries| |error|reason]; cbn [absorb_cycle_error]; try done; intros [= <-] Hb.
  - unfold enter_backoff. cbv zeta. set (attempt := u32_saturating_add _ _). apply due_by_backoff.
    exists (now + backoff_delay device_id attempt). split; [|pose proof (backoff_delay_capped attempt); unfold BACKOFF_CAP_MS, STALL_REPROBE_MS in *; lia].
    unfold set_degradation. by destruct (negb _ && _).
  - apply due_by_stall. by eexists.
  - apply due_by_stall. by eexists.
  - exfalso. revert Hb. unfold block_mass_deletion. cbn. by rewrite set_degradation_sets.
  - apply due_by_stall. by eexists.
Qed.

Lemma success_due now e w : paced {| rn_engine := e; rn_world := w |} →
  (me_dirty e ≠ ∅ → at_most (me_debounce_deadline e) (now_millis w + DEBOUNCE_MS)) →
  idle (settle_success now e) = false → at_most (next_due (settle_success now e)) (now_millis w + STALL_REPROBE_MS).
Proof.
  intros (Hs & Hsub & Hp) Hd Hidle. unfold scanned in Hs. cbn [rn_engine rn_world] in *.
  pose proof (success_pace now e) as Hpace. generalize dependent (settle_success now e). intros e2 Hidle Hpace.
  unfold idle_pace, pace in Hpace. injection Hpace as Hd2 Hs2 Hsub2 Hp2 Hdeb2.
  apply due_by_debounce. rewrite Hdeb2. apply (at_most_le _ (now_millis w + DEBOUNCE_MS)); [unfold DEBOUNCE_MS, STALL_REPROBE_MS; lia|].
  unfold idle in Hidle. rewrite Hd2, Hs2, Hsub2, Hp2, Hs, Hsub in Hidle.
  destruct (bool_decide_reflect (me_dirty e = ∅)) as [Hd1|Hd1]; [|by apply Hd]. rewrite bool_decide_eq_true_2 in Hidle by done. cbn in Hidle.
  apply Hp. by destruct (me_pull_needed e).
Qed.

(** C19: No work is left without a wakeup.  When due work has run, no authoritative scan is
    under way, the store could be read and the engine is not blocked on a refused deletion,
    then whatever is left to do (dirty paths, a scan, a pull, deferred operations, a failure
    of any kind to retry) is due again within thirty seconds of the end of the cycle. *)
Theorem no_stuck_work (s : Running W Cap) s' :
  is_due (rn_engine s) (now_millis (rn_world s)) = true →
  me_authoritative_scan_active (rn_engine s) = false →
  run_due_work s = (Ok tt, s') →
  deletion_blocked (me_degradation (rn_engine s')) = false →
  me_degradation (rn_engine s') ≠ StoreUnavailable →
  idle (rn_engine s') = false →
  at_most (next_due (rn_engine s')) (Z.max (now_millis (rn_world s)) (now_millis (rn_world s')) + STALL_REPROBE_MS).
Proof.
  intros Hdue Hu Hrun Hb Hst Hidle. destruct (due_shape _ _ _ Hdue Hrun) as (r1 & s1 & Hcycle & Hshape). clear Hrun.
  set (now := now_millis (rn_world s)) in *.
  assert (unscanned (consume_deadlines now (rn_engine s))) as Hu0 by by apply consume_unscanned.
  destruct (settled now r1 (rn_engine s1)) as [[[]|] e2] eqn:Es; [|by destruct Hshape]. destruct Hshape as [_ ->].
  cbn [rn_engine rn_world] in *. destruct (completed_fields (rn_engine (refresh_and_bump {| rn_engine := e2; rn_world := rn_world s1 |})))
    as (_ & Hd1 & Hsub1 & Hscan1 & Hpull1 & Hdeg1 & Hdue1). rewrite Hdue1. rewrite Hdeg1 in Hb, Hst.
  destruct (refreshed_fields {| rn_engine := e2; rn_world := rn_world s1 |}) as (Hw & _ & Hd2 & Hsub2 & Hscan2 & Hpull2 & Hdue2).
  cbn [rn_engine rn_world] in *. rewrite Hdue2, Hw. unfold idle in Hidle. rewrite Hd1, Hsub1, Hscan1, Hpull1, Hd2, Hsub2, Hscan2, Hpull2 in Hidle.
  assert (deletion_blocked (me_degradation e2) = false) as Hb2.
  { destruct (refresh_degrades {| rn_engine := e2; rn_world := rn_world s1 |}) as [?|[[_ Hs2]|Hs2]]; cbn [rn_engine] in *;
      [congruence|by rewrite Hs2|congruence]. }
  clear Hdue1 Hdue2 Hd1 Hd2. unfold settled in Es. destruct r1 as [[]|error].
  - injection Es as <-. destruct (cycle_ends_paced {| rn_engine := consume_deadlines now (rn_engine s); rn_world := rn_world s |} _ _ Hu0 Hcycle) as [Hq Hd]. destruct s1 as [e1 w1]. cbn [rn_engine rn_world] in *.
    eapply at_most_le; [|apply (success_due _ _ w1); [by apply (paced_same e1 _ w1 w1)|exact Hd|exact Hidle]]. lia.
  - eapply at_most_le; [|by eapply absorbed_due]. lia.
Qed.

End Wakes.
