(* ===== verification/EngineHost.v ===== *)
(** * The engine with its push

    The driver of [EngineCycle] calls a push through a port and relies on two laws of it: a
    refused removal batch names the paths, and what a settled push leaves.  Here the port is
    the push of [Push.v], and its theorems discharge both laws. *)

From S2P Require Import Prelude.
From S2P Require Import MergeMatrix.
From S2P Require Import ManifestTypes.
From S2P Require Import FsGuard.
From S2P Require Import Disk.
From S2P Require Import Materialize.
From S2P Require Import Endpoint.
From S2P Require Import Store.
From S2P Require Import Ordered.
From S2P Require Import Tree.
From S2P Require Import TreeTransport.
From S2P Require Import TreePatch.
From S2P Require Import Apply.
From S2P Require Import Push.
From S2P Require Import Paths.
From S2P Require Import DiskLemmas.
From S2P Require Import StoreTheorems.
From S2P Require Import PushTheorems.
From S2P Require Import PushSettled.
From S2P Require Import StatWalk.
From S2P Require Import Engine.
From S2P Require Import EngineCycle.
From S2P Require Import EngineLemmas.
From S2P Require Import EngineTheorems.
From S2P Require Import EngineDue.
From S2P Require Import EngineProgress.
Local Open Scope string_scope.
Open Scope Z_scope.

(** ** What a push refuses with *)

(** An error that, if it refuses removals, names more than the breaker allows. *)
Definition refusal_sound (error : PushError) : Prop :=
  match error with
  | MassDeletionRefused removals entries threshold =>
      threshold = mass_deletion_threshold entries ∧ threshold < Z.of_nat (size removals)
  | _ => True
  end.

(** Every error of [m] is sound. *)
Definition blames {S A} (m : M S PushError A) : Prop := ∀ s error s', m s = (Err error, s') → refusal_sound error.

Lemma blames_bind {S A B} (m : M S PushError A) (f : A → M S PushError B) :
  blames m → (∀ a, blames (f a)) → blames (m ≫= f).
Proof. intros Hm Hf s error s' [(e & He & [= ->])|(a & s1 & _ & Hr)]%bind_inv; [by eapply Hm|by eapply Hf]. Qed.

Lemma blames_ret {S A} (a : A) : blames (mret a : M S PushError A).
Proof. by intros s error s'. Qed.

Lemma blames_throw {S A} error : refusal_sound error → blames (throw error : M S PushError A).
Proof. by intros He s error' s' [= <- _]. Qed.

Lemma blames_of_result {S A} (r : Result A PushError) :
  (∀ error, r = Err error → refusal_sound error) → blames (of_result r : M S PushError A).
Proof. intros Hr s error s'. destruct r; [done|]. intros [= <- _]. by apply Hr. Qed.

Lemma blames_ok_or {S A} error (o : option A) : refusal_sound error → blames (ok_or error o : M S PushError A).
Proof. intros He s error' s'. destruct o; [done|]. by intros [= <- _]. Qed.

Lemma blames_get {S} : blames (get : M S PushError S).
Proof. by intros s error s'. Qed.

Lemma blames_modify {S} f : blames (modify f : M S PushError unit).
Proof. by intros s error s'. Qed.

Lemma blames_bail {S} b error : refusal_sound error → blames (bail_if b error : M S PushError unit).
Proof. intros He s error' s'. destruct b; [|done]. by intros [= <- _]. Qed.

Section Refusal.
Context {Obj : Type} `{ContentHash} `{Blake3} `{NodeCodec} `{Sealing} `{SegmentedSealing} `{Envelope}.
Context `{RemoteObjects Obj} `{RemoteBlobs Obj}.
Context (deps : PushDeps).

Local Abbreviation PM := (M (Pushing Obj) PushError).

Lemma blames_store {A} (m : SM A) : blames (push_store m : PM A).
Proof. intros s error s'. unfold push_store. destruct (m (pu_store s)) as [[]]; [done|]. by intros [= <- _]. Qed.

Lemma blames_objects {A} (m : M Obj TransportError A) : blames (push_objects m : PM A).
Proof. intros s error s'. unfold push_objects. destruct (m (pu_objects s)) as [[]]; [done|]. by intros [= <- _]. Qed.

Lemma blames_look : blames (look deps : PM Os).
Proof. by intros s error s'. Qed.

Lemma blames_io {A} (r : Result A IoError) : blames (io_result r : PM A).
Proof. destruct r; [apply blames_ret|by apply blames_throw]. Qed.

Ltac blames_go :=
  repeat first
    [ solve [auto] | apply blames_bind; [|intros ?] | apply blames_ret | apply blames_get | apply blames_modify | apply blames_store
    | apply blames_objects | apply blames_look | apply blames_io | by apply blames_throw | by apply blames_ok_or
    | by apply blames_bail | case_match ].

Lemma visit_blames {T} os path max expected (visitor : Handle → Z → Result T PushError) error :
  (∀ file len error, visitor file len = Err error → refusal_sound error) →
  visit_file_bounded os path max expected visitor = Err error → refusal_sound error.
Proof.
  intros Hv. unfold visit_file_bounded, result_bind. repeat case_match; intros [= <-]; try done. by eapply Hv.
Qed.

Lemma rejection_blames now error error' :
  refusal_sound error → read_rejection now error = Err error' → refusal_sound error'.
Proof. destruct error; cbn; intros He [= <-]; done. Qed.

Lemma read_blames os path max expected error : read_file_bounded os path max expected = Err error → refusal_sound error.
Proof.
  unfold read_file_bounded, result_map. destruct (visit_file_bounded _ _ _ _ _) eqn:Ev; [done|]. intros [= <-].
  eapply visit_blames; [|exact Ev]. intros file len err. cbv beta. repeat case_match; intros ?; by simplify_eq.
Qed.

Lemma blames_known id : blames (blob_known deps id : PM _).
Proof. unfold blob_known. blames_go. Qed.

Lemma blames_upload id plaintext : blames (upload_file_blob deps id plaintext : PM _).
Proof. unfold upload_file_blob, seal_file, blob_record. pose proof (blames_known id). blames_go. Qed.

Lemma blames_upload_segmented path expected id : blames (upload_file_blob_segmented deps path expected id : PM _).
Proof.
  unfold upload_file_blob_segmented, create_segmented_spool, blob_record. pose proof (blames_known id). blames_go.
  all: apply blames_of_result; intros error; apply visit_blames; intros file len err; cbv beta; unfold seal_file_segmented;
    repeat (case_match; cbn [result_bind]); intros ?; by simplify_eq.
Qed.

Lemma blames_content path observed segmented : blames (file_content deps path observed segmented : PM _).
Proof.
  unfold file_content. apply blames_bind; [apply blames_look|]. intros os. destruct segmented.
  - destruct (visit_file_bounded _ _ _ _ _) eqn:Ev; [blames_go|]. apply blames_bind; [|intros ?; apply blames_ret].
    apply blames_of_result. intros error. apply rejection_blames. eapply visit_blames; [|exact Ev].
    intros file len err. cbv beta. repeat case_match; intros ?; by simplify_eq.
  - destruct (read_file_bounded _ _ _ _) eqn:Ev; [blames_go|]. apply blames_bind; [|intros ?; apply blames_ret].
    apply blames_of_result. intros error. apply rejection_blames. by eapply read_blames.
Qed.

Lemma blames_file path observed row trust : blames (file_candidate deps path observed row trust : PM _).
Proof.
  pose proof (blames_content path observed (ps_large_file_threshold deps <=? ob_size observed)).
  pose proof blames_upload. pose proof blames_upload_segmented. unfold file_candidate, upload_content. blames_go.
Qed.

Lemma blames_scan attempts ancestor path trust : blames (scan_attempts deps attempts ancestor path trust : PM _).
Proof.
  pose proof blames_file. induction attempts; cbn [scan_attempts]; unfold scan_observed; blames_go.
Qed.

Lemma blames_scan_all ancestor trust paths c : blames (scan_all deps ancestor trust paths c : PM _).
Proof.
  pose proof blames_scan. revert c. induction paths; intros c; cbn [scan_all]; unfold scan_publishable, scan_path; blames_go.
Qed.

Lemma tree_error_sound error : refusal_sound (push_tree_error error).
Proof. by destruct error. Qed.

Lemma blames_upload_manifest snapshot : blames (upload_manifest deps snapshot : PM _).
Proof.
  unfold upload_manifest. apply blames_bind; [apply blames_get|]. intros s. destruct (publish_tree _ _ _ _) as [r [objects ledger]].
  apply blames_bind; [apply blames_modify|]. intros []. destruct r; [blames_go|apply blames_throw, tree_error_sound].
Qed.

Lemma blames_upload_delta root c : blames (upload_manifest_delta deps root c : PM _).
Proof.
  unfold upload_manifest_delta. apply blames_bind; [apply blames_get|]. intros s. destruct (patch_tree _ _ _ _) as [r objects].
  apply blames_bind; [apply blames_modify|]. intros []. destruct r; [blames_go|apply blames_throw, tree_error_sound].
Qed.

Lemma manifest_blames ancestor c key_epoch error : build_manifest ancestor c key_epoch = Err error → refusal_sound error.
Proof.
  unfold build_manifest, result_map. destruct (try_fold _ _ _) as [|e] eqn:Ef; [done|]. intros [= <-]. revert Ef.
  generalize (∅ : gmap WorkspacePath ManifestEntry). induction (btree_iter ancestor) as [|[path record] l IH]; intros m; cbn [try_fold]; [done|].
  destruct (file_record_to_entry record) as [entry|e'] eqn:Er; cbn; [apply IH|]. intros [= <-]. revert Er.
  unfold file_record_to_entry, result_bind, result_ok_or. repeat case_match; intros ?; by simplify_eq.
Qed.

Lemma guard_blames count ancestor pending c deletions error :
  guard_mass_deletion count ancestor pending c deletions = Err error → refusal_sound error.
Proof.
  unfold guard_mass_deletion. cbv zeta. set (removals := counted_removals _ _ _). destruct deletions as [| |confirmed]; [|done|];
    try case_bool_decide; try done; destruct (Z.ltb_spec (mass_deletion_threshold count) (Z.of_nat (size removals))); try done;
    by intros [= <-].
Qed.

Lemma push_blames dirty deletions evidence : blames (push_dirty_paths_authorized deps dirty deletions evidence : PM _).
Proof.
  pose proof blames_scan_all. pose proof blames_upload_manifest. pose proof blames_upload_delta.
  unfold push_dirty_paths_authorized, push_scanned, needs_epoch_rebuild, build_candidate, settle_uploads,
    record_unsyncable_outcome, no_change, publish_candidate, resolve_cas, commit_advance. blames_go.
  all: apply blames_of_result; intros error; first [apply guard_blames|apply manifest_blames].
Qed.

End Refusal.

(** ** The port *)

Section Host.
Context {W Cap Obj : Type} `{ContentHash} `{Blake3} `{NodeCodec} `{Sealing} `{SegmentedSealing} `{Envelope}.
Context `{RemoteObjects Obj} `{RemoteBlobs Obj}.
Context (base : EnginePorts W Cap).

(** The engine's context and transport as a push reads them off the machine, and the machine
    once the push used it. *)
Context (push_deps : Cap → W → PushDeps) (objects_of : W → Obj) (after_push : W → Pushing Obj → W).

Definition host_push (cap : Cap) (batch : gset WorkspacePath) (deletions : DeletionAuthorization)
    (evidence : WatcherEvidence) : M (ManifestStore * W) PushError PushOutcome := λ st,
  let '(r, s) := push_dirty_paths_authorized (push_deps cap st.2) batch deletions evidence
                   {| pu_store := st.1; pu_objects := objects_of st.2; pu_fresh := ∅; pu_tick := 0 |} in
  (r, (pu_store s, after_push st.2 s)).

Definition host_ports : EnginePorts W Cap :=
  {| now_millis := now_millis; device_id := device_id; process_identity := process_identity;
     workspace_identity := workspace_identity; workspace_id_hash := workspace_id_hash;
     ctx_project_view := ctx_project_view; canonical_spelling := canonical_spelling;
     root_metadata := root_metadata; read_marker := read_marker; parse_marker := parse_marker;
     adopt_root := adopt_root; probe_endpoint := probe_endpoint; load_policy := load_policy;
     load_scoped_policy := load_scoped_policy; walk_fs := walk_fs; failure_class := failure_class;
     port_recover := port_recover; port_pull := port_pull; port_push := host_push |}.

#[local] Existing Instance host_ports.

#[export] Instance host_refusals : RefusalLaw (H := host_ports).
Proof.
  intros cap batch deletions evidence st removals entries threshold st'. cbn. unfold host_push.
  destruct (push_dirty_paths_authorized _ _ _ _ _) as [r s] eqn:Ep. intros [= -> _].
  apply push_blames in Ep as [-> Hlt]. intros ->. rewrite size_empty in Hlt.
  unfold mass_deletion_threshold, MIN_DELETION_ALLOWANCE in Hlt. lia.
Qed.

(** A push of the engine left the machine as it is and settled [path], if [path] is spelled
    as the endpoint spells it. *)
Definition settled_by_push (path : WorkspacePath) (st : ManifestStore * W) : Prop :=
  ∃ cap batch deletions evidence before outcome store,
    host_push cap batch deletions evidence before = (Ok outcome, (store, st.2)) ∧ path ∈ batch ∧
    let deps := push_deps cap before.2 in
    ps_canonical deps path = path → path_settled deps evidence (canonical_paths deps batch) st.1 path.

Lemma settled_tables_same deps evidence paths store store' path : same_tables store' store →
  path_settled deps evidence paths store path → path_settled deps evidence paths store' path.
Proof.
  unfold same_tables, path_settled, row_settled, noted. destruct store, store'. cbn. intros [=]. by subst.
Qed.

#[export] Instance host_settles : PushSettles (H := host_ports) settled_by_push.
Proof.
  constructor.
  - intros cap batch deletions evidence st outcome [store w] path Hp Hin Hset.
    exists cap, batch, deletions, evidence, st, outcome, store. split; [exact Hp|]. split; [done|]. cbv zeta.
    intros Hcanon. revert Hp. cbn. unfold host_push.
    destruct (push_dirty_paths_authorized _ _ _ _ _) as [r s] eqn:Ep. intros [= -> <- _].
    assert (∃ skipped, outcome_skipped outcome = Some skipped ∧ path ∉ skipped) as (skipped & Ho & Hskip)
      by (destruct outcome; cbn in *; eauto; done).
    eapply push_settles_path; [exact Ep|exact Ho| |exact Hskip].
    apply elem_of_map. by exists path.
  - intros path store store' w Ht (cap & batch & deletions & evidence & before & outcome & store0 & Hp & Hin & Hs).
    exists cap, batch, deletions, evidence, before, outcome, store0. split; [exact Hp|]. split; [done|]. cbv zeta in *.
    intros Hc. by eapply settled_tables_same, Hs.
Qed.

(** C4: The engine with its push never loses an edit.  A path noted as dirty when a cycle runs
    is noted as dirty after it, unless the cycle succeeded and a push that was handed the path
    settled it.  For a path spelled as the endpoint spells it, settled means that the path is
    noted as unsyncable, or the ancestor's row says what the push saw on disk (and, of a file,
    that its content was read or a proven stat of an uninterrupted watch stood in for it), or
    there is no row and the path or a directory above it was seen gone or replaced. *)
Theorem engine_edit_settled path s r s' : run_due_work (H := host_ports) s = (r, s') → path ∈ me_dirty (rn_engine s) →
  path ∈ me_dirty (rn_engine s') ∨ r = Ok tt ∧ settled_by_push path (me_store (rn_engine s'), rn_world s').
Proof. apply (dirty_never_lost settled_by_push path). Qed.

End Host.
