(* ===== verification/EngineWitnesses.v ===== *)
(** * Witnesses for the engine's driver

    A machine with a clock and a workspace root that is there or not, an empty workspace, a
    pull that finds nothing, and a push given as a parameter, last the push of [PushWitnesses];
    and two runs of the daemon's loop in which the engine does not do what its documentation
    says. *)

From S2P Require Import Prelude.
From S2P Require Import ManifestTypes.
From S2P Require Import FsGuard.
From S2P Require Import MergeMatrix.
From S2P Require Import Store.
From S2P Require Import StoreTheorems.
From S2P Require Import Ordered.
From S2P Require Import Apply.
From S2P Require Import Push.
From S2P Require Import PushTheorems.
From S2P Require Import PushSettled.
From S2P Require Import TreeWitnesses.
From S2P Require Import PushWitnesses.
From S2P Require Import Paths.
From S2P Require Import StatWalk.
From S2P Require Import Engine.
From S2P Require Import EngineCycle.
From S2P Require Import EngineLemmas.
From S2P Require Import EngineTheorems.
From S2P Require Import EngineDue.
From S2P Require Import EngineProgress.
From S2P Require Import EngineHost.
Local Open Scope string_scope.
Open Scope Z_scope.

(** ** The machine *)

Record ToyWorld := { tw_now : Z; tw_root : bool }.

Definition toy_missing : IoError := {| io_kind := NotFound; io_raw_os_error := None |}.

Definition toy_os : Os :=
  {| symlink_metadata := λ _, Err toy_missing; read_link := λ _, Err toy_missing; create_dir := λ _, Ok tt;
     metadata_after_create := λ _, Err toy_missing; open_nofollow := λ _, Err NOENT |}.

Definition toy_policy : WalkPolicy := {| wp_syncs := λ _ _ _ _, true; wp_recurse := λ _ _ _ _, true |}.

Definition ToyPush := gset WorkspacePath → M (ManifestStore * ToyWorld) PushError PushOutcome.

Definition toy_ports (push : ToyPush) : EnginePorts ToyWorld unit :=
  {| now_millis := tw_now; device_id := "dev";
     process_identity := {| pi_boot_id := "boot"; pi_session_id := "session"; pi_started_at := "t0" |};
     workspace_identity := "ws"; workspace_id_hash := "hash"; ctx_project_view := false;
     canonical_spelling := λ _ path, path;
     root_metadata := λ w, if tw_root w then Ok true else Err toy_missing;
     read_marker := λ _, Ok "marker"; parse_marker := λ _, Some (1, "hash");
     adopt_root := mret tt; probe_endpoint := mret tt;
     load_policy := λ _, Ok toy_policy; load_scoped_policy := λ _ _, Ok toy_policy;
     walk_fs := λ w, {| wf_os := toy_os; wf_root_is_dir := tw_root w; wf_read_dir := λ _, Ok []; wf_now := tw_now w |};
     failure_class := λ _, Retryable;
     port_recover := λ _, mret tt;
     port_pull := λ _ _, mret PullOutcome_default;
     port_push := λ _ batch _ _, push batch |}.

(** Pushes that settle everything, lose the network, and refuse. *)
Definition push_settling : ToyPush := λ batch '(store, w),
  (Ok (PushNoChange ∅), (store <| ms_pending_push := ms_pending_push store ∖ batch |>, w)).
Definition push_offline : ToyPush := λ _, throw PushTransportErr.
Definition push_refusing : ToyPush := λ batch, throw (MassDeletionRefused ({["a"]} ∪ batch) 100 64).

Definition toy_store : ManifestStore :=
  {| ms_files := ∅; ms_engine_state := None; ms_intents := ∅; ms_unsyncable := ∅; ms_pending_push := {["a"]};
     ms_blobs := ∅; ms_tree_nodes := ∅; ms_tree_node_epochs := ∅; ms_faults := [] |}.

Definition toy_world (now : Z) : ToyWorld := {| tw_now := now; tw_root := true |}.

Definition toy_new (now : Z) : Running ToyWorld unit :=
  {| rn_engine := engine_new toy_store tt; rn_world := toy_world now |}.

Section Toy.
Context (push : ToyPush).
#[local] Existing Instance toy_ports.
Local Abbreviation Toy := (Running ToyWorld unit).

Definition at_time (now : Z) (s : Toy) : Toy := {| rn_engine := rn_engine s; rn_world := toy_world now |}.

Definition with_event (event : EngineEvent) (s : Toy) : Toy :=
  with_engine (on_event (canonical_spelling (EnginePorts := toy_ports push)) event (tw_now (rn_world s))) s.

Definition started (s : Toy) : Toy := (start (H := toy_ports push) s).2.
Definition worked (s : Toy) : Toy := (run_due_work (H := toy_ports push) s).2.
Definition begun (s : Toy) : Toy := (begin_authoritative_local_scan (H := toy_ports push) s).2.

(** The scan thread ran the plan of [s] on an empty workspace. *)
Definition scan_merged (s : Toy) : Toy :=
  (complete_authoritative_local_scan (H := toy_ports push)
     (execute_scan (walk_fs (EnginePorts := toy_ports push) (rn_world s))
        {| sp_policy := toy_policy; sp_ancestor := ∅; sp_observation_seq := me_next_dirty_seq (rn_engine s) |}) s).2.

Lemma worked_by s : run_due_work (H := toy_ports push) s = ((run_due_work (H := toy_ports push) s).1, worked s).
Proof. apply surjective_pairing. Qed.

Definition scheduled (s : Toy) : Toy := with_engine (schedule_recovered_work (tw_now (rn_world s))) s.

Local Abbreviation alive := (lives (H := toy_ports push)).

Lemma alive_new now : alive (toy_new now).
Proof. apply lives_new. Qed.
Lemma alive_at now s : alive s → alive (at_time now s).
Proof. intros Hs. eapply lives_step; [done|apply step_world]. Qed.
Lemma alive_event event s : alive s → alive (with_event event s).
Proof. intros Hs. eapply lives_step; [done|apply (step_event (H := toy_ports push))]. Qed.
Lemma alive_started s : alive s → alive (started s).
Proof. intros Hs. eapply lives_step; [done|eapply step_start, surjective_pairing]. Qed.
Lemma alive_worked s : alive s → alive (worked s).
Proof. intros Hs. eapply lives_step; [done|eapply step_due, surjective_pairing]. Qed.
Lemma alive_begun s : alive s → alive (begun s).
Proof. intros Hs. eapply lives_step; [done|eapply step_begin, surjective_pairing]. Qed.
Lemma alive_scan_merged s : alive s → alive (scan_merged s).
Proof. intros Hs. eapply lives_step; [done|eapply step_complete, surjective_pairing]. Qed.
Lemma alive_scheduled s : alive s → alive (scheduled s).
Proof. intros Hs. eapply lives_step; [done|apply (step_schedule (H := toy_ports push))]. Qed.

End Toy.

Create HintDb alive.
#[export] Hint Resolve alive_new alive_at alive_event alive_started alive_worked alive_begun alive_scan_merged
  alive_scheduled : alive.

(** ** Witnesses *)

(** A burst of edits 240 ms apart: due at the latency cap of the first. *)
Definition burst : list (EngineEvent * Z) :=
  (λ i, (Paths {["a"]}, 240 * Z.of_nat i)) <$> seq 1 20.

Lemma latency_capped_witness :
  at_most (next_due (foldl (λ e '(event, now), on_event (λ _ path, path) event now e)
                       (on_event (λ _ path, path) (Paths {["a"]}) 0 (engine_new toy_store tt)) burst)) 2000.
Proof. exact (latency_capped (λ _ path, path) (engine_new toy_store tt) (Paths {["a"]}) 0 burst eq_refl). Defined.

(** An engine blocked on a refused removal. *)
Definition blocked_engine : Running ToyWorld unit :=
  worked push_refusing (at_time 300 (with_event push_refusing (Paths {["a"; "b"]}) (started push_refusing (toy_new 0)))).

Lemma refusing_law : RefusalLaw (H := toy_ports push_refusing).
Proof. intros cap batch deletions evidence st removals entries threshold st' [= <- _ _ _]. set_solver. Qed.

Lemma refused_listed_witness :
  me_degradation (rn_engine blocked_engine) = MassDeletionBlocked 2 100 ∧ block_ok (rn_engine blocked_engine).
Proof.
  split; [vm_compute; reflexivity|].
  apply (refused_listed (H := toy_ports push_refusing) (H0 := refusing_law)). unfold blocked_engine. auto with alive.
Defined.

(** The root goes away with an edit pending. *)
Definition rootless : Running ToyWorld unit :=
  {| rn_engine := rn_engine (with_event push_settling (Paths {["a"]}) (toy_new 0));
     rn_world := {| tw_now := 300; tw_root := false |} |}.

Lemma rootless_due : is_due (rn_engine rootless) (tw_now (rn_world rootless)) = true.
Proof. vm_compute. reflexivity. Qed.

Lemma unproven_root_inert_witness :
  rn_world (worked push_settling rootless) = rn_world rootless
  ∧ same_tables (me_store (rn_engine (worked push_settling rootless))) (me_store (rn_engine rootless))
  ∧ me_dirty (rn_engine (worked push_settling rootless)) = {["a"]}.
Proof.
  destruct (unproven_root_inert (H := toy_ports push_settling) rootless _ _ RootMissing rootless_due eq_refl
    ltac:(discriminate) (worked_by _ _)) as (Hw & Ht & Hd & _).
  split_and!; [exact Hw|exact Ht|]. etransitivity; [exact Hd|]. vm_compute. reflexivity.
Defined.

(** A barrier of an engine with nothing to do. *)
Definition barred : Running ToyWorld unit :=
  with_event push_settling (EngineConvergenceBarrier 7 3) (at_time 300 (started push_settling (toy_new 0))).

Definition barred_receipt : EngineConvergenceReceipt :=
  {| cr_process_identity := {| pi_boot_id := "boot"; pi_session_id := "session"; pi_started_at := "t0" |};
     cr_workspace_identity := "ws"; cr_endpoint_generation := 3; cr_barrier_id := 7; cr_engine_revision := 3;
     cr_observed_ref := Genesis; cr_applied_ref := Genesis; cr_materialization_revision := 0 |}.

Lemma barred_completes : me_completed_barriers (rn_engine (worked push_settling barred)) !! 7 = Some barred_receipt.
Proof. vm_compute. reflexivity. Qed.

Lemma barred_waits : me_completed_barriers (rn_engine barred) !! 7 = None.
Proof. vm_compute. reflexivity. Qed.

Lemma receipt_exact_witness :
  me_pending_barriers (rn_engine barred) !! 7 = Some 3
  ∧ ms_intents (me_store (rn_engine (worked push_settling barred))) = ∅
  ∧ me_dirty (rn_engine (worked push_settling barred)) = ∅.
Proof.
  destruct (receipt_exact (H := toy_ports push_settling) barred _ _ 7 barred_receipt (worked_by _ _)
    barred_waits barred_completes) as (Hp & _ & _ & _ & Hi & _ & Hd & _).
  split_and!; [exact Hp|exact Hi|exact Hd].
Defined.

(** An edit is pushed. *)
Definition edited : Running ToyWorld unit := at_time 300 (with_event push_settling (Paths {["a"]}) (toy_new 0)).

Definition toy_published (path : WorkspacePath) (st : ManifestStore * ToyWorld) : Prop := path ∉ ms_pending_push st.1.

Lemma settling_law : PushSettles (H := toy_ports push_settling) toy_published.
Proof.
  constructor.
  - intros cap batch deletions evidence [store w] outcome st' path [= _ <-] Hin _. unfold toy_published. cbn. set_solver.
  - intros path store store' w Ht. unfold toy_published, same_tables in *. cbn.
    change (ms_pending_push store) with (ms_pending_push (store <| ms_faults := [] |>)). by rewrite <- Ht.
Qed.

Lemma edited_noted : "a" ∈ me_dirty (rn_engine edited).
Proof. apply (bool_decide_unpack _). vm_compute. exact I. Qed.

Lemma dirty_never_lost_witness :
  "a" ∈ me_dirty (rn_engine (worked push_settling edited))
  ∨ (run_due_work (H := toy_ports push_settling) edited).1 = Ok tt
    ∧ toy_published "a" (me_store (rn_engine (worked push_settling edited)), rn_world (worked push_settling edited)).
Proof.
  exact (dirty_never_lost (H := toy_ports push_settling) toy_published (PushSettles0 := settling_law) "a" edited _ _
           (worked_by push_settling edited) edited_noted).
Defined.

(** An edit whose push finds no network: tried again from the backoff. *)
Definition offline : Running ToyWorld unit := at_time 300 (with_event push_offline (Paths {["a"]}) (toy_new 0)).

Lemma offline_clock : ClockLaw (H := toy_ports push_offline).
Proof. constructor; cbn; [by intros cap scope st r st' [= _ <-]|by intros cap batch deletions evidence st r st' [= _ <-]]. Qed.

Lemma offline_runs : run_due_work (H := toy_ports push_offline) offline = (Ok tt, worked push_offline offline).
Proof. vm_compute. reflexivity. Qed.

Lemma offline_left : is_due (rn_engine offline) 300 = true ∧ deletion_blocked (me_degradation (rn_engine (worked push_offline offline))) = false
  ∧ bool_decide (me_degradation (rn_engine (worked push_offline offline)) = StoreUnavailable) = false
  ∧ idle (rn_engine (worked push_offline offline)) = false.
Proof. vm_compute. done. Qed.

Lemma no_stuck_work_witness : at_most (next_due (rn_engine (worked push_offline offline))) 30300.
Proof.
  destruct offline_left as (Hdue & Hb & Hst%bool_decide_eq_false & Hidle).
  exact (no_stuck_work (H := toy_ports push_offline) (H0 := offline_clock) offline (worked push_offline offline)
           Hdue eq_refl offline_runs Hb Hst Hidle).
Defined.

(** ** A scan owed while a scan runs *)

(** A watcher overflow, or a barrier. *)
Definition late_event (barrier : bool) : EngineEvent :=
  if barrier then EngineConvergenceBarrier 7 3 else FullScanRequired WatcherOverflow.

(** It arrives while the scan thread walks: the cycle it wakes does not scan. *)
Definition overflowed (barrier : bool) : Running ToyWorld unit :=
  scheduled (at_time 20 (scan_merged push_settling (worked push_settling
    (with_event push_settling (late_event barrier) (at_time 10 (begun push_settling (started push_settling (toy_new 0)))))))).

(** A scan that falls due during an authoritative scan is left without a wakeup.  In the
    loop of the daemon a watcher overflow, or the scan of a convergence barrier, that arrives
    while the scan thread walks is skipped by the cycle it wakes, which consumes the deadline;
    when the walk is merged and found nothing, the engine reports itself nominal, still owes
    the scan, and sleeps until the next event or the periodic audit, at least half an hour
    away. *)
Example scan_owed_during_scan_waits barrier :
  lives (H := toy_ports push_settling) (overflowed barrier)
  ∧ me_scan_required (rn_engine (overflowed barrier)) = true
  ∧ me_degradation (rn_engine (overflowed barrier)) = Nominal
  ∧ me_authoritative_scan_active (rn_engine (overflowed barrier)) = false
  ∧ ∃ due, next_due (rn_engine (overflowed barrier)) = Some due ∧ tw_now (rn_world (overflowed barrier)) = 20
      ∧ AUDIT_INTERVAL_MIN_MS ≤ due.
Proof.
  split; [unfold overflowed; auto 10 with alive|].
  destruct barrier; (split_and!; [vm_compute; reflexivity..|]); eexists; (split; [vm_compute; reflexivity|]); by vm_compute.
Qed.

(** ** A receipt before the scan it waits for *)

(** The root is away when a barrier asks for a scan; it is back when the scan thread starts. *)
Definition unmounted (s : Running ToyWorld unit) : Running ToyWorld unit :=
  {| rn_engine := rn_engine s; rn_world := {| tw_now := tw_now (rn_world s); tw_root := false |} |}.

Definition early_receipt : Running ToyWorld unit :=
  worked push_settling (at_time 40000 (begun push_settling (at_time 400
    (worked push_settling (with_event push_settling (EngineConvergenceBarrier 7 3)
      (unmounted (at_time 300 (started push_settling (toy_new 0))))))))).

Lemma alive_unmounted s : lives (H := toy_ports push_settling) s → lives (H := toy_ports push_settling) (unmounted s).
Proof. intros Hs. eapply lives_step; [done|apply step_world]. Qed.

(** A receipt may be issued before the scan it waits for.  A barrier asks for a full scan;
    if the root is away when its cycle runs and the recovery's authoritative scan starts once
    the root is back, the owed scan is handed to the scan thread and the next cycle, with
    nothing yet reported by it, acknowledges the barrier while the walk is still running. *)
Example receipt_before_scan :
  lives (H := toy_ports push_settling) early_receipt
  ∧ me_authoritative_scan_active (rn_engine early_receipt) = true
  ∧ is_some (me_completed_barriers (rn_engine early_receipt) !! 7) = true.
Proof.
  split_and!; [|vm_compute; reflexivity..]. unfold early_receipt.
  apply alive_worked, alive_at, alive_begun, alive_at, alive_worked, alive_event, alive_unmounted. auto with alive.
Qed.

(** ** A pending path leaves the table of a push *)

Definition w_still_pending (path : WorkspacePath) : bool :=
  bool_decide (path ∈ ms_pending_push (pu_store (w_push (w_swap w_push_deps)).2)).

Lemma w_new_forgotten : w_still_pending "new" = false.
Proof. vm_compute. reflexivity. Qed.

Lemma w_new_pending : "new" ∈ ms_pending_push w_push_store.
Proof. apply (bool_decide_unpack _). vm_compute. exact I. Qed.

Lemma pending_forgotten_settled_witness :
  row_settled (w_swap w_push_deps) Continuous (canonical_paths (w_swap w_push_deps) w_dirty)
    (pu_store (w_push (w_swap w_push_deps)).2) "new".
Proof.
  exact (proj2 (proj2 (proj2 (pending_forgotten_settled (w_swap w_push_deps) w_dirty Enforce Continuous w_pushing
    (w_push (w_swap w_push_deps)).2 _ "new" (surjective_pairing _) w_new_pending
    (bool_decide_eq_false_1 _ w_new_forgotten))))).
Defined.

(** ** An edit goes through the engine and its push *)

Definition w_deps_of (_ : unit) (_ : ToyWorld) : PushDeps := w_swap w_push_deps.
Definition w_objects_of (_ : ToyWorld) : w_host := {| wh_manifests := ∅; wh_queue := ∅; wh_blobs := ∅ |}.
Definition w_after (w : ToyWorld) (_ : Pushing w_host) : ToyWorld := w.

Definition w_host_ports : EnginePorts ToyWorld unit := host_ports (toy_ports push_settling) w_deps_of w_objects_of w_after.

Definition w_edited : Running ToyWorld unit :=
  {| rn_engine := on_event (λ _ path, path) (Paths {["new"]}) 0 (engine_new w_push_store tt); rn_world := toy_world 300 |}.

Definition w_cycled : Result unit CycleError * Running ToyWorld unit := run_due_work (H := w_host_ports) w_edited.

Lemma w_edited_noted : "new" ∈ me_dirty (rn_engine w_edited).
Proof. apply (bool_decide_unpack _). vm_compute. exact I. Qed.

Lemma w_cycled_run :
  run_due_work (H := host_ports (toy_ports push_settling) w_deps_of w_objects_of w_after) w_edited = (w_cycled.1, w_cycled.2).
Proof. unfold w_cycled, w_host_ports. apply surjective_pairing. Qed.

Definition notes_path (path : WorkspacePath) (s : Running ToyWorld unit) : bool := bool_decide (path ∈ me_dirty (rn_engine s)).

Lemma notes_path_false path s : notes_path path s = false → path ∉ me_dirty (rn_engine s).
Proof. apply bool_decide_eq_false. Qed.

Lemma w_new_unnoted : notes_path "new" w_cycled.2 = false.
Proof. vm_compute. reflexivity. Qed.

Lemma engine_edit_settled_witness :
  settled_by_push w_deps_of w_objects_of w_after "new" (me_store (rn_engine w_cycled.2), rn_world w_cycled.2).
Proof.
  destruct (engine_edit_settled (toy_ports push_settling) w_deps_of w_objects_of w_after "new" w_edited _ _
    w_cycled_run w_edited_noted) as [Hn|[_ Hs]].
  - exact (False_ind _ (notes_path_false _ _ w_new_unnoted Hn)).
  - exact Hs.
Defined.
