(* ===== verification/WatcherPaths.v ===== *)
(** * Watcher events and the policy

    Models how the daemon turns one watcher signal into an event of the engine
    ([bowline-daemon/src/daemon/watcher.rs], [watcher/destination.rs]), with the cache of loaded
    policies it asks ([daemon/sync/policy_cache.rs]), and the policy the stat walk asks
    ([classify] and [policy_syncs] of [manifest_engine/stat_walk.rs]).

    A path of an event comes with what [strip_prefix(root)] leaves of it and with what
    [symlink_metadata] says when the signal is handled.  The kinds of an event are those of the
    [notify] crate the code distinguishes. *)

From stdpp Require Import gmap.
From Stdlib Require Import Ascii.
From S2P Require Import Prelude.
From S2P Require Import Policy.
From S2P Require Import PolicyLoad.
From S2P Require Import ManifestTypes.
From S2P Require Import StatWalk.
From S2P Require Import Engine.
From S2P Require Import Paths.

(** ** The policy of the walk *)

Definition walk_classify (policy : UserPolicy) (project_view : bool) (facts : PathFacts) : PathPolicyDecision :=
  if project_view then classify_project_view_path facts policy else classify_path facts policy.

Definition walk_policy (policy : UserPolicy) : WalkPolicy := {|
  wp_syncs := λ project_view path is_dir len,
    policy_syncs_workspace_state (walk_classify policy project_view
      {| pa_relative_path := path; pa_is_dir := is_dir; pa_byte_len := len |});
  wp_recurse := λ project_view path is_dir len,
    policy_should_recurse (walk_classify policy project_view
      {| pa_relative_path := path; pa_is_dir := is_dir; pa_byte_len := len |}) policy path;
|}.

(** ** [policy_cache.rs] *)

Definition PolicyCache : Type := gmap string UserPolicy.

(** [Path::parent] as text, for a path [watcher_relative_path] normalized. *)
Definition policy_cache_key (relative_path : string) : string :=
  match rsplit_once "/" relative_path with Some (parent, _) => parent | None => "" end.

(** The policy and the cache after. *)
Definition drain_policy (root : PolicyDir) (relative_path : string) (cache : PolicyCache) : UserPolicy * PolicyCache :=
  let key := policy_cache_key relative_path in
  match cache !! key with
  | Some policy => (policy, cache)
  | None => let policy := load_for_path root relative_path in (policy, <[key := policy]> cache)
  end.

Definition path_file_name (relative_path : string) : string :=
  match rsplit_once "/" relative_path with Some (_, name) => name | None => relative_path end.

Definition invalidate_policy_cache_for_path (relative_path : string) (cache : PolicyCache) : PolicyCache :=
  if negb (path_file_name relative_path =? ".bowlineignore")%string then cache else
  let key := policy_cache_key relative_path in
  if (key =? "")%string then ∅
  else filter (λ '(cached_key, _), cached_key ≠ key ∧ starts_with (key +:+ "/") cached_key = false) cache.

(** ** Events *)

Inductive AccessMode := AccessModeRead | AccessModeOther.
Inductive AccessKind := AccessOpen | AccessRead | AccessClose (mode : AccessMode) | AccessOther.
Inductive RenameMode := RenameAny | RenameTo | RenameFrom | RenameBoth | RenameOther.
Inductive ModifyKind := ModifyName (mode : RenameMode) | ModifyMetadata | ModifyOther.
Inductive RemoveKind := RemoveAny | RemoveFile | RemoveFolder | RemoveOther.
Inductive EventKind :=
| EventAny | EventAccess (kind : AccessKind) | EventCreate | EventModify (kind : ModifyKind)
| EventRemove (kind : RemoveKind) | EventOther.

(** [symlink_metadata]: whether it is a directory, and its length. *)
Definition WatchedMetadata : Type := bool * Z.

Record EventPath := {
  (** [path.strip_prefix(root)], or the path itself if it is relative; [None] for an absolute
      path elsewhere *)
  ev_relative : option string;
  ev_metadata : option WatchedMetadata;
}.

Record WatcherEvent := { we_kind : EventKind; we_paths : list EventPath; we_need_rescan : bool }.

Inductive WatcherSignal :=
| SignalChanged (event : WatcherEvent)
| SignalRecoverable
| SignalLimited (reason : string)
| SignalOverflowLane.

Inductive WatcherOperation := OpCreate | OpDelete | OpRename | OpMetadata | OpModify.
#[export] Instance WatcherOperation_eq_dec : EqDecision WatcherOperation.
Proof. solve_decision. Defined.

Definition watcher_operation (kind : EventKind) : option WatcherOperation :=
  match kind with
  | EventAccess (AccessOpen | AccessRead | AccessClose AccessModeRead) => None
  | EventCreate => Some OpCreate
  | EventRemove _ => Some OpDelete
  | EventModify (ModifyName _) => Some OpRename
  | EventModify ModifyMetadata => Some OpMetadata
  | _ => Some OpModify
  end.

Definition watcher_relative_path (path : EventPath) : option string :=
  relative ← ev_relative path;
  let normalized := normalize_workspace_path relative in
  if starts_with ".." normalized then None else Some normalized.

(** Each path with the source of the rename it ends. *)
Definition watcher_event_paths (operation : WatcherOperation) (event : WatcherEvent)
    : list (EventPath * option string) :=
  match operation, we_paths event with
  | OpRename, source :: destination :: _ => [(destination, watcher_relative_path source)]
  | _, paths => (λ path, (path, None)) <$> paths
  end.

Definition watcher_should_record (classification : PathClassification) (mode : MaterializationMode) : bool :=
  match classification, mode with
  | ClassWorkspaceSync, _ | ClassProjectEnv, _ | ClassSecretLooking, _ | ClassLargeFile, ModeLazy => true
  | _, _ => false
  end.

Definition rename_source_dirty_path (source_path : option string) : option string :=
  source ← source_path;
  if (source =? "")%string || is_private_workspace_state_path source || is_work_view_namespace_path source
     || is_git_derivable_volatile_path source
  then None else Some source.

(** The facts of a path whose metadata is [metadata]. *)
Definition watched_facts (relative_path : string) (metadata : option WatchedMetadata) : PathFacts :=
  {| pa_relative_path := relative_path;
     pa_is_dir := match metadata with Some (is_dir, _) => is_dir | None => false end;
     pa_byte_len := match metadata with Some (false, len) => Some len | _ => None end |}.

Section Watched.
(** The tree the loader sees, and [symlink_metadata] below the root. *)
Context (root : PolicyDir) (metadata_at : string → option WatchedMetadata).

Definition watcher_destination (path : EventPath) (cache : PolicyCache) : option string * PolicyCache :=
  match watcher_relative_path path with
  | None => (None, cache)
  | Some relative_path =>
      if (relative_path =? "")%string || is_private_workspace_state_path relative_path
         || is_work_view_namespace_path relative_path || is_git_derivable_volatile_path relative_path
      then (None, cache) else
      let cache := invalidate_policy_cache_for_path relative_path cache in
      let '(policy, cache) := drain_policy root relative_path cache in
      let decision := classify_path (watched_facts relative_path (ev_metadata path)) policy in
      (if watcher_should_record (pd_classification decision) (pd_mode decision) then Some relative_path else None, cache)
  end.

Definition watcher_recursive_root (relative_path : string) (cache : PolicyCache) : bool * PolicyCache :=
  if (relative_path =? "")%string || is_private_workspace_state_path relative_path
     || is_work_view_namespace_path relative_path then (false, cache)
  else if is_git_derivable_volatile_path relative_path then (is_git_directory_path relative_path, cache)
  else
    let cache := invalidate_policy_cache_for_path relative_path cache in
    let '(policy, cache) := drain_policy root relative_path cache in
    let decision := classify_path (watched_facts relative_path (metadata_at relative_path)) policy in
    (policy_should_recurse decision policy relative_path, cache).

(** A path added to the roots if it is one. *)
Definition add_recursive_root (path : option string) (state : gset string * PolicyCache) : gset string * PolicyCache :=
  match path with
  | None => state
  | Some path =>
      let '(recursive, cache) := watcher_recursive_root path state.2 in
      (if recursive then {[path]} ∪ state.1 else state.1, cache)
  end.

Definition recursive_without_metadata (operation : WatcherOperation) (kind : EventKind) : bool :=
  bool_decide (operation = OpDelete)
  || match kind with EventModify (ModifyName (RenameFrom | RenameAny)) => true | _ => false end.

Definition watcher_event_recursive_roots (event : WatcherEvent) (cache : PolicyCache) : gset string * PolicyCache :=
  match watcher_operation (we_kind event) with
  | None => (∅, cache)
  | Some operation =>
      foldl (λ state '(path, source_path),
        let destination_is_directory := match ev_metadata path with Some (is_dir, _) => is_dir | None => false end in
        if negb (recursive_without_metadata operation (we_kind event)) && negb destination_is_directory then state
        else add_recursive_root (watcher_relative_path path) (add_recursive_root source_path state))
        (∅, cache) (watcher_event_paths operation event)
  end.

Definition watcher_event_engine_paths (event : WatcherEvent) (cache : PolicyCache) : gset string * PolicyCache :=
  match watcher_operation (we_kind event) with
  | None => (∅, cache)
  | Some operation =>
      foldl (λ '(paths, cache) '(path, source_path),
        let paths := match rename_source_dirty_path source_path with Some source => {[source]} ∪ paths | None => paths end in
        let '(destination, cache) := watcher_destination path cache in
        (match destination with Some destination => {[destination]} ∪ paths | None => paths end, cache))
        (∅, cache) (watcher_event_paths operation event)
  end.

Definition watcher_signal_engine_event (signal : WatcherSignal) (cache : PolicyCache) : option EngineEvent * PolicyCache :=
  match signal with
  | SignalChanged event =>
      if we_need_rescan event then (Some (FullScanRequired WatcherOverflow), cache) else
      let '(roots, cache) := watcher_event_recursive_roots event cache in
      if negb (bool_decide (roots = ∅)) then (Some (RecursivePaths roots), cache) else
      let '(paths, cache) := watcher_event_engine_paths event cache in
      (if bool_decide (paths = ∅) then None else Some (Paths paths), cache)
  | SignalRecoverable => (Some (FullScanRequired WatcherOverflow), cache)
  | SignalLimited _ => (Some (FullScanRequired WatcherDisconnected), cache)
  | SignalOverflowLane => (None, cache)
  end.

End Watched.
