(* ===== verification/WatchedTheorems.v ===== *)
(** * Watcher events: theorems

    With a fresh cache of policies the watcher records exactly the paths the policy of the
    whole workspace syncs, the cache stays fresh over the edits of marker files, and the cases
    in which the watcher and the walk disagree. *)

From stdpp Require Import gmap.
From Stdlib Require Import Ascii.
From S2P Require Import Prelude.
From S2P Require Import Policy.
From S2P Require Import PolicyLoad.
From S2P Require Import Asides.
From S2P Require Import PolicyTheorems.
From S2P Require Import PolicyReach.
From S2P Require Import ManifestTypes.
From S2P Require Import FsGuard.
From S2P Require Import StatWalk.
From S2P Require Import Engine.
From S2P Require Import WatcherPaths.
From S2P Require Import Paths.

(** ** Names and keys *)

Lemma plain_entry_name n : plain n = true → entry_name n = true.
Proof.
  unfold plain, entry_name. cbn. rewrite orb_false_r, negb_orb. intros H. apply andb_true_iff in H as [[[[??]%andb_true_iff _]%andb_true_iff ?]%andb_true_iff ?].
  by repeat (apply andb_true_iff; split).
Qed.

Lemma plain_entry_names l : Forall (λ n, plain n = true) l → Forall (λ n, entry_name n = true) l.
Proof. intros Hl. eapply Forall_impl; [exact Hl|apply plain_entry_name]. Qed.

Lemma rsplit_no_slash s : no_char slash s = true → rsplit_once "/" s = None.
Proof.
  induction s as [|c s IH]; [done|]. intros Hs. cbn [no_char all_bytes] in Hs. apply andb_true_iff in Hs as [Hc Hs].
  cbn [rsplit_once]. rewrite IH by done. cbn [strip_prefix]. apply negb_true_iff in Hc. rewrite Ascii.eqb_sym in Hc. by rewrite Hc.
Qed.

Lemma rsplit_join parts name : Forall segment parts → segment name →
  rsplit_once "/" (join (parts ++ [name])) = if decide (parts = []) then None else Some (join parts, name).
Proof.
  intros Hp [Hn _]. case_decide as Hd; [subst; by apply rsplit_no_slash|]. rewrite join_below by done.
  apply rsplit_once_app. change ("/" +:+ join [name]) with (String slash name). cbn [rsplit_once].
  by rewrite rsplit_no_slash.
Qed.

Lemma key_join parts name : Forall segment parts → segment name → policy_cache_key (join (parts ++ [name])) = join parts.
Proof. intros Hp Hn. unfold policy_cache_key. rewrite rsplit_join by done. case_decide; [by subst|done]. Qed.

Lemma file_name_join parts name : Forall segment parts → segment name → path_file_name (join (parts ++ [name])) = name.
Proof. intros Hp Hn. unfold path_file_name. rewrite rsplit_join by done. case_decide; [by subst|done]. Qed.

(** ** The cache *)

(** Every policy of the cache is what a load for a path of its directory gives now. *)
Definition cache_fresh (root : PolicyDir) (cache : PolicyCache) : Prop :=
  ∀ parts name policy, Forall (λ n, entry_name n = true) (parts ++ [name]) → cache !! join parts = Some policy →
    policy = load_for_path root (join (parts ++ [name])).

Lemma load_for_path_parts root parts name : Forall (λ n, entry_name n = true) (parts ++ [name]) →
  load_for_path root (join (parts ++ [name])) = {| up_rules := read_ignore_rules "" (pd_marker root) ++ read_on_the_way "" (Some root) parts |}.
Proof. intros Hn. unfold load_for_path. by rewrite parent_parts_join. Qed.

Lemma drain_exact root cache parts name : cache_fresh root cache → Forall (λ n, entry_name n = true) (parts ++ [name]) →
  ∃ cache', drain_policy root (join (parts ++ [name])) cache = (load_for_path root (join (parts ++ [name])), cache')
            ∧ cache_fresh root cache'.
Proof.
  intros Hf Hn. pose proof (entry_names_segments _ Hn) as [Hs Hsn]%Forall_app. rewrite Forall_singleton in Hsn.
  unfold drain_policy. rewrite key_join by done. destruct (cache !! join parts) as [policy|] eqn:E.
  - exists cache. by rewrite (Hf parts name policy Hn E).
  - eexists. split; [done|]. intros parts' name' policy Hn' [[Hj <-]|[_ Hl]]%lookup_insert_Some.
    + pose proof (entry_names_segments _ Hn') as [Hs' _]%Forall_app. apply join_inj in Hj as <-; [|done..].
      by rewrite !load_for_path_parts.
    + by apply Hf.
Qed.

Lemma cache_fresh_subset root cache cache' : cache_fresh root cache → cache' ⊆ cache → cache_fresh root cache'.
Proof. intros Hf Hsub parts name policy Hn Hl. eapply Hf; [done|]. by eapply lookup_weaken. Qed.

Lemma invalidate_subset path cache : invalidate_policy_cache_for_path path cache ⊆ cache.
Proof.
  unfold invalidate_policy_cache_for_path. repeat case_match; [done|apply map_empty_subseteq|apply map_filter_subseteq].
Qed.

(** ** Edits of marker files *)

(** The tree after the marker file of the directory [parts] was written or removed. *)
Fixpoint set_marker (parts : list string) (contents : option string) (d : PolicyDir) : PolicyDir :=
  match parts, d with
  | [], MkPolicyDir _ listable entries => MkPolicyDir contents listable entries
  | part :: parts, MkPolicyDir marker listable entries =>
      MkPolicyDir marker listable
        (List.map (λ '(name, listed, target),
           (name, listed, if (name =? part)%string then option_map (set_marker parts contents) target else target)) entries)
  end.

Lemma set_marker_other k contents d : k ≠ [] → pd_marker (set_marker k contents d) = pd_marker d.
Proof. destruct k, d; done. Qed.

Lemma named_child_set part k contents name d :
  named_child name (set_marker (part :: k) contents d)
    = if (name =? part)%string then option_map (set_marker k contents) (named_child name d) else named_child name d.
Proof.
  destruct d as [marker listable entries]. unfold named_child. cbn [set_marker pd_entries].
  induction entries as [|[[n listed] target] entries IH]; cbn; [by destruct (name =? part)%string|].
  destruct (String.eqb_spec n name) as [->|]; [|apply IH].
  destruct (String.eqb_spec name part) as [->|]; destruct target; cbn; done || apply IH.
Qed.

Lemma read_set_marker k contents : ∀ parts rel d, ¬ k `prefix_of` parts →
  read_on_the_way rel (Some (set_marker k contents d)) parts = read_on_the_way rel (Some d) parts.
Proof.
  induction k as [|q k IH]; intros parts rel d Hk; [destruct Hk; apply prefix_nil|].
  destruct parts as [|p parts]; [done|]. cbn [read_on_the_way]. cbn [mbind option_bind].
  rewrite named_child_set. destruct (String.eqb_spec p q) as [->|]; [|done].
  destruct (named_child q d) as [child|]; [|done]. cbn [option_map].
  assert (¬ k `prefix_of` parts) as Hk' by (intros ?; by apply Hk, prefix_cons).
  rewrite IH by done. rewrite set_marker_other; [done|]. intros ->. apply Hk', prefix_nil.
Qed.

Definition marker_path (directory : list string) : string := join (directory ++ [".bowlineignore"]).

(** The event of a marker file drops every cached policy that read it. *)
Lemma invalidate_fresh root cache k contents : cache_fresh root cache → Forall segment k →
  cache_fresh (set_marker k contents root) (invalidate_policy_cache_for_path (marker_path k) cache).
Proof.
  intros Hf Hk parts name policy Hn Hl. unfold invalidate_policy_cache_for_path, marker_path in Hl.
  assert (segment ".bowlineignore") as Hm by done. rewrite file_name_join, key_join in Hl by done. cbn [negb] in Hl.
  rewrite String.eqb_refl in Hl. cbn [negb] in Hl.
  pose proof (entry_names_segments _ Hn) as [Hs _]%Forall_app.
  destruct (String.eqb_spec (join k) "") as [|Hne]; [by apply lookup_empty_Some in Hl|].
  assert (k ≠ []) as Hkne by (by intros ->). apply map_lookup_filter_Some in Hl as [Hl [Hkey Hbelow]].
  rewrite (Hf _ _ _ Hn Hl), !load_for_path_parts, set_marker_other, read_set_marker; [done| |done..].
  intros [[|n r] ->]; [by rewrite app_nil_r in Hkey|]. rewrite join_below in Hbelow by done.
  apply not_true_iff_false in Hbelow. apply Hbelow, starts_with_spec. exists (join (n :: r)). by rewrite str_app_assoc.
Qed.

(** The marker file of a directory is edited and its event handled, or a path is looked up. *)
Inductive CacheStep := EditMarker (directory : list string) (contents : option string) | LookUp (parts : list string) (name : string).

Definition cache_step (state : PolicyDir * PolicyCache) (step : CacheStep) : PolicyDir * PolicyCache :=
  match step with
  | EditMarker k contents => (set_marker k contents state.1, invalidate_policy_cache_for_path (marker_path k) state.2)
  | LookUp parts name => (state.1, (drain_policy state.1 (join (parts ++ [name])) state.2).2)
  end.

Definition step_names (step : CacheStep) : bool :=
  match step with
  | EditMarker k _ => forallb entry_name k
  | LookUp parts name => forallb entry_name (parts ++ [name])
  end.

Lemma forallb_names l : forallb entry_name l = true → Forall (λ n, entry_name n = true) l.
Proof. rewrite forallb_forall, List.Forall_forall. done. Qed.

Lemma cache_steps_fresh steps : ∀ state, cache_fresh state.1 state.2 → forallb step_names steps = true →
  let state' := foldl cache_step state steps in cache_fresh state'.1 state'.2.
Proof.
  induction steps as [|step steps IH]; intros [root cache] Hf Hn; [done|]. cbn in Hn. apply andb_true_iff in Hn as [Hs Hn].
  cbn [foldl]. apply IH; [|done]. destruct step as [k contents|parts name]; cbn in *.
  - by apply invalidate_fresh, entry_names_segments, forallb_names.
  - destruct (drain_exact root cache parts name) as (cache' & -> & Hf'); [done|by apply forallb_names|done].
Qed.

(** ** What the watcher records *)

Lemma record_syncs rule path facts :
  let decision := apply_rule rule path facts in
  watcher_should_record (pd_classification decision) (pd_mode decision) = policy_syncs_workspace_state decision.
Proof.
  assert (∀ h, let decision := classify_builtin path (pa_is_dir facts) (pa_byte_len facts) h in
    watcher_should_record (pd_classification decision) (pd_mode decision) = policy_syncs_workspace_state decision) as Hb.
  { intros h. unfold classify_builtin, generated_classification, generated_mode. repeat case_match; done. }
  unfold apply_rule. destruct rule as [r|]; [|apply Hb]. destruct (ir_include r); [apply Hb|].
  destruct (preserves_safety_classification _); [apply Hb|done].
Qed.

(** A path the watcher leaves out without asking the rules does not sync. *)
Lemma volatile_never_syncs rule l facts : l ≠ [] → Forall (λ n, entry_name n = true) l →
  is_portable_git_worktree_link_policy_path (join l) (pa_is_dir facts) = false →
  is_work_view_namespace_path (join l) = true ∨ is_git_derivable_volatile_path (join l) = true →
  policy_syncs_workspace_state (apply_rule rule (join l) facts) = false.
Proof.
  intros Hne Hl Hlink Hor. pose proof (entry_names_segments l Hl) as Hs.
  assert (∀ h, classify_builtin (join l) (pa_is_dir facts) (pa_byte_len facts) h = local_decision) as Hb.
  { intros h. unfold classify_builtin, is_git_transient_path. rewrite components_join, Hlink by done.
    destruct (is_materialization_temp_path l); [done|]. destruct (is_work_view_namespace_path (join l)); [done|].
    destruct Hor as [?|Hv]; [done|]. by rewrite Hv. }
  unfold apply_rule. rewrite !Hb. destruct rule as [r|]; [|done]. by destruct (ir_include r).
Qed.

(** ** Properties *)

(** The cache of policies is transparent: after any edits of marker files, each followed by
    its event, and any lookups between them, a lookup gives the policy a load gives now. *)
Theorem policy_cache_exact root steps parts name :
  forallb step_names steps = true → forallb entry_name (parts ++ [name]) = true →
  let state := foldl cache_step (root, ∅) steps in
  let path := join (parts ++ [name]) in
  (drain_policy state.1 path state.2).1 = load_for_path state.1 path.
Proof.
  intros Hs Hn state path. assert (cache_fresh state.1 state.2) as Hf.
  { apply cache_steps_fresh; [|done]. intros ???? Hl. cbn in Hl. by apply lookup_empty_Some in Hl. }
  destruct (drain_exact state.1 state.2 parts name Hf (forallb_names _ Hn)) as (cache' & Hd & _).
  unfold path. by rewrite Hd.
Qed.

(** C25: The watcher records exactly what the scan would sync.  With fresh cached policies, for
    a path the whole load enters the directories of and that is no worktree link and has no
    name beginning with two dots first, an event gives the path if and only if it is not
    private state and the policy of the whole workspace syncs it; and the cache stays fresh. *)
Theorem watcher_records_what_syncs root parts name metadata cache :
  let path := join (parts ++ [name]) in
  let facts := watched_facts path metadata in
  well_named root = true → Forall (λ n, plain n = true) (parts ++ [name]) → load_enters parts root = true →
  cache_fresh root cache → starts_with ".." path = false →
  is_portable_git_worktree_link_policy_path path (pa_is_dir facts) = false →
  let '(recorded, cache') := watcher_destination root {| ev_relative := Some path; ev_metadata := metadata |} cache in
  (recorded = Some path ↔
     is_private_workspace_state_path path = false
     ∧ wp_syncs (walk_policy (load root)) false path (pa_is_dir facts) (pa_byte_len facts) = true)
  ∧ (recorded = None ∨ recorded = Some path) ∧ cache_fresh root cache'.
Proof.
  intros path facts Hw Hp He Hf Hdots Hlink. pose proof (plain_entry_names _ Hp) as Hn.
  destruct (plain_join _ Hp) as (Hnorm & _ & _). pose proof (not_nil_snoc parts name) as Hne.
  assert (join (parts ++ [name]) ≠ "") as Hjne by (by apply join_ne; [apply entry_names_segments|]).
  unfold watcher_destination, watcher_relative_path. cbn [ev_relative ev_metadata mbind option_bind]. subst path.
  rewrite Hnorm, Hdots. apply String.eqb_neq in Hjne. rewrite Hjne. cbn [orb walk_policy wp_syncs walk_classify].
  change {| pa_relative_path := _; pa_is_dir := _; pa_byte_len := _ |} with facts.
  assert (∀ policy, classify_path facts policy = apply_rule (match_rule policy (join (parts ++ [name]))) (join (parts ++ [name])) facts) as Hc
    by (intros policy; unfold classify_path; cbn [facts watched_facts pa_relative_path]; by rewrite normalize_relative_join).
  destruct (is_private_workspace_state_path _); [by split; [naive_solver|split; [left|]]|]. cbn [orb].
  destruct (is_work_view_namespace_path _) eqn:Ework.
  { rewrite Hc, volatile_never_syncs by (done || by left). by split; [naive_solver|split; [left|]]. }
  destruct (is_git_derivable_volatile_path _) eqn:Egit.
  { rewrite Hc, volatile_never_syncs by (done || by right). by split; [naive_solver|split; [left|]]. }
  cbn [orb]. set (cache1 := invalidate_policy_cache_for_path _ cache).
  assert (cache_fresh root cache1) as Hf1 by (eapply cache_fresh_subset; [done|apply invalidate_subset]).
  destruct (drain_exact root cache1 parts name Hf1 Hn) as (cache' & -> & Hf').
  pose proof (path_load_exact root parts name facts Hw Hn eq_refl He) as Hload.
  change (pa_relative_path facts) with (join (parts ++ [name])) in Hload.
  change (watched_facts _ metadata) with facts. rewrite Hload, Hc, record_syncs.
  destruct (policy_syncs_workspace_state _); split; try naive_solver; by split; [(left + right)|].
Qed.
