(* ===== verification/PolicyWitnesses.v ===== *)
(** * Path policy and watcher events: concrete runs

    A small workspace on which the theorems of the policy apply, and the workspaces on which
    the watcher and the scan disagree. *)

From stdpp Require Import gmap.
From Stdlib Require Import Ascii.
From S2P Require Import Prelude.
From S2P Require Import Policy.
From S2P Require Import PolicyLoad.
From S2P Require Import PolicyTheorems.
From S2P Require Import PolicyReach.
From S2P Require Import ManifestTypes.
From S2P Require Import StatWalk.
From S2P Require Import Engine.
From S2P Require Import WatcherPaths.
From S2P Require Import WatchedTheorems.
From S2P Require Import Paths.

(** ** A workspace *)

Definition plain_dir (marker : option string) (entries : list (string * ListedAs * option PolicyDir)) : PolicyDir :=
  MkPolicyDir marker true entries.
Definition subdir (name : string) (d : PolicyDir) : string * ListedAs * option PolicyDir := (name, ListedDirectory, Some d).
Definition lines_of (l : list string) : option string := Some (String.concat (utf8 [10]%nat) l).
Definition file_facts (path : string) : PathFacts :=
  {| pa_relative_path := path; pa_is_dir := false; pa_byte_len := Some 12 |}.

(** [a/.bowlineignore] ignores logs, [a/b/.bowlineignore] takes one back, and the root takes
    back a file of a generated directory. *)
Definition workspace : PolicyDir :=
  plain_dir (lines_of ["!dist/asset.js"; "scratch/"])
    [subdir "a" (plain_dir (lines_of ["# logs"; "*.log"])
       [subdir "b" (plain_dir (lines_of ["!secret.log"]) []); subdir "c" (plain_dir None [])]);
     subdir "dist" (plain_dir None []); ("link", ListedOther, None)].

Definition class_of (policy : UserPolicy) (path : string) : PathClassification :=
  pd_classification (classify_path (file_facts path) policy).

Example classes :
  class_of (load workspace) <$> ["a/b/secret.log"; "a/c/x.log"; "dist/asset.js"; "dist/other.js"; "scratch/x"; "a/.env"; "k.pem"]
  = [ClassWorkspaceSync; ClassLocalOnly; ClassWorkspaceSync; ClassGenerated; ClassLocalOnly; ClassProjectEnv; ClassSecretLooking].
Proof. by vm_compute. Qed.

(** ** Witnesses *)

Lemma scoped_load_exact_witness :
  well_named workspace = true ∧
  classify_path (file_facts "a/b/secret.log") (load_scoped workspace {["a/b"; "a/c"]})
    = classify_path (file_facts "a/b/secret.log") (load workspace).
Proof.
  split; [reflexivity|]. apply (scoped_load_exact workspace {["a/b"; "a/c"]} "a/b"); [reflexivity|set_solver|].
  right. exists "secret.log". reflexivity.
Defined.

Lemma names_true l : forallb entry_name l = true → Forall (λ n, entry_name n = true) l.
Proof. apply forallb_names. Qed.

Lemma synced_path_reached_witness :
  policy_syncs_workspace_state (classify_path (file_facts "dist/asset.js") (load workspace)) = true ∧
  policy_should_recurse (classify_path {| pa_relative_path := "dist"; pa_is_dir := true; pa_byte_len := Some 96 |} (load workspace))
    (load workspace) "dist" = true.
Proof.
  split; [vm_compute; reflexivity|].
  apply (synced_path_reached workspace ["dist"] ["asset.js"] (file_facts "dist/asset.js") (Some 96));
    [reflexivity|done|done|apply names_true; reflexivity|set_solver|reflexivity|vm_compute; reflexivity| |vm_compute; reflexivity].
  intros rule Hr. vm_compute in Hr. discriminate Hr.
Defined.

Definition cache_edits : list CacheStep :=
  [LookUp ["a"; "b"] "x.log"; EditMarker ["a"] None; LookUp ["a"; "b"] "y.log"; EditMarker ["a"; "b"] (lines_of ["*.log"]);
   LookUp ["a"; "c"] "z.log"].

Lemma policy_cache_exact_witness :
  forallb step_names cache_edits = true ∧
  let state := foldl cache_step (workspace, ∅) cache_edits in
  (drain_policy state.1 "a/b/x.log" state.2).1 = load_for_path state.1 "a/b/x.log".
Proof. split; [reflexivity|]. apply (policy_cache_exact workspace cache_edits ["a"; "b"] "x.log"); reflexivity. Defined.

Lemma watcher_records_what_syncs_witness :
  let '(recorded, cache') :=
    watcher_destination workspace {| ev_relative := Some "a/b/secret.log"; ev_metadata := Some (false, 12) |} ∅ in
  (recorded = Some "a/b/secret.log" ↔
     is_private_workspace_state_path "a/b/secret.log" = false
     ∧ wp_syncs (walk_policy (load workspace)) false "a/b/secret.log" false (Some 12) = true)
  ∧ (recorded = None ∨ recorded = Some "a/b/secret.log") ∧ cache_fresh workspace cache'.
Proof.
  apply (watcher_records_what_syncs workspace ["a"; "b"] "secret.log" (Some (false, 12)) ∅);
    [reflexivity| |reflexivity| |reflexivity|reflexivity].
  - apply List.Forall_forall. apply forallb_forall. reflexivity.
  - intros parts name policy _ Hl. by apply lookup_empty_Some in Hl.
Defined.

(** ** Where the watcher and the scan disagree *)

Definition edit_of (path : string) : WatcherSignal :=
  SignalChanged {| we_kind := EventModify ModifyOther; we_need_rescan := false;
                   we_paths := [{| ev_relative := Some path; ev_metadata := Some (false, 12) |}] |}.

(** An edit of [path] is handed to the engine as dirty, through the cache [cache]. *)
Definition handed_over (root : PolicyDir) (cache : PolicyCache) (path : string) : bool :=
  match (watcher_signal_engine_event root (λ _, Some (false, 12)) (edit_of path) cache).1 with
  | Some (Paths paths) => bool_decide (path ∈ paths)
  | _ => false
  end.

(** The scan of the whole workspace enters [directory], and syncs [path] where it comes to it. *)
Definition scan_enters (root : PolicyDir) (directory : string) : bool :=
  de_recurse (walk_decision (walk_policy (load root)) directory
    {| ob_kind := Directory; ob_size := 96; ob_mode := 493; ob_symlink_target := None;
       ob_fingerprint := {| fp_mtime_ns := 0; fp_ctime_ns := 0; fp_inode := 1; fp_dev := 1 |} |} false).
Definition scan_syncs (root : PolicyDir) (path : string) : bool :=
  wp_syncs (walk_policy (load root)) false path false (Some 12).

(** A directory ignored by its bare name. *)
Definition ignored_notes : PolicyDir := plain_dir (lines_of ["notes"]) [subdir "notes" (plain_dir None [])].
(** An include with a wildcard before a generated directory. *)
Definition included_dist : PolicyDir :=
  plain_dir (lines_of ["!*/dist/keep.js"]) [subdir "app" (plain_dir None [subdir "dist" (plain_dir None [])])].
(** A repository inside a dependency directory. *)
Definition nested_repository : PolicyDir :=
  plain_dir None [subdir "node_modules" (plain_dir None [subdir "lib" (plain_dir None [subdir ".git" (plain_dir None [])])])].
(** A marker file in a generated directory. *)
Definition marker_in_dist : PolicyDir := plain_dir None [subdir "dist" (plain_dir (lines_of ["!keep.js"]) [])].
(** A directory whose rules are cached, and the directory moved to its place. *)
Definition before_rename : PolicyDir := plain_dir None [subdir "a" (plain_dir (lines_of ["*.log"]) [])].
Definition after_rename : PolicyDir := plain_dir None [subdir "a" (plain_dir None [])].

(** Where watcher and scan disagree: the watcher hands over paths the scan never comes to (in a directory
    ignored by its bare name, in a generated directory taken back by an include with a wildcard
    before it or by a marker file inside it, and the Git state of a repository in a dependency
    directory); it leaves out paths the scan syncs (a worktree link, a top-level name that begins
    with two dots); and after a directory was moved it still uses the rules of the directory
    that was there. *)
Example watch_and_scan_disagree :
  (handed_over ignored_notes ∅ "notes/a.txt" = true ∧ scan_enters ignored_notes "notes" = false)
  ∧ (handed_over included_dist ∅ "app/dist/keep.js" = true ∧ scan_enters included_dist "app/dist" = false)
  ∧ (handed_over marker_in_dist ∅ "dist/keep.js" = true ∧ scan_enters marker_in_dist "dist" = false)
  ∧ (handed_over nested_repository ∅ "node_modules/lib/.git/HEAD" = true ∧ scan_enters nested_repository "node_modules" = false)
  ∧ (scan_syncs workspace "feature/.git" = true ∧ handed_over workspace ∅ "feature/.git" = false)
  ∧ (scan_syncs workspace "..data" = true ∧ handed_over workspace ∅ "..data" = false)
  ∧ (scan_syncs after_rename "a/x.log" = true ∧
     let cache := (watcher_signal_engine_event before_rename (λ _, None) (edit_of "a/x.log") ∅).2 in
     let renamed := SignalChanged {| we_kind := EventModify (ModifyName RenameBoth); we_need_rescan := false;
                      we_paths := [{| ev_relative := Some "b"; ev_metadata := None |};
                                   {| ev_relative := Some "a"; ev_metadata := Some (true, 96) |}] |} in
     let cache := (watcher_signal_engine_event after_rename (λ _, Some (true, 96)) renamed cache).2 in
     handed_over after_rename cache "a/x.log" = false).
Proof. vm_compute. repeat split. Qed.
