(* ===== verification/Ingress.v ===== *)
(** * Watcher ingress

    Models [bowline-daemon/src/manifest_driver/watcher_ingress.rs]: the bounded accumulator
    between the watcher's callbacks and the engine's thread.  Any number of callbacks run
    [observe] while the engine drains, so both are sequences of atomic steps on the shared
    state: a lock, three atomics and a channel of one unit.  The accumulator owns both ends of
    the channel, so a send finds it free or full, never disconnected.  The atomics are
    sequentially consistent here; the code orders them by Acquire and Release.

    [Owed] is a ghost: what callbacks observed and no drain has taken. *)

From stdpp Require Import gmap.
From S2P Require Import Prelude.
From S2P Require Import Engine.
From S2P Require Import Paths.
Local Open Scope record_scope.

Definition MAX_ACCUMULATED_ROOTS : nat := 256.

Inductive WatcherIngressLoss := LockContended | CapacityExceeded | ExplicitFullScan | ActivityWatermarkExhausted.
Inductive WatcherIngressObservation := Accumulated | DetailCollapsed (loss : WatcherIngressLoss) | EngineStopped.

Record AccumulatorState := { as_paths : gset string; as_recursive_paths : gset string }.
Definition AccumulatorState_default : AccumulatorState := {| as_paths := ∅; as_recursive_paths := ∅ |}.

Record WatcherIngressSnapshot := { is_paths : gset string; is_recursive_paths : gset string; is_scan_required : bool }.

Definition into_events (s : WatcherIngressSnapshot) : list EngineEvent :=
  (if bool_decide (is_paths s = ∅) then [] else [Engine.Paths (is_paths s)])
  ++ (if bool_decide (is_recursive_paths s = ∅) then [] else [RecursivePaths (is_recursive_paths s)])
  ++ (if is_scan_required s then [FullScanRequired IngressDetailCollapsed] else []).

(** The shared state. *)
Record WatcherIngressAccumulator := {
  wi_state : AccumulatorState;
  (** the mutex: held by some thread, or poisoned by one that panicked *)
  wi_locked : bool;
  wi_poisoned : bool;
  wi_detail_collapsed : bool;
  wi_activity_watermark : Z;
  wi_wake_pending : bool;
  wi_connected : bool;
  (** the channel holds its unit *)
  wi_wake : bool;
}.
#[export] Instance WatcherIngressAccumulator_eta : Eta WatcherIngressAccumulator := λ s,
  Build_WatcherIngressAccumulator (wi_state s) (wi_locked s) (wi_poisoned s) (wi_detail_collapsed s)
    (wi_activity_watermark s) (wi_wake_pending s) (wi_connected s) (wi_wake s).

Definition accumulator_new : WatcherIngressAccumulator := {|
  wi_state := AccumulatorState_default; wi_locked := false; wi_poisoned := false; wi_detail_collapsed := false;
  wi_activity_watermark := 0; wi_wake_pending := false; wi_connected := true; wi_wake := false |}.

(** ** Merging, under the lock *)

Definition accumulated (state : AccumulatorState) : nat := size (as_paths state) + size (as_recursive_paths state).

(** The state after; the flag is stored next. *)
Definition retain_latest_paths (paths : gset string) (recursive : bool) : AccumulatorState :=
  if (size paths <=? MAX_ACCUMULATED_ROOTS)%nat
  then if recursive then {| as_paths := ∅; as_recursive_paths := paths |}
       else {| as_paths := paths; as_recursive_paths := ∅ |}
  else AccumulatorState_default.

(** The state after and the outcome; every collapsed outcome stores the flag. *)
Definition merge_event (state : AccumulatorState) (event : EngineEvent) : AccumulatorState * WatcherIngressObservation :=
  match event with
  | Engine.Paths paths =>
      if (MAX_ACCUMULATED_ROOTS <? accumulated state + size paths)%nat
      then (retain_latest_paths paths false, DetailCollapsed CapacityExceeded)
      else ({| as_paths := as_paths state ∪ paths; as_recursive_paths := as_recursive_paths state |}, Accumulated)
  | RecursivePaths paths =>
      if (MAX_ACCUMULATED_ROOTS <? accumulated state + size paths)%nat
      then (retain_latest_paths paths true, DetailCollapsed CapacityExceeded)
      else ({| as_paths := as_paths state; as_recursive_paths := as_recursive_paths state ∪ paths |}, Accumulated)
  | _ => (state, DetailCollapsed ExplicitFullScan)
  end.

(** ** Callbacks *)

(** Where a thread that runs [observe] (or [disconnect]) is: the next atomic step. *)
Inductive CallbackPc :=
| LoadConnected (event : EngineEvent)
| Watermark (event : EngineEvent)
| TryLock (event : EngineEvent)
| Merge (event : EngineEvent)
| StoreCollapsed (locked : bool) (outcome : WatcherIngressObservation)
| Unlock (outcome : WatcherIngressObservation)
| ArmWake (outcome : WatcherIngressObservation)
| SendWake (outcome : WatcherIngressObservation)
| Disconnect
| Returned (outcome : WatcherIngressObservation).

(** What was observed and not yet taken: exact paths, recursive ones, a scan. *)
Record Owed := { ow_paths : gset string; ow_recursive : gset string; ow_scan : bool }.
Definition owe_nothing : Owed := {| ow_paths := ∅; ow_recursive := ∅; ow_scan := false |}.
Definition owe (owed : Owed) (event : EngineEvent) : Owed :=
  match event with
  | Engine.Paths paths => {| ow_paths := ow_paths owed ∪ paths; ow_recursive := ow_recursive owed; ow_scan := ow_scan owed |}
  | RecursivePaths paths => {| ow_paths := ow_paths owed; ow_recursive := ow_recursive owed ∪ paths; ow_scan := ow_scan owed |}
  | _ => {| ow_paths := ow_paths owed; ow_recursive := ow_recursive owed; ow_scan := true |}
  end.

(** One atomic step of a callback. *)
Definition callback_step (s : WatcherIngressAccumulator) (owed : Owed) (pc : CallbackPc)
    : option (WatcherIngressAccumulator * Owed * CallbackPc) :=
  match pc with
  | LoadConnected event => Some (s, owed, if wi_connected s then Watermark event else Returned EngineStopped)
  | Watermark event =>
      match u64_checked_add (wi_activity_watermark s) 1 with
      | Some next => Some (s <| wi_activity_watermark := next |>, owed, TryLock event)
      | None => Some (s, owe owed event, StoreCollapsed false (DetailCollapsed ActivityWatermarkExhausted))
      end
  | TryLock event =>
      if wi_locked s || wi_poisoned s then Some (s, owe owed event, StoreCollapsed false (DetailCollapsed LockContended))
      else Some (s <| wi_locked := true |>, owed, Merge event)
  | Merge event =>
      let '(state, outcome) := merge_event (wi_state s) event in
      Some (s <| wi_state := state |>, owe owed event,
            match outcome with DetailCollapsed _ => StoreCollapsed true outcome | _ => Unlock outcome end)
  | StoreCollapsed locked outcome =>
      Some (s <| wi_detail_collapsed := true |>, owed, if locked then Unlock outcome else ArmWake outcome)
  | Unlock outcome => Some (s <| wi_locked := false |>, owed, ArmWake outcome)
  | ArmWake outcome =>
      Some (s <| wi_wake_pending := true |>, owed, if wi_wake_pending s then Returned outcome else SendWake outcome)
  | SendWake outcome => Some (s <| wi_wake := true |>, owed, Returned outcome)
  | Disconnect => Some (s <| wi_connected := false |>, owed, ArmWake EngineStopped)
  | Returned _ => None
  end.

(** ** The drain *)

Inductive DrainPc :=
| Idle
| Lock
| Take
| SwapCollapsed (paths recursive : gset string)
| EmptyChannel (snapshot : WatcherIngressSnapshot)
| ClearPending (snapshot : WatcherIngressSnapshot)
| RearmTryLock (snapshot : WatcherIngressSnapshot)
| RearmUnlock (snapshot : WatcherIngressSnapshot) (has_paths : bool)
| RearmLoad (snapshot : WatcherIngressSnapshot) (has_paths : bool)
| RearmArm (snapshot : WatcherIngressSnapshot)
| RearmSend (snapshot : WatcherIngressSnapshot).

(** One atomic step of the engine's thread: the state, the ghost, where it is next, and the
    snapshot a drain returned.  [None] while it waits for the lock or the wake. *)
Definition drain_step (s : WatcherIngressAccumulator) (owed : Owed) (pc : DrainPc)
    : option (WatcherIngressAccumulator * Owed * DrainPc * option WatcherIngressSnapshot) :=
  match pc with
  | Idle => if wi_wake s then Some (s <| wi_wake := false |>, owed, Lock, None) else None
  | Lock =>
      if wi_locked s then None
      else if wi_poisoned s then Some (s <| wi_detail_collapsed := true |>, owed, SwapCollapsed ∅ ∅, None)
      else Some (s <| wi_locked := true |>, owed, Take, None)
  | Take =>
      let taken := wi_state s in
      Some (s <| wi_state := AccumulatorState_default |> <| wi_locked := false |>,
            {| ow_paths := ow_paths owed ∖ as_paths taken; ow_recursive := ow_recursive owed ∖ as_recursive_paths taken;
               ow_scan := ow_scan owed |},
            SwapCollapsed (as_paths taken) (as_recursive_paths taken), None)
  | SwapCollapsed paths recursive =>
      let scan := wi_detail_collapsed s in
      Some (s <| wi_detail_collapsed := false |>, if scan then owe_nothing else owed,
            EmptyChannel {| is_paths := paths; is_recursive_paths := recursive; is_scan_required := scan |}, None)
  | EmptyChannel snapshot =>
      if wi_wake s then Some (s <| wi_wake := false |>, owed, EmptyChannel snapshot, None)
      else Some (s, owed, ClearPending snapshot, None)
  | ClearPending snapshot => Some (s <| wi_wake_pending := false |>, owed, RearmTryLock snapshot, None)
  | RearmTryLock snapshot =>
      if wi_locked s || wi_poisoned s then Some (s, owed, RearmLoad snapshot true, None)
      else Some (s <| wi_locked := true |>, owed,
                 RearmUnlock snapshot (negb (bool_decide (as_paths (wi_state s) = ∅))
                                       || negb (bool_decide (as_recursive_paths (wi_state s) = ∅))), None)
  | RearmUnlock snapshot has_paths => Some (s <| wi_locked := false |>, owed, RearmLoad snapshot has_paths, None)
  | RearmLoad snapshot has_paths =>
      if has_paths || wi_detail_collapsed s then Some (s, owed, RearmArm snapshot, None)
      else Some (s, owed, Idle, Some snapshot)
  | RearmArm snapshot =>
      if wi_wake_pending s then Some (s <| wi_wake_pending := true |>, owed, Idle, Some snapshot)
      else Some (s <| wi_wake_pending := true |>, owed, RearmSend snapshot, None)
  | RearmSend snapshot => Some (s <| wi_wake := true |>, owed, Idle, Some snapshot)
  end.

(** ** All threads together *)

Record IngressWorld := {
  iw_shared : WatcherIngressAccumulator;
  iw_owed : Owed;
  iw_callbacks : list CallbackPc;
  iw_drain : DrainPc;
  (** the snapshots the drains returned, the last one first *)
  iw_snapshots : list WatcherIngressSnapshot;
}.

Definition ingress_start : IngressWorld := {|
  iw_shared := accumulator_new; iw_owed := owe_nothing; iw_callbacks := []; iw_drain := Idle; iw_snapshots := [] |}.

Inductive ingress_step : IngressWorld → IngressWorld → Prop :=
| step_observe w event :
    ingress_step w {| iw_shared := iw_shared w; iw_owed := iw_owed w; iw_callbacks := iw_callbacks w ++ [LoadConnected event];
                      iw_drain := iw_drain w; iw_snapshots := iw_snapshots w |}
| step_disconnect w :
    ingress_step w {| iw_shared := iw_shared w; iw_owed := iw_owed w; iw_callbacks := iw_callbacks w ++ [Disconnect];
                      iw_drain := iw_drain w; iw_snapshots := iw_snapshots w |}
| step_callback w i pc s owed pc' :
    iw_callbacks w !! i = Some pc → callback_step (iw_shared w) (iw_owed w) pc = Some (s, owed, pc') →
    ingress_step w {| iw_shared := s; iw_owed := owed; iw_callbacks := <[i := pc']> (iw_callbacks w);
                      iw_drain := iw_drain w; iw_snapshots := iw_snapshots w |}
(** a callback panics while it holds the lock *)
| step_poison w i event :
    iw_callbacks w !! i = Some (Merge event) →
    ingress_step w {| iw_shared := (iw_shared w) <| wi_poisoned := true |> <| wi_locked := false |>; iw_owed := iw_owed w;
                      iw_callbacks := <[i := Returned EngineStopped]> (iw_callbacks w);
                      iw_drain := iw_drain w; iw_snapshots := iw_snapshots w |}
(** the engine's loop drains in every round, woken or not *)
| step_call w :
    iw_drain w = Idle →
    ingress_step w {| iw_shared := iw_shared w; iw_owed := iw_owed w; iw_callbacks := iw_callbacks w;
                      iw_drain := Lock; iw_snapshots := iw_snapshots w |}
| step_drain w s owed pc snapshot :
    drain_step (iw_shared w) (iw_owed w) (iw_drain w) = Some (s, owed, pc, snapshot) →
    ingress_step w {| iw_shared := s; iw_owed := owed; iw_callbacks := iw_callbacks w; iw_drain := pc;
                      iw_snapshots := match snapshot with Some taken => taken :: iw_snapshots w | None => iw_snapshots w end |}.

Definition ingress_reachable (w : IngressWorld) : Prop := rtc ingress_step ingress_start w.

(** No thread is inside an operation. *)
Definition ingress_quiescent (w : IngressWorld) : Prop :=
  Forall (λ pc, match pc with Returned _ => True | _ => False end) (iw_callbacks w) ∧ iw_drain w = Idle.

(** A drain that runs alone, from its lock to its return; it has at most twelve steps. *)
Fixpoint drain_alone (fuel : nat) (s : WatcherIngressAccumulator) (owed : Owed) (pc : DrainPc)
    : option (WatcherIngressAccumulator * Owed * WatcherIngressSnapshot) :=
  match fuel with
  | O => None
  | Datatypes.S fuel =>
      '(s, owed, pc, snapshot) ← drain_step s owed pc;
      match snapshot with Some snapshot => Some (s, owed, snapshot) | None => drain_alone fuel s owed pc end
  end.

(** The snapshot answers for everything owed. *)
Definition covers (snapshot : WatcherIngressSnapshot) (owed : Owed) : Prop :=
  is_scan_required snapshot = true
  ∨ ow_paths owed ⊆ is_paths snapshot ∧ ow_recursive owed ⊆ is_recursive_paths snapshot ∧ ow_scan owed = false.
