(* ===== verification/IngressTheorems.v ===== *)
(** * Watcher ingress: theorems

    Whatever the interleaving of callbacks and drains, nothing a callback observed is lost, the
    engine is woken for it, and the accumulator stays within its bound. *)

From stdpp Require Import gmap.
From S2P Require Import Prelude.
From S2P Require Import Engine.
From S2P Require Import Ingress.
From S2P Require Import Paths.

(** ** What the threads are about to do *)

Definition collapses_soon (pc : CallbackPc) : bool := match pc with StoreCollapsed _ _ => true | _ => false end.
Definition arms_soon (pc : CallbackPc) : bool :=
  match pc with StoreCollapsed _ _ | Unlock _ | ArmWake _ => true | _ => false end.
Definition sends_soon (pc : CallbackPc) : bool := match pc with SendWake _ => true | _ => false end.
Definition holds_lock (pc : CallbackPc) : bool :=
  match pc with Merge _ | StoreCollapsed true _ | Unlock _ => true | _ => false end.

Definition some_callback (f : CallbackPc → bool) (w : IngressWorld) : Prop := ∃ i pc, iw_callbacks w !! i = Some pc ∧ f pc = true.

(** The drain has not yet cleared the pending flag. *)
Definition before_clear (pc : DrainPc) : bool :=
  match pc with Lock | Take | SwapCollapsed _ _ | EmptyChannel _ | ClearPending _ => true | _ => false end.

Definition has_data (s : WatcherIngressAccumulator) : Prop := as_paths (wi_state s) ≠ ∅ ∨ as_recursive_paths (wi_state s) ≠ ∅.

(** ** The invariant *)

Definition owed_accounted (w : IngressWorld) : Prop :=
  (ow_paths (iw_owed w) ⊆ as_paths (wi_state (iw_shared w))
   ∧ ow_recursive (iw_owed w) ⊆ as_recursive_paths (wi_state (iw_shared w)) ∧ ow_scan (iw_owed w) = false)
  ∨ wi_detail_collapsed (iw_shared w) = true ∨ some_callback collapses_soon w.

Definition pending_means_wake (w : IngressWorld) : Prop :=
  wi_wake_pending (iw_shared w) = true →
  wi_wake (iw_shared w) = true ∨ some_callback sends_soon w ∨ (∃ snapshot, iw_drain w = RearmSend snapshot)
  ∨ before_clear (iw_drain w) = true.

Definition armed (w : IngressWorld) : Prop := wi_wake_pending (iw_shared w) = true ∨ some_callback arms_soon w.

Definition work_is_armed (w : IngressWorld) : Prop :=
  match iw_drain w with
  | Idle | RearmSend _ => has_data (iw_shared w) ∨ wi_detail_collapsed (iw_shared w) = true → armed w
  | RearmUnlock _ false | RearmLoad _ false => has_data (iw_shared w) → armed w
  | _ => True
  end.

Definition lock_owned (w : IngressWorld) : Prop :=
  wi_locked (iw_shared w) = true →
  some_callback holds_lock w ∨ match iw_drain w with Take | RearmUnlock _ _ => True | _ => False end.

Definition within_bound (w : IngressWorld) : Prop :=
  (accumulated (wi_state (iw_shared w)) ≤ MAX_ACCUMULATED_ROOTS)%nat
  ∧ match iw_drain w with
    | SwapCollapsed paths recursive => (size paths + size recursive ≤ MAX_ACCUMULATED_ROOTS)%nat
    | EmptyChannel s | ClearPending s | RearmTryLock s | RearmUnlock s _ | RearmLoad s _ | RearmArm s | RearmSend s =>
        (size (is_paths s) + size (is_recursive_paths s) ≤ MAX_ACCUMULATED_ROOTS)%nat
    | _ => True
    end
  ∧ Forall (λ s, (size (is_paths s) + size (is_recursive_paths s) ≤ MAX_ACCUMULATED_ROOTS)%nat) (iw_snapshots w).

Record ingress_invariant (w : IngressWorld) : Prop := {
  inv_owed : owed_accounted w;
  inv_pending : pending_means_wake w;
  inv_armed : work_is_armed w;
  inv_lock : lock_owned w;
  inv_bound : within_bound w;
}.

(** ** Callbacks that stay *)

Lemma some_callback_app f w pcs s owed d l : some_callback f w →
  some_callback f {| iw_shared := s; iw_owed := owed; iw_callbacks := iw_callbacks w ++ pcs; iw_drain := d; iw_snapshots := l |}.
Proof. intros (i & pc & Hi & Hf). exists i, pc. split; [|done]. cbn. by apply lookup_app_l_Some. Qed.

Lemma some_callback_same f w s owed d l : some_callback f w →
  some_callback f {| iw_shared := s; iw_owed := owed; iw_callbacks := iw_callbacks w; iw_drain := d; iw_snapshots := l |}.
Proof. done. Qed.

Lemma some_callback_insert f w i pc pc' s owed d l : iw_callbacks w !! i = Some pc → (f pc = true → f pc' = true) →
  some_callback f w →
  some_callback f {| iw_shared := s; iw_owed := owed; iw_callbacks := <[i := pc']> (iw_callbacks w); iw_drain := d; iw_snapshots := l |}.
Proof.
  intros Hi Himp (j & pcj & Hj & Hf). unfold some_callback. cbn. destruct (decide (i = j)) as [<-|Hne].
  - exists i, pc'. rewrite list_lookup_insert_eq by by eapply lookup_lt_Some. split; [done|]. apply Himp. congruence.
  - exists j, pcj. by rewrite list_lookup_insert_ne.
Qed.

Lemma some_callback_new f w i pc pc' s owed d l : iw_callbacks w !! i = Some pc → f pc' = true →
  some_callback f {| iw_shared := s; iw_owed := owed; iw_callbacks := <[i := pc']> (iw_callbacks w); iw_drain := d; iw_snapshots := l |}.
Proof. intros Hi Hf. exists i, pc'. cbn. rewrite list_lookup_insert_eq by by eapply lookup_lt_Some. done. Qed.

(** ** A step of a callback *)

Lemma merge_outcome state event : let '(state', outcome) := merge_event state event in
  match outcome with
  | Accumulated => ∀ owed, ow_paths owed ⊆ as_paths state → ow_recursive owed ⊆ as_recursive_paths state → ow_scan owed = false →
      ow_paths (owe owed event) ⊆ as_paths state' ∧ ow_recursive (owe owed event) ⊆ as_recursive_paths state'
      ∧ ow_scan (owe owed event) = false
  | DetailCollapsed _ => True
  | EngineStopped => False
  end.
Proof.
  unfold merge_event. destruct event; try done; destruct (_ <? _)%nat; try done; cbn; intros owed ???; split_and!; set_solver.
Qed.

Lemma merge_bound state event : (accumulated state ≤ MAX_ACCUMULATED_ROOTS)%nat →
  (accumulated (merge_event state event).1 ≤ MAX_ACCUMULATED_ROOTS)%nat.
Proof.
  assert (∀ paths recursive, accumulated (retain_latest_paths paths recursive) ≤ MAX_ACCUMULATED_ROOTS)%nat as Hretain.
  { intros paths recursive. unfold retain_latest_paths. destruct (Nat.leb_spec (size paths) MAX_ACCUMULATED_ROOTS);
      [destruct recursive|]; unfold accumulated; cbn; rewrite ?size_empty; lia. }
  unfold merge_event. destruct event; try done; destruct (Nat.ltb_spec MAX_ACCUMULATED_ROOTS (accumulated state + size paths)); try apply Hretain;
    unfold accumulated in *; cbn; pose proof (size_union_alt (as_paths state) paths); pose proof (size_union_alt (as_recursive_paths state) paths);
    pose proof (subseteq_size (paths ∖ as_paths state) paths); pose proof (subseteq_size (paths ∖ as_recursive_paths state) paths); set_solver by lia.
Qed.

Section CallbackStep.
Context (w : IngressWorld) (i : nat) (pc : CallbackPc) (s : WatcherIngressAccumulator) (owed : Owed) (pc' : CallbackPc).
Context (Hpc : iw_callbacks w !! i = Some pc) (Hstep : callback_step (iw_shared w) (iw_owed w) pc = Some (s, owed, pc')).

Abbreviation after := {| iw_shared := s; iw_owed := owed; iw_callbacks := <[i := pc']> (iw_callbacks w);
                         iw_drain := iw_drain w; iw_snapshots := iw_snapshots w |}.

Ltac stays := eapply some_callback_insert; [exact Hpc|done|eassumption].
Ltac joins := eapply some_callback_new; [exact Hpc|done].

Lemma callback_owed : owed_accounted w → owed_accounted after.
Proof using Hpc Hstep.
  unfold owed_accounted. cbn [iw_shared iw_owed].
  destruct pc; cbn in Hstep; repeat case_match; simplify_eq/=; try (intros [?|[?|?]]; [by left|by right; left|right; right; stays]).
  all: try (intros _; right; right; joins). all: try (intros _; by right; left).
  all: match goal with H : merge_event _ _ = _ |- _ => pose proof (merge_outcome (wi_state (iw_shared w)) event) as Hm; rewrite H in Hm end.
  - intros [(?&?&?)|[?|?]]; [left; by apply Hm|by right; left|right; right; stays].
  - done.
Qed.

Lemma callback_pending : pending_means_wake w → pending_means_wake after.
Proof using Hpc Hstep.
  unfold pending_means_wake. cbn [iw_shared iw_drain].
  destruct pc; cbn in Hstep; repeat case_match; simplify_eq/=; intros Hp Hpend.
  all: try (by left). all: try (right; left; joins).
  all: destruct (Hp ltac:(done)) as [?|[?|[?|?]]]; [by left|right; left; stays|by right; right; left|by right; right; right].
Qed.

Lemma callback_armed : work_is_armed w → work_is_armed after.
Proof using Hpc Hstep.
  assert (armed after ∨ (has_data s → has_data (iw_shared w))
          ∧ (wi_detail_collapsed s = true → wi_detail_collapsed (iw_shared w) = true) ∧ (armed w → armed after)) as Hor.
  { unfold armed, has_data. cbn [iw_shared].
    destruct pc; cbn in Hstep; repeat case_match; simplify_eq/=; try (left; right; joins); try (left; by left).
    all: right; split_and!; [done..|]; intros [?|?]; [by left|right; stays]. }
  unfold work_is_armed. cbn [iw_drain iw_shared]. intros Hw. repeat case_match; try done; tauto.
Qed.

Lemma callback_lock : lock_owned w → lock_owned after.
Proof using Hpc Hstep.
  unfold lock_owned. cbn [iw_shared iw_drain].
  destruct pc; cbn in Hstep; repeat case_match; simplify_eq/=; intros Hl Hlocked; try done.
  all: try (left; joins). all: destruct (Hl ltac:(done)) as [?|?]; [left; stays|by right].
Qed.

Lemma callback_bound : within_bound w → within_bound after.
Proof using Hpc Hstep.
  unfold within_bound. cbn [iw_shared iw_drain iw_snapshots].
  intros (Hb & Hd & Hs). split_and!; [|done..]. pose proof (merge_bound (wi_state (iw_shared w))) as Hm.
  destruct pc; cbn in Hstep; repeat case_match; simplify_eq/=; try done.
  all: specialize (Hm event Hb); by match goal with H : merge_event _ _ = _ |- _ => rewrite H in Hm end.
Qed.

Lemma callback_invariant : ingress_invariant w → ingress_invariant after.
Proof using Hpc Hstep.
  intros [Ho Hp Ha Hl Hb]. split; [by apply callback_owed|by apply callback_pending|by apply callback_armed|by apply callback_lock|by apply callback_bound].
Qed.
End CallbackStep.

(** ** A step of the drain *)

Section DrainStep.
Context (w : IngressWorld) (s : WatcherIngressAccumulator) (owed : Owed) (pc : DrainPc) (snapshot : option WatcherIngressSnapshot).
Context (Hstep : drain_step (iw_shared w) (iw_owed w) (iw_drain w) = Some (s, owed, pc, snapshot)).

Abbreviation drained := {| iw_shared := s; iw_owed := owed; iw_callbacks := iw_callbacks w; iw_drain := pc;
  iw_snapshots := match snapshot with Some taken => taken :: iw_snapshots w | None => iw_snapshots w end |}.

Lemma drain_owed : owed_accounted w → owed_accounted drained.
Proof using Hstep.
  unfold owed_accounted. cbn [iw_shared iw_owed]. unfold drain_step in Hstep.
  destruct (iw_drain w); repeat case_match; simplify_eq/=; try (by intros [?|[?|?]]; [left|right; left|right; right]).
  all: try (by right; left).
  - intros [(?&?&?)|[?|?]]; [left|by right; left|by right; right]. split_and!; set_solver.
  - by left.
Qed.

Lemma drain_pending : pending_means_wake w → pending_means_wake drained.
Proof using Hstep.
  unfold pending_means_wake. cbn [iw_shared iw_drain]. unfold drain_step in Hstep.
  destruct (iw_drain w); repeat case_match; simplify_eq/=; intros Hp Hpend; try done; try (by right; right; right); try (by left);
    try (right; right; left; by eexists).
  all: destruct (Hp ltac:(done)) as [?|[?|[[? ?]|?]]]; try done; (by left) || (by right; left).
Qed.

Lemma drain_armed : work_is_armed w → work_is_armed drained.
Proof using Hstep.
  unfold work_is_armed, armed, has_data. cbn [iw_shared iw_drain]. unfold drain_step in Hstep.
  destruct (iw_drain w); repeat case_match; simplify_eq/=; try done; try (by left); try tauto.
  - intros _ Hdata. apply orb_false_iff in H0 as [Hp%negb_false_iff%bool_decide_eq_true Hr%negb_false_iff%bool_decide_eq_true].
    by destruct Hdata.
  - intros Hw [Hd|Hc]; [by apply Hw|congruence].
Qed.

Lemma drain_lock : lock_owned w → lock_owned drained.
Proof using Hstep.
  unfold lock_owned. cbn [iw_shared iw_drain]. unfold drain_step in Hstep.
  destruct (iw_drain w); repeat case_match; simplify_eq/=; intros Hl Hlocked; try congruence; try (by right).
  all: destruct (Hl Hlocked) as [?|[]]; by left.
Qed.

Lemma drain_bound : within_bound w → within_bound drained.
Proof using Hstep.
  unfold within_bound. cbn [iw_shared iw_drain iw_snapshots]. unfold drain_step in Hstep. intros (Hb & Hd & Hs).
  destruct (iw_drain w); repeat case_match; simplify_eq/=; split_and!; try done; try (by constructor).
  all: unfold accumulated in *; cbn [as_paths as_recursive_paths AccumulatorState_default] in *; rewrite ?size_empty;
    (lia || (vm_compute; lia)).
Qed.

Lemma drain_invariant : ingress_invariant w → ingress_invariant drained.
Proof using Hstep.
  intros [Ho Hp Ha Hl Hb]. split; [by apply drain_owed|by apply drain_pending|by apply drain_armed|by apply drain_lock|by apply drain_bound].
Qed.
End DrainStep.

(** ** Every reachable state *)

Lemma start_invariant : ingress_invariant ingress_start.
Proof.
  split; [by left|done| |done|].
  - intros [[|]|]; done.
  - unfold within_bound, accumulated. cbn. rewrite !size_empty. split_and!; [unfold MAX_ACCUMULATED_ROOTS; lia|done|constructor].
Qed.

(** A new callback changes nothing yet. *)
Lemma spawn_invariant w pcs : ingress_invariant w →
  ingress_invariant {| iw_shared := iw_shared w; iw_owed := iw_owed w; iw_callbacks := iw_callbacks w ++ pcs;
                       iw_drain := iw_drain w; iw_snapshots := iw_snapshots w |}.
Proof.
  intros [Ho Hp Ha Hl Hb]. split; [| | | |done].
  - destruct Ho as [?|[?|?]]; [by left|by right; left|right; right; by apply some_callback_app].
  - intros Hpend. destruct (Hp Hpend) as [?|[?|[?|?]]];
      [by left|right; left; by apply some_callback_app|by right; right; left|by right; right; right].
  - unfold work_is_armed, armed in *. cbn [iw_drain iw_shared].
    repeat case_match; try done; intros Hd; (destruct (Ha Hd) as [?|?]; [by left|right; by apply some_callback_app]).
  - intros Hlocked. destruct (Hl Hlocked) as [?|?]; [left; by apply some_callback_app|by right].
Qed.

(** A callback that panics with the lock gives it back. *)
Lemma poison_invariant w i event : iw_callbacks w !! i = Some (Merge event) → ingress_invariant w →
  ingress_invariant {| iw_shared := (iw_shared w) <| wi_poisoned := true |> <| wi_locked := false |>; iw_owed := iw_owed w;
                       iw_callbacks := <[i := Returned EngineStopped]> (iw_callbacks w);
                       iw_drain := iw_drain w; iw_snapshots := iw_snapshots w |}.
Proof.
  intros Hi [Ho Hp Ha Hl Hb]. split; [| | |done|done].
  - destruct Ho as [?|[?|?]]; [by left|by right; left|right; right; by eapply some_callback_insert].
  - intros Hpend. destruct (Hp Hpend) as [?|[?|[?|?]]];
      [by left|right; left; by eapply some_callback_insert|by right; right; left|by right; right; right].
  - unfold work_is_armed, armed in *. cbn [iw_drain iw_shared].
    repeat case_match; try done; intros Hd; (destruct (Ha Hd) as [?|?]; [by left|right; by eapply some_callback_insert]).
Qed.

Lemma call_invariant w : iw_drain w = Idle → ingress_invariant w →
  ingress_invariant {| iw_shared := iw_shared w; iw_owed := iw_owed w; iw_callbacks := iw_callbacks w;
                       iw_drain := Lock; iw_snapshots := iw_snapshots w |}.
Proof.
  intros Hi [Ho Hp Ha Hl Hb]. split; [done| |done| |].
  - intros _. by right; right; right.
  - intros Hlocked. destruct (Hl Hlocked) as [?|Hd]; [by left|by rewrite Hi in Hd].
  - destruct Hb as (? & _ & ?). done.
Qed.

Lemma step_invariant w w' : ingress_step w w' → ingress_invariant w → ingress_invariant w'.
Proof.
  destruct 1; intros Hinv; [by apply spawn_invariant|by apply spawn_invariant|by eapply callback_invariant
    |by eapply poison_invariant|by apply call_invariant|by eapply drain_invariant].
Qed.

Lemma reachable_invariant w : ingress_reachable w → ingress_invariant w.
Proof.
  revert w. unfold ingress_reachable. apply rtc_ind_r; [apply start_invariant|].
  intros w w' _ Hs Hinv. by eapply step_invariant.
Qed.

(** ** A drain that runs alone *)

(** It takes everything, in at most nine steps. *)
Lemma drain_alone_takes s owed : wi_locked s = false →
  ∃ s' owed' snapshot, drain_alone 12 s owed Lock = Some (s', owed', snapshot) ∧
    (wi_detail_collapsed s = true ∨ wi_poisoned s = true → is_scan_required snapshot = true) ∧
    (wi_poisoned s = false → is_paths snapshot = as_paths (wi_state s)
                             ∧ is_recursive_paths snapshot = as_recursive_paths (wi_state s)).
Proof.
  intros Hl. destruct s as [state locked [] collapsed mark pending connected []]; cbn in Hl; subst locked.
  all: destruct collapsed, pending; cbn; repeat (case_match; cbn); simplify_eq; try done.
  all: eexists _, _, _; split; [reflexivity|]; cbn; naive_solver.
Qed.

(** ** Properties *)

(** C21: Nothing a callback observed is lost, however callbacks, disconnects, panics and drains
    interleave.  When no thread is inside an operation and something is owed, the wake is in
    the channel; and the next drain returns a snapshot that answers for everything owed, with
    the very paths or with a scan. *)
Theorem ingress_loses_nothing w :
  ingress_reachable w → ingress_quiescent w →
  (iw_owed w ≠ owe_nothing → wi_wake (iw_shared w) = true)
  ∧ ∃ s owed snapshot, drain_alone 12 (iw_shared w) (iw_owed w) Lock = Some (s, owed, snapshot) ∧ covers snapshot (iw_owed w).
Proof.
  intros Hr [Hq Hd]. destruct (reachable_invariant w Hr) as [Ho Hp Ha Hl _].
  assert (∀ f, (∀ outcome, f (Returned outcome) = false) → ¬ some_callback f w) as Hnone.
  { intros f Hf (i & pc & Hi & Hpc). rewrite Forall_lookup in Hq. specialize (Hq i pc Hi). destruct pc; try done. by rewrite Hf in Hpc. }
  assert (wi_locked (iw_shared w) = false) as Hfree.
  { apply not_true_is_false. intros Hlocked. destruct (Hl Hlocked) as [Hc|Hc]; [by apply Hnone in Hc|by rewrite Hd in Hc]. }
  unfold work_is_armed in Ha. rewrite Hd in Ha. split.
  - intros Howed. assert (armed w) as [Hpend|Hc]; [|destruct (Hp Hpend) as [?|[Hc|[[? Hc]|Hc]]]|by apply Hnone in Hc];
      [|done|by apply Hnone in Hc|by rewrite Hd in Hc|by rewrite Hd in Hc].
    apply Ha. destruct Ho as [(Hpaths & Hrec & Hscan)|[?|Hc]]; [|by right|by apply Hnone in Hc]. left.
    unfold has_data. destruct (decide (as_paths (wi_state (iw_shared w)) = ∅)) as [He|]; [right|by left].
    intros Hr'. apply Howed. destruct (iw_owed w) as [paths recursive scan]. cbn in *.
    rewrite He in Hpaths. rewrite Hr' in Hrec. unfold owe_nothing. subst scan. f_equal; set_solver.
  - destruct (drain_alone_takes (iw_shared w) (iw_owed w) Hfree) as (s & owed & snapshot & Hrun & Hscan & Htake).
    exists s, owed, snapshot. split; [done|]. unfold covers. destruct (wi_poisoned (iw_shared w)) eqn:Epoison; [left; auto|].
    destruct (Htake eq_refl) as [-> ->]. destruct Ho as [?|[?|Hc]]; [by right|left; auto|by apply Hnone in Hc].
Qed.

(** At no time does the accumulator hold more than 256 roots, nor does any snapshot, however
    many events of however many paths the callbacks bring. *)
Theorem ingress_bounded w : ingress_reachable w →
  (accumulated (wi_state (iw_shared w)) ≤ MAX_ACCUMULATED_ROOTS)%nat
  ∧ Forall (λ s, (size (is_paths s) + size (is_recursive_paths s) ≤ MAX_ACCUMULATED_ROOTS)%nat) (iw_snapshots w).
Proof. intros Hr. destruct (reachable_invariant w Hr) as [_ _ _ _ (? & _ & ?)]. done. Qed.
