(* ===== verification/IngressWitnesses.v ===== *)
(** * Watcher ingress: a run

    Two callbacks and a drain whose steps interleave: the second callback finds the lock held,
    so its path is answered by a scan. *)

From stdpp Require Import gmap.
From S2P Require Import Prelude.
From S2P Require Import Engine.
From S2P Require Import Ingress.
From S2P Require Import IngressTheorems.
From S2P Require Import Paths.

(** ** Schedules *)

(** What happens next: a callback starts, one makes a step, the engine calls [drain], or its
    drain makes a step. *)
Inductive IngressAction := Observe (event : EngineEvent) | CallbackGoes (i : nat) | DrainCalled | DrainGoes.

Definition ingress_act (w : IngressWorld) (action : IngressAction) : option IngressWorld :=
  match action with
  | Observe event =>
      Some {| iw_shared := iw_shared w; iw_owed := iw_owed w; iw_callbacks := iw_callbacks w ++ [LoadConnected event];
              iw_drain := iw_drain w; iw_snapshots := iw_snapshots w |}
  | CallbackGoes i =>
      pc ← iw_callbacks w !! i;
      '(s, owed, pc') ← callback_step (iw_shared w) (iw_owed w) pc;
      Some {| iw_shared := s; iw_owed := owed; iw_callbacks := <[i := pc']> (iw_callbacks w);
              iw_drain := iw_drain w; iw_snapshots := iw_snapshots w |}
  | DrainCalled =>
      match iw_drain w with
      | Idle => Some {| iw_shared := iw_shared w; iw_owed := iw_owed w; iw_callbacks := iw_callbacks w;
                        iw_drain := Lock; iw_snapshots := iw_snapshots w |}
      | _ => None
      end
  | DrainGoes =>
      '(s, owed, pc, snapshot) ← drain_step (iw_shared w) (iw_owed w) (iw_drain w);
      Some {| iw_shared := s; iw_owed := owed; iw_callbacks := iw_callbacks w; iw_drain := pc;
              iw_snapshots := match snapshot with Some taken => taken :: iw_snapshots w | None => iw_snapshots w end |}
  end.

Lemma ingress_act_step w action w' : ingress_act w action = Some w' → ingress_step w w'.
Proof.
  destruct action as [event|i| |]; cbn [ingress_act].
  - intros [= <-]. constructor.
  - destruct (iw_callbacks w !! i) as [pc|] eqn:Hi; [|done]. cbn [mbind option_bind].
    destruct (callback_step _ _ pc) as [[[s owed] pc']|] eqn:Hs; [|done]. intros [= <-]. by eapply step_callback.
  - destruct (iw_drain w) eqn:Hd; try done. intros [= <-]. by apply step_call.
  - destruct (drain_step _ _ _) as [[[[s owed] pc] snapshot]|] eqn:Hs; [|done]. intros [= <-]. by eapply step_drain.
Qed.

Fixpoint ingress_run (w : IngressWorld) (actions : list IngressAction) : option IngressWorld :=
  match actions with
  | [] => Some w
  | action :: actions => w ← ingress_act w action; ingress_run w actions
  end.

Lemma ingress_run_reachable actions : ∀ w w', ingress_reachable w → ingress_run w actions = Some w' → ingress_reachable w'.
Proof.
  induction actions as [|action actions IH]; intros w w' Hr; cbn [ingress_run]; [by intros [= <-]|].
  destruct (ingress_act w action) as [w1|] eqn:Ha; [|done]. cbn [mbind option_bind]. apply IH.
  eapply rtc_r; [exact Hr|by eapply ingress_act_step].
Qed.

(** ** The run *)

(** The callback of [b] tries the lock while that of [a] holds it. *)
Definition contended : list IngressAction :=
  [Observe (Engine.Paths {["a"]}); Observe (RecursivePaths {["b"]});
   CallbackGoes 0; CallbackGoes 0; CallbackGoes 0; CallbackGoes 1; CallbackGoes 1; CallbackGoes 1;
   CallbackGoes 0; CallbackGoes 1; CallbackGoes 0; CallbackGoes 1; CallbackGoes 0; CallbackGoes 1].

Definition contended_world : option IngressWorld := ingress_run ingress_start contended.

Definition world_or_start (w : option IngressWorld) : IngressWorld := default ingress_start w.

Example contended_state :
  (λ w, (wi_wake (iw_shared w), wi_detail_collapsed (iw_shared w), as_paths (wi_state (iw_shared w)),
         ow_recursive (iw_owed w), iw_callbacks w)) <$> contended_world
  = Some (true, true, {["a"]}, {["b"]}, [Returned Accumulated; Returned (DetailCollapsed LockContended)]).
Proof. by vm_compute. Qed.

Lemma ingress_loses_nothing_witness :
  let w := world_or_start contended_world in
  (iw_owed w ≠ owe_nothing → wi_wake (iw_shared w) = true)
  ∧ ∃ s owed snapshot, drain_alone 12 (iw_shared w) (iw_owed w) Lock = Some (s, owed, snapshot) ∧ covers snapshot (iw_owed w).
Proof.
  apply (ingress_loses_nothing (world_or_start contended_world)).
  - apply (ingress_run_reachable contended ingress_start); [apply rtc_refl|vm_compute; reflexivity].
  - split; [|vm_compute; reflexivity]. vm_compute. repeat constructor.
Defined.
